(* ===== verification/_CoqProject ===== *)
-Q . S2P
Prelude.v
Bytes.v
Types.v
Crypto.v
Toy.v
Vrf.v
Config.v
Leader.v
Dag.v
Linearize.v
Bullshark.v
MicroAgreement.v
MacroState.v
MacroAgg.v
Slashing.v
MacroFin.v
MacroChain.v
VertexCert.v
StateMachine.v
MacroSafety.v
MacroAgreement.v
MacroFinality.v
MacroProgress.v
Storage.v
Persistence.v
Gf256.v
LinAlg.v
RsMatrix.v
Erasure.v
Blob.v
BlobNode.v
BootScan.v
CustodyPort.v
Net.v
Swarm.v
Node.v
Inbound.v
NodeConfig.v
Rpc.v
Pubkey.v
Sim.v
SimWorld.v
Scenarios.v
Cli.v
