(* ===== verification/Prelude.v ===== *)
(** A Rocq model of lua-dag-consensus, a three-layer DAG consensus in Rust.

    * The program *

    Validators build a DAG of signed vertices, one per validator and round.
    Layer L1 ([crates/consensus/src/vertex_cert]) collects a quorum of partial
    signatures on each vertex into a certificate and moves the validator from
    round to round.  Layer L2 ([crates/consensus/src/bullshark]) groups four
    rounds into a wave, elects an anchor per wave, commits it when enough later
    vertices lead to it, linearizes its causal past and emits a micro
    certificate.  Layer L3 ([crates/consensus/src/macro_fin]) collects the
    micro checkpoints of a window into a macro checkpoint, votes for it in one
    of three aggregation modes and finalizes by the two-chain rule.
    [crates/consensus/src/state_machine.rs] puts the layers behind one [step].
    The state machine is deterministic and does no I/O: the host passes in
    events and ports ([HostContext]) and carries out the returned actions.

    * Conventions *

    A Rust integer is a [Z]; [add_w] and [mul_w] are its arithmetic at width
    [w], which panics on overflow when the class [Build] says overflow checks
    are on and wraps otherwise.  The release profile of src/Cargo.toml leaves them off, so
    theorems about runs hold for both: where a counter that wraps would matter they ask, by
    [no_wrap], that with the checks off the run has fewer than [2^64 - 1] calls, on hosts whose
    quorums are of at least two; their witnesses are on a release build.  An [f64] is a [spec_float].  A map is a [gmap], a
    set a [gset]; where the Rust type is ordered (BTreeMap, BTreeSet) the model
    iterates in key order ([btree_entries]).  A call returns an [outcome]: [Ok],
    [Err], [Panic], or [NoFuel] when the model's recursion bound is exceeded; a
    call on [&mut] state is in the monad [M], which keeps the mutations made
    before a failure, as Rust does.  The host's ports are the fields of
    [HostContext], each of which may fail.  blake3, blst and the VRF are the class
    [Primitives], with the algebra of aggregate signatures in [BlsLaws]; Borsh
    encodings are the class [Borsh].  [Toy] instantiates all of them, so that
    the witnesses evaluate.

    * The files *

    - [Prelude]: outcomes, the state monad and its weakest preconditions,
      record update, list lemmas, tactics.
    - [Bytes]: machine integers, byte encodings, lexicographic order, BTree views.
    - [Types]: crates/types; events and actions of crates/consensus.
    - [Crypto]: crates/crypto (hash.rs, bls): tags, bitmaps, signatures;
      [Toy] is a concrete instance of its parameters.
    - [Config]: config.rs, error.rs, host_context.rs, ports, f64 arithmetic.
    - [Leader]: leader/: timer ids, sortition score, reputation, beacon.
    - [Dag]: crates/dag cert.rs, signing.rs, devnet.rs.
    - [Linearize]: bullshark/linearize.rs and the walk of bullshark/commit.rs.
    - [Bullshark]: the rest of bullshark/; [MicroState] is the pair
      ([EmittedSet], [WaveBook]) its handlers borrow.  [MicroAgreement]: nodes emit the same
      certificate for a wave.
    - [MacroState]: lock_macro.rs and the structures of macro_fin/ (two_chain.rs,
      vote_book.rs, timer.rs, window.rs, checkpoint.rs, messages.rs, book.rs).
    - [MacroAgg]: macro_fin/aggregation, macro_qc.rs, verify.rs, proposer.rs.
    - [Slashing]: slashing/.
    - [MacroFin]: the handlers of macro_fin/mod.rs over [MacroBook].
    - [VertexCert]: vertex_cert/; [VertexState] is [VertexBook] with the
      host's queue of pending blobs.
    - [StateMachine]: state_machine.rs: [step], [sm_genesis_propose], and runs of
      them ([sm_run]).
    - [MacroChain]: runs of the macro layer and the chain of adopted checkpoints;
      [MacroSafety]: the invariant behind one vote per height;
      [MacroAgreement]: the macro layer of a run of the state machine, and agreement of
      macro certificates; [MacroFinality]: what validators report as finalized, and agreement
      of their chains;
      [MacroProgress]: a quorum of partial signatures is adopted.
    - [Storage]: crates/storage: keys, column families, access to RocksDB, every
      store, the write batch; [Persistence]: its persistence_impl.rs.
    - [Gf256], [RsMatrix], [Erasure]: crates/dag erasure/ (gf256.rs, rs.rs, config.rs,
      error.rs); [LinAlg] is the linear algebra their theorems use.
    - [Blob]: crates/dag blob/, erasure/commit.rs and da/.
    - [BlobNode]: apps/node blob/ (mod.rs, rocks_store.rs): publishing, custody and
      boot recovery on a node, over [Storage] and [Blob]; [BootScan]: the scan for orphan
      chunks; [CustodyPort]: custody behind the port of host_context.rs that [VertexCert]
      reads.
    - [Vrf]: crates/crypto vrf/ecvrf and kdf.rs over an abstract group ([Curve]).
    - [Net]: crates/net: topics, gossip wire, what the swarm does with messages and
      actions, subscriptions, publisher window, peers, identities; [Swarm]: listening
      addresses and the health routes.
    - [Node]: apps/node: live_dag.rs, host_context.rs, timer.rs, action_applier.rs,
      orchestrator.rs, query.rs: the loop around [StateMachine]; [Inbound]: how messages reach
      it, and shutdown (swarm_runner.rs, runtime.rs); [NodeConfig]: layered
      configuration, development keys, start-up; [Rpc]: rpc_server.rs; [Pubkey]: the text and
      binary forms of BLS keys (crates/types crypto_types.rs).
    - [Sim]: apps/sim: network, timers, storage and checkers; [SimWorld]: world.rs, keys.rs,
      vertex_factory.rs and the adversary; [Scenarios]: scenarios/.
    - [Cli]: apps/cli: the subcommands, and the stub host of replay-log.

    * What is shown *

    L1.  A verified certificate is a quorum's ([verify_certified_vertex_spec]),
    two of them share an honest signer ([quorum_intersection]); honest nodes
    vote once per round and author and propose once per round over any run
    ([vote_and_propose_once]), so certificates are unique
    ([certified_vertex_unique]).  What a vote promises is
    [on_vertex_proposal_votes]; that advancement ends, stops only where certificates
    are missing, and yields valid certificates is [on_certified_vertex_advances].
    L2.  Both walks compute reachability and end; nodes agree on anchors, and with the
    same causal past on micro certificates ([micro_certificates_agree]); the
    commit rule is a support count; over any run a checkpoint is certified once
    and no wave is forgotten.  L3.  Assembled certificates verify in every
    mode; schedules, mode selection and canonical choice are deterministic and
    bounded; locks and the two-chain rule mean what they say; the leak notice comes
    once; a received certificate takes effect exactly when it is new, is of a known candidate and
    verifies, and otherwise leaves the book alone ([on_macro_qc_received_spec]).  Slashing.  The scans find
    exactly the slashable votes and their evidence convicts; the forgeries the
    verifiers admit are theorems too.  Composition.  A validator never contradicts
    itself over any sequence of host calls ([validator_never_repeats]), and
    reports finality only for a two-chained checkpoint that it adopted
    ([finalized_is_two_chained]).
    It signs checkpoints of one hash per height ([macro_votes_once]), so that certificates of
    [2f + 1] bits agree at a height ([macro_certificates_agree]) and honest validators that
    adopt only such certificates finalize along one chain ([finality_agrees]), provided that
    proposals carry the hash of their content; the handler does not check that, and
    [replayed_proposal_equivocates] is what an adversary makes of it.  A quorum of partial
    signatures is adopted by the one validator that assembles ([quorum_certifies]); if that one
    stops, no other does ([lowest_signer_stalls]).

    Storage.  The persistence port refines an abstract store of artifacts
    ([persistence_refines]), blob tiers only rise, across restarts too, votes round-trip; RocksDB is the
    class [RocksDb] with the laws [RocksLaws].  Blobs.  Table arithmetic is GF(2^8);
    elimination inverts exactly the regular matrices; any [k] of the [n] shards of a
    payload give it back, and the decoder answers on any input; an availability
    response with [k] shards is judged correctly up to hash collisions; custody
    becomes available at the [k]-th distinct shard; over any sequence of calls
    and restarts a [Ready] row has the chunks of its payload on disk, but for those that
    gossip has replaced ([ready_means_durable]), and what was published is proposed
    after a crash.  The gaps of the ingest path are theorems as well
    ([custody_poisoned], [attached_not_terminal], [gossiped_blob_is_orphan]).  A published blob rides in the
    next proposal, once ([published_blob_is_proposed]), and the RPC reads back what it
    accepted ([submit_then_read]).

    The node.  Whatever the channels refuse and the database fails, the loop around the
    state machine carries its actions out as specified ([dispatch_actions_spec]); what leaves
    a node never equivocates, its DAG holds only verified certificates, and the DAGs of two
    nodes agree on every slot ([node_never_equivocates], [node_dag_certified],
    [node_dags_agree]).  Gossip delivers what was sent ([gossip_roundtrip]),
    and what the orchestrator takes of it is in order, with every loss counted
    ([intake_in_order]).  A node told to stop waits for itself
    ([shutdown_never_completes]).  A started node
    has the configuration its layers, arguments and environment determine, setting by setting
    ([load_precedence], [run_async_spec]) and says it is ready when [readyz_spec] says.
    Proofs of the VRF verify ([vrf_complete]).

    The simulator.  Its storage is the node's ([simulated_storage_faithful]), its network
    keeps order; in every scenario what validators hear, store and put in the shared DAG was
    said by a state machine, and the verdicts of a report mean what they say
    ([dispatch_authentic]).  The command-line tool.  [replay_spec] says what a replay under the
    stub host answers to any log; printed seeds regenerate key bundles.

    * Fuel *

    The walks of [Linearize] take one unit per dequeued hash: the number of
    hashes reachable, plus two, is enough.  The mutual recursion of
    [VertexCert] takes one unit per call: four per round up to one past the
    highest certified round are enough when the quorum is at least two; with a
    quorum of one (three validators or fewer) the Rust recursion does not
    terminate ([genesis_alone_recurses]).  The Merkle loop of [Blob] takes one unit
    per round, at most the number of leaves.  In [SimWorld], [step_validator] and
    [apply_actions] call each other and take one unit per level of calls; the invariant of the
    world holds for every amount and outcome, and five are enough for the scenario the
    witness of [dispatch_authentic] runs.

    * Not modelled *

    The libp2p transport and swarm, tokio's tasks and channels (a send is a function that says
    whether it was accepted; in [Inbound] they are the class [Mpsc] with its laws), the HTTP listeners, RocksDB, clap, serde and Borsh derivations,
    the arithmetic of the curve and of blst, standard error, the dkg stub, the simulator's
    latency percentiles, logging and metrics: I/O, glue or third-party code.
    HashMap iteration order is that of [map_to_list] where the code iterates over
    one; no theorem depends on which order that is. *)

From Stdlib Require Export ZArith Lia.
From stdpp Require Export base tactics numbers option gmap sets fin_maps sorting list_numbers list.

#[global] Set Default Goal Selector "!".

Declare Scope lua_scope.
Delimit Scope lua_scope with lua.
Open Scope lua_scope.
Open Scope Z_scope.
Coercion Z.of_nat : nat >-> Z.

(** ** Record update

    [r <| f := v |>] is the Rust assignment [r.f = v]; it is resolved from the
    eta-expansion of the record that a [Settable] instance gives. *)

Class Settable (R : Type) := eta_record : R → R.
#[global] Hint Mode Settable ! : typeclass_instances.

Class Setter {R T : Type} (proj : R → T) := over : (T → T) → R → R.
Arguments over {_ _} _ {_} _ !_ /.

Ltac build_setter proj :=
  match type of proj with
  | ?R → _ =>
      let e := constr:(_ : Settable R) in
      let e := eval hnf in e in
      match eval pattern proj in e with
      | ?ctx _ => exact (λ f, ctx (λ r, f (proj r)))
      end
  end.

#[global] Hint Extern 1 (Setter ?proj) => build_setter proj : typeclass_instances.

Notation "r <| proj := v |>" := (over proj (λ _, v) r)
  (at level 1, left associativity, proj at level 0,
   format "r <| proj  :=  v |>") : lua_scope.
Notation "r <| proj ::= f |>" := (over proj f r)
  (at level 1, left associativity, proj at level 0,
   format "r <| proj  ::=  f |>") : lua_scope.

(** ** Outcomes

    A Rust call returns [Ok], returns [Err], panics (an [expect], an index out
    of range, an overflow under overflow checks), or, in the model only, runs
    out of the fuel that bounds a recursion. *)

Inductive outcome (E A : Type) : Type :=
| Ok (a : A)
| Err (e : E)
| Panic
| NoFuel.
Arguments Ok {_ _} _.
Arguments Err {_ _} _.
Arguments Panic {_ _}.
Arguments NoFuel {_ _}.

#[global] Instance outcome_eq_dec {E A} `{EqDecision E, EqDecision A} :
  EqDecision (outcome E A).
Proof. solve_decision. Defined.

Section outcome.
Context {E : Type}.

#[global] Instance outcome_ret : MRet (outcome E) := λ _ a, Ok a.
#[global] Instance outcome_bind : MBind (outcome E) := λ _ _ f m,
  match m with Ok a => f a | Err e => Err e | Panic => Panic | NoFuel => NoFuel end.
#[global] Instance outcome_fmap : FMap (outcome E) := λ _ _ f m,
  match m with Ok a => Ok (f a) | Err e => Err e | Panic => Panic | NoFuel => NoFuel end.

Lemma outcome_bind_Ok {A B} (m : outcome E A) (f : A → outcome E B) b :
  m ≫= f = Ok b ↔ ∃ a, m = Ok a ∧ f a = Ok b.
Proof. destruct m; cbn; naive_solver. Qed.

(** [.map_err(g)] *)
Definition map_err {E' A} (g : E → E') (m : outcome E A) : outcome E' A :=
  match m with Ok a => Ok a | Err e => Err (g e) | Panic => Panic | NoFuel => NoFuel end.

(** [.ok()], [.is_ok()] on a call that does not panic. *)
Definition is_ok {A} (m : outcome E A) : bool :=
  match m with Ok _ => true | _ => false end.

Lemma is_ok_true {A} (m : outcome E A) : is_ok m = true ↔ ∃ a, m = Ok a.
Proof. destruct m; cbn; naive_solver. Qed.

(** [iter().map(f).collect::<Result<Vec<_>>>()]: stops at the first failure. *)
Fixpoint omap_list {A B} (f : A → outcome E B) (l : list A) : outcome E (list B) :=
  match l with
  | [] => Ok []
  | a :: l => b ← f a; bs ← omap_list f l; Ok (b :: bs)
  end.

Lemma omap_list_Ok {A B} (f : A → outcome E B) l bs :
  omap_list f l = Ok bs ↔ Forall2 (λ a b, f a = Ok b) l bs.
Proof.
  revert bs; induction l as [|a l IH]; intros bs; cbn.
  - split; [by intros [= <-]|by inversion 1].
  - split.
    + intros (b & Hb & (bs' & Hbs & [= <-])%outcome_bind_Ok)%outcome_bind_Ok.
      constructor; [done|by apply IH].
    + inversion 1 as [|? b ? bs' Hb Hbs]; subst.
      rewrite Hb; cbn. by rewrite (proj2 (IH bs') Hbs).
Qed.
End outcome.

(** ** Stateful calls

    [M E S A]: a call that takes [&mut S]. The state reached before an [Err]
    or a panic is kept, as the mutations through [&mut] are. *)

Definition M (E S A : Type) : Type := S → outcome E A * S.

Section state.
Context {E S : Type}.

#[global] Instance M_ret : MRet (M E S) := λ _ a s, (Ok a, s).
#[global] Instance M_bind : MBind (M E S) := λ _ _ f m s,
  match m s with
  | (Ok a, s') => f a s'
  | (Err e, s') => (Err e, s')
  | (Panic, s') => (Panic, s')
  | (NoFuel, s') => (NoFuel, s')
  end.

Definition gets {A} (f : S → A) : M E S A := λ s, (Ok (f s), s).
Definition modify (f : S → S) : M E S unit := λ s, (Ok tt, f s).
Definition lift {A} (m : outcome E A) : M E S A := λ s, (m, s).
Definition panic {A} : M E S A := λ s, (Panic, s).
Definition nofuel {A} : M E S A := λ s, (NoFuel, s).

(** A call on one field: [self.f.op(..)]. *)
Definition zoom {T A} (proj : S → T) `{!Setter proj} (m : M E T A) : M E S A :=
  λ s, let '(r, t) := m (proj s) in (r, s <| proj := t |>).

(** [for x in l { body(x)?; }] *)
Fixpoint for_each {A} (l : list A) (body : A → M E S unit) : M E S unit :=
  match l with
  | [] => mret tt
  | a :: l => _ ← body a; for_each l body
  end.

(** *** Weakest preconditions: [Q] of the outcome and the state reached. *)
Definition wp {A} (m : M E S A) (Q : outcome E A → S → Prop) (s : S) : Prop :=
  Q (m s).1 (m s).2.

(** A postcondition for the normal return, with [F] for every other outcome. *)
Definition okp {A} (F : S → Prop) (Q : A → S → Prop) : outcome E A → S → Prop :=
  λ r s, match r with Ok a => Q a s | _ => F s end.

Lemma wp_ret {A} (a : A) Q s : Q (Ok a) s → wp (mret a) Q s.
Proof. done. Qed.
Lemma wp_bind {A B} (m : M E S A) (f : A → M E S B) Q s :
  wp m (λ r s', match r with
                | Ok a => wp (f a) Q s'
                | Err e => Q (Err e) s' | Panic => Q Panic s' | NoFuel => Q NoFuel s'
                end) s →
  wp (m ≫= f) Q s.
Proof. unfold wp, mbind, M_bind. by destruct (m s) as [[] s']. Qed.
Lemma wp_gets {A} (f : S → A) Q s : Q (Ok (f s)) s → wp (gets f) Q s.
Proof. done. Qed.
Lemma wp_modify f Q s : Q (Ok tt) (f s) → wp (modify f) Q s.
Proof. done. Qed.
Lemma wp_lift {A} (m : outcome E A) Q s : Q m s → wp (lift m) Q s.
Proof. done. Qed.
Lemma wp_zoom {T A} (proj : S → T) `{!Setter proj} (m : M E T A) Q s :
  Q (m (proj s)).1 (s <| proj := (m (proj s)).2 |>) → wp (zoom proj m) Q s.
Proof. unfold wp, zoom. by destruct (m (proj s)). Qed.
Lemma wp_mono {A} (m : M E S A) (Q Q' : outcome E A → S → Prop) s :
  (∀ r s', Q r s' → Q' r s') → wp m Q s → wp m Q' s.
Proof. unfold wp. eauto. Qed.

(** Invariant rule for [for] loops, whatever the outcome. *)
Lemma wp_for_each {A} (I : S → Prop) (l : list A) body s :
  (∀ a s, a ∈ l → I s → wp (body a) (λ _, I) s) →
  I s → wp (for_each l body) (λ _, I) s.
Proof.
  revert s. induction l as [|a l IH]; intros s Hb Hs; [done|].
  cbn. apply wp_bind.
  eapply wp_mono; [|apply Hb; [by left|done]].
  intros [[]| | |] s' Hs'; try done.
  apply IH; [|done]. intros b s'' ??. apply Hb; [by right|done].
Qed.
End state.
Arguments wp : simpl never.

(** [wp_step] takes the goal [wp m Q s] apart along the structure of [m]. *)
Ltac wp_step :=
  lazymatch goal with
  | |- wp (mbind _ _) _ _ => apply wp_bind
  | |- wp (mret _) _ _ => apply wp_ret
  | |- wp (gets _) _ _ => apply wp_gets
  | |- wp (modify _) _ _ => apply wp_modify
  | |- wp (lift _) _ _ => apply wp_lift
  | |- wp (zoom _ _) _ _ => apply wp_zoom
  | |- wp panic _ _ => red; cbn
  | |- wp (if ?b then _ else _) _ _ => destruct b eqn:?
  | |- wp (match ?x with _ => _ end) _ _ => destruct x eqn:?
  | |- match ?x with _ => _ end => destruct x eqn:?
  end; cbn beta iota.
Ltac wp_steps := repeat wp_step.

(** ** Lists *)

Lemma list_filter_ext {A} (P Q : A → Prop) `{∀ x, Decision (P x), ∀ x, Decision (Q x)} (l : list A) :
  (∀ x, x ∈ l → P x ↔ Q x) → filter P l = filter Q l.
Proof.
  induction l as [|a l IH]; intros Hl; [done|].
  rewrite !filter_cons, IH by (intros; apply Hl; by right).
  specialize (Hl a (list_elem_of_here _ _)). repeat case_decide; naive_solver.
Qed.

Lemma list_filter_none {A} (P : A → Prop) `{∀ x, Decision (P x)} (l : list A) :
  (∀ x, x ∈ l → ¬ P x) → filter P l = [].
Proof.
  induction l as [|a l IH]; intros Hl; [done|].
  rewrite filter_cons_False by (apply Hl; by left). apply IH. intros. apply Hl. by right.
Qed.

Lemma length_filter_seq_shift (P : nat → Prop) `{∀ x, Decision (P x)} (k n m : nat) :
  length (filter P (seq (k + n) m)) = length (filter (λ i, P (k + i)%nat) (seq n m)).
Proof.
  revert n. induction m as [|m IH]; intros n; [done|]. cbn [seq].
  rewrite !filter_cons, <- Nat.add_succ_r. repeat case_decide; cbn; by rewrite IH.
Qed.

Lemma filter_fmap_list {A B} (f : A → B) (P : B → Prop) `{∀ x, Decision (P x)} (l : list A) :
  filter P (f <$> l) = f <$> filter (λ a, P (f a)) l.
Proof.
  induction l as [|a l IH]; [done|]. cbn [fmap list_fmap].
  rewrite !filter_cons. case_decide; cbn; by rewrite IH.
Qed.

(** A duplicate-free list longer than [ys] has an element outside [ys]. *)
Lemma list_pigeonhole_out `{EqDecision A} (xs ys : list A) :
  NoDup xs → (length ys < length xs)%nat → ∃ x, x ∈ xs ∧ x ∉ ys.
Proof.
  intros Hnd Hlen. destruct (decide (Exists (λ x, x ∉ ys) xs)) as [He|He].
  - by apply Exists_exists in He.
  - exfalso. assert (Hsub : xs ⊆ ys).
    { intros x Hx. apply dec_stable. intros Hn. apply He, Exists_exists. eauto. }
    pose proof (NoDup_submseteq xs ys Hnd Hsub) as Hs%submseteq_length. lia.
Qed.

(** [lia] with division and modulo by constants. *)
Ltac dlia := Z.to_euclidean_division_equations; lia.

(** Run the [outcome] monad one step on values. *)
Ltac ocbn := cbn [mbind outcome_bind map_err mret outcome_ret].

(** ** Calls that answer

    [m <> NoFuel]: a call without fuel of its own always answers.  The
    database [answers] holds the calls known to, and [answers] takes a body
    apart down to them. *)

Create HintDb answers discriminated.

Lemma bind_answers {E A B} (m : outcome E A) (f : A → outcome E B) :
  m ≠ NoFuel → (∀ a, f a ≠ NoFuel) → m ≫= f ≠ NoFuel.
Proof. intros Hm Hf. destruct m; [apply Hf|done..]. Qed.

Lemma map_err_answers {E E' A} (g : E → E') (m : outcome E A) :
  m ≠ NoFuel → map_err g m ≠ NoFuel.
Proof. by destruct m. Qed.

Ltac answers :=
  repeat first
    [ discriminate
    | solve [auto with answers]
    | apply bind_answers; [|intros ?]
    | apply map_err_answers
    | progress cbv zeta
    | case_match ].

Lemma omap_list_answers {E A B} (f : A → outcome E B) l :
  (∀ a, f a ≠ NoFuel) → omap_list f l ≠ NoFuel.
Proof. intros Hf. induction l; cbn [omap_list]; answers. Qed.
#[export] Hint Resolve omap_list_answers : answers.

(** Decide a closed proposition by evaluation. *)
Ltac vdecide := apply (bool_decide_unpack _); vm_compute; exact I.
