(* ===== verification/Bytes.v ===== *)
(** Machine integers, byte strings, and ordered containers.

    Unsigned integers are [Z] with the arithmetic of their width written out;
    byte arrays and vectors are lists of [Z]; the order of Rust's [Ord] is the
    class [Ord], and a [BTreeMap] is a [gmap] read in that order. *)

From S2P Require Import Prelude.
Open Scope Z_scope.

(** ** Unsigned integers of [w] bits *)

Definition uint_ok (w x : Z) : Prop := 0 ≤ x < 2 ^ w.
Abbreviation u8_ok := (uint_ok 8).
Abbreviation u32_ok := (uint_ok 32).
Abbreviation u64_ok := (uint_ok 64).

#[global] Instance uint_ok_dec w x : Decision (uint_ok w x).
Proof. unfold uint_ok. apply _. Defined.

Abbreviation u32_max := (2 ^ 32 - 1).
Abbreviation u64_max := (2 ^ 64 - 1).

(** How the binary was built: Rust's [+] panics on overflow when overflow
    checks are on (the dev and test profiles) and wraps around otherwise (the
    release profile). *)
Class Build := overflow_checks : bool.

Section arithmetic.
Context `{Build} {E : Type}.

Definition wrapping (w x : Z) : outcome E Z :=
  if decide (uint_ok w x) then Ok x
  else if overflow_checks then Panic else Ok (x `mod` 2 ^ w).

Definition add_w (w a b : Z) : outcome E Z := wrapping w (a + b).
Definition mul_w (w a b : Z) : outcome E Z := wrapping w (a * b).

Lemma add_w_ok w a b : uint_ok w (a + b) → add_w w a b = Ok (a + b).
Proof. intros. unfold add_w, wrapping. by rewrite decide_True. Qed.

Lemma mul_w_ok w a b : uint_ok w (a * b) → mul_w w a b = Ok (a * b).
Proof. intros. unfold mul_w, wrapping. by rewrite decide_True. Qed.

Lemma add_w_checked w a b c :
  overflow_checks = true → add_w w a b = Ok c → c = a + b ∧ uint_ok w c.
Proof.
  unfold add_w, wrapping. intros Hchk. case_decide; [by intros [= <-]|]. by rewrite Hchk.
Qed.

Lemma add_w_range w a b c : 0 ≤ w → add_w w a b = Ok c → uint_ok w c.
Proof.
  unfold add_w, wrapping. intros Hw. case_decide; [by intros [= <-]|].
  destruct overflow_checks; [done|]. intros [= <-].
  unfold uint_ok. apply Z.mod_pos_bound. lia.
Qed.
End arithmetic.

(** [a.saturating_add(b)], [a.saturating_sub(b)] *)
Definition saturating_add (w a b : Z) : Z := Z.min (a + b) (2 ^ w - 1).
Definition saturating_sub (a b : Z) : Z := Z.max (a - b) 0.

Lemma saturating_add_ok w a b :
  uint_ok w a → uint_ok w b → uint_ok w (saturating_add w a b).
Proof. unfold uint_ok, saturating_add. lia. Qed.

Lemma saturating_sub_ok w a b :
  uint_ok w a → uint_ok w b → uint_ok w (saturating_sub a b).
Proof. unfold uint_ok, saturating_sub. lia. Qed.

(** ** Byte strings *)

Abbreviation bytes := (list Z).

Definition bytes_ok (bs : bytes) : Prop := Forall u8_ok bs.

Fixpoint le_bytes (n : nat) (x : Z) : bytes :=
  match n with O => [] | S n => x `mod` 256 :: le_bytes n (x / 256) end.

Fixpoint of_le (bs : bytes) : Z :=
  match bs with [] => 0 | b :: bs => b + 256 * of_le bs end.

(** [x.to_be_bytes()] and [uN::from_be_bytes] for an [n]-byte integer. *)
Definition be_bytes (n : nat) (x : Z) : bytes := reverse (le_bytes n x).
Definition of_be (bs : bytes) : Z := of_le (reverse bs).

Lemma length_le_bytes n x : length (le_bytes n x) = n.
Proof. revert x. induction n; intros; cbn; auto. Qed.

Lemma length_be_bytes n x : length (be_bytes n x) = n.
Proof. unfold be_bytes. by rewrite length_reverse, length_le_bytes. Qed.

Lemma le_bytes_ok n x : bytes_ok (le_bytes n x).
Proof.
  revert x. induction n; intros; constructor; [|by apply IHn].
  unfold uint_ok. pose proof (Z.mod_pos_bound x 256). lia.
Qed.

Lemma of_le_bytes (n : nat) x : of_le (le_bytes n x) = x `mod` 256 ^ n.
Proof.
  revert x. induction n as [|n IH]; intros x; cbn [of_le le_bytes].
  - by rewrite Z.mod_1_r.
  - rewrite IH, Nat2Z.inj_succ, Z.pow_succ_r, Z.rem_mul_r by lia. lia.
Qed.

Lemma of_be_bytes (n : nat) x : 0 ≤ x < 256 ^ n → of_be (be_bytes n x) = x.
Proof.
  intros. unfold of_be, be_bytes.
  by rewrite reverse_involutive, of_le_bytes, Z.mod_small.
Qed.

Lemma of_le_range bs : bytes_ok bs → 0 ≤ of_le bs < 256 ^ length bs.
Proof.
  induction 1 as [|b bs Hb _ IH]; cbn [of_le length]; [done|].
  rewrite Nat2Z.inj_succ, Z.pow_succ_r by lia. unfold uint_ok in Hb. lia.
Qed.

Lemma of_be_range bs : bytes_ok bs → 0 ≤ of_be bs < 256 ^ length bs.
Proof.
  intros. unfold of_be. rewrite <- (length_reverse bs).
  apply of_le_range. unfold bytes_ok. by rewrite reverse_Permutation.
Qed.

Lemma be_bytes_inj (n : nat) x y :
  0 ≤ x < 256 ^ n → 0 ≤ y < 256 ^ n → be_bytes n x = be_bytes n y → x = y.
Proof. intros Hx Hy He. by rewrite <- (of_be_bytes n x), He, of_be_bytes. Qed.

(** ** Rust's [Ord]

    [bytes_cmp] is the lexicographic order of byte arrays and vectors. *)

Class Ord (K : Type) := {
  kcmp : K → K → comparison;
  kcmp_eq x y : kcmp x y = Eq ↔ x = y;
  kcmp_antisym x y : kcmp y x = CompOpp (kcmp x y);
  kcmp_trans x y z : kcmp x y = Lt → kcmp y z = Lt → kcmp x z = Lt;
}.

Definition kle `{Ord K} (x y : K) : Prop := kcmp x y ≠ Gt.
Definition klt `{Ord K} (x y : K) : Prop := kcmp x y = Lt.

Section ord.
Context `{Ord K}.

#[global] Instance kle_dec : RelDecision kle.
Proof. intros x y. unfold kle. apply _. Defined.

#[global] Instance klt_dec : RelDecision klt.
Proof. intros x y. unfold klt. apply _. Defined.

Lemma kcmp_refl x : kcmp x x = Eq.
Proof. by apply kcmp_eq. Qed.

Lemma kle_lt_eq x y : kle x y ↔ klt x y ∨ x = y.
Proof.
  unfold kle, klt. rewrite <- kcmp_eq. destruct (kcmp x y); naive_solver.
Qed.

#[global] Instance kle_refl : Reflexive kle.
Proof. intros x. apply kle_lt_eq. by right. Qed.

#[global] Instance klt_trans : Transitive klt.
Proof. intros x y z. apply kcmp_trans. Qed.

#[global] Instance kle_trans : Transitive kle.
Proof.
  intros x y z [?| ->]%kle_lt_eq Hz; [|done].
  apply kle_lt_eq in Hz as [?| ->]; apply kle_lt_eq; left; [|done].
  by transitivity y.
Qed.

#[global] Instance kle_antisymm : AntiSymm (=) kle.
Proof.
  intros x y [Hxy|?]%kle_lt_eq; [|done]. unfold kle, klt in *.
  rewrite (kcmp_antisym x y), Hxy. done.
Qed.

#[global] Instance kle_total : Total kle.
Proof.
  intros x y. unfold kle. rewrite (kcmp_antisym x y).
  destruct (kcmp x y); cbn; naive_solver.
Qed.

Lemma klt_irrefl x : ¬ klt x x.
Proof. unfold klt. by rewrite kcmp_refl. Qed.
End ord.

#[global] Program Instance Z_ord : Ord Z := {| kcmp := Z.compare |}.
Next Obligation. intros. apply Z.compare_eq_iff. Qed.
Next Obligation. intros. apply Z.compare_antisym. Qed.
Next Obligation. intros x y z ? ?. rewrite Z.compare_lt_iff in *. lia. Qed.

Fixpoint bytes_cmp (xs ys : bytes) : comparison :=
  match xs, ys with
  | [], [] => Eq
  | [], _ => Lt
  | _, [] => Gt
  | x :: xs, y :: ys => match Z.compare x y with Eq => bytes_cmp xs ys | c => c end
  end.

#[global] Program Instance bytes_ord : Ord bytes := {| kcmp := bytes_cmp |}.
Next Obligation.
  intros xs. induction xs as [|x xs IH]; intros [|y ys]; cbn; try naive_solver.
  destruct (Z.compare_spec x y); subst; rewrite ?IH; naive_solver lia.
Qed.
Next Obligation.
  intros xs. induction xs as [|x xs IH]; intros [|y ys]; cbn; try done.
  rewrite (Z.compare_antisym x y). destruct (x ?= y); cbn; auto.
Qed.
Next Obligation.
  intros xs. induction xs as [|x xs IH]; intros [|y ys] [|z zs]; cbn; try done.
  destruct (Z.compare_spec x y), (Z.compare_spec y z), (Z.compare_spec x z);
    subst; try done; try lia; eauto.
Qed.

(** Big-endian encoding turns the numeric order into the byte order. *)
Lemma bytes_cmp_app xs ys xs' ys' :
  length xs = length ys →
  bytes_cmp (xs ++ xs') (ys ++ ys') =
  match bytes_cmp xs ys with Eq => bytes_cmp xs' ys' | c => c end.
Proof.
  revert ys. induction xs as [|x xs IH]; intros [|y ys]; intros [=]; cbn; [done|].
  destruct (x ?= y); auto.
Qed.

Lemma be_bytes_succ n x :
  be_bytes (S n) x = be_bytes n (x / 256) ++ [x `mod` 256].
Proof. unfold be_bytes. cbn [le_bytes]. by rewrite reverse_cons. Qed.

Lemma be_bytes_cmp (n : nat) x y :
  0 ≤ x < 256 ^ n → 0 ≤ y < 256 ^ n →
  bytes_cmp (be_bytes n x) (be_bytes n y) = Z.compare x y.
Proof.
  revert x y. induction n as [|n IH]; intros x y Hx Hy.
  { cbn in *. assert (x = 0) as -> by lia. assert (y = 0) as -> by lia. done. }
  rewrite !be_bytes_succ, bytes_cmp_app by by rewrite !length_be_bytes.
  rewrite Nat2Z.inj_succ, Z.pow_succ_r in Hx, Hy by lia.
  rewrite IH by (split; [apply Z.div_pos; lia|apply Z.div_lt_upper_bound; lia]).
  pose proof (Z.div_mod x 256). pose proof (Z.div_mod y 256).
  pose proof (Z.mod_pos_bound x 256). pose proof (Z.mod_pos_bound y 256).
  cbn [bytes_cmp].
  destruct (Z.compare_spec (x / 256) (y / 256)), (Z.compare_spec (x mod 256) (y mod 256)),
    (Z.compare_spec x y); try done; nia.
Qed.

(** ** [BTreeMap] and [BTreeSet], read in key order *)

Section btree.
Context `{Countable K, !Ord K}.

Definition key_le {V} (p q : K * V) : Prop := kle p.1 q.1.
#[global] Instance key_le_dec {V} : RelDecision (@key_le V).
Proof. intros x y. unfold key_le. apply _. Defined.

#[global] Instance key_le_trans {V} : Transitive (@key_le V).
Proof. intros x y z. unfold key_le. by transitivity y.1. Qed.
#[global] Instance key_le_total {V} : Total (@key_le V).
Proof. intros x y. apply (total kle). Qed.

(** [map.iter()] and [set.iter()] of the ordered containers. *)
Definition btree_entries {V} (m : gmap K V) : list (K * V) :=
  merge_sort key_le (map_to_list m).
Definition btree_values {V} (m : gmap K V) : list V := (btree_entries m).*2.
Definition btree_elements (s : gset K) : list K := merge_sort kle (elements s).

Lemma elem_of_btree_entries {V} (m : gmap K V) k v :
  (k, v) ∈ btree_entries m ↔ m !! k = Some v.
Proof. unfold btree_entries. by rewrite merge_sort_Permutation, elem_of_map_to_list. Qed.

Lemma elem_of_btree_values {V} (m : gmap K V) v :
  v ∈ btree_values m ↔ ∃ k, m !! k = Some v.
Proof.
  unfold btree_values. rewrite list_elem_of_fmap. split.
  - intros ([k v'] & -> & ?%elem_of_btree_entries). eauto.
  - intros [k ?%elem_of_btree_entries]. by exists (k, v).
Qed.

Lemma length_btree_entries {V} (m : gmap K V) : length (btree_entries m) = size m.
Proof. unfold btree_entries. rewrite merge_sort_Permutation. apply length_map_to_list. Qed.

Lemma elem_of_btree_elements (s : gset K) k : k ∈ btree_elements s ↔ k ∈ s.
Proof. unfold btree_elements. by rewrite merge_sort_Permutation, elem_of_elements. Qed.

Lemma NoDup_btree_elements (s : gset K) : NoDup (btree_elements s).
Proof. unfold btree_elements. rewrite merge_sort_Permutation. apply NoDup_elements. Qed.

(** Entries in key order with distinct keys are in strict key order. *)
Lemma sorted_keys_strict {V} (l : list (K * V)) :
  StronglySorted key_le l → NoDup l.*1 → StronglySorted klt l.*1.
Proof.
  induction 1 as [|p l _ IH Hp]; cbn; [constructor|].
  intros [Hn Hl]%NoDup_cons. constructor; [by apply IH|].
  apply Forall_fmap, Forall_forall. intros q Hq. cbn.
  rewrite Forall_forall in Hp. specialize (Hp q Hq). unfold key_le in Hp.
  apply kle_lt_eq in Hp as [?|He]; [done|].
  destruct Hn. rewrite He. by apply list_elem_of_fmap_2.
Qed.

(** [set.iter().min()] *)
Definition btree_min (s : gset K) : option K := head (btree_elements s).

Lemma btree_min_spec (s : gset K) k :
  btree_min s = Some k ↔ k ∈ s ∧ ∀ k', k' ∈ s → kle k k'.
Proof.
  unfold btree_min.
  assert (HS : StronglySorted kle (btree_elements s)).
  { by apply (StronglySorted_merge_sort kle). }
  setoid_rewrite <- elem_of_btree_elements.
  destruct HS as [|a l _ Ha]; cbn.
  { split; [done|]. by intros [?%elem_of_nil _]. }
  rewrite Forall_forall in Ha. split.
  - intros [= ->]. split; [by left|].
    intros k1 [->|?]%elem_of_cons; [done|]. by apply Ha.
  - intros [[->|Hk]%elem_of_cons Hmin]; [done|]. f_equal.
    apply (anti_symm kle); [by apply Ha|]. apply Hmin. by left.
Qed.
End btree.
