(* ===== verification/Types.v ===== *)
(** The wire and state types of [crates/types], with consensus's event,
    action, configuration and error types.

    The [u64] newtypes [Round], [Height], [Epoch] and [StakeWeight] are [Z];
    fixed-size byte arrays keep one record each, so that a hash cannot be used
    for a validator.  Enum variants and struct fields keep the source's names
    (fields prefixed by the struct's initials). *)

From stdpp Require Export strings.
From S2P Require Import Prelude Bytes.
Open Scope Z_scope.

Abbreviation Round := Z (only parsing).
Abbreviation Height := Z (only parsing).
Abbreviation Epoch := Z (only parsing).
Abbreviation StakeWeight := Z (only parsing).

(** ** Identifiers and cryptographic material *)

Record ValidatorId := MkValidatorId { vid_bytes : bytes }.
Record BlobId := MkBlobId { bid_bytes : bytes }.
Record Hash32 := MkHash32 { h32_bytes : bytes }.
Record BlsPubkey := MkBlsPubkey { bpk_bytes : bytes }.
Record BlsSig := MkBlsSig { bsig_bytes : bytes }.
Record VrfProof := MkVrfProof { vprf_bytes : bytes }.
Record VrfPubkey := MkVrfPubkey { vpk_bytes : bytes }.

#[global] Instance ValidatorId_eq_dec : EqDecision ValidatorId.
Proof. solve_decision. Defined.
#[global] Instance BlobId_eq_dec : EqDecision BlobId.
Proof. solve_decision. Defined.
#[global] Instance Hash32_eq_dec : EqDecision Hash32.
Proof. solve_decision. Defined.
#[global] Instance BlsPubkey_eq_dec : EqDecision BlsPubkey.
Proof. solve_decision. Defined.
#[global] Instance BlsSig_eq_dec : EqDecision BlsSig.
Proof. solve_decision. Defined.
#[global] Instance VrfProof_eq_dec : EqDecision VrfProof.
Proof. solve_decision. Defined.
#[global] Instance VrfPubkey_eq_dec : EqDecision VrfPubkey.
Proof. solve_decision. Defined.

#[global] Instance ValidatorId_countable : Countable ValidatorId.
Proof. by refine (inj_countable' vid_bytes MkValidatorId _); intros []. Defined.
#[global] Instance BlobId_countable : Countable BlobId.
Proof. by refine (inj_countable' bid_bytes MkBlobId _); intros []. Defined.
#[global] Instance Hash32_countable : Countable Hash32.
Proof. by refine (inj_countable' h32_bytes MkHash32 _); intros []. Defined.

(** Derived [Ord]: the order of the underlying array. *)
#[global] Program Instance ValidatorId_ord : Ord ValidatorId :=
  {| kcmp x y := bytes_cmp (vid_bytes x) (vid_bytes y) |}.
Next Obligation.
  intros [x] [y]. cbn. split.
  - intros He. f_equal. exact (proj1 (kcmp_eq (K := bytes) x y) He).
  - intros [= ->]. exact (kcmp_refl (K := bytes) y).
Qed.
Next Obligation. intros [x] [y]. exact (kcmp_antisym (K := bytes) x y). Qed.
Next Obligation. intros [x] [y] [z]. exact (kcmp_trans (K := bytes) x y z). Qed.

#[global] Program Instance Hash32_ord : Ord Hash32 :=
  {| kcmp x y := bytes_cmp (h32_bytes x) (h32_bytes y) |}.
Next Obligation.
  intros [x] [y]. cbn. split.
  - intros He. f_equal. exact (proj1 (kcmp_eq (K := bytes) x y) He).
  - intros [= ->]. exact (kcmp_refl (K := bytes) y).
Qed.
Next Obligation. intros [x] [y]. exact (kcmp_antisym (K := bytes) x y). Qed.
Next Obligation. intros [x] [y] [z]. exact (kcmp_trans (K := bytes) x y z). Qed.

Definition Hash32_zero : Hash32 := MkHash32 (replicate 32 0).

(** [VrfPubkey::is_zero] *)
Definition VrfPubkey_zero : VrfPubkey := MkVrfPubkey (replicate 32 0).
Definition is_zero (p : VrfPubkey) : bool := bool_decide (vpk_bytes p = replicate 32 0).

Record BlsAggSig := MkBlsAggSig { agg_sig : BlsSig; agg_bitmap : bytes }.
#[global] Instance BlsAggSig_eq_dec : EqDecision BlsAggSig.
Proof. solve_decision. Defined.

(** ** L1: vertices, proposals and partial votes *)

Record BlobRef := MkBlobRef {
  br_blob_id : BlobId;
  br_commitment : Hash32;
  br_size_bytes : Z;
}.
#[global] Instance BlobRef_eq_dec : EqDecision BlobRef.
Proof. solve_decision. Defined.

Record Vertex := MkVertex {
  v_round : Round;
  v_author : ValidatorId;
  v_parents : list Hash32;
  v_blobs : list BlobRef;
  v_hash : Hash32;
}.
#[global] Instance Vertex_eq_dec : EqDecision Vertex.
Proof. solve_decision. Defined.
#[global] Instance Vertex_eta : Settable Vertex := λ v,
  MkVertex (v_round v) (v_author v) (v_parents v) (v_blobs v) (v_hash v).

Record CertifiedVertex := MkCertifiedVertex {
  cv_vertex : Vertex;
  cv_certificate : BlsAggSig;
}.
#[global] Instance CertifiedVertex_eq_dec : EqDecision CertifiedVertex.
Proof. solve_decision. Defined.

Record VertexProposal := MkVertexProposal {
  vp_vertex : Vertex;
  vp_proposer_sig : BlsSig;
}.
#[global] Instance VertexProposal_eq_dec : EqDecision VertexProposal.
Proof. solve_decision. Defined.

Record VertexPartial := MkVertexPartial {
  vpt_vertex_hash : Hash32;
  vpt_round : Round;
  vpt_author : ValidatorId;
  vpt_voter : ValidatorId;
  vpt_sig : BlsSig;
}.
#[global] Instance VertexPartial_eq_dec : EqDecision VertexPartial.
Proof. solve_decision. Defined.

(** ** L2: micro checkpoints *)

Record MicroQc := MkMicroQc {
  mqc_checkpoint_hash : Hash32;
  mqc_agg : BlsAggSig;
}.
#[global] Instance MicroQc_eq_dec : EqDecision MicroQc.
Proof. solve_decision. Defined.

(** ** L3: macro checkpoints, proposals and certificates *)

Record MacroCheckpoint := MkMacroCheckpoint {
  mc_height : Height;
  mc_epoch : Epoch;
  mc_parent : Hash32;
  mc_micro_root : Hash32;
  mc_hash : Hash32;
}.
#[global] Instance MacroCheckpoint_eq_dec : EqDecision MacroCheckpoint.
Proof. solve_decision. Defined.
#[global] Instance MacroCheckpoint_eta : Settable MacroCheckpoint := λ c,
  MkMacroCheckpoint (mc_height c) (mc_epoch c) (mc_parent c) (mc_micro_root c) (mc_hash c).

Record MacroProposal := MkMacroProposal {
  mp_checkpoint : MacroCheckpoint;
  mp_proposer : ValidatorId;
  mp_vrf_proof : VrfProof;
  mp_proposer_sig : BlsSig;
}.
#[global] Instance MacroProposal_eq_dec : EqDecision MacroProposal.
Proof. solve_decision. Defined.

Inductive AggregationMode := Mode0Flat | ModeASubnet | ModeBLeaderless.
#[global] Instance AggregationMode_eq_dec : EqDecision AggregationMode.
Proof. solve_decision. Defined.

Record MacroQc := MkMacroQc {
  qc_checkpoint_hash : Hash32;
  qc_mode : AggregationMode;
  qc_agg : BlsAggSig;
}.
#[global] Instance MacroQc_eq_dec : EqDecision MacroQc.
Proof. solve_decision. Defined.

(** ** Validator sets *)

Record ValidatorIdentity := MkValidatorIdentity {
  vi_asn : option Z;
  vi_cloud : option string;
  vi_region : option string;
}.
#[global] Instance ValidatorIdentity_eq_dec : EqDecision ValidatorIdentity.
Proof. solve_decision. Defined.

Record ValidatorEntry := MkValidatorEntry {
  ve_id : ValidatorId;
  ve_bls_pubkey : BlsPubkey;
  ve_vrf_pubkey : VrfPubkey;
  ve_stake : StakeWeight;
  ve_identity : ValidatorIdentity;
}.
#[global] Instance ValidatorEntry_eq_dec : EqDecision ValidatorEntry.
Proof. solve_decision. Defined.

Record ValidatorSet := MkValidatorSet {
  vs_epoch : Epoch;
  vs_entries : list ValidatorEntry;
  vs_total_stake : StakeWeight;
}.
#[global] Instance ValidatorSet_eq_dec : EqDecision ValidatorSet.
Proof. solve_decision. Defined.

(** ** Slashing evidence *)

Record MacroEquivocation := MkMacroEquivocation {
  me_validator : ValidatorId;
  me_a : MacroCheckpoint * BlsSig;
  me_b : MacroCheckpoint * BlsSig;
}.

Record SurroundVote := MkSurroundVote {
  sv_validator : ValidatorId;
  sv_a_source : Epoch; sv_a_target : Epoch; sv_a_sig : BlsSig; sv_a_checkpoint : Hash32;
  sv_b_source : Epoch; sv_b_target : Epoch; sv_b_sig : BlsSig; sv_b_checkpoint : Hash32;
}.

Record DoubleVote := MkDoubleVote {
  dv_validator : ValidatorId;
  dv_target : Epoch;
  dv_a_checkpoint : Hash32; dv_a_sig : BlsSig;
  dv_b_checkpoint : Hash32; dv_b_sig : BlsSig;
}.

Record VertexEquivocation := MkVertexEquivocation {
  veq_validator : ValidatorId;
  veq_a : Vertex * BlsSig;
  veq_b : Vertex * BlsSig;
}.

(** [VertexEquivocation::from_proposals] *)
Definition from_proposals (validator : ValidatorId) (a b : VertexProposal) : VertexEquivocation :=
  MkVertexEquivocation validator
    (vp_vertex a, vp_proposer_sig a) (vp_vertex b, vp_proposer_sig b).

Inductive SlashEvidence :=
| SE_MacroEquivocation (e : MacroEquivocation)
| SE_Surround (e : SurroundVote)
| SE_DoubleVote (e : DoubleVote)
| SE_VertexEquivocation (e : VertexEquivocation).

#[global] Instance SlashEvidence_eq_dec : EqDecision SlashEvidence.
Proof.
  assert (EqDecision MacroEquivocation) by solve_decision.
  assert (EqDecision SurroundVote) by solve_decision.
  assert (EqDecision DoubleVote) by solve_decision.
  assert (EqDecision VertexEquivocation) by solve_decision.
  solve_decision.
Defined.

(** ** Events and actions of the state machine ([consensus::event],
    [consensus::action]) *)

Inductive BlobStatus := Accepted | SoftConfirmed | Justified | Finalized | EpochFinalized.
#[global] Instance BlobStatus_eq_dec : EqDecision BlobStatus.
Proof. solve_decision. Defined.

(** The derived order of [BlobStatus] is that of its discriminants. *)
Definition BlobStatus_u8 (s : BlobStatus) : Z :=
  match s with
  | Accepted => 0 | SoftConfirmed => 1 | Justified => 2 | Finalized => 3
  | EpochFinalized => 4
  end.

Record SubnetId := MkSubnetId { subnet_u32 : Z }.
#[global] Instance SubnetId_eq_dec : EqDecision SubnetId.
Proof. solve_decision. Defined.
#[global] Instance SubnetId_countable : Countable SubnetId.
Proof. by refine (inj_countable' subnet_u32 MkSubnetId _); intros []. Defined.

Record TimerId := MkTimerId { timer_u64 : Z }.
#[global] Instance TimerId_eq_dec : EqDecision TimerId.
Proof. solve_decision. Defined.

Record BlsPartial := MkBlsPartial {
  bp_subnet : SubnetId;
  bp_validator : ValidatorId;
  bp_checkpoint_hash : Hash32;
  bp_sig : BlsSig;
}.
#[global] Instance BlsPartial_eq_dec : EqDecision BlsPartial.
Proof. solve_decision. Defined.

Record SubnetAggregate := MkSubnetAggregate {
  sa_subnet : SubnetId;
  sa_checkpoint_hash : Hash32;
  sa_agg : BlsAggSig;
}.
#[global] Instance SubnetAggregate_eq_dec : EqDecision SubnetAggregate.
Proof. solve_decision. Defined.

Inductive Event :=
| CertifiedVertexReceived (cv : CertifiedVertex)
| MicroQcAssembled (qc : MicroQc)
| MacroProposalReceived (p : MacroProposal)
| BlsPartialReceived (bp : BlsPartial)
| SubnetAggregateReceived (a : SubnetAggregate)
| MacroQcReceived (qc : MacroQc)
| TimerFired (id : TimerId)
| ValidatorSetUpdated (epoch : Epoch) (set : ValidatorSet)
| SlashEvidenceFound (ev : SlashEvidence)
| VertexProposalReceived (p : VertexProposal)
| VertexPartialReceived (bp : VertexPartial).

Inductive Action :=
| BroadcastMicroQc (qc : MicroQc)
| BroadcastMacroProposal (p : MacroProposal)
| BroadcastBlsPartial (bp : BlsPartial)
| BroadcastSubnetAggregate (a : SubnetAggregate)
| BroadcastMacroQc (qc : MacroQc)
| ScheduleTimer (id : TimerId) (delay_nanos : Z)
| CancelTimer (id : TimerId)
| PersistMacroQc (qc : MacroQc)
| PersistMacroCheckpoint (cp : MacroCheckpoint)
| EmitSlashEvidence (offender : ValidatorId) (evidence : SlashEvidence)
| UpdateBlobStatus (blob : BlobId) (status : BlobStatus)
| NotifyInactivityLeak (windows : Z) (bps_per_window : Z)
| BroadcastVertexProposal (p : VertexProposal)
| BroadcastVertexPartial (bp : VertexPartial)
| BroadcastCertifiedVertex (cv : CertifiedVertex).
#[global] Instance Action_eq_dec : EqDecision Action.
Proof. solve_decision. Defined.

Abbreviation Actions := (list Action).

(** The layer whose messages and records an action carries; timers and slash
    evidence belong to none. *)
Inductive Layer := L1 | L2 | L3.
#[global] Instance Layer_eq_dec : EqDecision Layer.
Proof. solve_decision. Defined.

Definition layer_of (a : Action) : option Layer :=
  match a with
  | BroadcastVertexProposal _ | BroadcastVertexPartial _ | BroadcastCertifiedVertex _ => Some L1
  | BroadcastMicroQc _ => Some L2
  | BroadcastMacroProposal _ | BroadcastBlsPartial _ | BroadcastSubnetAggregate _
  | BroadcastMacroQc _ | PersistMacroQc _ | PersistMacroCheckpoint _ | UpdateBlobStatus _ _
  | NotifyInactivityLeak _ _ => Some L3
  | ScheduleTimer _ _ | CancelTimer _ | EmitSlashEvidence _ _ => None
  end.

Definition speaks_one (l : Layer) (a : Action) : bool :=
  match layer_of a with Some l' => bool_decide (l' = l) | None => true end.
Definition speaks (l : Layer) (acts : Actions) : bool := forallb (speaks_one l) acts.

Lemma speaks_app l a b : speaks l (a ++ b) = true ↔ speaks l a = true ∧ speaks l b = true.
Proof. unfold speaks. rewrite forallb_app. apply andb_true_iff. Qed.

Lemma speaks_elem l acts a : speaks l acts = true → a ∈ acts → speaks_one l a = true.
Proof. unfold speaks. rewrite forallb_forall. intros Hs Ha%list_elem_of_In. by apply Hs. Qed.

(** What is heard only from another layer is not heard at all. *)
Lemma speaks_omap {A} (f : Action → option A) l acts :
  speaks l acts = true → (∀ a, speaks_one l a = true → f a = None) → omap f acts = [].
Proof.
  unfold speaks. induction acts as [|a acts IH]; [done|].
  intros [Ha Hs]%andb_true_iff Hf. cbn. rewrite (Hf a Ha). by apply IH.
Qed.
