(* ===== verification/Crypto.v ===== *)
(** [crates/crypto]: the domain-separation registry and hashing, signer
    bitmaps, and BLS signing, verification and aggregation.

    The third-party primitives (the [blake3] hash, the [blst] curve library and
    the ECVRF curve arithmetic) are the fields of the class [Primitives]; what
    the development assumes of them is stated where it is used. *)

From S2P Require Import Prelude Bytes Types.
Open Scope Z_scope.

Class Primitives := {
  (** [blake3::hash] of a byte string *)
  blake3 : bytes → Hash32;
  (** [blst::min_pk]: decoded keys and signatures *)
  blst_sk : Set;
  blst_pk : Set;
  blst_sig : Set;
  blst_key_gen : bytes → option blst_sk;
  blst_sk_to_pk : blst_sk → blst_pk;
  blst_pk_compress : blst_pk → bytes;
  blst_pk_uncompress : bytes → option blst_pk;
  blst_sig_compress : blst_sig → bytes;
  blst_sig_uncompress : bytes → option blst_sig;
  blst_sign : blst_sk → bytes → bytes → blst_sig;
  blst_verify : blst_sig → bytes → bytes → blst_pk → bool;
  blst_sig_aggregate : list blst_sig → option blst_sig;
  blst_pk_aggregate : list blst_pk → option blst_pk;
  (** [crypto::vrf::vrf_verify(pubkey, alpha, proof).is_ok()] *)
  ecvrf_verify_ok : bytes → bytes → VrfProof → bool;
}.

Inductive CryptoError :=
| BlsVerifyFailed
| BlsAggregateFailed (why : string)
| PopInvalid
| VrfVerifyFailed
| BitmapLength (bitmap_bits expected : nat)
| SortitionRejected.
#[global] Instance CryptoError_eq_dec : EqDecision CryptoError.
Proof. solve_decision. Defined.

(** [hex::encode], [hex::decode] *)
Class Hex := { hex_encode : bytes → string; hex_decode : string → option bytes }.

(** ** Domain-separation tags ([hash.rs], [mod dst]) *)

Fixpoint str_bytes (s : string) : bytes :=
  match s with
  | EmptyString => []
  | String c s => Z.of_N (Ascii.N_of_ascii c) :: str_bytes s
  end.

Module dst.
Definition CONTENT_HASH := str_bytes "lua-dag/v1/content".
Definition MICRO_QC := str_bytes "lua-dag/v1/micro-qc".
Definition MACRO_PROPOSAL := str_bytes "lua-dag/v1/macro-proposal".
Definition MACRO_VOTE := str_bytes "lua-dag/v1/macro-vote".
Definition BEACON := str_bytes "lua-dag/v1/beacon".
Definition SUBNET_ASSIGN := str_bytes "lua-dag/v1/subnet-assign".
Definition POP := str_bytes "lua-dag/v1/pop".
Definition DEVNET_PEER_IDENTITY := str_bytes "lua-dag/v1/devnet-peer-identity".
Definition SIM_VERTEX_HASH := str_bytes "lua-dag/v1/sim-vertex-hash".
Definition MACRO_CHECKPOINT := str_bytes "lua-dag/v1/macro-checkpoint".
Definition MACRO_MICRO_ROOT := str_bytes "lua-dag/v1/macro-micro-root".
Definition VALIDATOR_BLS_PARTIAL := str_bytes "lua-dag/v1/validator-bls-partial".
Definition MACRO_PROPOSER_SIG := str_bytes "lua-dag/v1/macro-proposer-sig".
Definition VERTEX_HASH := str_bytes "lua-dag/v1/vertex-hash".
Definition VERTEX_CERT := str_bytes "lua-dag/v1/vertex-cert".
Definition BLOB_ID := str_bytes "lua-dag/v1/blob-id".
Definition BLOB_COMMIT := str_bytes "lua-dag/v1/blob-commit".
Definition BLOB_SHARD := str_bytes "lua-dag/v1/blob-shard".
Definition BLOB_RS_ROOT := str_bytes "lua-dag/v1/blob-rs-root".
Definition BLOB_MERKLE_NODE := str_bytes "lua-dag/v1/blob-merkle-node".
Definition VERTEX_PROPOSAL := str_bytes "lua-dag/v1/vertex-proposal".
End dst.

Definition dst_registry : list bytes :=
  [dst.CONTENT_HASH; dst.MICRO_QC; dst.MACRO_PROPOSAL; dst.MACRO_VOTE; dst.BEACON;
   dst.SUBNET_ASSIGN; dst.POP; dst.DEVNET_PEER_IDENTITY; dst.SIM_VERTEX_HASH;
   dst.MACRO_CHECKPOINT; dst.MACRO_MICRO_ROOT; dst.VALIDATOR_BLS_PARTIAL;
   dst.MACRO_PROPOSER_SIG; dst.VERTEX_HASH; dst.VERTEX_CERT; dst.BLOB_ID;
   dst.BLOB_COMMIT; dst.BLOB_SHARD; dst.BLOB_RS_ROOT; dst.BLOB_MERKLE_NODE;
   dst.VERTEX_PROPOSAL].

(** ** Bitmaps

    Bit [i] lives in byte [i / 8] at position [i % 8]. *)

(** [n.div_ceil(8)] *)
Definition div_ceil8 (n : nat) : nat := ((n + 7) / 8)%nat.

(** [bitmap.get(i / 8).copied().unwrap_or(0) & (1 << (i % 8)) != 0] *)
Definition get_bit (bs : bytes) (i : nat) : bool :=
  negb (Z.land (default 0 (bs !! (i / 8)%nat)) (Z.shiftl 1 (i mod 8)%nat) =? 0).

(** [bitmap[i / 8] |= 1 << (i % 8)], for an [i] that the vector covers. *)
Definition set_bit (bs : bytes) (i : nat) : bytes :=
  alter (λ b, Z.lor b (Z.shiftl 1 (i mod 8)%nat)) (i / 8)%nat bs.

(** [b.count_ones()] of a byte, and its sum over a vector. *)
Definition u8_count_ones (b : Z) : nat :=
  length (filter (λ k : nat, Z.testbit b k = true) (seq 0 8)).
Definition count_ones (bs : bytes) : nat := sum_list (u8_count_ones <$> bs).

(** The set bits among the first [n] positions. *)
Definition set_bits (bs : bytes) (n : nat) : list nat :=
  filter (λ i, get_bit bs i = true) (seq 0 n).

Arguments div_ceil8 : simpl never.
Arguments get_bit : simpl never.
Arguments set_bit : simpl never.
Arguments set_bits : simpl never.

Lemma get_bit_testbit bs i :
  get_bit bs i = Z.testbit (default 0 (bs !! (i / 8)%nat)) (i mod 8)%nat.
Proof.
  unfold get_bit. set (b := default _ _). set (k := (i mod 8)%nat).
  rewrite Z.shiftl_1_l.
  destruct (Z.testbit b k) eqn:Hb.
  - apply negb_true_iff, Z.eqb_neq. intros H0.
    apply (f_equal (λ z, Z.testbit z k)) in H0.
    rewrite Z.land_spec, Hb, Z.pow2_bits_true, Z.bits_0 in H0 by lia. done.
  - apply negb_false_iff, Z.eqb_eq. apply Z.bits_inj'. intros j Hj.
    rewrite Z.land_spec, Z.bits_0, Z.pow2_bits_eqb by lia.
    destruct (Z.eqb_spec k j) as [<-|]; [by rewrite Hb|apply andb_false_r].
Qed.

Lemma div_ceil8_lt i n : (i < n)%nat → (i / 8 < div_ceil8 n)%nat.
Proof.
  intros. unfold div_ceil8. apply Nat.div_lt_upper_bound; [lia|].
  pose proof (Nat.div_mod_eq (n + 7) 8). pose proof (Nat.mod_upper_bound (n + 7) 8). lia.
Qed.

Lemma length_set_bit bs i : length (set_bit bs i) = length bs.
Proof. apply length_alter. Qed.

Lemma get_set_bit bs i j :
  (i / 8 < length bs)%nat →
  get_bit (set_bit bs i) j = bool_decide (i = j) || get_bit bs j.
Proof.
  intros Hi. rewrite !get_bit_testbit. unfold set_bit.
  destruct (decide (i / 8 = j / 8)%nat) as [Hd|Hd].
  - rewrite <- Hd, list_lookup_alter_eq.
    destruct (lookup_lt_is_Some_2 bs (i / 8)%nat Hi) as [b Hb]. rewrite Hb.
    cbn [fmap option_fmap option_map default from_option id].
    rewrite Z.lor_spec, Z.shiftl_1_l, Z.pow2_bits_eqb by lia.
    rewrite orb_comm. f_equal.
    pose proof (Nat.div_mod_eq i 8). pose proof (Nat.div_mod_eq j 8).
    case_bool_decide; [subst; apply Z.eqb_refl|apply Z.eqb_neq; lia].
  - rewrite list_lookup_alter_ne by done.
    rewrite bool_decide_eq_false_2; [done|by intros ->].
Qed.

Lemma get_bit_zero n i : get_bit (replicate n 0) i = false.
Proof.
  rewrite get_bit_testbit.
  destruct (replicate n 0 !! (i / 8)%nat) as [b|] eqn:Hb; [|by rewrite Z.bits_0].
  apply lookup_replicate in Hb as [-> _]. apply Z.bits_0.
Qed.

(** The population count of a bitmap is the number of its set positions. *)
Lemma count_ones_set_bits bs :
  count_ones bs = length (set_bits bs (8 * length bs)).
Proof.
  unfold set_bits. induction bs as [|b bs IH]; [done|].
  replace (8 * length (b :: bs))%nat with (8 + 8 * length bs)%nat by (cbn; lia).
  rewrite seq_app, filter_app, length_app.
  rewrite (length_filter_seq_shift _ 8 0).
  change (count_ones (b :: bs)) with (u8_count_ones b + count_ones bs)%nat.
  rewrite IH. f_equal.
  - unfold u8_count_ones. f_equal. apply list_filter_ext.
    intros i Hi%elem_of_seq.
    rewrite get_bit_testbit, Nat.div_small, Nat.mod_small by lia. done.
  - f_equal. apply list_filter_iff. intros i.
    rewrite !get_bit_testbit.
    replace (8 + i)%nat with (i + 1 * 8)%nat by lia.
    rewrite Nat.div_add, Nat.Div0.mod_add, Nat.add_1_r by done.
    done.
Qed.

Lemma set_bits_full bs n :
  (∀ i, (n ≤ i)%nat → get_bit bs i = false) → (n ≤ 8 * length bs)%nat →
  set_bits bs (8 * length bs) = set_bits bs n.
Proof.
  intros Hz Hn. unfold set_bits.
  replace (8 * length bs)%nat with (n + (8 * length bs - n))%nat by lia.
  rewrite seq_app, filter_app.
  rewrite (list_filter_none _ (seq (0 + n) _)); [by rewrite app_nil_r|].
  intros i Hi%elem_of_seq. rewrite Hz by lia. done.
Qed.

(** The loop [for (i, b) in bs.enumerate() { if b { bitmap[i / 8] |= 1 << (i % 8) } }]
    over a fresh [vec![0u8; n.div_ceil(8)]], which builds the signer bitmaps of
    micro and macro certificates. *)
Fixpoint mark (i : nat) (bs : list bool) (bitmap : bytes) : bytes :=
  match bs with
  | [] => bitmap
  | b :: bs => mark (S i) bs (if b then set_bit bitmap i else bitmap)
  end.
Definition bitmap_of (bs : list bool) : bytes :=
  mark 0 bs (replicate (div_ceil8 (length bs)) 0).

Lemma length_mark i bs bitmap : length (mark i bs bitmap) = length bitmap.
Proof.
  revert i bitmap. induction bs as [|[] bs IH]; intros i bitmap; cbn; [done| |done].
  by rewrite IH, length_set_bit.
Qed.

Lemma length_bitmap_of bs : length (bitmap_of bs) = div_ceil8 (length bs).
Proof. unfold bitmap_of. by rewrite length_mark, length_replicate. Qed.

Lemma get_mark i bs bitmap (j : nat) :
  (div_ceil8 (i + length bs) ≤ length bitmap)%nat →
  get_bit (mark i bs bitmap) j =
    (if decide (i ≤ j)%nat then default false (bs !! (j - i)%nat) else false) || get_bit bitmap j.
Proof.
  revert i bitmap. induction bs as [|b bs IH]; intros i bitmap Hl; cbn [mark].
  { by case_decide. }
  cbn [length] in Hl. rewrite IH; last first.
  { replace (S i + length bs)%nat with (i + S (length bs))%nat by lia.
    destruct b; by rewrite ?length_set_bit. }
  assert (Hi : (i / 8 < length bitmap)%nat).
  { eapply Nat.lt_le_trans; [|exact Hl]. apply div_ceil8_lt. lia. }
  assert (Hg : get_bit (if b then set_bit bitmap i else bitmap) j =
               (b && bool_decide (i = j)) || get_bit bitmap j).
  { destruct b; [by rewrite get_set_bit|done]. }
  rewrite Hg, orb_assoc. f_equal.
  destruct (decide (i = j)) as [<-|Hne].
  - rewrite bool_decide_eq_true_2, andb_true_r, decide_False, decide_True by lia.
    by rewrite Nat.sub_diag.
  - rewrite bool_decide_eq_false_2, andb_false_r, orb_false_r by done.
    destruct (decide (S i ≤ j)%nat).
    + rewrite decide_True by lia. by replace (j - i)%nat with (S (j - S i)) by lia.
    + by rewrite decide_False by lia.
Qed.

Lemma get_bitmap_of bs j : get_bit (bitmap_of bs) j = default false (bs !! j).
Proof.
  unfold bitmap_of. rewrite get_mark by by rewrite length_replicate.
  rewrite get_bit_zero, orb_false_r, decide_True by lia. by rewrite Nat.sub_0_r.
Qed.

(** The population count of a built bitmap is the number of marked entries. *)
Lemma set_bits_bitmap_of bs (n : nat) : n = length bs →
  set_bits (bitmap_of bs) n = filter (λ i, default false (bs !! i) = true) (seq 0 n).
Proof. intros ->. apply list_filter_ext. intros i _. by rewrite get_bitmap_of. Qed.

Lemma length_filter_lookup bs :
  length (filter (λ i : nat, default false (bs !! i) = true) (seq 0 (length bs))) =
  length (filter (λ b, b = true) bs).
Proof.
  induction bs as [|b bs IH]; [done|]. cbn [length seq].
  rewrite !filter_cons.
  change (seq 1 (length bs)) with (seq (1 + 0) (length bs)).
  assert (Hs : length (filter (λ i : nat, default false ((b :: bs) !! i) = true)
      (seq (1 + 0) (length bs))) = length (filter (λ b, b = true) bs)).
  { rewrite length_filter_seq_shift. rewrite <- IH. done. }
  repeat case_decide; cbn [length]; rewrite ?Hs; cbn in *; congruence.
Qed.

Lemma count_ones_bitmap_of bs :
  count_ones (bitmap_of bs) = length (filter (λ b, b = true) bs).
Proof.
  rewrite count_ones_set_bits, (set_bits_full _ (length bs)).
  - by rewrite set_bits_bitmap_of, length_filter_lookup.
  - intros i Hi. rewrite get_bitmap_of. by rewrite lookup_ge_None_2.
  - rewrite length_bitmap_of. unfold div_ceil8.
    pose proof (Nat.div_mod_eq (length bs + 7) 8).
    pose proof (Nat.mod_upper_bound (length bs + 7) 8). lia.
Qed.

(** [struct Bitmap] of [bls/bitmap.rs] *)
Module Bitmap.
Record t := Mk { bm_bytes : bytes; bm_bits : nat }.

Definition new (bits : nat) : t := Mk (replicate (div_ceil8 bits) 0) bits.

Definition as_bytes (b : t) : bytes := bm_bytes b.

Definition from_bytes (bs : bytes) (bits : nat) : outcome CryptoError t :=
  if bool_decide (length bs ≠ div_ceil8 bits)
  then Err (BitmapLength (length bs * 8) bits)
  else Ok (Mk bs bits).

Definition len (b : t) : nat := bm_bits b.
Definition is_empty (b : t) : bool := bool_decide (bm_bits b = 0%nat).
Definition bm_count_ones (b : t) : nat := count_ones (bm_bytes b).

Definition set (b : t) (i : nat) : outcome CryptoError t :=
  if bool_decide (bm_bits b ≤ i)%nat then Err (BitmapLength (bm_bits b) (i + 1))
  else if bool_decide (length (bm_bytes b) ≤ i / 8)%nat then Panic
  else Ok (Mk (set_bit (bm_bytes b) i) (bm_bits b)).

Definition get (b : t) (i : nat) : outcome CryptoError bool :=
  if bool_decide (bm_bits b ≤ i)%nat then Err (BitmapLength (bm_bits b) (i + 1))
  else if bool_decide (length (bm_bytes b) ≤ i / 8)%nat then Panic
  else Ok (get_bit (bm_bytes b) i).

(** The buffer covers exactly the slots: the invariant of the private fields. *)
Definition wf (b : t) : Prop := length (bm_bytes b) = div_ceil8 (bm_bits b).

Lemma new_wf bits : wf (new bits).
Proof. apply length_replicate. Qed.

Lemma from_bytes_Ok bs bits b :
  from_bytes bs bits = Ok b ↔ length bs = div_ceil8 bits ∧ b = Mk bs bits.
Proof. unfold from_bytes. case_bool_decide; naive_solver. Qed.

Lemma set_Ok b i :
  wf b → (i < bm_bits b)%nat → set b i = Ok (Mk (set_bit (bm_bytes b) i) (bm_bits b)).
Proof.
  unfold wf, set. intros Hb Hi. apply div_ceil8_lt in Hi as Hi'.
  rewrite !bool_decide_eq_false_2 by lia. done.
Qed.

Lemma get_Ok b i :
  wf b → (i < bm_bits b)%nat → get b i = Ok (get_bit (bm_bytes b) i).
Proof.
  unfold wf, get. intros Hb Hi. apply div_ceil8_lt in Hi as Hi'.
  rewrite !bool_decide_eq_false_2 by lia. done.
Qed.

Lemma set_Ok_inv b i b' : set b i = Ok b' → (i < bm_bits b)%nat ∧
  b' = Mk (set_bit (bm_bytes b) i) (bm_bits b) ∧ (i / 8 < length (bm_bytes b))%nat.
Proof. unfold set. repeat case_bool_decide; naive_solver lia. Qed.
End Bitmap.

Section crypto.
Context `{Primitives}.

(** [crypto::hash::blake3_with_dst] *)
Definition blake3_with_dst (dst data : bytes) : Hash32 := blake3 (dst ++ [0] ++ data).

(** [crypto::hash::fixture_bls_sig] *)
Definition fixture_bls_sig (dst : bytes) (parts : list bytes) : bytes :=
  let buf := mjoin parts in
  mjoin ((λ i, h32_bytes (blake3_with_dst dst (buf ++ [i]))) <$> [0; 1; 2]).

(** *** [bls/keys.rs] *)
Definition SecretKey_from_ikm (ikm : bytes) : outcome CryptoError blst_sk :=
  match blst_key_gen ikm with
  | Some sk => Ok sk
  | None => Err (BlsAggregateFailed "key_gen")
  end.

Definition PublicKey_to_bytes (pk : blst_pk) : BlsPubkey := MkBlsPubkey (blst_pk_compress pk).

Definition PublicKey_from_bytes (b : BlsPubkey) : outcome CryptoError blst_pk :=
  match blst_pk_uncompress (bpk_bytes b) with
  | Some pk => Ok pk
  | None => Err BlsVerifyFailed
  end.

(** *** [bls/sign.rs] *)
Definition sign (sk : blst_sk) (dst msg : bytes) : BlsSig :=
  MkBlsSig (blst_sig_compress (blst_sign sk msg dst)).

Definition verify (pk : blst_pk) (dst msg : bytes) (sig : BlsSig) : outcome CryptoError unit :=
  match blst_sig_uncompress (bsig_bytes sig) with
  | None => Err BlsVerifyFailed
  | Some s => if blst_verify s msg dst pk then Ok tt else Err BlsVerifyFailed
  end.

Definition generate_pop (sk : blst_sk) : BlsSig :=
  let pk_bytes := PublicKey_to_bytes (blst_sk_to_pk sk) in
  sign sk dst.POP (bpk_bytes pk_bytes).

Definition verify_pop (pk : blst_pk) (pop : BlsSig) : outcome CryptoError unit :=
  let pk_bytes := PublicKey_to_bytes pk in
  match blst_sig_uncompress (bsig_bytes pop) with
  | None => Err PopInvalid
  | Some sig => if blst_verify sig (bpk_bytes pk_bytes) dst.POP pk then Ok tt else Err PopInvalid
  end.

(** *** [bls/aggregate.rs] *)
Definition aggregate_sigs (sigs : list BlsSig) : outcome CryptoError BlsSig :=
  match sigs with
  | [] => Err (BlsAggregateFailed "empty signature set")
  | _ =>
      parsed ← omap_list (λ s, match blst_sig_uncompress (bsig_bytes s) with
                               | Some p => Ok p
                               | None => Err (BlsAggregateFailed "invalid sig")
                               end) sigs;
      match blst_sig_aggregate parsed with
      | Some agg => Ok (MkBlsSig (blst_sig_compress agg))
      | None => Err (BlsAggregateFailed "aggregate")
      end
  end.

Definition verify_aggregate (pks : list blst_pk) (dst msg : bytes) (agg : BlsSig)
  : outcome CryptoError unit :=
  match pks with
  | [] => Err (BlsAggregateFailed "empty pubkey set")
  | _ =>
      match blst_sig_uncompress (bsig_bytes agg) with
      | None => Err BlsVerifyFailed
      | Some agg_sig =>
          match blst_pk_aggregate pks with
          | None => Err (BlsAggregateFailed "aggregate pk")
          | Some agg_pk =>
              if blst_verify agg_sig msg dst agg_pk then Ok tt else Err BlsVerifyFailed
          end
      end
  end.

(** *** What the BLS library promises

    Decoding inverts encoding, and same-message aggregation is sound for the
    verifier: the aggregate of valid signatures verifies under the aggregate
    of their keys. *)
Class BlsLaws := {
  bls_sig_roundtrip s : blst_sig_uncompress (blst_sig_compress s) = Some s;
  bls_aggregate_verifies pks sigs msg dst agg :
    Forall2 (λ pk s, blst_verify s msg dst pk = true) pks sigs →
    blst_sig_aggregate sigs = Some agg →
    ∃ apk, blst_pk_aggregate pks = Some apk ∧ blst_verify agg msg dst apk = true;
}.

Lemma verify_Ok pk dst msg sig :
  verify pk dst msg sig = Ok tt ↔
  ∃ s, blst_sig_uncompress (bsig_bytes sig) = Some s ∧ blst_verify s msg dst pk = true.
Proof.
  unfold verify. destruct (blst_sig_uncompress _) as [s|].
  - destruct (blst_verify s msg dst pk) eqn:Hv; split; [eauto|done|done|].
    intros (s' & [= <-] & ?). congruence.
  - split; [done|]. by intros (s & ? & _).
Qed.

Lemma aggregate_sigs_verifies `{!BlsLaws} pks sigs dst msg agg :
  Forall2 (λ pk sig, verify pk dst msg sig = Ok tt) pks sigs →
  aggregate_sigs sigs = Ok agg →
  verify_aggregate pks dst msg agg = Ok tt.
Proof.
  intros Hall Hagg. destruct sigs as [|sig0 sigs]; [done|].
  destruct pks as [|pk0 pks]; [by inversion Hall|].
  apply outcome_bind_Ok in Hagg as (parsed & Hp%omap_list_Ok & Hagg).
  destruct (blst_sig_aggregate parsed) as [a|] eqn:Ha; [|done]. injection Hagg as <-.
  assert (Hv : Forall2 (λ pk s, blst_verify s msg dst pk = true) (pk0 :: pks) parsed).
  { revert Hall Hp. generalize (pk0 :: pks) (sig0 :: sigs). clear.
    intros pks sigs Hall. revert parsed. induction Hall as [|pk sig pks sigs Hs _ IH];
      intros parsed Hp; inversion Hp as [|? s ? ps Hs' Hps]; subst; [constructor|].
    apply verify_Ok in Hs as (s' & Hu & Hs'').  rewrite Hu in Hs'. injection Hs' as <-.
    constructor; [done|by apply IH]. }
  destruct (bls_aggregate_verifies _ _ _ _ _ Hv Ha) as (apk & Hpk & Hok).
  unfold verify_aggregate. cbn. by rewrite bls_sig_roundtrip, Hpk, Hok.
Qed.

(** ** Domain separation

    A hash input determines its tag and its payload, for the tags of the
    registry. *)
Lemma dst_registry_no_zero d : d ∈ dst_registry → 0 ∉ d.
Proof.
  intros Hd. cut (Forall (λ d : bytes, 0 ∉ d) dst_registry).
  { by rewrite Forall_forall; auto. }
  apply (bool_decide_unpack _). vm_compute. done.
Qed.

Lemma tagged_inj (d1 d2 x1 x2 : bytes) :
  0 ∉ d1 → 0 ∉ d2 → d1 ++ [0] ++ x1 = d2 ++ [0] ++ x2 → d1 = d2 ∧ x1 = x2.
Proof.
  revert d2. induction d1 as [|a d1 IH]; intros [|b d2] H1 H2; cbn.
  - by intros [= ->].
  - intros [= <- _]. destruct H2. by left.
  - intros [= -> _]. destruct H1. by left.
  - intros [= <- He]. rewrite not_elem_of_cons in H1, H2.
    destruct (IH d2) as [-> ->]; naive_solver.
Qed.
End crypto.

(** The registry separates domains: two hash inputs that coincide were
    built from the same tag and the same payload, and the 21 registered tags
    are pairwise distinct. *)
Theorem dst_domain_separation d1 d2 x1 x2 :
  d1 ∈ dst_registry → d2 ∈ dst_registry →
  d1 ++ [0] ++ x1 = d2 ++ [0] ++ x2 →
  d1 = d2 ∧ x1 = x2 ∧ NoDup dst_registry.
Proof.
  intros H1 H2 He.
  destruct (tagged_inj d1 d2 x1 x2) as [-> ->]; [by apply dst_registry_no_zero..|done|].
  split_and!; [done..|]. apply (bool_decide_unpack _). vm_compute. done.
Qed.

Lemma dst_domain_separation_witness :
  dst.VERTEX_CERT ∈ dst_registry ∧
  (dst.VERTEX_CERT = dst.VERTEX_CERT ∧ [7] = [7] ∧ NoDup dst_registry).
Proof.
  split; [apply (bool_decide_unpack _); vm_compute; done|].
  apply (dst_domain_separation dst.VERTEX_CERT dst.VERTEX_CERT [7] [7]);
    [apply (bool_decide_unpack _); vm_compute; done..|reflexivity].
Defined.

(** ** Canonical encoding

    [borsh::to_vec] of one type; [borsh] is third-party code, so each encoder
    is an instance that the definitions take as an argument. *)
Class Borsh (T : Type) := to_vec : T → bytes.
#[global] Hint Mode Borsh ! : typeclass_instances.
