(* ===== verification/Toy.v ===== *)
(** A concrete instance of the third-party primitives, on which the witnesses
    of the theorems are evaluated.

    The hash is a polynomial hash onto 32 bytes; a key is an integer, and a
    signature is the sum of the keys that signed together with what they
    signed, so that aggregation adds keys as BLS aggregation adds points.
    Nothing is assumed of this instance beyond what its lemmas prove. *)

From S2P Require Import Prelude Bytes Types Crypto.
Open Scope Z_scope.

Definition toy_mask : Z := Eval vm_compute in 2 ^ 256 - 1.
Definition toy_digest (bs : bytes) : Z :=
  Z.land (foldl (λ acc b, Z.land (acc * 1000003 + b + 1) toy_mask) 7 bs
   * 0x9E3779B97F4A7C15F39CC0605CEDC8341082276BF3A27251F86C6A11D0C18E95) toy_mask.

Definition toy_hash (bs : bytes) : Hash32 := MkHash32 (be_bytes 32 (toy_digest bs)).

(** A length-prefixed packing of fields. *)
Definition pack (fields : list bytes) : bytes :=
  mjoin ((λ f, Z.of_nat (length f) :: f) <$> fields).

Definition toy_uncompress (bs : bytes) : option (Z * bytes) :=
  match bs with [] => None | k :: e => Some (k, e) end.

Definition toy_aggregate (sigs : list (Z * bytes)) : option (Z * bytes) :=
  match sigs with
  | [] => None
  | (k, e) :: rest =>
      if forallb (λ s : Z * bytes, bool_decide (s.2 = e)) rest
      then Some (foldr Z.add 0 (sigs.*1), e) else None
  end.

#[global] Instance toy : Primitives := {|
  blake3 := toy_hash;
  blst_sk := Z; blst_pk := Z; blst_sig := Z * bytes;
  blst_key_gen := λ ikm, match ikm with [] => None | b :: _ => Some b end;
  blst_sk_to_pk := λ sk, sk;
  blst_pk_compress := λ pk, [pk];
  blst_pk_uncompress := λ bs, match bs with [k] => Some k | _ => None end;
  blst_sig_compress := λ s, s.1 :: s.2;
  blst_sig_uncompress := toy_uncompress;
  blst_sign := λ sk msg dst, (sk, pack [dst; msg]);
  blst_verify := λ s msg dst pk, bool_decide (s = (pk, pack [dst; msg]));
  blst_sig_aggregate := toy_aggregate;
  blst_pk_aggregate := λ pks, Some (foldr Z.add 0 pks);
  ecvrf_verify_ok := λ pk alpha proof, bool_decide (vprf_bytes proof = pack [pk; alpha])
|}.

#[global] Instance toy_build : Build := false.

(** [n] validators of stake 1, the [i]-th with key [10 + i]. *)
Definition toy_id (i : nat) : ValidatorId := MkValidatorId (replicate 32 (Z.of_nat i)).
Definition toy_key (i : nat) : Z := 10 + i.
Definition toy_set (n : nat) : ValidatorSet :=
  MkValidatorSet 0
    ((λ i, MkValidatorEntry (toy_id i) (MkBlsPubkey [toy_key i]) VrfPubkey_zero 1
             (MkValidatorIdentity None None None)) <$> seq 0 n)
    n.

Lemma toy_aggregate_sum pks (sigs : list (Z * bytes)) msg dst :
  Forall2 (λ pk s, blst_verify s msg dst pk = true) pks sigs →
  foldr Z.add 0 (sigs.*1) = foldr Z.add 0 pks.
Proof.
  induction 1 as [|pk s pks sigs Hs _ IH]; [done|]. cbn in *.
  apply bool_decide_eq_true in Hs as ->. by rewrite IH.
Qed.

#[global] Instance toy_laws : BlsLaws.
Proof.
  split.
  - by intros [k e].
  - intros pks sigs msg dst agg Hall Hagg. exists (foldr Z.add 0 pks).
    split; [done|]. cbn. apply bool_decide_eq_true.
    pose proof (toy_aggregate_sum pks sigs msg dst Hall) as Hsum.
    destruct Hall as [|pk s pks sigs Hs _]; [done|]. cbn in Hagg, Hs.
    apply bool_decide_eq_true in Hs as ->. cbn in Hagg.
    destruct (forallb _ _); [|done]. injection Hagg as <-. by f_equal.
Qed.
