(* ===== verification/Vrf.v ===== *)
(** [crates/crypto/src/vrf/ecvrf] and [kdf.rs]: the verifiable random function of RFC 9381
    over Edwards25519, and the key derivation from Blake3's keyed mode.

    The curve and SHA-512 ([curve25519-dalek], [sha2]) are the class [Curve]; the class
    [CurveLaws] says that the points are an abelian group of exponent eight times a prime and that
    compression is invertible.  A scalar is an integer modulo [order]. *)

From Stdlib Require Import Znumtheory.
From S2P Require Import Prelude Bytes Types Crypto Toy.
Open Scope Z_scope.

Class Curve := {
  sha512 : bytes → bytes;
  point : Type;
  point_eq_dec :: EqDecision point;
  p_identity : point;
  p_add : point → point → point;
  p_neg : point → point;
  (** Multiplication by an integer *)
  p_mul : Z → point → point;
  basepoint : point;
  compress : point → bytes;
  decompress : bytes → option point;
  (** The order of the base point *)
  order : Z;
}.

Class CurveLaws `{Curve} := {
  order_prime : prime order;
  order_odd : order ≠ 2;
  order_bound : order < 2 ^ 256;
  p_add_assoc p q r : p_add p (p_add q r) = p_add (p_add p q) r;
  p_add_comm p q : p_add p q = p_add q p;
  p_add_id p : p_add p_identity p = p;
  p_add_neg p : p_add p (p_neg p) = p_identity;
  p_mul_0 p : p_mul 0 p = p_identity;
  p_mul_1 p : p_mul 1 p = p;
  p_mul_add a b p : p_mul (a + b) p = p_add (p_mul a p) (p_mul b p);
  p_mul_mul a b p : p_mul (a * b) p = p_mul a (p_mul b p);
  p_mul_exponent p : p_mul (8 * order) p = p_identity;
  basepoint_order : p_mul order basepoint = p_identity;
  basepoint_ne : basepoint ≠ p_identity;
  length_compress p : length (compress p) = 32%nat;
  decompress_compress p : decompress (compress p) = Some p;
  length_sha512 m : length (sha512 m) = 64%nat;
  sha512_ok m : bytes_ok (sha512 m);
}.

(** [curve25519-dalek]'s ℓ *)
Definition ed25519_order : Z := 2 ^ 252 + 27742317777372353535851937790883648493.

(** ** [rfc9381.rs] *)

Definition SUITE : Z := 3.
Definition ZERO : Z := 0.
Definition ONE : Z := 1.
Definition TWO : Z := 2.
Definition THREE : Z := 3.

(** The three assignments to [lower] *)
Definition clamp (lower : bytes) : bytes :=
  let lower := alter (λ b, Z.land b 248) 0%nat lower in
  let lower := alter (λ b, Z.land b 63) 31%nat lower in
  alter (λ b, Z.lor b 64) 31%nat lower.

Record ParsedProof `{Curve} := MkParsedProof { pp_gamma : point; pp_c : Z; pp_s : Z }.

Section rfc9381.
Context `{Curve}.

(** [Scalar::from_bytes_mod_order], [from_canonical_bytes] and [to_bytes] *)
Definition scalar_mod_order (bs : bytes) : Z := of_le bs `mod` order.
Definition scalar_canonical (bs : bytes) : option Z :=
  if of_le bs <? order then Some (of_le bs) else None.
Definition scalar_bytes (s : Z) : bytes := le_bytes 32 s.

Definition p_sub (p q : point) : point := p_add p (p_neg q).
Definition mul_by_cofactor (p : point) : point := p_mul 8 p.
Definition is_small_order (p : point) : bool := bool_decide (mul_by_cofactor p = p_identity).

Definition expand_secret_key (seed : bytes) : Z * bytes :=
  let hash := sha512 seed in
  (scalar_mod_order (clamp (take 32 hash)), drop 32 hash).

Definition is_valid_curve_point (p : point) : bool :=
  negb (bool_decide (p = p_identity)) && negb (is_small_order p).

Definition interpret_hash_value_as_a_point (hash : bytes) : option point :=
  let at' i := nth i hash 0 in
  let is_invalid :=
    forallb (λ b, b =? 255) (take 30 (drop 1 hash)) &&
    ((at' 31%nat =? 255) || (at' 31%nat =? 127)) &&
    bool_decide ((256 - at' 0%nat) `mod` 256 ∈ [1; 3; 4; 5; 9; 10; 13; 14; 15; 16]) in
  if is_invalid then None else decompress hash.

(** The loop over the counters, from [counter] *)
Fixpoint try_counters (counters : list Z) (pk_bytes alpha : bytes) : option point :=
  match counters with
  | [] => None
  | counter :: counters =>
      let hash := sha512 ([SUITE; ONE] ++ pk_bytes ++ alpha ++ [counter; ZERO]) in
      match interpret_hash_value_as_a_point (take 32 hash) with
      | Some p =>
          let result := mul_by_cofactor p in
          if is_valid_curve_point result then Some result
          else try_counters counters pk_bytes alpha
      | None => try_counters counters pk_bytes alpha
      end
  end.
Definition encode_to_curve (pk_bytes alpha : bytes) : option point :=
  try_counters (seqZ 0 256) pk_bytes alpha.

Definition scalar_from_nonce (nonce h_point_bytes : bytes) : Z :=
  scalar_mod_order (sha512 (nonce ++ h_point_bytes)).

Definition hash_points (pk_bytes h_point_bytes : bytes) (points : list point) : Z :=
  let hash := sha512 ([SUITE; TWO] ++ pk_bytes ++ h_point_bytes ++
                      mjoin (compress <$> points) ++ [ZERO]) in
  scalar_mod_order (take 16 hash ++ replicate 16 0).

Definition gamma_to_hash32 (gamma : point) : bytes :=
  take 32 (sha512 ([SUITE; THREE] ++ compress (mul_by_cofactor gamma) ++ [ZERO])).

(** [parse_proof] of the 80 bytes of a proof *)
Definition parse_proof (bs : bytes) : option ParsedProof :=
  match decompress (take 32 bs) with
  | None => None
  | Some gamma =>
      if negb (is_valid_curve_point gamma) then None
      else match scalar_canonical (drop 48 bs) with
           | None => None
           | Some s => Some (MkParsedProof _ gamma
                               (scalar_mod_order (take 16 (drop 32 bs) ++ replicate 16 0)) s)
           end
  end.

Definition pack_proof (gamma : point) (c s : Z) : bytes :=
  compress gamma ++ take 16 (scalar_bytes c) ++ scalar_bytes s.

(** Scalars are added and multiplied modulo the order; the [expect] is a panic. *)
Definition prove_internal (sk : Z) (nonce pk_bytes alpha : bytes) : outcome CryptoError bytes :=
  match encode_to_curve pk_bytes alpha with
  | None => Panic
  | Some h_point =>
      let h_bytes := compress h_point in
      let k := scalar_from_nonce nonce h_bytes in
      let gamma := p_mul sk h_point in
      let u := p_mul k basepoint in
      let v := p_mul k h_point in
      let c := hash_points pk_bytes h_bytes [gamma; u; v] in
      let s := (k + c * sk) `mod` order in
      Ok (pack_proof gamma c s)
  end.

Definition verify_internal (pk_point : point) (pk_bytes alpha : bytes) (proof : ParsedProof)
  : bool :=
  match encode_to_curve pk_bytes alpha with
  | None => false
  | Some h_point =>
      let h_bytes := compress h_point in
      let u := p_sub (p_mul (pp_s proof) basepoint) (p_mul (pp_c proof) pk_point) in
      let v := p_sub (p_mul (pp_s proof) h_point) (p_mul (pp_c proof) (pp_gamma proof)) in
      let c_prime := hash_points pk_bytes h_bytes [pp_gamma proof; u; v] in
      bool_decide (pp_c proof = c_prime)
  end.

Definition decompress_pubkey (pk_bytes : bytes) : option point :=
  match decompress pk_bytes with
  | None => None
  | Some p => if is_small_order p then None else Some p
  end.

(** ** [ecvrf/mod.rs] *)

Record VrfKey := MkVrfKey { sk_scalar : Z; vk_nonce : bytes; pk_compressed : bytes }.

Definition VrfKey_from_seed (seed : bytes) : VrfKey :=
  let '(sk, nonce) := expand_secret_key seed in
  MkVrfKey sk nonce (compress (p_mul sk basepoint)).
Definition VrfKey_pubkey (key : VrfKey) : bytes := pk_compressed key.

Definition vrf_prove (key : VrfKey) (alpha : bytes) : outcome CryptoError (VrfProof * Hash32) :=
  proof_bytes ← prove_internal (sk_scalar key) (vk_nonce key) (VrfKey_pubkey key) alpha;
  match parse_proof proof_bytes with
  | None => Panic
  | Some parsed => Ok (MkVrfProof proof_bytes, MkHash32 (gamma_to_hash32 (pp_gamma parsed)))
  end.

Definition vrf_verify (pk_bytes alpha : bytes) (proof : VrfProof) : outcome CryptoError Hash32 :=
  match decompress_pubkey pk_bytes with
  | None => Err VrfVerifyFailed
  | Some pk_point =>
      match parse_proof (vprf_bytes proof) with
      | None => Err VrfVerifyFailed
      | Some parsed =>
          if negb (verify_internal pk_point pk_bytes alpha parsed) then Err VrfVerifyFailed
          else Ok (MkHash32 (gamma_to_hash32 (pp_gamma parsed)))
      end
  end.
End rfc9381.

(** ** The group *)

Section group.
Context `{CurveLaws}.

(** The subgroup of prime order *)
Definition torsion_free (p : point) : Prop := p_mul order p = p_identity.

Lemma order_pos : 1 < order.
Proof. apply order_prime. Qed.

Lemma p_mul_identity a : p_mul a p_identity = p_identity.
Proof. by rewrite <- (p_mul_0 basepoint), <- p_mul_mul, Z.mul_0_r. Qed.

Lemma p_mul_comm a b p : p_mul a (p_mul b p) = p_mul b (p_mul a p).
Proof. by rewrite <- !p_mul_mul, Z.mul_comm. Qed.

Lemma torsion_free_mul a p : torsion_free p → torsion_free (p_mul a p).
Proof. unfold torsion_free. intros Hp. by rewrite p_mul_comm, Hp, p_mul_identity. Qed.

Lemma torsion_free_cofactor p : torsion_free (mul_by_cofactor p).
Proof. unfold torsion_free, mul_by_cofactor. by rewrite <- p_mul_mul, Z.mul_comm, p_mul_exponent. Qed.

Lemma p_mul_mod a p : torsion_free p → p_mul (a `mod` order) p = p_mul a p.
Proof.
  intros Hp. pose proof order_pos.
  rewrite (Z.div_mod a order) at 2 by lia.
  by rewrite p_mul_add, (Z.mul_comm order), p_mul_mul, Hp, p_mul_identity, p_add_id.
Qed.

(** An integer that kills a point of the prime subgroup is a multiple of the order. *)
Lemma p_mul_kills a p :
  torsion_free p → p ≠ p_identity → p_mul a p = p_identity → (order | a).
Proof.
  intros Hp Hne Ha. destruct (Zdivide_dec order a) as [Hd|Hd]; [done|].
  apply prime_rel_prime in Hd; [|apply order_prime].
  apply rel_prime_sym, rel_prime_bezout in Hd as [u v Huv].
  destruct Hne. rewrite <- (p_mul_1 p), <- Huv, p_mul_add, !p_mul_mul.
  by rewrite Ha, Hp, !p_mul_identity, p_add_id.
Qed.

Lemma order_not_divides_8 : ¬ (order | 8).
Proof.
  intros Hd. change 8 with (2 * (2 * 2)) in Hd.
  assert (¬ (order | 2)) as H2.
  { intros H2. apply prime_div_prime in H2; [|apply order_prime|apply prime_2]. by apply order_odd. }
  apply prime_mult in Hd as [?|[?|?]%prime_mult]; [done|done|done|apply order_prime..].
Qed.

Lemma torsion_free_valid p :
  torsion_free p → p ≠ p_identity → is_valid_curve_point p = true.
Proof.
  intros Hp Hne. unfold is_valid_curve_point, is_small_order.
  rewrite bool_decide_false by done. rewrite bool_decide_false; [done|].
  intros H8. by apply order_not_divides_8, (p_mul_kills 8 p).
Qed.

Lemma p_mul_valid a p :
  torsion_free p → p ≠ p_identity → 0 < a < order → is_valid_curve_point (p_mul a p) = true.
Proof.
  intros Hp Hne Ha. apply torsion_free_valid; [by apply torsion_free_mul|].
  intros Hk. apply p_mul_kills in Hk; [|done..]. apply Z.divide_pos_le in Hk; lia.
Qed.

Lemma p_sub_add p q : p_sub (p_add p q) q = p.
Proof.
  unfold p_sub. by rewrite <- p_add_assoc, p_add_neg, p_add_comm, p_add_id.
Qed.

(** The equation behind the verifier: with [s = k + c x], subtracting [c (x P)] from [s P]
    leaves [k P]. *)
Lemma response_cancels k c x p :
  torsion_free p →
  p_sub (p_mul ((k + c * x) `mod` order) p) (p_mul c (p_mul x p)) = p_mul k p.
Proof. intros Hp. by rewrite p_mul_mod, p_mul_add, p_mul_mul, p_sub_add. Qed.

Lemma encode_to_curve_Some pk alpha h :
  encode_to_curve pk alpha = Some h → torsion_free h ∧ h ≠ p_identity.
Proof.
  unfold encode_to_curve. induction (seqZ 0 256) as [|i l IH]; [done|]. cbn [try_counters].
  destruct (interpret_hash_value_as_a_point _) as [p|]; [|by apply IH].
  destruct (is_valid_curve_point (mul_by_cofactor p)) eqn:Hv; [|by apply IH].
  intros [= <-]. split; [apply torsion_free_cofactor|].
  unfold is_valid_curve_point in Hv. apply andb_true_iff in Hv as [Hv _].
  by apply negb_true_iff, bool_decide_eq_false in Hv.
Qed.

(** *** Encodings *)

Lemma of_le_app l1 l2 : of_le (l1 ++ l2) = of_le l1 + 256 ^ length l1 * of_le l2.
Proof.
  induction l1 as [|b l1 IH]; cbn [of_le app length]; [lia|].
  rewrite IH, Nat2Z.inj_succ, Z.pow_succ_r by lia. lia.
Qed.

Lemma of_le_zeros l n : of_le (l ++ replicate n 0) = of_le l.
Proof.
  rewrite of_le_app. assert (of_le (replicate n 0) = 0) as -> by (induction n; cbn; lia). lia.
Qed.

Lemma take_le_bytes n m x : (n ≤ m)%nat → take n (le_bytes m x) = le_bytes n x.
Proof.
  revert m x. induction n as [|n IH]; intros [|m] x Hnm; cbn; try done; [lia|].
  by rewrite IH by lia.
Qed.

Lemma hash_points_range pk h ps : 0 ≤ hash_points pk h ps < order ∧ hash_points pk h ps < 256 ^ 16%nat.
Proof.
  pose proof order_pos. unfold hash_points, scalar_mod_order. rewrite of_le_zeros.
  match goal with |- context [take 16 ?x] =>
    assert (bytes_ok (take 16 x)) as Hok by (apply Forall_take, sha512_ok);
    apply of_le_range in Hok;
    assert (length (take 16 x) = 16%nat) as Hl by (by rewrite length_take, length_sha512);
    rewrite Hl in Hok; set (c := of_le (take 16 x)) in *
  end.
  split; [apply Z.mod_pos_bound; lia|].
  assert (c `mod` order ≤ c) by (apply Z.mod_le; lia). lia.
Qed.

Lemma parse_pack gamma c s :
  is_valid_curve_point gamma = true → 0 ≤ c < order → c < 256 ^ 16%nat → 0 ≤ s < order →
  parse_proof (pack_proof gamma c s) = Some (MkParsedProof _ gamma c s).
Proof.
  intros Hv Hc Hc16 Hs. pose proof order_bound.
  unfold parse_proof, pack_proof, scalar_bytes.
  rewrite take_app_length' by (by rewrite length_compress). rewrite decompress_compress, Hv.
  rewrite take_le_bytes by lia. cbn [negb].
  rewrite (app_assoc (compress gamma)), drop_app_length'
    by (by rewrite length_app, length_compress, length_le_bytes).
  rewrite <- app_assoc, drop_app_length' by (by rewrite length_compress).
  rewrite take_app_length' by (by rewrite length_le_bytes).
  unfold scalar_canonical, scalar_mod_order. rewrite of_le_zeros, !of_le_bytes.
  rewrite !(Z.mod_small _ (256 ^ _)) by (split; [lia|]; change (256 ^ 32%nat) with (2 ^ 256); lia).
  destruct (Z.ltb_spec s order); [|lia]. by rewrite Z.mod_small.
Qed.
End group.

(** ** Clamping *)

(** A check of all bytes *)
Lemma all_bytes (f : Z → bool) b : forallb f (seqZ 0 256) = true → u8_ok b → f b = true.
Proof.
  intros Hall Hb. rewrite forallb_forall in Hall. apply Hall, list_elem_of_In, elem_of_seqZ.
  unfold uint_ok in Hb. lia.
Qed.

Lemma land_248_div b : u8_ok b → (8 | Z.land b 248) ∧ 0 ≤ Z.land b 248 < 256.
Proof.
  intros Hb. pose proof (all_bytes (λ x, (Z.land x 248 `mod` 8 =? 0) &&
    ((0 <=? Z.land x 248) && (Z.land x 248 <? 256))) b ltac:(by vm_compute) Hb) as Hf. cbv beta in Hf.
  apply andb_true_iff in Hf as [H8%Z.eqb_eq [?%Z.leb_le ?%Z.ltb_lt]%andb_true_iff].
  split; [by apply Z.mod_divide|lia].
Qed.

Lemma lor_64_range b : u8_ok b → 64 ≤ Z.lor (Z.land b 63) 64 < 128.
Proof.
  intros Hb. pose proof (all_bytes (λ x, (64 <=? Z.lor (Z.land x 63) 64) &&
    (Z.lor (Z.land x 63) 64 <? 128)) b ltac:(by vm_compute) Hb) as Hf. cbv beta in Hf.
  apply andb_true_iff in Hf as [?%Z.leb_le ?%Z.ltb_lt]. lia.
Qed.

Lemma clamp_range lower :
  bytes_ok lower → length lower = 32%nat →
  (8 | of_le (clamp lower)) ∧ 2 ^ 254 ≤ of_le (clamp lower) < 2 ^ 255.
Proof.
  intros Hok Hlen. destruct lower as [|b0 rest]; [done|]. cbn [length] in Hlen.
  destruct rest as [|b31 mid _] using rev_ind; [done|].
  rewrite length_app in Hlen. cbn in Hlen. assert (length mid = 30%nat) as Hmid by lia.
  apply Forall_cons in Hok as [Hb0 [Hm Hb31]%Forall_app]. rewrite Forall_singleton in Hb31.
  assert (clamp (b0 :: mid ++ [b31]) =
    Z.land b0 248 :: mid ++ [Z.lor (Z.land b31 63) 64]) as ->.
  { unfold clamp. assert (∀ (f : Z → Z) a l, alter f 31%nat (a :: l) = a :: alter f 30%nat l) as Hs
      by done.
    change (alter ?f 0%nat (b0 :: ?l)) with (f b0 :: l). cbv beta. rewrite !Hs. f_equal.
    rewrite (alter_app_r_alt _ mid [b31]), Hmid by lia. cbn [Nat.sub].
    rewrite (alter_app_r_alt _ mid), Hmid by lia. done. }
  destruct (land_248_div b0 Hb0) as [[q Hq] Hr0]. pose proof (lor_64_range b31 Hb31) as Hr31.
  pose proof (of_le_range mid Hm) as Hrm. rewrite Hmid in Hrm.
  cbn [of_le]. rewrite of_le_app, Hmid. cbn [of_le]. rewrite Hq in *.
  set (top := Z.lor (Z.land b31 63) 64) in *. set (m := of_le mid) in *.
  change (256 ^ 30%nat) with (2 ^ 240) in *.
  split; [exists (q + 32 * (m + 2 ^ 240 * (top + 256 * 0))); lia|]. nia.
Qed.

(** A clamped scalar is never zero modulo the order of Edwards25519: it is a multiple of eight
    strictly between four and eight times the order. *)
Lemma clamp_nonzero lower :
  bytes_ok lower → length lower = 32%nat → of_le (clamp lower) `mod` ed25519_order ≠ 0.
Proof.
  intros Hok Hlen. destruct (clamp_range lower Hok Hlen) as [[q Hq] Hr].
  intros [k Hk]%Z.mod_divide; [|done]. unfold ed25519_order in Hk.
  assert (4 ≤ k - 1 ∨ k ≤ 3 ∨ k = 4) as [?|[?|?]] by lia; [|lia|].
  - assert (k < 8) by lia. assert (k = 5 ∨ k = 6 ∨ k = 7) as [-> | [-> | ->]] by lia; lia.
  - subst k. lia.
Qed.

(** ** [kdf.rs] *)

(** [Hasher::new_keyed] with the hash of [ikm], over [info] and a counter *)
Class KeyedHash := { blake3_keyed : bytes → bytes → bytes }.

Section kdf.
Context `{Build, Primitives, KeyedHash}.

(** The loop; [rounds] bounds its iterations. *)
Fixpoint expand_loop (rounds : nat) (key info : bytes) (len : nat) (counter : Z) (out : bytes)
  : outcome CryptoError bytes :=
  if (length out <? len)%nat then
    match rounds with
    | O => NoFuel
    | S rounds =>
        let block := blake3_keyed key (info ++ be_bytes 4 counter) in
        counter' ← add_w 32 counter 1;
        expand_loop rounds key info len counter' (out ++ block)
    end
  else Ok out.

Definition expand (ikm info : bytes) (len : nat) : outcome CryptoError bytes :=
  let key := h32_bytes (blake3 ikm) in
  out ← expand_loop (S len) key info len 0 [];
  Ok (take len out).
End kdf.

(** A key is expanded to exactly the length asked for: the loop ends, since each block has
    32 bytes, provided the counter cannot overflow. *)
Lemma expand_loop_spec `{Build, Primitives, KeyedHash} (rounds : nat) key info (len : nat) counter out :
  (∀ k m, length (blake3_keyed k m) = 32%nat) →
  0 ≤ counter → counter + rounds + 1 < 2 ^ 32 → (len < length out + 32 * S rounds)%nat →
  ∃ out', expand_loop (S rounds) key info len counter out = Ok out' ∧ (len ≤ length out')%nat ∧
    out `prefix_of` out'.
Proof.
  intros Hb. revert counter out. induction rounds as [|rounds IH]; intros counter out Hc Ho Hl;
    cbn [expand_loop].
  - destruct (Nat.ltb_spec (length out) len) as [Hlt|Hge]; [|by exists out].
    rewrite add_w_ok by (unfold uint_ok; lia). ocbn. rewrite length_app, Hb.
    destruct (Nat.ltb_spec (length out + 32) len); [lia|].
    eexists. split; [done|]. rewrite length_app, Hb. split; [lia|by eexists].
  - destruct (Nat.ltb_spec (length out) len) as [Hlt|Hge]; [|by exists out].
    rewrite add_w_ok by (unfold uint_ok; lia). ocbn.
    destruct (IH (counter + 1) (out ++ blake3_keyed key (info ++ be_bytes 4 counter)))
      as (out' & Hrun & Hle & Hp); [lia|lia|rewrite length_app, Hb; lia|].
    exists out'. split; [exact Hrun|]. split; [done|]. etrans; [|exact Hp]. by eexists.
Qed.

(** ** Properties *)

(** [C38] The function is complete: whenever hashing to the curve finds a point (the one panic the
    code admits), proving answers with 80 bytes, and the proof verifies under the key it was
    made with, for the same input, and yields the same output. *)
Theorem vrf_complete `{CurveLaws} (seed alpha : bytes) :
  let key := VrfKey_from_seed seed in
  sk_scalar key ≠ 0 → is_Some (encode_to_curve (VrfKey_pubkey key) alpha) →
  ∃ proof beta, vrf_prove key alpha = Ok (proof, beta) ∧ length (vprf_bytes proof) = 80%nat ∧
    vrf_verify (VrfKey_pubkey key) alpha proof = Ok beta.
Proof.
  intros key Hsk [h Hh]. pose proof order_pos.
  destruct (encode_to_curve_Some _ _ _ Hh) as [Hht Hhne].
  assert (pk_compressed key = compress (p_mul (sk_scalar key) basepoint) ∧ 0 ≤ sk_scalar key < order)
    as [Hpk Hx] by (split; [done|by apply Z.mod_pos_bound; lia]).
  set (x := sk_scalar key) in *. set (pk := VrfKey_pubkey key) in *.
  unfold vrf_prove, prove_internal. fold x pk. rewrite Hh.
  set (k := scalar_from_nonce _ _).
  pose proof (hash_points_range pk (compress h) [p_mul x h; p_mul k basepoint; p_mul k h]) as [Hc Hc16].
  set (c := hash_points _ _ _) in *.
  assert (0 ≤ (k + c * x) `mod` order < order) as Hs by (apply Z.mod_pos_bound; lia).
  ocbn. rewrite parse_pack by (first [done|apply p_mul_valid; [done..|lia]]).
  eexists _, _. split; [done|]. cbn [vprf_bytes pp_gamma]. split.
  { unfold pack_proof, scalar_bytes. rewrite !length_app, length_compress, take_le_bytes by lia.
    by rewrite !length_le_bytes. }
  unfold vrf_verify, decompress_pubkey. cbn [vprf_bytes].
  assert (pk = compress (p_mul x basepoint)) as Hpk' by done.
  rewrite Hpk' at 1. rewrite decompress_compress.
  assert (is_valid_curve_point (p_mul x basepoint) = true) as Hv
    by (apply p_mul_valid; [apply basepoint_order|apply basepoint_ne|lia]).
  apply andb_true_iff in Hv as [_ Hv%negb_true_iff]. rewrite Hv.
  rewrite parse_pack by (first [done|apply p_mul_valid; [done..|lia]]).
  unfold verify_internal. rewrite Hh. cbn [pp_gamma pp_c pp_s].
  rewrite !response_cancels by (done || apply basepoint_order). fold c.
  by rewrite bool_decide_true.
Qed.

(** The key derivation answers with as many bytes as asked for, as long as the block counter
    is a [u32]. *)
Theorem expand_length `{Build, Primitives, KeyedHash} (ikm info : bytes) (len : nat) :
  (∀ k m, length (blake3_keyed k m) = 32%nat) → len < 2 ^ 32 - 1 →
  ∃ out, expand ikm info len = Ok out ∧ length out = len.
Proof.
  intros Hb Hlen. unfold expand.
  destruct (expand_loop_spec len (h32_bytes (blake3 ikm)) info len 0 [] Hb)
    as (out & -> & Hle & _); [lia|lia|cbn [length]; lia|].
  ocbn. eexists. split; [done|]. rewrite length_take. lia.
Qed.

(** ** Witnesses *)

(** A group with the same shape: the integers modulo 8 * 13, with base point 8. *)
Definition toy_point : Type := dsig (λ z : Z, 0 ≤ z < 104).
Definition tp (z : Z) : toy_point := (z `mod` 104) ↾ bool_decide_pack _ (Z.mod_pos_bound z 104 eq_refl).
#[local] Instance toy_curve : Curve := {|
  sha512 m := le_bytes 64 (toy_digest m * toy_digest (1 :: m));
  point := toy_point;
  p_identity := tp 0;
  p_add p q := tp (`p + `q);
  p_neg p := tp (- `p);
  p_mul a p := tp (a * `p);
  basepoint := tp 8;
  compress p := le_bytes 32 (`p);
  decompress bs := let z := of_le bs in if z <? 104 then Some (tp z) else Some (tp (z / 7));
  order := 13;
|}.

Lemma tp_eq a b : a `mod` 104 = b `mod` 104 → tp a = tp b.
Proof. intros Hab. by apply dsig_eq. Qed.
Lemma tp_proj (p : toy_point) : tp (`p) = p.
Proof. apply dsig_eq. apply Z.mod_small. by apply (bool_decide_unpack _ (proj2_sig p)). Qed.

Lemma prime_13 : prime 13.
Proof.
  constructor; [lia|]. intros n Hn. apply Zgcd_1_rel_prime.
  assert (n ∈ seqZ 1 12) as Hin by (apply elem_of_seqZ; lia). clear Hn. revert n Hin.
  apply Forall_forall. repeat constructor.
Qed.

Lemma tp_val z : proj1_sig (tp z) = z `mod` 104.
Proof. done. Qed.

#[local] Instance toy_curve_laws : CurveLaws.
Proof.
  split; cbn [p_add p_identity p_neg p_mul basepoint compress decompress order sha512 point toy_curve].
  - apply prime_13.
  - done.
  - done.
  - intros. rewrite !tp_val. apply tp_eq. dlia.
  - intros. f_equal. lia.
  - intros p. rewrite <- (tp_proj p) at 2. apply tp_eq. change (proj1_sig (tp 0)) with 0. f_equal.
  - intros p. apply tp_eq. rewrite tp_val. dlia.
  - done.
  - intros p. rewrite Z.mul_1_l. apply tp_proj.
  - intros. rewrite !tp_val. apply tp_eq. rewrite <- Z.add_mod by done. f_equal. lia.
  - intros. rewrite !tp_val. apply tp_eq. rewrite Z.mul_mod_idemp_r by done. f_equal. lia.
  - intros p. apply tp_eq. by rewrite Z.mul_comm, Z.mod_mul.
  - by apply dsig_eq.
  - intros Heq%dsig_eq. done.
  - intros. apply length_le_bytes.
  - intros p. rewrite of_le_bytes. pose proof (bool_decide_unpack _ (proj2_sig p)) as Hp.
    cbn in Hp. rewrite Z.mod_small by (split; [lia|]; etrans; [apply Hp|by vm_compute]).
    destruct (Z.ltb_spec (`p) 104); [|lia]. by rewrite tp_proj.
  - intros. apply length_le_bytes.
  - intros. apply le_bytes_ok.
Qed.

Definition toy_seed : bytes := replicate 32 7.

Lemma vrf_complete_witness :
  let key := VrfKey_from_seed toy_seed in
  ∃ proof beta, vrf_prove key [1; 2] = Ok (proof, beta) ∧
    vrf_verify (VrfKey_pubkey key) [1; 2] proof = Ok beta.
Proof.
  intros key. destruct (vrf_complete toy_seed [1; 2]) as (proof & beta & Hp & _ & Hv).
  - apply Z.eqb_neq. vm_compute. reflexivity.
  - apply (bool_decide_unpack _). vm_compute. exact I.
  - exists proof, beta. split; [exact Hp|exact Hv].
Defined.

Definition toy_keyed : KeyedHash := {| blake3_keyed k m := h32_bytes (toy_hash (k ++ m)) |}.

Lemma expand_length_witness :
  ∃ out, expand (H1 := toy_keyed) [1] [2] 50 = Ok out ∧ length out = 50%nat.
Proof.
  apply (expand_length (H1 := toy_keyed) [1] [2] 50%nat); [|lia].
  intros k m. apply length_be_bytes.
Defined.
