(* ===== verification/Config.v ===== *)
(** The configuration record of [consensus::config], the crate's error type
    and the host ports of [consensus::ports] and [HostContext].

    An [f64] is the Standard Library's executable IEEE-754 model [spec_float]
    at precision 53 and exponent bound 1024, round to nearest even. *)

From Stdlib Require Export SpecFloat.
From S2P Require Import Prelude Bytes Types Crypto.
Open Scope Z_scope.

(** ** [f64] *)

Abbreviation f64 := spec_float (only parsing).
#[global] Instance f64_eq_dec : EqDecision spec_float.
Proof. solve_decision. Defined.
Definition f64_mul : f64 → f64 → f64 := SFmul 53 1024.
Definition f64_add : f64 → f64 → f64 := SFadd 53 1024.
Definition f64_sub : f64 → f64 → f64 := SFsub 53 1024.
Definition f64_div : f64 → f64 → f64 := SFdiv 53 1024.

(** [n as f64] for an unsigned [n], and float literals [m · 2^e]. *)
Definition f64_of_u64 (n : Z) : f64 := binary_normalize 53 1024 n 0 false.
Definition f64_lit (m : positive) (e : Z) : f64 := S754_finite false m e.
Definition f64_zero : f64 := S754_zero false.
Definition f64_one : f64 := f64_of_u64 1.
Definition f64_infinity : f64 := S754_infinity false.

(** [a.partial_cmp(&b)], [a < b], [a == b] *)
Definition f64_partial_cmp (a b : f64) : option comparison := SFcompare a b.
Definition f64_ltb (a b : f64) : bool := bool_decide (SFcompare a b = Some Lt).
Definition f64_gtb (a b : f64) : bool := bool_decide (SFcompare a b = Some Gt).
Definition f64_eqb (a b : f64) : bool := bool_decide (SFcompare a b = Some Eq).
Definition f64_leb (a b : f64) : bool := f64_ltb a b || f64_eqb a b.

(** [x.clamp(min, max)]: panics unless [min <= max]. *)
Definition f64_clamp {E} (x min max : f64) : outcome E f64 :=
  if negb (f64_leb min max) then Panic
  else
    let x := if f64_ltb x min then min else x in
    Ok (if f64_gtb x max then max else x).

(** ** Errors *)

Inductive Error :=
| InvalidConfig (why : string)
| Persistence (why : string)
| Crypto (e : CryptoError)
| LockMacroErr (why : string).
#[global] Instance Error_eq_dec : EqDecision Error.
Proof. solve_decision. Defined.

Abbreviation result := (outcome Error).

(** ** Configuration *)

Record Timing := MkTiming {
  round_duration_ms : Z;
  t_macropropose_ms : Z;
  t_subnet_ms : Z;
  t_canonicalize_ms : Z;
}.

Record BullsharkParams := MkBullsharkParams {
  micro_committee_size : Z;
  shortcut_round_count : Z;
  slow_path_round_count : Z;
  wave_round_count : Z;
}.

Record MacroFinParams := MkMacroFinParams {
  macro_window_w : Z;
  two_chain_depth : Z;
  inactivity_leak_bps_per_window : Z;
  inactivity_leak_trigger_windows : Z;
}.

Record AggregationParams := MkAggregationParams {
  subnet_flat_threshold : Z;
  subnet_full_threshold : Z;
  sim_force_ke : option Z;
}.
#[global] Instance AggregationParams_eta : Settable AggregationParams := λ a,
  MkAggregationParams (subnet_flat_threshold a) (subnet_full_threshold a) (sim_force_ke a).

Record LeaderParams := MkLeaderParams {
  reputation_floor : f64;
  reputation_ceiling : f64;
  reputation_decay : f64;
}.

Record SlashingParams := MkSlashingParams {
  equivocation_bps : Z;
  double_vote_bps : Z;
  da_incident_bps : Z;
  slashing_cap_bps : Z;
}.

Record StorageParams := MkStorageParams {
  gc_hot_horizon_rounds : Z;
  gc_warm_horizon_rounds : Z;
  snapshot_interval_macros : Z;
}.

Record Config := MkConfig {
  schema_version : Z;
  timing : Timing;
  bullshark : BullsharkParams;
  macro_fin : MacroFinParams;
  aggregation : AggregationParams;
  leader : LeaderParams;
  slashing : SlashingParams;
  btc_confirmations_for_final : Z;
  storage : StorageParams;
}.
#[global] Instance Config_eta : Settable Config := λ c,
  MkConfig (schema_version c) (timing c) (bullshark c) (macro_fin c) (aggregation c)
    (leader c) (slashing c) (btc_confirmations_for_final c) (storage c).

Definition SCHEMA_VERSION : Z := 1.

(** [Config::default_table_17_1]: 0.8, 1.2 and 0.95 are the nearest doubles. *)
Definition default_table_17_1 : Config :=
  MkConfig SCHEMA_VERSION
    (MkTiming 250 4000 2000 8000)
    (MkBullsharkParams 256 2 4 4)
    (MkMacroFinParams 8 2 50 4)
    (MkAggregationParams 500 1000 None)
    (MkLeaderParams (f64_lit 7205759403792794 (-53)) (f64_lit 5404319552844595 (-52))
       (f64_lit 8556839292003942 (-53)))
    (MkSlashingParams 10000 5000 500 5000)
    6
    (MkStorageParams 200 10000 256).

(** [Config::sim_mode_a_dev] *)
Definition sim_mode_a_dev : Config :=
  let c := default_table_17_1 in
  c <| aggregation ::= λ a, a <| subnet_flat_threshold := 8 |> <| sim_force_ke := Some 8 |> |>.

(** The integer fields are within their Rust widths. *)
Record Config_ok (c : Config) : Prop := {
  cfg_round_duration : u64_ok (round_duration_ms (timing c));
  cfg_macropropose : u64_ok (t_macropropose_ms (timing c));
  cfg_shortcut : u32_ok (shortcut_round_count (bullshark c));
  cfg_slow : u32_ok (slow_path_round_count (bullshark c));
  cfg_window : u32_ok (macro_window_w (macro_fin c));
  cfg_leak : u32_ok (inactivity_leak_trigger_windows (macro_fin c));
  cfg_flat : u32_ok (subnet_flat_threshold (aggregation c));
}.

(** ** Host ports

    [DagView], [ValidatorSetPort], [RandomnessBeacon] and [SignerPort], as one
    call of [step] sees them.  ([Clock] and [Persistence] are in the bundle
    too; the state machine never calls them.)  A signer may panic, as
    [PanickingSigner] does. *)
Record HostContext := MkHostContext {
  dag_vertex : Hash32 → result (option CertifiedVertex);
  dag_vertices_at_round : Round → result (list CertifiedVertex);
  valset_set_for : Epoch → result (option ValidatorSet);
  beacon_current : result Hash32;
  sign_bls : bytes → bytes → result BlsSig;
  vrf_prove : bytes → result (VrfProof * Hash32);
}.

(** [ports::PendingBlobSource]: the host's queue, with its own state. *)
Class PendingBlobSource (P : Type) := {
  pb_drain : P → list BlobRef * P;
  pb_confirm_attached : P → list BlobRef → P;
}.

(** [NoPendingBlobs] *)
#[global] Instance NoPendingBlobs : PendingBlobSource unit :=
  {| pb_drain _ := ([], tt); pb_confirm_attached _ _ := tt |}.

(** [PanickingSigner] *)
Definition PanickingSigner_sign_bls (_ _ : bytes) : result BlsSig := Panic.
Definition PanickingSigner_vrf_prove (_ : bytes) : result (VrfProof * Hash32) := Panic.

(** [valset.set_for(Epoch(0))?.ok_or_else(|| InvalidConfig("no validator set ..."))] *)
Definition active_set (ctx : HostContext) : result ValidatorSet :=
  o ← valset_set_for ctx 0;
  match o with
  | Some set => Ok set
  | None => Err (InvalidConfig "no validator set for epoch 0")
  end.

Lemma active_set_Ok ctx set :
  active_set ctx = Ok set ↔ valset_set_for ctx 0 = Ok (Some set).
Proof.
  unfold active_set. destruct (valset_set_for ctx 0) as [[s|]| | |]; cbn; naive_solver.
Qed.
