(* ===== verification/Leader.v ===== *)
(** [consensus::leader] and [crypto::vrf::sortition]: the timer allocator, the
    sortition score, Shoal reputation, and beacon chaining. *)

From S2P Require Import Prelude Bytes Types Crypto Config.
Open Scope Z_scope.

(** ** [leader/timeout.rs] *)

Record TimerScheduler := MkTimerScheduler { ts_next : Z }.
#[global] Instance TimerScheduler_eta : Settable TimerScheduler := λ t,
  MkTimerScheduler (ts_next t).
Definition TimerScheduler_default : TimerScheduler := MkTimerScheduler 0.

Definition allocate `{Build} : M Error TimerScheduler TimerId :=
  id ← gets ts_next;
  next ← lift (add_w 64 id 1);
  _ ← modify (λ t, t <| ts_next := next |>);
  mret (MkTimerId id).

(** An allocation returns the counter and moves it up. *)
Lemma allocate_Ok `{Build} t :
  0 ≤ ts_next t → ts_next t + 1 < 2 ^ 64 →
  allocate t = (Ok (MkTimerId (ts_next t)), MkTimerScheduler (ts_next t + 1)).
Proof.
  intros ??. unfold allocate, mbind, M_bind, gets, lift, modify.
  rewrite add_w_ok by (unfold uint_ok; lia). done.
Qed.

(** ** [crypto/src/vrf/sortition.rs] and [leader/vrf_sortition.rs] *)

(** [u64::from_be_bytes(beta[..8]) >> 11] over [2^53]. *)
Definition vrf_to_uniform (beta : Hash32) : f64 :=
  let n := Z.shiftr (of_be (take 8 (h32_bytes beta))) 11 in
  f64_div (f64_of_u64 n) (f64_of_u64 (Z.shiftl 1 53)).

Definition vrf_sortition_score (vrf_beta : Hash32) (total_stake own_stake : Z)
    (reputation : f64) : f64 :=
  let y := vrf_to_uniform vrf_beta in
  let denom := f64_mul (f64_of_u64 own_stake) reputation in
  if f64_eqb denom f64_zero then f64_infinity
  else f64_div (f64_mul y (f64_of_u64 total_stake)) denom.

(** ** [leader/reputation.rs] *)

Record Reputation := MkReputation { rep_f64 : f64 }.
Definition Reputation_neutral : Reputation := MkReputation f64_one.

Definition Reputation_updated {E} (self : Reputation) (cfg : Config) (observation : f64)
  : outcome E Reputation :=
  let decay := reputation_decay (leader cfg) in
  let floor := reputation_floor (leader cfg) in
  let ceiling := reputation_ceiling (leader cfg) in
  obs ← f64_clamp observation f64_zero f64_one;
  let target := f64_add floor (f64_mul obs (f64_sub ceiling floor)) in
  let next := f64_add (f64_mul decay (rep_f64 self))
                      (f64_mul (f64_sub f64_one decay) target) in
  v ← f64_clamp next floor ceiling;
  Ok (MkReputation v).

(** ** [leader/beacon.rs] *)

Definition chain_beacon `{Primitives} (prev macro_qc_hash : Hash32) : Hash32 :=
  blake3_with_dst dst.BEACON (h32_bytes prev ++ h32_bytes macro_qc_hash).

(** ** The order of [f64]

    Floats other than NaN are ordered by sign class, then exponent, then
    mantissa. *)

Definition f64_key (x : f64) : option (Z * Z * Z) :=
  match x with
  | S754_nan => None
  | S754_infinity s => Some (if s then -2 else 2, 0, 0)
  | S754_zero _ => Some (0, 0, 0)
  | S754_finite s m e => Some (if s then (-1, - e, Z.neg m) else (1, e, Z.pos m))
  end.

Definition key_cmp (p q : Z * Z * Z) : comparison :=
  match Z.compare p.1.1 q.1.1 with
  | Eq => match Z.compare p.1.2 q.1.2 with
          | Eq => Z.compare p.2 q.2
          | c => c
          end
  | c => c
  end.

Lemma key_cmp_spec p q :
  CompareSpec (p = q)
    (p.1.1 < q.1.1 ∨ p.1.1 = q.1.1 ∧ (p.1.2 < q.1.2 ∨ p.1.2 = q.1.2 ∧ p.2 < q.2))
    (q.1.1 < p.1.1 ∨ p.1.1 = q.1.1 ∧ (q.1.2 < p.1.2 ∨ p.1.2 = q.1.2 ∧ q.2 < p.2))
    (key_cmp p q).
Proof.
  destruct p as [[a b] c], q as [[a' b'] c']. unfold key_cmp; cbn.
  destruct (Z.compare_spec a a'), (Z.compare_spec b b'), (Z.compare_spec c c');
    constructor; subst; auto.
Qed.

Lemma SFcompare_key x y :
  SFcompare x y =
  match f64_key x, f64_key y with Some p, Some q => Some (key_cmp p q) | _, _ => None end.
Proof.
  destruct x as [sx|sx| |sx mx ex], y as [sy|sy| |sy my ey];
    cbn; try destruct sx; try destruct sy; try done; f_equal; unfold key_cmp; cbn.
  rewrite Z.compare_opp, (Z.compare_antisym ex ey).
  by destruct (ex ?= ey).
Qed.

Definition not_nan (x : f64) : Prop := x ≠ S754_nan.

Lemma f64_key_Some x : not_nan x ↔ is_Some (f64_key x).
Proof. unfold not_nan. destruct x; cbn; split; naive_solver. Qed.

Lemma key_cmp_antisym p q : key_cmp q p = CompOpp (key_cmp p q).
Proof.
  unfold key_cmp. rewrite (Z.compare_antisym p.1.1), (Z.compare_antisym p.1.2),
    (Z.compare_antisym p.2).
  destruct (p.1.1 ?= q.1.1), (p.1.2 ?= q.1.2); done.
Qed.

Lemma key_cmp_trans p q r :
  key_cmp p q ≠ Gt → key_cmp q r ≠ Gt → key_cmp p r ≠ Gt.
Proof.
  destruct (key_cmp_spec p q) as [Hpq|Hpq|Hpq], (key_cmp_spec q r) as [Hqr|Hqr|Hqr],
    (key_cmp_spec p r) as [Hpr|Hpr|Hpr]; try done; intros _ _ _; subst; lia.
Qed.

Lemma key_cmp_refl p : key_cmp p p = Eq.
Proof. destruct (key_cmp_spec p p); [done|lia..]. Qed.

Lemma f64_leb_key x y p q :
  f64_key x = Some p → f64_key y = Some q → f64_leb x y = true ↔ key_cmp p q ≠ Gt.
Proof.
  intros Hx Hy. unfold f64_leb, f64_ltb, f64_eqb. rewrite !SFcompare_key, Hx, Hy.
  destruct (key_cmp p q); cbn; naive_solver.
Qed.

(** [clamp] returns a float of the interval, unless it was given NaN. *)
Lemma f64_clamp_in {E} x min max v :
  f64_clamp (E := E) x min max = Ok v →
  not_nan x → f64_leb min v = true ∧ f64_leb v max = true.
Proof.
  unfold f64_clamp, f64_ltb, f64_gtb.
  intros Hc [p Hx]%f64_key_Some. revert Hc.
  destruct (f64_leb min max) eqn:HmM; [cbn [negb]|done].
  destruct (f64_key min) as [pm|] eqn:Hm; last first.
  { unfold f64_leb, f64_ltb, f64_eqb in HmM. by rewrite !SFcompare_key, Hm in HmM. }
  destruct (f64_key max) as [pM|] eqn:HM; last first.
  { unfold f64_leb, f64_ltb, f64_eqb in HmM. by rewrite !SFcompare_key, Hm, HM in HmM. }
  set (x' := if bool_decide _ then min else x). intros [= <-].
  assert (∃ p', f64_key x' = Some p' ∧ key_cmp pm p' ≠ Gt) as (p' & Hx' & Hlo).
  { subst x'. rewrite SFcompare_key, Hx, Hm. case_bool_decide as Hlt.
    - exists pm. by rewrite key_cmp_refl.
    - exists p. split; [done|]. rewrite (key_cmp_antisym p pm).
      destruct (key_cmp p pm); cbn; congruence. }
  rewrite SFcompare_key, Hx', HM. apply (f64_leb_key _ _ _ _ Hm HM) in HmM.
  case_bool_decide as Hgt.
  - rewrite (f64_leb_key _ _ _ _ Hm HM), (f64_leb_key _ _ _ _ HM HM), key_cmp_refl. done.
  - rewrite (f64_leb_key _ _ _ _ Hm Hx'), (f64_leb_key _ _ _ _ Hx' HM).
    split; [done|congruence].
Qed.
