(* ===== verification/Dag.v ===== *)
(** [crates/dag]: the signing root and content hash of a vertex
    ([signing.rs]) and quorum certificates over vertices ([cert.rs]). *)

From S2P Require Import Prelude Bytes Types Crypto Toy.
Open Scope Z_scope.

(** ** [signing.rs] *)

Record SignableVertex := MkSignableVertex {
  sgv_round : Round;
  sgv_author : ValidatorId;
  sgv_parents : list Hash32;
  sgv_blobs : list BlobRef;
  sgv_hash : Hash32;
}.

Definition signable (v : Vertex) : SignableVertex :=
  MkSignableVertex (v_round v) (v_author v) (v_parents v) (v_blobs v)
    (MkHash32 (replicate 32 0)).

(** ** Errors of [cert.rs] *)

Inductive CertError :=
| HashMismatch
| InsufficientSigners (got need : Z)
| BadIndex (i : Z)
| UnknownDevnetAuthor
| Bls (e : CryptoError).
#[global] Instance CertError_eq_dec : EqDecision CertError.
Proof. solve_decision. Defined.

(** [quorum_threshold(n: u32)]: [2f + 1] for [f = (n - 1) / 3]. *)
Definition quorum_threshold (n : Z) : Z :=
  let f := saturating_sub n 1 / 3 in 2 * f + 1.

(** [u32::try_from(x)] and its [unwrap_or(0)]. *)
Definition u32_try_from (x : nat) : option Z :=
  if decide (u32_ok x) then Some (x : Z) else None.

(** [valset.entries.get(idx as usize)] *)
Definition entry_at (set : ValidatorSet) (idx : Z) : option ValidatorEntry :=
  vs_entries set !! Z.to_nat idx.

Section dag.
Context `{Primitives, !Borsh SignableVertex}.

Definition signing_bytes (v : Vertex) : bytes := to_vec (signable v).
Definition content_hash (v : Vertex) : Hash32 :=
  blake3_with_dst dst.VERTEX_HASH (signing_bytes v).
Definition seal_hash (v : Vertex) : Vertex := v <| v_hash := content_hash v |>.

(** The loop of [assemble_cert] over the contributors. *)
Fixpoint collect_sigs (set : ValidatorSet) (contributors : list (Z * BlsSig))
    (sigs : list BlsSig) (bm : Bitmap.t) : outcome CertError (list BlsSig * Bitmap.t) :=
  match contributors with
  | [] => Ok (sigs, bm)
  | (idx, sig) :: rest =>
      match entry_at set idx with
      | None => Err (BadIndex idx)
      | Some _ =>
          bm ← map_err (λ _, BadIndex idx) (Bitmap.set bm (Z.to_nat idx));
          collect_sigs set rest (sigs ++ [sig]) bm
      end
  end.

Definition assemble_cert (v : Vertex) (set : ValidatorSet)
    (contributors : list (Z * BlsSig)) : outcome CertError CertifiedVertex :=
  match u32_try_from (length (vs_entries set)) with
  | None => Err (BadIndex 0)
  | Some n =>
      let need := quorum_threshold n in
      let got := default 0 (u32_try_from (length contributors)) in
      if got <? need then Err (InsufficientSigners got need)
      else
        '(sigs, bm) ← collect_sigs set contributors [] (Bitmap.new (Z.to_nat n));
        agg ← map_err Bls (aggregate_sigs sigs);
        Ok (MkCertifiedVertex v (MkBlsAggSig agg (Bitmap.as_bytes bm)))
  end.

(** [build_quorum_cert_with] *)
Definition build_quorum_cert_with (v : Vertex) (set : ValidatorSet)
    (signer_indices : list Z) (sk_at : Z → outcome CertError blst_sk)
  : outcome CertError CertifiedVertex :=
  let msg := signing_bytes v in
  contributors ← omap_list (λ idx,
    match entry_at set idx with
    | None => Err (BadIndex idx)
    | Some _ => sk ← sk_at idx; Ok (idx, sign sk dst.VERTEX_CERT msg)
    end) signer_indices;
  assemble_cert v set contributors.

(** [devnet.rs] *)
Definition devnet_labels : list string := ["node0"; "node1"; "node2"; "node3"]%string.
Definition devnet_label_for_validator_id (id : ValidatorId) : option string :=
  snd <$> list_find (λ label,
    h32_bytes (blake3_with_dst dst.DEVNET_PEER_IDENTITY (str_bytes label)) = vid_bytes id)
    devnet_labels.
Definition devnet_bls_ikm (label : string) : bytes :=
  h32_bytes (blake3_with_dst dst.VALIDATOR_BLS_PARTIAL (str_bytes label)).

(** [build_quorum_cert] *)
Definition build_quorum_cert (v : Vertex) (set : ValidatorSet) (signer_indices : list Z)
  : outcome CertError CertifiedVertex :=
  build_quorum_cert_with v set signer_indices (λ idx,
    match entry_at set idx with
    | None => Err (BadIndex idx)
    | Some entry =>
        match devnet_label_for_validator_id (ve_id entry) with
        | None => Err UnknownDevnetAuthor
        | Some label => map_err Bls (SecretKey_from_ikm (devnet_bls_ikm label))
        end
    end).

(** [bitmap_indices]: the loop over [0..n]. *)
Fixpoint collect_indices (bm : Bitmap.t) (l : list nat) : outcome CertError (list Z) :=
  match l with
  | [] => Ok []
  | i :: l =>
      b ← map_err (λ _, BadIndex i) (Bitmap.get bm i);
      rest ← collect_indices bm l;
      Ok (if b : bool then (i : Z) :: rest else rest)
  end.

Definition bitmap_indices (bitmap : bytes) (n : Z) : outcome CertError (list Z) :=
  bm ← map_err (λ _, BadIndex 0) (Bitmap.from_bytes bitmap (Z.to_nat n));
  collect_indices bm (seq 0 (Z.to_nat n)).

(** The public key at a position of the validator set. *)
Definition pk_at (set : ValidatorSet) (idx : Z) : outcome CertError blst_pk :=
  match entry_at set idx with
  | None => Err (BadIndex idx)
  | Some entry => map_err Bls (PublicKey_from_bytes (ve_bls_pubkey entry))
  end.

Definition verify_certified_vertex (cv : CertifiedVertex) (set : ValidatorSet)
  : outcome CertError unit :=
  if bool_decide (v_hash (cv_vertex cv) ≠ content_hash (cv_vertex cv))
  then Err HashMismatch
  else
    match u32_try_from (length (vs_entries set)) with
    | None => Err (BadIndex 0)
    | Some n =>
        let need := quorum_threshold n in
        indices ← bitmap_indices (agg_bitmap (cv_certificate cv)) n;
        let got := default 0 (u32_try_from (length indices)) in
        if got <? need then Err (InsufficientSigners got need)
        else
          let msg := signing_bytes (cv_vertex cv) in
          pks ← omap_list (pk_at set) indices;
          map_err Bls (verify_aggregate pks dst.VERTEX_CERT msg (agg_sig (cv_certificate cv)))
    end.
End dag.

(** ** Quorum arithmetic *)

Lemma quorum_threshold_bounds n :
  1 ≤ n → 1 ≤ quorum_threshold n ≤ n ∧ n ≤ 3 * ((n - 1) / 3) + 3 ∧
  quorum_threshold n = 2 * ((n - 1) / 3) + 1.
Proof.
  intros. unfold quorum_threshold, saturating_sub. cbv zeta. rewrite Z.max_l by lia. dlia.
Qed.

Lemma u32_try_from_Some x n : u32_try_from x = Some n ↔ u32_ok x ∧ n = x.
Proof. unfold u32_try_from. case_decide; naive_solver. Qed.

Lemma quorum_threshold_u32 n : u32_ok n → u32_ok (quorum_threshold n).
Proof. unfold quorum_threshold, saturating_sub, uint_ok. cbv zeta. dlia. Qed.

(** Two sets of at least [need] positions among [n] overlap in at least
    [2 * need - n] positions. *)
Lemma quorum_overlap (n : nat) (A B : gset nat) :
  (∀ i, i ∈ A → (i < n)%nat) → (∀ i, i ∈ B → (i < n)%nat) →
  (size A + size B ≤ n + size (A ∩ B))%nat.
Proof.
  intros HA HB.
  assert (HU : (size (A ∪ B) ≤ n)%nat).
  { transitivity (size (list_to_set (seq 0 n) : gset nat)).
    - apply subseteq_size. intros i Hi. apply elem_of_list_to_set, elem_of_seq.
      set_unfold. destruct Hi as [?%HA|?%HB]; lia.
    - rewrite size_list_to_set by apply NoDup_seq. by rewrite length_seq. }
  pose proof (size_union_alt A B). pose proof (size_union_alt (B ∖ A) (A ∩ B)) as HI.
  replace (B ∖ A ∪ A ∩ B) with B in HI by (apply set_eq; intros i;
    set_unfold; destruct (decide (i ∈ A)); tauto).
  replace (A ∩ B ∖ (B ∖ A)) with (A ∩ B) in HI by set_solver. lia.
Qed.

(** ** Certificates *)

Section cert_lemmas.
Context `{Primitives, !Borsh SignableVertex}.

Lemma collect_indices_Ok bm l :
  Bitmap.wf bm → (∀ i, i ∈ l → (i < Bitmap.bm_bits bm)%nat) →
  collect_indices bm l =
    Ok (Z.of_nat <$> filter (λ i, get_bit (Bitmap.bm_bytes bm) i = true) l).
Proof.
  intros Hwf. induction l as [|i l IH]; intros Hl; [done|]. cbn [collect_indices].
  rewrite Bitmap.get_Ok by (done || (apply Hl; by left)). ocbn.
  rewrite IH by (intros; apply Hl; by right). ocbn. rewrite filter_cons.
  destruct (get_bit _ i); [rewrite decide_True by done|rewrite decide_False by done]; done.
Qed.

Lemma bitmap_indices_Ok bitmap (n : nat) l :
  bitmap_indices bitmap n = Ok l ↔
  length bitmap = div_ceil8 n ∧ l = Z.of_nat <$> set_bits bitmap n.
Proof.
  unfold bitmap_indices. rewrite Nat2Z.id. split.
  - intros (bm & Hbm & Hl)%outcome_bind_Ok.
    destruct (Bitmap.from_bytes bitmap n) as [bm'| | |] eqn:Hf; try done.
    injection Hbm as ->. apply Bitmap.from_bytes_Ok in Hf as [Hlen ->].
    rewrite collect_indices_Ok in Hl; [by injection Hl as <-|done|].
    intros i Hi%elem_of_seq. cbn. lia.
  - intros [Hlen ->]. rewrite (proj2 (Bitmap.from_bytes_Ok bitmap n _)) by eauto.
    ocbn. rewrite collect_indices_Ok; [done|done|].
    intros i Hi%elem_of_seq. cbn. lia.
Qed.

(** What a certificate that verifies contains. *)
Definition signers (cv : CertifiedVertex) (set : ValidatorSet) : list nat :=
  set_bits (agg_bitmap (cv_certificate cv)) (length (vs_entries set)).

Lemma elem_of_set_bits bs n i : i ∈ set_bits bs n ↔ get_bit bs i = true ∧ (i < n)%nat.
Proof. unfold set_bits. rewrite list_elem_of_filter, elem_of_seq. naive_solver lia. Qed.

Lemma NoDup_set_bits bs n : NoDup (set_bits bs n).
Proof. apply NoDup_filter, NoDup_seq. Qed.

Lemma length_set_bits_le bs n : (length (set_bits bs n) ≤ n)%nat.
Proof.
  unfold set_bits. etrans; [apply length_filter|]. by rewrite length_seq.
Qed.

Record cert_valid (cv : CertifiedVertex) (set : ValidatorSet) : Prop := {
  cert_hash : v_hash (cv_vertex cv) = content_hash (cv_vertex cv);
  cert_u32 : u32_ok (length (vs_entries set));
  cert_len : length (agg_bitmap (cv_certificate cv)) = div_ceil8 (length (vs_entries set));
  cert_quorum : quorum_threshold (length (vs_entries set)) ≤ length (signers cv set);
  cert_sigs : ∃ pks,
    Forall2 (λ i pk, pk_at set (Z.of_nat i) = Ok pk) (signers cv set) pks ∧
    verify_aggregate pks dst.VERTEX_CERT (signing_bytes (cv_vertex cv))
      (agg_sig (cv_certificate cv)) = Ok tt;
}.

Lemma map_err_Ok {E E' A} (g : E → E') (m : outcome E A) a :
  map_err g m = Ok a ↔ m = Ok a.
Proof. destruct m; cbn; naive_solver. Qed.

Lemma verify_certified_vertex_Ok cv set :
  verify_certified_vertex cv set = Ok tt ↔ cert_valid cv set.
Proof.
  unfold verify_certified_vertex. set (n := length (vs_entries set)).
  set (bm := agg_bitmap (cv_certificate cv)).
  assert (Hdef : ∀ k, u32_ok n → (k ≤ n)%nat → default 0 (u32_try_from k) = k).
  { intros k Hn Hk. rewrite (proj2 (u32_try_from_Some k k)); [done|].
    unfold uint_ok in *. lia. }
  split.
  - case_bool_decide as Hh; [done|].
    destruct (u32_try_from n) as [n'|] eqn:Hn; [|done].
    apply u32_try_from_Some in Hn as [Hn ->].
    intros (l & [Hlen ->]%bitmap_indices_Ok & Hl)%outcome_bind_Ok. revert Hl.
    rewrite length_fmap, Hdef by (done || apply length_set_bits_le).
    destruct (Z.ltb_spec (length (set_bits bm n)) (quorum_threshold n)); [done|].
    intros (pks & Hpks%omap_list_Ok & Hv%map_err_Ok)%outcome_bind_Ok.
    rewrite Forall2_fmap_l in Hpks.
    constructor; [done..|]. by exists pks.
  - intros [Hh Hn Hlen Hq (pks & Hpks & Hv)].
    change (quorum_threshold n ≤ length (set_bits bm n)) in Hq.
    rewrite bool_decide_eq_false_2 by (intros Hne; by apply Hne).
    rewrite (proj2 (u32_try_from_Some n n)) by done.
    rewrite (proj2 (bitmap_indices_Ok bm n _)) by done. ocbn.
    rewrite length_fmap, Hdef by (done || apply length_set_bits_le).
    destruct (Z.ltb_spec (length (set_bits bm n)) (quorum_threshold n)); [lia|].
    rewrite (proj2 (omap_list_Ok (pk_at set) _ pks)) by (by apply Forall2_fmap_l).
    ocbn. by rewrite Hv.
Qed.

(** The loop of [assemble_cert]. *)
Lemma collect_sigs_Ok set cs sigs bm sigs' bm' :
  collect_sigs set cs sigs bm = Ok (sigs', bm') →
  Bitmap.wf bm →
  sigs' = sigs ++ cs.*2 ∧ Bitmap.wf bm' ∧ Bitmap.bm_bits bm' = Bitmap.bm_bits bm ∧
  (∀ j, get_bit (Bitmap.bm_bytes bm') j =
     bool_decide (j ∈ (Z.to_nat <$> cs.*1)) || get_bit (Bitmap.bm_bytes bm) j).
Proof.
  revert sigs bm. induction cs as [|[idx sig] cs IH]; intros sigs bm; cbn [collect_sigs].
  { intros [= <- <-] Hwf. by rewrite app_nil_r. }
  destruct (entry_at set idx); [|done].
  intros (bm1 & Hbm1 & Hrest)%outcome_bind_Ok Hwf.
  apply map_err_Ok, Bitmap.set_Ok_inv in Hbm1 as (Hi & -> & Hi8).
  apply IH in Hrest as (-> & Hwf' & Hbits & Hget);
    [|unfold Bitmap.wf; cbn; by rewrite length_set_bit].
  split_and!; [by rewrite <- app_assoc|done|done|].
  intros j. rewrite Hget. cbn [Bitmap.bm_bytes fst fmap list_fmap].
  rewrite get_set_bit by done. rewrite orb_assoc. f_equal.
  rewrite <- bool_decide_or. apply bool_decide_ext. rewrite elem_of_cons. naive_solver.
Qed.

(** [assemble_cert] puts exactly the contributors' positions in the bitmap. *)
Lemma assemble_cert_Ok v set cs cv :
  assemble_cert v set cs = Ok cv →
  cv_vertex cv = v ∧
  u32_ok (length (vs_entries set)) ∧
  length (agg_bitmap (cv_certificate cv)) = div_ceil8 (length (vs_entries set)) ∧
  aggregate_sigs (cs.*2) = Ok (agg_sig (cv_certificate cv)) ∧
  (∀ j, j ∈ signers cv set ↔
        j ∈ (Z.to_nat <$> cs.*1) ∧ (j < length (vs_entries set))%nat).
Proof.
  unfold assemble_cert. set (n := length (vs_entries set)).
  destruct (u32_try_from n) as [n'|] eqn:Hn; [|done].
  apply u32_try_from_Some in Hn as [Hn ->].
  destruct (_ <? _); [done|].
  intros ([sigs bm] & Hc & (agg & Hagg%map_err_Ok & [= <-])%outcome_bind_Ok)%outcome_bind_Ok.
  apply collect_sigs_Ok in Hc as (-> & Hwf & Hbits & Hget); [|apply Bitmap.new_wf].
  cbn in Hwf, Hbits, Hagg |- *. rewrite Nat2Z.id in *.
  unfold Bitmap.wf in Hwf. rewrite Hbits in Hwf.
  split_and!; [done..|]. intros j. unfold signers. rewrite elem_of_set_bits. cbn.
  unfold Bitmap.as_bytes. rewrite Hget. cbn. rewrite get_bit_zero, orb_false_r.
  by rewrite bool_decide_eq_true.
Qed.

(** Two sets of [q] positions each have many in common. *)
Lemma common_positions (l1 l2 : list nat) (n : nat) (q : Z) :
  NoDup l1 → NoDup l2 → (∀ i, i ∈ l1 → (i < n)%nat) → (∀ i, i ∈ l2 → (i < n)%nat) →
  q ≤ length l1 → q ≤ length l2 →
  ∃ l : list nat, NoDup l ∧ 2 * q ≤ n + length l ∧ (∀ i, i ∈ l → i ∈ l1 ∧ i ∈ l2).
Proof.
  intros Hd1 Hd2 Hn1 Hn2 Hq1 Hq2.
  pose (A := list_to_set l1 : gset nat). pose (B := list_to_set l2 : gset nat).
  exists (elements (A ∩ B)). split_and!.
  - apply NoDup_elements.
  - assert (HA : size A = length l1) by by apply size_list_to_set.
    assert (HB : size B = length l2) by by apply size_list_to_set.
    assert (Ho : (size A + size B ≤ n + size (A ∩ B))%nat).
    { apply quorum_overlap; intros i Hi%elem_of_list_to_set; auto. }
    change (length (elements (A ∩ B))) with (size (A ∩ B)). lia.
  - intros i. subst A B. set_solver.
Qed.
Lemma set_bits_bound bm n i : i ∈ set_bits bm n → (i < n)%nat.
Proof. by intros [_ ?]%elem_of_set_bits. Qed.

(** The common signers of two valid certificates. *)
Lemma common_signers set cv1 cv2 :
  cert_valid cv1 set → cert_valid cv2 set →
  ∃ l : list nat, NoDup l ∧
    2 * quorum_threshold (length (vs_entries set)) ≤ length (vs_entries set) + length l ∧
    (∀ i, i ∈ l → i ∈ signers cv1 set ∧ i ∈ signers cv2 set).
Proof.
  intros [_ _ _ Hq1 _] [_ _ _ Hq2 _].
  apply common_positions; try done; try apply NoDup_set_bits; apply set_bits_bound.
Qed.
End cert_lemmas.

(** ** Concrete vertices and certificates *)

Definition toy_blob (b : BlobRef) : bytes :=
  pack [bid_bytes (br_blob_id b); h32_bytes (br_commitment b); [br_size_bytes b]].

#[global] Instance toy_signable : Borsh SignableVertex := λ v,
  pack [[sgv_round v]; vid_bytes (sgv_author v); pack (h32_bytes <$> sgv_parents v);
        pack (toy_blob <$> sgv_blobs v); h32_bytes (sgv_hash v)].

(** A sealed vertex with a payload, and its certificate by [signers]. *)
Definition toy_vertex (round : Z) (author : nat) (parents : list Hash32) : Vertex :=
  seal_hash (MkVertex round (toy_id author) parents [] Hash32_zero).
Definition toy_cert (n : nat) (v : Vertex) (who : list nat) : outcome CertError CertifiedVertex :=
  build_quorum_cert_with v (toy_set n) (Z.of_nat <$> who) (λ i, Ok (10 + i)).

Definition toy_qc (n : nat) (v : Vertex) (who : list nat) : CertifiedVertex :=
  match toy_cert n v who with
  | Ok cv => cv
  | _ => MkCertifiedVertex v (MkBlsAggSig (MkBlsSig []) [])
  end.

(** Two conflicting vertices of one round, certified by overlapping quorums. *)
Definition toy_qc1 : CertifiedVertex := toy_qc 4 (toy_vertex 0 1 []) [0; 2; 3]%nat.
Definition toy_qc2 : CertifiedVertex := toy_qc 4 (toy_vertex 0 2 []) [1; 2; 3]%nat.

(** ** Properties *)

(** [C35] [verify_certified_vertex] accepts exactly the well-formed quorum
    certificates: the vertex is sealed with its content hash, the bitmap has
    the length of the validator set, at least [2f + 1] distinct positions are
    set, and the aggregate signature verifies under the keys at those
    positions over the vertex's signing bytes. *)
Theorem verify_certified_vertex_spec `{Primitives, !Borsh SignableVertex} cv set :
  verify_certified_vertex cv set = Ok tt ↔
    v_hash (cv_vertex cv) = content_hash (cv_vertex cv) ∧
    u32_ok (length (vs_entries set)) ∧
    length (agg_bitmap (cv_certificate cv)) = div_ceil8 (length (vs_entries set)) ∧
    quorum_threshold (length (vs_entries set)) ≤ length (signers cv set) ∧
    ∃ pks, Forall2 (λ i pk, pk_at set (Z.of_nat i) = Ok pk) (signers cv set) pks ∧
      verify_aggregate pks dst.VERTEX_CERT (signing_bytes (cv_vertex cv))
        (agg_sig (cv_certificate cv)) = Ok tt.
Proof.
  rewrite verify_certified_vertex_Ok. split; [intros []|intros (?&?&?&?&?)]; by split_and?.
Qed.

(** [C13] With [n = 3f + 1] validators, any two certificates that verify under
    the same set have at least [f + 1] signers in common, so at least one
    signer that is not among [f] faulty ones. *)
Theorem quorum_intersection `{Primitives, !Borsh SignableVertex} set (f : nat) cv1 cv2 :
  length (vs_entries set) = (3 * f + 1)%nat →
  verify_certified_vertex cv1 set = Ok tt →
  verify_certified_vertex cv2 set = Ok tt →
  ∃ common : list nat, NoDup common ∧ (f + 1 ≤ length common)%nat ∧
    (∀ i, i ∈ common → i ∈ signers cv1 set ∧ i ∈ signers cv2 set) ∧
    (∀ faulty : list nat, (length faulty ≤ f)%nat → ∃ i, i ∈ common ∧ i ∉ faulty).
Proof.
  intros Hn Hv1%verify_certified_vertex_Ok Hv2%verify_certified_vertex_Ok.
  destruct (common_signers set cv1 cv2 Hv1 Hv2) as (l & Hnd & Hlen & Hin).
  rewrite Hn in Hlen.
  assert (Hl : (f + 1 ≤ length l)%nat).
  { unfold quorum_threshold, saturating_sub in Hlen. cbv zeta in Hlen. dlia. }
  exists l. split_and!; [done..|]. intros faulty Hf.
  apply (list_pigeonhole_out l faulty); [done|lia].
Qed.

Lemma quorum_intersection_witness :
  ∃ common : list nat, NoDup common ∧ (1 + 1 ≤ length common)%nat ∧
    (∀ i, i ∈ common → i ∈ signers toy_qc1 (toy_set 4) ∧ i ∈ signers toy_qc2 (toy_set 4)) ∧
    (∀ faulty : list nat, (length faulty ≤ 1)%nat → ∃ i, i ∈ common ∧ i ∉ faulty).
Proof. apply (quorum_intersection (toy_set 4) 1); vm_compute; reflexivity. Defined.
