(* ===== verification/Linearize.v ===== *)
(** [bullshark/linearize.rs] and the parent walk of [bullshark/commit.rs]:
    breadth-first traversals of the DAG the host holds.

    The Rust loops run until their queue is empty; here they take fuel, and
    the lemmas give the amount that is enough for a DAG with finitely many
    hashes. *)

From stdpp Require Export relations.
From S2P Require Import Prelude Bytes Types Crypto Toy Config Dag.
Open Scope Z_scope.

(** [h → p]: the vertex stored under [h] names [p] as a parent. *)
Definition edge (ctx : HostContext) (h p : Hash32) : Prop :=
  ∃ cv, dag_vertex ctx h = Ok (Some cv) ∧ p ∈ v_parents (cv_vertex cv).

(** [for p in parents { if visited.insert(p) { queue.push_back(p) } }] *)
Fixpoint visit (parents : list Hash32) (visited : gset Hash32) (queue : list Hash32)
  : gset Hash32 * list Hash32 :=
  match parents with
  | [] => (visited, queue)
  | p :: parents =>
      if decide (p ∈ visited) then visit parents visited queue
      else visit parents ({[p]} ∪ visited) (queue ++ [p])
  end.

Record Linearization := MkLinearization { lin_order : list Hash32 }.

Fixpoint closure_loop (fuel : nat) (ctx : HostContext) (visited : gset Hash32)
    (order queue : list Hash32) : result (list Hash32) :=
  match fuel with
  | O => NoFuel
  | S fuel =>
      match queue with
      | [] => Ok order
      | hash :: queue =>
          let order := order ++ [hash] in
          o ← dag_vertex ctx hash;
          match o with
          | None => closure_loop fuel ctx visited order queue
          | Some cv =>
              let parents := merge_sort kle (v_parents (cv_vertex cv)) in
              let '(visited, queue) := visit parents visited queue in
              closure_loop fuel ctx visited order queue
          end
      end
  end.

Definition closure_of_anchor (fuel : nat) (anchor_hash : Hash32) (ctx : HostContext)
  : result Linearization :=
  order ← closure_loop fuel ctx {[anchor_hash]} [] [anchor_hash];
  Ok (MkLinearization order).

(** [checkpoint_hash_from_rounds], [checkpoint_hash_from_linearization] *)
Definition checkpoint_hash_from_rounds `{Primitives, !Borsh (list Hash32)}
    (vertices : list CertifiedVertex) : Hash32 :=
  blake3_with_dst dst.MICRO_QC (to_vec ((λ cv, v_hash (cv_vertex cv)) <$> vertices)).
Definition checkpoint_hash_from_linearization `{Primitives, !Borsh (list Hash32)}
    (lin : Linearization) : Hash32 :=
  blake3_with_dst dst.MICRO_QC (to_vec (lin_order lin)).

(** The loop of [vertex_reaches]. *)
Fixpoint reaches_loop (fuel : nat) (ctx : HostContext) (target : Hash32)
    (visited : gset Hash32) (queue : list Hash32) : result bool :=
  match fuel with
  | O => NoFuel
  | S fuel =>
      match queue with
      | [] => Ok false
      | h :: queue =>
          if bool_decide (h = target) then Ok true
          else
            o ← dag_vertex ctx h;
            match o with
            | None => reaches_loop fuel ctx target visited queue
            | Some v =>
                let '(visited, queue) := visit (v_parents (cv_vertex v)) visited queue in
                reaches_loop fuel ctx target visited queue
            end
      end
  end.

Definition vertex_reaches (fuel : nat) (start : CertifiedVertex) (target : Hash32)
    (ctx : HostContext) : result bool :=
  if bool_decide (v_hash (cv_vertex start) = target) then Ok true
  else
    let queue := v_parents (cv_vertex start) in
    reaches_loop fuel ctx target (list_to_set queue) queue.

(** ** The inner loop *)

Lemma visit_spec parents visited queue visited' queue' :
  visit parents visited queue = (visited', queue') →
  ∃ added, queue' = queue ++ added ∧ NoDup added ∧
    (∀ x, x ∈ added ↔ x ∈ parents ∧ x ∉ visited) ∧
    visited' = visited ∪ list_to_set added.
Proof.
  revert visited queue. induction parents as [|p parents IH]; intros visited queue; cbn.
  { intros [= <- <-]. exists []. rewrite app_nil_r.
    split_and!; [done|by apply NoDup_nil| |by cbn; rewrite union_empty_r_L].
    intros x. rewrite !elem_of_nil. tauto. }
  case_decide as Hp; intros (added & -> & Hnd & Hin & ->)%IH.
  - exists added. split_and!; [done..| |done]. intros x. rewrite Hin, elem_of_cons.
    split; [tauto|]. intros [[->|?] ?]; tauto.
  - exists (p :: added). split_and!.
    + by rewrite <- app_assoc.
    + constructor; [|done]. rewrite Hin, elem_of_union, elem_of_singleton. tauto.
    + intros x. rewrite !elem_of_cons, Hin, elem_of_union, elem_of_singleton.
      destruct (decide (x = p)) as [->|]; tauto.
    + cbn. by rewrite (union_comm_L {[p]} visited), union_assoc_L.
Qed.

(** A set of hashes that the walk cannot leave. *)
Record closed_dag (ctx : HostContext) (U : gset Hash32) : Prop := {
  closed_lookup h : h ∈ U → ∃ o, dag_vertex ctx h = Ok o;
  closed_edge h p : h ∈ U → edge ctx h p → p ∈ U;
}.

(** What is left to visit, as the walk progresses. *)
Lemma visit_measure (U : gset Hash32) parents visited queue visited' queue' :
  visit parents visited queue = (visited', queue') →
  (∀ p, p ∈ parents → p ∈ U) →
  (length queue' + size (U ∖ visited') = length queue + size (U ∖ visited))%nat.
Proof.
  intros (added & -> & Hnd & Hin & ->)%visit_spec HU.
  rewrite length_app.
  assert (Hs : size (U ∖ visited) =
    (size (U ∖ (visited ∪ list_to_set added)) + length added)%nat).
  { rewrite <- (size_list_to_set (C := gset Hash32) added) by done.
    rewrite <- size_union by (intros x; rewrite elem_of_difference, elem_of_union; tauto).
    f_equal. apply set_eq. intros x.
    rewrite elem_of_union, !elem_of_difference, elem_of_union, elem_of_list_to_set, Hin.
    specialize (HU x). destruct (decide (x ∈ visited)), (decide (x ∈ parents)); tauto. }
  lia.
Qed.

(** ** The closure of the anchor *)

Section closure.
Context (ctx : HostContext) (root : Hash32).

(** The invariant of [closure_loop]. *)
Record closure_inv (visited : gset Hash32) (order queue : list Hash32) : Prop := {
  ci_nodup : NoDup (order ++ queue);
  ci_visited x : x ∈ visited ↔ x ∈ order ++ queue;
  ci_head : head (order ++ queue) = Some root;
  ci_reach x : x ∈ order ++ queue → rtc (edge ctx) root x;
  ci_closed x y : x ∈ order → edge ctx x y → y ∈ visited;
}.

Lemma closure_inv_init : closure_inv {[root]} [] [root].
Proof.
  split; cbn.
  - apply NoDup_singleton.
  - set_solver.
  - done.
  - by intros x ->%list_elem_of_singleton.
  - by intros x y ?%elem_of_nil.
Qed.

(** One iteration on a hash without a vertex, and on one with a vertex. *)
Lemma closure_inv_pop visited order h queue :
  closure_inv visited order (h :: queue) → dag_vertex ctx h = Ok None →
  closure_inv visited (order ++ [h]) queue.
Proof.
  intros [Hnd Hv Hh Hr Hc] Hn. split; rewrite <- ?app_assoc; cbn; try done.
  intros x y [Hx| ->%list_elem_of_singleton]%elem_of_app He; [by eapply Hc|].
  destruct He as (cv & Hcv & _). congruence.
Qed.

Lemma closure_inv_visit visited order h queue cv visited' queue' :
  closure_inv visited order (h :: queue) → dag_vertex ctx h = Ok (Some cv) →
  visit (merge_sort kle (v_parents (cv_vertex cv))) visited queue = (visited', queue') →
  closure_inv visited' (order ++ [h]) queue'.
Proof.
  intros [Hnd Hv Hh Hr Hc] Hcv (added & -> & Hnd' & Hin & ->)%visit_spec.
  assert (Happ : (order ++ [h]) ++ queue ++ added = (order ++ h :: queue) ++ added)
    by by rewrite <- !app_assoc.
  setoid_rewrite merge_sort_Permutation in Hin.
  split; rewrite ?Happ.
  - apply NoDup_app. split_and!; [done| |done].
    intros x Hx Ha. apply Hin in Ha as [_ []]. by apply Hv.
  - intros x. rewrite elem_of_union, elem_of_list_to_set, Hv.
    by rewrite (elem_of_app (order ++ h :: queue)).
  - by destruct order.
  - intros x [Hx|Hx]%elem_of_app; [by apply Hr|]. apply Hin in Hx as [Hx _].
    eapply rtc_r; [apply (Hr h); set_solver|]. by exists cv.
  - intros x y [Hx| ->%list_elem_of_singleton]%elem_of_app He.
    + apply elem_of_union_l. by eapply Hc.
    + destruct He as (cv' & Hcv' & Hy). assert (cv' = cv) as -> by congruence.
      rewrite elem_of_union, elem_of_list_to_set, Hin.
      destruct (decide (y ∈ visited)); auto.
Qed.

Lemma closure_loop_inv fuel visited order queue order' :
  closure_inv visited order queue →
  closure_loop fuel ctx visited order queue = Ok order' →
  ∃ visited', closure_inv visited' order' [].
Proof.
  revert visited order queue. induction fuel as [|fuel IH]; intros visited order queue Hi;
    [done|]. cbn [closure_loop].
  destruct queue as [|h queue]; [intros [= <-]; by exists visited|].
  intros ([cv|] & Ho & Hrest)%outcome_bind_Ok.
  - destruct (visit _ visited queue) as [visited' queue'] eqn:Hvis.
    eapply IH; [|done]. by eapply closure_inv_visit.
  - eapply IH; [|done]. by apply closure_inv_pop.
Qed.

Lemma closure_loop_total U fuel visited order queue :
  closed_dag ctx U → (∀ x, x ∈ queue → x ∈ U) →
  (length queue + size (U ∖ visited) < fuel)%nat →
  ∃ order', closure_loop fuel ctx visited order queue = Ok order'.
Proof.
  intros HU. revert visited order queue.
  induction fuel as [|fuel IH]; intros visited order queue Hq Hf; [lia|].
  cbn [closure_loop]. destruct queue as [|h queue]; [eauto|].
  cbn [length] in Hf. assert (Hh : h ∈ U) by (apply Hq; by left).
  destruct (closed_lookup _ _ HU h Hh) as [o Ho]. rewrite Ho. ocbn.
  destruct o as [cv|]; last first.
  { apply IH; [intros; apply Hq; by right|lia]. }
  assert (HP : ∀ p, p ∈ merge_sort kle (v_parents (cv_vertex cv)) → p ∈ U).
  { intros p Hp. rewrite merge_sort_Permutation in Hp.
    eapply closed_edge; [done..|]. by exists cv. }
  destruct (visit _ visited queue) as [visited' queue'] eqn:Hvis.
  pose proof (visit_measure U _ _ _ _ _ Hvis HP) as Hm.
  apply visit_spec in Hvis as (added & -> & _ & Hin & _).
  apply IH; [|lia]. intros x [Hx|Hx]%elem_of_app; [apply Hq; by right|].
  apply HP. by apply Hin in Hx as [? _].
Qed.

Lemma closure_inv_done visited order :
  closure_inv visited order [] →
  NoDup order ∧ head order = Some root ∧ ∀ h, h ∈ order ↔ rtc (edge ctx) root h.
Proof.
  intros [Hnd Hv Hh Hr Hc]. rewrite app_nil_r in *. split_and!; [done..|].
  intros h. split; [apply Hr|]. intros Hrt.
  assert (Hroot : root ∈ order) by by apply head_Some_elem_of.
  revert Hroot. clear Hh Hr. induction Hrt as [x|x y z Hxy _ IH]; [done|].
  intros Hx. apply IH. apply Hv. by eapply Hc.
Qed.
End closure.

(** ** Reachability of the anchor *)

Section reaches.
Context (ctx : HostContext) (target : Hash32).

Lemma reaches_loop_spec fuel (seen : list Hash32) visited queue b :
  reaches_loop fuel ctx target visited queue = Ok b →
  (∀ x, x ∈ visited ↔ x ∈ seen ∨ x ∈ queue) →
  (∀ x y, x ∈ seen → edge ctx x y → y ∈ visited) →
  target ∉ seen →
  b = true ↔ ∃ x, x ∈ visited ∧ rtc (edge ctx) x target.
Proof.
  revert seen visited queue. induction fuel as [|fuel IH]; intros seen visited queue;
    [done|]. cbn [reaches_loop]. destruct queue as [|h queue].
  { intros [= <-] Hv Hc Ht. split; [done|]. intros (x & Hx & Hr). exfalso.
    assert (Hxs : x ∈ seen) by (apply Hv in Hx as [?|?%elem_of_nil]; done).
    clear Hx IH. induction Hr as [x|x y z Hxy _ IHr]; [done|].
    apply IHr; [done|]. apply (Hc x y Hxs) in Hxy.
    by apply Hv in Hxy as [?|?%elem_of_nil]. }
  case_bool_decide as Hh.
  { intros [= <-] Hv Hc Ht. split; [|done]. intros _. exists h. subst h.
    split; [apply Hv; right; by left|done]. }
  intros (o & Ho & Hrest)%outcome_bind_Ok Hv Hc Ht.
  assert (Hseen : target ∉ h :: seen) by (rewrite not_elem_of_cons; auto).
  destruct o as [cv|].
  - destruct (visit _ visited queue) as [visited' queue'] eqn:Hvis.
    apply visit_spec in Hvis as (added & -> & _ & Hin & ->).
    assert (Hb : b = true ↔
      ∃ x, x ∈ visited ∪ list_to_set added ∧ rtc (edge ctx) x target).
    { eapply (IH (h :: seen)); [done| | |done].
      - intros x. rewrite elem_of_union, elem_of_list_to_set, elem_of_app, Hv, !elem_of_cons.
        tauto.
      - intros x y [->|Hx]%elem_of_cons He; [|apply elem_of_union_l; by eapply Hc].
        destruct He as (cv' & Hcv' & Hy). assert (cv' = cv) as -> by congruence.
        rewrite elem_of_union, elem_of_list_to_set, Hin.
        destruct (decide (y ∈ visited)); auto. }
    rewrite Hb. split; [|set_solver].
    intros (x & [Hx|Hx%elem_of_list_to_set]%elem_of_union & Hr); [eauto|].
    apply Hin in Hx as [Hx _]. exists h. split; [apply Hv; right; by left|].
    eapply rtc_l; [|done]. by exists cv.
  - eapply (IH (h :: seen)); [done| | |done].
    + intros x. rewrite Hv. set_solver.
    + intros x y [->|Hx]%elem_of_cons He; [|by eapply Hc].
      destruct He as (cv & Hcv & _). congruence.
Qed.

Lemma reaches_loop_total U fuel visited queue :
  closed_dag ctx U → (∀ x, x ∈ queue → x ∈ U) →
  (length queue + size (U ∖ visited) < fuel)%nat →
  ∃ b, reaches_loop fuel ctx target visited queue = Ok b.
Proof.
  intros HU. revert visited queue.
  induction fuel as [|fuel IH]; intros visited queue Hq Hf; [lia|].
  cbn [reaches_loop]. destruct queue as [|h queue]; [eauto|].
  case_bool_decide; [eauto|].
  cbn [length] in Hf. assert (Hh : h ∈ U) by (apply Hq; by left).
  destruct (closed_lookup _ _ HU h Hh) as [o Ho]. rewrite Ho. ocbn.
  destruct o as [cv|]; last first.
  { apply IH; [intros; apply Hq; by right|lia]. }
  assert (HP : ∀ p, p ∈ v_parents (cv_vertex cv) → p ∈ U).
  { intros p Hp. eapply closed_edge; [done..|]. by exists cv. }
  destruct (visit _ visited queue) as [visited' queue'] eqn:Hvis.
  pose proof (visit_measure U _ _ _ _ _ Hvis HP) as Hm.
  apply visit_spec in Hvis as (added & -> & _ & Hin & _).
  apply IH; [|lia]. intros x [Hx|Hx]%elem_of_app; [apply Hq; by right|].
  apply HP. by apply Hin in Hx as [? _].
Qed.
End reaches.

(** [start] supports [target]: it is it, or one of its parents leads to it. *)
Definition supports (ctx : HostContext) (start : CertifiedVertex) (target : Hash32) : Prop :=
  v_hash (cv_vertex start) = target ∨
  ∃ p, p ∈ v_parents (cv_vertex start) ∧ rtc (edge ctx) p target.

Lemma vertex_reaches_Ok fuel start target ctx b :
  vertex_reaches fuel start target ctx = Ok b → b = true ↔ supports ctx start target.
Proof.
  unfold vertex_reaches, supports. case_bool_decide as He.
  { intros [= <-]. naive_solver. }
  intros Hr. rewrite (reaches_loop_spec ctx target fuel [] _ _ b Hr).
  - setoid_rewrite elem_of_list_to_set. naive_solver.
  - intros x. rewrite elem_of_list_to_set, elem_of_nil. naive_solver.
  - by intros x y ?%elem_of_nil.
  - by intros ?%elem_of_nil.
Qed.

(** ** Concrete DAGs: a host whose store is a finite map. *)

Definition host_of (m : gmap Hash32 CertifiedVertex) (set : ValidatorSet)
    (beacon : Hash32) : HostContext :=
  MkHostContext (λ h, Ok (m !! h))
    (λ r, Ok (filter (λ cv, v_round (cv_vertex cv) = r) (btree_values m)))
    (λ _, Ok (Some set)) (Ok beacon)
    (λ _ _, Ok (MkBlsSig [])) (λ _, Ok (MkVrfProof [], Hash32_zero)).

Definition dag_of (vs : list Vertex) : gmap Hash32 CertifiedVertex :=
  list_to_map ((λ v, (v_hash v, MkCertifiedVertex v
    (MkBlsAggSig (MkBlsSig []) []))) <$> vs).

Definition h_of (n : Z) : Hash32 := MkHash32 (n :: replicate 31 0).
Definition vx (r : Z) (a : nat) (ps : list Z) (h : Z) : Vertex :=
  MkVertex r (toy_id a) (h_of <$> ps) [] (h_of h).

(** The walk on a finite store stays within the store and its parent links. *)
Lemma host_of_closed m set beacon U :
  map_Forall (λ _ cv, Forall (λ p, p ∈ U) (v_parents (cv_vertex cv))) m →
  closed_dag (host_of m set beacon) U.
Proof.
  intros Hm. split; [by eexists|]. intros h p _ (cv & [= Hcv] & Hp).
  specialize (Hm h cv Hcv). rewrite Forall_forall in Hm. by apply Hm.
Qed.

(** Two rounds above a genesis: [9] names [2] and [1], which name [4] and [5]. *)
Definition toy_dag : gmap Hash32 CertifiedVertex :=
  dag_of [vx 0 0 [] 4; vx 0 1 [] 5; vx 1 0 [5] 1; vx 1 1 [4] 2; vx 2 0 [2; 1] 9].
Definition toy_dag_U : gset Hash32 := list_to_set (h_of <$> [1; 2; 4; 5; 9]).
Definition toy_dag_host : HostContext := host_of toy_dag (toy_set 4) Hash32_zero.

Lemma toy_dag_closed : closed_dag toy_dag_host toy_dag_U.
Proof. apply host_of_closed. vdecide. Qed.

Definition toy_lin : Linearization := MkLinearization (h_of <$> [9; 1; 2; 5; 4]).

(** Parents are sorted within each vertex, not within each layer: the second
    layer of [9]'s closure comes out as [5], [4]. *)
Example closure_layer_order :
  closure_of_anchor 7 (h_of 9) toy_dag_host = Ok toy_lin ∧
  kcmp (h_of 5) (h_of 4) = Gt.
Proof. by vm_compute. Qed.

(** ** Properties *)

(** [C19] The linearization of an anchor is duplicate-free, begins with the
    anchor, and contains exactly the hashes the anchor's parent links lead
    to: its causal past, nothing missing and nothing else. *)
Theorem closure_of_anchor_spec fuel anchor ctx lin :
  closure_of_anchor fuel anchor ctx = Ok lin →
  NoDup (lin_order lin) ∧ head (lin_order lin) = Some anchor ∧
  ∀ h, h ∈ lin_order lin ↔ rtc (edge ctx) anchor h.
Proof.
  unfold closure_of_anchor.
  intros (order & Hl & [= <-])%outcome_bind_Ok.
  apply (closure_loop_inv ctx anchor) in Hl as [visited Hi]; [|apply closure_inv_init].
  by apply (closure_inv_done ctx anchor visited).
Qed.

(** [C20] The linearization terminates: on a DAG whose walk from the anchor
    stays within a finite set [U] of hashes the host can look up, [|U| + 2]
    iterations are enough. *)
Theorem closure_of_anchor_total fuel anchor ctx U :
  closed_dag ctx U → anchor ∈ U → (size U + 1 < fuel)%nat →
  ∃ lin, closure_of_anchor fuel anchor ctx = Ok lin.
Proof.
  intros HU Ha Hf. unfold closure_of_anchor.
  destruct (closure_loop_total ctx U fuel {[anchor]} [] [anchor]) as [order Ho].
  - done.
  - by intros x ->%list_elem_of_singleton.
  - cbn [length]. assert (size (U ∖ {[anchor]}) ≤ size U)%nat by
      (apply subseteq_size; set_solver). lia.
  - rewrite Ho. cbn. eauto.
Qed.

(** [C21] The support test of the commit rule is reachability: it answers [true]
    exactly when the vertex is the anchor or one of its parents leads to it. *)
Theorem vertex_reaches_spec fuel start target ctx U :
  closed_dag ctx U → (∀ p, p ∈ v_parents (cv_vertex start) → p ∈ U) →
  (length (v_parents (cv_vertex start)) + size U < fuel)%nat →
  ∃ b, vertex_reaches fuel start target ctx = Ok b ∧
       (b = true ↔ supports ctx start target).
Proof.
  intros HU Hp Hf.
  assert (∃ b, vertex_reaches fuel start target ctx = Ok b) as [b Hb].
  { unfold vertex_reaches. case_bool_decide; [eauto|].
    eapply reaches_loop_total; [done..|].
    assert (size (U ∖ list_to_set (v_parents (cv_vertex start))) ≤ size U)%nat
      by (apply subseteq_size; set_solver). lia. }
  exists b. split; [done|]. by apply (vertex_reaches_Ok fuel).
Qed.

Lemma closure_of_anchor_spec_witness :
  NoDup (lin_order toy_lin) ∧ head (lin_order toy_lin) = Some (h_of 9) ∧
  ∀ h, h ∈ lin_order toy_lin ↔ rtc (edge toy_dag_host) (h_of 9) h.
Proof. apply (closure_of_anchor_spec 7). by vm_compute. Defined.

Lemma closure_of_anchor_total_witness :
  ∃ lin, closure_of_anchor 7 (h_of 9) toy_dag_host = Ok lin.
Proof.
  apply (closure_of_anchor_total 7 _ _ toy_dag_U toy_dag_closed).
  - vdecide.
  - vm_compute. lia.
Defined.

Lemma vertex_reaches_spec_witness :
  ∃ b, vertex_reaches 8 (MkCertifiedVertex (vx 2 0 [2; 1] 9) (MkBlsAggSig (MkBlsSig []) []))
         (h_of 4) toy_dag_host = Ok b ∧
       (b = true ↔ supports toy_dag_host
          (MkCertifiedVertex (vx 2 0 [2; 1] 9) (MkBlsAggSig (MkBlsSig []) [])) (h_of 4)).
Proof.
  apply (vertex_reaches_spec 8 _ _ _ toy_dag_U toy_dag_closed).
  - apply Forall_forall. vdecide.
  - vm_compute. lia.
Defined.
