(* ===== verification/Bullshark.v ===== *)
(** [consensus::bullshark]: waves, anchors, the commit rule, micro
    certificates, and the handlers of the micro-ordering layer.

    [EmittedSet] and [WaveBook], the two structures the handlers borrow
    mutably, are the two fields of [MicroState].  [fuel] bounds the DAG walks
    of [Linearize]. *)

From S2P Require Import Prelude Bytes Types Crypto Toy Config Leader Dag Linearize.
Open Scope Z_scope.

(** ** [bullshark/wave.rs] *)

Abbreviation WaveId := Z (only parsing).
Definition first_round (wave : WaveId) : Round := wave * 4.
Definition last_round (wave : WaveId) : Round := wave * 4 + 3.
Definition of_round (round : Round) : WaveId := round / 4.

(** ** Data *)

Record AnchorChoice := MkAnchorChoice {
  ac_wave : WaveId;
  ac_author : ValidatorId;
  ac_anchor_hash : Hash32;
}.

Inductive CommitPath := Shortcut | SlowPath.
#[global] Instance CommitPath_eq_dec : EqDecision CommitPath.
Proof. solve_decision. Defined.

Record CommitDecision := MkCommitDecision {
  cd_wave : WaveId;
  cd_path : CommitPath;
  cd_anchor_hash : Hash32;
}.

Record EmittedSet := MkEmittedSet { es_inner : gset Hash32 }.
#[global] Instance EmittedSet_eta : Settable EmittedSet := λ e, MkEmittedSet (es_inner e).

Record WaveBook := MkWaveBook {
  committed_waves : gset Z;
  slow_timer_by_wave : gmap Z TimerId;
  timer_to_wave : gmap Z WaveId;
  wb_timers : TimerScheduler;
}.
#[global] Instance WaveBook_eta : Settable WaveBook := λ w,
  MkWaveBook (committed_waves w) (slow_timer_by_wave w) (timer_to_wave w) (wb_timers w).
Definition WaveBook_new : WaveBook := MkWaveBook ∅ ∅ ∅ TimerScheduler_default.

Record MicroState := MkMicroState { emitted : EmittedSet; waves : WaveBook }.
#[global] Instance MicroState_eta : Settable MicroState := λ s,
  MkMicroState (emitted s) (waves s).
Definition MicroState_new : MicroState := MkMicroState (MkEmittedSet ∅) WaveBook_new.

Section bullshark.
Context `{Build, Primitives, !Borsh (list Hash32)} (fuel : nat).

(** ** [bullshark/anchor.rs] *)

Definition sortition_beta (beacon : Hash32) (wave : WaveId) (validator : ValidatorId) : Hash32 :=
  blake3_with_dst dst.BEACON (h32_bytes beacon ++ be_bytes 8 wave ++ vid_bytes validator).

(** The score of one entry, and the [match] that keeps the better of two. *)
Definition anchor_score (beacon : Hash32) (wave : WaveId) (set : ValidatorSet)
    (entry : ValidatorEntry) : f64 :=
  vrf_sortition_score (sortition_beta beacon wave (ve_id entry)) (vs_total_stake set)
    (ve_stake entry) f64_one.

Definition keep_best (best : option (ValidatorId * f64)) (cand : ValidatorId * f64)
  : option (ValidatorId * f64) :=
  match best with
  | None => Some cand
  | Some prev =>
      match default Eq (f64_partial_cmp cand.2 prev.2) with
      | Lt => Some cand
      | Eq => if bool_decide (klt cand.1 prev.1) then Some cand else Some prev
      | Gt => Some prev
      end
  end.

Definition select_anchor (wave : WaveId) (set : ValidatorSet) (ctx : HostContext)
  : result AnchorChoice :=
  if bool_decide (vs_entries set = [])
  then Err (InvalidConfig "anchor selection on empty validator set")
  else
    beacon_val ← beacon_current ctx;
    let scored := (λ e, (ve_id e, anchor_score beacon_val wave set e)) <$> vs_entries set in
    match foldl keep_best None scored with
    | None => Panic
    | Some (author, _) => Ok (MkAnchorChoice wave author Hash32_zero)
    end.

(** ** [bullshark/commit.rs] *)

(** The two loops of [count_supporters]: the vertices of one round, and the
    rounds of the window. *)
Fixpoint round_supporters (anchor_hash : Hash32) (ctx : HostContext)
    (vs : list CertifiedVertex) (supporters : gset ValidatorId) : result (gset ValidatorId) :=
  match vs with
  | [] => Ok supporters
  | v :: vs =>
      b ← vertex_reaches fuel v anchor_hash ctx;
      round_supporters anchor_hash ctx vs
        (if b : bool then {[v_author (cv_vertex v)]} ∪ supporters else supporters)
  end.

Fixpoint window_supporters (anchor_hash : Hash32) (anchor_round : Round) (ctx : HostContext)
    (offsets : list Z) (supporters : gset ValidatorId) : result (gset ValidatorId) :=
  match offsets with
  | [] => Ok supporters
  | offset :: offsets =>
      round ← add_w 64 anchor_round offset;
      vs ← dag_vertices_at_round ctx round;
      supporters ← round_supporters anchor_hash ctx vs supporters;
      window_supporters anchor_hash anchor_round ctx offsets supporters
  end.

Definition count_supporters (anchor_hash : Hash32) (anchor_round : Round) (window_rounds : Z)
    (ctx : HostContext) : result (gset ValidatorId) :=
  window_supporters anchor_hash anchor_round ctx (seqZ 1 window_rounds) ∅.

Definition find_anchor (choice : AnchorChoice) (vs : list CertifiedVertex)
  : option CertifiedVertex :=
  snd <$> list_find (λ v, v_author (cv_vertex v) = ac_author choice) vs.

Definition try_commit_wave (wave : WaveId) (cfg : Config) (set : ValidatorSet)
    (ctx : HostContext) (timed_out : bool) : result (option CommitDecision) :=
  if bool_decide (vs_entries set = []) then Ok None
  else
    anchor_choice ← select_anchor wave set ctx;
    let anchor_round := first_round wave in
    vs ← dag_vertices_at_round ctx anchor_round;
    match find_anchor anchor_choice vs with
    | None => Ok None
    | Some anchor_vertex =>
        let anchor_hash := v_hash (cv_vertex anchor_vertex) in
        let n := length (vs_entries set) in
        let need := 2 * (saturating_sub n 1 / 3) + 1 in
        shortcut ← count_supporters anchor_hash anchor_round
                     (shortcut_round_count (bullshark cfg)) ctx;
        if need <=? size shortcut then Ok (Some (MkCommitDecision wave Shortcut anchor_hash))
        else if timed_out then
          slow ← count_supporters anchor_hash anchor_round
                   (slow_path_round_count (bullshark cfg)) ctx;
          if need <=? size slow then Ok (Some (MkCommitDecision wave SlowPath anchor_hash))
          else Ok None
        else Ok None
    end.

(** ** [bullshark/micro_qc.rs] *)

Definition micro_try_finalize (checkpoint_hash : Hash32) (linearized : list CertifiedVertex)
    (ctx : HostContext) : result (option MicroQc) :=
  set ← active_set ctx;
  let n := length (vs_entries set) in
  if bool_decide (n = 0%nat) then Ok None
  else
    let authors : gset ValidatorId :=
      list_to_set ((λ cv, v_author (cv_vertex cv)) <$> linearized) in
    let need := 2 * ((n - 1) / 3) + 1 in
    if size authors <? need then Ok None
    else
      let bitmap := bitmap_of ((λ e, bool_decide (ve_id e ∈ authors)) <$> vs_entries set) in
      Ok (Some (MkMicroQc checkpoint_hash
                  (MkBlsAggSig (MkBlsSig (replicate 96 0xAB)) bitmap))).

(** ** [bullshark/mod.rs] *)

Definition slow_path_delay_nanos (cfg : Config) : Z :=
  shortcut_round_count (bullshark cfg) * round_duration_ms (timing cfg) * 1000000.

Definition anchor_present (wave : WaveId) (cfg : Config) (set : ValidatorSet)
    (ctx : HostContext) : result bool :=
  choice ← select_anchor wave set ctx;
  vs ← dag_vertices_at_round ctx (first_round wave);
  Ok (existsb (λ v, bool_decide (v_author (cv_vertex v) = ac_author choice)) vs).

(** [for h in &lin.order { if let Some(cv) = ctx.dag.vertex(h)? { linearized.push(cv) } }] *)
Fixpoint hydrate (ctx : HostContext) (order : list Hash32) : result (list CertifiedVertex) :=
  match order with
  | [] => Ok []
  | h :: order =>
      o ← dag_vertex ctx h;
      rest ← hydrate ctx order;
      Ok (match o with Some cv => cv :: rest | None => rest end)
  end.

(** The three parts of [try_emit_for_wave]: arming the slow-path timer of an
    undecided wave, recording a commit, and emitting its certificate. *)
Definition arm_slow_timer (wave : WaveId) (cfg : Config) : M Error MicroState Actions :=
  id ← zoom waves (zoom wb_timers allocate);
  _ ← modify (λ s, s <| waves ::= λ w,
        w <| slow_timer_by_wave ::= <[wave := id]> |>
          <| timer_to_wave ::= <[timer_u64 id := wave]> |> |>);
  mret [ScheduleTimer id (slow_path_delay_nanos cfg)].

Definition record_commit (wave : WaveId) : M Error MicroState Actions :=
  _ ← modify (λ s, s <| waves ::= λ w, w <| committed_waves ::= union {[wave]} |> |>);
  slow ← gets (λ s, slow_timer_by_wave (waves s));
  match slow !! wave with
  | None => mret []
  | Some timer_id =>
      _ ← modify (λ s, s <| waves ::= λ w,
            w <| slow_timer_by_wave ::= delete wave |>
              <| timer_to_wave ::= delete (timer_u64 timer_id) |> |>);
      mret [CancelTimer timer_id]
  end.

Definition emit_micro_qc (decision : CommitDecision) (ctx : HostContext) (actions : Actions)
  : M Error MicroState Actions :=
  lin ← lift (closure_of_anchor fuel (cd_anchor_hash decision) ctx);
  let checkpoint := checkpoint_hash_from_linearization lin in
  em ← gets (λ s, es_inner (emitted s));
  if bool_decide (checkpoint ∈ em) then mret actions
  else
    linearized ← lift (hydrate ctx (lin_order lin));
    o ← lift (micro_try_finalize checkpoint linearized ctx);
    match o with
    | None => mret actions
    | Some qc =>
        _ ← modify (λ s, s <| emitted ::= λ e, e <| es_inner ::= union {[checkpoint]} |> |>);
        mret (actions ++ [BroadcastMicroQc qc])
    end.

Definition try_emit_for_wave (wave : WaveId) (cfg : Config) (ctx : HostContext)
    (timed_out : bool) : M Error MicroState Actions :=
  committed ← gets (λ s, committed_waves (waves s));
  if bool_decide (wave ∈ committed) then mret []
  else
    o ← lift (valset_set_for ctx 0);
    match o with
    | None => mret []
    | Some set =>
        d ← lift (try_commit_wave wave cfg set ctx timed_out);
        match d with
        | None =>
            slow ← gets (λ s, slow_timer_by_wave (waves s));
            if negb timed_out && bool_decide (slow !! wave = None) then
              present ← lift (anchor_present wave cfg set ctx);
              if present : bool then arm_slow_timer wave cfg else mret []
            else mret []
        | Some decision =>
            actions ← record_commit wave;
            emit_micro_qc decision ctx actions
        end
    end.

(** The loop of [on_certified_vertex] over the waves. *)
Fixpoint scan_waves (ws : list Z) (cfg : Config) (ctx : HostContext) (actions : Actions)
  : M Error MicroState Actions :=
  match ws with
  | [] => mret actions
  | w :: ws =>
      committed ← gets (λ s, committed_waves (waves s));
      if bool_decide (w ∈ committed) then scan_waves ws cfg ctx actions
      else
        acts ← try_emit_for_wave w cfg ctx false;
        scan_waves ws cfg ctx (actions ++ acts)
  end.

Definition on_certified_vertex (cfg : Config) (cv : CertifiedVertex) (ctx : HostContext)
  : M Error MicroState Actions :=
  let current := of_round (v_round (cv_vertex cv)) in
  scan_waves (seqZ 0 (current + 1)) cfg ctx [].

Definition on_micro_qc_assembled (qc : MicroQc) : M Error MicroState Actions := mret [].

Definition on_timer_fired (cfg : Config) (id : TimerId) (ctx : HostContext)
  : M Error MicroState Actions :=
  t2w ← gets (λ s, timer_to_wave (waves s));
  match t2w !! timer_u64 id with
  | None => mret []
  | Some wave =>
      _ ← modify (λ s, s <| waves ::= λ w,
            w <| timer_to_wave ::= delete (timer_u64 id) |>
              <| slow_timer_by_wave ::= delete wave |> |>);
      try_emit_for_wave wave cfg ctx true
  end.
End bullshark.

(** ** The commit rule *)

(** [a] authored a vertex of a round in [(lo, lo + window]] that leads to the
    anchor. *)
Definition supporter (ctx : HostContext) (anchor_hash : Hash32) (lo window : Z)
    (a : ValidatorId) : Prop :=
  ∃ r vs v, lo < r ≤ lo + window ∧ dag_vertices_at_round ctx r = Ok vs ∧ v ∈ vs ∧
    v_author (cv_vertex v) = a ∧ supports ctx v anchor_hash.

Section commit_lemmas.
Context `{Build} (fuel : nat).

Lemma round_supporters_Ok h ctx vs sup sup' :
  round_supporters fuel h ctx vs sup = Ok sup' →
  ∀ a, a ∈ sup' ↔
    a ∈ sup ∨ ∃ v, v ∈ vs ∧ v_author (cv_vertex v) = a ∧ supports ctx v h.
Proof.
  revert sup. induction vs as [|v vs IH]; intros sup; cbn [round_supporters].
  { intros [= <-] a. setoid_rewrite elem_of_nil. naive_solver. }
  intros (b & Hb%vertex_reaches_Ok & Hrest)%outcome_bind_Ok a.
  rewrite (IH _ Hrest a). setoid_rewrite elem_of_cons.
  assert (Hs : a ∈ (if b then {[v_author (cv_vertex v)]} ∪ sup else sup) ↔
               a ∈ sup ∨ v_author (cv_vertex v) = a ∧ supports ctx v h).
  { rewrite <- Hb. destruct b; rewrite ?elem_of_union, ?elem_of_singleton;
      intuition congruence. }
  rewrite Hs. split.
  - intros [[?|?]|(w&?&?)]; [by left|right; by exists v; auto|right; exists w; auto].
  - intros [?|(w&[->|?]&?)]; [auto|left; by right|right; by exists w].
Qed.

Lemma window_supporters_Ok h lo ctx offsets sup sup' :
  window_supporters fuel h lo ctx offsets sup = Ok sup' →
  (∀ o, o ∈ offsets → u64_ok (lo + o)) →
  ∀ a, a ∈ sup' ↔
    a ∈ sup ∨ ∃ o vs v, o ∈ offsets ∧ dag_vertices_at_round ctx (lo + o) = Ok vs ∧
      v ∈ vs ∧ v_author (cv_vertex v) = a ∧ supports ctx v h.
Proof.
  revert sup. induction offsets as [|o offsets IH]; intros sup; cbn [window_supporters].
  { intros [= <-] _ a. setoid_rewrite elem_of_nil. naive_solver. }
  intros Hw Hok a. rewrite add_w_ok in Hw by (apply Hok; by left).
  apply outcome_bind_Ok in Hw as (r & [= <-] & Hw).
  apply outcome_bind_Ok in Hw as (vs & Hvs & Hw).
  apply outcome_bind_Ok in Hw as (sup1 & Hr & Hw).
  rewrite (IH _ Hw) by (intros; apply Hok; by right).
  rewrite (round_supporters_Ok _ _ _ _ _ Hr a). setoid_rewrite elem_of_cons. split.
  - intros [[?|(v&?&?&?)]|(o'&vs'&v&?&?)]; [by left|right..].
    + exists o, vs, v. split_and!; auto.
    + exists o', vs', v. naive_solver.
  - intros [?|(o'&vs'&v&[->|?]&Hvs'&?)]; [naive_solver| |right; naive_solver].
    left; right. exists v. rewrite Hvs in Hvs'. injection Hvs' as <-. done.
Qed.

Lemma count_supporters_Ok h lo window ctx sup :
  count_supporters fuel h lo window ctx = Ok sup →
  0 ≤ lo → lo + window < 2 ^ 64 →
  ∀ a, a ∈ sup ↔ supporter ctx h lo window a.
Proof.
  intros Hs Hlo Hhi a. apply window_supporters_Ok with (a := a) in Hs.
  - rewrite Hs. unfold supporter. setoid_rewrite elem_of_seqZ. split.
    + intros [?%elem_of_empty|(o&vs&v&?&?)]; [done|]. exists (lo + o), vs, v.
      split; [lia|done].
    + intros (r&vs&v&?&?). right. exists (r - lo), vs, v.
      replace (lo + (r - lo)) with r by lia. split; [lia|done].
  - intros o Ho%elem_of_seqZ. unfold uint_ok. lia.
Qed.
End commit_lemmas.

Lemma quorum_threshold_nat n :
  2 * (saturating_sub (Z.of_nat n) 1 / 3) + 1 = quorum_threshold n.
Proof. done. Qed.

(** ** Anchor selection *)

(** The order the fold minimises: lower score, then lower id. *)
Definition cand_le (c d : ValidatorId * f64) : Prop :=
  SFcompare c.2 d.2 = Some Lt ∨ (SFcompare c.2 d.2 = Some Eq ∧ kle c.1 d.1).

Section anchor_lemmas.
Lemma cand_le_key c d p q :
  f64_key c.2 = Some p → f64_key d.2 = Some q →
  cand_le c d ↔ key_cmp p q = Lt ∨ (key_cmp p q = Eq ∧ kle c.1 d.1).
Proof. intros Hp Hq. unfold cand_le. rewrite SFcompare_key, Hp, Hq. intuition congruence. Qed.

Lemma cand_le_refl c : not_nan c.2 → cand_le c c.
Proof.
  intros [p Hp]%f64_key_Some. rewrite cand_le_key by done. right.
  by rewrite key_cmp_refl.
Qed.

Lemma cand_le_trans c d e :
  not_nan c.2 → not_nan d.2 → not_nan e.2 → cand_le c d → cand_le d e → cand_le c e.
Proof.
  intros [p Hp]%f64_key_Some [q Hq]%f64_key_Some [r Hr]%f64_key_Some.
  rewrite (cand_le_key c d p q), (cand_le_key d e q r), (cand_le_key c e p r) by done.
  destruct (key_cmp_spec p q), (key_cmp_spec q r), (key_cmp_spec p r);
    intros [?|[??]] [?|[??]]; try done; subst; auto; try lia.
  right. split; [done|]. by transitivity (d.1).
Qed.

(** Minimal candidates share their id. *)
Lemma cand_le_antisym c d :
  not_nan c.2 → not_nan d.2 → cand_le c d → cand_le d c → c.1 = d.1.
Proof.
  intros [p Hp]%f64_key_Some [q Hq]%f64_key_Some.
  rewrite (cand_le_key c d p q), (cand_le_key d c q p) by done.
  rewrite (key_cmp_antisym p q).
  destruct (key_cmp p q); cbn; intros [?|[??]] [?|[??]]; try done.
  by apply (anti_symm kle).
Qed.

Lemma keep_best_spec best cand :
  not_nan cand.2 → (∀ b, best = Some b → not_nan b.2) →
  ∃ b, keep_best best cand = Some b ∧ (b = cand ∨ best = Some b) ∧
    cand_le b cand ∧ (∀ b', best = Some b' → cand_le b b').
Proof.
  intros Hc Hb. unfold keep_best. destruct best as [prev|].
  2: { exists cand. split_and!; auto using cand_le_refl. done. }
  specialize (Hb prev eq_refl). apply f64_key_Some in Hc as [p Hp].
  apply f64_key_Some in Hb as [q Hq]. unfold f64_partial_cmp.
  rewrite SFcompare_key, Hp, Hq. cbn.
  assert (Hrefl : ∀ c p, f64_key c.2 = Some p → cand_le c c)
    by (intros c p' Hp'; apply cand_le_refl, f64_key_Some; eauto).
  destruct (key_cmp p q) eqn:Hpq; [case_bool_decide as Hlt|..].
  - exists cand. split_and!; [auto..|by eapply Hrefl|]. intros ? [= <-].
    rewrite cand_le_key by done. right. split; [done|]. apply kle_lt_eq. by left.
  - exists prev. split_and!; [auto..| |intros ? [= <-]; by eapply Hrefl].
    rewrite cand_le_key by done. right. rewrite key_cmp_antisym, Hpq. split; [done|].
    destruct (total kle (prev.1) (cand.1)) as [?|[?|Heq]%kle_lt_eq]; [done..|by rewrite Heq].
  - exists cand. split_and!; [auto..|by eapply Hrefl|]. intros ? [= <-].
    rewrite cand_le_key by done. by left.
  - exists prev. split_and!; [auto..| |intros ? [= <-]; by eapply Hrefl].
    rewrite cand_le_key by done. left. by rewrite key_cmp_antisym, Hpq.
Qed.

Lemma foldl_keep_best best l :
  (∀ c, c ∈ l → not_nan c.2) → (∀ b, best = Some b → not_nan b.2) →
  ∀ r, foldl keep_best best l = Some r →
  not_nan r.2 ∧ (r ∈ l ∨ best = Some r) ∧
  (∀ c, c ∈ l ∨ best = Some c → cand_le r c).
Proof.
  revert best. induction l as [|c l IH]; intros best Hl Hb r; cbn [foldl].
  { intros ->. split; [by apply Hb|]. split; [by right|].
    intros c [?%elem_of_nil|[= <-]]; [done|]. apply cand_le_refl. by apply Hb. }
  destruct (keep_best_spec best c) as (b & Hkb & Hin & Hbc & Hbb);
    [apply Hl; by left|done|]. rewrite Hkb.
  assert (Hnb : not_nan b.2).
  { destruct Hin as [->|Hin]; [apply Hl; by left|by apply Hb]. }
  intros Hf. apply IH in Hf as (Hn & Hr & Hmin).
  2: { intros; apply Hl; by right. }
  2: { by intros ? [= <-]. }
  assert (Hrb : cand_le r b) by (apply Hmin; by right).
  split_and!; [done| |].
  - destruct Hr as [?|[= <-]]; [left; by right|].
    destruct Hin as [->|?]; [left; by left|by right].
  - intros c' [[->|Hc']%elem_of_cons|Hc'].
    + apply (cand_le_trans r b c); auto. apply Hl; by left.
    + apply Hmin; by left.
    + apply (cand_le_trans r b c'); auto.
Qed.

Lemma foldl_keep_best_Some best l :
  l ≠ [] ∨ is_Some best → is_Some (foldl keep_best best l).
Proof.
  revert best. induction l as [|c l IH]; intros best; cbn [foldl]; [naive_solver|].
  intros _. apply IH. right. unfold keep_best. destruct best; [|done].
  destruct (default _ _); [case_bool_decide|..]; done.
Qed.
End anchor_lemmas.

Definition anchor_cands `{Primitives} (beacon : Hash32) (wave : WaveId) (set : ValidatorSet)
  : list (ValidatorId * f64) :=
  (λ e, (ve_id e, anchor_score beacon wave set e)) <$> vs_entries set.

(** No entry's score is NaN, so that [partial_cmp] orders them. *)
Definition scores_ordered `{Primitives} (beacon : Hash32) (wave : WaveId) (set : ValidatorSet)
  : Prop := Forall (λ c, not_nan c.2) (anchor_cands beacon wave set).

Lemma select_anchor_Ok `{Primitives} wave set ctx choice :
  select_anchor wave set ctx = Ok choice →
  ∃ beacon r, beacon_current ctx = Ok beacon ∧
    foldl keep_best None (anchor_cands beacon wave set) = Some r ∧
    choice = MkAnchorChoice wave r.1 Hash32_zero.
Proof.
  unfold select_anchor. case_bool_decide; [done|].
  intros (beacon & Hb & Hf)%outcome_bind_Ok. cbv zeta in Hf.
  exists beacon. unfold anchor_cands.
  destruct (foldl keep_best None _) as [[author score]|]; [|done].
  injection Hf as <-. eauto.
Qed.

(** The winner is a minimal candidate. *)
Lemma select_anchor_min `{Primitives} wave set ctx choice beacon :
  select_anchor wave set ctx = Ok choice → beacon_current ctx = Ok beacon →
  scores_ordered beacon wave set →
  ∃ r, r ∈ anchor_cands beacon wave set ∧ ac_author choice = r.1 ∧ not_nan r.2 ∧
    ∀ c, c ∈ anchor_cands beacon wave set → cand_le r c.
Proof.
  intros (b & r & Hb & Hf & ->)%select_anchor_Ok Hb' Hs.
  rewrite Hb in Hb'. injection Hb' as ->.
  unfold scores_ordered in Hs. rewrite Forall_forall in Hs.
  destruct (foldl_keep_best None _ Hs) with (r := r) as (Hn & [Hr|?] & Hmin); try done.
  exists r. split_and!; auto.
Qed.

(** ** The timer maps of [WaveBook]

    [slow_timer_by_wave] and [timer_to_wave] are inverse to each other, every
    armed id was allocated, and a committed wave has no timer.  [k] more ids
    can be allocated before the [u64] counter is exhausted. *)

Record waves_wf (k : nat) (w : WaveBook) : Prop := {
  wf_inverse wave id : slow_timer_by_wave w !! wave = Some id ↔
                       timer_to_wave w !! timer_u64 id = Some wave;
  wf_allocated t wave : timer_to_wave w !! t = Some wave → t < ts_next (wb_timers w);
  wf_next : 0 ≤ ts_next (wb_timers w) ∧ ts_next (wb_timers w) + k < 2 ^ 64;
  wf_committed wave : wave ∈ committed_waves w → slow_timer_by_wave w !! wave = None;
}.

Lemma waves_wf_mono k k' w : (k' ≤ k)%nat → waves_wf k w → waves_wf k' w.
Proof. intros Hk [Hi Ha Hn Hc]. split; [done..| |done]. lia. Qed.

Lemma waves_wf_new : waves_wf (Z.to_nat (2 ^ 64 - 1)) WaveBook_new.
Proof.
  split; cbn.
  - intros wave id. rewrite !lookup_empty. done.
  - intros t wave. by rewrite lookup_empty.
  - rewrite Z2Nat.id; lia.
  - done.
Qed.

Lemma timer_id_eta id : MkTimerId (timer_u64 id) = id.
Proof. by destruct id. Qed.

(** Arming a fresh timer for a wave that has none. *)
Lemma waves_wf_arm k w wave :
  waves_wf (S k) w → wave ∉ committed_waves w → slow_timer_by_wave w !! wave = None →
  waves_wf k (MkWaveBook (committed_waves w)
    (<[wave := MkTimerId (ts_next (wb_timers w))]> (slow_timer_by_wave w))
    (<[ts_next (wb_timers w) := wave]> (timer_to_wave w))
    (MkTimerScheduler (ts_next (wb_timers w) + 1))).
Proof.
  intros [Hi Ha Hn Hc] Hwave Hslow. split; cbn.
  - intros wave' [t]. cbn. rewrite !lookup_insert_Some. specialize (Hi wave' (MkTimerId t)).
    cbn in Hi. split.
    + intros [[-> [= <-]]|[Hne Hs]]; [by left|right]. apply Hi in Hs. split; [|done].
      intros Ht. apply Ha in Hs. lia.
    + intros [[<- <-]|[Hne Ht]]; [by left|right]. apply Hi in Ht. split; [|done].
      intros ->. congruence.
  - intros t wave' [[<- <-]|[_ ?%Ha]]%lookup_insert_Some; lia.
  - lia.
  - intros wave' Hin. rewrite lookup_insert_ne; [by apply Hc|]. by intros ->.
Qed.

(** Dropping the timer of a wave from both maps. *)
Lemma waves_wf_drop k w wave id C :
  waves_wf k w → slow_timer_by_wave w !! wave = Some id →
  (∀ x, x ∈ C → x = wave ∨ x ∈ committed_waves w) →
  waves_wf k (MkWaveBook C (delete wave (slow_timer_by_wave w))
    (delete (timer_u64 id) (timer_to_wave w)) (wb_timers w)).
Proof.
  intros [Hi Ha Hn Hc] Hslow HC. split; cbn.
  - intros wave' id'. rewrite !lookup_delete_Some, Hi.
    apply Hi in Hslow as Ht. split; intros [Hne Ht']; (split; [|done]).
    + intros Heq. rewrite Heq in Ht. congruence.
    + intros <-. apply Hi in Ht'. congruence.
  - intros t wave' [_ ?%Ha]%lookup_delete_Some. done.
  - done.
  - intros wave' [->|Hin]%HC; [by rewrite lookup_delete_eq|].
    rewrite lookup_delete_None. right. by apply Hc.
Qed.

Lemma waves_wf_commit k w wave :
  waves_wf k w → slow_timer_by_wave w !! wave = None →
  waves_wf k (MkWaveBook ({[wave]} ∪ committed_waves w) (slow_timer_by_wave w)
    (timer_to_wave w) (wb_timers w)).
Proof.
  intros [Hi Ha Hn Hc] Hslow. split; cbn; [done..|].
  intros wave' [->%elem_of_singleton|?]%elem_of_union; auto.
Qed.

(** ** What a call adds to the emitted set and to the actions *)

Definition qcs_of (acts : Actions) : list Hash32 :=
  omap (λ a, match a with BroadcastMicroQc qc => Some (mqc_checkpoint_hash qc) | _ => None end)
    acts.

Lemma qcs_of_app a b : qcs_of (a ++ b) = qcs_of a ++ qcs_of b.
Proof. apply omap_app. Qed.

(** The certificates broadcast by a call are new, pairwise distinct, and
    recorded; nothing is ever removed from the emitted set. *)
Definition emits (s s' : MicroState) (acts : Actions) : Prop :=
  es_inner (emitted s) ⊆ es_inner (emitted s') ∧ speaks L2 acts = true ∧
  NoDup (qcs_of acts) ∧
  ∀ h, h ∈ qcs_of acts → h ∉ es_inner (emitted s) ∧ h ∈ es_inner (emitted s').

Definition emits_res (s : MicroState) (r : result Actions) (s' : MicroState) : Prop :=
  match r with Ok acts => emits s s' acts | _ => emits s s' [] end.

Lemma emits_nil s s' acts :
  es_inner (emitted s) ⊆ es_inner (emitted s') → qcs_of acts = [] → speaks L2 acts = true →
  emits s s' acts.
Proof. intros Hs Ha Hl. unfold emits. rewrite Ha. split_and!; [done..|by apply NoDup_nil|].
  intros h []%elem_of_nil. Qed.

Lemma emits_trans s1 s2 s3 a b : emits s1 s2 a → emits s2 s3 b → emits s1 s3 (a ++ b).
Proof.
  intros (Hs12 & La & Ha & Ha') (Hs23 & Lb & Hb & Hb'). unfold emits. rewrite qcs_of_app.
  split_and!; [by transitivity (es_inner (emitted s2))|by apply speaks_app| |].
  - apply NoDup_app. split_and!; [done| |done]. intros h ?%Ha' ?%Hb'. naive_solver.
  - intros h [Hh%Ha'|Hh%Hb']%elem_of_app; set_solver.
Qed.

Section handlers.
Context `{Build, Primitives, !Borsh (list Hash32)} (fuel : nat).

(** What a call says, whatever its counters do *)

Lemma emits_arm_slow_timer s wave cfg : wp (arm_slow_timer wave cfg) (emits_res s) s.
Proof.
  unfold arm_slow_timer. do 2 wp_step. unfold zoom.
  destruct (allocate _) as [[id| | |] t]; cbn; [do 3 wp_step|..]; by apply emits_nil.
Qed.

Lemma emits_record_commit s wave :
  wp (record_commit wave) (λ r s', emitted s' = emitted s ∧
    ∃ acts, r = Ok acts ∧ qcs_of acts = [] ∧ speaks L2 acts = true) s.
Proof.
  unfold record_commit. do 4 wp_step.
  destruct (_ !! wave); [do 3 wp_step|wp_step]; eauto.
Qed.

Lemma micro_try_finalize_hash cp lin ctx qc :
  micro_try_finalize cp lin ctx = Ok (Some qc) → mqc_checkpoint_hash qc = cp.
Proof.
  unfold micro_try_finalize. intros (set & _ & Hq)%outcome_bind_Ok. revert Hq.
  case_bool_decide; [done|]. destruct (_ <? _); [done|]. by intros [= <-].
Qed.

Lemma emits_emit_micro_qc s decision ctx acts :
  qcs_of acts = [] → speaks L2 acts = true →
  wp (emit_micro_qc fuel decision ctx acts) (emits_res s) s.
Proof.
  intros Ha Hl. unfold emit_micro_qc.
  assert (Hnil : emits s s []) by by apply emits_nil.
  assert (Hacts : emits s s acts) by by apply emits_nil.
  do 2 wp_step. destruct (closure_of_anchor _ _ _) as [lin| | |]; [|done..].
  cbn. do 2 wp_step. case_bool_decide as Hin; [by wp_step|].
  do 2 wp_step. destruct (hydrate _ _) as [l| | |]; [|done..].
  do 2 wp_step. destruct (micro_try_finalize _ _ _) as [[qc|]| | |] eqn:Hqc;
    try (try wp_step; done).
  do 3 wp_step. apply micro_try_finalize_hash in Hqc. cbn.
  split_and!; cbn; rewrite ?qcs_of_app, ?Ha; cbn; rewrite ?Hqc.
  - set_solver.
  - by apply speaks_app.
  - apply NoDup_singleton.
  - intros h ->%list_elem_of_singleton. set_solver.
Qed.

Lemma emits_try_emit_for_wave s wave cfg ctx timed_out :
  wp (try_emit_for_wave fuel wave cfg ctx timed_out) (emits_res s) s.
Proof.
  unfold try_emit_for_wave. assert (Hnil : emits s s []) by by apply emits_nil.
  do 2 wp_step. case_bool_decide; [by wp_step|].
  do 2 wp_step. destruct (valset_set_for ctx 0) as [[set|]| | |]; try (try wp_step; done).
  do 2 wp_step. destruct (try_commit_wave _ _ _ _ _ _) as [[d|]| | |];
    try (try wp_step; done).
  - wp_step. eapply wp_mono; [|apply emits_record_commit].
    intros r s' (Hem & acts & -> & Hq & Hl).
    eapply wp_mono; [|by apply emits_emit_micro_qc].
    intros r' s'' He'. destruct r'; unfold emits_res, emits in *; by rewrite Hem in He'.
  - do 2 wp_step. destruct (negb timed_out && _); [|by wp_step].
    do 2 wp_step. destruct (anchor_present _ _ _ _) as [[]| | |]; try (try wp_step; done).
    apply emits_arm_slow_timer.
Qed.

Lemma emits_scan_waves s0 s ws cfg ctx acts :
  emits s0 s acts → wp (scan_waves fuel ws cfg ctx acts) (emits_res s0) s.
Proof.
  revert s acts. induction ws as [|w ws IH]; intros s acts He; cbn [scan_waves].
  { by wp_step. }
  do 2 wp_step. case_bool_decide; [by apply IH|].
  wp_step. eapply wp_mono; [|apply emits_try_emit_for_wave].
  intros [acts'| | |] s' He'; [apply IH; by eapply emits_trans|..].
  all: destruct He as (Hs & _), He' as (Hs' & _);
    apply emits_nil; [by transitivity (es_inner (emitted s))|done|done].
Qed.

(** The timer maps, as long as the counter of the timers does not wrap around *)
Definition waves_kept (k : nat) {A} (r : result A) (s' : MicroState) : Prop :=
  waves_wf k (waves s').

Lemma waves_arm_slow_timer k s wave cfg :
  waves_wf (S k) (waves s) → wave ∉ committed_waves (waves s) →
  slow_timer_by_wave (waves s) !! wave = None →
  wp (arm_slow_timer wave cfg) (waves_kept k) s.
Proof.
  intros Hwf Hc Hs. unfold arm_slow_timer. pose proof (wf_next _ _ Hwf) as [Hn0 Hn].
  do 2 wp_step. unfold zoom. rewrite allocate_Ok by lia. cbn.
  do 3 wp_step. exact (waves_wf_arm k (waves s) wave Hwf Hc Hs).
Qed.

Lemma waves_record_commit k s wave :
  waves_wf k (waves s) → wp (record_commit wave) (waves_kept k) s.
Proof.
  intros Hwf. unfold record_commit. do 4 wp_step.
  match goal with |- context [?m !! wave] =>
    change (m !! wave) with (slow_timer_by_wave (waves s) !! wave) end.
  destruct (slow_timer_by_wave (waves s) !! wave) as [id|] eqn:Hslow.
  - do 3 wp_step. apply (waves_wf_drop k (waves s) wave id); [done..|]. set_solver.
  - wp_step. exact (waves_wf_commit k (waves s) wave Hwf Hslow).
Qed.

Lemma waves_emit_micro_qc s decision ctx acts :
  wp (emit_micro_qc fuel decision ctx acts) (λ _ s', waves s' = waves s) s.
Proof.
  unfold emit_micro_qc.
  do 2 wp_step. destruct (closure_of_anchor _ _ _) as [lin| | |]; [|done..].
  cbn. do 2 wp_step. case_bool_decide as Hin; [by wp_step|].
  do 2 wp_step. destruct (hydrate _ _) as [l| | |]; [|done..].
  do 2 wp_step. destruct (micro_try_finalize _ _ _) as [[qc|]| | |]; try done; by repeat wp_step.
Qed.

Lemma waves_try_emit_for_wave k s wave cfg ctx timed_out :
  waves_wf (S k) (waves s) →
  wp (try_emit_for_wave fuel wave cfg ctx timed_out) (waves_kept k) s.
Proof.
  intros Hwf. unfold try_emit_for_wave.
  assert (Hstay : waves_wf k (waves s)) by (eapply waves_wf_mono; [|done]; lia).
  do 2 wp_step. case_bool_decide as Hc; [by wp_step|].
  do 2 wp_step. destruct (valset_set_for ctx 0) as [[set|]| | |]; try (try wp_step; done).
  do 2 wp_step. destruct (try_commit_wave _ _ _ _ _ _) as [[d|]| | |]; try (try wp_step; done).
  - wp_step. eapply wp_mono; [|by apply waves_record_commit].
    intros [acts| | |] s' Hw'; [|done..].
    eapply wp_mono; [|apply waves_emit_micro_qc]. intros r' s'' He.
    unfold waves_kept. by rewrite He.
  - do 2 wp_step. destruct (negb timed_out && _) eqn:Hb; [|by wp_step].
    apply andb_true_iff in Hb as [_ Hslow%bool_decide_eq_true].
    do 2 wp_step. destruct (anchor_present _ _ _ _) as [[]| | |]; try (try wp_step; done).
    by apply waves_arm_slow_timer.
Qed.

Lemma waves_scan_waves k s ws cfg ctx acts :
  waves_wf (length ws + k) (waves s) →
  wp (scan_waves fuel ws cfg ctx acts) (waves_kept k) s.
Proof.
  revert s acts. induction ws as [|w ws IH]; intros s acts Hwf; cbn [scan_waves].
  { by wp_step. }
  cbn [length] in Hwf. do 2 wp_step. case_bool_decide.
  { apply IH. eapply waves_wf_mono; [|done]. lia. }
  wp_step. eapply wp_mono; [|by apply (waves_try_emit_for_wave (length ws + k))].
  intros [acts'| | |] s' Hw'; [by apply IH|..]; (eapply waves_wf_mono; [|done]; lia).
Qed.
End handlers.

(** The inputs of the micro layer: certified vertices and timers. *)
Inductive micro_input := MI_vertex (cv : CertifiedVertex) (ctx : HostContext)
                       | MI_timer (id : TimerId) (ctx : HostContext).

(** How many timers an input can arm. *)
Definition micro_cost (i : micro_input) : nat :=
  match i with
  | MI_vertex cv _ => Z.to_nat (of_round (v_round (cv_vertex cv)) + 1)
  | MI_timer _ _ => 1
  end.

Section micro_runs.
Context `{Build, Primitives, !Borsh (list Hash32)} (fuel : nat) (cfg : Config).

Definition micro_handle (i : micro_input) : M Error MicroState Actions :=
  match i with
  | MI_vertex cv ctx => on_certified_vertex fuel cfg cv ctx
  | MI_timer id ctx => on_timer_fired fuel cfg id ctx
  end.

(** The actions of a run; those of a call that fails are lost. *)
Fixpoint micro_run (ins : list micro_input) (s : MicroState) : Actions * MicroState :=
  match ins with
  | [] => ([], s)
  | i :: ins =>
      let '(r, s') := micro_handle i s in
      let '(acts, s'') := micro_run ins s' in
      (match r with Ok a => a ++ acts | _ => acts end, s'')
  end.

Lemma emits_micro_handle s i : wp (micro_handle i) (emits_res s) s.
Proof.
  destruct i as [cv ctx|id ctx]; cbn [micro_handle].
  - apply emits_scan_waves. by apply emits_nil.
  - unfold on_timer_fired. do 2 wp_step.
    destruct (timer_to_wave (waves s) !! timer_u64 id) as [wave|];
      [|wp_step; by apply emits_nil].
    do 2 wp_step. eapply wp_mono; [|apply emits_try_emit_for_wave]. by intros [].
Qed.

Lemma waves_micro_handle k s i :
  waves_wf (micro_cost i + k) (waves s) → wp (micro_handle i) (waves_kept k) s.
Proof.
  intros Hwf. destruct i as [cv ctx|id ctx]; cbn [micro_handle micro_cost] in *.
  - apply waves_scan_waves. by rewrite length_seqZ.
  - unfold on_timer_fired. do 2 wp_step.
    destruct (timer_to_wave (waves s) !! timer_u64 id) as [wave|] eqn:Ht.
    + do 2 wp_step. apply waves_try_emit_for_wave. cbn.
      apply (waves_wf_drop (S k) (waves s) wave id); [done| |auto].
      by apply (wf_inverse _ _ Hwf).
    + wp_step. eapply waves_wf_mono; [|done]. lia.
Qed.

Lemma micro_run_emits s ins acts s' : micro_run ins s = (acts, s') → emits s s' acts.
Proof.
  revert s acts s'. induction ins as [|i ins IH]; intros s acts s'; cbn [micro_run].
  { intros [= <- <-]. by apply emits_nil. }
  pose proof (emits_micro_handle s i) as He. unfold wp in He.
  destruct (micro_handle i s) as [r s1]. cbn in He.
  destruct (micro_run ins s1) as [acts1 s2] eqn:Hrun. intros [= <- <-].
  apply IH in Hrun. destruct r; [by eapply emits_trans|..];
    by apply (emits_trans s s1 s2 [] acts1).
Qed.

Lemma micro_run_waves k s ins acts s' :
  waves_wf (sum_list (micro_cost <$> ins) + k) (waves s) →
  micro_run ins s = (acts, s') → waves_wf k (waves s').
Proof.
  revert s acts s'. induction ins as [|i ins IH]; intros s acts s' Hwf; cbn [micro_run].
  { by intros [= <- <-]. }
  cbn in Hwf. rewrite <- Nat.add_assoc in Hwf.
  apply waves_micro_handle in Hwf. unfold wp in Hwf.
  destruct (micro_handle i s) as [r s1]. cbn in Hwf.
  destruct (micro_run ins s1) as [acts1 s2] eqn:Hrun. intros [= <- <-].
  by eapply IH.
Qed.
End micro_runs.

(** ** What a scan leaves behind *)

Section progress.
Context `{Build, Primitives, !Borsh (list Hash32)} (fuel : nat).
Context (cfg : Config) (ctx : HostContext) (set : ValidatorSet).

(** The wave is committed, or waits for its timer, or has no anchor yet. *)
Definition wave_handled (s : MicroState) (w : Z) : Prop :=
  w ∈ committed_waves (waves s) ∨
  (try_commit_wave fuel w cfg set ctx false = Ok None ∧
   (is_Some (slow_timer_by_wave (waves s) !! w) ∨ anchor_present w cfg set ctx = Ok false)).

(** A call for wave [w] leaves the other waves alone. *)
Definition wave_frame (w : Z) (s s' : MicroState) : Prop :=
  committed_waves (waves s) ⊆ committed_waves (waves s') ∧
  ∀ w', w' ≠ w → slow_timer_by_wave (waves s') !! w' = slow_timer_by_wave (waves s) !! w'.

Lemma wave_handled_frame w w' s s' :
  w' ≠ w → wave_frame w s s' → wave_handled s w' → wave_handled s' w'.
Proof.
  intros Hne [Hc Hs] [?|(Ht & Ha)]; [left; set_solver|right].
  split; [done|]. by rewrite Hs.
Qed.

Lemma wp_record_commit_frame s w :
  wp (record_commit w) (λ r s', w ∈ committed_waves (waves s') ∧ wave_frame w s s') s.
Proof.
  unfold record_commit. do 4 wp_step.
  match goal with |- context [?m !! w] =>
    change (m !! w) with (slow_timer_by_wave (waves s) !! w) end.
  destruct (slow_timer_by_wave (waves s) !! w) as [id|].
  - do 3 wp_step. cbn. split; [set_solver|]. split; [set_solver|].
    intros w' Hne. apply lookup_delete_ne. congruence.
  - wp_step. cbn. split; [set_solver|]. split; [set_solver|done].
Qed.

Lemma wp_emit_micro_qc_frame s decision acts :
  wp (emit_micro_qc fuel decision ctx acts) (λ r s', waves s' = waves s) s.
Proof.
  unfold emit_micro_qc.
  do 2 wp_step. destruct (closure_of_anchor _ _ _) as [lin| | |]; try done.
  do 2 wp_step. case_bool_decide as Hin; [done|].
  do 2 wp_step. destruct (hydrate _ _) as [l| | |]; try done.
  do 2 wp_step. destruct (micro_try_finalize _ _ _) as [[qc|]| | |]; done.
Qed.

Lemma wp_arm_slow_timer_frame s w :
  wp (arm_slow_timer w cfg) (λ r s', match r with
    | Ok _ => is_Some (slow_timer_by_wave (waves s') !! w) ∧ wave_frame w s s'
    | _ => True end) s.
Proof.
  unfold arm_slow_timer. do 2 wp_step. unfold zoom.
  destruct (allocate (wb_timers (waves s))) as [[id| | |] t]; cbn; [|done..].
  do 3 wp_step. cbn. split; [exists id;
    apply lookup_insert_eq|]. split; [set_solver|].
  intros w' Hne. apply lookup_insert_ne. congruence.
Qed.

Lemma wp_try_emit_handles s w :
  valset_set_for ctx 0 = Ok (Some set) →
  wp (try_emit_for_wave fuel w cfg ctx false) (λ r s', match r with
    | Ok _ => wave_handled s' w ∧ wave_frame w s s'
    | _ => True end) s.
Proof.
  intros Hset. unfold try_emit_for_wave.
  assert (Hrefl : wave_frame w s s) by done.
  do 2 wp_step. case_bool_decide as Hc; [wp_step; split; [by left|done]|].
  do 2 wp_step. rewrite Hset. do 2 wp_step.
  destruct (try_commit_wave _ _ _ _ _ _) as [[d|]| | |] eqn:Hd; try done.
  - wp_step. eapply wp_mono; [|by apply wp_record_commit_frame].
    intros [acts| | |] s' [Hw Hf]; try done.
    eapply wp_mono; [|by apply wp_emit_micro_qc_frame].
    intros r s'' Heq. destruct r; [|done..]. unfold wave_handled, wave_frame.
    rewrite Heq. split; [by left|done].
  - do 2 wp_step. cbn [negb andb]. case_bool_decide as Hs.
    + do 2 wp_step. destruct (anchor_present _ _ _ _) as [[]| | |] eqn:Hp; try done.
      * eapply wp_mono; [|by apply wp_arm_slow_timer_frame].
        intros [acts| | |] s'; [|done..]. intros [Hsome Hf]. split; [|done].
        right. auto.
      * wp_step. split; [right; auto|done].
    + wp_step. split; [|done]. right. split; [done|left].
      destruct (slow_timer_by_wave _ !! w); [done|]. by destruct Hs.
Qed.

Lemma wp_scan_waves_handles s ws acts :
  valset_set_for ctx 0 = Ok (Some set) → NoDup ws →
  wp (scan_waves fuel ws cfg ctx acts) (λ r s', match r with
    | Ok _ => (∀ w, w ∈ ws → wave_handled s' w) ∧
              (∀ w, w ∉ ws → wave_handled s w → wave_handled s' w)
    | _ => True end) s.
Proof.
  intros Hset. revert s acts. induction ws as [|w ws IH]; intros s acts; cbn [scan_waves].
  { intros _. wp_step. split; [by intros w ?%elem_of_nil|done]. }
  intros [Hw Hnd]%NoDup_cons. do 2 wp_step.
  assert (Hstep : ∀ s1 acts1, wave_handled s1 w →
    (∀ w', w' ≠ w → wave_handled s w' → wave_handled s1 w') →
    wp (scan_waves fuel ws cfg ctx acts1) (λ r s', match r with
    | Ok _ => (∀ w', w' ∈ w :: ws → wave_handled s' w') ∧
              (∀ w', w' ∉ w :: ws → wave_handled s w' → wave_handled s' w')
    | _ => True end) s1).
  { intros s1 acts1 Hh Hframe. eapply wp_mono; [|by apply IH].
    intros [a| | |] s'; [|done..]. intros [Hin Hout]. split.
    - intros w' [->|?]%elem_of_cons; [by apply Hout|by apply Hin].
    - intros w' [Hne Hni]%not_elem_of_cons Hh'. apply Hout; [done|]. by apply Hframe. }
  case_bool_decide as Hc; [apply Hstep; [by left|auto]|].
  wp_step. eapply wp_mono; [|by apply wp_try_emit_handles].
  intros [a| | |] s1; [|done..]. intros [Hh Hf]. apply Hstep; [done|].
  intros w' Hne. by apply (wave_handled_frame w).
Qed.
End progress.

(** ** Concrete waves

    Four validators; wave 0's anchor vertex in round 0 and three supporters in
    round 1. *)

#[global] Instance toy_hashes : Borsh (list Hash32) := λ l, pack (h32_bytes <$> l).

Definition toy_anchor : nat :=
  match select_anchor 0 (toy_set 4) toy_dag_host with
  | Ok c => Z.to_nat (default 0 (head (vid_bytes (ac_author c))))
  | _ => 0%nat
  end.
Definition toy_wave : gmap Hash32 CertifiedVertex :=
  dag_of [vx 0 toy_anchor [] 1; vx 1 0 [1] 2; vx 1 1 [1] 3; vx 1 2 [1] 4; vx 1 3 [] 5;
          vx 2 0 [2; 3; 4; 5] 6].
Definition toy_wave_host : HostContext := host_of toy_wave (toy_set 4) Hash32_zero.
Definition toy_cv (r : Z) : CertifiedVertex :=
  MkCertifiedVertex (vx r 0 [] 6) (MkBlsAggSig (MkBlsSig []) []).

Example toy_wave_commits :
  try_commit_wave 20 0 default_table_17_1 (toy_set 4) toy_wave_host false
  = Ok (Some (MkCommitDecision 0 Shortcut (h_of 1))).
Proof. by vm_compute. Qed.

(** ** Properties *)

(** [C17] Anchors agree: nodes that hold the same validators (in any order), the
    same total stake and the same beacon select the same anchor for a wave, a
    validator whose (score, id) is minimal. *)
Theorem select_anchor_agreement `{Primitives} wave set set' ctx ctx' choice choice' beacon :
  select_anchor wave set ctx = Ok choice → select_anchor wave set' ctx' = Ok choice' →
  beacon_current ctx = Ok beacon → beacon_current ctx' = Ok beacon →
  vs_entries set ≡ₚ vs_entries set' → vs_total_stake set = vs_total_stake set' →
  scores_ordered beacon wave set →
  choice = choice' ∧
  ∃ e, e ∈ vs_entries set ∧ ac_author choice = ve_id e ∧
    ∀ e', e' ∈ vs_entries set → cand_le (ve_id e, anchor_score beacon wave set e)
                                        (ve_id e', anchor_score beacon wave set e').
Proof.
  intros Hsel Hsel' Hb Hb' Hp Htot Hs.
  assert (Hc : anchor_cands beacon wave set ≡ₚ anchor_cands beacon wave set').
  { unfold anchor_cands. rewrite Hp. apply reflexive_eq, list_fmap_ext. intros _ e _.
    unfold anchor_score. by rewrite Htot. }
  assert (Hs' : scores_ordered beacon wave set') by (unfold scores_ordered; by rewrite <- Hc).
  destruct (select_anchor_min _ _ _ _ _ Hsel Hb Hs) as (r & Hr & Ha & Hn & Hmin).
  destruct (select_anchor_min _ _ _ _ _ Hsel' Hb' Hs') as (r' & Hr' & Ha' & Hn' & Hmin').
  split.
  - assert (Heq : r.1 = r'.1).
    { apply cand_le_antisym; [done..| |]; [apply Hmin; by rewrite Hc|apply Hmin'; by rewrite <- Hc]. }
    apply select_anchor_Ok in Hsel as (b & q & Hbq & _ & ->).
    apply select_anchor_Ok in Hsel' as (b' & q' & Hbq' & _ & ->).
    cbn in Ha, Ha'. congruence.
  - unfold anchor_cands in Hr, Hmin. apply list_elem_of_fmap in Hr as (e & -> & He).
    exists e. split_and!; [done..|]. intros e' He'. apply Hmin.
    apply list_elem_of_fmap. eauto.
Qed.

(** [C18] The commit rule decides a wave exactly by the size of its anchor's
    support: a quorum of distinct authors in the shortcut window commits it;
    otherwise, only after the timeout, a quorum in the slow-path window. *)
Theorem try_commit_wave_spec `{Build, Primitives} fuel wave cfg set ctx timed_out o choice vs :
  try_commit_wave fuel wave cfg set ctx timed_out = Ok o →
  vs_entries set ≠ [] → select_anchor wave set ctx = Ok choice →
  dag_vertices_at_round ctx (first_round wave) = Ok vs →
  0 ≤ wave → first_round wave + shortcut_round_count (bullshark cfg) < 2 ^ 64 →
  first_round wave + slow_path_round_count (bullshark cfg) < 2 ^ 64 →
  match find_anchor choice vs with
  | None => o = None
  | Some av =>
      let h := v_hash (cv_vertex av) in
      let need := quorum_threshold (length (vs_entries set)) in
      let window n := supporter ctx h (first_round wave) n in
      ∃ fast slow : gset ValidatorId,
        (∀ a, a ∈ fast ↔ window (shortcut_round_count (bullshark cfg)) a) ∧
        (∀ a, timed_out = true → size fast < need →
              a ∈ slow ↔ window (slow_path_round_count (bullshark cfg)) a) ∧
        o = (if need <=? size fast then Some (MkCommitDecision wave Shortcut h)
             else if timed_out && (need <=? size slow)
                  then Some (MkCommitDecision wave SlowPath h) else None)
  end.
Proof.
  intros Ht Hne Hc Hv Hw Hlim1 Hlim2. unfold try_commit_wave in Ht.
  rewrite bool_decide_eq_false_2, Hc in Ht by done. revert Ht. ocbn.
  rewrite Hv. ocbn. destruct (find_anchor choice vs) as [av|]; [|by intros [= <-]].
  cbv zeta. rewrite quorum_threshold_nat.
  set (h := v_hash (cv_vertex av)). set (need := quorum_threshold _).
  assert (Hr : 0 ≤ first_round wave) by (unfold first_round; lia).
  intros (fast & Hf & Ht)%outcome_bind_Ok.
  pose proof (count_supporters_Ok fuel h _ _ ctx fast Hf Hr Hlim1) as Hfast.
  destruct (need <=? size fast) eqn:Hq.
  { injection Ht as <-. exists fast, ∅. split_and!; [exact Hfast| |by rewrite Hq].
    intros a _ Hlt. apply Z.leb_le in Hq. lia. }
  destruct timed_out.
  - apply outcome_bind_Ok in Ht as (slow & Hs & Ht).
    pose proof (count_supporters_Ok fuel h _ _ ctx slow Hs Hr Hlim2) as Hslow.
    exists fast, slow. split_and!; [exact Hfast|intros; apply Hslow|]. rewrite Hq. cbn [andb].
    destruct (need <=? size slow); by injection Ht.
  - exists fast, ∅. split_and!; [exact Hfast|done|]. rewrite Hq. by injection Ht.
Qed.

(** A micro certificate carries the checkpoint it was asked for, and its
    bitmap marks exactly the validators that authored a linearized vertex; it
    is only built when at least [2f + 1] distinct authors took part, and when
    every author is a validator the bitmap counts all of them. *)
Theorem micro_qc_spec cp lin ctx set qc :
  micro_try_finalize cp lin ctx = Ok (Some qc) →
  active_set ctx = Ok set →
  let authors : gset ValidatorId := list_to_set ((λ cv, v_author (cv_vertex cv)) <$> lin) in
  mqc_checkpoint_hash qc = cp ∧
  quorum_threshold (length (vs_entries set)) ≤ size authors ∧
  (∀ i e, vs_entries set !! i = Some e →
     get_bit (agg_bitmap (mqc_agg qc)) i = true ↔ ve_id e ∈ authors) ∧
  (NoDup (ve_id <$> vs_entries set) → (∀ a, a ∈ authors → a ∈ ve_id <$> vs_entries set) →
   count_ones (agg_bitmap (mqc_agg qc)) = size authors).
Proof.
  intros Hq Hset authors. unfold micro_try_finalize in Hq. rewrite Hset in Hq. revert Hq.
  ocbn. fold authors. case_bool_decide as Hn; [done|].
  destruct (Z.ltb_spec (size authors) (2 * ((length (vs_entries set) - 1) / 3) + 1))
    as [|Hneed]; [done|].
  intros [= <-]. cbn [mqc_checkpoint_hash mqc_agg agg_bitmap]. split_and!; [done| | |].
  - rewrite <- quorum_threshold_nat. unfold saturating_sub. rewrite Z.max_l by lia. done.
  - intros i e Hi. rewrite get_bitmap_of, list_lookup_fmap, Hi. cbn.
    apply bool_decide_eq_true.
  - intros Hnd Hall. rewrite count_ones_bitmap_of.
    assert (Hfil : filter (λ b, b = true)
      ((λ e, bool_decide (ve_id e ∈ authors)) <$> vs_entries set) =
      (λ e, bool_decide (ve_id e ∈ authors)) <$>
        filter (λ e, ve_id e ∈ authors) (vs_entries set)).
    { rewrite filter_fmap_list. f_equal. apply list_filter_ext. intros e _. cbn.
      apply bool_decide_eq_true. }
    rewrite Hfil, length_fmap.
    rewrite <- (length_fmap ve_id), <- (size_list_to_set (C := gset ValidatorId)).
    + f_equal. apply set_eq. intros a. rewrite elem_of_list_to_set, list_elem_of_fmap.
      setoid_rewrite list_elem_of_filter. split.
      * intros (e & -> & ? & ?). done.
      * intros Ha. specialize (Hall a Ha). apply list_elem_of_fmap in Hall as (e & -> & He).
        eauto.
    + pose proof (NoDup_filter (λ x, x ∈ authors) _ Hnd) as Hf.
      by rewrite filter_fmap_list in Hf.
Qed.

(** Over any run of certified vertices and timers, whatever the host
    answers and whichever calls fail, a validator broadcasts at most one micro
    certificate per checkpoint; and as long as the run can arm fewer than [2^64] timers, the two
    timer maps stay inverse to each other with no timer left for a committed wave. *)
Theorem micro_run_emits_once `{Build, Primitives, !Borsh (list Hash32)} fuel cfg ins acts s :
  micro_run fuel cfg ins MicroState_new = (acts, s) →
  NoDup (qcs_of acts) ∧ (∀ h, h ∈ qcs_of acts → h ∈ es_inner (emitted s)) ∧
  (sum_list (micro_cost <$> ins) < 2 ^ 64 →
   (∀ wave id, slow_timer_by_wave (waves s) !! wave = Some id ↔
               timer_to_wave (waves s) !! timer_u64 id = Some wave) ∧
   (∀ wave, wave ∈ committed_waves (waves s) → slow_timer_by_wave (waves s) !! wave = None)).
Proof.
  intros Hrun. destruct (micro_run_emits fuel cfg _ _ _ _ Hrun) as (_ & _ & Hnd & Hin).
  split_and!; [done|by intros h [_ ?]%Hin|]. intros Hcost.
  apply (micro_run_waves fuel cfg 0) in Hrun as Hwf; [split; apply Hwf|].
  eapply waves_wf_mono; [|apply waves_wf_new]. lia.
Qed.

(** [C34] No wave is forgotten: after a certified vertex is processed, every wave
    up to its own is committed, or waits for an armed slow-path timer, or its
    anchor vertex has not been seen. *)
Theorem on_certified_vertex_progress `{Build, Primitives, !Borsh (list Hash32)}
    fuel cfg cv ctx set s acts s' w :
  on_certified_vertex fuel cfg cv ctx s = (Ok acts, s') →
  valset_set_for ctx 0 = Ok (Some set) →
  0 ≤ w ≤ of_round (v_round (cv_vertex cv)) →
  w ∈ committed_waves (waves s') ∨
  try_commit_wave fuel w cfg set ctx false = Ok None ∧
  (is_Some (slow_timer_by_wave (waves s') !! w) ∨ anchor_present w cfg set ctx = Ok false).
Proof.
  intros Hrun Hset Hw.
  pose proof (wp_scan_waves_handles fuel cfg ctx set s
    (seqZ 0 (of_round (v_round (cv_vertex cv)) + 1)) [] Hset (NoDup_seqZ _ _)) as Hwp.
  unfold on_certified_vertex in Hrun. unfold wp in Hwp. rewrite Hrun in Hwp.
  destruct Hwp as [Hin _]. apply Hin, elem_of_seqZ. lia.
Qed.

(** *** Witnesses *)

Definition toy_choice : AnchorChoice := MkAnchorChoice 0 (toy_id toy_anchor) Hash32_zero.

(** The same validators listed in reverse. *)
Definition toy_set_rev : ValidatorSet := MkValidatorSet 0 (reverse (vs_entries (toy_set 4))) 4.

Lemma select_anchor_agreement_witness :
  toy_choice = toy_choice ∧
  ∃ e, e ∈ vs_entries (toy_set 4) ∧ ac_author toy_choice = ve_id e ∧
    ∀ e', e' ∈ vs_entries (toy_set 4) →
      cand_le (ve_id e, anchor_score Hash32_zero 0 (toy_set 4) e)
              (ve_id e', anchor_score Hash32_zero 0 (toy_set 4) e').
Proof.
  apply (select_anchor_agreement 0 (toy_set 4) toy_set_rev toy_wave_host toy_dag_host);
    try (by vm_compute).
  - symmetry. apply (reverse_Permutation (vs_entries (toy_set 4))).
  - unfold scores_ordered, not_nan. vdecide.
Defined.

Definition toy_anchors : list CertifiedVertex :=
  [MkCertifiedVertex (vx 0 toy_anchor [] 1) (MkBlsAggSig (MkBlsSig []) [])].

Lemma try_commit_wave_spec_witness :
  match find_anchor toy_choice toy_anchors with
  | None => Some (MkCommitDecision 0 Shortcut (h_of 1)) = None
  | Some av =>
      let h := v_hash (cv_vertex av) in
      let need := quorum_threshold (length (vs_entries (toy_set 4))) in
      let window n := supporter toy_wave_host h (first_round 0) n in
      ∃ fast slow : gset ValidatorId,
        (∀ a, a ∈ fast ↔ window (shortcut_round_count (bullshark default_table_17_1)) a) ∧
        (∀ a, false = true → size fast < need →
              a ∈ slow ↔ window (slow_path_round_count (bullshark default_table_17_1)) a) ∧
        Some (MkCommitDecision 0 Shortcut (h_of 1)) =
          (if need <=? size fast then Some (MkCommitDecision 0 Shortcut h)
           else if false && (need <=? size slow)
                then Some (MkCommitDecision 0 SlowPath h) else None)
  end.
Proof.
  apply (try_commit_wave_spec 20 0 default_table_17_1 (toy_set 4) toy_wave_host false);
    by vm_compute.
Defined.

Definition toy_lin_vs : list CertifiedVertex :=
  (λ a : nat, MkCertifiedVertex (vx 1 a [] 7) (MkBlsAggSig (MkBlsSig []) [])) <$> [0; 2; 3; 2]%nat.
Definition toy_micro_qc : MicroQc :=
  MkMicroQc (h_of 9) (MkBlsAggSig (MkBlsSig (replicate 96 0xAB)) [13]).

Lemma micro_qc_spec_witness :
  let authors : gset ValidatorId :=
    list_to_set ((λ cv, v_author (cv_vertex cv)) <$> toy_lin_vs) in
  mqc_checkpoint_hash toy_micro_qc = h_of 9 ∧
  quorum_threshold (length (vs_entries (toy_set 4))) ≤ size authors ∧
  (∀ i e, vs_entries (toy_set 4) !! i = Some e →
     get_bit (agg_bitmap (mqc_agg toy_micro_qc)) i = true ↔ ve_id e ∈ authors) ∧
  (NoDup (ve_id <$> vs_entries (toy_set 4)) →
   (∀ a, a ∈ authors → a ∈ ve_id <$> vs_entries (toy_set 4)) →
   count_ones (agg_bitmap (mqc_agg toy_micro_qc)) = size authors).
Proof. apply (micro_qc_spec (h_of 9) toy_lin_vs toy_wave_host); by vm_compute. Defined.

(** Six full rounds of four validators, every vertex naming the whole previous
    round. *)
Definition toy_round (r : nat) : list Vertex :=
  (λ a : nat, vx r a (match r with
                      | O => []
                      | S r => (λ b : nat, 10 * r + b + 1) <$> seq 0 4
                      end) (10 * r + a + 1)) <$> seq 0 4.
Definition toy_full_host : HostContext :=
  host_of (dag_of (mjoin (toy_round <$> seq 0 6))) (toy_set 4) Hash32_zero.

Definition toy_ins : list micro_input :=
  [MI_vertex (toy_cv 4) toy_full_host; MI_vertex (toy_cv 5) toy_full_host;
   MI_timer (MkTimerId 0) toy_full_host].

Definition toy_run : Actions * MicroState :=
  micro_run 30 default_table_17_1 toy_ins MicroState_new.

(** Wave 0 has a one-vertex history and stays below the author quorum; wave 1
    yields a certificate. *)
Example toy_run_emits :
  length (qcs_of toy_run.1) = 1%nat ∧ committed_waves (waves toy_run.2) = {[0; 1]}.
Proof. by vm_compute. Qed.

Lemma micro_run_emits_once_witness :
  NoDup (qcs_of toy_run.1) ∧ (∀ h, h ∈ qcs_of toy_run.1 → h ∈ es_inner (emitted toy_run.2)) ∧
  (∀ wave id, slow_timer_by_wave (waves toy_run.2) !! wave = Some id ↔
              timer_to_wave (waves toy_run.2) !! timer_u64 id = Some wave) ∧
  (∀ wave, wave ∈ committed_waves (waves toy_run.2) →
           slow_timer_by_wave (waves toy_run.2) !! wave = None).
Proof.
  destruct (micro_run_emits_once 30 default_table_17_1 toy_ins toy_run.1 toy_run.2)
    as (Hnd & Hin & Hw); [apply surjective_pairing|].
  split; [exact Hnd|]. split; [exact Hin|]. apply Hw. vm_compute. done.
Defined.

Lemma on_certified_vertex_progress_witness :
  0 ∈ committed_waves (waves (on_certified_vertex 20 default_table_17_1 (toy_cv 2)
                                toy_wave_host MicroState_new).2) ∨
  try_commit_wave 20 0 default_table_17_1 (toy_set 4) toy_wave_host false = Ok None ∧
  (is_Some (slow_timer_by_wave (waves (on_certified_vertex 20 default_table_17_1 (toy_cv 2)
                                toy_wave_host MicroState_new).2) !! 0) ∨
   anchor_present 0 default_table_17_1 (toy_set 4) toy_wave_host = Ok false).
Proof.
  eapply (on_certified_vertex_progress 20 default_table_17_1 (toy_cv 2) toy_wave_host
    (toy_set 4) MicroState_new).
  - vm_compute. reflexivity.
  - reflexivity.
  - vm_compute. split; discriminate.
Defined.
