(* ===== verification/MicroAgreement.v ===== *)
(** Nodes that commit a wave certify the same checkpoint.

    The linearization of an anchor depends on the causal past of the anchor only, not on how much
    more of the DAG a node holds, how many iterations it allows, or which signers certified a
    vertex ([closure_loop_same]).  So two nodes that emit a micro certificate for a wave, on
    either path of the commit rule and at whatever moment, emit the same one
    ([micro_certificates_agree]). *)

From S2P Require Import Prelude Bytes Types Crypto Toy Config Leader Dag Linearize Bullshark.
Open Scope Z_scope.

(** Both hosts hold the vertex of a hash; its certificates may differ. *)
Definition same_vertex (ctx ctx' : HostContext) (h : Hash32) : Prop :=
  ∃ cv cv', dag_vertex ctx h = Ok (Some cv) ∧ dag_vertex ctx' h = Ok (Some cv') ∧
    cv_vertex cv = cv_vertex cv'.
Definition same_past (ctx ctx' : HostContext) (h : Hash32) : Prop :=
  ∀ x, rtc (edge ctx) h x → same_vertex ctx ctx' x.

Section same.
Context (ctx ctx' : HostContext).

Lemma same_past_edge h p : same_past ctx ctx' h → edge ctx h p → same_past ctx ctx' p.
Proof. intros Hs He x Hx. apply Hs. by eapply rtc_l. Qed.

Lemma closure_loop_same fuel fuel' visited order queue o o' :
  (∀ x, x ∈ queue → same_past ctx ctx' x) →
  closure_loop fuel ctx visited order queue = Ok o →
  closure_loop fuel' ctx' visited order queue = Ok o' → o = o'.
Proof.
  revert fuel' visited order queue. induction fuel as [|fuel IH]; [done|].
  intros [|fuel'] visited order queue Hq; [done|]. cbn [closure_loop].
  destruct queue as [|h queue]; [by intros [= <-] [= <-]|].
  destruct (Hq h ltac:(by left) h (rtc_refl _ _)) as (cv & cv' & Hcv & Hcv' & Heq).
  rewrite Hcv, Hcv'. ocbn. rewrite <- Heq.
  destruct (visit _ visited queue) as [visited' queue'] eqn:Hv. apply IH.
  apply visit_spec in Hv as (added & -> & _ & Hadd & _).
  intros x [Hx|Hx]%elem_of_app; [by apply Hq; right|].
  apply Hadd in Hx as [Hx _]. rewrite merge_sort_Permutation in Hx.
  apply (same_past_edge h); [by apply Hq; left|]. by exists cv.
Qed.

Lemma closure_of_anchor_same fuel fuel' anchor lin lin' :
  same_past ctx ctx' anchor →
  closure_of_anchor fuel anchor ctx = Ok lin → closure_of_anchor fuel' anchor ctx' = Ok lin' →
  lin = lin' ∧ ∀ h, h ∈ lin_order lin → same_vertex ctx ctx' h.
Proof.
  unfold closure_of_anchor. intros Hs (o & Ho & [= <-])%outcome_bind_Ok
    (o' & Ho' & [= <-])%outcome_bind_Ok.
  assert (Hq : ∀ x, x ∈ [anchor] → same_past ctx ctx' x) by by intros x ->%list_elem_of_singleton.
  split; [f_equal; by eapply closure_loop_same|].
  apply (closure_loop_inv ctx anchor) in Ho as [visited Hi]; [|apply closure_inv_init].
  destruct (closure_inv_done ctx anchor visited o Hi) as (_ & _ & Hr).
  intros h Hh. by apply Hs, Hr.
Qed.

Lemma hydrate_same order l l' :
  (∀ h, h ∈ order → same_vertex ctx ctx' h) →
  hydrate ctx order = Ok l → hydrate ctx' order = Ok l' → cv_vertex <$> l = cv_vertex <$> l'.
Proof.
  revert l l'. induction order as [|h order IH]; intros l l' Hs; cbn [hydrate].
  { by intros [= <-] [= <-]. }
  destruct (Hs h ltac:(by left)) as (cv & cv' & Hcv & Hcv' & Heq). rewrite Hcv, Hcv'. ocbn.
  intros (r & Hr & [= <-])%outcome_bind_Ok (r' & Hr' & [= <-])%outcome_bind_Ok.
  cbn. f_equal; [done|]. apply IH; [|done..]. intros x Hx. apply Hs. by right.
Qed.

Lemma micro_try_finalize_same cp l l' set :
  active_set ctx = Ok set → active_set ctx' = Ok set → cv_vertex <$> l = cv_vertex <$> l' →
  micro_try_finalize cp l ctx = micro_try_finalize cp l' ctx'.
Proof.
  intros Hset Hset' Hl. unfold micro_try_finalize. rewrite Hset, Hset'. ocbn.
  assert (Ha : (λ cv, v_author (cv_vertex cv)) <$> l = (λ cv, v_author (cv_vertex cv)) <$> l').
  { change (λ cv, v_author (cv_vertex cv)) with (v_author ∘ cv_vertex).
    by rewrite !list_fmap_compose, Hl. }
  by rewrite Ha.
Qed.
End same.

(** ** What a micro certificate comes from *)
Section emission.
Context `{Build, Primitives, !Borsh (list Hash32)} (fuel : nat).

(** A committed anchor, its linearization, the vertices of it that the host holds *)
Definition emission (wave : WaveId) (cfg : Config) (ctx : HostContext) (timed_out : bool)
    (qc : MicroQc) : Prop :=
  ∃ set d lin l, valset_set_for ctx 0 = Ok (Some set) ∧
    try_commit_wave fuel wave cfg set ctx timed_out = Ok (Some d) ∧
    closure_of_anchor fuel (cd_anchor_hash d) ctx = Ok lin ∧ hydrate ctx (lin_order lin) = Ok l ∧
    micro_try_finalize (checkpoint_hash_from_linearization lin) l ctx = Ok (Some qc).

Lemma record_commit_quiet wave s :
  wp (record_commit wave) (λ r _, ∀ acts qc, r = Ok acts → BroadcastMicroQc qc ∉ acts) s.
Proof.
  unfold record_commit. do 4 wp_step.
  match goal with |- context [slow_timer_by_wave ?w !! wave] =>
    destruct (slow_timer_by_wave w !! wave) end; repeat wp_step;
    intros acts qc [= <-]; [by intros ?%list_elem_of_singleton|by intros ?%elem_of_nil].
Qed.

Lemma try_emit_emission wave cfg ctx timed_out s acts s' qc :
  try_emit_for_wave fuel wave cfg ctx timed_out s = (Ok acts, s') →
  BroadcastMicroQc qc ∈ acts → emission wave cfg ctx timed_out qc.
Proof.
  intros Hrun Hqc.
  enough (Hw : wp (try_emit_for_wave fuel wave cfg ctx timed_out) (λ r _, ∀ acts qc,
    r = Ok acts → BroadcastMicroQc qc ∈ acts → emission wave cfg ctx timed_out qc) s).
  { unfold wp in Hw. rewrite Hrun in Hw. by eapply Hw. }
  clear. assert (Hnil : ∀ s, wp (mret [] : M Error MicroState Actions) (λ r _, ∀ acts qc,
    r = Ok acts → BroadcastMicroQc qc ∈ acts → emission wave cfg ctx timed_out qc) s).
  { intros s'. apply wp_ret. by intros acts qc [= <-] ?%elem_of_nil. }
  unfold try_emit_for_wave. apply wp_bind, wp_gets. case_bool_decide; [done|].
  apply wp_bind, wp_lift. destruct (valset_set_for ctx 0) as [[set|]| | |] eqn:Hset; try done.
  apply wp_bind, wp_lift.
  destruct (try_commit_wave _ _ _ _ _ _) as [[d|]| | |] eqn:Hd; try done.
  - apply wp_bind. eapply wp_mono; [|apply record_commit_quiet].
    intros r s1 Hr. destruct r as [acts| | |]; try done. specialize (Hr acts).
    unfold emit_micro_qc. apply wp_bind, wp_lift.
    destruct (closure_of_anchor _ _ _) as [lin| | |] eqn:Hlin; try done.
    apply wp_bind, wp_gets.
    assert (Hacts : ∀ s, wp (mret acts : M Error MicroState Actions) (λ r _, ∀ acts qc,
      r = Ok acts → BroadcastMicroQc qc ∈ acts → emission wave cfg ctx timed_out qc) s).
    { intros s2. apply wp_ret. intros acts' qc [= <-] Hin. by destruct (Hr qc eq_refl). }
    case_bool_decide; [done|]. apply wp_bind, wp_lift.
    destruct (hydrate _ _) as [l| | |] eqn:Hl; try done. apply wp_bind, wp_lift.
    destruct (micro_try_finalize _ _ _) as [[qc0|]| | |] eqn:Hq; try done.
    apply wp_bind, wp_modify, wp_ret. intros acts' qc [= <-] [Hin|Hin]%elem_of_app.
    + by destruct (Hr qc eq_refl).
    + apply list_elem_of_singleton in Hin as [= ->]. by exists set, d, lin, l.
  - apply wp_bind, wp_gets. destruct (_ && _); [|done]. apply wp_bind, wp_lift.
    destruct (anchor_present _ _ _ _) as [[]| | |]; try done.
    unfold arm_slow_timer. apply wp_bind. eapply (wp_mono _ (λ _ _, True)); [|done]. intros r s1 _.
    destruct r; try done. apply wp_bind, wp_modify, wp_ret.
    by intros acts qc [= <-] ?%list_elem_of_singleton.
Qed.

Lemma commit_anchor wave cfg set ctx timed_out d :
  try_commit_wave fuel wave cfg set ctx timed_out = Ok (Some d) →
  ∃ choice vs av, select_anchor wave set ctx = Ok choice ∧
    dag_vertices_at_round ctx (first_round wave) = Ok vs ∧ av ∈ vs ∧
    v_author (cv_vertex av) = ac_author choice ∧ cd_anchor_hash d = v_hash (cv_vertex av).
Proof.
  unfold try_commit_wave. case_bool_decide; [done|].
  intros (choice & Hc & (vs & Hv & Hd)%outcome_bind_Ok)%outcome_bind_Ok.
  destruct (find_anchor choice vs) as [av|] eqn:Hf; [|done]. cbv zeta in Hd.
  unfold find_anchor in Hf. apply fmap_Some in Hf as ([i av'] & Hf & ->).
  apply list_find_Some in Hf as (Hin%list_elem_of_lookup_2 & Ha & _).
  exists choice, vs, av'. split_and!; [done..|]. cbn [snd] in Hd.
  apply outcome_bind_Ok in Hd as (fast & _ & Hd). case_match; [by injection Hd as <-|].
  destruct timed_out; [|done]. apply outcome_bind_Ok in Hd as (slow & _ & Hd).
  case_match; [by injection Hd as <-|done].
Qed.
End emission.

(** ** Properties *)

(** [C16] Micro certificates agree.  Let two nodes have the same validators and the same beacon,
    their vertices in the first round of a wave agree on hashes author by author, and both hold
    the causal past of that round's vertices.  If each of them emits a micro certificate for
    the wave, by whatever path, timing and state, the two certificates are equal. *)
Theorem micro_certificates_agree `{Build, Primitives, !Borsh (list Hash32)} fuel fuel' wave
    cfg cfg' ctx ctx' timed_out timed_out' s s' acts acts' r r' set qc qc' :
  try_emit_for_wave fuel wave cfg ctx timed_out s = (Ok acts, r) → BroadcastMicroQc qc ∈ acts →
  try_emit_for_wave fuel' wave cfg' ctx' timed_out' s' = (Ok acts', r') →
  BroadcastMicroQc qc' ∈ acts' →
  valset_set_for ctx 0 = Ok (Some set) → valset_set_for ctx' 0 = Ok (Some set) →
  beacon_current ctx = beacon_current ctx' →
  (∀ vs vs' cv cv', dag_vertices_at_round ctx (first_round wave) = Ok vs →
     dag_vertices_at_round ctx' (first_round wave) = Ok vs' → cv ∈ vs → cv' ∈ vs' →
     v_author (cv_vertex cv) = v_author (cv_vertex cv') →
     v_hash (cv_vertex cv) = v_hash (cv_vertex cv')) →
  (∀ vs cv, dag_vertices_at_round ctx (first_round wave) = Ok vs → cv ∈ vs →
     same_past ctx ctx' (v_hash (cv_vertex cv))) →
  qc = qc'.
Proof.
  intros Hrun Hqc Hrun' Hqc' Hset Hset' Hb Hslot Hpast.
  destruct (try_emit_emission _ _ _ _ _ _ _ _ _ Hrun Hqc) as (? & d & lin & l & E & Hd & Hlin & Hl & Hq).
  destruct (try_emit_emission _ _ _ _ _ _ _ _ _ Hrun' Hqc')
    as (? & d' & lin' & l' & E' & Hd' & Hlin' & Hl' & Hq').
  rewrite Hset in E. rewrite Hset' in E'. injection E as <-. injection E' as <-.
  destruct (commit_anchor _ _ _ _ _ _ _ Hd) as (ch & vs & av & Hch & Hvs & Hav & Ha & Hh).
  destruct (commit_anchor _ _ _ _ _ _ _ Hd') as (ch' & vs' & av' & Hch' & Hvs' & Hav' & Ha' & Hh').
  assert (ch' = ch) as ->.
  { unfold select_anchor in Hch, Hch'. rewrite Hb in Hch. congruence. }
  pose proof (Hslot vs vs' av av' Hvs Hvs' Hav Hav' ltac:(congruence)) as Heq.
  rewrite Hh in Hlin. rewrite Hh', <- Heq in Hlin'.
  destruct (closure_of_anchor_same ctx ctx' _ _ _ _ _ (Hpast vs av Hvs Hav) Hlin Hlin') as [<- Hsame].
  pose proof (hydrate_same ctx ctx' _ _ _ Hsame Hl Hl') as Hv.
  assert (Hact : active_set ctx = Ok set) by (unfold active_set; by rewrite Hset).
  assert (Hact' : active_set ctx' = Ok set) by (unfold active_set; by rewrite Hset').
  rewrite (micro_try_finalize_same ctx ctx' _ l l' set Hact Hact' Hv), Hq' in Hq. congruence.
Qed.

(** One node has seen six rounds, the other ten, with other certificates. *)
Definition toy_late_host : HostContext :=
  let m := list_to_map ((λ v, (v_hash v, MkCertifiedVertex v
             (MkBlsAggSig (MkBlsSig [7]) [7]))) <$> mjoin (toy_round <$> seq 0 10)) in
  host_of m (toy_set 4) Hash32_zero.
Definition toy_wave_run (ctx : HostContext) : result Actions * MicroState :=
  try_emit_for_wave 60 1 default_table_17_1 ctx false MicroState_new.
Definition toy_wave_qc : MicroQc :=
  Eval vm_compute in
    match (toy_wave_run toy_full_host).1 with
    | Ok [BroadcastMicroQc qc] => qc | _ => MkMicroQc Hash32_zero (MkBlsAggSig (MkBlsSig []) []) end.
Lemma toy_wave_runs : Forall (λ ctx, (toy_wave_run ctx).1 = Ok [BroadcastMicroQc toy_wave_qc])
  [toy_full_host; toy_late_host].
Proof. repeat constructor; vm_compute; reflexivity. Qed.

Definition vertices_of (ctx : HostContext) (r : Z) : list CertifiedVertex :=
  match dag_vertices_at_round ctx r with Ok vs => vs | _ => [] end.
Definition toy_six_rounds : list Hash32 := v_hash <$> mjoin (toy_round <$> seq 0 6).
Definition same_vertexb (ctx ctx' : HostContext) (h : Hash32) : bool :=
  match dag_vertex ctx h, dag_vertex ctx' h with
  | Ok (Some cv), Ok (Some cv') => bool_decide (cv_vertex cv = cv_vertex cv')
  | _, _ => false
  end.
Lemma same_vertexb_true ctx ctx' h : same_vertexb ctx ctx' h = true → same_vertex ctx ctx' h.
Proof.
  unfold same_vertexb, same_vertex.
  destruct (dag_vertex ctx h) as [[cv|]| | |], (dag_vertex ctx' h) as [[cv'|]| | |]; try done.
  intros ?%bool_decide_eq_true. by exists cv, cv'.
Qed.

Lemma toy_same_past h : h ∈ toy_six_rounds → same_past toy_full_host toy_late_host h.
Proof.
  intros Hh x Hx. apply same_vertexb_true.
  assert (Hall : Forall (λ h, same_vertexb toy_full_host toy_late_host h = true) toy_six_rounds)
    by vdecide.
  rewrite Forall_forall in Hall. apply Hall. clear Hall.
  assert (Hcl : closed_dag toy_full_host (list_to_set toy_six_rounds))
    by (apply host_of_closed; vdecide).
  rewrite <- (elem_of_list_to_set (C := gset Hash32)) in Hh |- *.
  induction Hx as [|a b d Hab _ IH]; [done|]. apply IH. by apply (closed_edge _ _ Hcl a).
Qed.

Lemma micro_certificates_agree_witness :
  mqc_checkpoint_hash toy_wave_qc ≠ Hash32_zero ∧ toy_wave_qc = toy_wave_qc.
Proof.
  split; [vdecide|].
  pose proof toy_wave_runs as [Hfull [Hlate _]%Forall_cons]%Forall_cons.
  apply (micro_certificates_agree 60 60 1 default_table_17_1 default_table_17_1 toy_full_host
    toy_late_host false false MicroState_new MicroState_new [BroadcastMicroQc toy_wave_qc]
    [BroadcastMicroQc toy_wave_qc] (toy_wave_run toy_full_host).2 (toy_wave_run toy_late_host).2
    (toy_set 4)).
  - rewrite <- Hfull. apply surjective_pairing.
  - by left.
  - rewrite <- Hlate. apply surjective_pairing.
  - by left.
  - by vm_compute.
  - by vm_compute.
  - by vm_compute.
  - intros vs vs' cv cv' Hvs Hvs' Hcv Hcv'.
    assert (Hall : Forall (λ cv, Forall (λ cv', v_author (cv_vertex cv) = v_author (cv_vertex cv') →
      v_hash (cv_vertex cv) = v_hash (cv_vertex cv')) (vertices_of toy_late_host (first_round 1)))
      (vertices_of toy_full_host (first_round 1))) by vdecide.
    unfold vertices_of in Hall. rewrite Hvs, Hvs', Forall_forall in Hall.
    specialize (Hall cv Hcv). rewrite Forall_forall in Hall. by apply Hall.
  - intros vs cv Hvs Hcv. apply toy_same_past.
    assert (Hall : Forall (λ cv, v_hash (cv_vertex cv) ∈ toy_six_rounds)
      (vertices_of toy_full_host (first_round 1))) by vdecide.
    unfold vertices_of in Hall. rewrite Hvs, Forall_forall in Hall. by apply Hall.
Defined.
