(* ===== verification/MacroState.v ===== *)
(** The state of the macro-finality layer: [lock_macro.rs], and in
    [consensus::macro_fin] the files [two_chain.rs], [vote_book.rs], [timer.rs],
    [window.rs], [checkpoint.rs], [messages.rs] and [book.rs]. *)

From S2P Require Import Prelude Bytes Types Crypto Toy Config Leader.
Open Scope Z_scope.

(** ** [lock_macro.rs] *)

Record LockMacro := MkLockMacro { lm_locks : gmap ValidatorId (Height * Hash32) }.
#[global] Instance LockMacro_eta : Settable LockMacro := λ l, MkLockMacro (lm_locks l).
Definition LockMacro_new : LockMacro := MkLockMacro ∅.

Definition LOCK_CONFLICT : string :=
  "validator already locked to a conflicting checkpoint at this height".

Definition try_lock (validator : ValidatorId) (height : Height) (checkpoint : Hash32)
  : M string LockMacro unit :=
  locks ← gets lm_locks;
  let conflict := match locks !! validator with
                  | Some (h, prev) => bool_decide (h = height) && bool_decide (prev ≠ checkpoint)
                  | None => false
                  end in
  if conflict then lift (Err LOCK_CONFLICT)
  else modify (λ l, l <| lm_locks ::= <[validator := (height, checkpoint)]> |>).

Definition lock_get (l : LockMacro) (validator : ValidatorId) : option (Height * Hash32) :=
  lm_locks l !! validator.

(** ** [two_chain.rs] *)

Record TwoChainRule := MkTwoChainRule {
  adopted : gmap Z MacroCheckpoint;
  justified_head : option Hash32;
  finalized_head : option Hash32;
}.
#[global] Instance TwoChainRule_eta : Settable TwoChainRule := λ t,
  MkTwoChainRule (adopted t) (justified_head t) (finalized_head t).
Definition TwoChainRule_default : TwoChainRule := MkTwoChainRule ∅ None None.

(** [adopt]: [entry(h).or_insert_with(..)], then the head if the hashes agree. *)
Definition adopt (cp : MacroCheckpoint) (t : TwoChainRule) : TwoChainRule :=
  let entry := default cp (adopted t !! mc_height cp) in
  let t := t <| adopted ::= <[mc_height cp := entry]> |> in
  if bool_decide (mc_hash entry = mc_hash cp)
  then t <| justified_head := Some (mc_hash cp) |>
  else t.

Definition justified_head_height (t : TwoChainRule) : option Height :=
  head_hash ← justified_head t;
  (λ p : nat * (Z * MacroCheckpoint), p.2.1) <$>
    list_find (λ kv : Z * MacroCheckpoint, mc_hash kv.2 = head_hash)
      (reverse (btree_entries (adopted t))).

Definition is_justified (t : TwoChainRule) (height : Height) : bool :=
  bool_decide (is_Some (adopted t !! height)).

Definition newly_finalized_height (t : TwoChainRule) : option Height :=
  head ← justified_head_height t;
  prev ← (if head =? 0 then None else Some (head - 1));
  head_cp ← adopted t !! head;
  prev_cp ← adopted t !! prev;
  if bool_decide (mc_parent head_cp = mc_hash prev_cp) &&
     bool_decide (finalized_head t ≠ Some (mc_hash prev_cp))
  then Some prev else None.

Definition mark_finalized (prev : Height) (t : TwoChainRule) : TwoChainRule :=
  match adopted t !! prev with
  | Some cp => t <| finalized_head := Some (mc_hash cp) |>
  | None => t
  end.

(** ** [vote_book.rs] *)

Record VoteRecord := MkVoteRecord {
  vr_source : Epoch;
  vr_target : Epoch;
  vr_checkpoint : Hash32;
  vr_sig : BlsSig;
}.
#[global] Instance VoteRecord_eq_dec : EqDecision VoteRecord.
Proof. solve_decision. Defined.

Record VoteBook := MkVoteBook { vb_votes : gmap ValidatorId (list VoteRecord) }.
#[global] Instance VoteBook_eta : Settable VoteBook := λ b, MkVoteBook (vb_votes b).
Definition VoteBook_new : VoteBook := MkVoteBook ∅.

Definition votes_of (b : VoteBook) (validator : ValidatorId) : list VoteRecord :=
  default [] (vb_votes b !! validator).
Definition record (validator : ValidatorId) (r : VoteRecord) (b : VoteBook) : VoteBook :=
  b <| vb_votes ::= <[validator := votes_of b validator ++ [r]]> |>.

(** ** [timer.rs]

    The reverse lookups iterate over a [HashMap]; ids are allocated once, so at
    most one height carries a given id. *)

Record MacroTimerBook := MkMacroTimerBook {
  mt_seq : TimerScheduler;
  backup_by_height : gmap Z TimerId;
  mode_b_by_height : gmap Z TimerId;
}.
#[global] Instance MacroTimerBook_eta : Settable MacroTimerBook := λ t,
  MkMacroTimerBook (mt_seq t) (backup_by_height t) (mode_b_by_height t).
Definition MacroTimerBook_new : MacroTimerBook := MkMacroTimerBook TimerScheduler_default ∅ ∅.

Definition schedule_backup_propose (height : Height) (id : TimerId) (t : MacroTimerBook) :=
  t <| backup_by_height ::= <[height := id]> |>.
Definition backup_timer_for (t : MacroTimerBook) (height : Height) : option TimerId :=
  backup_by_height t !! height.
Definition clear_backup (height : Height) (t : MacroTimerBook) : MacroTimerBook :=
  t <| backup_by_height ::= delete height |>.
Definition schedule_mode_b_deadline (height : Height) (id : TimerId) (t : MacroTimerBook) :=
  t <| mode_b_by_height ::= <[height := id]> |>.
Definition mode_b_timer_for (t : MacroTimerBook) (height : Height) : option TimerId :=
  mode_b_by_height t !! height.
Definition clear_mode_b (height : Height) (t : MacroTimerBook) : MacroTimerBook :=
  t <| mode_b_by_height ::= delete height |>.

(** [iter().find_map(..)], by timer id. *)
Definition height_for_timer (m : gmap Z TimerId) (id : TimerId) : option Height :=
  (λ p : nat * (Z * TimerId), p.2.1) <$>
    list_find (λ kv : Z * TimerId, kv.2 = id) (map_to_list m).
Definition height_for_backup_timer (t : MacroTimerBook) (id : TimerId) : option Height :=
  height_for_timer (backup_by_height t) id.
Definition height_for_mode_b_timer (t : MacroTimerBook) (id : TimerId) : option Height :=
  height_for_timer (mode_b_by_height t) id.

Definition alloc_id `{Build} : M Error MacroTimerBook TimerId := zoom mt_seq allocate.

Definition backup_propose_action `{Build} (cfg : Config) (height : Height)
  : M Error MacroTimerBook Action :=
  id ← alloc_id;
  _ ← modify (schedule_backup_propose height id);
  mret (ScheduleTimer id (t_macropropose_ms (timing cfg) * 1000000)).

Definition mode_b_deadline_action `{Build} (cfg : Config) (height : Height)
  : M Error MacroTimerBook Action :=
  id ← alloc_id;
  _ ← modify (schedule_mode_b_deadline height id);
  mret (ScheduleTimer id (t_macropropose_ms (timing cfg) * 2000000)).

(** ** [window.rs]: the division panics when [macro_window_w] is zero. *)
Definition window_of_round (cfg : Config) (round : Round) : result Height :=
  let w := macro_window_w (macro_fin cfg) in
  if w =? 0 then Panic else Ok (round / w).

(** ** [checkpoint.rs] and [messages.rs] *)

Record Preimage := MkPreimage {
  pre_height : Z; pre_epoch : Z; pre_parent : bytes; pre_micro_root : bytes;
}.
Record VotePayload := MkVotePayload {
  vpl_source : Epoch; vpl_target : Epoch; vpl_checkpoint : Hash32;
}.

(** The [borsh] encoders the macro layer signs and hashes with. *)
Class MacroBorsh := {
  borsh_preimage :: Borsh Preimage;
  borsh_checkpoint :: Borsh MacroCheckpoint;
  borsh_vote :: Borsh VotePayload;
}.

Definition build `{Primitives, MacroBorsh} (height : Height) (epoch : Epoch)
    (parent micro_root : Hash32) : MacroCheckpoint :=
  let pre := MkPreimage height epoch (h32_bytes parent) (h32_bytes micro_root) in
  MkMacroCheckpoint height epoch parent micro_root
    (blake3_with_dst dst.MACRO_CHECKPOINT (to_vec pre)).

Definition partial_message (validator : ValidatorId) (checkpoint_hash : Hash32) : bytes :=
  vid_bytes validator ++ h32_bytes checkpoint_hash.
Definition proposer_message (proposer : ValidatorId) (checkpoint : MacroCheckpoint) : bytes :=
  vid_bytes proposer ++ h32_bytes (mc_hash checkpoint).
Definition checkpoint_message `{MacroBorsh} (cp : MacroCheckpoint) : bytes := to_vec cp.
Definition vote_message `{MacroBorsh} (r : VoteRecord) : bytes :=
  to_vec (MkVotePayload (vr_source r) (vr_target r) (vr_checkpoint r)).

(** ** [book.rs] *)

Record MacroBook := MkMacroBook {
  mb_self_id : ValidatorId;
  micro_ring : list Hash32;
  next_height : Height;
  last_macro_hash : Hash32;
  candidate : gmap Z MacroCheckpoint;
  candidate_beacon : gmap Z Hash32;
  partials : gmap Hash32 (gset ValidatorId);
  emitted_macro_qc : gset Hash32;
  two_chain : TwoChainRule;
  locks : LockMacro;
  suppressed_conflicts : Z;
  proposal_seen : gset Z;
  mode_b_active : gset Z;
  reputation : gmap ValidatorId Reputation;
  mb_timers : MacroTimerBook;
  subnet_aggs : gmap Hash32 (gmap SubnetId SubnetAggregate);
  subnet_partials : gmap (Hash32 * SubnetId) (gset ValidatorId);
  votes : VoteBook;
  partial_sigs : gmap (Hash32 * ValidatorId) BlsSig;
  mb_proposals_seen : gmap (Z * ValidatorId) (list MacroProposal);
  mb_rejected_crypto : Z;
  unfinalized_windows : Z;
  leak_notified : bool;
}.
#[global] Instance MacroBook_eta : Settable MacroBook := λ b,
  MkMacroBook (mb_self_id b) (micro_ring b) (next_height b) (last_macro_hash b) (candidate b)
    (candidate_beacon b) (partials b) (emitted_macro_qc b) (two_chain b) (locks b)
    (suppressed_conflicts b) (proposal_seen b) (mode_b_active b) (reputation b) (mb_timers b)
    (subnet_aggs b) (subnet_partials b) (votes b) (partial_sigs b) (mb_proposals_seen b)
    (mb_rejected_crypto b) (unfinalized_windows b) (leak_notified b).

Definition MacroBook_new (self_id : ValidatorId) : MacroBook :=
  MkMacroBook self_id [] 0 Hash32_zero ∅ ∅ ∅ ∅ TwoChainRule_default LockMacro_new 0 ∅ ∅ ∅
    MacroTimerBook_new ∅ ∅ VoteBook_new ∅ ∅ 0 0 false.

Definition emitted_macro_qc_count (b : MacroBook) : nat := size (emitted_macro_qc b).

Definition micro_root_of_ring `{Primitives} (ring : list Hash32) : Hash32 :=
  blake3_with_dst dst.MACRO_MICRO_ROOT (mjoin (h32_bytes <$> ring)).
Definition fixture_partial_sig `{Primitives} (validator : ValidatorId) (checkpoint_hash : Hash32)
  : BlsSig :=
  MkBlsSig (fixture_bls_sig dst.VALIDATOR_BLS_PARTIAL
              [vid_bytes validator; h32_bytes checkpoint_hash]).
Definition fixture_proposer_sig `{Primitives} (proposer : ValidatorId) (checkpoint_hash : Hash32)
  : BlsSig :=
  MkBlsSig (fixture_bls_sig dst.MACRO_PROPOSER_SIG
              [vid_bytes proposer; h32_bytes checkpoint_hash]).

(** ** Locks *)

(** The requests of a run of [try_lock], and which of them were granted. *)
Record lock_request := MkLockRequest {
  lr_validator : ValidatorId; lr_height : Height; lr_checkpoint : Hash32;
}.
#[global] Instance lock_request_eq_dec : EqDecision lock_request.
Proof. solve_decision. Defined.

Fixpoint lock_run (rs : list lock_request) (l : LockMacro) : list lock_request * LockMacro :=
  match rs with
  | [] => ([], l)
  | r :: rs =>
      let '(res, l') := try_lock (lr_validator r) (lr_height r) (lr_checkpoint r) l in
      let '(granted, l'') := lock_run rs l' in
      (if is_ok res then r :: granted else granted, l'')
  end.

Lemma try_lock_cases v h c l :
  (∃ prev, lm_locks l !! v = Some (h, prev) ∧ prev ≠ c ∧
     try_lock v h c l = (Err LOCK_CONFLICT, l)) ∨
  ((∀ prev, lm_locks l !! v = Some (h, prev) → prev = c) ∧
   try_lock v h c l = (Ok tt, MkLockMacro (<[v := (h, c)]> (lm_locks l)))).
Proof.
  unfold try_lock, mbind, M_bind, gets, lift, modify.
  destruct (lm_locks l !! v) as [[h' prev]|] eqn:Hl.
  - destruct (decide (h' = h ∧ prev ≠ c)) as [[-> Hne]|Hn].
    + left. exists prev. rewrite !bool_decide_eq_true_2 by done. done.
    + right. split.
      * intros prev' [= -> ->]. destruct (decide (prev' = c)); [done|]. by destruct Hn.
      * destruct (bool_decide (h' = h) && bool_decide (prev ≠ c)) eqn:Hb; [|done].
        apply andb_true_iff in Hb as [?%bool_decide_eq_true ?%bool_decide_eq_true].
        by destruct Hn.
  - right. split; [done|]. done.
Qed.

(** Each validator's requests come in non-decreasing order of height. *)
Definition heights_up (a b : lock_request) : Prop :=
  lr_validator a = lr_validator b → lr_height a ≤ lr_height b.

Lemma lock_run_granted rs l r : r ∈ (lock_run rs l).1 → r ∈ rs.
Proof.
  revert l. induction rs as [|q rs IH]; intros l; cbn [lock_run]; [done|].
  destruct (try_lock _ _ _ l) as [res l1]. specialize (IH l1).
  destruct (lock_run rs l1) as [g l2]. cbn in *.
  destruct (is_ok res); rewrite ?elem_of_cons; naive_solver.
Qed.

(** Once locked at [(h, c)], a validator whose requests never go below [h] is
    granted nothing else at [h]. *)
Lemma lock_run_locked v h c rs l :
  lm_locks l !! v = Some (h, c) → StronglySorted heights_up rs →
  (∀ r, r ∈ rs → lr_validator r = v → h ≤ lr_height r) →
  ∀ r, r ∈ (lock_run rs l).1 → lr_validator r = v → lr_height r = h → lr_checkpoint r = c.
Proof.
  revert l. induction rs as [|q rs IH]; intros l Hl Hs Hh r; cbn [lock_run].
  { by intros ?%elem_of_nil. }
  apply StronglySorted_inv in Hs as [Hs Hq]. rewrite Forall_forall in Hq.
  assert (Hh' : ∀ r, r ∈ rs → lr_validator r = v → h ≤ lr_height r)
    by (intros; apply Hh; [by right|done]).
  destruct (try_lock_cases (lr_validator q) (lr_height q) (lr_checkpoint q) l)
    as [(prev & Hp & Hne & ->)|[Hp ->]].
  { specialize (IH l Hl Hs Hh' r). destruct (lock_run rs l). by cbn. }
  set (l' := MkLockMacro _). specialize (IH l').
  pose proof (lock_run_granted rs l' r) as Hsub.
  destruct (lock_run rs l') as [g l'']. cbn in *.
  destruct (decide (lr_validator q = v)) as [Hv|Hv].
  - rewrite Hv in Hp. intros [->|Hr]%elem_of_cons Hrv Hrh.
    { symmetry. apply Hp. by rewrite Hrh. }
    destruct (decide (lr_height q = h)) as [Heq|Hne].
    + apply IH; [|done..]. rewrite Hv, Heq, lookup_insert_eq. do 2 f_equal.
      rewrite <- Heq in Hl. symmetry. by apply Hp.
    + specialize (Hq r (Hsub Hr)). specialize (Hh q (list_elem_of_here _ _) Hv).
      unfold heights_up in Hq. rewrite Hv, Hrv in Hq. specialize (Hq eq_refl). lia.
  - intros [->|Hr]%elem_of_cons Hrv Hrh; [done|].
    apply IH; [|done..]. by rewrite lookup_insert_ne.
Qed.

Lemma lock_run_safe rs l :
  StronglySorted heights_up rs →
  ∀ r r', r ∈ (lock_run rs l).1 → r' ∈ (lock_run rs l).1 →
    lr_validator r = lr_validator r' → lr_height r = lr_height r' →
    lr_checkpoint r = lr_checkpoint r'.
Proof.
  revert l. induction rs as [|q rs IH]; intros l Hs r r'; cbn [lock_run].
  { by intros ?%elem_of_nil. }
  apply StronglySorted_inv in Hs as [Hs Hq]. rewrite Forall_forall in Hq.
  destruct (try_lock_cases (lr_validator q) (lr_height q) (lr_checkpoint q) l)
    as [(prev & Hp & Hne & ->)|[Hp ->]].
  { specialize (IH l Hs r r'). destruct (lock_run rs l). by cbn. }
  set (l' := MkLockMacro _). specialize (IH l' Hs).
  assert (Hlock : ∀ x, x ∈ (lock_run rs l').1 → lr_validator x = lr_validator q →
    lr_height x = lr_height q → lr_checkpoint x = lr_checkpoint q).
  { intros x Hx Hv Hh. apply (lock_run_locked (lr_validator q) (lr_height q) _ rs l');
      [by apply lookup_insert_eq|done| |done..].
    intros y Hy Hyv. apply Hq; [done|by rewrite Hyv]. }
  destruct (lock_run rs l') as [g l'']. cbn in *.
  intros [->|Hr]%elem_of_cons [->|Hr']%elem_of_cons Hv Hh; [done|..|by apply IH].
  - symmetry. by apply Hlock.
  - by apply Hlock.
Qed.

(** ** The two-chain rule *)

Record two_chain_wf (t : TwoChainRule) : Prop := {
  tw_key h cp : adopted t !! h = Some cp → mc_height cp = h ∧ 0 ≤ h;
  tw_head x : justified_head t = Some x → ∃ h cp, adopted t !! h = Some cp ∧ mc_hash cp = x;
}.

Lemma two_chain_wf_default : two_chain_wf TwoChainRule_default.
Proof. split; cbn; [intros h cp; by rewrite lookup_empty|done]. Qed.

Lemma adopt_wf cp t : 0 ≤ mc_height cp → two_chain_wf t → two_chain_wf (adopt cp t).
Proof.
  intros Hpos [Hk Hh]. unfold adopt.
  set (entry := default cp (adopted t !! mc_height cp)).
  assert (Hentry : mc_height entry = mc_height cp).
  { subst entry. destruct (adopted t !! mc_height cp) as [e|] eqn:He; [|done].
    by apply Hk in He as [? _]. }
  assert (Hkeys : ∀ h c, <[mc_height cp := entry]> (adopted t) !! h = Some c →
                         mc_height c = h ∧ 0 ≤ h).
  { intros h c [[<- <-]|[_ ?%Hk]]%lookup_insert_Some; [by split|done]. }
  assert (Hin : <[mc_height cp := entry]> (adopted t) !! mc_height cp = Some entry)
    by apply lookup_insert_eq.
  case_bool_decide as He; (split; cbn; [done|]).
  - intros x [= <-]. eauto.
  - intros x Hx. destruct (Hh x Hx) as (h & c & Hc & Hcx).
    destruct (decide (h = mc_height cp)) as [->|Hne].
    + exists (mc_height cp), entry. split; [done|]. subst entry. by rewrite Hc.
    + exists h, c. split; [|done]. rewrite <- Hc. apply lookup_insert_ne. congruence.
Qed.

Lemma mark_finalized_wf prev t : two_chain_wf t → two_chain_wf (mark_finalized prev t).
Proof. intros [Hk Hh]. unfold mark_finalized. destruct (adopted t !! prev); by split. Qed.

(** Adopting never drops or replaces a checkpoint. *)
Lemma adopt_lookup cp t h :
  adopted (adopt cp t) !! h =
  (if decide (h = mc_height cp) then Some (default cp (adopted t !! h)) else adopted t !! h).
Proof.
  unfold adopt. set (entry := default cp _).
  assert (Hl : ∀ b : bool, adopted (if b
      then t <| adopted ::= <[mc_height cp := entry]> |> <| justified_head := Some (mc_hash cp) |>
      else t <| adopted ::= <[mc_height cp := entry]> |>) !! h =
      <[mc_height cp := entry]> (adopted t) !! h) by by intros [].
  rewrite Hl. case_decide as Hd.
  - subst h. apply lookup_insert_eq.
  - by apply lookup_insert_ne.
Qed.

Lemma adopt_finalized cp t : finalized_head (adopt cp t) = finalized_head t.
Proof. unfold adopt. by case_bool_decide. Qed.

Lemma justified_head_height_Some t h :
  justified_head_height t = Some h →
  ∃ cp, adopted t !! h = Some cp ∧ justified_head t = Some (mc_hash cp).
Proof.
  unfold justified_head_height. intros (x & Hx & Hf)%bind_Some.
  apply fmap_Some in Hf as ([i [h' cp]] & (Hl & Hc & _)%list_find_Some & ->).
  exists cp. split; [|by rewrite Hx, <- Hc].
  apply elem_of_btree_entries, elem_of_reverse. by eapply list_elem_of_lookup_2.
Qed.

Lemma justified_head_height_is_Some t x h cp :
  justified_head t = Some x → adopted t !! h = Some cp → mc_hash cp = x →
  is_Some (justified_head_height t).
Proof.
  intros Hx Hcp Hh. unfold justified_head_height. rewrite Hx. cbn. apply fmap_is_Some.
  apply (list_find_elem_of _ _ (h, cp)); [|exact Hh]. by apply elem_of_reverse, elem_of_btree_entries.
Qed.

(** The finality condition, read off the adopted checkpoints. *)
Lemma adopted_adopt cp t :
  adopted (adopt cp t) = <[mc_height cp := default cp (adopted t !! mc_height cp)]> (adopted t).
Proof. unfold adopt. by case_bool_decide. Qed.
Lemma finalized_head_adopt cp t : finalized_head (adopt cp t) = finalized_head t.
Proof. unfold adopt. by case_bool_decide. Qed.
Lemma adopted_mark prev t : adopted (mark_finalized prev t) = adopted t.
Proof. unfold mark_finalized. by destruct (adopted t !! prev). Qed.

Definition links (t : TwoChainRule) (prev : Z) (prev_cp head_cp : MacroCheckpoint) : Prop :=
  adopted t !! prev = Some prev_cp ∧ adopted t !! (prev + 1) = Some head_cp ∧
  justified_head t = Some (mc_hash head_cp) ∧ mc_parent head_cp = mc_hash prev_cp ∧
  finalized_head t ≠ Some (mc_hash prev_cp).

Lemma newly_finalized_links t prev :
  newly_finalized_height t = Some prev → ∃ prev_cp head_cp, links t prev prev_cp head_cp.
Proof.
  unfold newly_finalized_height. intros (head & Hh & Hp)%bind_Some.
  apply justified_head_height_Some in Hh as (cp & Hcp & Hj).
  destruct (head =? 0); [done|]. cbn in Hp.
  apply bind_Some in Hp as (head_cp & Hhc & Hp). apply bind_Some in Hp as (prev_cp & Hpc & Hp).
  destruct (_ && _) eqn:Hb; [|done]. injection Hp as <-.
  apply andb_true_iff in Hb as [Hlink%bool_decide_eq_true Hfin%bool_decide_eq_true].
  exists prev_cp, head_cp. unfold links. replace (head - 1 + 1) with head by lia.
  assert (cp = head_cp) as -> by congruence. done.
Qed.

Lemma links_newly_finalized t prev prev_cp head_cp :
  two_chain_wf t → links t prev prev_cp head_cp →
  (∀ h h' c c', adopted t !! h = Some c → adopted t !! h' = Some c' →
     mc_hash c = mc_hash c' → h = h') →
  newly_finalized_height t = Some prev.
Proof.
  intros Hwf (Hp & Hhd & Hj & Hlink & Hfin) Hinj. unfold newly_finalized_height.
  destruct (justified_head_height_is_Some t _ _ _ Hj Hhd eq_refl) as [h Hh]. rewrite Hh.
  apply justified_head_height_Some in Hh as (cp & Hcp & Hjc).
  assert (h = prev + 1) as -> by (eapply Hinj; [done..|congruence]).
  destruct (tw_key _ Hwf _ _ Hp). cbn.
  replace (prev + 1 =? 0) with false by (symmetry; apply Z.eqb_neq; lia). cbn.
  rewrite Hhd. cbn. replace (prev + 1 - 1) with prev by lia. rewrite Hp. cbn.
  by rewrite !bool_decide_eq_true_2.
Qed.

(** ** Properties *)

(** Locks prevent double finalization votes: along any run of lock requests
    in which each validator's heights never decrease, a validator is granted at
    most one checkpoint per height. *)
Theorem lock_macro_safe rs l r r' :
  StronglySorted heights_up rs →
  r ∈ (lock_run rs l).1 → r' ∈ (lock_run rs l).1 →
  lr_validator r = lr_validator r' → lr_height r = lr_height r' →
  lr_checkpoint r = lr_checkpoint r'.
Proof. intros Hs Hr Hr'. by apply (lock_run_safe rs l). Qed.

Definition toy_lock (h c : Z) : lock_request := MkLockRequest (toy_id 1) h (MkHash32 [c]).
Definition toy_locks : list lock_request :=
  [toy_lock 1 5; toy_lock 1 6; toy_lock 1 5; toy_lock 2 7].

Lemma lock_macro_safe_witness :
  lr_checkpoint (toy_lock 1 5) = lr_checkpoint (toy_lock 1 5).
Proof.
  apply (lock_macro_safe toy_locks LockMacro_new); try vdecide; try reflexivity.
Defined.

(** The lock of [lock_macro.rs] is only the latest one: a validator that
    locks a height, locks the next one and comes back to the first is granted a
    conflicting checkpoint there. *)
Theorem lock_macro_forgets v h c c' d :
  c ≠ c' →
  (lock_run [MkLockRequest v h c; MkLockRequest v (h + 1) d; MkLockRequest v h c']
     LockMacro_new).1 =
  [MkLockRequest v h c; MkLockRequest v (h + 1) d; MkLockRequest v h c'].
Proof.
  intros Hc. cbn [lock_run lr_validator lr_height lr_checkpoint].
  destruct (try_lock_cases v h c LockMacro_new) as [(p & Hp & _)|[_ ->]].
  { cbn in Hp. by rewrite lookup_empty in Hp. }
  cbn [is_ok]. set (l1 := MkLockMacro _).
  destruct (try_lock_cases v (h + 1) d l1) as [(p & Hp & _)|[_ ->]].
  { cbn in Hp. rewrite lookup_insert_eq in Hp. injection Hp as ? _. lia. }
  set (l2 := MkLockMacro _).
  destruct (try_lock_cases v h c' l2) as [(p & Hp & _)|[_ ->]]; [|done].
  cbn in Hp. rewrite lookup_insert_eq in Hp. injection Hp as ? _. lia.
Qed.

Lemma lock_macro_forgets_witness :
  (lock_run [MkLockRequest (toy_id 1) 1 (MkHash32 [5]);
             MkLockRequest (toy_id 1) (1 + 1) (MkHash32 [7]);
             MkLockRequest (toy_id 1) 1 (MkHash32 [6])] LockMacro_new).1 =
  [MkLockRequest (toy_id 1) 1 (MkHash32 [5]);
   MkLockRequest (toy_id 1) (1 + 1) (MkHash32 [7]);
   MkLockRequest (toy_id 1) 1 (MkHash32 [6])].
Proof. apply lock_macro_forgets. discriminate. Defined.

(** The two-chain rule: over checkpoints with distinct hashes, a height is
    newly finalized exactly when the justified head sits at the next height and
    names its checkpoint as parent, and it was not the finalized head already. *)
Theorem newly_finalized_spec t prev :
  two_chain_wf t →
  (∀ h h' c c', adopted t !! h = Some c → adopted t !! h' = Some c' →
     mc_hash c = mc_hash c' → h = h') →
  newly_finalized_height t = Some prev ↔
  ∃ prev_cp head_cp,
    adopted t !! prev = Some prev_cp ∧ adopted t !! (prev + 1) = Some head_cp ∧
    justified_head t = Some (mc_hash head_cp) ∧ mc_parent head_cp = mc_hash prev_cp ∧
    finalized_head t ≠ Some (mc_hash prev_cp).
Proof.
  intros Hwf Hinj. split.
  - apply newly_finalized_links.
  - intros (prev_cp & head_cp & Hl). by apply (links_newly_finalized t prev prev_cp head_cp).
Qed.

Definition toy_cp (h parent hash : Z) : MacroCheckpoint :=
  MkMacroCheckpoint h 0 (MkHash32 [parent]) (MkHash32 [0]) (MkHash32 [hash]).
Definition toy_chain : TwoChainRule :=
  adopt (toy_cp 1 10 11) (adopt (toy_cp 0 0 10) TwoChainRule_default).

Lemma newly_finalized_spec_witness :
  newly_finalized_height toy_chain = Some 0 ↔
  ∃ prev_cp head_cp,
    adopted toy_chain !! 0 = Some prev_cp ∧ adopted toy_chain !! (0 + 1) = Some head_cp ∧
    justified_head toy_chain = Some (mc_hash head_cp) ∧ mc_parent head_cp = mc_hash prev_cp ∧
    finalized_head toy_chain ≠ Some (mc_hash prev_cp).
Proof.
  apply newly_finalized_spec.
  - apply adopt_wf; [cbn; lia|]. apply adopt_wf; [cbn; lia|]. apply two_chain_wf_default.
  - intros h h' c c' Hc Hc' He.
    assert (Hm : map_Forall (λ h c, c = toy_cp 0 0 10 ∧ h = 0 ∨ c = toy_cp 1 10 11 ∧ h = 1)
      (adopted toy_chain)) by vdecide.
    destruct (Hm _ _ Hc) as [[-> ->]|[-> ->]], (Hm _ _ Hc') as [[-> ->]|[-> ->]]; done.
Defined.
