(* ===== verification/MacroAgg.v ===== *)
(** Aggregation and verification of macro certificates, and the proposer
    schedule: in [consensus::macro_fin] the files [aggregation/*.rs],
    [macro_qc.rs], [verify.rs] and [proposer.rs]. *)

From S2P Require Import Prelude Bytes Types Crypto Toy Config Leader Dag Linearize Bullshark.
From S2P Require Import MacroState.
Open Scope Z_scope.

(** ** [aggregation/mod.rs] and [aggregation/subnet.rs] *)

Record Ke := MkKe { ke_u32 : Z }.
#[global] Instance Ke_eq_dec : EqDecision Ke.
Proof. solve_decision. Defined.

(** [n.div_ceil(128)] *)
Definition div_ceil128 (n : Z) : Z := (n + 127) / 128.

Definition compute_ke (cfg : Config) (n_e : Z) : Ke :=
  match sim_force_ke (aggregation cfg) with
  | Some k => MkKe k
  | None =>
      if n_e <? subnet_flat_threshold (aggregation cfg) then MkKe 0
      else MkKe (Z.min (div_ceil128 n_e) 32)
  end.

Definition mode_a_active (ke : Ke) : bool := 4 <=? ke_u32 ke.

Definition select_mode (cfg : Config) (n_e : Z) : AggregationMode :=
  if mode_a_active (compute_ke cfg n_e) then ModeASubnet else Mode0Flat.

Record SubnetAssign := MkSubnetAssign { k_e : Ke; r_macro : Hash32 }.

Section aggregation.
Context `{Primitives, MacroBorsh}.

Definition index_for (assign : SubnetAssign) (validator : ValidatorId) : Z :=
  let h := blake3_with_dst dst.SUBNET_ASSIGN
             (vid_bytes validator ++ h32_bytes (r_macro assign)) in
  let n := of_be (take 4 (h32_bytes h)) in
  n `mod` Z.max (ke_u32 (k_e assign)) 1.

(** ** [aggregation/mode_a_subnet.rs] *)

(** The threshold of [macro_qc.rs] and [mode_a_subnet.rs] over [usize]. *)
Definition need_of (n : nat) : Z := 2 * ((n - 1) / 3) + 1.

(** The signature loop: entries in validator-set order, each signer's partial
    signature looked up with [?]. *)
Definition signer_sigs (target : Hash32) (partial_sigs : gmap (Hash32 * ValidatorId) BlsSig)
    (entries : list ValidatorEntry) : option (list BlsSig) :=
  mapM (λ e, partial_sigs !! (target, ve_id e)) entries.

(** [aggregate_sigs(&sigs).ok()?] *)
Definition aggregate_ok (sigs : list BlsSig) : option BlsSig :=
  match aggregate_sigs sigs with Ok a => Some a | _ => None end.

Definition subnet_members (assign : SubnetAssign) (subnet : SubnetId) (set : ValidatorSet)
  : list ValidatorEntry :=
  filter (λ e, index_for assign (ve_id e) = subnet_u32 subnet) (vs_entries set).

Definition try_build_aggregate (target : Hash32) (subnet : SubnetId)
    (signers : gset ValidatorId) (set : ValidatorSet) (assign : SubnetAssign)
    (partial_sigs : gmap (Hash32 * ValidatorId) BlsSig) : option SubnetAggregate :=
  let n := length (subnet_members assign subnet set) in
  if bool_decide (n = 0%nat) then None
  else if size signers <? need_of n then None
  else
    let bitmap := bitmap_of ((λ e, bool_decide (ve_id e ∈ signers)) <$> vs_entries set) in
    sigs ← signer_sigs target partial_sigs
             (filter (λ e, ve_id e ∈ signers) (vs_entries set));
    agg ← aggregate_ok sigs;
    Some (MkSubnetAggregate subnet target (MkBlsAggSig agg bitmap)).

(** [min_by_key(|e| e.id.as_bytes())]: the first minimum. *)
Definition keep_min (best : option ValidatorId) (id : ValidatorId) : option ValidatorId :=
  match best with
  | None => Some id
  | Some b => if bool_decide (klt id b) then Some id else Some b
  end.
Definition aggregator_for (subnet : SubnetId) (set : ValidatorSet) (assign : SubnetAssign)
  : option ValidatorId :=
  foldl keep_min None (ve_id <$> subnet_members assign subnet set).

(** The union of the aggregates' bitmaps over the positions of the set. *)
Definition union_bitmap (aggs : gmap SubnetId SubnetAggregate) (n : nat) : bytes :=
  bitmap_of ((λ i, existsb (λ a, get_bit (agg_bitmap (sa_agg a)) i)
                     ((map_to_list aggs).*2)) <$> seq 0 n).

Definition try_finalize_mode_a (target : Hash32) (aggs : gmap SubnetId SubnetAggregate)
    (set : ValidatorSet) (partial_sigs : gmap (Hash32 * ValidatorId) BlsSig)
  : option MacroQc :=
  let n := length (vs_entries set) in
  if bool_decide (n = 0%nat) then None
  else
    let bitmap := union_bitmap aggs n in
    if count_ones bitmap <? need_of n then None
    else
      sigs ← signer_sigs target partial_sigs
               ((filter (λ p : nat * ValidatorEntry, get_bit bitmap p.1 = true)
                  (imap pair (vs_entries set))).*2);
      agg ← aggregate_ok sigs;
      Some (MkMacroQc target ModeASubnet (MkBlsAggSig agg bitmap)).

(** ** [macro_qc.rs] *)

Definition try_finalize_mode0 (target : Hash32) (signers : gset ValidatorId)
    (partial_sigs : gmap (Hash32 * ValidatorId) BlsSig) (set : ValidatorSet)
    (checkpoint : MacroCheckpoint) : option MacroQc :=
  let n := length (vs_entries set) in
  if bool_decide (n = 0%nat) then None
  else if size signers <? need_of n then None
  else
    let bitmap := bitmap_of ((λ e, bool_decide (ve_id e ∈ signers)) <$> vs_entries set) in
    sigs ← signer_sigs target partial_sigs
             (filter (λ e, ve_id e ∈ signers) (vs_entries set));
    agg ← aggregate_ok sigs;
    Some (MkMacroQc target Mode0Flat (MkBlsAggSig agg bitmap)).

Definition try_finalize_mode_a_from_aggs (target : Hash32)
    (aggs : gmap SubnetId SubnetAggregate) (set : ValidatorSet)
    (partial_sigs : gmap (Hash32 * ValidatorId) BlsSig) : option MacroQc :=
  try_finalize_mode_a target aggs set partial_sigs.

Definition try_finalize_mode_b (target : Hash32) (signers : gset ValidatorId)
    (partial_sigs : gmap (Hash32 * ValidatorId) BlsSig) (set : ValidatorSet)
    (checkpoint : MacroCheckpoint) : option MacroQc :=
  qc ← try_finalize_mode0 target signers partial_sigs set checkpoint;
  Some (MkMacroQc (qc_checkpoint_hash qc) ModeBLeaderless (qc_agg qc)).

(** ** [aggregation/mode_b_leaderless.rs]: [max_by] keeps the last of equal maxima. *)
Definition canonical_cmp (a b : MacroQc) : comparison :=
  match Nat.compare (count_ones (agg_bitmap (qc_agg a))) (count_ones (agg_bitmap (qc_agg b))) with
  | Eq => bytes_cmp (agg_bitmap (qc_agg b)) (agg_bitmap (qc_agg a))
  | c => c
  end.
Definition keep_canonical (best : option MacroQc) (c : MacroQc) : option MacroQc :=
  match best with
  | None => Some c
  | Some b => if bool_decide (canonical_cmp b c = Gt) then Some b else Some c
  end.
Definition pick_canonical (candidates : list MacroQc) : option MacroQc :=
  foldl keep_canonical None candidates.

(** ** [verify.rs] *)

Definition pk_from_entry (entry : ValidatorEntry) : option blst_pk :=
  match PublicKey_from_bytes (ve_bls_pubkey entry) with Ok pk => Some pk | _ => None end.
Definition entry_for (set : ValidatorSet) (id : ValidatorId) : option ValidatorEntry :=
  snd <$> list_find (λ e, ve_id e = id) (vs_entries set).

Definition verify_partial (set : ValidatorSet) (bp : BlsPartial) (checkpoint : MacroCheckpoint)
  : bool :=
  if bool_decide (bp_checkpoint_hash bp ≠ mc_hash checkpoint) then false
  else
    match entry_for set (bp_validator bp) with
    | None => false
    | Some entry =>
        match pk_from_entry entry with
        | None => false
        | Some pk =>
            is_ok (verify pk dst.MACRO_CHECKPOINT (checkpoint_message checkpoint) (bp_sig bp))
        end
    end.

Definition verify_proposal (set : ValidatorSet) (p : MacroProposal) (vrf_alpha : bytes) : bool :=
  match entry_for set (mp_proposer p) with
  | None => false
  | Some entry =>
      match pk_from_entry entry with
      | None => false
      | Some pk =>
          let msg := proposer_message (mp_proposer p) (mp_checkpoint p) in
          if negb (is_ok (verify pk dst.MACRO_PROPOSER_SIG msg (mp_proposer_sig p))) then false
          else if negb (is_zero (ve_vrf_pubkey entry)) &&
                  negb (ecvrf_verify_ok (vpk_bytes (ve_vrf_pubkey entry)) vrf_alpha
                          (mp_vrf_proof p))
          then false else true
      end
  end.

(** The loop of [verify_subnet_agg]: [None] is its [return false]. *)
Fixpoint subnet_agg_pks (agg : SubnetAggregate) (msg : bytes)
    (partial_sigs : gmap (Hash32 * ValidatorId) BlsSig) (i : nat)
    (entries : list ValidatorEntry) : option (list blst_pk) :=
  match entries with
  | [] => Some []
  | entry :: entries =>
      if negb (get_bit (agg_bitmap (sa_agg agg)) i)
      then subnet_agg_pks agg msg partial_sigs (S i) entries
      else
        pk ← pk_from_entry entry;
        sig ← partial_sigs !! (sa_checkpoint_hash agg, ve_id entry);
        if negb (is_ok (verify pk dst.MACRO_CHECKPOINT msg sig)) then None
        else cons pk <$> subnet_agg_pks agg msg partial_sigs (S i) entries
  end.

Definition verify_subnet_agg (set : ValidatorSet) (agg : SubnetAggregate)
    (checkpoint : MacroCheckpoint) (partial_sigs : gmap (Hash32 * ValidatorId) BlsSig) : bool :=
  let msg := checkpoint_message checkpoint in
  match subnet_agg_pks agg msg partial_sigs 0 (vs_entries set) with
  | None => false
  | Some pks =>
      if bool_decide (length pks = 0%nat) then false
      else is_ok (verify_aggregate pks dst.MACRO_CHECKPOINT msg (agg_sig (sa_agg agg)))
  end.

(** The loop of [verify_macro_qc] *)
Fixpoint qc_pks (bitmap : bytes) (i : nat) (entries : list ValidatorEntry)
  : option (list blst_pk) :=
  match entries with
  | [] => Some []
  | entry :: entries =>
      if get_bit bitmap i
      then pk ← pk_from_entry entry; cons pk <$> qc_pks bitmap (S i) entries
      else qc_pks bitmap (S i) entries
  end.

Definition verify_macro_qc (set : ValidatorSet) (qc : MacroQc) (checkpoint : MacroCheckpoint)
  : bool :=
  if bool_decide (qc_checkpoint_hash qc ≠ mc_hash checkpoint) then false
  else
    let msg := checkpoint_message checkpoint in
    match qc_pks (agg_bitmap (qc_agg qc)) 0 (vs_entries set) with
    | None => false
    | Some pks =>
        if bool_decide (length pks = 0%nat) then false
        else is_ok (verify_aggregate pks dst.MACRO_CHECKPOINT msg (agg_sig (qc_agg qc)))
    end.

Definition pubkeys_for_signers (set : ValidatorSet) (signers : gset ValidatorId)
  : list blst_pk :=
  omap pk_from_entry (filter (λ e, ve_id e ∈ signers) (vs_entries set)).

(** ** [proposer.rs] *)

Record ProposerSchedule := MkProposerSchedule {
  ps_height : Height;
  ps_primary : ValidatorId;
  ps_backup : ValidatorId;
}.

Definition vrf_alpha (beacon : Hash32) (height : Height) (validator : ValidatorId) : bytes :=
  h32_bytes beacon ++ be_bytes 8 height ++ vid_bytes validator.
Definition macro_sortition_beta (beacon : Hash32) (height : Height) (validator : ValidatorId)
  : Hash32 :=
  blake3_with_dst dst.MACRO_PROPOSAL
    (h32_bytes beacon ++ be_bytes 8 height ++ vid_bytes validator).

(** [round_robin]: indexing into an empty set panics (the remainder is by
    zero). *)
Definition round_robin (set : ValidatorSet) (height : Height) : result ProposerSchedule :=
  let n := length (vs_entries set) in
  match entry_at set (height `mod` n), entry_at set ((height + 1) `mod` 2 ^ 64 `mod` n) with
  | Some p, Some b => Ok (MkProposerSchedule height (ve_id p) (ve_id b))
  | _, _ => Panic
  end.

Definition macro_score (beacon : Hash32) (set : ValidatorSet) (height : Height)
    (reputation : gmap ValidatorId Reputation) (e : ValidatorEntry) : f64 :=
  vrf_sortition_score (macro_sortition_beta beacon height (ve_id e)) (vs_total_stake set)
    (ve_stake e) (rep_f64 (default Reputation_neutral (reputation !! ve_id e))).

(** The comparator of [sort_by]. *)
Definition sched_cmp (a b : ValidatorId * f64) : comparison :=
  match default Eq (f64_partial_cmp a.2 b.2) with Eq => kcmp a.1 b.1 | c => c end.
Definition sched_le (a b : ValidatorId * f64) : Prop := sched_cmp a b ≠ Gt.
#[global] Instance sched_le_dec : RelDecision sched_le.
Proof. intros a b. unfold sched_le. apply _. Defined.

Definition macro_cands (beacon : Hash32) (set : ValidatorSet) (height : Height)
    (reputation : gmap ValidatorId Reputation) : list (ValidatorId * f64) :=
  (λ e, (ve_id e, macro_score beacon set height reputation e)) <$> vs_entries set.

Definition vrf_sortition (beacon : Hash32) (set : ValidatorSet) (height : Height)
    (reputation : gmap ValidatorId Reputation) : result ProposerSchedule :=
  match merge_sort sched_le (macro_cands beacon set height reputation) with
  | primary :: backup :: _ => Ok (MkProposerSchedule height primary.1 backup.1)
  | _ => Panic
  end.

Definition vrf_proof_for (beacon : Hash32) (height : Height) (proposer : ValidatorId)
  : VrfProof :=
  MkVrfProof (h32_bytes (macro_sortition_beta beacon height proposer) ++ replicate 48 0).
End aggregation.

(** ** Subnets *)

Lemma compute_ke_le cfg n_e :
  sim_force_ke (aggregation cfg) = None → 0 ≤ n_e → 0 ≤ ke_u32 (compute_ke cfg n_e) ≤ 32.
Proof.
  intros Hf Hn. unfold compute_ke, div_ceil128. rewrite Hf. destruct (_ <? _); cbn; [lia|].
  pose proof (Z.div_pos (n_e + 127) 128). lia.
Qed.

Lemma index_for_bound `{Primitives} assign v :
  0 ≤ index_for assign v < Z.max (ke_u32 (k_e assign)) 1.
Proof. unfold index_for. apply Z.mod_pos_bound. lia. Qed.

(** ** Certificates that an assembler builds *)

(** The entries whose position is set in a bitmap. *)
Definition marked (bitmap : bytes) (entries : list ValidatorEntry) : list ValidatorEntry :=
  (filter (λ p : nat * ValidatorEntry, get_bit bitmap p.1 = true) (imap pair entries)).*2.

Lemma filter_imap_shift {A} (bm : bytes) (i : nat) (l : list A) :
  (filter (λ p : nat * A, get_bit bm p.1 = true) (imap (λ j a, ((i + j)%nat, a)) l)).*2 =
  match l with
  | [] => []
  | a :: l =>
      (if get_bit bm i then [a] else []) ++
      (filter (λ p : nat * A, get_bit bm p.1 = true) (imap (λ j a, ((S i + j)%nat, a)) l)).*2
  end.
Proof.
  destruct l as [|a l]; [done|]. rewrite imap_cons, filter_cons. cbn [fst].
  rewrite Nat.add_0_r.
  assert (He : imap ((λ j a, ((i + j)%nat, a)) ∘ S) l = imap (λ j a, ((S i + j)%nat, a)) l).
  { apply imap_ext. intros j b _. cbn. f_equal. lia. }
  rewrite He. by destruct (get_bit bm i).
Qed.

Section certs.
Context `{Primitives, MacroBorsh}.

Lemma qc_pks_shift bitmap i entries :
  qc_pks bitmap i entries =
  mapM pk_from_entry ((filter (λ p : nat * ValidatorEntry, get_bit bitmap p.1 = true)
                         (imap (λ j e, ((i + j)%nat, e)) entries)).*2).
Proof.
  revert i. induction entries as [|e entries IH]; intros i; [done|].
  rewrite filter_imap_shift. cbn [qc_pks]. rewrite IH.
  destruct (get_bit bitmap i); [|done].
  cbn [app mapM]. destruct (pk_from_entry e); [|done]. cbn. by destruct (mapM _ _).
Qed.

Lemma qc_pks_marked bitmap entries :
  qc_pks bitmap 0 entries = mapM pk_from_entry (marked bitmap entries).
Proof. apply qc_pks_shift. Qed.

Lemma marked_bitmap_of (P : ValidatorEntry → Prop) `{∀ e, Decision (P e)} entries :
  marked (bitmap_of ((λ e, bool_decide (P e)) <$> entries)) entries = filter P entries.
Proof.
  unfold marked. set (bm := bitmap_of _).
  assert (Hb : ∀ j e, entries !! j = Some e → get_bit bm j = bool_decide (P e)).
  { intros j e He. subst bm. by rewrite get_bitmap_of, list_lookup_fmap, He. }
  revert Hb. generalize bm. clear bm.
  assert (Hgen : ∀ i bm, (∀ j e, entries !! j = Some e →
      get_bit bm (i + j)%nat = bool_decide (P e)) →
    (filter (λ p : nat * ValidatorEntry, get_bit bm p.1 = true)
       (imap (λ j e, ((i + j)%nat, e)) entries)).*2 = filter P entries).
  { induction entries as [|e entries IH]; intros i bm Hb; [done|].
    rewrite filter_imap_shift, IH.
    - specialize (Hb 0%nat e eq_refl). rewrite Nat.add_0_r in Hb.
      rewrite filter_cons, Hb.
      case_bool_decide; [by rewrite decide_True|by rewrite decide_False].
    - intros j e' He'. specialize (Hb (S j) e' He'). by rewrite Nat.add_succ_r in Hb. }
  intros bm Hb. apply (Hgen 0%nat bm Hb).
Qed.

(** The partial signatures a book holds for a checkpoint are valid. *)
Definition sigs_valid (set : ValidatorSet) (cp : MacroCheckpoint)
    (partial_sigs : gmap (Hash32 * ValidatorId) BlsSig) : Prop :=
  ∀ e sig, e ∈ vs_entries set → partial_sigs !! (mc_hash cp, ve_id e) = Some sig →
    ∃ pk, pk_from_entry e = Some pk ∧
          verify pk dst.MACRO_CHECKPOINT (checkpoint_message cp) sig = Ok tt.

Lemma signer_sigs_valid set cp ps es sigs :
  sigs_valid set cp ps → (∀ e, e ∈ es → e ∈ vs_entries set) →
  signer_sigs (mc_hash cp) ps es = Some sigs →
  ∃ pks, mapM pk_from_entry es = Some pks ∧
    Forall2 (λ pk sig, verify pk dst.MACRO_CHECKPOINT (checkpoint_message cp) sig = Ok tt)
      pks sigs.
Proof.
  intros Hv Hin Hs. apply mapM_Some_1 in Hs. revert Hin.
  induction Hs as [|e sig es sigs He _ IH]; intros Hin; [by exists []|].
  destruct IH as (pks & Hpks & Hall); [intros; apply Hin; by right|].
  destruct (Hv e sig) as (pk & Hpk & Hok); [apply Hin; by left|done|].
  exists (pk :: pks). split; [|by constructor]. cbn. by rewrite Hpk, Hpks.
Qed.

Lemma aggregate_ok_Some sigs agg : aggregate_ok sigs = Some agg ↔ aggregate_sigs sigs = Ok agg.
Proof. unfold aggregate_ok. destruct (aggregate_sigs sigs); naive_solver. Qed.

Lemma built_qc_verifies `{!BlsLaws} set cp ps bitmap sigs agg mode :
  sigs_valid set cp ps →
  signer_sigs (mc_hash cp) ps (marked bitmap (vs_entries set)) = Some sigs →
  aggregate_ok sigs = Some agg →
  verify_macro_qc set (MkMacroQc (mc_hash cp) mode (MkBlsAggSig agg bitmap)) cp = true.
Proof.
  intros Hv Hs Ha%aggregate_ok_Some. unfold verify_macro_qc.
  cbn [qc_checkpoint_hash qc_agg agg_bitmap agg_sig].
  rewrite bool_decide_eq_false_2 by (intros Hn; by apply Hn).
  destruct (signer_sigs_valid set cp ps (marked bitmap (vs_entries set)) sigs)
    as (pks & Hpks & Hall); [done| |done|].
  { intros e. unfold marked. intros ([i e'] & -> & [_ Hl]%list_elem_of_filter)%list_elem_of_fmap.
    apply elem_of_lookup_imap in Hl as (j & x & [= -> ->] & Hx).
    by eapply list_elem_of_lookup_2. }
  rewrite qc_pks_marked, Hpks.
  assert (Hne : length pks ≠ 0%nat).
  { intros Hl. destruct pks; [|done]. apply Forall2_nil_inv_l in Hall as ->. done. }
  rewrite bool_decide_eq_false_2 by done.
  by rewrite (aggregate_sigs_verifies pks sigs _ _ agg Hall Ha).
Qed.

(** The members of [signers] that are validators. *)
Lemma count_signers set (signers : gset ValidatorId) :
  NoDup (ve_id <$> vs_entries set) →
  (∀ v, v ∈ signers → v ∈ ve_id <$> vs_entries set) →
  count_ones (bitmap_of ((λ e, bool_decide (ve_id e ∈ signers)) <$> vs_entries set)) =
  size signers.
Proof.
  intros Hnd Hall. rewrite count_ones_bitmap_of, filter_fmap_list, length_fmap.
  assert (Hf : filter (λ e, bool_decide (ve_id e ∈ signers) = true) (vs_entries set) =
               filter (λ e, ve_id e ∈ signers) (vs_entries set)).
  { apply list_filter_ext. intros e _. apply bool_decide_eq_true. }
  rewrite Hf, <- (length_fmap ve_id), <- (size_list_to_set (C := gset ValidatorId)).
  - f_equal. apply set_eq. intros a. rewrite elem_of_list_to_set, list_elem_of_fmap.
    setoid_rewrite list_elem_of_filter. split; [by intros (e & -> & ? & ?)|].
    intros Ha. specialize (Hall a Ha). apply list_elem_of_fmap in Hall as (e & -> & He). eauto.
  - pose proof (NoDup_filter (λ x, x ∈ signers) _ Hnd) as Hn. by rewrite filter_fmap_list in Hn.
Qed.

Lemma try_finalize_mode0_Some target signers ps set cp qc :
  try_finalize_mode0 target signers ps set cp = Some qc →
  need_of (length (vs_entries set)) ≤ size signers ∧ vs_entries set ≠ [] ∧
  ∃ sigs agg,
    signer_sigs target ps (filter (λ e, ve_id e ∈ signers) (vs_entries set)) = Some sigs ∧
    aggregate_ok sigs = Some agg ∧
    qc = MkMacroQc target Mode0Flat (MkBlsAggSig agg
           (bitmap_of ((λ e, bool_decide (ve_id e ∈ signers)) <$> vs_entries set))).
Proof.
  unfold try_finalize_mode0. case_bool_decide as Hn; [done|].
  destruct (Z.ltb_spec (size signers) (need_of (length (vs_entries set)))); [done|].
  intros (sigs & Hs & (agg & Ha & [= <-])%bind_Some)%bind_Some.
  split; [done|]. split; [intros He; apply Hn; by rewrite He|]. eauto.
Qed.

Lemma try_finalize_mode_a_Some target aggs set ps qc :
  try_finalize_mode_a target aggs set ps = Some qc →
  need_of (length (vs_entries set)) ≤ count_ones (agg_bitmap (qc_agg qc)) ∧
  ∃ sigs agg,
    let bitmap := union_bitmap aggs (length (vs_entries set)) in
    signer_sigs target ps (marked bitmap (vs_entries set)) = Some sigs ∧
    aggregate_ok sigs = Some agg ∧
    qc = MkMacroQc target ModeASubnet (MkBlsAggSig agg bitmap).
Proof.
  unfold try_finalize_mode_a. case_bool_decide as Hn; [done|].
  set (bitmap := union_bitmap _ _).
  destruct (Z.ltb_spec (count_ones bitmap) (need_of (length (vs_entries set)))); [done|].
  intros (sigs & Hs & (agg & Ha & [= <-])%bind_Some)%bind_Some. split; [done|]. eauto.
Qed.
End certs.

Lemma need_of_threshold n : n ≠ 0%nat → need_of n = quorum_threshold n.
Proof.
  intros. unfold need_of, quorum_threshold, saturating_sub. by rewrite Z.max_l by lia.
Qed.

(** ** The schedule *)

Section sched.
Lemma sched_cmp_antisym a b : sched_cmp b a = CompOpp (sched_cmp a b).
Proof.
  unfold sched_cmp, f64_partial_cmp. rewrite !SFcompare_key.
  destruct (f64_key a.2) as [p|], (f64_key b.2) as [q|]; cbn [default from_option id];
    [|apply (kcmp_antisym (a.1) (b.1))..].
  rewrite (key_cmp_antisym p q). destruct (key_cmp p q); cbn [CompOpp]; [|done..].
  apply (kcmp_antisym (a.1) (b.1)).
Qed.

#[global] Instance sched_le_total : Total sched_le.
Proof.
  intros a b. unfold sched_le. rewrite (sched_cmp_antisym a b).
  destruct (sched_cmp a b); cbn; auto.
Qed.

Lemma sched_le_cand a b : not_nan a.2 → not_nan b.2 → sched_le a b ↔ cand_le a b.
Proof.
  intros [p Hp]%f64_key_Some [q Hq]%f64_key_Some. rewrite (cand_le_key a b p q) by done.
  unfold sched_le, sched_cmp, f64_partial_cmp, kle. rewrite SFcompare_key, Hp, Hq. cbn.
  destruct (key_cmp p q); intuition congruence.
Qed.

Definition cands_ordered (l : list (ValidatorId * f64)) : Prop :=
  Forall (λ c, not_nan c.2) l.

Lemma merge_sort_cands l :
  cands_ordered l → StronglySorted sched_le (merge_sort sched_le l).
Proof.
  intros Ho. pose proof (Sorted_merge_sort sched_le l) as Hs.
  assert (Ho' : cands_ordered (merge_sort sched_le l))
    by (unfold cands_ordered; by rewrite merge_sort_Permutation).
  revert Hs Ho'. generalize (merge_sort sched_le l). clear.
  induction 1 as [|a l Hl IH Hhd]; intros Ho; [constructor|].
  apply Forall_cons in Ho as [Ha Ho]. specialize (IH Ho). constructor; [done|].
  destruct Hhd as [|b l Hab]; [constructor|]. constructor; [done|].
  apply StronglySorted_inv in IH as [_ Hb]. apply Forall_cons in Ho as [Hb' Ho].
  rewrite Forall_forall in Hb, Ho. apply Forall_forall. intros c Hc.
  apply sched_le_cand; [auto..|]. specialize (Ho c Hc). specialize (Hb c Hc).
  apply (cand_le_trans a b c); [done..| |]; by apply sched_le_cand.
Qed.

(** Sorting forgets the order in which the candidates were listed. *)
Lemma merge_sort_cands_perm l l' :
  cands_ordered l → NoDup l.*1 → l ≡ₚ l' → merge_sort sched_le l = merge_sort sched_le l'.
Proof.
  intros Ho Hnd Hp.
  assert (Ho' : cands_ordered l') by (unfold cands_ordered; by rewrite <- Hp).
  apply (StronglySorted_unique_strong sched_le); [|by apply merge_sort_cands..|].
  - intros c d Hc Hd Hcd Hdc. rewrite merge_sort_Permutation in Hc, Hd. rewrite <- Hp in Hd.
    unfold cands_ordered in Ho. rewrite Forall_forall in Ho.
    rewrite sched_le_cand in Hcd, Hdc by auto.
    assert (He : c.1 = d.1) by (apply cand_le_antisym; auto).
    apply list_elem_of_lookup in Hc as [i Hi], Hd as [j Hj].
    assert (i = j) as ->; [|congruence].
    eapply (NoDup_lookup l.*1); [done|rewrite list_lookup_fmap, Hi; done|].
    rewrite list_lookup_fmap, Hj. cbn. by f_equal.
  - by rewrite !merge_sort_Permutation.
Qed.
End sched.

Lemma vrf_sortition_Ok `{Primitives} beacon set height reps s :
  vrf_sortition beacon set height reps = Ok s →
  ∃ p b rest, merge_sort sched_le (macro_cands beacon set height reps) = p :: b :: rest ∧
    s = MkProposerSchedule height p.1 b.1.
Proof.
  unfold vrf_sortition. destruct (merge_sort _ _) as [|p [|b rest]]; [done..|].
  intros [= <-]. eauto.
Qed.

(** ** Canonical choice *)

Definition canonical_le (a b : MacroQc) : Prop := canonical_cmp a b ≠ Gt.

Lemma canonical_cmp_trans a b c : canonical_le a b → canonical_le b c → canonical_le a c.
Proof.
  unfold canonical_le, canonical_cmp.
  set (x := agg_bitmap (qc_agg a)). set (y := agg_bitmap (qc_agg b)).
  set (z := agg_bitmap (qc_agg c)). clearbody x y z.
  destruct (Nat.compare_spec (count_ones x) (count_ones y)),
    (Nat.compare_spec (count_ones y) (count_ones z)),
    (Nat.compare_spec (count_ones x) (count_ones z)); try done; try lia.
  intros Hxy Hyz. exact (transitivity (R := kle) (x := z) (y := y) (z := x) Hyz Hxy).
Qed.

Lemma canonical_le_refl a : canonical_le a a.
Proof.
  unfold canonical_le, canonical_cmp. rewrite Nat.compare_refl.
  exact (reflexivity (R := kle) (agg_bitmap (qc_agg a))).
Qed.

Lemma canonical_cmp_antisym a b : canonical_cmp b a = CompOpp (canonical_cmp a b).
Proof.
  unfold canonical_cmp.
  rewrite (Nat.compare_antisym (count_ones (agg_bitmap (qc_agg a)))).
  destruct (Nat.compare _ _); cbn [CompOpp]; [|done..].
  exact (kcmp_antisym (agg_bitmap (qc_agg b)) (agg_bitmap (qc_agg a))).
Qed.

Lemma canonical_le_total a b : ¬ canonical_le a b → canonical_le b a.
Proof.
  unfold canonical_le. rewrite canonical_cmp_antisym.
  destruct (canonical_cmp b a); cbn; naive_solver.
Qed.

Lemma foldl_keep_canonical best l r :
  foldl keep_canonical best l = Some r →
  (r ∈ l ∨ best = Some r) ∧ ∀ c, c ∈ l ∨ best = Some c → canonical_le c r.
Proof.
  revert best. induction l as [|c l IH]; intros best; cbn [foldl].
  { intros ->. split; [by right|]. intros c [?%elem_of_nil|[= ->]]; [done|].
    apply canonical_le_refl. }
  intros Hf. apply IH in Hf as [Hr Hmax].
  assert (Hstep : ∃ b, keep_canonical best c = Some b ∧ (b = c ∨ best = Some b) ∧
    canonical_le c b ∧ (∀ b', best = Some b' → canonical_le b' b)).
  { unfold keep_canonical. destruct best as [b|].
    - case_bool_decide as Hc.
      + exists b. split_and!; [done|by right| |intros ? [= ->]; apply canonical_le_refl].
        apply canonical_le_total. intros Hn. by apply Hn.
      + exists c. split_and!; [done|by left|apply canonical_le_refl|by intros ? [= ->]].
    - exists c. split_and!; [done|by left|apply canonical_le_refl|done]. }
  destruct Hstep as (b & Hb & Hin & Hcb & Hbb).
  assert (Hbr : canonical_le b r) by (apply Hmax; by right). split.
  - destruct Hr as [?|Hr]; [left; by right|]. rewrite Hb in Hr. injection Hr as <-.
    destruct Hin as [->|?]; [left; by left|by right].
  - intros c' [[->|?]%elem_of_cons|Hc'].
    + by apply (canonical_cmp_trans c b r).
    + apply Hmax. by left.
    + apply (canonical_cmp_trans c' b r); [by apply Hbb|done].
Qed.

(** ** Concrete validators and checkpoints *)

#[global] Instance toy_macro_borsh : MacroBorsh := {|
  borsh_preimage := λ p, pack [[pre_height p; pre_epoch p]; pre_parent p; pre_micro_root p];
  borsh_checkpoint := λ c, pack [[mc_height c; mc_epoch c]; h32_bytes (mc_parent c);
                                 h32_bytes (mc_micro_root c); h32_bytes (mc_hash c)];
  borsh_vote := λ v, pack [[vpl_source v; vpl_target v]; h32_bytes (vpl_checkpoint v)];
|}.

Definition toy_checkpoint : MacroCheckpoint := build 0 0 Hash32_zero (h_of 77).
Definition toy_partial (i : nat) (cp : MacroCheckpoint) : BlsSig :=
  sign (toy_key i) dst.MACRO_CHECKPOINT (checkpoint_message cp).
Definition toy_partials (cp : MacroCheckpoint) (l : list nat)
  : gmap (Hash32 * ValidatorId) BlsSig :=
  list_to_map ((λ i, ((mc_hash cp, toy_id i), toy_partial i cp)) <$> l).

Definition sigs_validb `{Primitives, MacroBorsh} (set : ValidatorSet) (cp : MacroCheckpoint)
    (ps : gmap (Hash32 * ValidatorId) BlsSig) : bool :=
  forallb (λ e, match ps !! (mc_hash cp, ve_id e), pk_from_entry e with
                | None, _ => true
                | Some sig, Some pk =>
                    is_ok (verify pk dst.MACRO_CHECKPOINT (checkpoint_message cp) sig)
                | Some _, None => false
                end) (vs_entries set).

Lemma sigs_validb_true `{Primitives, MacroBorsh} set cp ps :
  sigs_validb set cp ps = true → sigs_valid set cp ps.
Proof.
  unfold sigs_validb. rewrite forallb_forall. intros Hb e sig He%list_elem_of_In Hs.
  specialize (Hb e He). cbv beta in Hb. rewrite Hs in Hb.
  destruct (pk_from_entry e) as [pk|]; [|done]. exists pk. split; [done|].
  by apply is_ok_true in Hb as [[] ->].
Qed.

(** ** Properties *)

(** [C14] Whatever a node assembles, its peers accept: a macro certificate built
    in any of the three modes from valid partial signatures of validators
    verifies, and its bitmap counts at least [2f + 1] of them. *)
Theorem assembled_macro_qc_verifies `{Primitives, MacroBorsh, !BlsLaws}
    set cp ps signers aggs qc :
  sigs_valid set cp ps → NoDup (ve_id <$> vs_entries set) →
  (∀ v, v ∈ signers → v ∈ ve_id <$> vs_entries set) →
  try_finalize_mode0 (mc_hash cp) signers ps set cp = Some qc ∨
  try_finalize_mode_a_from_aggs (mc_hash cp) aggs set ps = Some qc ∨
  try_finalize_mode_b (mc_hash cp) signers ps set cp = Some qc →
  verify_macro_qc set qc cp = true ∧
  need_of (length (vs_entries set)) ≤ count_ones (agg_bitmap (qc_agg qc)).
Proof.
  intros Hv Hnd Hin Hqc.
  assert (Hm0 : ∀ mode qc, try_finalize_mode0 (mc_hash cp) signers ps set cp = Some qc →
    verify_macro_qc set (MkMacroQc (qc_checkpoint_hash qc) mode (qc_agg qc)) cp = true ∧
    need_of (length (vs_entries set)) ≤ count_ones (agg_bitmap (qc_agg qc))).
  { intros mode q (Hneed & _ & sigs & agg & Hs & Ha & ->)%try_finalize_mode0_Some.
    cbn [qc_checkpoint_hash qc_agg agg_bitmap]. split.
    - apply (built_qc_verifies set cp ps _ sigs agg); [done| |done].
      by rewrite marked_bitmap_of.
    - by rewrite count_signers. }
  destruct Hqc as [Hq|[Hq|Hq]].
  - pose proof Hq as Hq'. apply try_finalize_mode0_Some in Hq' as (_ & _ & s & a & _ & _ & ->).
    exact (Hm0 Mode0Flat _ Hq).
  - apply try_finalize_mode_a_Some in Hq as (Hneed & sigs & agg & Hs & Ha & ->). split; [|done].
    by apply (built_qc_verifies set cp ps _ sigs agg).
  - unfold try_finalize_mode_b in Hq. apply bind_Some in Hq as (q & Hq & [= <-]).
    exact (Hm0 ModeBLeaderless q Hq).
Qed.

Definition toy_signers : gset ValidatorId := list_to_set (toy_id <$> [0; 1; 3]%nat).
Definition toy_mode0_qc : MacroQc :=
  MkMacroQc (mc_hash toy_checkpoint) Mode0Flat
    (MkBlsAggSig (match aggregate_sigs ((λ i, toy_partial i toy_checkpoint) <$> [0; 1; 3]%nat) with
                  | Ok a => a | _ => MkBlsSig [] end) [11]).

Lemma assembled_macro_qc_verifies_witness :
  verify_macro_qc (toy_set 4) toy_mode0_qc toy_checkpoint = true ∧
  need_of 4 ≤ count_ones (agg_bitmap (qc_agg toy_mode0_qc)).
Proof.
  apply (assembled_macro_qc_verifies (toy_set 4) toy_checkpoint
    (toy_partials toy_checkpoint [0; 1; 3]%nat) toy_signers ∅).
  - apply sigs_validb_true. vm_compute. reflexivity.
  - vdecide.
  - assert (Hs : set_Forall (λ v, v ∈ ve_id <$> vs_entries (toy_set 4)) toy_signers) by vdecide.
    exact Hs.
  - left. vm_compute. reflexivity.
Defined.

(** [verify_macro_qc] does not check the size of the signer set: for any
    validator set, one validator's own signature over a checkpoint makes a
    macro certificate that every peer accepts. *)
Theorem verify_macro_qc_single_signer `{Primitives, MacroBorsh, !BlsLaws} set cp e pk sig agg mode :
  NoDup (ve_id <$> vs_entries set) → e ∈ vs_entries set → pk_from_entry e = Some pk →
  verify pk dst.MACRO_CHECKPOINT (checkpoint_message cp) sig = Ok tt →
  aggregate_sigs [sig] = Ok agg →
  let bitmap := bitmap_of ((λ e', bool_decide (ve_id e' ∈ ({[ve_id e]} : gset ValidatorId)))
                  <$> vs_entries set) in
  verify_macro_qc set (MkMacroQc (mc_hash cp) mode (MkBlsAggSig agg bitmap)) cp = true ∧
  count_ones bitmap = 1%nat.
Proof.
  intros Hnd He Hpk Hsig Hagg bitmap. split.
  - assert (Huniq : ∀ e', e' ∈ vs_entries set → ve_id e' = ve_id e → e' = e).
    { intros e' He' Hid. apply list_elem_of_lookup in He as [i Hi], He' as [j Hj].
      assert (j = i) as ->; [|congruence].
      eapply (NoDup_lookup (ve_id <$> vs_entries set)); [done|by rewrite list_lookup_fmap, Hj|].
      rewrite list_lookup_fmap, Hi. cbn. by f_equal. }
    apply (built_qc_verifies set cp {[ (mc_hash cp, ve_id e) := sig ]} _ [sig] agg).
    + intros e' s He' [[= Hid] <-]%lookup_singleton_Some.
      rewrite (Huniq e' He') by done. eauto.
    + subst bitmap. rewrite marked_bitmap_of.
      assert (Hf : filter (λ e', ve_id e' ∈ ({[ve_id e]} : gset ValidatorId)) (vs_entries set) = [e]).
      { apply list_elem_of_split in He as (l1 & l2 & Hl). rewrite Hl in Hnd, Huniq |- *.
        rewrite fmap_app in Hnd. apply NoDup_app in Hnd as (_ & Hd1 & Hd2).
        rewrite filter_app, filter_cons_True by by apply elem_of_singleton.
        apply NoDup_cons in Hd2 as [Hd2 _].
        rewrite !list_filter_none; [done| |].
        - intros x Hx ?%elem_of_singleton. apply Hd2. apply list_elem_of_fmap. eauto.
        - intros x Hx Heq%elem_of_singleton. apply (Hd1 (ve_id e)); [|by left].
          apply list_elem_of_fmap. eauto. }
      rewrite Hf. unfold signer_sigs. cbn [mapM]. by rewrite lookup_singleton_eq.
    + by apply aggregate_ok_Some.
  - subst bitmap. rewrite count_signers; [by rewrite size_singleton|done|].
    intros v ->%elem_of_singleton. apply list_elem_of_fmap. eauto.
Qed.

Definition toy_entry0 : ValidatorEntry :=
  MkValidatorEntry (toy_id 0) (MkBlsPubkey [toy_key 0]) VrfPubkey_zero 1
    (MkValidatorIdentity None None None).

Lemma verify_macro_qc_single_signer_witness :
  verify_macro_qc (toy_set 4) (MkMacroQc (mc_hash toy_checkpoint) Mode0Flat
    (MkBlsAggSig (toy_partial 0 toy_checkpoint)
      (bitmap_of ((λ e', bool_decide (ve_id e' ∈ ({[ve_id toy_entry0]} : gset ValidatorId)))
         <$> vs_entries (toy_set 4))))) toy_checkpoint = true ∧
  count_ones (bitmap_of ((λ e', bool_decide (ve_id e' ∈ ({[ve_id toy_entry0]} : gset ValidatorId)))
         <$> vs_entries (toy_set 4))) = 1%nat.
Proof.
  apply (@verify_macro_qc_single_signer toy _ _ (toy_set 4) toy_checkpoint toy_entry0 (toy_key 0)
    (toy_partial 0 toy_checkpoint)); try vdecide; vm_compute; reflexivity.
Defined.

(** The aggregation mode follows the set size: without the simulation
    override at most 32 subnets exist, Mode A runs exactly for sets of at least
    [subnet_flat_threshold] and more than 384 validators, and every validator
    is assigned an existing subnet. *)
Theorem select_mode_spec `{Primitives} cfg n_e beacon v :
  sim_force_ke (aggregation cfg) = None → 0 ≤ n_e →
  ke_u32 (compute_ke cfg n_e) ≤ 32 ∧
  (select_mode cfg n_e = ModeASubnet ↔
     subnet_flat_threshold (aggregation cfg) ≤ n_e ∧ 384 < n_e) ∧
  0 ≤ index_for (MkSubnetAssign (compute_ke cfg n_e) beacon) v
    < Z.max (ke_u32 (compute_ke cfg n_e)) 1.
Proof.
  intros Hf Hn. split; [by apply compute_ke_le|]. split; [|apply index_for_bound].
  unfold select_mode, mode_a_active, compute_ke, div_ceil128. rewrite Hf.
  destruct (Z.ltb_spec n_e (subnet_flat_threshold (aggregation cfg))); cbn.
  - split; [done|lia].
  - destruct (Z.leb_spec 4 (Z.min ((n_e + 127) / 128) 32)) as [Hl|Hl].
    + split; [|done]. intros _. split; [done|]. dlia.
    + split; [done|]. intros [_ Hgt]. exfalso. dlia.
Qed.

Lemma select_mode_spec_witness :
  ke_u32 (compute_ke default_table_17_1 500) ≤ 32 ∧
  (select_mode default_table_17_1 500 = ModeASubnet ↔
     subnet_flat_threshold (aggregation default_table_17_1) ≤ 500 ∧ 384 < 500) ∧
  0 ≤ index_for (MkSubnetAssign (compute_ke default_table_17_1 500) Hash32_zero) (toy_id 1)
    < Z.max (ke_u32 (compute_ke default_table_17_1 500)) 1.
Proof. apply (select_mode_spec default_table_17_1 500); [reflexivity|lia]. Defined.

(** Proposer schedules agree: nodes with the same beacon, reputations and
    validators (listed in any order) compute the same primary and backup; the
    two differ, and they are the two candidates of least (score, id). *)
Theorem vrf_sortition_agreement `{Primitives} beacon set set' height reps s s' :
  vrf_sortition beacon set height reps = Ok s →
  vrf_sortition beacon set' height reps = Ok s' →
  vs_entries set ≡ₚ vs_entries set' → vs_total_stake set = vs_total_stake set' →
  NoDup (ve_id <$> vs_entries set) →
  cands_ordered (macro_cands beacon set height reps) →
  s = s' ∧ ps_primary s ≠ ps_backup s ∧
  ∃ p b, p ∈ macro_cands beacon set height reps ∧ b ∈ macro_cands beacon set height reps ∧
    ps_primary s = p.1 ∧ ps_backup s = b.1 ∧
    ∀ c, c ∈ macro_cands beacon set height reps → sched_le p c ∧ (c ≠ p → sched_le b c).
Proof.
  intros (p & b & rest & Hm & ->)%vrf_sortition_Ok (p' & b' & rest' & Hm' & ->)%vrf_sortition_Ok
    Hp Htot Hnd Ho.
  assert (Hfst : (macro_cands beacon set height reps).*1 = ve_id <$> vs_entries set).
  { unfold macro_cands. rewrite <- list_fmap_compose. by apply list_fmap_ext. }
  assert (Hc : macro_cands beacon set height reps ≡ₚ macro_cands beacon set' height reps).
  { unfold macro_cands. rewrite Hp. apply reflexive_eq, list_fmap_ext. intros _ e _.
    unfold macro_score. by rewrite Htot. }
  pose proof (merge_sort_cands_perm _ _ Ho ltac:(by rewrite Hfst) Hc) as He.
  rewrite Hm, Hm' in He. injection He as <- <- <-.
  pose proof (merge_sort_Permutation sched_le (macro_cands beacon set height reps)) as Hperm.
  pose proof (merge_sort_cands _ Ho) as Hs. rewrite Hm in Hperm, Hs.
  split; [done|]. cbn [ps_primary ps_backup]. split.
  - assert (Hnd' : NoDup (p :: b :: rest).*1) by (rewrite Hperm, Hfst; done).
    cbn in Hnd'. apply NoDup_cons in Hnd' as [Hni _]. intros Heq. apply Hni. rewrite Heq.
    by left.
  - exists p, b. rewrite <- !Hperm. split_and!; [by left|right; by left|done..|].
    intros c. rewrite <- Hperm. apply StronglySorted_inv in Hs as [Hs Hpl].
    apply StronglySorted_inv in Hs as [_ Hbl]. rewrite Forall_forall in Hpl, Hbl.
    assert (Hrefl : ∀ x, sched_le x x).
    { intros x. by destruct (total sched_le x x). }
    intros [->|[->|Hc']%elem_of_cons]%elem_of_cons; (split; [|intros Hne]).
    + apply Hrefl.
    + by destruct Hne.
    + apply Hpl. by left.
    + apply Hrefl.
    + apply Hpl. by right.
    + by apply Hbl.
Qed.

Definition toy_schedule : ProposerSchedule :=
  match vrf_sortition Hash32_zero (toy_set 4) 3 ∅ with
  | Ok s => s | _ => MkProposerSchedule 0 (toy_id 0) (toy_id 0)
  end.

Lemma vrf_sortition_agreement_witness :
  toy_schedule = toy_schedule ∧ ps_primary toy_schedule ≠ ps_backup toy_schedule ∧
  ∃ p b, p ∈ macro_cands Hash32_zero (toy_set 4) 3 ∅ ∧
    b ∈ macro_cands Hash32_zero (toy_set 4) 3 ∅ ∧
    ps_primary toy_schedule = p.1 ∧ ps_backup toy_schedule = b.1 ∧
    ∀ c, c ∈ macro_cands Hash32_zero (toy_set 4) 3 ∅ →
      sched_le p c ∧ (c ≠ p → sched_le b c).
Proof.
  apply (vrf_sortition_agreement Hash32_zero (toy_set 4) toy_set_rev).
  - vm_compute. reflexivity.
  - vm_compute. reflexivity.
  - symmetry. apply (reverse_Permutation (vs_entries (toy_set 4))).
  - reflexivity.
  - vdecide.
  - unfold cands_ordered, not_nan. vdecide.
Defined.

(** [pick_canonical] returns one of its candidates, and none of the others
    has more signers, nor as many with a smaller bitmap. *)
Theorem pick_canonical_spec candidates qc :
  pick_canonical candidates = Some qc →
  qc ∈ candidates ∧
  ∀ c, c ∈ candidates →
    (count_ones (agg_bitmap (qc_agg c)) ≤ count_ones (agg_bitmap (qc_agg qc)))%nat ∧
    (count_ones (agg_bitmap (qc_agg c)) = count_ones (agg_bitmap (qc_agg qc)) →
     kle (agg_bitmap (qc_agg qc)) (agg_bitmap (qc_agg c))).
Proof.
  intros [Hin Hmax]%foldl_keep_canonical. split; [by destruct Hin|].
  intros c Hc. specialize (Hmax c (or_introl Hc)). revert Hmax.
  unfold canonical_le, canonical_cmp.
  destruct (Nat.compare_spec (count_ones (agg_bitmap (qc_agg c)))
              (count_ones (agg_bitmap (qc_agg qc)))) as [He|Hlt|Hgt]; intros Hm.
  - split; [lia|done].
  - split; [lia|]. intros He. lia.
  - done.
Qed.

Definition toy_bm_qc (b : Z) : MacroQc :=
  MkMacroQc (h_of 1) ModeBLeaderless (MkBlsAggSig (MkBlsSig []) [b]).

Lemma pick_canonical_spec_witness :
  toy_bm_qc 5 ∈ [toy_bm_qc 10; toy_bm_qc 5; toy_bm_qc 8] ∧
  ∀ c, c ∈ [toy_bm_qc 10; toy_bm_qc 5; toy_bm_qc 8] →
    (count_ones (agg_bitmap (qc_agg c)) ≤ count_ones (agg_bitmap (qc_agg (toy_bm_qc 5))))%nat ∧
    (count_ones (agg_bitmap (qc_agg c)) = count_ones (agg_bitmap (qc_agg (toy_bm_qc 5))) →
     kle (agg_bitmap (qc_agg (toy_bm_qc 5))) (agg_bitmap (qc_agg c))).
Proof. apply pick_canonical_spec. vm_compute. reflexivity. Defined.
