(* ===== verification/Slashing.v ===== *)
(** [consensus::slashing]: the detectors, the evidence verifiers, the
    inactivity leak and the penalty arithmetic. *)

From S2P Require Import Prelude Bytes Types Crypto Toy Config Dag Linearize MacroState.
From S2P Require Import MacroAgg.
Open Scope Z_scope.

(** ** [surround.rs] and [double_vote.rs]: detection *)

(** [a] surrounds [b]. *)
Definition surrounds (a_source a_target b_source b_target : Z) : bool :=
  (a_source <? b_source) && (b_source <=? b_target) && (b_target <? a_target).

Definition surround_evidence (validator : ValidatorId) (a b : VoteRecord) : SurroundVote :=
  MkSurroundVote validator (vr_source a) (vr_target a) (vr_sig a) (vr_checkpoint a)
    (vr_source b) (vr_target b) (vr_sig b) (vr_checkpoint b).

Definition surrounds_vote (a b : VoteRecord) : bool :=
  surrounds (vr_source a) (vr_target a) (vr_source b) (vr_target b).

(** The loop of [scan_for_surround] over the older votes. *)
Fixpoint surround_loop (validator : ValidatorId) (new : VoteRecord) (olds : list VoteRecord)
  : option SurroundVote :=
  match olds with
  | [] => None
  | old :: olds =>
      if surrounds_vote new old then Some (surround_evidence validator new old)
      else if surrounds_vote old new then Some (surround_evidence validator old new)
      else surround_loop validator new olds
  end.

(** [votes[votes.len() - 1]] and [&votes[..votes.len() - 1]], for at least two
    votes. *)
Definition newest_and_olds (votes : list VoteRecord) : option (VoteRecord * list VoteRecord) :=
  if bool_decide (length votes < 2)%nat then None
  else
    new ← votes !! (length votes - 1)%nat;
    Some (new, take (length votes - 1) votes).

Definition scan_for_surround (book : VoteBook) (validator : ValidatorId)
  : result (option SurroundVote) :=
  match newest_and_olds (votes_of book validator) with
  | None => Ok None
  | Some (new, olds) => Ok (surround_loop validator new olds)
  end.

Fixpoint double_vote_loop (validator : ValidatorId) (new : VoteRecord) (olds : list VoteRecord)
  : option DoubleVote :=
  match olds with
  | [] => None
  | old :: olds =>
      if bool_decide (vr_target old = vr_target new) &&
         bool_decide (vr_checkpoint old ≠ vr_checkpoint new)
      then Some (MkDoubleVote validator (vr_target new) (vr_checkpoint old) (vr_sig old)
                   (vr_checkpoint new) (vr_sig new))
      else double_vote_loop validator new olds
  end.

Definition scan_for_double_vote (book : VoteBook) (validator : ValidatorId)
  : result (option DoubleVote) :=
  match newest_and_olds (votes_of book validator) with
  | None => Ok None
  | Some (new, olds) => Ok (double_vote_loop validator new olds)
  end.

(** ** [equivocation.rs] and [vertex_equivocation.rs]: detection *)

Definition equivocation_detect (validator : ValidatorId) (a b : MacroProposal)
  : MacroEquivocation :=
  MkMacroEquivocation validator
    (mp_checkpoint a, mp_proposer_sig a) (mp_checkpoint b, mp_proposer_sig b).

Definition vertex_equivocation_detect (validator : ValidatorId) (a b : VertexProposal)
  : VertexEquivocation := from_proposals validator a b.

(** ** Verification *)

Section verify.
Context `{Primitives, MacroBorsh, !Borsh SignableVertex}.

(** [set.entries.iter().find(..).ok_or("unknown validator")?] and
    [PublicKey::from_bytes(..).map_err("invalid bls pubkey")?] *)
Definition evidence_pk (set : ValidatorSet) (validator : ValidatorId) : result blst_pk :=
  match entry_for set validator with
  | None => Err (InvalidConfig "unknown validator")
  | Some entry =>
      map_err (λ _, InvalidConfig "invalid bls pubkey")
        (PublicKey_from_bytes (ve_bls_pubkey entry))
  end.

(** The loop over the two signed statements. *)
Fixpoint verify_all (pk : blst_pk) (dst : bytes) (why : string) (l : list (bytes * BlsSig))
  : result unit :=
  match l with
  | [] => Ok tt
  | (msg, sig) :: l =>
      _ ← map_err (λ _, InvalidConfig why) (verify pk dst msg sig);
      verify_all pk dst why l
  end.

Definition signed_vote (r : VoteRecord) : bytes * BlsSig := (vote_message r, vr_sig r).

Definition surround_verify (ev : SurroundVote) (set : ValidatorSet) : result unit :=
  if negb (surrounds (sv_a_source ev) (sv_a_target ev) (sv_b_source ev) (sv_b_target ev))
  then Err (InvalidConfig "not a surround relation")
  else
    pk ← evidence_pk set (sv_validator ev);
    let outer := MkVoteRecord (sv_a_source ev) (sv_a_target ev) (sv_a_checkpoint ev)
                   (sv_a_sig ev) in
    let inner := MkVoteRecord (sv_b_source ev) (sv_b_target ev) (sv_b_checkpoint ev)
                   (sv_b_sig ev) in
    verify_all pk dst.MACRO_VOTE "invalid vote sig" [signed_vote outer; signed_vote inner].

Definition double_vote_verify (ev : DoubleVote) (set : ValidatorSet) : result unit :=
  if bool_decide (dv_a_checkpoint ev = dv_b_checkpoint ev)
  then Err (InvalidConfig "double vote requires distinct checkpoints")
  else
    pk ← evidence_pk set (dv_validator ev);
    let source := saturating_sub (dv_target ev) 1 in
    verify_all pk dst.MACRO_VOTE "invalid vote sig"
      [signed_vote (MkVoteRecord source (dv_target ev) (dv_a_checkpoint ev) (dv_a_sig ev));
       signed_vote (MkVoteRecord source (dv_target ev) (dv_b_checkpoint ev) (dv_b_sig ev))].

Definition equivocation_verify (ev : MacroEquivocation) (set : ValidatorSet) : result unit :=
  pk ← evidence_pk set (me_validator ev);
  if bool_decide (mc_height (me_a ev).1 ≠ mc_height (me_b ev).1) ||
     bool_decide (mc_hash (me_a ev).1 = mc_hash (me_b ev).1)
  then Err (InvalidConfig "equivocation checkpoints must share height and differ in hash")
  else
    verify_all pk dst.MACRO_PROPOSER_SIG "invalid proposer sig"
      [(proposer_message (me_validator ev) (me_a ev).1, (me_a ev).2);
       (proposer_message (me_validator ev) (me_b ev).1, (me_b ev).2)].

Definition vertex_equivocation_verify (ev : VertexEquivocation) (set : ValidatorSet)
  : result unit :=
  pk ← evidence_pk set (veq_validator ev);
  if bool_decide (v_author (veq_a ev).1 ≠ veq_validator ev) ||
     bool_decide (v_author (veq_b ev).1 ≠ veq_validator ev)
  then Err (InvalidConfig "equivocation vertices must be authored by the offender")
  else if bool_decide (v_round (veq_a ev).1 ≠ v_round (veq_b ev).1) ||
          bool_decide (v_hash (veq_a ev).1 = v_hash (veq_b ev).1)
  then Err (InvalidConfig "equivocation vertices must share round and differ in hash")
  else
    verify_all pk dst.VERTEX_PROPOSAL "invalid proposer sig"
      [(signing_bytes (veq_a ev).1, (veq_a ev).2); (signing_bytes (veq_b ev).1, (veq_b ev).2)].

(** [evidence.rs] *)
Definition verify_evidence (ev : SlashEvidence) (set : ValidatorSet) : result unit :=
  match ev with
  | SE_MacroEquivocation e => equivocation_verify e set
  | SE_Surround e => surround_verify e set
  | SE_DoubleVote e => double_vote_verify e set
  | SE_VertexEquivocation e => vertex_equivocation_verify e set
  end.
End verify.

(** ** [inactivity_leak.rs] and [penalty.rs] *)

Definition leak_compute (cfg : Config) (unfinalized_windows : Z) : Z * bool :=
  (inactivity_leak_bps_per_window (macro_fin cfg),
   inactivity_leak_trigger_windows (macro_fin cfg) <=? unfinalized_windows).

Inductive Penalty := P_Equivocation | P_DoubleVote | P_DaIncident | P_InactivityLeak.

Definition bps (p : Penalty) (cfg : Config) : Z :=
  match p with
  | P_Equivocation => equivocation_bps (slashing cfg)
  | P_DoubleVote => double_vote_bps (slashing cfg)
  | P_DaIncident => da_incident_bps (slashing cfg)
  | P_InactivityLeak => inactivity_leak_bps_per_window (macro_fin cfg)
  end.

Definition cap (cfg : Config) (cumulative_bps : Z) : Z :=
  Z.min cumulative_bps (slashing_cap_bps (slashing cfg)).

(** ** Detection *)

Lemma newest_and_olds_app l new :
  l ≠ [] → newest_and_olds (l ++ [new]) = Some (new, l).
Proof.
  intros Hl. unfold newest_and_olds. rewrite length_app. cbn [length].
  rewrite bool_decide_eq_false_2 by (destruct l; cbn; [done|lia]).
  replace (length l + 1 - 1)%nat with (length l) by lia.
  rewrite list_lookup_middle by done. cbn.
  by rewrite take_app_length.
Qed.

(** What evidence out of the book says: an older vote that the newest one
    surrounds, or is surrounded by, or contradicts. *)
Definition conflict (old new : VoteRecord) : Prop :=
  surrounds_vote new old = true ∨ surrounds_vote old new = true.

Lemma surround_loop_Some validator new olds :
  is_Some (surround_loop validator new olds) ↔ ∃ old, old ∈ olds ∧ conflict old new.
Proof.
  unfold conflict. induction olds as [|old olds IH]; cbn [surround_loop].
  { split; [by intros []|]. by intros (? & ?%elem_of_nil & _). }
  setoid_rewrite elem_of_cons.
  destruct (surrounds_vote new old) eqn:H1; [split; [|done]; exists old; auto|].
  destruct (surrounds_vote old new) eqn:H2; [split; [|done]; exists old; auto|].
  rewrite IH. split; [intros (o & ? & ?); eauto|].
  intros (o & [->|?] & Hc); [|eauto]. destruct Hc; congruence.
Qed.

Lemma double_vote_loop_Some validator new olds :
  is_Some (double_vote_loop validator new olds) ↔
  ∃ old, old ∈ olds ∧ vr_target old = vr_target new ∧ vr_checkpoint old ≠ vr_checkpoint new.
Proof.
  induction olds as [|old olds IH]; cbn [double_vote_loop].
  { split; [by intros []|]. by intros (? & ?%elem_of_nil & _). }
  setoid_rewrite elem_of_cons.
  destruct (bool_decide (vr_target old = vr_target new) && _) eqn:Hb.
  - apply andb_true_iff in Hb as [?%bool_decide_eq_true ?%bool_decide_eq_true].
    split; [|done]. exists old. auto.
  - rewrite IH. split; [intros (o & ? & ?); eauto|].
    intros (o & [->|?] & Ht & Hc); [|eauto]. exfalso.
    by rewrite !bool_decide_eq_true_2 in Hb.
Qed.

Section soundness.
Context `{Primitives, MacroBorsh, !Borsh SignableVertex}.

(** [validator]'s key signed the vote. *)
Definition vote_signed (set : ValidatorSet) (validator : ValidatorId) (r : VoteRecord) : Prop :=
  ∃ pk, evidence_pk set validator = Ok pk ∧
        verify pk dst.MACRO_VOTE (vote_message r) (vr_sig r) = Ok tt.

Lemma verify_all_Ok pk dst why l :
  verify_all pk dst why l = Ok tt ↔
  Forall (λ p : bytes * BlsSig, verify pk dst p.1 p.2 = Ok tt) l.
Proof.
  induction l as [|[msg sig] l IH]; cbn [verify_all]; [by rewrite Forall_nil|].
  rewrite Forall_cons. cbn [fst snd]. rewrite <- IH, outcome_bind_Ok.
  setoid_rewrite map_err_Ok. split; [by intros ([] & ? & ?)|]. intros [? ?]. by exists tt.
Qed.

Lemma vote_pair_verifies set v why a b :
  vote_signed set v a → vote_signed set v b →
  ∃ pk, evidence_pk set v = Ok pk ∧
    verify_all pk dst.MACRO_VOTE why [signed_vote a; signed_vote b] = Ok tt.
Proof.
  intros (pk & Hpk & Ha) (pk' & Hpk' & Hb). rewrite Hpk in Hpk'. injection Hpk' as <-.
  exists pk. split; [done|]. apply verify_all_Ok. by repeat constructor.
Qed.

Lemma surround_evidence_verifies set v a b :
  surrounds_vote a b = true → vote_signed set v a → vote_signed set v b →
  surround_verify (surround_evidence v a b) set = Ok tt.
Proof.
  intros Hs Ha Hb. unfold surround_verify, surround_evidence. cbn.
  unfold surrounds_vote in Hs. rewrite Hs. cbn [negb].
  destruct a as [sa ta ca ga], b as [sb tb cb gb]. cbn.
  destruct (vote_pair_verifies set v "invalid vote sig" _ _ Ha Hb) as (pk & -> & Hv).
  ocbn. exact Hv.
Qed.

Lemma surround_loop_verifies set v new olds ev :
  surround_loop v new olds = Some ev →
  vote_signed set v new → Forall (vote_signed set v) olds →
  surround_verify ev set = Ok tt.
Proof.
  induction olds as [|old olds IH]; cbn [surround_loop]; [done|].
  intros He Hn [Ho Hos]%Forall_cons.
  destruct (surrounds_vote new old) eqn:H1; [injection He as <-|].
  { by apply surround_evidence_verifies. }
  destruct (surrounds_vote old new) eqn:H2; [injection He as <-|by apply IH].
  by apply surround_evidence_verifies.
Qed.

Lemma double_vote_loop_verifies set v new olds ev :
  double_vote_loop v new olds = Some ev →
  vote_signed set v new → Forall (vote_signed set v) olds →
  (∀ r, r ∈ new :: olds → vr_source r = saturating_sub (vr_target r) 1) →
  double_vote_verify ev set = Ok tt.
Proof.
  induction olds as [|old olds IH]; cbn [double_vote_loop]; [done|].
  intros He Hn [Ho Hos]%Forall_cons Hsrc.
  destruct (bool_decide (vr_target old = vr_target new) && _) eqn:Hb.
  2: { apply IH; [done..|]. intros r [->|?]%elem_of_cons; apply Hsrc;
         [by left|right; by right]. }
  apply andb_true_iff in Hb as [Ht%bool_decide_eq_true Hc%bool_decide_eq_true].
  injection He as <-. unfold double_vote_verify. cbn.
  rewrite bool_decide_eq_false_2 by done.
  pose proof (Hsrc new ltac:(by left)) as Hsn.
  pose proof (Hsrc old ltac:(right; by left)) as Hso.
  destruct (vote_pair_verifies set v "invalid vote sig" _ _ Ho Hn) as (pk & -> & Hv).
  ocbn. destruct old as [so to co go], new as [sn tn cn gn]. cbn in *. subst. exact Hv.
Qed.
End soundness.

(** ** Properties *)

(** The vote scan finds exactly the slashable votes, and what it reports
    convicts: over a validator's signed votes (with source one below target, as
    the macro layer casts them) the surround scan reports something exactly when
    the newest vote surrounds or is surrounded by an older one, the double-vote
    scan exactly when an older vote has its target and another checkpoint, and
    either evidence passes [verify_evidence]. *)
Theorem vote_scan_spec `{Primitives, MacroBorsh, !Borsh SignableVertex}
    set book validator olds new s d :
  votes_of book validator = olds ++ [new] → olds ≠ [] →
  Forall (vote_signed set validator) (olds ++ [new]) →
  Forall (λ r, vr_source r = saturating_sub (vr_target r) 1) (olds ++ [new]) →
  scan_for_surround book validator = Ok s → scan_for_double_vote book validator = Ok d →
  (is_Some s ↔ ∃ old, old ∈ olds ∧ conflict old new) ∧
  (is_Some d ↔ ∃ old, old ∈ olds ∧ vr_target old = vr_target new ∧
                      vr_checkpoint old ≠ vr_checkpoint new) ∧
  (∀ ev, s = Some ev → verify_evidence (SE_Surround ev) set = Ok tt) ∧
  (∀ ev, d = Some ev → verify_evidence (SE_DoubleVote ev) set = Ok tt).
Proof.
  intros Hv Hne [Hso Hsn]%Forall_app Hsrc Hs Hd.
  unfold scan_for_surround in Hs. unfold scan_for_double_vote in Hd.
  rewrite Hv, newest_and_olds_app in Hs, Hd by done. injection Hs as <-. injection Hd as <-.
  apply Forall_cons in Hsn as [Hsn _]. rewrite Forall_forall in Hsrc. split_and!.
  - apply surround_loop_Some.
  - apply double_vote_loop_Some.
  - intros ev He. apply (surround_loop_verifies set validator new olds); done.
  - intros ev He. apply (double_vote_loop_verifies set validator new olds); [done..|].
    intros r [->|?]%elem_of_cons; apply Hsrc, elem_of_app; [right; by left|by left].
Qed.

Definition toy_vote (i : nat) (target c : Z) : VoteRecord :=
  let r := MkVoteRecord (target - 1) target (h_of c) (MkBlsSig []) in
  MkVoteRecord (target - 1) target (h_of c) (sign (toy_key i) dst.MACRO_VOTE (vote_message r)).
Definition toy_vote_book : VoteBook :=
  foldr (λ r b, record (toy_id 1) r b) VoteBook_new
    [toy_vote 1 4 8; toy_vote 1 4 7; toy_vote 1 3 6].
Definition toy_double : DoubleVote :=
  MkDoubleVote (toy_id 1) 4 (h_of 7) (vr_sig (toy_vote 1 4 7)) (h_of 8) (vr_sig (toy_vote 1 4 8)).

Lemma vote_scan_spec_witness :
  (is_Some (@None SurroundVote) ↔
     ∃ old, old ∈ [toy_vote 1 3 6; toy_vote 1 4 7] ∧ conflict old (toy_vote 1 4 8)) ∧
  (is_Some (Some toy_double) ↔
     ∃ old, old ∈ [toy_vote 1 3 6; toy_vote 1 4 7] ∧ vr_target old = vr_target (toy_vote 1 4 8) ∧
            vr_checkpoint old ≠ vr_checkpoint (toy_vote 1 4 8)) ∧
  (∀ ev, @None SurroundVote = Some ev → verify_evidence (SE_Surround ev) (toy_set 4) = Ok tt) ∧
  (∀ ev, Some toy_double = Some ev → verify_evidence (SE_DoubleVote ev) (toy_set 4) = Ok tt).
Proof.
  apply (vote_scan_spec (toy_set 4) toy_vote_book (toy_id 1)).
  - vm_compute. reflexivity.
  - discriminate.
  - repeat constructor; exists (toy_key 1); split; vm_compute; reflexivity.
  - repeat constructor.
  - vm_compute. reflexivity.
  - vm_compute. reflexivity.
Defined.

(** Vertex-equivocation evidence can be forged: the verifier compares the
    [hash] fields without recomputing them and the signature does not cover
    them, so one honest proposal, and a copy of it with any other hash, convict
    its author. *)
Theorem vertex_evidence_frames_honest `{Primitives, MacroBorsh, !Borsh SignableVertex}
    set v sig pk h :
  evidence_pk set (v_author v) = Ok pk →
  verify pk dst.VERTEX_PROPOSAL (signing_bytes v) sig = Ok tt →
  h ≠ v_hash v →
  verify_evidence (SE_VertexEquivocation
    (MkVertexEquivocation (v_author v) (v, sig) (v <| v_hash := h |>, sig))) set = Ok tt.
Proof.
  intros Hpk Hsig Hh. destruct v as [r a ps bs hv]. cbn in Hh.
  change ((MkVertex r a ps bs hv) <| v_hash := h |>) with (MkVertex r a ps bs h).
  cbn [verify_evidence]. unfold vertex_equivocation_verify.
  cbn [veq_validator veq_a veq_b fst snd v_author v_round v_hash]. cbn [v_author] in Hpk. rewrite Hpk. ocbn.
  repeat rewrite bool_decide_eq_false_2 by (cbn; first [tauto|congruence]).
  cbn [orb]. apply verify_all_Ok. by repeat constructor.
Qed.

Definition toy_honest : Vertex := toy_vertex 3 1 [h_of 1].

Lemma vertex_evidence_frames_honest_witness :
  verify_evidence (SE_VertexEquivocation
    (MkVertexEquivocation (v_author toy_honest)
       (toy_honest, sign (toy_key 1) dst.VERTEX_PROPOSAL (signing_bytes toy_honest))
       (toy_honest <| v_hash := h_of 9 |>,
        sign (toy_key 1) dst.VERTEX_PROPOSAL (signing_bytes toy_honest)))) (toy_set 4) = Ok tt.
Proof.
  apply (@vertex_evidence_frames_honest toy _ _ (toy_set 4) toy_honest _ (toy_key 1) (h_of 9)).
  - vm_compute. reflexivity.
  - vm_compute. reflexivity.
  - vdecide.
Defined.

(** Macro-equivocation evidence can be forged: the proposer signature covers
    the checkpoint hash but not the height the verifier compares, so a
    validator's honest proposals at two different heights, one of them
    relabelled, convict it. *)
Theorem macro_evidence_frames_honest `{Primitives, MacroBorsh, !Borsh SignableVertex}
    set validator pk c1 s1 c2 s2 :
  evidence_pk set validator = Ok pk →
  verify pk dst.MACRO_PROPOSER_SIG (proposer_message validator c1) s1 = Ok tt →
  verify pk dst.MACRO_PROPOSER_SIG (proposer_message validator c2) s2 = Ok tt →
  mc_hash c1 ≠ mc_hash c2 →
  verify_evidence (SE_MacroEquivocation
    (MkMacroEquivocation validator (c1, s1) (c2 <| mc_height := mc_height c1 |>, s2))) set = Ok tt.
Proof.
  intros Hpk H1 H2 Hne. destruct c2 as [h2 e2 p2 m2 x2]. cbn in Hne.
  change ((MkMacroCheckpoint h2 e2 p2 m2 x2) <| mc_height := mc_height c1 |>)
    with (MkMacroCheckpoint (mc_height c1) e2 p2 m2 x2).
  cbn [verify_evidence]. unfold equivocation_verify.
  cbn [me_validator me_a me_b fst snd mc_height mc_hash]. rewrite Hpk. ocbn.
  repeat rewrite bool_decide_eq_false_2 by (cbn; first [tauto|congruence]).
  cbn [orb]. apply verify_all_Ok. by repeat constructor.
Qed.

Definition toy_cp1 : MacroCheckpoint := build 1 0 Hash32_zero (h_of 1).
Definition toy_cp2 : MacroCheckpoint := build 2 0 (mc_hash toy_cp1) (h_of 2).
Definition toy_prop_sig (c : MacroCheckpoint) : BlsSig :=
  sign (toy_key 1) dst.MACRO_PROPOSER_SIG (proposer_message (toy_id 1) c).

Lemma macro_evidence_frames_honest_witness :
  verify_evidence (SE_MacroEquivocation
    (MkMacroEquivocation (toy_id 1) (toy_cp1, toy_prop_sig toy_cp1)
      (toy_cp2 <| mc_height := mc_height toy_cp1 |>, toy_prop_sig toy_cp2))) (toy_set 4) = Ok tt.
Proof.
  apply (@macro_evidence_frames_honest toy _ _ (toy_set 4) (toy_id 1) (toy_key 1)).
  - vm_compute. reflexivity.
  - vm_compute. reflexivity.
  - vm_compute. reflexivity.
  - vdecide.
Defined.
