(* ===== verification/MacroFin.v ===== *)
(** [consensus::macro_fin]: the handlers of the macro-finality layer.

    Each handler is a computation over [MacroBook]; the actions a Rust handler
    pushes on its [&mut Actions] are its result. *)

From S2P Require Import Prelude Bytes Types Crypto Toy Config Leader Dag Linearize Bullshark.
From S2P Require Import MacroState MacroAgg Slashing.
Open Scope Z_scope.

(** [let mut b = [0u8; 32]; b[..16].copy_from_slice(&cp.hash.0[..16])] *)
Definition blob_id_of_checkpoint (cp : MacroCheckpoint) : BlobId :=
  MkBlobId (take 16 (h32_bytes (mc_hash cp)) ++ replicate 16 0).

(** [book.candidate.iter().find(|(_, c)| c.hash == hash)] *)
Definition find_candidate (book : MacroBook) (hash : Hash32) : option (Height * MacroCheckpoint) :=
  snd <$> list_find (λ kv : Z * MacroCheckpoint, mc_hash kv.2 = hash)
            (btree_entries (candidate book)).

Section macro_fin.
Context `{Build, Primitives, MacroBorsh}.

Abbreviation MF := (M Error MacroBook).

(** [book.rejected_crypto += 1] *)
Definition reject_crypto : MF unit :=
  n ← gets mb_rejected_crypto;
  n ← lift (add_w 64 n 1);
  modify (λ b, b <| mb_rejected_crypto := n |>).

(** [u32::try_from(set.entries.len()).expect("validator count fits u32")] *)
Definition count_u32 (set : ValidatorSet) : result Z :=
  match u32_try_from (length (vs_entries set)) with Some n => Ok n | None => Panic end.

Definition active_mode (book : MacroBook) (cfg : Config) (set : ValidatorSet) (height : Height)
  : result AggregationMode :=
  if bool_decide (height ∈ mode_b_active book) then Ok ModeBLeaderless
  else
    n_e ← count_u32 set;
    Ok (if mode_a_active (compute_ke cfg n_e) then ModeASubnet else Mode0Flat).

Definition beacon_for_height (book : MacroBook) (ctx : HostContext) (height : Height)
  : result Hash32 :=
  match candidate_beacon book !! height with
  | Some b => Ok b
  | None => beacon_current ctx
  end.

Definition subnet_assign (cfg : Config) (set : ValidatorSet) (beacon : Hash32)
  : result SubnetAssign :=
  n_e ← count_u32 set;
  Ok (MkSubnetAssign (compute_ke cfg n_e) beacon).

Definition should_assemble_qc (book : MacroBook) (signers : gset ValidatorId) : bool :=
  bool_decide (btree_min signers = Some (mb_self_id book)).

Definition bump_reputation (cfg : Config) (signers : gset ValidatorId) : MF unit :=
  for_each (btree_elements signers) (λ v,
    reps ← gets reputation;
    next ← lift (Reputation_updated (default Reputation_neutral (reps !! v)) cfg f64_one);
    modify (λ b, b <| reputation ::= <[v := next]> |>)).

Definition note_inactivity_leak_on_adoption (cfg : Config) (finalized_this_step : bool)
  : MF Actions :=
  if finalized_this_step then
    _ ← modify (λ b, b <| unfinalized_windows := 0 |> <| leak_notified := false |>);
    mret []
  else
    _ ← modify (λ b, b <| unfinalized_windows ::= λ u, saturating_add 32 u 1 |>);
    u ← gets unfinalized_windows;
    notified ← gets leak_notified;
    let '(bps, apply) := leak_compute cfg u in
    if apply && negb notified then
      _ ← modify (λ b, b <| leak_notified := true |>);
      mret [NotifyInactivityLeak u bps]
    else mret [].

(** The book after [candidate] is adopted at [height] under a certificate:
    the assignments shared by [finish_macro_qc_adoption] and
    [on_macro_qc_received], those before [height + 1] is computed and those
    after. *)
Definition record_certificate (cand : MacroCheckpoint) (qc : MacroQc) (b : MacroBook)
  : MacroBook :=
  b <| emitted_macro_qc ::= union {[qc_checkpoint_hash qc]} |>
    <| two_chain ::= adopt cand |>
    <| last_macro_hash := mc_hash cand |>.
Definition record_adoption (next : Height) (height : Height) (b : MacroBook) : MacroBook :=
  b <| next_height := next |>
    <| proposal_seen ::= union {[height]} |>
    <| mb_timers ::= clear_backup height |>
    <| mb_timers ::= clear_mode_b height |>.

(** The finality tail of both: the leak counter, then the newly finalized
    predecessor. *)
Definition finality_tail (cfg : Config) : MF Actions :=
  finalized ← gets (λ b, newly_finalized_height (two_chain b));
  leak ← note_inactivity_leak_on_adoption cfg (bool_decide (is_Some finalized));
  match finalized with
  | None => mret leak
  | Some prev =>
      _ ← modify (λ b, b <| two_chain ::= mark_finalized prev |>);
      cands ← gets candidate;
      mret (leak ++ match cands !! prev with
                    | Some prev_cp => [UpdateBlobStatus (blob_id_of_checkpoint prev_cp) Finalized]
                    | None => []
                    end)
  end.

(** Adoption up to the finality tail; what is persisted and justified. *)
Definition adopt_macro_qc (cfg : Config) (height : Height) (cand : MacroCheckpoint)
    (qc : MacroQc) (signers : gset ValidatorId) : MF Actions :=
  _ ← modify (record_certificate cand qc);
  next ← lift (add_w 64 height 1);
  _ ← modify (record_adoption next height);
  _ ← bump_reputation cfg signers;
  tail ← finality_tail cfg;
  mret ([PersistMacroCheckpoint cand; PersistMacroQc qc;
         UpdateBlobStatus (blob_id_of_checkpoint cand) Justified] ++ tail).

Definition finish_macro_qc_adoption (cfg : Config) (height : Height) (cand : MacroCheckpoint)
    (qc : MacroQc) (signers : gset ValidatorId) : MF Actions :=
  acts ← adopt_macro_qc cfg height cand qc signers;
  mret (BroadcastMacroQc qc :: acts).

(** [partials.get(&hash).cloned().unwrap_or_default()] *)
Definition partials_of (book : MacroBook) (hash : Hash32) : gset ValidatorId :=
  default ∅ (partials book !! hash).
(** [partials.entry(hash).or_default().insert(v)] *)
Definition add_partial (hash : Hash32) (v : ValidatorId) (b : MacroBook) : MacroBook :=
  b <| partials ::= <[hash := {[v]} ∪ partials_of b hash]> |>.
Definition subnet_partials_of (book : MacroBook) (key : Hash32 * SubnetId) : gset ValidatorId :=
  default ∅ (subnet_partials book !! key).
Definition add_subnet_partial (key : Hash32 * SubnetId) (v : ValidatorId) (b : MacroBook)
  : MacroBook :=
  b <| subnet_partials ::= <[key := {[v]} ∪ subnet_partials_of b key]> |>.

Definition try_emit_mode_a_qc (cfg : Config) (checkpoint_hash : Hash32) (height : Height)
    (ctx : HostContext) : MF Actions :=
  set ← lift (active_set ctx);
  mode_b ← gets mode_b_active;
  if bool_decide (height ∈ mode_b) then mret []
  else
    book ← gets id;
    beacon ← lift (beacon_for_height book ctx height);
    schedule ← lift (vrf_sortition beacon set height (reputation book));
    if bool_decide (mb_self_id book ≠ ps_primary schedule) then mret []
    else
      let aggs := default ∅ (subnet_aggs book !! checkpoint_hash) in
      match try_finalize_mode_a_from_aggs checkpoint_hash aggs set (partial_sigs book) with
      | None => mret []
      | Some qc =>
          if bool_decide (checkpoint_hash ∈ emitted_macro_qc book) then mret []
          else
            match candidate book !! height with
            | None => panic
            | Some cand =>
                finish_macro_qc_adoption cfg height cand qc (partials_of book checkpoint_hash)
            end
      end.

(** The proposal this validator signs for [cand] ([on_local_micro_qcs] and
    the backup timer). *)
Definition sign_proposal (ctx : HostContext) (beacon : Hash32) (height : Height)
    (cand : MacroCheckpoint) : MF Actions :=
  self ← gets mb_self_id;
  let alpha := vrf_alpha beacon height self in
  vrf ← lift (vrf_prove ctx alpha);
  let msg := proposer_message self cand in
  proposer_sig ← lift (sign_bls ctx dst.MACRO_PROPOSER_SIG msg);
  _ ← modify (λ b, b <| proposal_seen ::= union {[height]} |>);
  mret [BroadcastMacroProposal (MkMacroProposal cand self vrf.1 proposer_sig)].

(** The candidate built when the ring is full, and what is scheduled for it. *)
Definition build_candidate (cfg : Config) (ctx : HostContext) (set : ValidatorSet)
  : MF Actions :=
  book ← gets id;
  let height := next_height book in
  let cand := build height 0 (last_macro_hash book) (micro_root_of_ring (micro_ring book)) in
  _ ← modify (λ b, b <| micro_ring := [] |> <| candidate ::= <[height := cand]> |>);
  beacon ← lift (beacon_current ctx);
  _ ← modify (λ b, b <| candidate_beacon ::= <[height := beacon]> |>);
  schedule ← lift (vrf_sortition beacon set height (reputation book));
  acts ← (if bool_decide (ps_primary schedule = mb_self_id book)
          then sign_proposal ctx beacon height cand
          else if bool_decide (ps_backup schedule = mb_self_id book)
          then a ← zoom mb_timers (backup_propose_action cfg height); mret [a]
          else mret []);
  mode_b ← (if bool_decide (sim_force_ke (aggregation cfg) = None)
            then a ← zoom mb_timers (mode_b_deadline_action cfg height); mret [a]
            else mret []);
  mret (acts ++ mode_b).

(** The loop over the micro certificates broadcast in this step. *)
Fixpoint push_micro_hashes (cfg : Config) (ctx : HostContext) (set : ValidatorSet)
    (hashes : list Hash32) : MF Actions :=
  match hashes with
  | [] => mret []
  | h :: hashes =>
      _ ← modify (λ b, b <| micro_ring ::= λ r, r ++ [h] |>);
      ring ← gets micro_ring;
      acts ← (if (length ring : Z) <? macro_window_w (macro_fin cfg) then mret []
              else build_candidate cfg ctx set);
      rest ← push_micro_hashes cfg ctx set hashes;
      mret (acts ++ rest)
  end.

Definition on_local_micro_qcs (cfg : Config) (ctx : HostContext) (actions : Actions)
  : MF Actions :=
  let new_hashes := qcs_of actions in
  if bool_decide (new_hashes = []) then mret actions
  else
    set ← lift (active_set ctx);
    acts ← push_micro_hashes cfg ctx set new_hashes;
    mret (actions ++ acts).

(** *** [on_macro_proposal] *)

(** Casting the vote: record, vote book, slashing scans, partial signature. *)
Definition cast_vote (ctx : HostContext) (cp : MacroCheckpoint) : MF Actions :=
  self ← gets mb_self_id;
  let height := mc_height cp in
  let source := saturating_sub height 1 in
  sig ← lift (sign_bls ctx dst.MACRO_VOTE
                (vote_message (MkVoteRecord source height (mc_hash cp)
                                 (MkBlsSig (replicate 96 0)))));
  _ ← modify (λ b, b <| votes ::= record self (MkVoteRecord source height (mc_hash cp) sig) |>);
  vs ← gets votes;
  surround ← lift (scan_for_surround vs self);
  double ← lift (scan_for_double_vote vs self);
  mret (match surround with
        | Some ev => [EmitSlashEvidence self (SE_Surround ev)]
        | None => []
        end ++
        match double with
        | Some ev => [EmitSlashEvidence self (SE_DoubleVote ev)]
        | None => []
        end).

(** The subnet aggregate this validator broadcasts as its subnet's aggregator. *)
Definition subnet_aggregate_actions (book : MacroBook) (set : ValidatorSet)
    (assign : SubnetAssign) (hash : Hash32) (subnet : SubnetId) : Actions :=
  match try_build_aggregate hash subnet (subnet_partials_of book (hash, subnet)) set assign
          (partial_sigs book) with
  | None => []
  | Some agg =>
      if bool_decide (aggregator_for subnet set assign = Some (mb_self_id book))
      then [BroadcastSubnetAggregate agg] else []
  end.

(** Signing the checkpoint and broadcasting the partial. *)
Definition sign_partial (ctx : HostContext) (cp : MacroCheckpoint) (subnet : SubnetId)
  : MF Actions :=
  self ← gets mb_self_id;
  sig ← lift (sign_bls ctx dst.MACRO_CHECKPOINT (checkpoint_message cp));
  _ ← modify (λ b, b <| partial_sigs ::= <[(mc_hash cp, self) := sig]> |>);
  mret [BroadcastBlsPartial (MkBlsPartial subnet self (mc_hash cp) sig)].

(** The rest of the handler once the proposal is locked. *)
Definition accept_proposal (cfg : Config) (ctx : HostContext) (set : ValidatorSet)
    (beacon : Hash32) (mode : AggregationMode) (cp : MacroCheckpoint) : MF Actions :=
  self ← gets mb_self_id;
  let height := mc_height cp in
  _ ← modify (λ b, b <| proposal_seen ::= union {[height]} |>
                     <| mb_timers ::= clear_backup height |>
                     <| two_chain ::= adopt cp |>
                     <| candidate ::= <[height := cp]> |>);
  _ ← modify (add_partial (mc_hash cp) self);
  evidence ← cast_vote ctx cp;
  assign ← lift (subnet_assign cfg set beacon);
  let subnet := MkSubnetId (index_for assign self) in
  partial ← sign_partial ctx cp
              (if bool_decide (mode = ModeASubnet) then subnet else MkSubnetId 0);
  let soft := [UpdateBlobStatus (blob_id_of_checkpoint cp) SoftConfirmed] in
  if bool_decide (mode = ModeASubnet) then
    _ ← modify (add_subnet_partial (mc_hash cp, subnet) self);
    book ← gets id;
    mret (evidence ++ partial ++ soft ++
          subnet_aggregate_actions book set assign (mc_hash cp) subnet)
  else mret (evidence ++ partial ++ soft).

(** [existing.iter().any(|prev| prev.checkpoint.hash != p.checkpoint.hash)] and
    its counterpart. *)
Definition any_conflicting (existing : list MacroProposal) (p : MacroProposal) : bool :=
  existsb (λ prev, bool_decide (mc_hash (mp_checkpoint prev) ≠ mc_hash (mp_checkpoint p)))
    existing.
Definition any_same (existing : list MacroProposal) (p : MacroProposal) : bool :=
  existsb (λ prev, bool_decide (mc_hash (mp_checkpoint prev) = mc_hash (mp_checkpoint p)))
    existing.

(** From the schedule check to the lock. *)
Definition consider_proposal (cfg : Config) (p : MacroProposal) (ctx : HostContext)
    (set : ValidatorSet) (beacon : Hash32) : MF Actions :=
  book ← gets id;
  let cp := mp_checkpoint p in
  let height := mc_height cp in
  schedule ← lift (vrf_sortition beacon set height (reputation book));
  mode ← lift (active_mode book cfg set height);
  if bool_decide (mode ≠ ModeBLeaderless) &&
     bool_decide (mp_proposer p ≠ ps_primary schedule) &&
     bool_decide (mp_proposer p ≠ ps_backup schedule)
  then mret []
  else if bool_decide (mc_parent cp ≠ last_macro_hash book) then mret []
  else
    match candidate book !! height with
    | None => mret []
    | Some c =>
        if negb (bool_decide (mc_micro_root c = mc_micro_root cp) &&
                 bool_decide (mc_hash c = mc_hash cp)) then mret []
        else
          let '(res, l) := try_lock (mb_self_id book) height (mc_hash cp) (locks book) in
          if is_ok res then
            _ ← modify (λ b, b <| locks := l |>);
            accept_proposal cfg ctx set beacon mode cp
          else
            _ ← modify (λ b, b <| suppressed_conflicts ::= λ n, saturating_add 64 n 1 |>);
            mret []
    end.

Definition on_macro_proposal (cfg : Config) (p : MacroProposal) (ctx : HostContext)
  : MF Actions :=
  set ← lift (active_set ctx);
  let height := mc_height (mp_checkpoint p) in
  beacons ← gets candidate_beacon;
  _ ← (if bool_decide (beacons !! height = None) then
         b ← lift (beacon_current ctx);
         modify (λ s, s <| candidate_beacon ::= <[height := b]> |>)
       else mret tt);
  book ← gets id;
  beacon ← lift (beacon_for_height book ctx height);
  let alpha := vrf_alpha beacon height (mp_proposer p) in
  if negb (verify_proposal set p alpha) then _ ← reject_crypto; mret []
  else
    let key := (height, mp_proposer p) in
    let existing := default [] (mb_proposals_seen book !! key) in
    if any_conflicting existing p then
      match existing with
      | [] => panic
      | first :: _ =>
          mret [EmitSlashEvidence (mp_proposer p)
                  (SE_MacroEquivocation (equivocation_detect (mp_proposer p) first p))]
      end
    else if any_same existing p then mret []
    else
      _ ← modify (λ b, b <| mb_proposals_seen ::= <[key := existing ++ [p]]> |>);
      consider_proposal cfg p ctx set beacon.

(** *** [on_bls_partial] *)

Definition on_partial_mode_a (cfg : Config) (bp : BlsPartial) (ctx : HostContext)
    (set : ValidatorSet) (beacon : Hash32) (height : Height) (assign : SubnetAssign)
  : MF Actions :=
  let hash := bp_checkpoint_hash bp in
  _ ← modify (add_subnet_partial (hash, bp_subnet bp) (bp_validator bp));
  _ ← modify (add_partial hash (bp_validator bp));
  book ← gets id;
  let agg := subnet_aggregate_actions book set assign hash (bp_subnet bp) in
  schedule ← lift (vrf_sortition beacon set height (reputation book));
  if bool_decide (mb_self_id book = ps_primary schedule) then
    extra ← try_emit_mode_a_qc cfg hash height ctx;
    mret (agg ++ extra)
  else mret agg.

Definition on_partial_flat (cfg : Config) (bp : BlsPartial) (set : ValidatorSet)
    (height : Height) (mode : AggregationMode) : MF Actions :=
  let hash := bp_checkpoint_hash bp in
  if bool_decide (mode = Mode0Flat) && negb (subnet_u32 (bp_subnet bp) =? 0) then mret []
  else
    _ ← modify (add_partial hash (bp_validator bp));
    book ← gets id;
    let signers := partials_of book hash in
    if negb (should_assemble_qc book signers) then mret []
    else
      match candidate book !! height with
      | None => panic
      | Some cand =>
          let qc := if bool_decide (mode = ModeBLeaderless)
                    then try_finalize_mode_b hash signers (partial_sigs book) set cand
                    else try_finalize_mode0 hash signers (partial_sigs book) set cand in
          match qc with
          | None => mret []
          | Some qc => finish_macro_qc_adoption cfg height cand qc signers
          end
      end.

Definition on_bls_partial (cfg : Config) (bp : BlsPartial) (ctx : HostContext) : MF Actions :=
  book ← gets id;
  match find_candidate book (bp_checkpoint_hash bp) with
  | None => mret []
  | Some (height, _) =>
      set ← lift (active_set ctx);
      match candidate book !! height with
      | None => panic
      | Some checkpoint =>
          if negb (verify_partial set bp checkpoint) then _ ← reject_crypto; mret []
          else
            _ ← modify (λ b, b <| partial_sigs ::=
                  <[(bp_checkpoint_hash bp, bp_validator bp) := bp_sig bp]> |>);
            if bool_decide (bp_checkpoint_hash bp ∈ emitted_macro_qc book) then mret []
            else
              mode ← lift (active_mode book cfg set height);
              beacon ← lift (beacon_for_height book ctx height);
              assign ← lift (subnet_assign cfg set beacon);
              match mode with
              | ModeASubnet => on_partial_mode_a cfg bp ctx set beacon height assign
              | _ => on_partial_flat cfg bp set height mode
              end
      end
  end.

Definition on_macro_qc_received (cfg : Config) (qc : MacroQc) (ctx : HostContext) : MF Actions :=
  book ← gets id;
  if bool_decide (qc_checkpoint_hash qc ∈ emitted_macro_qc book) then mret []
  else
    set ← lift (active_set ctx);
    let signers := partials_of book (qc_checkpoint_hash qc) in
    match find_candidate book (qc_checkpoint_hash qc) with
    | None => mret []
    | Some (height, _) =>
        match candidate book !! height with
        | None => panic
        | Some cand =>
            if negb (verify_macro_qc set qc cand) then _ ← reject_crypto; mret []
            else adopt_macro_qc cfg height cand qc signers
        end
    end.

Definition on_subnet_aggregate (cfg : Config) (agg : SubnetAggregate) (ctx : HostContext)
  : MF Actions :=
  book ← gets id;
  match find_candidate book (sa_checkpoint_hash agg) with
  | None => mret []
  | Some (height, checkpoint) =>
      set ← lift (active_set ctx);
      if negb (verify_subnet_agg set agg checkpoint (partial_sigs book))
      then _ ← reject_crypto; mret []
      else
        let hash := sa_checkpoint_hash agg in
        _ ← modify (λ b, b <| subnet_aggs ::=
              <[hash := <[sa_subnet agg := agg]> (default ∅ (subnet_aggs b !! hash))]> |>);
        try_emit_mode_a_qc cfg hash height ctx
  end.

(** *** [on_timer_fired]: the backup proposer, then Mode B *)

Definition on_backup_timer (ctx : HostContext) (height : Height) : MF Actions :=
  _ ← modify (λ b, b <| mb_timers ::= clear_backup height |>);
  book ← gets id;
  if bool_decide (height ∈ proposal_seen book) then mret []
  else
    match candidate book !! height with
    | None => mret []
    | Some cand =>
        set ← lift (active_set ctx);
        beacon ← lift (beacon_for_height book ctx height);
        schedule ← lift (vrf_sortition beacon set height (reputation book));
        if bool_decide (ps_backup schedule = mb_self_id book)
        then sign_proposal ctx beacon height cand
        else mret []
    end.

Definition on_mode_b_timer (cfg : Config) (ctx : HostContext) (height : Height) : MF Actions :=
  _ ← modify (λ b, b <| mb_timers ::= clear_mode_b height |>);
  book ← gets id;
  let already := match candidate book !! height with
                 | Some c => bool_decide (mc_hash c ∈ emitted_macro_qc book)
                 | None => false
                 end in
  _ ← (if already then mret tt
       else modify (λ b, b <| mode_b_active ::= union {[height]} |>));
  book ← gets id;
  match candidate book !! height with
  | Some cp =>
      if bool_decide (height ∈ mode_b_active book) then
        let '(res, l) := try_lock (mb_self_id book) height (mc_hash cp) (locks book) in
        if is_ok res then
          _ ← modify (λ b, b <| locks := l |>);
          set ← lift (active_set ctx);
          beacon ← lift (beacon_for_height book ctx height);
          assign ← lift (subnet_assign cfg set beacon);
          let subnet := MkSubnetId (index_for assign (mb_self_id book)) in
          _ ← modify (add_partial (mc_hash cp) (mb_self_id book));
          mode ← lift (active_mode book cfg set height);
          sign_partial ctx cp (if bool_decide (mode = ModeASubnet) then subnet else MkSubnetId 0)
        else mret []
      else mret []
  | None => mret []
  end.

Definition macro_on_timer_fired (cfg : Config) (ctx : HostContext) (id : TimerId)
    (actions : Actions) : MF Actions :=
  timers ← gets mb_timers;
  match height_for_backup_timer timers id with
  | Some height => acts ← on_backup_timer ctx height; mret (actions ++ acts)
  | None =>
      match height_for_mode_b_timer timers id with
      | Some height => acts ← on_mode_b_timer cfg ctx height; mret (actions ++ acts)
      | None => mret actions
      end
  end.

(** [probe_inactivity_leak_streak]: one window of its loop. *)
Definition probe_window (cfg : Config) (i : Z) : MF Actions :=
  let parent := if i =? 0 then Hash32_zero else MkHash32 (replicate 32 0x99) in
  let cp := build i 0 parent (MkHash32 (replicate 32 (i + 1))) in
  _ ← modify (λ b, b <| candidate ::= <[i := cp]> |> <| two_chain ::= adopt cp |>);
  finalized ← gets (λ b, newly_finalized_height (two_chain b));
  acts ← note_inactivity_leak_on_adoption cfg (bool_decide (is_Some finalized));
  _ ← match finalized with
      | Some prev => modify (λ b, b <| two_chain ::= mark_finalized prev |>)
      | None => mret tt
      end;
  mret acts.

Fixpoint probe_windows (cfg : Config) (l : list Z) : MF Actions :=
  match l with
  | [] => mret []
  | i :: l => a ← probe_window cfg i; b ← probe_windows cfg l; mret (a ++ b)
  end.

Definition is_leak (a : Action) : bool :=
  match a with NotifyInactivityLeak _ _ => true | _ => false end.

Definition probe_inactivity_leak_streak (cfg : Config) : bool :=
  match (probe_windows cfg (seqZ 0 4)
           (MacroBook_new (MkValidatorId (replicate 32 0)))).1 with
  | Ok acts => existsb is_leak acts
  | _ => false
  end.
End macro_fin.

Example probe_default : probe_inactivity_leak_streak default_table_17_1 = true.
Proof. by vm_compute. Qed.

(** ** Invariant of the book *)

Record book_wf (b : MacroBook) : Prop := {
  bw_candidate h c : candidate b !! h = Some c → mc_height c = h ∧ 0 ≤ h;
  bw_next : 0 ≤ next_height b;
  bw_two_chain : two_chain_wf (two_chain b);
}.

Lemma find_candidate_Some s hash h c :
  find_candidate s hash = Some (h, c) → candidate s !! h = Some c ∧ mc_hash c = hash.
Proof.
  unfold find_candidate. intros ([i kv] & (Hl & Hh & _)%list_find_Some & He)%fmap_Some.
  cbn in He. subst kv. split; [|done].
  apply elem_of_btree_entries. by eapply list_elem_of_lookup_2.
Qed.

Lemma find_candidate_None s hash :
  find_candidate s hash = None → ∀ h c, candidate s !! h = Some c → mc_hash c ≠ hash.
Proof.
  unfold find_candidate. intros Hn%fmap_None h c Hc. rewrite list_find_None, Forall_forall in Hn.
  apply (Hn (h, c)). by apply elem_of_btree_entries.
Qed.

Lemma book_wf_new self : book_wf (MacroBook_new self).
Proof. split; cbn; [by intros h c|done|apply two_chain_wf_default]. Qed.

(** Calls that leave the certificates alone: same identity, same emitted set,
    invariant preserved. *)
Record steady (s s' : MacroBook) : Prop := {
  st_self : mb_self_id s' = mb_self_id s;
  st_emitted : emitted_macro_qc s' = emitted_macro_qc s;
  st_wf : book_wf s → book_wf s';
}.

#[global] Instance steady_preorder : PreOrder steady.
Proof.
  split; [by split|]. intros s1 s2 s3 [H1 H2 H3] [H4 H5 H6]. split; [congruence..|auto].
Qed.

(** Actions of the layer that neither broadcast a macro certificate nor
    finalize a blob. *)
Definition loud (a : Action) : bool :=
  match a with
  | BroadcastMacroQc _ | UpdateBlobStatus _ Finalized => true
  | _ => negb (speaks_one L3 a)
  end.
Definition silent (acts : Actions) : Prop := Forall (λ a, loud a = false) acts.

(** [calm P s]: a steady call from [s] whose result, if any, satisfies [P]. *)
Definition calm {A} (P : A → Prop) (s : MacroBook) (r : result A) (s' : MacroBook) : Prop :=
  steady s s' ∧ match r with Ok a => P a | _ => True end.

Lemma silent_app a b : silent a → silent b → silent (a ++ b).
Proof. apply Forall_app_2. Qed.

Section calm.
Abbreviation MF := (M Error MacroBook).

Lemma calm_bind {A B} (m : MF A) (f : A → MF B) (P : A → Prop) (Q : B → Prop) s0 s :
  steady s0 s → wp m (calm P s) s →
  (∀ a s', steady s0 s' → P a → wp (f a) (calm Q s0) s') →
  wp (m ≫= f) (calm Q s0) s.
Proof.
  intros Hs Hm Hf. apply wp_bind. eapply wp_mono; [|exact Hm].
  intros r s' [Hs' Hr]. assert (H' : steady s0 s') by by etrans.
  destruct r; [by apply Hf|by split..].
Qed.

(** Reads leave the state as it is. *)
Lemma calm_bind_gets {A B} (g : MacroBook → A) (f : A → MF B) (Q : B → Prop) s0 s :
  wp (f (g s)) (calm Q s0) s → wp (gets g ≫= f) (calm Q s0) s.
Proof. done. Qed.

Lemma calm_bind_lift {A B} (m : result A) (f : A → MF B) (Q : B → Prop) s0 s :
  steady s0 s → (∀ a, m = Ok a → wp (f a) (calm Q s0) s) →
  wp (lift m ≫= f) (calm Q s0) s.
Proof.
  intros Hs Hf. apply wp_bind, wp_lift. destruct m; [by apply Hf|by split..].
Qed.

Lemma calm_ret {A} (a : A) (P : A → Prop) s0 s :
  steady s0 s → P a → wp (mret a : MF A) (calm P s0) s.
Proof. by split. Qed.

Lemma calm_modify (f : MacroBook → MacroBook) s :
  steady s (f s) → wp (modify f : MF unit) (calm (λ _, True) s) s.
Proof. by split. Qed.

Lemma calm_panic {A} (P : A → Prop) s0 s : steady s0 s → wp (panic : MF A) (calm P s0) s.
Proof. by split. Qed.

Lemma calm_weaken {A} (P Q : A → Prop) (m : MF A) s0 s :
  steady s0 s → wp m (calm P s) s → (∀ a, P a → Q a) → wp m (calm Q s0) s.
Proof.
  intros Hs Hm HPQ. eapply wp_mono; [|exact Hm]. intros r s' [Hs' Hr].
  split; [by etrans|]. destruct r; auto.
Qed.

(** A call on the timers leaves the rest of the book alone. *)
Lemma calm_timers {A} (m : M Error MacroTimerBook A) s :
  wp (zoom mb_timers m) (calm (λ _, True) s) s.
Proof.
  apply wp_zoom. split; [split; [done..|by intros []]|]. by destruct (m (mb_timers s)).1.
Qed.
End calm.

(** [steady] for an update of fields the invariant does not read. *)
Ltac steady_update := split; [reflexivity|reflexivity|by intros [???]; split].

(** One step of a computation that is calm; [lemmas] of its calls come from the
    hint database [calm]. *)
Create HintDb calm.
Ltac calm_step :=
  lazymatch goal with
  | |- wp (mret _) _ _ => apply calm_ret; [done|]
  | |- wp (mbind _ (gets _)) _ _ => apply calm_bind_gets; cbv beta
  | |- wp (mbind _ (lift _)) _ _ => apply calm_bind_lift; [eassumption|intros ? ?]
  | |- wp (mbind _ (modify _)) _ _ =>
      eapply calm_bind; [eassumption|apply calm_modify; try steady_update|
                         cbv beta; intros ? ? ? _]
  | |- wp (mbind _ _) _ _ =>
      eapply calm_bind; [eassumption|by eauto with calm|cbv beta; intros ? ? ? ?]
  | |- wp panic _ _ => by apply calm_panic
  | |- wp (if ?b then _ else _) _ _ => destruct b eqn:?
  | |- wp (match ?x with _ => _ end) _ _ => destruct x eqn:?
  end.

Section quiet_calls.
Context `{Build, Primitives, MacroBorsh}.

Abbreviation hushed := (calm silent).

Lemma calm_reject s : wp reject_crypto (calm (λ _, True) s) s.
Proof.
  unfold reject_crypto. assert (steady s s) by done.
  do 2 calm_step. eapply calm_weaken; [eassumption|apply calm_modify; steady_update|done].
Qed.

Lemma calm_bump_reputation cfg signers s :
  wp (bump_reputation cfg signers) (calm (λ _, True) s) s.
Proof.
  unfold bump_reputation. eapply wp_mono; [|apply (wp_for_each (steady s)); [|done]].
  { intros r s' Hs. split; [done|]. by destruct r. }
  intros v s1 _ Hs. do 4 wp_step. destruct (Reputation_updated _ _ _); [|done..].
  wp_step. etrans; [exact Hs|]. steady_update.
Qed.

Lemma wp_note_leak cfg fin s :
  wp (note_inactivity_leak_on_adoption cfg fin) (λ r s', hushed s r s' ∧
    two_chain s' = two_chain s ∧ candidate s' = candidate s ∧ is_ok r = true) s.
Proof.
  unfold note_inactivity_leak_on_adoption. destruct fin.
  - do 3 wp_step. split_and!; try done. split; [steady_update|by constructor].
  - do 6 wp_step. destruct (leak_compute cfg _) as [b a].
    destruct (a && _); do 3 try wp_step; (split_and!; try done);
      (split; [steady_update|by repeat constructor]).
Qed.

(** *** The calls that never broadcast a certificate *)

Lemma calm_backup_action cfg height s :
  wp (zoom mb_timers (backup_propose_action cfg height)) (calm (λ a, loud a = false) s) s.
Proof.
  apply wp_zoom. split; [steady_update|].
  unfold backup_propose_action, alloc_id, mbind, M_bind, zoom.
  by destruct (allocate _) as [[id| | |] t].
Qed.

Lemma calm_mode_b_action cfg height s :
  wp (zoom mb_timers (mode_b_deadline_action cfg height)) (calm (λ a, loud a = false) s) s.
Proof.
  apply wp_zoom. split; [steady_update|].
  unfold mode_b_deadline_action, alloc_id, mbind, M_bind, zoom.
  by destruct (allocate _) as [[id| | |] t].
Qed.

Lemma calm_sign_proposal ctx beacon height cand s :
  wp (sign_proposal ctx beacon height cand) (hushed s) s.
Proof.
  unfold sign_proposal. assert (steady s s) by done. repeat calm_step.
  by repeat constructor.
Qed.

Lemma calm_sign_partial ctx cp subnet s : wp (sign_partial ctx cp subnet) (hushed s) s.
Proof.
  unfold sign_partial. assert (steady s s) by done. repeat calm_step.
  by repeat constructor.
Qed.

Lemma calm_cast_vote ctx cp s : wp (cast_vote ctx cp) (hushed s) s.
Proof.
  unfold cast_vote. assert (steady s s) by done. repeat calm_step.
  apply silent_app; case_match; by repeat constructor.
Qed.

Lemma silent_subnet_aggregate book set assign hash subnet :
  silent (subnet_aggregate_actions book set assign hash subnet).
Proof. unfold subnet_aggregate_actions. repeat case_match; by repeat constructor. Qed.
End quiet_calls.

#[export] Hint Resolve calm_reject calm_bump_reputation calm_backup_action calm_mode_b_action
  calm_sign_proposal calm_sign_partial calm_cast_vote : calm.
#[export] Hint Resolve silent_app silent_subnet_aggregate : calm.

Lemma silent_nil : silent [].
Proof. constructor. Qed.
Lemma silent_one a : loud a = false → silent [a].
Proof. by repeat constructor. Qed.
#[export] Hint Resolve silent_nil silent_one : calm.

Lemma build_height `{Primitives, MacroBorsh} h e p r : mc_height (build h e p r) = h.
Proof. done. Qed.

Section silent_handlers.
Context `{Build, Primitives, MacroBorsh}.
Abbreviation hushed := (calm silent).

Lemma book_wf_insert_candidate b h c b' :
  book_wf b → mc_height c = h → 0 ≤ h →
  candidate b' = <[h := c]> (candidate b) → next_height b' = next_height b →
  two_chain b' = two_chain b → book_wf b'.
Proof.
  intros [Hc Hn Ht] Hh Hp Hc' Hn' Ht'. split; [|by rewrite Hn'|by rewrite Ht'].
  intros h' c'. rewrite Hc'. intros [[<- <-]|[_ ?]]%lookup_insert_Some; [done|by apply Hc].
Qed.

Lemma calm_schedule_actions (b : bool) (m : M Error MacroBook Action) s :
  wp m (calm (λ a, loud a = false) s) s →
  wp (if b then a ← m; mret [a] else mret []) (hushed s) s.
Proof.
  intros Hm. assert (steady s s) by done. destruct b; [|calm_step; by constructor].
  eapply calm_bind; [done|exact Hm|]. intros a s' ? Ha. calm_step. by apply silent_one.
Qed.

Lemma calm_build_candidate cfg ctx set s : wp (build_candidate cfg ctx set) (hushed s) s.
Proof.
  unfold build_candidate. assert (steady s s) by done. calm_step. unfold id.
  eapply calm_bind; [eassumption|apply calm_modify|cbv beta; intros [] s1 Hs1 _].
  { split; [done..|]. intros Hwf. eapply book_wf_insert_candidate; [exact Hwf| | |done..];
      [done|apply Hwf]. }
  do 3 calm_step.
  eapply calm_bind; [eassumption| |intros acts s4 Hs4 Hacts].
  { instantiate (1 := silent). case_bool_decide; [by auto with calm|].
    apply calm_schedule_actions. auto with calm. }
  eapply calm_bind; [eassumption| |intros acts' s5 Hs5 Hacts'].
  { apply calm_schedule_actions. auto with calm. }
  calm_step. by apply silent_app.
Qed.

Lemma calm_push_micro_hashes cfg ctx set hashes s :
  wp (push_micro_hashes cfg ctx set hashes) (hushed s) s.
Proof.
  revert s. induction hashes as [|h hashes IH]; intros s; cbn [push_micro_hashes].
  { by apply calm_ret, silent_nil. }
  assert (steady s s) by done. do 2 calm_step.
  eapply calm_bind; [eassumption| |intros acts s4 Hs4 Hacts].
  { instantiate (1 := silent). destruct (_ <? _); [by apply calm_ret, silent_nil|].
    apply calm_build_candidate. }
  eapply calm_bind; [eassumption|apply IH|intros rest s5 Hs5 Hrest].
  calm_step. by apply silent_app.
Qed.

(** [on_local_micro_qcs] only appends silent actions. *)
Lemma calm_on_local_micro_qcs cfg ctx actions s :
  wp (on_local_micro_qcs cfg ctx actions)
    (calm (λ acts, ∃ more, acts = actions ++ more ∧ silent more) s) s.
Proof.
  unfold on_local_micro_qcs. assert (steady s s) by done. case_bool_decide.
  { apply calm_ret; [done|]. exists []. rewrite app_nil_r. auto with calm. }
  calm_step. eapply calm_bind; [eassumption|apply calm_push_micro_hashes|].
  intros acts s2 Hs2 Hacts. apply calm_ret; [done|]. eauto.
Qed.

Lemma calm_accept_proposal cfg ctx set beacon mode cp s :
  (book_wf s → 0 ≤ mc_height cp) →
  wp (accept_proposal cfg ctx set beacon mode cp) (hushed s) s.
Proof.
  intros Hpos. unfold accept_proposal. assert (steady s s) by done. calm_step.
  eapply calm_bind; [eassumption|apply calm_modify|cbv beta; intros [] s1 Hs1 _].
  { split; [done..|]. intros Hwf. specialize (Hpos Hwf).
    apply (book_wf_insert_candidate (s <| two_chain ::= adopt cp |>) (mc_height cp) cp);
      [|done..]. destruct Hwf as [Hc Hn Ht]. split; [done..|]. by apply adopt_wf. }
  repeat calm_step; auto 6 with calm.
Qed.

Lemma try_lock_is_ok v h c l : (try_lock v h c l).1 = Ok tt ∨ (try_lock v h c l).2 = l.
Proof. destruct (try_lock_cases v h c l) as [(p & _ & _ & ->)|[_ ->]]; auto. Qed.

Lemma calm_consider_proposal cfg p ctx set beacon s :
  wp (consider_proposal cfg p ctx set beacon) (hushed s) s.
Proof.
  unfold consider_proposal. assert (steady s s) by done. do 3 calm_step. unfold id.
  destruct (_ && _ && _); [by apply calm_ret, silent_nil|].
  case_bool_decide; [by apply calm_ret, silent_nil|].
  destruct (candidate s !! mc_height (mp_checkpoint p)) as [c|] eqn:Hc;
    [|by apply calm_ret, silent_nil].
  destruct (negb _); [by apply calm_ret, silent_nil|].
  destruct (try_lock _ _ _ _) as [res l]. destruct (is_ok res).
  - wp_step. wp_step. eapply calm_weaken; [|apply calm_accept_proposal|done].
    + steady_update.
    + intros Hwf. by apply (bw_candidate _ Hwf) in Hc as [_ ?].
  - calm_step. by apply calm_ret, silent_nil.
Qed.

Lemma calm_on_macro_proposal cfg p ctx s : wp (on_macro_proposal cfg p ctx) (hushed s) s.
Proof.
  unfold on_macro_proposal. assert (steady s s) by done. do 2 calm_step.
  eapply calm_bind; [eassumption| |intros [] s1 Hs1 _].
  { instantiate (1 := λ _, True). case_bool_decide; [|by apply calm_ret].
    calm_step. eapply calm_weaken; [eassumption|apply calm_modify; steady_update|done]. }
  do 2 calm_step. destruct (negb _); [calm_step; by apply calm_ret, silent_nil|].
  destruct (any_conflicting _ _).
  { destruct (default _ _); [by apply calm_panic|]. by apply calm_ret, silent_one. }
  destruct (any_same _ _); [by apply calm_ret, silent_nil|]. calm_step.
  eapply calm_weaken; [eassumption|apply calm_consider_proposal|done].
Qed.

Lemma calm_on_backup_timer ctx height s : wp (on_backup_timer ctx height) (hushed s) s.
Proof.
  unfold on_backup_timer. assert (steady s s) by done. do 2 calm_step.
  case_bool_decide; [by apply calm_ret, silent_nil|]. unfold id.
  destruct (candidate s' !! height); [|by apply calm_ret, silent_nil]. do 3 calm_step.
  case_bool_decide; [|by apply calm_ret, silent_nil].
  eapply calm_weaken; [eassumption|apply calm_sign_proposal|done].
Qed.

Lemma calm_on_mode_b_timer cfg ctx height s : wp (on_mode_b_timer cfg ctx height) (hushed s) s.
Proof.
  unfold on_mode_b_timer. assert (steady s s) by done. do 2 calm_step. unfold id.
  eapply calm_bind; [eassumption| |intros [] s2 Hs2 _].
  { instantiate (1 := λ _, True).
    match goal with |- wp (if ?b then _ else _) _ _ => destruct b end; [by apply calm_ret|].
    apply calm_modify. steady_update. }
  calm_step. destruct (candidate s2 !! height) as [cp|]; [|by apply calm_ret, silent_nil].
  case_bool_decide; [|by apply calm_ret, silent_nil].
  destruct (try_lock _ _ _ _) as [res l]. destruct (is_ok res);
    [|by apply calm_ret, silent_nil].
  do 6 calm_step. eapply calm_weaken; [eassumption|apply calm_sign_partial|done].
Qed.

Lemma calm_macro_on_timer_fired cfg ctx id actions s :
  wp (macro_on_timer_fired cfg ctx id actions)
    (calm (λ acts, ∃ more, acts = actions ++ more ∧ silent more) s) s.
Proof.
  unfold macro_on_timer_fired. assert (steady s s) by done. calm_step.
  destruct (height_for_backup_timer _ _) as [h|].
  { eapply calm_bind; [eassumption|apply calm_on_backup_timer|].
    intros acts s1 Hs1 Ha. apply calm_ret; eauto. }
  destruct (height_for_mode_b_timer _ _) as [h|].
  { eapply calm_bind; [eassumption|apply calm_on_mode_b_timer|].
    intros acts s1 Hs1 Ha. apply calm_ret; eauto. }
  apply calm_ret; [done|]. exists []. rewrite app_nil_r. auto with calm.
Qed.
End silent_handlers.

(** ** Adoption *)

Definition mqcs_of (acts : Actions) : list Hash32 :=
  omap (λ a, match a with BroadcastMacroQc qc => Some (qc_checkpoint_hash qc) | _ => None end)
    acts.

Lemma mqcs_of_app a b : mqcs_of (a ++ b) = mqcs_of a ++ mqcs_of b.
Proof. apply omap_app. Qed.

Lemma silent_mqcs acts : silent acts → mqcs_of acts = [].
Proof.
  induction 1 as [|a acts Ha _ IH]; [done|]. unfold mqcs_of in *. cbn. by destruct a.
Qed.

Lemma silent_speaks acts : silent acts → speaks L3 acts = true.
Proof.
  induction 1 as [|a acts Ha _ IH]; [done|]. apply andb_true_iff. split; [|exact IH].
  by destruct a.
Qed.

Lemma silent_no_final acts blob : silent acts → UpdateBlobStatus blob Finalized ∉ acts.
Proof.
  intros Hs Hin. unfold silent in Hs. rewrite Forall_forall in Hs. by apply Hs in Hin.
Qed.

(** [blob] is that of a checkpoint whose child, the next adopted height, names
    it as parent, and which is the finalized head. *)
Definition finalizes (b : MacroBook) (blob : BlobId) : Prop :=
  ∃ prev prev_cp head_cp c,
    adopted (two_chain b) !! prev = Some prev_cp ∧
    adopted (two_chain b) !! (prev + 1) = Some head_cp ∧
    mc_parent head_cp = mc_hash prev_cp ∧
    finalized_head (two_chain b) = Some (mc_hash prev_cp) ∧
    candidate b !! prev = Some c ∧ blob = blob_id_of_checkpoint c.

(** What every handler guarantees of a call that ends in [s'] with [acts]. *)
Record macro_post (s s' : MacroBook) (acts : Actions) : Prop := {
  mp_self : mb_self_id s' = mb_self_id s;
  mp_emitted : emitted_macro_qc s ⊆ emitted_macro_qc s';
  mp_wf : book_wf s → book_wf s';
  mp_speaks : speaks L3 acts = true;
  mp_nodup : NoDup (mqcs_of acts);
  mp_new h : h ∈ mqcs_of acts → h ∉ emitted_macro_qc s ∧ h ∈ emitted_macro_qc s';
  mp_final blob : UpdateBlobStatus blob Finalized ∈ acts → finalizes s' blob;
}.

Definition macro_res (s : MacroBook) (r : result Actions) (s' : MacroBook) : Prop :=
  macro_post s s' (match r with Ok acts => acts | _ => [] end).

Lemma steady_post s s' acts : steady s s' → silent acts → macro_post s s' acts.
Proof.
  intros [H1 H2 H3] Hs. split; [done|by rewrite H2|done|by apply silent_speaks|..].
  - rewrite silent_mqcs by done. by apply NoDup_nil.
  - intros h. rewrite silent_mqcs by done. by intros ?%elem_of_nil.
  - intros blob Hin. by apply silent_no_final in Hin.
Qed.

Lemma hushed_res s r s' : calm silent s r s' → macro_res s r s'.
Proof. intros [Hs Hr]. apply steady_post; [done|]. destruct r; [done|by constructor..]. Qed.

Lemma steady_then_post s s1 s2 acts : steady s s1 → macro_post s1 s2 acts → macro_post s s2 acts.
Proof.
  intros [H1 H2 H3] [G1 G2 G3 G0 G4 G5 G6].
  split; [congruence|by rewrite <- H2|auto|done|done| |done]. intros h. rewrite <- H2. apply G5.
Qed.

Lemma post_app s s' a b :
  macro_post s s' a → silent b → macro_post s s' (b ++ a) ∧ macro_post s s' (a ++ b).
Proof.
  intros [G1 G2 G3 G0 G4 G5 G6] Hb. pose proof (silent_speaks b Hb).
  split; (split; [done..|by apply speaks_app| | |]; rewrite ?mqcs_of_app, ?(silent_mqcs b), ?app_nil_r by done;
    try done; intros blob [Hin|Hin]%elem_of_app; auto; by apply silent_no_final in Hin).
Qed.

Section adoption.
Context `{Build, Primitives, MacroBorsh}.
Abbreviation hushed := (calm silent).

(** The finality tail: emitted set and identity kept, finality justified. *)
Record tail_post (s s' : MacroBook) (acts : Actions) : Prop := {
  tp_self : mb_self_id s' = mb_self_id s;
  tp_emitted : emitted_macro_qc s' = emitted_macro_qc s;
  tp_wf : book_wf s → book_wf s';
  tp_mqcs : mqcs_of acts = [];
  tp_speaks : speaks L3 acts = true;
  tp_final blob : UpdateBlobStatus blob Finalized ∈ acts → finalizes s' blob;
}.

Lemma steady_tail s s' acts : steady s s' → silent acts → tail_post s s' acts.
Proof.
  intros [E1 E2 E3] Hs. split; [done..|by apply silent_mqcs|by apply silent_speaks|].
  intros blob Hin. by apply silent_no_final in Hin.
Qed.

Lemma wp_finality_tail cfg s :
  wp (finality_tail cfg) (λ r s',
    tail_post s s' (match r with Ok acts => acts | _ => [] end)) s.
Proof.
  unfold finality_tail. do 2 wp_step. wp_step. eapply wp_mono; [|apply wp_note_leak].
  intros r s1 ([Hs1 Hr] & Ht & Hc & Hok). destruct r as [leak| | |]; [|done..].
  destruct (newly_finalized_height (two_chain s)) as [prev|] eqn:Hn.
  2: { wp_step. by apply steady_tail. }
  do 5 wp_step. apply newly_finalized_links in Hn as (pc & hc & Hl).
  destruct Hl as (Hp & Hh & _ & Hlink & _).
  assert (Hm : two_chain (s1 <| two_chain ::= mark_finalized prev |>) =
               (two_chain s1) <| finalized_head := Some (mc_hash pc) |>).
  { change (mark_finalized prev (two_chain s1) =
            (two_chain s1) <| finalized_head := Some (mc_hash pc) |>).
    unfold mark_finalized. by rewrite Ht, Hp. }
  set (s2 := s1 <| two_chain ::= mark_finalized prev |>) in *.
  change (candidate s2) with (candidate s1).
  destruct Hs1 as [E1 E2 E3]. split; [done..| | | |].
  - intros Hwf. destruct (E3 Hwf) as [B1 B2 B3]. split; [done..|].
    by apply mark_finalized_wf.
  - rewrite mqcs_of_app, (silent_mqcs leak) by done. by destruct (candidate s1 !! prev).
  - apply speaks_app. split; [by apply silent_speaks|by destruct (candidate s1 !! prev)].
  - intros blob [Hin|Hin]%elem_of_app; [by apply silent_no_final in Hin|].
    destruct (candidate s1 !! prev) as [c|] eqn:Hcc; [|by apply elem_of_nil in Hin].
    apply list_elem_of_singleton in Hin as [= ->].
    exists prev, pc, hc, c. rewrite Hm, Ht. split_and!; try done.
Qed.

Lemma record_certificate_wf cand qc s :
  0 ≤ mc_height cand → book_wf s → book_wf (record_certificate cand qc s).
Proof. intros Hc [B1 B2 B3]. split; [exact B1|exact B2|]. by apply adopt_wf. Qed.
Lemma record_adoption_wf next height s :
  0 ≤ next → book_wf s → book_wf (record_adoption next height s).
Proof. intros Hn [B1 B2 B3]. by split. Qed.

Lemma wp_adopt_macro_qc cfg height cand qc signers s :
  candidate s !! height = Some cand →
  wp (adopt_macro_qc cfg height cand qc signers) (λ r s',
    mb_self_id s' = mb_self_id s ∧
    emitted_macro_qc s ⊆ emitted_macro_qc s' ∧
    (∀ acts, r = Ok acts → qc_checkpoint_hash qc ∈ emitted_macro_qc s') ∧
    (book_wf s → book_wf s') ∧
    (∀ acts, r = Ok acts → mqcs_of acts = [] ∧ speaks L3 acts = true ∧
       ∀ blob, UpdateBlobStatus blob Finalized ∈ acts → finalizes s' blob)) s.
Proof.
  intros Hcand. unfold adopt_macro_qc. do 2 wp_step. set (s0 := record_certificate cand qc s).
  assert (He0 : emitted_macro_qc s0 = {[qc_checkpoint_hash qc]} ∪ emitted_macro_qc s) by done.
  assert (Hwf0 : book_wf s → book_wf s0).
  { intros Hwf. apply (bw_candidate _ Hwf) in Hcand as [Hh ?].
    apply record_certificate_wf; [by rewrite Hh|done]. }
  do 2 wp_step.
  destruct (add_w 64 height 1) as [next| | |] eqn:Hadd;
    [|by split_and!; [|rewrite He0; set_solver|..]..].
  do 2 wp_step. set (s1 := record_adoption next height s0).
  assert (He1 : emitted_macro_qc s1 = {[qc_checkpoint_hash qc]} ∪ emitted_macro_qc s) by done.
  assert (Hwf1 : book_wf s → book_wf s1).
  { intros Hwf. apply add_w_range in Hadd as [? _]; [|lia].
    apply record_adoption_wf; [done|by apply Hwf0]. }
  wp_step. eapply wp_mono; [|apply calm_bump_reputation].
  intros r s2 [[S1 S2 S3] _].
  destruct r as [[]| | |]; try (split_and!; [by rewrite S1|set_solver|done|auto|done]).
  wp_step. eapply wp_mono; [|apply wp_finality_tail].
  intros r s3 [T1 T2 T3 T4 TL T5].
  destruct r as [tail| | |];
    try (split_and!; [by rewrite T1, S1|set_solver|done|auto|done]).
  wp_step. split_and!; [by rewrite T1, S1|set_solver|set_solver|auto|].
  intros acts [= <-]. split; [exact T4|]. split; [exact TL|]. intros blob Hin. apply T5.
  by repeat (apply elem_of_cons in Hin as [Hin|Hin]; [discriminate Hin|]).
Qed.

Lemma wp_adopt_res cfg height cand qc signers s :
  candidate s !! height = Some cand →
  wp (adopt_macro_qc cfg height cand qc signers) (macro_res s) s.
Proof.
  intros Hc. eapply wp_mono; [|by apply wp_adopt_macro_qc].
  intros r s' (E1 & E2 & _ & E3 & Hacts). unfold macro_res.
  destruct r as [acts| | |];
    [destruct (Hacts acts eq_refl) as (Hm & Hl & Hf)|split; try done; try by apply NoDup_nil..].
  - split; [done..| | |done]; rewrite Hm; [by apply NoDup_nil|by intros h ?%elem_of_nil].
  - by intros h ?%elem_of_nil.
  - by intros b ?%elem_of_nil.
  - by intros h ?%elem_of_nil.
  - by intros b ?%elem_of_nil.
  - by intros h ?%elem_of_nil.
  - by intros b ?%elem_of_nil.
Qed.

Lemma wp_finish_macro_qc cfg height cand qc signers s :
  candidate s !! height = Some cand → qc_checkpoint_hash qc ∉ emitted_macro_qc s →
  wp (finish_macro_qc_adoption cfg height cand qc signers) (macro_res s) s.
Proof.
  intros Hc Hnew. unfold finish_macro_qc_adoption. wp_step.
  eapply wp_mono; [|by apply wp_adopt_macro_qc].
  intros r s' (E1 & E2 & Hin & E3 & Hacts). unfold macro_res.
  destruct r as [acts| | |].
  2-4: split; [done..|by apply NoDup_nil|by intros h ?%elem_of_nil|by intros b ?%elem_of_nil].
  wp_step. destruct (Hacts acts eq_refl) as (Hm & Hl & Hf). specialize (Hin acts eq_refl).
  assert (Hm' : mqcs_of (BroadcastMacroQc qc :: acts) = [qc_checkpoint_hash qc]).
  { unfold mqcs_of in *. cbn. by rewrite Hm. }
  split; [done..| | |]; rewrite ?Hm'.
  - apply NoDup_singleton.
  - by intros h ->%list_elem_of_singleton.
  - intros blob [?|?]%elem_of_cons; [done|by apply Hf].
Qed.
End adoption.

Section certificate_handlers.
Context `{Build, Primitives, MacroBorsh}.

Lemma res_steady s s' : steady s s' → macro_post s s' [].
Proof. intros. by apply steady_post, silent_nil. Qed.

Lemma wp_res_steady {m : M Error MacroBook Actions} s0 s :
  steady s0 s → wp m (macro_res s) s → wp m (macro_res s0) s.
Proof.
  intros Hs Hm. eapply wp_mono; [|exact Hm]. intros r s' Hr.
  by eapply steady_then_post.
Qed.

(** Reading steps before a certificate is assembled. *)
Lemma res_bind_lift {A} (m : result A) (f : A → M Error MacroBook Actions) s :
  (∀ a, m = Ok a → wp (f a) (macro_res s) s) → wp (lift m ≫= f) (macro_res s) s.
Proof.
  intros Hf. apply wp_bind, wp_lift. destruct m; [by apply Hf|by apply res_steady..].
Qed.

Lemma res_ret_silent acts s : silent acts → wp (mret acts) (macro_res s) s.
Proof. intros. by apply wp_ret, steady_post. Qed.

Lemma try_finalize_mode_a_hash hash aggs set ps qc :
  try_finalize_mode_a_from_aggs hash aggs set ps = Some qc → qc_checkpoint_hash qc = hash.
Proof. by intros (_ & sigs & agg & _ & _ & ->)%try_finalize_mode_a_Some. Qed.

Lemma try_finalize_mode0_hash hash signers ps set cand qc :
  try_finalize_mode0 hash signers ps set cand = Some qc → qc_checkpoint_hash qc = hash.
Proof. by intros (_ & _ & sigs & agg & _ & _ & ->)%try_finalize_mode0_Some. Qed.

Lemma try_finalize_mode_b_hash hash signers ps set cand qc :
  try_finalize_mode_b hash signers ps set cand = Some qc → qc_checkpoint_hash qc = hash.
Proof.
  unfold try_finalize_mode_b. intros (q & Hq & [= <-])%bind_Some.
  by apply try_finalize_mode0_hash in Hq.
Qed.

Lemma wp_try_emit_mode_a_qc cfg hash height ctx s :
  wp (try_emit_mode_a_qc cfg hash height ctx) (macro_res s) s.
Proof.
  unfold try_emit_mode_a_qc. apply res_bind_lift. intros set _. do 2 wp_step.
  case_bool_decide; [by apply res_ret_silent, silent_nil|]. do 2 wp_step. unfold id.
  apply res_bind_lift. intros beacon _. apply res_bind_lift. intros schedule _.
  case_bool_decide; [by apply res_ret_silent, silent_nil|].
  destruct (try_finalize_mode_a_from_aggs _ _ _ _) as [qc|] eqn:Hqc;
    [|by apply res_ret_silent, silent_nil].
  apply try_finalize_mode_a_hash in Hqc.
  case_bool_decide as Hnew; [by apply res_ret_silent, silent_nil|].
  destruct (candidate s !! height) as [cand|] eqn:Hc; [|by apply res_steady].
  apply wp_finish_macro_qc; [done|by rewrite Hqc].
Qed.

Lemma wp_on_partial_flat cfg bp set height mode s :
  bp_checkpoint_hash bp ∉ emitted_macro_qc s →
  wp (on_partial_flat cfg bp set height mode) (macro_res s) s.
Proof.
  intros Hnew. unfold on_partial_flat.
  destruct (_ && _); [by apply res_ret_silent, silent_nil|]. do 2 wp_step.
  set (s1 := add_partial _ _ s). apply (wp_res_steady s s1); [steady_update|].
  do 2 wp_step. unfold id. destruct (negb _); [by apply res_ret_silent, silent_nil|].
  destruct (candidate s1 !! height) as [cand|] eqn:Hc; [|by apply res_steady].
  case_bool_decide.
  - destruct (try_finalize_mode_b _ _ _ _ _) as [qc|] eqn:Hqc;
      [|by apply res_ret_silent, silent_nil].
    apply try_finalize_mode_b_hash in Hqc. apply wp_finish_macro_qc; [done|by rewrite Hqc].
  - destruct (try_finalize_mode0 _ _ _ _ _) as [qc|] eqn:Hqc;
      [|by apply res_ret_silent, silent_nil].
    apply try_finalize_mode0_hash in Hqc. apply wp_finish_macro_qc; [done|by rewrite Hqc].
Qed.

Lemma wp_on_partial_mode_a cfg bp ctx set beacon height assign s :
  wp (on_partial_mode_a cfg bp ctx set beacon height assign) (macro_res s) s.
Proof.
  unfold on_partial_mode_a. do 4 wp_step. set (s1 := add_partial _ _ _).
  apply (wp_res_steady s s1); [steady_update|]. do 2 wp_step. unfold id.
  set (agg := subnet_aggregate_actions _ _ _ _ _).
  assert (Hagg : silent agg) by apply silent_subnet_aggregate.
  apply res_bind_lift. intros schedule _. case_bool_decide; [|by apply res_ret_silent].
  wp_step. eapply wp_mono; [|apply wp_try_emit_mode_a_qc].
  intros [extra| | |] s2 Hr; [|done..]. wp_step.
  by apply (post_app s1 s2 extra agg Hr Hagg).
Qed.

Lemma wp_reject_then s (k : M Error MacroBook Actions) :
  (∀ s', steady s s' → wp k (macro_res s) s') →
  wp (_ ← reject_crypto; k) (macro_res s) s.
Proof.
  intros Hk. wp_step. eapply wp_mono; [|apply calm_reject].
  intros r s' [Hs _]. destruct r; [by apply Hk|by apply res_steady..].
Qed.

Lemma wp_rejected s : wp (_ ← reject_crypto; mret []) (macro_res s) s.
Proof. apply wp_reject_then. intros s' Hs. wp_step. by apply res_steady. Qed.

Lemma wp_on_bls_partial cfg bp ctx s : wp (on_bls_partial cfg bp ctx) (macro_res s) s.
Proof.
  unfold on_bls_partial. do 2 wp_step. unfold id.
  destruct (find_candidate s _) as [[height c]|]; [|by apply res_ret_silent, silent_nil].
  apply res_bind_lift. intros set _.
  destruct (candidate s !! height) as [checkpoint|]; [|by apply res_steady].
  destruct (negb _); [apply wp_rejected|]. do 2 wp_step.
  set (s1 := s <| partial_sigs ::= _ |>). apply (wp_res_steady s s1); [steady_update|].
  case_bool_decide; [by apply res_ret_silent, silent_nil|].
  do 3 (apply res_bind_lift; intros ? _).
  match goal with |- wp (match ?m with _ => _ end) _ _ => destruct m end;
    [by apply wp_on_partial_flat|by apply wp_on_partial_mode_a|by apply wp_on_partial_flat].
Qed.

Lemma wp_on_macro_qc_received cfg qc ctx s :
  wp (on_macro_qc_received cfg qc ctx) (macro_res s) s.
Proof.
  unfold on_macro_qc_received. do 2 wp_step. unfold id.
  case_bool_decide; [by apply res_ret_silent, silent_nil|].
  apply res_bind_lift. intros set _.
  destruct (find_candidate s _) as [[height c]|]; [|by apply res_ret_silent, silent_nil].
  destruct (candidate s !! height) as [cand|] eqn:Hc; [|by apply res_steady].
  destruct (negb _); [apply wp_rejected|]. by apply wp_adopt_res.
Qed.

Lemma wp_on_subnet_aggregate cfg agg ctx s :
  wp (on_subnet_aggregate cfg agg ctx) (macro_res s) s.
Proof.
  unfold on_subnet_aggregate. do 2 wp_step. unfold id.
  destruct (find_candidate s _) as [[height c]|]; [|by apply res_ret_silent, silent_nil].
  apply res_bind_lift. intros set _. destruct (negb _); [apply wp_rejected|]. do 2 wp_step.
  set (s1 := s <| subnet_aggs ::= _ |>). apply (wp_res_steady s s1); [steady_update|].
  apply wp_try_emit_mode_a_qc.
Qed.

Lemma wp_on_macro_proposal cfg p ctx s : wp (on_macro_proposal cfg p ctx) (macro_res s) s.
Proof. eapply wp_mono; [|apply calm_on_macro_proposal]. intros r s'. apply hushed_res. Qed.
End certificate_handlers.

(** ** The inactivity leak over a streak of adoptions *)

Fixpoint leak_run (cfg : Config) (finalized : list bool) : M Error MacroBook Actions :=
  match finalized with
  | [] => mret []
  | f :: fs =>
      a ← note_inactivity_leak_on_adoption cfg f;
      b ← leak_run cfg fs;
      mret (a ++ b)
  end.

Lemma leak_run_notified cfg k s :
  leak_notified s = true → ∃ s', leak_run cfg (replicate k false) s = (Ok [], s').
Proof.
  revert s. induction k as [|k IH]; intros s Hn; [by eexists|]. cbn [replicate leak_run].
  unfold mbind, M_bind, note_inactivity_leak_on_adoption.
  set (s1 := s <| unfinalized_windows ::= λ u, saturating_add 32 u 1 |>).
  assert (Hn1 : leak_notified s1 = true) by done.
  destruct (IH s1 Hn1) as [s' Hs'].
  exists s'. unfold mbind, M_bind, modify, gets, leak_compute. fold s1. cbn beta iota zeta.
  rewrite Hn1, andb_false_r. cbn. by rewrite Hs'.
Qed.

Lemma leak_run_counting cfg (k : nat) s :
  let trigger := inactivity_leak_trigger_windows (macro_fin cfg) in
  let u := unfinalized_windows s in
  leak_notified s = false → 0 ≤ u < trigger → u + k < 2 ^ 32 →
  ∃ s', leak_run cfg (replicate k false) s =
    (Ok (if trigger <=? u + k
         then [NotifyInactivityLeak trigger (inactivity_leak_bps_per_window (macro_fin cfg))]
         else []), s').
Proof.
  intros trigger. revert s. induction k as [|k IH]; intros s u Hn Hu Hk.
  { destruct (Z.leb_spec trigger (u + 0%nat)); [lia|]. by eexists. }
  cbn [replicate leak_run].
  set (s1 := s <| unfinalized_windows ::= λ u, saturating_add 32 u 1 |>).
  assert (Hu1 : unfinalized_windows s1 = u + 1).
  { change (saturating_add 32 u 1 = u + 1). unfold saturating_add. lia. }
  assert (Hn1 : leak_notified s1 = false) by done.
  unfold mbind, M_bind, note_inactivity_leak_on_adoption, mbind, M_bind, modify, gets,
    leak_compute. fold s1. cbn beta iota zeta. rewrite Hu1, Hn1. cbn [negb].
  rewrite andb_true_r. fold trigger.
  destruct (Z.leb_spec trigger (u + 1)) as [Hle|Hgt].
  - set (s2 := s1 <| leak_notified := true |>).
    destruct (leak_run_notified cfg k s2) as [s' Hs']; [done|]. exists s'. cbn. rewrite Hs'.
    assert (Hs : u + 1 = trigger) by lia. rewrite Hs.
    destruct (Z.leb_spec trigger (u + S k)); [done|lia].
  - specialize (IH s1). cbv zeta in IH. rewrite Hu1 in IH.
    destruct IH as [s' Hs']; [done|lia|lia|]. exists s'. cbn. rewrite Hs'. cbn.
    by replace (u + 1 + k) with (u + S k) by lia.
Qed.

(** ** Adoption of a received certificate *)

Section received.
Context `{Build, Primitives, MacroBorsh}.

(** What the counters and the reputation leave of the book *)
Definition settled (s : MacroBook) :=
  (last_macro_hash s, next_height s, emitted_macro_qc s, candidate s, adopted (two_chain s),
   locks s, votes s, mb_self_id s).

Lemma bump_reputation_keeps cfg signers s r s' :
  bump_reputation cfg signers s = (r, s') → settled s' = settled s.
Proof.
  intros Hb. assert (Hwp : wp (bump_reputation cfg signers) (λ _ x, settled x = settled s) s).
  { unfold bump_reputation. apply (wp_for_each (λ x, settled x = settled s)); [|done].
    intros v x _ Hx. do 4 wp_step. by destruct (Reputation_updated _ _ _). }
  unfold wp in Hwp. by rewrite Hb in Hwp.
Qed.

Lemma wp_finality_tail_keeps cfg s :
  wp (finality_tail cfg) (λ _ x, settled x = settled s) s.
Proof.
  unfold finality_tail, note_inactivity_leak_on_adoption. do 3 wp_step.
  destruct (newly_finalized_height _) as [prev|]; cbn [bool_decide is_Some].
  - case_bool_decide as Hs; [|by destruct Hs]. do 8 wp_step. unfold settled.
    do 3 (apply f_equal2; [|reflexivity]).
    apply (f_equal (pair _)), (adopted_mark prev (two_chain s)).
  - case_bool_decide as Hs; [by destruct Hs|]. do 6 wp_step.
    destruct (leak_compute _ _). destruct (_ && _); by do 4 try wp_step.
Qed.

Lemma adopt_macro_qc_Ok cfg height cand qc signers s acts s' :
  adopt_macro_qc cfg height cand qc signers s = (Ok acts, s') →
  ∃ next, add_w (E := Error) 64 height 1 = Ok next ∧
    settled s' = settled (record_adoption next height (record_certificate cand qc s)) ∧
    take 3 acts = [PersistMacroCheckpoint cand; PersistMacroQc qc;
                   UpdateBlobStatus (blob_id_of_checkpoint cand) Justified].
Proof.
  unfold adopt_macro_qc, mbind, M_bind, lift, modify.
  destruct (add_w 64 height 1) as [next| | |]; [|done..].
  set (s1 := record_adoption next height (record_certificate cand qc s)).
  destruct (bump_reputation cfg signers s1) as [[[]| | |] s2] eqn:Hb; [|done..].
  apply bump_reputation_keeps in Hb.
  pose proof (wp_finality_tail_keeps cfg s2) as Ht. unfold wp in Ht.
  destruct (finality_tail cfg s2) as [[tail| | |] s3]; [|done..]. cbn in Ht.
  intros [= <- <-]. exists next. split_and!; [done|by rewrite Ht|done].
Qed.
End received.

(** ** Properties *)

(** An inactivity streak is reported exactly once: over [k] adoptions in a
    row without finalization, [NotifyInactivityLeak] is emitted when the streak
    reaches the configured trigger, with that count, and never again. *)
Theorem inactivity_leak_once cfg (k : nat) s :
  leak_notified s = false → unfinalized_windows s = 0 →
  0 < inactivity_leak_trigger_windows (macro_fin cfg) → k < 2 ^ 32 →
  (leak_run cfg (replicate k false) s).1 =
    Ok (if inactivity_leak_trigger_windows (macro_fin cfg) <=? k
        then [NotifyInactivityLeak (inactivity_leak_trigger_windows (macro_fin cfg))
                (inactivity_leak_bps_per_window (macro_fin cfg))]
        else []).
Proof.
  intros Hn Hu Ht Hk. destruct (leak_run_counting cfg k s) as [s' Hs']; [done|lia|lia|].
  by rewrite Hs', Hu.
Qed.

Lemma inactivity_leak_once_witness :
  (leak_run default_table_17_1 (replicate 6 false) (MacroBook_new (toy_id 0))).1 =
    Ok (if 4 <=? 6%nat then [NotifyInactivityLeak 4 50] else []).
Proof. apply (inactivity_leak_once default_table_17_1 6); vm_compute; reflexivity. Defined.

(** The certificate is new, and verifies against the active set for the
    candidate of its hash, which stands at [height]. *)
Definition certifies `{Primitives, MacroBorsh} (qc : MacroQc) (ctx : HostContext)
    (s : MacroBook) (height : Height) (cand : MacroCheckpoint) : Prop :=
  qc_checkpoint_hash qc ∉ emitted_macro_qc s ∧
  find_candidate s (qc_checkpoint_hash qc) = Some (height, cand) ∧
  ∃ set, active_set ctx = Ok set ∧ verify_macro_qc set qc cand = true.

(** [C39] A received macro certificate has an effect only if it is new and
    verifies for a known candidate: otherwise no action is answered and the book
    is left as it was, but for the counter of rejected messages, also when the
    call fails.  If it verifies and the call answers, the checkpoint and the
    certificate are persisted and the checkpoint's blob is justified, the
    candidate is adopted by the two-chain rule and is the parent of the next
    height, candidates, locks and votes stay as they were, and a second delivery
    of the certificate changes nothing. *)
Theorem on_macro_qc_received_spec `{Build, Primitives, MacroBorsh} cfg qc ctx s r s' :
  on_macro_qc_received cfg qc ctx s = (r, s') →
  ((∀ height cand, ¬ certifies qc ctx s height cand) →
     match r with Ok acts => acts = [] | _ => True end ∧
     (s' = s ∨ ∃ n, add_w (E := Error) 64 (mb_rejected_crypto s) 1 = Ok n ∧
                    s' = s <| mb_rejected_crypto := n |>)) ∧
  (∀ height cand acts, certifies qc ctx s height cand → r = Ok acts →
     take 3 acts = [PersistMacroCheckpoint cand; PersistMacroQc qc;
                    UpdateBlobStatus (blob_id_of_checkpoint cand) Justified] ∧
     last_macro_hash s' = mc_hash cand ∧
     add_w (E := Error) 64 height 1 = Ok (next_height s') ∧
     emitted_macro_qc s' = {[qc_checkpoint_hash qc]} ∪ emitted_macro_qc s ∧
     adopted (two_chain s') = adopted (adopt cand (two_chain s)) ∧
     (candidate s', locks s', votes s') = (candidate s, locks s, votes s) ∧
     on_macro_qc_received cfg qc ctx s' = (Ok [], s')).
Proof.
  intros Hrun. unfold on_macro_qc_received, mbind, M_bind, gets, lift, id in Hrun |- *.
  split.
  - intros Hno. revert Hrun. case_bool_decide as Hnew; [by intros [= <- <-]; auto|].
    destruct (active_set ctx) as [set| | |] eqn:Hset; [|by intros [= <- <-]; auto..].
    destruct (find_candidate s _) as [[height c]|] eqn:Hf; [|by intros [= <- <-]; auto].
    destruct (find_candidate_Some _ _ _ _ Hf) as [Hc _]. rewrite Hc.
    destruct (verify_macro_qc set qc c) eqn:Hv; cbn [negb].
    { destruct (Hno height c). split_and!; eauto. }
    unfold reject_crypto, mbind, M_bind, gets, lift, modify.
    destruct (add_w 64 (mb_rejected_crypto s) 1) as [n| | |] eqn:Hn; intros [= <- <-]; eauto.
  - intros height c acts (Hnew & Hf & set & Hset & Hv) ->. revert Hrun.
    rewrite bool_decide_eq_false_2, Hset, Hf by done.
    destruct (find_candidate_Some _ _ _ _ Hf) as [Hc _]. rewrite Hc, Hv. cbn [negb].
    intros (next & Hadd & [= E1 E2 E3 E4 E5 E6 E7 E8] & Htake)%adopt_macro_qc_Ok.
    rewrite E1, E2, E3, E4, E5, E6, E7. split_and!; try done.
    rewrite bool_decide_eq_true_2; [done|]. change (qc_checkpoint_hash qc ∈
      {[qc_checkpoint_hash qc]} ∪ emitted_macro_qc s). set_solver.
Qed.

(** A candidate at height 0, and a certificate signed by one validator of four. *)
Definition toy_book : MacroBook :=
  (MacroBook_new (toy_id 2)) <| candidate := {[0 := toy_checkpoint]} |>.
Definition toy_lone_qc : MacroQc :=
  MkMacroQc (mc_hash toy_checkpoint) Mode0Flat (MkBlsAggSig (toy_partial 0 toy_checkpoint) [1]).
Definition toy_host : HostContext := host_of ∅ (toy_set 4) Hash32_zero.
Definition toy_received : result Actions * MacroBook :=
  on_macro_qc_received default_table_17_1 toy_lone_qc toy_host toy_book.
Definition toy_received_acts : Actions :=
  [PersistMacroCheckpoint toy_checkpoint; PersistMacroQc toy_lone_qc;
   UpdateBlobStatus (blob_id_of_checkpoint toy_checkpoint) Justified].

Lemma on_macro_qc_received_spec_witness :
  certifies toy_lone_qc toy_host toy_book 0 toy_checkpoint ∧
  ((∀ height cand, ¬ certifies toy_lone_qc toy_host toy_book height cand) →
     match toy_received.1 with Ok acts => acts = [] | _ => True end ∧
     (toy_received.2 = toy_book ∨
      ∃ n, add_w (E := Error) 64 (mb_rejected_crypto toy_book) 1 = Ok n ∧
           toy_received.2 = toy_book <| mb_rejected_crypto := n |>)) ∧
  (∀ height cand acts, certifies toy_lone_qc toy_host toy_book height cand →
     toy_received.1 = Ok acts →
     take 3 acts = [PersistMacroCheckpoint cand; PersistMacroQc toy_lone_qc;
                    UpdateBlobStatus (blob_id_of_checkpoint cand) Justified] ∧
     last_macro_hash toy_received.2 = mc_hash cand ∧
     add_w (E := Error) 64 height 1 = Ok (next_height toy_received.2) ∧
     emitted_macro_qc toy_received.2 =
       {[qc_checkpoint_hash toy_lone_qc]} ∪ emitted_macro_qc toy_book ∧
     adopted (two_chain toy_received.2) = adopted (adopt cand (two_chain toy_book)) ∧
     (candidate toy_received.2, locks toy_received.2, votes toy_received.2) =
       (candidate toy_book, locks toy_book, votes toy_book) ∧
     on_macro_qc_received default_table_17_1 toy_lone_qc toy_host toy_received.2
       = (Ok [], toy_received.2)).
Proof.
  split.
  - split; [apply not_elem_of_empty|].
    split; [vm_compute; reflexivity|]. exists (toy_set 4). split; vm_compute; reflexivity.
  - apply (on_macro_qc_received_spec default_table_17_1 toy_lone_qc toy_host toy_book).
    apply surjective_pairing.
Defined.
