(* ===== verification/MacroChain.v ===== *)
(** The chain of adopted checkpoints.

    [macro_run] is a run of the calls that [StateMachine.step] makes to its macro layer.
    Whatever the calls are and whatever proposals carry, [chain_inv] holds of the book: the
    candidates below [next_height] are certified and keep their hash, [last_macro_hash] is the
    last of them, and every adopted checkpoint names as its parent the candidate below it
    ([chain_handle]).  So what is reported finalized is the blob of the adopted checkpoint
    ([finalizes_adopted]).  [front] lists the fields that the invariant reads, and [still]
    the calls that leave them alone. *)

From S2P Require Import Prelude Bytes Types Crypto Toy Config Leader Dag Linearize Bullshark.
From S2P Require Import MacroState MacroAgg Slashing MacroFin.
Open Scope Z_scope.

(** ** Runs of the macro layer

    The calls of [StateMachine.step] to the macro layer. *)
Inductive macro_call :=
| MC_micro (qcs : list MicroQc)
| MC_proposal (p : MacroProposal)
| MC_partial (bp : BlsPartial)
| MC_aggregate (a : SubnetAggregate)
| MC_qc (qc : MacroQc)
| MC_timer (id : TimerId).
Definition macro_input : Type := macro_call * HostContext.

Definition said_by (r : result Actions) : Actions := match r with Ok acts => acts | _ => [] end.

Section macro_run.
Context `{Build, Primitives, MacroBorsh} (cfg : Config).

Definition macro_handle (i : macro_input) : M Error MacroBook Actions :=
  match i.1 with
  | MC_micro qcs => on_local_micro_qcs cfg i.2 (BroadcastMicroQc <$> qcs)
  | MC_proposal p => on_macro_proposal cfg p i.2
  | MC_partial bp => on_bls_partial cfg bp i.2
  | MC_aggregate a => on_subnet_aggregate cfg a i.2
  | MC_qc qc => on_macro_qc_received cfg qc i.2
  | MC_timer id => macro_on_timer_fired cfg i.2 id []
  end.

Fixpoint macro_run (ins : list macro_input) (s : MacroBook) : Actions * MacroBook :=
  match ins with
  | [] => ([], s)
  | i :: ins =>
      let '(r, s1) := macro_handle i s in
      let '(acts, s2) := macro_run ins s1 in
      (said_by r ++ acts, s2)
  end.
End macro_run.

(** The fields the invariant reads *)
Definition front (s : MacroBook) :=
  (mb_self_id s, next_height s, last_macro_hash s, candidate s, emitted_macro_qc s,
   mode_b_by_height (mb_timers s), locks s, votes s, two_chain s).

(** Actions that are no oath: neither a partial signature nor evidence of a vote *)
Definition oath (a : Action) : bool :=
  match a with
  | BroadcastBlsPartial _ => true
  | EmitSlashEvidence _ (SE_Surround _) | EmitSlashEvidence _ (SE_DoubleVote _) => true
  | _ => false
  end.
Definition unsworn (acts : Actions) : Prop := Forall (λ a, oath a = false) acts.

(** ** Calls that leave the front alone

    [still P s]: the call from [s] keeps the front, and [P] holds of its result, if any. *)
Definition still {A} (P : A → Prop) (s : MacroBook) (r : result A) (s' : MacroBook) : Prop :=
  front s' = front s ∧ match r with Ok a => P a | _ => True end.

Section still.
Abbreviation MF := (M Error MacroBook).

Lemma still_bind {A B} (m : MF A) (f : A → MF B) (P : A → Prop) (Q : B → Prop) s0 s :
  front s = front s0 → wp m (still P s) s →
  (∀ a s', front s' = front s0 → P a → wp (f a) (still Q s0) s') →
  wp (m ≫= f) (still Q s0) s.
Proof.
  intros Hs Hm Hf. apply wp_bind. eapply wp_mono; [|exact Hm].
  intros r s' [Hs' Hr]. assert (front s' = front s0) by by rewrite Hs'.
  destruct r; [by apply Hf|by split..].
Qed.
Lemma still_ret {A} (a : A) (P : A → Prop) s0 s :
  front s = front s0 → P a → wp (mret a : MF A) (still P s0) s.
Proof. by split. Qed.
Lemma still_bind_gets {A B} (g : MacroBook → A) (f : A → MF B) (Q : B → Prop) s0 s :
  wp (f (g s)) (still Q s0) s → wp (gets g ≫= f) (still Q s0) s.
Proof. done. Qed.
Lemma still_bind_lift {A B} (m : result A) (f : A → MF B) (Q : B → Prop) s0 s :
  front s = front s0 → (∀ a, m = Ok a → wp (f a) (still Q s0) s) →
  wp (lift m ≫= f) (still Q s0) s.
Proof. intros Hs Hf. apply wp_bind, wp_lift. destruct m; [by apply Hf|by split..]. Qed.
Lemma still_modify (f : MacroBook → MacroBook) s :
  front (f s) = front s → wp (modify f : MF unit) (still (λ _, True) s) s.
Proof. by split. Qed.
Lemma still_weaken {A} (P Q : A → Prop) (m : MF A) s0 s :
  front s = front s0 → wp m (still P s) s → (∀ a, P a → Q a) → wp m (still Q s0) s.
Proof.
  intros Hs Hm HPQ. eapply wp_mono; [|exact Hm]. intros r s' [Hs' Hr].
  split; [congruence|]. destruct r; auto.
Qed.
End still.

Create HintDb still.
Ltac still_step :=
  lazymatch goal with
  | |- wp (mret _) _ _ => apply still_ret; [assumption|]
  | |- wp (mbind _ (gets _)) _ _ => apply still_bind_gets; cbv beta
  | |- wp (mbind _ (lift _)) _ _ => apply still_bind_lift; [assumption|intros ? ?]
  | |- wp (mbind _ (modify _)) _ _ =>
      eapply still_bind; [eassumption|apply still_modify; try reflexivity|
                          cbv beta; intros ? ? ? _]
  | |- wp (mbind _ _) _ _ =>
      eapply still_bind; [eassumption|by eauto with still|cbv beta; intros ? ? ? ?]
  | |- wp (if ?b then _ else _) _ _ => destruct b eqn:?
  | |- wp (match ?x with _ => _ end) _ _ => destruct x eqn:?
  end.

Lemma unsworn_nil : unsworn [].
Proof. constructor. Qed.
Lemma unsworn_one a : oath a = false → unsworn [a].
Proof. by repeat constructor. Qed.
Lemma unsworn_app a b : unsworn a → unsworn b → unsworn (a ++ b).
Proof. apply Forall_app_2. Qed.
#[export] Hint Resolve unsworn_nil unsworn_one unsworn_app : still.

Section still_calls.
Context `{Build, Primitives, MacroBorsh}.
Abbreviation quiet := (still unsworn).

Lemma still_reject s : wp reject_crypto (still (λ _, True) s) s.
Proof.
  unfold reject_crypto. assert (front s = front s) by done. do 2 still_step.
  by apply still_modify.
Qed.
Lemma still_bump_reputation cfg signers s :
  wp (bump_reputation cfg signers) (still (λ _, True) s) s.
Proof.
  unfold bump_reputation. eapply wp_mono; [|apply (wp_for_each (λ s', front s' = front s)); [|done]].
  { intros r s' Hs. split; [done|]. by destruct r. }
  intros v s1 _ Hs. do 4 wp_step. destruct (Reputation_updated _ _ _); [|done..]. by wp_step.
Qed.
Lemma still_note_leak cfg fin s : wp (note_inactivity_leak_on_adoption cfg fin) (quiet s) s.
Proof.
  unfold note_inactivity_leak_on_adoption. assert (front s = front s) by done. destruct fin.
  - repeat still_step. apply unsworn_nil.
  - do 3 still_step. destruct (leak_compute cfg _) as [lb la]. destruct (la && _); repeat still_step;
      auto with still.
Qed.
Lemma still_sign_proposal ctx beacon height cand s :
  wp (sign_proposal ctx beacon height cand) (quiet s) s.
Proof.
  unfold sign_proposal. assert (front s = front s) by done. repeat still_step. auto with still.
Qed.
Lemma still_backup_action cfg height s :
  wp (zoom mb_timers (backup_propose_action cfg height)) (still (λ a, oath a = false) s) s.
Proof.
  apply wp_zoom. unfold backup_propose_action, alloc_id, mbind, M_bind, zoom, still.
  destruct s as [???????????? ?? []]. cbn. by destruct (allocate _) as [[id| | |] t].
Qed.
Lemma unsworn_subnet_aggregate book set assign hash subnet :
  unsworn (subnet_aggregate_actions book set assign hash subnet).
Proof. unfold subnet_aggregate_actions. repeat case_match; auto with still. Qed.
End still_calls.
#[export] Hint Resolve still_reject still_bump_reputation still_note_leak
  still_sign_proposal still_backup_action unsworn_subnet_aggregate : still.


(** Take a book apart, so that its updates compute. *)
Ltac open_book s :=
  destruct s as [self ring next last cands beacons parts emitted tc locks0 sup seen active rep timers
    saggs sparts votes0 psigs pseen rej unf notified]; cbn -[build] in *.

(** ** The chain *)

Record chain_inv (s : MacroBook) : Prop := {
  ci_next : 0 ≤ next_height s;
  ci_candidate h c : candidate s !! h = Some c → mc_height c = h ∧ 0 ≤ h ≤ next_height s;
  ci_done h c : candidate s !! h = Some c → h < next_height s → mc_hash c ∈ emitted_macro_qc s;
  ci_top c : candidate s !! next_height s = Some c → mc_parent c = last_macro_hash s;
  ci_last : 0 < next_height s →
    ∃ c, candidate s !! (next_height s - 1) = Some c ∧ mc_hash c = last_macro_hash s;
  ci_adopted h c : adopted (two_chain s) !! h = Some c →
    0 ≤ h ≤ next_height s ∧
    (0 < h → ∃ p, candidate s !! (h - 1) = Some p ∧ mc_parent c = mc_hash p);
  ci_full h : 0 ≤ h < next_height s → is_Some (adopted (two_chain s) !! h);
}.

Lemma chain_new self : chain_inv (MacroBook_new self).
Proof. split; cbn; intros; try done; lia. Qed.

(** The fields it reads *)
Definition chain_front (s : MacroBook) :=
  (next_height s, last_macro_hash s, candidate s, emitted_macro_qc s, adopted (two_chain s)).
Lemma chain_same s s' : chain_front s' = chain_front s → chain_inv s → chain_inv s'.
Proof.
  intros [= E1 E2 E3 E4 E5] [C1 C2 C3 C4 C5 C6 C7].
  split; rewrite ?E1, ?E2, ?E3, ?E4, ?E5; done.
Qed.
Lemma front_chain s s' : front s' = front s → chain_front s' = chain_front s.
Proof. intros [= _ E1 E2 E3 E4 _ _ _ E5]. unfold chain_front. by rewrite E1, E2, E3, E4, E5. Qed.

(** A finalized blob is that of the checkpoint adopted below the head. *)
Definition finalizes_adopted (b : MacroBook) (blob : BlobId) : Prop :=
  ∃ height cp child c,
    adopted (two_chain b) !! height = Some cp ∧
    adopted (two_chain b) !! (height + 1) = Some child ∧
    mc_parent child = mc_hash cp ∧
    finalized_head (two_chain b) = Some (mc_hash cp) ∧
    candidate b !! height = Some c ∧ mc_hash c = mc_hash cp ∧ blob = blob_id_of_checkpoint c.

Lemma chain_finalizes b blob : chain_inv b → finalizes b blob → finalizes_adopted b blob.
Proof.
  intros HC (h & cp & child & c & Hcp & Hch & Hpar & Hfin & Hc & Hb).
  exists h, cp, child, c. split_and!; try done.
  destruct (ci_adopted _ HC _ _ Hcp) as [? _], (ci_adopted _ HC _ _ Hch) as [_ Hp].
  destruct (Hp ltac:(lia)) as (p & Hpc & Hpp). rewrite Z.add_simpl_r in Hpc. congruence.
Qed.

Section chain_steps.
Context `{Build, Primitives, MacroBorsh}.
#[local] Arguments adopt : simpl never.

(** A candidate is rebuilt at [next_height], on top of the last adopted checkpoint. *)
Lemma chain_build s root :
  chain_inv s →
  chain_inv (s <| micro_ring := [] |>
    <| candidate ::= <[next_height s := build (next_height s) 0 (last_macro_hash s) root]> |>).
Proof.
  intros [C1 C2 C3 C4 C5 C6 C7]. open_book s. split; cbn -[build]; try done.
  - intros h c [[<- <-]|[_ Hc]]%lookup_insert_Some; [by split|by apply C2].
  - intros h c [[<- <-]|[_ Hc]]%lookup_insert_Some ?; [lia|by apply (C3 h)].
  - intros c. rewrite lookup_insert_eq. by intros [= <-].
  - intros Hp. destruct (C5 Hp) as (c & Hc & ?). exists c. by rewrite lookup_insert_ne by lia.
  - intros h c Hc. destruct (C6 h c Hc) as [? Hp]. split; [done|]. intros (p & ? & ?)%Hp.
    exists p. by rewrite lookup_insert_ne by lia.
Qed.

(** What the two-chain rule adopts at a height is new at [next_height] only. *)
Lemma chain_adopts s c :
  chain_inv s → 0 ≤ mc_height c ≤ next_height s →
  (mc_height c = next_height s → mc_parent c = last_macro_hash s) →
  ∀ h d, adopted (adopt c (two_chain s)) !! h = Some d →
    0 ≤ h ≤ next_height s ∧
    (0 < h → ∃ p, candidate s !! (h - 1) = Some p ∧ mc_parent d = mc_hash p).
Proof.
  intros [C1 C2 C3 C4 C5 C6 C7] Hh Hp h d. rewrite adopted_adopt.
  intros [[<- <-]|[_ Hd]]%lookup_insert_Some; [|by apply C6].
  destruct (adopted (two_chain s) !! mc_height c) as [e|] eqn:He; [by apply C6|].
  split; [done|]. intros Hpos.
  assert (Hn : mc_height c = next_height s).
  { destruct (decide (mc_height c < next_height s)); [|lia].
    destruct (C7 (mc_height c)) as [e Hd]; [lia|congruence]. }
  destruct (C5 ltac:(lia)) as (p & Hpc & Hpl). exists p. cbn [default].
  rewrite Hn, Hp by done. by split.
Qed.
Lemma chain_adopt_full s c h :
  chain_inv s → 0 ≤ h < next_height s ∨ h = mc_height c →
  is_Some (adopted (adopt c (two_chain s)) !! h).
Proof.
  intros HC Hh. rewrite adopted_adopt.
  destruct (decide (mc_height c = h)) as [<-|]; [by rewrite lookup_insert_eq|].
  rewrite lookup_insert_ne by done. apply (ci_full _ HC). naive_solver.
Qed.

(** A proposal replaces a candidate of its hash, on top of the last adopted checkpoint. *)
Lemma chain_accept s c c' s' :
  chain_inv s → candidate s !! mc_height c = Some c' → mc_hash c' = mc_hash c →
  mc_parent c = last_macro_hash s →
  chain_front s' = (next_height s, last_macro_hash s, <[mc_height c := c]> (candidate s),
    emitted_macro_qc s, adopted (adopt c (two_chain s))) →
  chain_inv s'.
Proof.
  intros HC Hc' Heq Hpar Hf. pose proof (ci_candidate _ HC _ _ Hc') as [_ Hh].
  pose proof (chain_adopts s c HC Hh (λ _, Hpar)) as Hadopt.
  pose proof (λ h, chain_adopt_full s c h HC) as Hfull.
  assert (Hold : ∀ h p, candidate s !! h = Some p →
    ∃ q, <[mc_height c := c]> (candidate s) !! h = Some q ∧ mc_hash q = mc_hash p).
  { intros h p Hp. destruct (decide (mc_height c = h)) as [<-|].
    - exists c. rewrite lookup_insert_eq. split; congruence.
    - exists p. by rewrite lookup_insert_ne. }
  destruct HC as [C1 C2 C3 C4 C5 C6 C7], s' as []. injection Hf as -> -> -> -> Hf.
  split; cbn in *; rewrite ?Hf; try done.
  - intros h d [[<- <-]|[_ Hd]]%lookup_insert_Some; [done|by apply C2].
  - intros h d [[<- <-]|[_ Hd]]%lookup_insert_Some ?; [|by apply (C3 h)].
    rewrite <- Heq. by apply (C3 (mc_height c)).
  - intros d [[_ <-]|[_ Hd]]%lookup_insert_Some; [done|by apply C4].
  - intros (p & (q & Hq & Hqp)%Hold & Hl)%C5. exists q. split; [done|congruence].
  - intros h d (Hr & Hd)%Hadopt. split; [done|]. intros (p & (q & Hq & Hqp)%Hold & Hl)%Hd.
    exists q. split; [done|congruence].
  - intros h ?. apply Hfull. by left.
Qed.

(** A certificate that is not yet emitted is for the candidate at [next_height]. *)
Lemma chain_uncertified s h c :
  chain_inv s → candidate s !! h = Some c → mc_hash c ∉ emitted_macro_qc s → h = next_height s.
Proof.
  intros HC Hc Hn. destruct (ci_candidate _ HC h c Hc) as [_ Hh].
  destruct (decide (h < next_height s)); [|lia]. by destruct Hn; apply (ci_done _ HC h).
Qed.

Lemma chain_adopt s h cand qc :
  chain_inv s → candidate s !! h = Some cand → qc_checkpoint_hash qc = mc_hash cand →
  mc_hash cand ∉ emitted_macro_qc s →
  chain_inv (record_adoption (h + 1) h (record_certificate cand qc s)).
Proof.
  intros HC Hc Hq Hn. pose proof (chain_uncertified s h cand HC Hc Hn) as ->.
  destruct (ci_candidate _ HC _ _ Hc) as [Hh _].
  assert (Hcan : chain_front (record_adoption (next_height s + 1) (next_height s)
    (record_certificate cand qc s)) = (next_height s + 1, mc_hash cand, candidate s,
      {[qc_checkpoint_hash qc]} ∪ emitted_macro_qc s, adopted (adopt cand (two_chain s)))) by done.
  set (s' := record_adoption _ _ _) in *. clearbody s'.
  pose proof (chain_adopts s cand HC ltac:(rewrite Hh; pose proof (ci_next _ HC); lia)
    (λ _, ci_top _ HC _ Hc)) as Hadopt.
  pose proof (λ h, chain_adopt_full s cand h HC) as Hfull.
  destruct HC as [C1 C2 C3 C4 C5 C6 C7]. injection Hcan as E1 E2 E3 E4 E5.
  split; rewrite ?E1, ?E2, ?E3, ?E4, ?E5; try done.
  - lia.
  - intros h c Hhc. destruct (C2 h c Hhc). split; [done|lia].
  - intros h c Hhc Hlt. rewrite Hq. destruct (decide (h = next_height s)) as [->|].
    + rewrite Hc in Hhc. injection Hhc as <-. set_solver.
    + apply elem_of_union_r, (C3 h); [done|lia].
  - intros c [_ ?]%C2. lia.
  - intros _. exists cand. by rewrite Z.add_simpl_r.
  - intros h c (? & ?)%Hadopt. split; [lia|done].
  - intros h Hr. apply Hfull. destruct (decide (h = next_height s)); [right; lia|left; lia].
Qed.
End chain_steps.

(** ** The handlers

    [linked n]: the chain holds, and the next height is at most [n]. *)
Definition linked (n : Z) (s : MacroBook) : Prop := chain_inv s ∧ next_height s ≤ n.

Section chain_handlers.
Context `{Build, Primitives, MacroBorsh}.
Abbreviation MF := (M Error MacroBook).
Abbreviation links n := (λ (_ : result _) s', linked n s').

Lemma linked_same n s s' : chain_front s' = chain_front s → linked n s → linked n s'.
Proof. intros Hf [HC Hn]. split; [by apply (chain_same s)|]. by injection Hf as ->. Qed.
Lemma linked_front n s s' : front s' = front s → linked n s → linked n s'.
Proof. intros Hf. by apply linked_same, front_chain. Qed.
Lemma linked_mono n n' s : linked n s → n ≤ n' → linked n' s.
Proof. intros [HC Hn] ?. split; [done|lia]. Qed.

(** Calls from a state below [n] end below [m]. *)
Lemma linked_ret {A} (a : A) n m s : linked n s → n ≤ m → wp (mret a : MF A) (links m) s.
Proof. intros. apply wp_ret. by apply (linked_mono n). Qed.
Lemma linked_lift {A B} (r : result A) (f : A → MF B) n m s :
  linked n s → n ≤ m → (∀ a, r = Ok a → wp (f a) (links m) s) →
  wp (lift r ≫= f) (links m) s.
Proof.
  intros Hl ? Hf. apply wp_bind, wp_lift. destruct r; [by apply Hf|by apply (linked_mono n)..].
Qed.
Lemma linked_modify {B} (g : MacroBook → MacroBook) (f : unit → MF B) n m s :
  linked n s → front (g s) = front s → (linked n (g s) → wp (f tt) (links m) (g s)) →
  wp (modify g ≫= f) (links m) s.
Proof. intros Hl Hg Hf. apply wp_bind, wp_modify, Hf. by apply (linked_front n s). Qed.
Lemma linked_still {A B} (c : MF A) (f : A → MF B) P n m s :
  linked n s → n ≤ m → wp c (still P s) s → (∀ a s', linked n s' → wp (f a) (links m) s') →
  wp (c ≫= f) (links m) s.
Proof.
  intros Hl ? Hm Hf. apply wp_bind. eapply wp_mono; [|exact Hm]. intros r s' [Hs _].
  assert (linked n s') by by apply (linked_front n s).
  destruct r; [by apply Hf|by apply (linked_mono n)..].
Qed.
Lemma linked_call {A B} (c : MF A) (f : A → MF B) n m s :
  n ≤ m → wp c (links n) s → (∀ a s', linked n s' → wp (f a) (links m) s') →
  wp (c ≫= f) (links m) s.
Proof.
  intros ? Hm Hf. apply wp_bind. eapply wp_mono; [|exact Hm]. intros r s' Hl.
  destruct r; [by apply Hf|by apply (linked_mono n)..].
Qed.
Lemma linked_timers {A} (c : M Error MacroTimerBook A) n s :
  linked n s → wp (zoom mb_timers c) (links n) s.
Proof. intros Hl. apply wp_zoom. by apply (linked_same n s). Qed.

Ltac linked_step :=
  lazymatch goal with
  | |- wp (mret _) _ _ => eapply linked_ret; [eassumption|lia]
  | |- wp panic _ _ => by eapply linked_mono; [eassumption|lia]
  | |- wp (mbind _ (gets _)) _ _ => apply wp_bind, wp_gets; unfold id
  | |- wp (mbind _ (lift _)) _ _ => eapply linked_lift; [eassumption|lia|intros ? ?]
  | |- wp (mbind _ (modify _)) _ _ =>
      eapply linked_modify; [eassumption|reflexivity|intros ?]
  | |- wp (mbind _ (zoom mb_timers _)) _ _ =>
      eapply linked_call; [|eapply linked_timers; eassumption|intros ? ? ?]; [lia|]
  | |- wp (mbind _ _) _ _ =>
      eapply linked_still; [eassumption|lia|by eauto with still|intros ? ? ?]
  | |- wp (if ?b then _ else _) _ _ => destruct b
  | |- wp (match ?x with _ => _ end) _ _ => destruct x eqn:?
  end.

Lemma build_candidate_linked cfg ctx set n s :
  linked n s → wp (build_candidate cfg ctx set) (links n) s.
Proof.
  intros Hl. unfold build_candidate. linked_step. apply wp_bind, wp_modify.
  match goal with |- wp _ _ ?t => assert (linked n t) end.
  { destruct Hl as [HC Hn]. split; [by apply chain_build|done]. }
  repeat linked_step.
  apply (linked_call _ _ n); [lia|repeat linked_step|intros ? ? ?].
  { eapply wp_mono; [|apply still_sign_proposal]. intros ? ? [Hf _].
    by eapply linked_front; [exact Hf|]. }
  apply (linked_call _ _ n); [lia|by repeat linked_step|intros ? ? ?]. by linked_step.
Qed.

Lemma push_micro_hashes_linked cfg ctx set hashes n s :
  linked n s → wp (push_micro_hashes cfg ctx set hashes) (links n) s.
Proof.
  revert s. induction hashes as [|h hashes IH]; intros s Hl; cbn [push_micro_hashes];
    [by linked_step|].
  do 2 linked_step. apply (linked_call _ _ n); [lia| |intros ? ? ?].
  { linked_step; [by linked_step|by apply build_candidate_linked]. }
  apply (linked_call _ _ n); [lia|by apply IH|intros ? ? ?]. by linked_step.
Qed.

Lemma micro_linked cfg ctx acts n s :
  linked n s → wp (on_local_micro_qcs cfg ctx acts) (links n) s.
Proof.
  intros Hl. unfold on_local_micro_qcs. linked_step; [by linked_step|]. linked_step.
  apply (linked_call _ _ n); [lia|by apply push_micro_hashes_linked|intros ? ? ?]. by linked_step.
Qed.

Lemma finality_tail_linked cfg n s : linked n s → wp (finality_tail cfg) (links n) s.
Proof.
  intros Hl. unfold finality_tail. linked_step.
  eapply linked_still; [exact Hl|lia|apply still_note_leak|intros leak s1 Hl1].
  linked_step; [|by linked_step]. apply wp_bind, wp_modify, wp_bind, wp_gets, wp_ret.
  apply (linked_same n s1); [|done].
  apply (f_equal (pair _)), (adopted_mark _ (two_chain s1)).
Qed.

(** Adoption of an uncertified candidate *)
Lemma adopt_linked cfg h cand qc signers n s :
  linked n s → n + 1 < 2 ^ 64 → candidate s !! h = Some cand →
  qc_checkpoint_hash qc = mc_hash cand → mc_hash cand ∉ emitted_macro_qc s →
  wp (adopt_macro_qc cfg h cand qc signers) (links (n + 1)) s.
Proof.
  intros [HC Hn] Hroom Hc Hq Hnew. unfold adopt_macro_qc.
  apply wp_bind, wp_modify, wp_bind, wp_lift.
  pose proof (chain_uncertified s h cand HC Hc Hnew) as Hh. pose proof (ci_next _ HC).
  rewrite add_w_ok by (unfold uint_ok; lia). apply wp_bind, wp_modify.
  match goal with |- wp _ _ ?t => assert (linked (n + 1) t) end.
  { split; [by apply chain_adopt|]. change (h + 1 ≤ n + 1). lia. }
  linked_step. apply (linked_call _ _ (n + 1)); [lia|by apply finality_tail_linked|intros ? ? ?]. by linked_step.
Qed.
Lemma finish_linked cfg h cand qc signers n s :
  linked n s → n + 1 < 2 ^ 64 → candidate s !! h = Some cand →
  qc_checkpoint_hash qc = mc_hash cand → mc_hash cand ∉ emitted_macro_qc s →
  wp (finish_macro_qc_adoption cfg h cand qc signers) (links (n + 1)) s.
Proof.
  intros. unfold finish_macro_qc_adoption.
  apply (linked_call _ _ (n + 1)); [lia|by apply adopt_linked|intros ? ? ?]. by linked_step.
Qed.

(** *** Certificates: from a state below [n], the next height stays below [n + 1]. *)

Lemma rejected_linked n m s :
  linked n s → n ≤ m → wp (_ ← reject_crypto; mret ([] : Actions)) (links m) s.
Proof. intros. by repeat linked_step. Qed.

Lemma try_emit_mode_a_linked cfg hash h ctx n s :
  linked n s → n + 1 < 2 ^ 64 → (∀ c, candidate s !! h = Some c → mc_hash c = hash) →
  wp (try_emit_mode_a_qc cfg hash h ctx) (links (n + 1)) s.
Proof.
  intros Hl Hroom Hh. unfold try_emit_mode_a_qc. do 2 linked_step. linked_step; [by linked_step|].
  do 3 linked_step. linked_step; [by linked_step|].
  destruct (try_finalize_mode_a_from_aggs _ _ _ _) as [qc|] eqn:Hqc; [|by linked_step].
  apply try_finalize_mode_a_hash in Hqc. case_bool_decide; [by linked_step|].
  destruct (candidate s !! h) as [cand|] eqn:Hc; [|by linked_step].
  pose proof (Hh cand eq_refl) as <-. by apply finish_linked.
Qed.

Lemma partial_flat_linked cfg bp set h mode n s :
  linked n s → n + 1 < 2 ^ 64 →
  (∀ c, candidate s !! h = Some c → mc_hash c = bp_checkpoint_hash bp) →
  bp_checkpoint_hash bp ∉ emitted_macro_qc s →
  wp (on_partial_flat cfg bp set h mode) (links (n + 1)) s.
Proof.
  intros Hl Hroom Hh Hnew. unfold on_partial_flat. linked_step; [by linked_step|].
  do 2 linked_step. linked_step; [by linked_step|].
  match goal with |- context [candidate ?t !! h] => change (candidate t !! h) with (candidate s !! h) end.
  destruct (candidate s !! h) as [cand|] eqn:Hc; [|by linked_step].
  pose proof (Hh cand eq_refl) as Heq. rewrite <- Heq in *. case_bool_decide.
  - destruct (try_finalize_mode_b _ _ _ _ _) as [qc|] eqn:Hqc; [|by linked_step].
    apply try_finalize_mode_b_hash in Hqc. by apply finish_linked.
  - destruct (try_finalize_mode0 _ _ _ _ _) as [qc|] eqn:Hqc; [|by linked_step].
    apply try_finalize_mode0_hash in Hqc. by apply finish_linked.
Qed.

Lemma partial_mode_a_linked cfg bp ctx set beacon h assign n s :
  linked n s → n + 1 < 2 ^ 64 →
  (∀ c, candidate s !! h = Some c → mc_hash c = bp_checkpoint_hash bp) →
  wp (on_partial_mode_a cfg bp ctx set beacon h assign) (links (n + 1)) s.
Proof.
  intros Hl Hroom Hh. unfold on_partial_mode_a. do 4 linked_step. linked_step; [|by linked_step].
  apply (linked_call _ _ (n + 1)); [lia|by apply try_emit_mode_a_linked|intros ? ? ?].
  by linked_step.
Qed.

Lemma bls_partial_linked cfg bp ctx n s :
  linked n s → n + 1 < 2 ^ 64 → wp (on_bls_partial cfg bp ctx) (links (n + 1)) s.
Proof.
  intros Hl Hroom. unfold on_bls_partial. linked_step.
  destruct (find_candidate s _) as [[h c]|] eqn:Hf; [|by linked_step].
  apply find_candidate_Some in Hf as [Hc Hh]. linked_step. rewrite Hc.
  linked_step; [apply (rejected_linked n); [done|lia]|]. linked_step.
  case_bool_decide; [by linked_step|]. do 3 linked_step.
  match goal with |- wp _ _ ?t => assert (Hh1 : ∀ c', candidate t !! h = Some c' →
    mc_hash c' = bp_checkpoint_hash bp) end.
  { intros c' Hc'. change (candidate s !! h = Some c') in Hc'. congruence. }
  match goal with |- wp (match ?m with _ => _ end) _ _ => destruct m end;
    [by apply partial_flat_linked|by apply partial_mode_a_linked|by apply partial_flat_linked].
Qed.

Lemma macro_qc_linked cfg qc ctx n s :
  linked n s → n + 1 < 2 ^ 64 → wp (on_macro_qc_received cfg qc ctx) (links (n + 1)) s.
Proof.
  intros Hl Hroom. unfold on_macro_qc_received. linked_step.
  case_bool_decide as Hnew; [by linked_step|]. linked_step.
  destruct (find_candidate s _) as [[h c]|] eqn:Hf; [|by linked_step].
  apply find_candidate_Some in Hf as [Hc Hh]. rewrite Hc.
  linked_step; [apply (rejected_linked n); [done|lia]|].
  rewrite <- Hh in Hnew. by apply adopt_linked.
Qed.

Lemma subnet_aggregate_linked cfg agg ctx n s :
  linked n s → n + 1 < 2 ^ 64 → wp (on_subnet_aggregate cfg agg ctx) (links (n + 1)) s.
Proof.
  intros Hl Hroom. unfold on_subnet_aggregate. linked_step.
  destruct (find_candidate s _) as [[h c]|] eqn:Hf; [|by linked_step].
  apply find_candidate_Some in Hf as [Hc Hh]. linked_step.
  linked_step; [apply (rejected_linked n); [done|lia]|]. linked_step.
  apply try_emit_mode_a_linked; [done..|]. intros c' Hc'.
  change (candidate s !! h = Some c') in Hc'. congruence.
Qed.

(** *** Proposals and timers *)

Lemma sign_partial_linked ctx cp subnet n s :
  linked n s → wp (sign_partial ctx cp subnet) (links n) s.
Proof. intros. unfold sign_partial. by repeat linked_step. Qed.

(** Votes are no part of the chain. *)
Lemma cast_vote_linked ctx cp n s : linked n s → wp (cast_vote ctx cp) (links n) s.
Proof.
  intros Hl. unfold cast_vote. do 2 linked_step. apply wp_bind, wp_modify.
  match goal with |- wp _ _ ?t => assert (linked n t) by by apply (linked_same n s) end.
  by repeat linked_step.
Qed.

Lemma accept_proposal_linked cfg ctx set beacon mode cp c n s :
  linked n s → candidate s !! mc_height cp = Some c → mc_hash c = mc_hash cp →
  mc_parent cp = last_macro_hash s →
  wp (accept_proposal cfg ctx set beacon mode cp) (links n) s.
Proof.
  intros [HC Hn] Hc Heq Hp. unfold accept_proposal. linked_step. apply wp_bind, wp_modify.
  match goal with |- wp _ _ ?t => assert (linked n t) end.
  { split; [|done]. by apply (chain_accept s cp c). }
  linked_step. apply (linked_call _ _ n); [lia|by apply cast_vote_linked|intros ? ? ?].
  linked_step. apply (linked_call _ _ n); [lia|by apply sign_partial_linked|intros ? ? ?].
  by repeat linked_step.
Qed.

Lemma consider_proposal_linked cfg p ctx set beacon n s :
  linked n s → wp (consider_proposal cfg p ctx set beacon) (links n) s.
Proof.
  intros Hl. unfold consider_proposal. do 3 linked_step. linked_step; [by linked_step|].
  case_bool_decide as Hp; [by linked_step|].
  destruct (candidate s !! _) as [c|] eqn:Hc; [|by linked_step].
  destruct (negb _) eqn:Hsame; [by linked_step|].
  apply negb_false_iff, andb_true_iff in Hsame as [_ Heq%bool_decide_eq_true].
  destruct (try_lock _ _ _ _) as [res l]. destruct (is_ok res); [|by repeat linked_step].
  apply wp_bind, wp_modify. apply (accept_proposal_linked _ _ _ _ _ _ c); [|done..].
  by apply (linked_same n s).
Qed.

Lemma macro_proposal_linked cfg p ctx n s :
  linked n s → wp (on_macro_proposal cfg p ctx) (links n) s.
Proof.
  intros Hl. unfold on_macro_proposal. do 2 linked_step.
  apply (linked_call _ _ n); [lia| |intros ? ? ?].
  { linked_step; [|by linked_step]. linked_step. apply wp_modify. by apply (linked_front n s). }
  do 2 linked_step. linked_step; [by apply (rejected_linked n)|].
  linked_step; [by repeat linked_step|]. linked_step; [by linked_step|]. linked_step.
  by apply consider_proposal_linked.
Qed.

Lemma backup_timer_linked ctx h n s : linked n s → wp (on_backup_timer ctx h) (links n) s.
Proof.
  intros Hl. unfold on_backup_timer. do 2 linked_step. linked_step; [by linked_step|].
  linked_step; [|by linked_step]. do 3 linked_step. linked_step; [|by linked_step].
  eapply wp_mono; [|apply still_sign_proposal]. intros ? ? [Hf _].
  by eapply linked_front; [exact Hf|].
Qed.

Lemma mode_b_timer_linked cfg ctx h n s : linked n s → wp (on_mode_b_timer cfg ctx h) (links n) s.
Proof.
  intros Hl. unfold on_mode_b_timer. apply wp_bind, wp_modify.
  match goal with |- wp _ _ ?t => assert (linked n t) by by apply (linked_same n s) end.
  linked_step. apply (linked_call _ _ n); [lia| |intros ? ? ?].
  { match goal with |- wp (if ?b then _ else _) _ _ => destruct b end; [by linked_step|].
    apply wp_modify. by apply (linked_same n s). }
  linked_step. linked_step; [|by linked_step]. linked_step; [|by linked_step].
  destruct (try_lock _ _ _ _) as [res l]. destruct (is_ok res); [|by linked_step].
  apply wp_bind, wp_modify.
  match goal with |- wp _ _ ?t => assert (linked n t) by by apply (linked_same n s') end.
  do 5 linked_step. by apply sign_partial_linked.
Qed.

Lemma timer_linked cfg ctx id acts n s :
  linked n s → wp (macro_on_timer_fired cfg ctx id acts) (links n) s.
Proof.
  intros Hl. unfold macro_on_timer_fired. linked_step. linked_step.
  { apply (linked_call _ _ n); [lia|by apply backup_timer_linked|intros ? ? ?]. by linked_step. }
  linked_step; [|by linked_step].
  apply (linked_call _ _ n); [lia|by apply mode_b_timer_linked|intros ? ? ?]. by linked_step.
Qed.

(** A call keeps the chain, and moves the next height by one at most. *)
Lemma chain_handle cfg i s :
  chain_inv s → next_height s + 1 < 2 ^ 64 →
  wp (macro_handle cfg i) (λ _ s', chain_inv s' ∧ next_height s' ≤ next_height s + 1) s.
Proof.
  intros HC Hroom. assert (Hl : linked (next_height s) s) by done.
  assert (Hup : ∀ m : MF Actions, wp m (links (next_height s)) s → wp m (links (next_height s + 1)) s).
  { intros m Hm. eapply wp_mono; [|exact Hm]. intros r s' Hs'. eapply linked_mono; [exact Hs'|lia]. }
  destruct i as [[] ctx]; unfold macro_handle; cbn [fst snd].
  - by apply Hup, micro_linked.
  - by apply Hup, macro_proposal_linked.
  - by apply bls_partial_linked.
  - by apply subnet_aggregate_linked.
  - by apply macro_qc_linked.
  - by apply Hup, timer_linked.
Qed.

(** Along a run of fewer than [2 ^ 64] calls from an empty book *)
Lemma chain_run cfg ins s :
  chain_inv s → next_height s + length ins < 2 ^ 64 →
  chain_inv (macro_run cfg ins s).2 ∧
  next_height (macro_run cfg ins s).2 ≤ next_height s + length ins.
Proof.
  revert s. induction ins as [|i ins IH]; intros s HC Hroom; cbn [macro_run length] in *.
  { cbn [snd]. split; [done|lia]. }
  pose proof (chain_handle cfg i s HC ltac:(lia)) as Hs1. unfold wp in Hs1.
  destruct (macro_handle cfg i s) as [r s1]. destruct Hs1 as [HC1 Hn1]. cbn [snd] in *.
  destruct (IH s1 HC1 ltac:(lia)) as [HC2 Hn2].
  destruct (macro_run cfg ins s1) as [acts s2]. cbn [snd] in *. split; [done|lia].
Qed.
End chain_handlers.
