(* ===== verification/VertexCert.v ===== *)
(** [consensus::vertex_cert]: distributed certification of vertices.

    The handlers work on [VertexState]: the [VertexBook] of the source, with
    the host's queue of pending blobs ([ctx.pending_blobs]) next to it.
    [try_finalize], [propose_round] and [maybe_advance] call one another, so
    they take fuel. *)

From S2P Require Import Prelude Bytes Types Crypto Toy Config Leader Dag Linearize Bullshark.
From S2P Require Import MacroState MacroAgg Slashing.
Open Scope Z_scope.

(** ** [book.rs] *)

Record VertexBook := MkVertexBook {
  vb_self_id : ValidatorId;
  current_round : Round;
  started : bool;
  certified_by_round : gmap Z (gmap ValidatorId Hash32);
  my_proposals : gmap Hash32 VertexProposal;
  collecting : gmap Hash32 (gmap ValidatorId BlsSig);
  emitted_certs : gset Hash32;
  proposals_seen : gmap (Z * ValidatorId) (list VertexProposal);
  voted : gset (Z * ValidatorId);
  round_timer : option TimerId;
  timer_retries : Z;
  vb_timers : TimerScheduler;
  rejected_crypto : Z;
  partial_conflicts : Z;
  rounds_stalled : Z;
}.
#[global] Instance VertexBook_eta : Settable VertexBook := λ b,
  MkVertexBook (vb_self_id b) (current_round b) (started b) (certified_by_round b)
    (my_proposals b) (collecting b) (emitted_certs b) (proposals_seen b) (voted b)
    (round_timer b) (timer_retries b) (vb_timers b) (rejected_crypto b) (partial_conflicts b)
    (rounds_stalled b).

Definition VertexBook_new (self_id : ValidatorId) : VertexBook :=
  MkVertexBook self_id 0 false ∅ ∅ ∅ ∅ ∅ ∅ None 0 TimerScheduler_default 0 0 0.

Definition certified_at (b : VertexBook) (round : Round) : gmap ValidatorId Hash32 :=
  default ∅ (certified_by_round b !! round).
Definition certified_count_at (b : VertexBook) (round : Round) : nat :=
  size (certified_at b round).

Record VertexState (P : Type) := MkVertexState { vbook : VertexBook; vpending : P }.
Arguments MkVertexState {_} _ _.
Arguments vbook {_} _.
Arguments vpending {_} _.
#[global] Instance VertexState_eta {P} : Settable (VertexState P) := λ s,
  MkVertexState (vbook s) (vpending s).

Definition quorum_need (set : ValidatorSet) : result Z :=
  match u32_try_from (length (vs_entries set)) with
  | None => Err (InvalidConfig "validator set too large")
  | Some n => Ok (quorum_threshold n)
  end.

(** [position(..).map(|i| u32::try_from(i).unwrap_or(u32::MAX))] *)
Definition index_of (set : ValidatorSet) (id : ValidatorId) : option Z :=
  (λ p : nat * ValidatorEntry, default u32_max (u32_try_from p.1)) <$>
    list_find (λ e, ve_id e = id) (vs_entries set).

Definition round_delay_nanos (cfg : Config) (retries : Z) : Z :=
  round_duration_ms (timing cfg) * 1000000 * (retries + 1).

Section vertex_cert.
Context `{Build, Primitives, !Borsh SignableVertex, PendingBlobSource P}.

Abbreviation VM := (M Error (VertexState P)).

Definition round_in_window (book : VertexBook) (round : Round) : result bool :=
  next ← add_w 64 round 1;
  if current_round book <=? next then
    limit ← add_w 64 (current_round book) 1;
    Ok (round <=? limit)
  else Ok false.

(** *** [verify.rs] *)

Definition pk_for (set : ValidatorSet) (id : ValidatorId) : option blst_pk :=
  entry ← entry_for set id; pk_from_entry entry.

Definition vertex_verify_proposal (set : ValidatorSet) (p : VertexProposal) : bool :=
  match pk_for set (v_author (vp_vertex p)) with
  | None => false
  | Some pk =>
      is_ok (verify pk dst.VERTEX_PROPOSAL (signing_bytes (vp_vertex p)) (vp_proposer_sig p))
  end.

Definition vertex_verify_partial (set : ValidatorSet) (bp : VertexPartial) (vertex : Vertex)
  : bool :=
  if bool_decide (vpt_vertex_hash bp ≠ v_hash vertex) ||
     bool_decide (vpt_round bp ≠ v_round vertex) ||
     bool_decide (vpt_author bp ≠ v_author vertex) then false
  else
    match pk_for set (vpt_voter bp) with
    | None => false
    | Some pk => is_ok (verify pk dst.VERTEX_CERT (signing_bytes vertex) (vpt_sig bp))
    end.

(** *** Updates of the book *)

Definition upd (f : VertexBook → VertexBook) : VM unit := modify (λ s, s <| vbook ::= f |>).

Definition vreject_crypto : VM unit :=
  n ← gets (λ s, rejected_crypto (vbook s));
  n ← lift (add_w 64 n 1);
  upd (λ b, b <| rejected_crypto := n |>).

(** [record_cert] *)
Definition record_cert (cv : CertifiedVertex) (b : VertexBook) : VertexBook :=
  let v := cv_vertex cv in
  b <| certified_by_round ::=
    <[v_round v := <[v_author v := v_hash v]> (certified_at b (v_round v))]> |>.

(** What [propose_round] records of its own sealed, signed proposal. *)
Definition record_proposal (p : VertexProposal) (self_sig : BlsSig) (b : VertexBook)
  : VertexBook :=
  let v := vp_vertex p in
  let key := (v_round v, vb_self_id b) in
  b <| my_proposals ::= <[v_hash v := p]> |>
    <| collecting ::=
       <[v_hash v := <[vb_self_id b := self_sig]> (default ∅ (collecting b !! v_hash v))]> |>
    <| voted ::= union {[key]} |>
    <| proposals_seen ::= <[key := default [] (proposals_seen b !! key) ++ [p]]> |>
    <| current_round := v_round v |>.

(** The pruning at the end of [maybe_advance]. *)
Definition prune (b : VertexBook) : VertexBook :=
  let keep_from := saturating_sub (current_round b) 1 in
  let mine := filter (λ kv : Hash32 * VertexProposal, keep_from ≤ v_round (vp_vertex kv.2))
                (my_proposals b) in
  b <| certified_by_round ::= filter (λ kv : Z * gmap ValidatorId Hash32, keep_from ≤ kv.1) |>
    <| my_proposals := mine |>
    <| collecting ::= filter (λ kv : Hash32 * gmap ValidatorId BlsSig,
                                is_Some (mine !! kv.1)) |>
    <| emitted_certs ::= filter (λ h, is_Some (mine !! h)) |>
    <| proposals_seen ::= filter (λ kv : (Z * ValidatorId) * list VertexProposal,
                                    keep_from ≤ kv.1.1) |>
    <| voted ::= filter (λ k : Z * ValidatorId, keep_from ≤ k.1) |>.

(** Re-arming the round timer in [propose_round]. *)
Definition rearm_timer (cfg : Config) : VM Actions :=
  old ← gets (λ s, round_timer (vbook s));
  id ← zoom vbook (zoom vb_timers allocate);
  _ ← upd (λ b, b <| round_timer := Some id |> <| timer_retries := 0 |>);
  mret (match old with Some t => [CancelTimer t] | None => [] end ++
        [ScheduleTimer id (round_delay_nanos cfg 0)]).

(** The certificate [try_finalize] assembles and checks. *)
Definition build_own_cert (set : ValidatorSet) (vertex : Vertex)
    (sigs : gmap ValidatorId BlsSig) : result CertifiedVertex :=
  let contributors := omap (λ kv : ValidatorId * BlsSig,
    (λ idx, (idx, kv.2)) <$> index_of set kv.1) (btree_entries sigs) in
  cv ← map_err (λ _, InvalidConfig "assemble vertex cert") (assemble_cert vertex set contributors);
  _ ← map_err (λ _, InvalidConfig "self-check vertex cert") (verify_certified_vertex cv set);
  Ok cv.

(** Drain, seal, sign and record the proposal of [round]. *)
Definition make_proposal (ctx : HostContext) (round : Round) (parents : list Hash32)
  : VM VertexProposal :=
  drained ← gets (λ s, pb_drain (vpending s));
  let '(blobs, queue) := drained in
  _ ← modify (λ s, s <| vpending := queue |>);
  self ← gets (λ s, vb_self_id (vbook s));
  let vertex := seal_hash (MkVertex round self parents blobs Hash32_zero) in
  let msg := signing_bytes vertex in
  proposer_sig ← lift (sign_bls ctx dst.VERTEX_PROPOSAL msg);
  self_sig ← lift (sign_bls ctx dst.VERTEX_CERT msg);
  let proposal := MkVertexProposal vertex proposer_sig in
  _ ← upd (record_proposal proposal self_sig);
  _ ← modify (λ s, s <| vpending ::= λ q, pb_confirm_attached q blobs |>);
  mret proposal.

Fixpoint try_finalize (fuel : nat) (cfg : Config) (ctx : HostContext) (hash : Hash32)
  : VM Actions :=
  match fuel with
  | O => nofuel
  | S fuel =>
      book ← gets vbook;
      if bool_decide (hash ∈ emitted_certs book) then mret []
      else
        match my_proposals book !! hash with
        | None => mret []
        | Some proposal =>
            set ← lift (active_set ctx);
            need ← lift (quorum_need set);
            match collecting book !! hash with
            | None => mret []
            | Some sigs =>
                if size sigs <? need then mret []
                else
                  cv ← lift (build_own_cert set (vp_vertex proposal) sigs);
                  _ ← upd (λ b, b <| emitted_certs ::= union {[hash]} |>);
                  _ ← upd (record_cert cv);
                  acts ← maybe_advance fuel cfg ctx;
                  mret (BroadcastCertifiedVertex cv :: acts)
            end
        end
  end
with propose_round (fuel : nat) (cfg : Config) (ctx : HostContext) (round : Round)
    (parents : list Hash32) : VM Actions :=
  match fuel with
  | O => nofuel
  | S fuel =>
      proposal ← make_proposal ctx round parents;
      timer ← rearm_timer cfg;
      acts ← try_finalize fuel cfg ctx (v_hash (vp_vertex proposal));
      mret (timer ++ [BroadcastVertexProposal proposal] ++ acts)
  end
with maybe_advance (fuel : nat) (cfg : Config) (ctx : HostContext) : VM Actions :=
  match fuel with
  | O => nofuel
  | S fuel =>
      s ← gets (λ s, started (vbook s));
      if negb s then mret []
      else
        set ← lift (active_set ctx);
        need ← lift (quorum_need set);
        acts ← advance_loop fuel cfg ctx need;
        _ ← upd prune;
        mret acts
  end
with advance_loop (fuel : nat) (cfg : Config) (ctx : HostContext) (need : Z) : VM Actions :=
  match fuel with
  | O => nofuel
  | S fuel =>
      book ← gets vbook;
      match certified_by_round book !! current_round book with
      | None => mret []
      | Some certs =>
          if size certs <? need then mret []
          else
            let parents := take (Z.to_nat need) (btree_values certs) in
            next ← lift (add_w 64 (current_round book) 1);
            acts ← propose_round fuel cfg ctx next parents;
            rest ← advance_loop fuel cfg ctx need;
            mret (acts ++ rest)
      end
  end.

(** *** The handlers *)

(** [prev.is_some_and(|m| m.values().any(|ph| ph == h))] for each parent. *)
Definition parents_known (prev : option (gmap ValidatorId Hash32)) (parents : list Hash32)
  : bool :=
  forallb (λ h, match prev with
                | Some m => bool_decide (h ∈ (map_to_list m).*2)
                | None => false
                end) parents.

Definition conflicting_proposal (existing : list VertexProposal) (p : VertexProposal) : bool :=
  existsb (λ prev, bool_decide (v_hash (vp_vertex prev) ≠ v_hash (vp_vertex p))) existing.

(** Steps 4 and 5 of [on_vertex_proposal]: the parents, then the vote. *)
Definition cast_vertex_vote (ctx : HostContext) (p : VertexProposal) : VM Actions :=
  book ← gets vbook;
  let v := vp_vertex p in
  let key := (v_round v, v_author v) in
  if bool_decide (key ∈ voted book) then mret []
  else
    _ ← upd (λ b, b <| voted ::= union {[key]} |>);
    sig ← lift (sign_bls ctx dst.VERTEX_CERT (signing_bytes v));
    mret [BroadcastVertexPartial
            (MkVertexPartial (v_hash v) (v_round v) (v_author v) (vb_self_id book) sig)].

Definition check_parents_and_vote (ctx : HostContext) (set : ValidatorSet) (p : VertexProposal)
  : VM Actions :=
  book ← gets vbook;
  let v := vp_vertex p in
  if 0 <? v_round v then
    need ← lift (quorum_need set);
    let prev := certified_by_round book !! (v_round v - 1) in
    if (length (v_parents v) <? need) || negb (parents_known prev (v_parents v)) then mret []
    else cast_vertex_vote ctx p
  else if negb (bool_decide (v_parents v = [])) then _ ← vreject_crypto; mret []
  else cast_vertex_vote ctx p.

Definition on_vertex_proposal (cfg : Config) (p : VertexProposal) (ctx : HostContext)
  : VM Actions :=
  set ← lift (active_set ctx);
  let v := vp_vertex p in
  if bool_decide (v_hash v ≠ content_hash v) then _ ← vreject_crypto; mret []
  else if negb (vertex_verify_proposal set p) then _ ← vreject_crypto; mret []
  else
    book ← gets vbook;
    let author := v_author v in
    if bool_decide (author = vb_self_id book) then mret []
    else
      near ← lift (round_in_window book (v_round v));
      if negb near then mret []
      else
        let key := (v_round v, author) in
        match proposals_seen book !! key with
        | Some existing =>
            if conflicting_proposal existing p then
              match existing with
              | [] => panic
              | first :: _ =>
                  mret [EmitSlashEvidence author
                          (SE_VertexEquivocation (vertex_equivocation_detect author first p))]
              end
            else check_parents_and_vote ctx set p
        | None =>
            _ ← upd (λ b, b <| proposals_seen ::= <[key := [p]]> |>);
            check_parents_and_vote ctx set p
        end.

Definition on_vertex_partial (fuel : nat) (cfg : Config) (bp : VertexPartial)
    (ctx : HostContext) : VM Actions :=
  book ← gets vbook;
  if bool_decide (vpt_author bp ≠ vb_self_id book) ||
     bool_decide (vpt_voter bp = vb_self_id book) then mret []
  else
    let hash := vpt_vertex_hash bp in
    match my_proposals book !! hash with
    | None => mret []
    | Some proposal =>
        let slot := default ∅ (collecting book !! hash) in
        _ ← upd (λ b, b <| collecting ::= <[hash := slot]> |>);
        match slot !! vpt_voter bp with
        | Some prev =>
            if bool_decide (prev ≠ vpt_sig bp) then
              n ← lift (add_w 64 (partial_conflicts book) 1);
              _ ← upd (λ b, b <| partial_conflicts := n |>);
              mret []
            else mret []
        | None =>
            set ← lift (active_set ctx);
            if negb (vertex_verify_partial set bp (vp_vertex proposal))
            then _ ← vreject_crypto; mret []
            else
              _ ← upd (λ b, b <| collecting ::=
                    <[hash := <[vpt_voter bp := vpt_sig bp]> slot]> |>);
              try_finalize fuel cfg ctx hash
        end
    end.

Definition genesis_propose (fuel : nat) (cfg : Config) (ctx : HostContext) : VM Actions :=
  s ← gets (λ s, started (vbook s));
  if s : bool then mret []
  else
    _ ← upd (λ b, b <| started := true |>);
    propose_round fuel cfg ctx 0 [].

Definition vertex_on_certified_vertex (fuel : nat) (cfg : Config) (cv : CertifiedVertex)
    (ctx : HostContext) : VM Actions :=
  _ ← upd (record_cert cv);
  maybe_advance fuel cfg ctx.

(** The proposal of the current round, re-broadcast by the fallback timer. *)
Definition current_proposal (b : VertexBook) : option VertexProposal :=
  snd <$> list_find (λ p, v_round (vp_vertex p) = current_round b)
            ((map_to_list (my_proposals b)).*2).

Definition vertex_on_timer_fired (cfg : Config) (ctx : HostContext) (id : TimerId)
  : VM Actions :=
  book ← gets vbook;
  if bool_decide (round_timer book ≠ Some id) then mret []
  else
    _ ← upd (λ b, b <| round_timer := None |>);
    set ← lift (active_set ctx);
    need ← lift (quorum_need set);
    if need <=? certified_count_at book (current_round book) then mret []
    else
      stalled ← lift (add_w 64 (rounds_stalled book) 1);
      let retries := Z.min (timer_retries book + 1) 8 in
      _ ← upd (λ b, b <| rounds_stalled := stalled |> <| timer_retries := retries |>);
      tid ← zoom vbook (zoom vb_timers allocate);
      _ ← upd (λ b, b <| round_timer := Some tid |>);
      mret (match current_proposal book with
            | Some p => [BroadcastVertexProposal p]
            | None => []
            end ++ [ScheduleTimer tid (round_delay_nanos cfg retries)]).
End vertex_cert.

(** ** What a validator has said

    [V] is the list of [(round, author)] pairs it voted for so far, [K] the
    proposals of its own that it may have broadcast.  The invariants tie them
    to what the book still remembers after pruning. *)

Definition vote_of (a : Action) : option (Z * ValidatorId) :=
  match a with BroadcastVertexPartial bp => Some (vpt_round bp, vpt_author bp) | _ => None end.
Definition votes_cast (acts : Actions) : list (Z * ValidatorId) := omap vote_of acts.

Definition proposals_sent (acts : Actions) : list VertexProposal :=
  omap (λ a, match a with BroadcastVertexProposal p => Some p | _ => None end) acts.

Lemma votes_cast_app a b : votes_cast (a ++ b) = votes_cast a ++ votes_cast b.
Proof. apply omap_app. Qed.
Lemma proposals_sent_app a b : proposals_sent (a ++ b) = proposals_sent a ++ proposals_sent b.
Proof. apply omap_app. Qed.

(** Every vote is for another validator and remembered, or its round has left the window for good. *)
Record votes_inv (b : VertexBook) (V : list (Z * ValidatorId)) : Prop := {
  vi_nodup : NoDup V;
  vi_other k : k ∈ V → k.2 ≠ vb_self_id b;
  vi_known k : k ∈ V → 0 ≤ k.1 ∧ (k ∈ voted b ∨ k.1 + 1 < current_round b);
}.

(** At most one own proposal per round, none beyond the current one. *)
Record proposals_inv (b : VertexBook) (K : list VertexProposal) : Prop := {
  pi_mine h p : my_proposals b !! h = Some p → p ∈ K;
  pi_author p : p ∈ K → v_author (vp_vertex p) = vb_self_id b;
  pi_round p : p ∈ K → v_round (vp_vertex p) ≤ current_round b;
  pi_unique p q : p ∈ K → q ∈ K → v_round (vp_vertex p) = v_round (vp_vertex q) → p = q;
  pi_nonneg : 0 ≤ current_round b;
  pi_fresh : started b = false → K = [] ∧ current_round b = 0;
}.

(** *** The round counter does not wrap around

    A round is left for the next one only when it has certificates of a quorum, hence, in a set
    with a quorum of at least two, a certificate of another author, which a call brought in.
    [foreign_rounds] are the rounds, from the current one, that have one: the current round plus
    their number grows by at most one per call. *)

Definition foreign_rounds (b : VertexBook) : gset Z :=
  dom (filter (λ kv : Z * gmap ValidatorId Hash32,
         current_round b ≤ kv.1 ∧ delete (vb_self_id b) kv.2 ≠ ∅) (certified_by_round b)).

(** The quorum of every set the host answers with is of at least two. *)
Definition wide_host (ctx : HostContext) : Prop :=
  ∀ set need, active_set ctx = Ok set → quorum_need set = Ok need → 2 ≤ need.

Section words.
Context `{Build}.

(** Overflow is checked, or [k] more calls leave the counter below its limit. *)
Definition clock (k : nat) (b : VertexBook) : Prop :=
  overflow_checks = true ∨ current_round b + size (foreign_rounds b) + k < 2 ^ 64 - 1.

Lemma clock_mono k k' b : (k' ≤ k)%nat → clock k b → clock k' b.
Proof. intros Hk [?|?]; [by left|right; lia]. Qed.

Lemma clock_next {E} b next :
  clock 0 b → 0 ≤ current_round b → add_w (E := E) 64 (current_round b) 1 = Ok next →
  next = current_round b + 1.
Proof.
  intros [Hc|Hc] H0 Hn; [by apply add_w_checked in Hn as [-> _]|].
  rewrite add_w_ok in Hn by (unfold uint_ok; lia). by injection Hn as <-.
Qed.

Lemma foreign_rounds_spec b r :
  r ∈ foreign_rounds b ↔
  current_round b ≤ r ∧ ∃ m, certified_by_round b !! r = Some m ∧ delete (vb_self_id b) m ≠ ∅.
Proof.
  unfold foreign_rounds. rewrite elem_of_dom. unfold is_Some.
  setoid_rewrite map_lookup_filter_Some. naive_solver.
Qed.

Lemma clock_subset k b b' :
  current_round b' = current_round b → foreign_rounds b' ⊆ foreign_rounds b →
  clock k b → clock k b'.
Proof. intros Hr Hs%subseteq_size [?|?]; [by left|right; rewrite Hr; lia]. Qed.

(** Leaving a round that has the certificate of another author *)
Lemma clock_advance k b :
  current_round b ∈ foreign_rounds b →
  clock k b → clock k (b <| current_round := current_round b + 1 |>).
Proof.
  intros Hin [?|Hc]; [by left|right].
  change (current_round b + 1 + size (foreign_rounds (b <| current_round := current_round b + 1 |>))
    + k < 2 ^ 64 - 1).
  assert (Hs : foreign_rounds (b <| current_round := current_round b + 1 |>) ⊆
    foreign_rounds b ∖ {[current_round b]}).
  { intros r. rewrite elem_of_difference, elem_of_singleton, !foreign_rounds_spec.
    intros [Hr Hm]. change (current_round b + 1 ≤ r) in Hr. split; [split; [lia|exact Hm]|lia]. }
  apply subseteq_size in Hs. rewrite size_difference in Hs by set_solver.
  rewrite size_singleton in Hs.
  assert (size (foreign_rounds b) ≠ 0%nat) by (apply size_non_empty_iff; set_solver). lia.
Qed.

(** Same validator, not un-started, and [n] calls on. *)
Record later (n : nat) (b b' : VertexBook) : Prop := {
  lt_self : vb_self_id b' = vb_self_id b;
  lt_started : started b = true → started b' = true;
  lt_clock k : clock (n + k) b → clock k b';
}.
Lemma later_refl b : later 0 b b.
Proof. by split. Qed.
Lemma later_trans n m b1 b2 b3 : later n b1 b2 → later m b2 b3 → later (n + m) b1 b3.
Proof.
  intros [S1 T1 C1] [S2 T2 C2]. split; [congruence|auto|].
  intros k Hk. apply C2, C1. by rewrite Nat.add_assoc.
Qed.
Lemma later_mono n m b b' : (n ≤ m)%nat → later n b b' → later m b b'.
Proof.
  intros Hn [S1 T1 C1]. split; [done..|]. intros k Hk. apply C1. eapply clock_mono; [|done]. lia.
Qed.

(** The outcome of a call made with history [V], [K] from the book [b]. *)
Definition said {P} (n : nat) (b : VertexBook) (V : list (Z * ValidatorId)) (K : list VertexProposal)
    (r : result Actions) (s : VertexState P) : Prop :=
  let acts := match r with Ok acts => acts | _ => [] end in
  later n b (vbook s) ∧ speaks L1 acts = true ∧ votes_inv (vbook s) (V ++ votes_cast acts) ∧
  ∃ K', K ⊆ K' ∧ proposals_inv (vbook s) K' ∧ ∀ p, p ∈ proposals_sent acts → p ∈ K'.

Definition quiet_acts (acts : Actions) : Prop :=
  speaks L1 acts = true ∧ votes_cast acts = [] ∧ proposals_sent acts = [].

(** The history [V], [K] is right for the book reached from [b]. *)
Record history (b : VertexBook) (V : list (Z * ValidatorId)) (K : list VertexProposal)
    (b' : VertexBook) : Prop := {
  hy_later : later 0 b b';
  hy_votes : votes_inv b' V;
  hy_props : proposals_inv b' K;
}.

Lemma said_quiet {P} b V K r (s : VertexState P) :
  history b V K (vbook s) → quiet_acts (match r with Ok acts => acts | _ => [] end) →
  said 0 b V K r s.
Proof.
  intros [Hs HV HK] (Hl & Hv & Hp). unfold said. rewrite Hv, Hp, app_nil_r. split_and!; [done..|].
  exists K. split_and!; [done..|]. by intros p ?%elem_of_nil.
Qed.

(** Updates that keep the fields the invariants read. *)
Record same_word (b b' : VertexBook) : Prop := {
  sw_self : vb_self_id b' = vb_self_id b;
  sw_voted : voted b' = voted b;
  sw_round : current_round b' = current_round b;
  sw_mine : my_proposals b' = my_proposals b;
  sw_started : started b' = started b;
  sw_foreign : foreign_rounds b' ⊆ foreign_rounds b;
}.

Lemma same_word_refl b : same_word b b.
Proof. by split. Qed.

Lemma same_word_history b0 b b' V K :
  same_word b b' → history b0 V K b → history b0 V K b'.
Proof.
  intros [S1 S2 S3 S4 S5 S6] [[L1 L2 L3] [V1 V2 V3] [K1 K2 K3 K4 K5 K6]].
  split; split; rewrite ?S1, ?S2, ?S3, ?S4, ?S5; try done.
  intros k Hk. by eapply clock_subset, L3.
Qed.

Lemma record_proposal_inv b V K p sig :
  votes_inv b V → proposals_inv b K → started b = true →
  current_round b ≤ v_round (vp_vertex p) → v_author (vp_vertex p) = vb_self_id b →
  (∀ q, q ∈ K → v_round (vp_vertex q) < v_round (vp_vertex p)) →
  votes_inv (record_proposal p sig b) V ∧ proposals_inv (record_proposal p sig b) (p :: K).
Proof.
  intros [V1 Vo V2] [K1 Ka K2 K3 K0 K4] Hst Hr Ha Hnew. unfold record_proposal.
  destruct b; cbn in *. split; split; cbn.
  - done.
  - done.
  - intros k Hk. destruct (V2 k Hk) as [Hk0 [Hv|Hv]]; (split; [done|]); [set_solver|right; lia].
  - intros h q [[_ <-]|[_ Hq]]%lookup_insert_Some; [by left|right; by eapply K1].
  - intros q [->|Hq]%elem_of_cons; [done|by apply Ka].
  - intros q [->|Hq]%elem_of_cons; [lia|]. specialize (Hnew q Hq). lia.
  - intros q q' [->|Hq]%elem_of_cons [->|Hq']%elem_of_cons He; [done|..|by apply K3].
    + specialize (Hnew q' Hq'). lia.
    + specialize (Hnew q Hq). lia.
  - lia.
  - by rewrite Hst.
Qed.

Lemma prune_inv b V K :
  votes_inv b V → proposals_inv b K → votes_inv (prune b) V ∧ proposals_inv (prune b) K.
Proof.
  intros [V1 Vo V2] [K1 Ka K2 K3 K0 K4]. unfold prune. set (keep := saturating_sub _ 1).
  assert (Hkeep : keep ≤ Z.max (current_round b - 1) 0) by (unfold keep, saturating_sub; lia).
  clearbody keep. destruct b; cbn in *. split; split; cbn; try done.
  - intros k Hk. destruct (V2 k Hk) as [Hk0 [Hv|Hv]]; (split; [done|]); [|by right].
    destruct (decide (keep ≤ k.1)) as [Hle|Hgt].
    + left. apply elem_of_filter. by split.
    + right. lia.
  - intros h p [Hp _]%map_lookup_filter_Some. by eapply K1.
Qed.

Lemma said_glue {P} n b V K K1 a acts (s : VertexState P) :
  K ⊆ K1 → speaks L1 a = true → (∀ p, p ∈ proposals_sent a → p ∈ K1) →
  said n b (V ++ votes_cast a) K1 (Ok acts) s → said n b V K (Ok (a ++ acts)) s.
Proof.
  intros HK Hla Ha (Hl & Hlb & HV & K2 & HK2 & HP & Hs). split; [done|].
  split; [by apply speaks_app|]. rewrite votes_cast_app, app_assoc. split; [done|]. exists K2. split_and!; [set_solver|done|].
  intros p. rewrite proposals_sent_app, elem_of_app. intros [?|?]; [|by apply Hs].
  apply HK2. by apply Ha.
Qed.

Lemma votes_inv_prefix b V W : votes_inv b (V ++ W) → votes_inv b V.
Proof.
  intros [V1 Vo V2]. split; [by apply NoDup_app in V1 as [? _]|..];
    intros k Hk; [apply Vo|apply V2]; apply elem_of_app; by left.
Qed.

Lemma said_fail {P} n b V K K1 W (r : result Actions) (s : VertexState P) :
  K ⊆ K1 → is_ok r = false → said n b (V ++ W) K1 r s → said n b V K r s.
Proof.
  intros HK Hr (Hl & _ & HV & K2 & HK2 & HP & Hs). split; [done|].
  split; [by destruct r|]. destruct r; [done|..]; cbn in *; rewrite app_nil_r in HV |- *;
    (split; [by eapply votes_inv_prefix|]); exists K2; (split; [set_solver|done]).
Qed.

Lemma said_weaken {P} n b V K K1 r (s : VertexState P) :
  K ⊆ K1 → said n b V K1 r s → said n b V K r s.
Proof. intros HK (Hl & Hsp & HV & K2 & HK2 & HP). split_and!; [done..|]. exists K2. by split; [set_solver|]. Qed.

Lemma said_later {P} n m b V K r (s : VertexState P) :
  (n ≤ m)%nat → said n b V K r s → said m b V K r s.
Proof. intros Hn (Hl & Hrest). split; [by eapply later_mono|done]. Qed.

Lemma said_done {P} b V K K1 acts acts' (s : VertexState P) :
  speaks L1 acts' = true → votes_cast acts' = votes_cast acts → (∀ p, p ∈ proposals_sent acts' → p ∈ K1) → K ⊆ K1 →
  history b (V ++ votes_cast acts) K1 (vbook s) → said 0 b V K (Ok acts') s.
Proof.
  intros Hsp Hv HP HK [Hl HV HK1]. do 2 (split; [done|]). rewrite Hv. split; [done|]. by exists K1.
Qed.
End words.

Lemma record_cert_certs cv b :
  certified_by_round (record_cert cv b) =
    <[v_round (cv_vertex cv) := <[v_author (cv_vertex cv) := v_hash (cv_vertex cv)]>
       (certified_at b (v_round (cv_vertex cv)))]> (certified_by_round b).
Proof. done. Qed.

Lemma build_own_cert_vertex `{Primitives, !Borsh SignableVertex} set v sigs cv :
  build_own_cert set v sigs = Ok cv → cv_vertex cv = v.
Proof.
  unfold build_own_cert.
  intros (cv' & Hc%map_err_Ok & ([] & _ & [= <-])%outcome_bind_Ok)%outcome_bind_Ok.
  by apply assemble_cert_Ok in Hc as [? _].
Qed.

(** Own certificates are not foreign. *)
Lemma same_word_record_own b cv :
  v_author (cv_vertex cv) = vb_self_id b → same_word b (record_cert cv b).
Proof.
  intros Ha. split; try done. intros r. rewrite !foreign_rounds_spec.
  change (current_round (record_cert cv b)) with (current_round b).
  change (vb_self_id (record_cert cv b)) with (vb_self_id b).
  rewrite record_cert_certs.
  intros (Hr & m & [[<- <-]|[_ Hm]]%lookup_insert_Some & Hd); [|by eauto].
  rewrite Ha, delete_insert_eq in Hd. split; [done|]. unfold certified_at in Hd.
  destruct (certified_by_round b !! _) as [m|] eqn:Hm; [by exists m|]. cbn in Hd.
  by rewrite delete_empty in Hd.
Qed.

Lemma foreign_rounds_prune b : foreign_rounds (prune b) ⊆ foreign_rounds b.
Proof.
  intros r. rewrite !foreign_rounds_spec. destruct b. cbn.
  intros (Hr & m & [Hm _]%map_lookup_filter_Some & Hd). split; [done|]. by exists m.
Qed.

(** A call brings in one round at most. *)
Lemma later_record_cert `{Build} cv b : later 1 b (record_cert cv b).
Proof.
  split; [done..|]. intros k [?|Hc]; [by left|right].
  change (current_round (record_cert cv b)) with (current_round b).
  assert (Hs : foreign_rounds (record_cert cv b) ⊆
    {[v_round (cv_vertex cv)]} ∪ foreign_rounds b).
  { intros r. rewrite elem_of_union, elem_of_singleton, !foreign_rounds_spec.
    rewrite record_cert_certs.
    intros (Hr & m & [[<- <-]|[_ Hm]]%lookup_insert_Some & Hd); [by left|right]. eauto. }
  apply subseteq_size in Hs. rewrite size_union_alt, size_singleton in Hs.
  assert (Hd : foreign_rounds b ∖ {[v_round (cv_vertex cv)]} ⊆ foreign_rounds b) by set_solver.
  apply subseteq_size in Hd. lia.
Qed.

Section honest.
Context `{Build, Primitives, !Borsh SignableVertex, PendingBlobSource P}.
Context (cfg : Config) (ctx : HostContext).
Context (Hwide : overflow_checks = true ∨ wide_host ctx).

Abbreviation VM := (M Error (VertexState P)).
Abbreviation said := (said 0).

(** Binding a call that does not touch what was said. *)
Lemma said_bind {A} (m : VM A) (f : A → VM Actions) (Q : A → Prop) b V K s :
  history b V K (vbook s) →
  wp m (λ r s', same_word (vbook s) (vbook s') ∧ match r with Ok a => Q a | _ => True end) s →
  (∀ a s', Q a → history b V K (vbook s') → same_word (vbook s) (vbook s') →
     wp (f a) (said b V K) s') →
  wp (m ≫= f) (said b V K) s.
Proof.
  intros Hh Hm Hf. apply wp_bind. eapply wp_mono; [|exact Hm].
  intros r s' [Hw HQ]. pose proof (same_word_history _ _ _ _ _ Hw Hh).
  destruct r; [by apply Hf|by apply said_quiet..].
Qed.

Lemma said_bind_gets {A} (g : VertexState P → A) (f : A → VM Actions) b V K s :
  wp (f (g s)) (said b V K) s → wp (gets g ≫= f) (said b V K) s.
Proof. done. Qed.

Lemma said_bind_lift {A} (m : result A) (f : A → VM Actions) b V K s :
  history b V K (vbook s) → (∀ a, m = Ok a → wp (f a) (said b V K) s) →
  wp (lift m ≫= f) (said b V K) s.
Proof.
  intros Hh Hf. apply wp_bind, wp_lift.
  destruct m; [by apply Hf|by apply said_quiet..].
Qed.

Lemma said_bind_upd (g : VertexBook → VertexBook) (f : unit → VM Actions) b V K s :
  history b V K (vbook s) → same_word (vbook s) (g (vbook s)) →
  (history b V K (g (vbook s)) → wp (f tt) (said b V K) (s <| vbook ::= g |>)) →
  wp (upd g ≫= f) (said b V K) s.
Proof.
  intros Hh Hw Hf. apply wp_bind, wp_modify. apply Hf. by eapply same_word_history.
Qed.

(** Binding a call that may say something. *)
Lemma said_bind_call (m : VM Actions) (f : Actions → VM Actions) b V K s :
  wp m (said b V K) s →
  (∀ acts s1 K1, K ⊆ K1 → speaks L1 acts = true → (∀ p, p ∈ proposals_sent acts → p ∈ K1) →
     history b (V ++ votes_cast acts) K1 (vbook s1) → wp (f acts) (said b V K) s1) →
  wp (m ≫= f) (said b V K) s.
Proof.
  intros Hm Hf. apply wp_bind. eapply wp_mono; [|exact Hm].
  intros [acts| | |] s1; [|done..]. intros (Hl & Hsp & HV & K1 & HK & HP & Hs).
  by apply (Hf acts s1 K1).
Qed.

Lemma wp_said_weaken K1 (m : VM Actions) b V K s :
  K ⊆ K1 → wp m (said b V K1) s → wp m (said b V K) s.
Proof. intros HK. apply wp_mono. intros r s'. by apply said_weaken. Qed.

Lemma wp_vreject (s : VertexState P) :
  wp vreject_crypto (λ r s', same_word (vbook s) (vbook s') ∧
    match r with Ok _ => True | _ => True end) s.
Proof.
  unfold vreject_crypto, upd. do 4 wp_step.
  destruct (add_w _ _ _); [wp_step|..]; by split; [split|].
Qed.

Lemma wp_rearm_timer (s : VertexState P) :
  wp (rearm_timer cfg) (λ r s', same_word (vbook s) (vbook s') ∧
    match r with Ok acts => quiet_acts acts | _ => True end) s.
Proof.
  unfold rearm_timer, upd. do 4 wp_step. unfold zoom.
  destruct (allocate (vb_timers (vbook s))) as [[id| | |] t]; cbn [fst snd];
    [|by split; [split|]..].
  do 3 wp_step. split; [by split|]. by destruct (round_timer (vbook s)).
Qed.

(** [make_proposal] either records a proposal of the round, or nothing. *)
Lemma wp_make_proposal round parents (s : VertexState P) :
  wp (make_proposal ctx round parents) (λ r s', match r with
    | Ok p => v_round (vp_vertex p) = round ∧ v_author (vp_vertex p) = vb_self_id (vbook s) ∧
              ∃ sig, vbook s' = record_proposal p sig (vbook s)
    | _ => vbook s' = vbook s
    end) s.
Proof.
  unfold make_proposal, upd. do 2 wp_step. destruct (pb_drain (vpending s)) as [blobs queue].
  do 6 wp_step. destruct (sign_bls ctx dst.VERTEX_PROPOSAL _) as [psig| | |]; [|done..].
  do 2 wp_step. destruct (sign_bls ctx dst.VERTEX_CERT _) as [ssig| | |]; [|done..].
  do 5 wp_step. split; [done|]. split; [done|]. by exists ssig.
Qed.

(** Going to [round] keeps the clock. *)
Definition stays_on (b : VertexBook) (round : Z) : Prop :=
  ∀ k, clock k b → clock k (b <| current_round := round |>).

Lemma quorum_stays_on b certs need :
  certified_by_round b !! current_round b = Some certs → need ≤ size certs →
  overflow_checks = true ∨ 2 ≤ need → stays_on b (current_round b + 1).
Proof.
  intros Hm Hs [?|Hn] k Hk; [by left|]. apply clock_advance; [|done].
  apply foreign_rounds_spec. split; [lia|]. exists certs. split; [done|]. intros He.
  assert (Hsub : dom certs ⊆ {[vb_self_id b]}).
  { intros a [h Ha]%elem_of_dom. apply elem_of_singleton. destruct (decide (a = vb_self_id b)); [done|].
    rewrite <- (lookup_delete_ne certs (vb_self_id b) a) in Ha by done.
    by rewrite He, lookup_empty in Ha. }
  apply subseteq_size in Hsub. rewrite size_dom, size_singleton in Hsub. lia.
Qed.

(** The history is kept by every call of the mutual recursion. *)
Definition history_kept (fuel : nat) : Prop :=
  ∀ (s : VertexState P) b V K, clock 0 b → history b V K (vbook s) → started b = true →
    (∀ hash, wp (try_finalize fuel cfg ctx hash) (said b V K) s) ∧
    (∀ round parents, current_round (vbook s) ≤ round → stays_on (vbook s) round →
       (∀ q, q ∈ K → v_round (vp_vertex q) < round) →
       wp (propose_round fuel cfg ctx round parents) (said b V K) s) ∧
    wp (maybe_advance fuel cfg ctx) (said b V K) s ∧
    (∀ need, overflow_checks = true ∨ 2 ≤ need →
       wp (advance_loop fuel cfg ctx need) (said b V K) s).

Lemma try_finalize_kept fuel : history_kept fuel → ∀ (s : VertexState P) b V K hash,
  clock 0 b → history b V K (vbook s) → started b = true →
  wp (try_finalize (S fuel) cfg ctx hash) (said b V K) s.
Proof.
  intros IH s b V K hash Hck Hh Hst. cbn [try_finalize]. apply said_bind_gets.
  case_bool_decide; [by apply wp_ret, said_quiet|].
  destruct (my_proposals _ !! hash) as [p|] eqn:Hp; [|by apply wp_ret, said_quiet].
  apply said_bind_lift; [done|intros set _]. apply said_bind_lift; [done|intros need _].
  destruct (collecting _ !! hash) as [sigs|]; [|by apply wp_ret, said_quiet].
  destruct (_ <? _); [by apply wp_ret, said_quiet|].
  apply said_bind_lift; [done|intros cv Hcv%build_own_cert_vertex].
  apply said_bind_upd; [done|by split|intros Hh1].
  apply said_bind_upd; [done| |intros Hh2].
  { apply same_word_record_own. rewrite Hcv. apply (pi_author _ _ (hy_props _ _ _ _ Hh)).
    by eapply pi_mine; [apply Hh|]. }
  apply said_bind_call; [by apply IH|].
  intros acts s1 K1 HK Hsp HP Hh3. apply wp_ret. by apply (said_done _ _ _ K1 acts).
Qed.

Lemma propose_round_kept fuel : history_kept fuel → ∀ (s : VertexState P) b V K round parents,
  clock 0 b → history b V K (vbook s) → started b = true →
  current_round (vbook s) ≤ round → stays_on (vbook s) round →
  (∀ q, q ∈ K → v_round (vp_vertex q) < round) →
  wp (propose_round (S fuel) cfg ctx round parents) (said b V K) s.
Proof.
  intros IH s b V K round parents Hck Hh Hst Hr Hon Hnew. cbn [propose_round]. apply wp_bind.
  eapply wp_mono; [|apply wp_make_proposal].
  intros [p| | |] s1; [|intros Hs1; apply said_quiet; [by rewrite Hs1|done]..].
  intros (Hp & Ha & sig & Hs1). subst round.
  assert (Hh1 : history b V (p :: K) (vbook s1)).
  { rewrite Hs1. destruct Hh as [Hl HV HK].
    destruct (record_proposal_inv (vbook s) V K p sig) as [??]; try done;
      [by apply Hl|]. split; [|done..]. destruct Hl as [L1 L2 L3]. split; [done..|].
    intros k Hk%L3. exact (Hon k Hk). }
  apply (wp_said_weaken (p :: K)); [set_solver|].
  eapply said_bind; [done|apply wp_rearm_timer|].
  intros tacts s2 (Hq0 & Hq1 & Hq2) Hh2 _. cbn beta.
  apply said_bind_call; [by apply IH|].
  intros acts s3 K1 HK1 Hsp HP Hh3. apply wp_ret.
  apply (said_done _ _ _ K1 acts); [| | |set_solver|done].
  - rewrite !speaks_app. by split_and!.
  - rewrite !votes_cast_app, Hq1. reflexivity.
  - intros q. rewrite !proposals_sent_app, Hq2. cbn. rewrite elem_of_cons.
    intros [->|Hq]; [apply HK1; by left|by apply HP].
Qed.

Lemma advance_loop_kept fuel : history_kept fuel → ∀ (s : VertexState P) b V K need,
  clock 0 b → history b V K (vbook s) → started b = true →
  overflow_checks = true ∨ 2 ≤ need →
  wp (advance_loop (S fuel) cfg ctx need) (said b V K) s.
Proof.
  intros IH s b V K need Hck Hh Hst Hneed. cbn [advance_loop]. apply said_bind_gets.
  destruct (certified_by_round _ !! _) as [certs|] eqn:Hcs; [|by apply wp_ret, said_quiet].
  destruct (Z.ltb_spec (size certs) need) as [|Hsize]; [by apply wp_ret, said_quiet|].
  apply said_bind_lift; [done|intros next Hnext].
  apply clock_next in Hnext as ->; [|by apply (lt_clock _ _ _ (hy_later _ _ _ _ Hh))|
    by apply (pi_nonneg _ _ (hy_props _ _ _ _ Hh))].
  apply said_bind_call.
  { apply IH; [done..|lia|by eapply quorum_stays_on|]. intros q Hq. apply (pi_round _ _ (hy_props _ _ _ _ Hh)) in Hq. lia. }
  intros acts s1 K1 HK Hsp HP Hh1. apply wp_bind.
  eapply wp_mono; [|by apply IH].
  intros r s2 Hr. destruct r as [rest| | |]; [|by eapply said_fail..].
  apply wp_ret. by eapply said_glue.
Qed.

Lemma maybe_advance_kept fuel : history_kept fuel → ∀ (s : VertexState P) b V K,
  clock 0 b → history b V K (vbook s) → started b = true →
  wp (maybe_advance (S fuel) cfg ctx) (said b V K) s.
Proof.
  intros IH s b V K Hck Hh Hst. cbn [maybe_advance]. apply said_bind_gets.
  destruct (started (vbook s)); [|by apply wp_ret, said_quiet]. cbn [negb].
  apply said_bind_lift; [done|intros set Hset].
  apply said_bind_lift; [done|intros need Hneed].
  assert (overflow_checks = true ∨ 2 ≤ need) by (destruct Hwide; [by left|right; eauto]).
  apply said_bind_call; [by apply IH|].
  intros acts s1 K1 HK Hsp HP [Hl HV HK1]. apply wp_bind, wp_modify, wp_ret.
  destruct (prune_inv _ _ _ HV HK1). apply (said_done _ _ _ K1 acts); [done..|].
  split; [|done..]. destruct Hl as [L1 L2 L3]. split; [done..|]. intros k Hk%L3.
  eapply clock_subset, Hk; [done|apply foreign_rounds_prune].
Qed.

Lemma history_kept_all fuel : history_kept fuel.
Proof.
  induction fuel as [|fuel IH]; intros s b V K Hck Hh Hst.
  - split_and!; intros; by apply said_quiet.
  - split_and!; intros.
    + by apply try_finalize_kept.
    + by apply propose_round_kept.
    + by apply maybe_advance_kept.
    + by apply advance_loop_kept.
Qed.
Lemma history_refl (b : VertexBook) V K :
  votes_inv b V → proposals_inv b K → history b V K b.
Proof. intros. split; [apply later_refl|done..]. Qed.

(** [maybe_advance] and [try_finalize] do nothing before genesis. *)
Lemma maybe_advance_any fuel (s : VertexState P) V K :
  clock 0 (vbook s) → votes_inv (vbook s) V → proposals_inv (vbook s) K →
  wp (maybe_advance fuel cfg ctx) (said (vbook s) V K) s.
Proof.
  intros Hck HV HK. pose proof (history_refl _ _ _ HV HK).
  destruct (started (vbook s)) eqn:Hst; [by apply history_kept_all|].
  destruct fuel; [by apply said_quiet|]. cbn [maybe_advance]. apply said_bind_gets.
  rewrite Hst. by apply wp_ret, said_quiet.
Qed.

Lemma try_finalize_any fuel hash p (s : VertexState P) b V K :
  clock 0 b → history b V K (vbook s) → my_proposals (vbook s) !! hash = Some p →
  wp (try_finalize fuel cfg ctx hash) (said b V K) s.
Proof.
  intros Hck [Hl HV HK] Hp. apply (lt_clock _ _ _ Hl) in Hck.
  destruct (started (vbook s)) eqn:Hst.
  - eapply wp_mono, (proj1 (history_kept_all fuel s (vbook s) V K Hck (history_refl _ _ _ HV HK) Hst)).
    intros r s' (Hl' & Hrest). split; [exact (later_trans 0 0 _ _ _ Hl Hl')|done].
  - apply (pi_mine _ _ HK) in Hp. apply (pi_fresh _ _ HK) in Hst as [-> _].
    by apply elem_of_nil in Hp.
Qed.

(** A vote in the window for a key that is not remembered is a new one. *)
Lemma cast_vertex_vote_kept p (s : VertexState P) b V K :
  history b V K (vbook s) → v_author (vp_vertex p) ≠ vb_self_id (vbook s) → 0 ≤ v_round (vp_vertex p) →
  current_round (vbook s) ≤ v_round (vp_vertex p) + 1 →
  wp (cast_vertex_vote ctx p) (said b V K) s.
Proof.
  intros Hh Hau Hpos Hr. pose proof Hh as [Hl HV HK].
  unfold cast_vertex_vote. apply said_bind_gets. cbv zeta.
  set (key := (v_round (vp_vertex p), v_author (vp_vertex p))).
  case_bool_decide as Hk; [by apply wp_ret, said_quiet|].
  apply wp_bind, wp_modify.
  assert (Hin : ∀ W, (∀ k, k ∈ W → k ∈ V ∨ k = key) → NoDup W →
    votes_inv ((vbook s) <| voted ::= union {[key]} |>) W).
  { intros W HW Hnd. split; [done|..]; intros k Hk'; apply HW in Hk' as [Hk'| ->]; try (split; [|cbn]).
    - by apply (vi_other _ _ HV).
    - done.
    - by apply (vi_known _ _ HV).
    - apply (vi_known _ _ HV) in Hk' as [_ [?|?]]; [left; set_solver|by right].
    - done.
    - left. set_solver. }
  assert (HK' : proposals_inv ((vbook s) <| voted ::= union {[key]} |>) K) by by destruct HK.
  assert (Hl' : later 0 b ((vbook s) <| voted ::= union {[key]} |>)).
  { destruct Hl as [L1 L2 L3]. split; [done..|]. intros k Hk0%L3. exact Hk0. }
  apply wp_bind, wp_lift.
  destruct (sign_bls _ _ _) as [sig| | |].
  2-4: apply said_quiet; [split; [done| |done]|done];
    apply Hin; [by left|apply (vi_nodup _ _ HV)].
  apply wp_ret. apply (said_done _ _ _ K [BroadcastVertexPartial
    (MkVertexPartial (v_hash (vp_vertex p)) key.1 key.2 (vb_self_id (vbook s)) sig)]);
    [done|done| |done|].
  - by intros q ?%elem_of_nil.
  - split; [done| |done]. apply Hin.
    + intros k. cbn. rewrite elem_of_app, list_elem_of_singleton. tauto.
    + apply NoDup_app. split; [apply (vi_nodup _ _ HV)|]. split; [|apply NoDup_singleton].
      intros k Hk' Heq%list_elem_of_singleton. subst k.
      apply (vi_known _ _ HV) in Hk' as [_ [?|?]]; [done|cbn in *; lia].
Qed.

Lemma check_parents_and_vote_kept set p (s : VertexState P) b V K :
  history b V K (vbook s) → v_author (vp_vertex p) ≠ vb_self_id (vbook s) → 0 ≤ v_round (vp_vertex p) →
  current_round (vbook s) ≤ v_round (vp_vertex p) + 1 →
  wp (check_parents_and_vote ctx set p) (said b V K) s.
Proof.
  intros Hh Hau Hpos Hr. unfold check_parents_and_vote. apply said_bind_gets. cbv zeta.
  destruct (0 <? _).
  - apply said_bind_lift; [done|intros need _].
    destruct (_ || _); [by apply wp_ret, said_quiet|by apply cast_vertex_vote_kept].
  - destruct (negb _); [|by apply cast_vertex_vote_kept].
    apply (said_bind _ _ (λ _, True)); [done|apply wp_vreject|].
    intros _ s' _ Hh' _. by apply wp_ret, said_quiet.
Qed.

Lemma reject_then_quiet (s : VertexState P) b V K :
  history b V K (vbook s) →
  wp (_ ← vreject_crypto; mret []) (said b V K) s.
Proof.
  intros Hh. apply (said_bind _ _ (λ _, True)); [done|apply wp_vreject|].
  intros _ s' _ Hh' _. by apply wp_ret, said_quiet.
Qed.

(** The window holds no round that the current one has left behind, even if the sum wraps. *)
Lemma round_in_window_true b round :
  clock 0 b → 0 ≤ current_round b → u64_ok round → round_in_window b round = Ok true →
  current_round b ≤ round + 1.
Proof.
  intros Hck Hpos Hu (next & Hnext & Hnear)%outcome_bind_Ok.
  destruct (decide (uint_ok 64 (round + 1))) as [Hok|Hno].
  { rewrite add_w_ok in Hnext by done. injection Hnext as <-.
    destruct (Z.leb_spec (current_round b) (round + 1)); [done|done]. }
  assert (round = u64_max) as -> by (unfold uint_ok in *; lia).
  destruct (Z.leb_spec (current_round b) next) as [Hle|]; [|done].
  apply outcome_bind_Ok in Hnear as (limit & Hlim & [= Hr%Z.leb_le]).
  apply clock_next in Hlim as ->; [|done..].
  assert (next ≤ 0); [|lia].
  unfold add_w, wrapping in Hnext. rewrite decide_False in Hnext by done.
  destruct overflow_checks; [done|]. by injection Hnext as <-.
Qed.

Lemma on_vertex_proposal_kept p (s : VertexState P) V K :
  clock 0 (vbook s) → votes_inv (vbook s) V → proposals_inv (vbook s) K → u64_ok (v_round (vp_vertex p)) →
  wp (on_vertex_proposal cfg p ctx) (said (vbook s) V K) s.
Proof.
  intros Hck HV HK Hu. pose proof (history_refl _ _ _ HV HK) as Hh.
  unfold on_vertex_proposal. apply said_bind_lift; [done|intros set _]. cbv zeta.
  case_bool_decide; [by apply reject_then_quiet|].
  destruct (negb _); [by apply reject_then_quiet|]. apply said_bind_gets.
  case_bool_decide; [by apply wp_ret, said_quiet|].
  apply said_bind_lift; [done|intros near Hnear].
  destruct near; [|by apply wp_ret, said_quiet].
  apply round_in_window_true in Hnear; [|done|apply (pi_nonneg _ _ HK)|done].
  assert (0 ≤ v_round (vp_vertex p)) by apply Hu.
  destruct (proposals_seen (vbook s) !! _) as [existing|].
  - destruct (conflicting_proposal _ _); [|by apply check_parents_and_vote_kept].
    destruct existing; [|by apply wp_ret, said_quiet]. by apply said_quiet.
  - apply said_bind_upd; [done|by split|]. intros Hh'. by apply check_parents_and_vote_kept.
Qed.

Lemma on_vertex_partial_kept fuel bp (s : VertexState P) V K :
  clock 0 (vbook s) → votes_inv (vbook s) V → proposals_inv (vbook s) K →
  wp (on_vertex_partial fuel cfg bp ctx) (said (vbook s) V K) s.
Proof.
  intros Hck HV HK. pose proof (history_refl _ _ _ HV HK) as Hh.
  unfold on_vertex_partial. apply said_bind_gets.
  destruct (_ || _); [by apply wp_ret, said_quiet|].
  destruct (my_proposals _ !! _) as [p|] eqn:Hp; [|by apply wp_ret, said_quiet]. cbv zeta.
  apply said_bind_upd; [done|by split|intros Hh1].
  destruct (_ !! vpt_voter bp) as [prev|].
  - case_bool_decide; [|by apply wp_ret, said_quiet].
    apply said_bind_lift; [done|intros n _].
    apply said_bind_upd; [done|by split|intros Hh2]. by apply wp_ret, said_quiet.
  - apply said_bind_lift; [done|intros set _].
    destruct (negb _); [by apply reject_then_quiet|].
    apply said_bind_upd; [done|by split|intros Hh2]. by apply (try_finalize_any _ _ p).
Qed.

Lemma genesis_propose_kept fuel (s : VertexState P) V K :
  clock 0 (vbook s) → votes_inv (vbook s) V → proposals_inv (vbook s) K →
  wp (genesis_propose fuel cfg ctx) (said (vbook s) V K) s.
Proof.
  intros Hck HV HK. unfold genesis_propose. apply said_bind_gets.
  destruct (started (vbook s)) eqn:Hst; [by apply wp_ret, said_quiet|].
  apply wp_bind, wp_modify. destruct (pi_fresh _ _ HK Hst) as [-> Hr].
  set (s1 := s <| vbook ::= _ |>).
  assert (Hh : history (vbook s1) V [] (vbook s1)).
  { destruct HV, HK. by split; split. }
  assert (Hst1 : started (vbook s1) = true) by done.
  assert (Hck1 : clock 0 (vbook s1)) by exact Hck.
  assert (Hp : wp (propose_round fuel cfg ctx 0 []) (said (vbook s1) V []) s1).
  { apply (history_kept_all fuel s1 _ V [] Hck1 Hh Hst1).
    - change (current_round (vbook s) ≤ 0). lia.
    - intros k Hk. assert (Hb : (vbook s1) <| current_round := 0 |> = vbook s1); [|by rewrite Hb].
      clear - Hr. subst s1. destruct s as [[] q]. cbn in *. by subst.
    - by intros q ?%elem_of_nil. }
  revert Hp. apply wp_mono. intros r s' ([Hl _ Hc] & Hrest). split; [|done].
  split; [exact Hl| |exact Hc]. by rewrite Hst.
Qed.

Lemma vertex_on_certified_vertex_kept fuel cv (s : VertexState P) V K :
  clock 1 (vbook s) → votes_inv (vbook s) V → proposals_inv (vbook s) K →
  wp (vertex_on_certified_vertex fuel cfg cv ctx) (VertexCert.said 1 (vbook s) V K) s.
Proof.
  intros Hck HV HK. pose proof (later_record_cert cv (vbook s)) as Hl.
  apply wp_bind, wp_modify.
  eapply wp_mono, maybe_advance_any; [|by apply Hl|by destruct HV|by destruct HK].
  intros r s' (Hl' & Hrest). split; [exact (later_trans 1 0 _ _ _ Hl Hl')|done].
Qed.

Lemma current_proposal_mine b p :
  current_proposal b = Some p → ∃ h, my_proposals b !! h = Some p.
Proof.
  unfold current_proposal. rewrite fmap_Some. intros ([i q] & Hf & ->).
  apply list_find_Some in Hf as (Hq%list_elem_of_lookup_2 & _).
  apply list_elem_of_fmap in Hq as ([h q'] & -> & ?%elem_of_map_to_list). by exists h.
Qed.

Lemma vertex_on_timer_fired_kept id (s : VertexState P) V K :
  votes_inv (vbook s) V → proposals_inv (vbook s) K →
  wp (vertex_on_timer_fired cfg ctx id) (said (vbook s) V K) s.
Proof.
  intros HV HK. pose proof (history_refl _ _ _ HV HK) as Hh.
  unfold vertex_on_timer_fired. apply said_bind_gets.
  case_bool_decide; [by apply wp_ret, said_quiet|].
  apply said_bind_upd; [done|by split|intros Hh1].
  apply said_bind_lift; [done|intros set _]. apply said_bind_lift; [done|intros need _].
  destruct (_ <=? _); [by apply wp_ret, said_quiet|].
  apply said_bind_lift; [done|intros n _]. cbv zeta.
  apply said_bind_upd; [done|by split|intros Hh2].
  apply (said_bind _ _ (λ _, True)); [done| |].
  { unfold zoom, wp. destruct (allocate _) as [[]]; cbn; by split. }
  intros tid s' _ Hh3 _. apply said_bind_upd; [done|by split|intros Hh4].
  apply wp_ret. destruct (current_proposal (vbook s)) as [p|] eqn:Hp; [|by apply said_quiet].
  apply (said_done _ _ _ K []); [done|done| |done|by rewrite app_nil_r].
  intros q Hq%list_elem_of_singleton. subst q.
  apply current_proposal_mine in Hp as [h Hp]. by eapply pi_mine.
Qed.
End honest.

(** ** Runs *)

(** The calls a host makes into the layer. *)
Inductive vertex_call :=
| VC_genesis
| VC_proposal (p : VertexProposal)
| VC_partial (bp : VertexPartial)
| VC_certified (cv : CertifiedVertex)
| VC_timer (id : TimerId).
Definition vertex_input : Type := vertex_call * HostContext.

(** A round is a [u64]. *)
Definition vertex_input_ok (i : vertex_input) : Prop :=
  match i.1 with VC_proposal p => u64_ok (v_round (vp_vertex p)) | _ => True end.

(** The quorums of the sets that the hosts of a run answer with; a build that checks overflow
    does not need them. *)
Definition wide_hosts `{Build} {A} (ins : list (A * HostContext)) : Prop :=
  overflow_checks = true ∨ Forall (λ i, wide_host i.2) ins.
Lemma wide_hosts_cons `{Build} {A} (i : A * HostContext) ins :
  wide_hosts (i :: ins) → (overflow_checks = true ∨ wide_host i.2) ∧ wide_hosts ins.
Proof. intros [?|[??]%Forall_cons]; split; solve [by left|by right]. Qed.

(** The round counter does not wrap around: overflow is checked, or the run has fewer than
    [2^64 - 1] calls, on hosts whose quorums are of at least two. *)
Definition no_wrap `{Build} {A} (ins : list (A * HostContext)) : Prop :=
  overflow_checks = true ∨ (length ins < 2 ^ 64 - 1 ∧ Forall (λ i, wide_host i.2) ins).
Lemma no_wrap_start `{Build} {A} (ins : list (A * HostContext)) id :
  no_wrap ins → wide_hosts ins ∧ clock (length ins) (VertexBook_new id).
Proof.
  intros [?|[Hl Hw]]; split; try by left. { by right. }
  right. unfold foreign_rounds. cbn. rewrite map_filter_empty, dom_empty_L, size_empty. lia.
Qed.
Lemma no_wrap_take `{Build} {A} n (ins : list (A * HostContext)) : no_wrap ins → no_wrap (take n ins).
Proof.
  intros [?|[Hl Hw]]; [by left|right]. split; [|by apply Forall_take]. rewrite length_take. lia.
Qed.

Section vertex_runs.
Context `{Build, Primitives, !Borsh SignableVertex, PendingBlobSource P}.
Context (fuel : nat) (cfg : Config).

Definition vertex_handle (i : vertex_input) : M Error (VertexState P) Actions :=
  let '(c, ctx) := i in
  match c with
  | VC_genesis => genesis_propose fuel cfg ctx
  | VC_proposal p => on_vertex_proposal cfg p ctx
  | VC_partial bp => on_vertex_partial fuel cfg bp ctx
  | VC_certified cv => vertex_on_certified_vertex fuel cfg cv ctx
  | VC_timer id => vertex_on_timer_fired cfg ctx id
  end.

(** The actions of a run; those of a call that fails are lost. *)
Fixpoint vertex_run (ins : list vertex_input) (s : VertexState P)
  : Actions * VertexState P :=
  match ins with
  | [] => ([], s)
  | i :: ins =>
      let '(r, s') := vertex_handle i s in
      let '(acts, s'') := vertex_run ins s' in
      (match r with Ok a => a ++ acts | _ => acts end, s'')
  end.

Lemma wp_vertex_handle i (s : VertexState P) V K :
  overflow_checks = true ∨ wide_host i.2 → clock 1 (vbook s) →
  votes_inv (vbook s) V → proposals_inv (vbook s) K → vertex_input_ok i →
  wp (vertex_handle i) (said 1 (vbook s) V K) s.
Proof.
  intros Hw Hck HV HK Hi. assert (Hck0 : clock 0 (vbook s)) by (eapply clock_mono, Hck; lia).
  assert (Hone : ∀ m : M Error (VertexState P) Actions,
    wp m (said 0 (vbook s) V K) s → wp m (said 1 (vbook s) V K) s).
  { intros m. apply wp_mono. intros r s'. apply said_later. lia. }
  destruct i as [[] ctx]; cbn [vertex_handle].
  - by apply Hone, genesis_propose_kept.
  - by apply Hone, on_vertex_proposal_kept.
  - by apply Hone, on_vertex_partial_kept.
  - by apply vertex_on_certified_vertex_kept.
  - by apply Hone, vertex_on_timer_fired_kept.
Qed.

Lemma vertex_run_said ins (s : VertexState P) V K :
  Forall vertex_input_ok ins → wide_hosts ins → clock (length ins) (vbook s) →
  votes_inv (vbook s) V → proposals_inv (vbook s) K →
  said (length ins) (vbook s) V K (Ok (vertex_run ins s).1) (vertex_run ins s).2.
Proof.
  intros Hok. revert s V K. induction Hok as [|i ins Hi _ IH]; intros s V K Hh Hck HV HK.
  { apply said_quiet; [by apply history_refl|done]. }
  apply wide_hosts_cons in Hh as [Hwi Hh]. cbn [length] in *.
  assert (Hck1 : clock 1 (vbook s)) by (eapply clock_mono, Hck; lia).
  cbn [vertex_run]. pose proof (wp_vertex_handle i s V K Hwi Hck1 HV HK Hi) as Hw. unfold wp in Hw.
  destruct (vertex_handle i s) as [r s1]. cbn [fst snd] in Hw.
  destruct Hw as (Hl & Hsp1 & HV1 & K1 & HK1 & HP1 & Hs1).
  destruct (IH s1 _ K1 Hh (lt_clock _ _ _ Hl _ Hck) HV1 HP1) as (Hl2 & Hrest).
  destruct (vertex_run ins s1) as [acts s2]. cbn [fst snd] in *.
  assert (Hall : said (1 + length ins) (vbook s)
    (V ++ votes_cast (match r with Ok a => a | _ => [] end)) K1
    (Ok acts) s2) by (split; [by eapply later_trans|done]).
  destruct r as [a| | |].
  - by eapply said_glue.
  - eapply said_weaken; [done|]. cbn in Hall. by rewrite app_nil_r in Hall.
  - eapply said_weaken; [done|]. cbn in Hall. by rewrite app_nil_r in Hall.
  - eapply said_weaken; [done|]. cbn in Hall. by rewrite app_nil_r in Hall.
Qed.

Lemma vertex_run_app ins1 ins2 (s : VertexState P) :
  vertex_run (ins1 ++ ins2) s =
  let '(acts1, s1) := vertex_run ins1 s in
  let '(acts2, s2) := vertex_run ins2 s1 in (acts1 ++ acts2, s2).
Proof.
  revert s. induction ins1 as [|i ins1 IH]; intros s; cbn [app vertex_run].
  { by destruct (vertex_run ins2 s). }
  destruct (vertex_handle i s) as [r s1]. rewrite IH.
  destruct (vertex_run ins1 s1) as [a1 s2]. destruct (vertex_run ins2 s2) as [a2 s3].
  destruct r; by rewrite ?app_assoc.
Qed.
End vertex_runs.

(** ** What the recursion guarantees when it returns *)

Section returns.
Context `{Build, Primitives, !Borsh SignableVertex, PendingBlobSource P}.
Context (cfg : Config) (ctx : HostContext) (set : ValidatorSet).
Context (Hset : active_set ctx = Ok set).

Abbreviation VM := (M Error (VertexState P)).

Definition certs_verify (acts : Actions) : Prop :=
  ∀ cv, BroadcastCertifiedVertex cv ∈ acts → verify_certified_vertex cv set = Ok tt.

(** Normal returns satisfy [Q]; nothing is said of the others. *)
Definition returns {A} (Q : A → VertexState P → Prop) : result A → VertexState P → Prop :=
  okp (λ _, True) Q.

Lemma returns_bind {A B} (m : VM A) (f : A → VM B) (Q : A → VertexState P → Prop) R s :
  wp m (returns Q) s → (∀ a s', Q a s' → wp (f a) (returns R) s') →
  wp (m ≫= f) (returns R) s.
Proof.
  intros Hm Hf. apply wp_bind. eapply wp_mono; [|exact Hm]. intros [] s'; cbn; auto.
Qed.

Lemma returns_lift {A B} (m : result A) (f : A → VM B) R s :
  (∀ a, m = Ok a → wp (f a) (returns R) s) → wp (lift m ≫= f) (returns R) s.
Proof. intros Hf. apply wp_bind, wp_lift. destruct m; cbn; auto. Qed.

Lemma returns_any {A} (m : VM A) s : wp m (returns (λ _ _, True)) s.
Proof. unfold wp. by destruct (m s) as [[] ?]. Qed.

Lemma build_own_cert_verifies vertex sigs cv :
  build_own_cert set vertex sigs = Ok cv → verify_certified_vertex cv set = Ok tt.
Proof.
  unfold build_own_cert. intros (cv' & _ & ([] & Hv%map_err_Ok & [= <-])%outcome_bind_Ok)%outcome_bind_Ok.
  done.
Qed.

Definition sound_return (acts : Actions) (s : VertexState P) : Prop :=
  certs_verify acts ∧ 0 ≤ current_round (vbook s).

Lemma sound_nil s : 0 ≤ current_round (vbook s) → sound_return [] s.
Proof. split; [|done]. by intros cv ?%elem_of_nil. Qed.

Lemma returns_rearm (s : VertexState P) :
  wp (rearm_timer cfg)
    (returns (λ acts s', certs_verify acts ∧
                         current_round (vbook s') = current_round (vbook s))) s.
Proof.
  unfold rearm_timer, upd. do 4 wp_step. unfold zoom.
  destruct (allocate (vb_timers (vbook s))) as [[id| | |] t]; cbn [fst snd]; [|done..].
  do 3 wp_step. split; [|done]. intros cv.
  destruct (round_timer (vbook s)); cbn; rewrite !elem_of_cons, elem_of_nil; naive_solver.
Qed.

Definition sound_calls (fuel : nat) : Prop :=
  ∀ s : VertexState P, 0 ≤ current_round (vbook s) →
    (∀ hash, wp (try_finalize fuel cfg ctx hash) (returns sound_return) s) ∧
    (∀ round parents, 0 ≤ round →
       wp (propose_round fuel cfg ctx round parents) (returns sound_return) s) ∧
    wp (maybe_advance fuel cfg ctx) (returns sound_return) s ∧
    (∀ need, wp (advance_loop fuel cfg ctx need) (returns sound_return) s).

Lemma sound_try_finalize fuel s hash : sound_calls fuel → 0 ≤ current_round (vbook s) →
  wp (try_finalize (S fuel) cfg ctx hash) (returns sound_return) s.
Proof.
  intros IH Hr. cbn [try_finalize]. do 2 wp_step.
  case_bool_decide; [by apply wp_ret, sound_nil|].
  destruct (my_proposals _ !! hash) as [p|]; [|by apply wp_ret, sound_nil].
  apply returns_lift. rewrite Hset. intros _ [= <-]. apply returns_lift. intros need _.
  destruct (collecting _ !! hash) as [sigs|]; [|by apply wp_ret, sound_nil].
  destruct (_ <? _); [by apply wp_ret, sound_nil|].
  apply returns_lift. intros cv Hcv%build_own_cert_verifies.
  apply wp_bind, wp_modify, wp_bind, wp_modify. eapply returns_bind; [by apply IH|].
  intros acts s1 [Ha Hr1]. apply wp_ret. split; [|done].
  intros cv' [[= ->]|?]%elem_of_cons; [done|by apply Ha].
Qed.

Lemma sound_propose_round fuel s round parents : sound_calls fuel → 0 ≤ round →
  wp (propose_round (S fuel) cfg ctx round parents) (returns sound_return) s.
Proof.
  intros IH Hr. cbn [propose_round].
  apply (returns_bind _ _ (λ p s', current_round (vbook s') = round)).
  { eapply wp_mono; [|apply wp_make_proposal].
    intros [p| | |] s1; [|done..]. intros (Hp & _ & sig & Heq). cbn. by rewrite Heq. }
  intros p s1 Hs1. eapply returns_bind; [apply returns_rearm|].
  intros tacts s2 [Ht Hs2]. eapply returns_bind.
  { apply IH. cbn in Hs1. lia. }
  intros acts s3 [Ha Hr3]. apply wp_ret. split; [|done].
  intros cv. rewrite !elem_of_app, list_elem_of_singleton.
  intros [?|[?|?]]; [by apply Ht|done|by apply Ha].
Qed.

Lemma sound_advance fuel s : sound_calls fuel → 0 ≤ current_round (vbook s) →
  wp (maybe_advance (S fuel) cfg ctx) (returns sound_return) s ∧
  ∀ need, wp (advance_loop (S fuel) cfg ctx need) (returns sound_return) s.
Proof.
  intros IH Hr. cbn [maybe_advance advance_loop]. split.
  - do 2 wp_step. destruct (started (vbook s)); [|by apply wp_ret, sound_nil]. cbn [negb].
    apply returns_lift. intros set' _. apply returns_lift. intros need _.
    eapply returns_bind; [by apply IH|]. intros acts s1 [??]. by apply wp_bind, wp_modify, wp_ret.
  - intros need. do 2 wp_step.
    destruct (certified_by_round _ !! _) as [certs|]; [|by apply wp_ret, sound_nil].
    destruct (_ <? _); [by apply wp_ret, sound_nil|].
    apply returns_lift. intros next Hnext%add_w_range; [|lia].
    eapply returns_bind; [apply IH; [done|by apply Hnext]|].
    intros acts s1 [Ha Hr1]. eapply returns_bind; [by apply IH|].
    intros rest s2 [Hb Hr2]. apply wp_ret. split; [|done].
    intros cv [?|?]%elem_of_app; [by apply Ha|by apply Hb].
Qed.

Lemma sound_calls_all fuel : sound_calls fuel.
Proof.
  induction fuel as [|fuel IH]; intros s Hr; [by split_and!|].
  destruct (sound_advance fuel s IH Hr).
  split_and!; [intros; by apply sound_try_finalize|intros; by apply sound_propose_round|done..].
Qed.

(** The loop leaves the current round short of a quorum. *)
Lemma advance_loop_stops fuel need (s : VertexState P) :
  1 ≤ need →
  wp (advance_loop fuel cfg ctx need)
    (returns (λ _ s', certified_count_at (vbook s') (current_round (vbook s')) < need)) s.
Proof.
  intros Hneed. revert s. induction fuel as [|fuel IH]; intros s; [done|].
  cbn [advance_loop]. do 2 wp_step. unfold certified_count_at, certified_at.
  destruct (certified_by_round _ !! _) as [certs|] eqn:Hc.
  - destruct (Z.ltb_spec (size certs) need) as [Hlt|_]; [by apply wp_ret; cbn; rewrite Hc|].
    apply returns_lift. intros next _.
    apply (returns_bind _ _ (λ _ _, True)).
    { apply returns_any. }
    intros acts s1 _. eapply returns_bind; [apply IH|]. intros rest s2 Hs2.
    by apply wp_ret.
  - apply wp_ret. cbn. rewrite Hc. cbn. rewrite map_size_empty. lia.
Qed.

Lemma returns_and {A} (m : VM A) (Q R : A → VertexState P → Prop) s :
  wp m (returns Q) s → wp m (returns R) s → wp m (returns (λ a s', Q a s' ∧ R a s')) s.
Proof. unfold wp. by destruct (m s) as [[] ?]; cbn. Qed.

Lemma certified_at_prune b :
  0 ≤ current_round b → certified_at (prune b) (current_round b) = certified_at b (current_round b).
Proof.
  intros Hr. unfold certified_at.
  change (certified_by_round (prune b)) with (filter (λ kv : Z * gmap ValidatorId Hash32,
    saturating_sub (current_round b) 1 ≤ kv.1) (certified_by_round b)).
  destruct (certified_by_round b !! current_round b) as [m|] eqn:Hm.
  - rewrite (map_lookup_filter_Some_2 _ _ _ m); [done|done|].
    unfold saturating_sub. cbn. lia.
  - by rewrite map_lookup_filter_None_2 by by left.
Qed.

(** A started validator stops in a round that has no quorum yet. *)
Lemma maybe_advance_stops fuel need (s : VertexState P) :
  quorum_need set = Ok need → 1 ≤ need → 0 ≤ current_round (vbook s) →
  started (vbook s) = true →
  wp (maybe_advance fuel cfg ctx)
    (returns (λ _ s', certified_count_at (vbook s') (current_round (vbook s')) < need)) s.
Proof.
  intros Hneed Hn Hr Hst. destruct fuel as [|fuel]; [done|].
  cbn [maybe_advance]. do 2 wp_step. rewrite Hst. cbn [negb].
  apply returns_lift. rewrite Hset. intros _ [= <-].
  apply returns_lift. rewrite Hneed. intros _ [= <-].
  eapply returns_bind.
  { apply returns_and; [by apply advance_loop_stops|by apply sound_calls_all]. }
  intros acts s1 [Hs1 [_ Hr1]]. apply wp_bind, wp_modify, wp_ret. cbn [returns okp].
  unfold certified_count_at in *. change (current_round (vbook (s1 <| vbook ::= prune |>)))
    with (current_round (vbook s1)).
  change (vbook (s1 <| vbook ::= prune |>)) with (prune (vbook s1)).
  by rewrite certified_at_prune.
Qed.

Lemma quorum_need_pos need : quorum_need set = Ok need → 1 ≤ need.
Proof.
  unfold quorum_need. destruct (u32_try_from _) as [n|] eqn:Hn; [|done]. intros [= <-].
  apply u32_try_from_Some in Hn as [Hn ->]. unfold quorum_threshold, saturating_sub. dlia.
Qed.
End returns.

(** ** The layer says only what is its to say, in any state *)

Section speaks.
Context `{Build, Primitives, !Borsh SignableVertex, PendingBlobSource P}.
Context (cfg : Config) (ctx : HostContext).

Definition l1_only (acts : Actions) (_ : VertexState P) : Prop := speaks L1 acts = true.

Lemma l1_bind {A} (m : M Error (VertexState P) A) (f : A → M Error (VertexState P) Actions) s :
  (∀ a s', wp (f a) (returns l1_only) s') → wp (m ≫= f) (returns l1_only) s.
Proof. intros Hf. eapply returns_bind; [apply returns_any|]. intros a s' _. apply Hf. Qed.

Ltac l1_quiet :=
  repeat first [by apply wp_ret | apply l1_bind; intros ?? | case_match | done].

Lemma l1_rearm_timer (s : VertexState P) : wp (rearm_timer cfg) (returns l1_only) s.
Proof. unfold rearm_timer. repeat (apply l1_bind; intros ??). apply wp_ret. by destruct a. Qed.

Definition l1_calls (fuel : nat) : Prop := ∀ s : VertexState P,
  (∀ hash, wp (try_finalize fuel cfg ctx hash) (returns l1_only) s) ∧
  (∀ round parents, wp (propose_round fuel cfg ctx round parents) (returns l1_only) s) ∧
  wp (maybe_advance fuel cfg ctx) (returns l1_only) s ∧
  (∀ need, wp (advance_loop fuel cfg ctx need) (returns l1_only) s).

Lemma l1_calls_all fuel : l1_calls fuel.
Proof.
  induction fuel as [|fuel IH]; intros s; [by split_and!|]. split_and!.
  - intros hash. cbn [try_finalize]. apply l1_bind; intros book s1.
    case_match; [by apply wp_ret|]. case_match; [|by apply wp_ret].
    do 2 (apply l1_bind; intros ??). case_match; [|by apply wp_ret].
    case_match; [by apply wp_ret|]. do 3 (apply l1_bind; intros ??).
    eapply returns_bind; [apply IH|]. intros acts s2 Ha. by apply wp_ret.
  - intros round parents. cbn [propose_round]. apply l1_bind; intros p s1.
    eapply returns_bind; [apply l1_rearm_timer|]. intros t s2 Ht.
    eapply returns_bind; [apply IH|]. intros acts s3 Ha. apply wp_ret.
    apply speaks_app. split; [exact Ht|]. by apply speaks_app.
  - cbn [maybe_advance]. apply l1_bind; intros st s1. case_match; [by apply wp_ret|].
    do 2 (apply l1_bind; intros ??). eapply returns_bind; [apply IH|]. intros acts s2 Ha.
    apply l1_bind; intros ??. by apply wp_ret.
  - intros need. cbn [advance_loop]. apply l1_bind; intros book s1.
    case_match; [|by apply wp_ret]. case_match; [by apply wp_ret|]. apply l1_bind; intros next s2.
    eapply returns_bind; [apply IH|]. intros acts s3 Ha.
    eapply returns_bind; [apply IH|]. intros rest s4 Hr. apply wp_ret. by apply speaks_app.
Qed.

Lemma l1_vertex_handle fuel c (s : VertexState P) :
  wp (vertex_handle fuel cfg (c, ctx)) (returns l1_only) s.
Proof.
  destruct c as [|p|bp|cv|id]; cbn [vertex_handle].
  - unfold genesis_propose. apply l1_bind; intros st s1. case_match; [by apply wp_ret|].
    apply l1_bind; intros ??. apply l1_calls_all.
  - unfold on_vertex_proposal, check_parents_and_vote, cast_vertex_vote. l1_quiet.
  - unfold on_vertex_partial. l1_quiet. apply l1_calls_all.
  - unfold vertex_on_certified_vertex. apply l1_bind; intros ??. apply l1_calls_all.
  - unfold vertex_on_timer_fired. l1_quiet.
Qed.

(** The actions of a call, none when it fails *)
Lemma vertex_handle_speaks fuel c (s : VertexState P) :
  wp (vertex_handle fuel cfg (c, ctx))
    (λ r _, speaks L1 (match r with Ok acts => acts | _ => [] end) = true) s.
Proof. eapply wp_mono, l1_vertex_handle. by intros [] s'. Qed.
End speaks.

Section cert_answers.
Context `{Build, Primitives, !Borsh SignableVertex}.

Lemma collect_indices_answers bm l : collect_indices bm l ≠ NoFuel.
Proof. induction l; cbn [collect_indices]; unfold Bitmap.get; answers. Qed.

Lemma collect_sigs_answers set cs sigs bm : collect_sigs set cs sigs bm ≠ NoFuel.
Proof.
  revert sigs bm. induction cs; intros sigs bm; cbn [collect_sigs]; unfold Bitmap.set; answers.
Qed.

Lemma verify_aggregate_answers pks d msg agg : verify_aggregate pks d msg agg ≠ NoFuel.
Proof. unfold verify_aggregate. answers. Qed.

Lemma aggregate_sigs_answers sigs : aggregate_sigs sigs ≠ NoFuel.
Proof.
  unfold aggregate_sigs. destruct sigs; [done|]. apply bind_answers; [|intros ?; answers].
  apply omap_list_answers. intros. answers.
Qed.

Lemma pk_at_answers set idx : pk_at set idx ≠ NoFuel.
Proof. unfold pk_at, PublicKey_from_bytes. answers. Qed.

Lemma add_w_answers {E} w a b : add_w (E := E) w a b ≠ NoFuel.
Proof. unfold add_w, wrapping. answers. Qed.
#[local] Hint Resolve collect_indices_answers collect_sigs_answers verify_aggregate_answers
  aggregate_sigs_answers pk_at_answers : answers.

Lemma verify_certified_vertex_answers cv set : verify_certified_vertex cv set ≠ NoFuel.
Proof.
  unfold verify_certified_vertex, bitmap_indices, Bitmap.from_bytes. answers.
Qed.

Lemma build_own_cert_answers set v sigs : build_own_cert set v sigs ≠ NoFuel.
Proof.
  unfold build_own_cert, assemble_cert. cbv zeta.
  apply bind_answers; [answers|intros cv]. apply bind_answers; [|by intros].
  apply map_err_answers, verify_certified_vertex_answers.
Qed.

End cert_answers.

(** ** Termination

    Above the highest round [R] for which the book holds a certificate of
    another validator, a round has at most this node's own certificate, which
    is not a quorum when [need >= 2]: the recursion stops at round [R + 1]. *)

Section votes.
Context `{Build, Primitives, !Borsh SignableVertex, PendingBlobSource P}.
Context (ctx : HostContext).

Definition vote_key (v : Vertex) : Z * ValidatorId := (v_round v, v_author v).

Definition parents_in_order (set : ValidatorSet) (b : VertexBook) (v : Vertex) : Prop :=
  v_round v ≤ 0 ∧ v_parents v = [] ∨
  0 < v_round v ∧ ∃ need, quorum_need set = Ok need ∧ need ≤ length (v_parents v) ∧
    ∀ h, h ∈ v_parents v → ∃ m a,
      certified_by_round b !! (v_round v - 1) = Some m ∧ m !! a = Some h.

Definition vote_cast (b : VertexBook) (v : Vertex) (bp : VertexPartial) (b' : VertexBook)
  : Prop :=
  vote_key v ∉ voted b ∧ vote_key v ∈ voted b' ∧
  ∃ sig, sign_bls ctx dst.VERTEX_CERT (signing_bytes v) = Ok sig ∧
    bp = MkVertexPartial (v_hash v) (v_round v) (v_author v) (vb_self_id b) sig.

Lemma cast_vertex_vote_says p (s : VertexState P) :
  wp (cast_vertex_vote ctx p) (returns (λ acts s', ∀ bp, BroadcastVertexPartial bp ∈ acts →
    vote_cast (vbook s) (vp_vertex p) bp (vbook s'))) s.
Proof.
  unfold cast_vertex_vote. do 2 wp_step. cbv zeta.
  case_bool_decide as Hk; [by apply wp_ret; intros bp ?%elem_of_nil|].
  apply wp_bind, wp_modify, returns_lift. intros sig Hsig. apply wp_ret. cbn [returns okp].
  intros bp Hbp%list_elem_of_singleton. injection Hbp as ->.
  split; [done|]. split; [|by exists sig]. cbn. set_solver.
Qed.

Lemma parents_known_spec prev parents :
  parents_known prev parents = true → ∀ h, h ∈ parents → ∃ m a, prev = Some m ∧ m !! a = Some h.
Proof.
  unfold parents_known. intros Hp h Hh. apply list_elem_of_In in Hh.
  rewrite forallb_forall in Hp. specialize (Hp h Hh).
  destruct prev as [m|]; [|done]. apply bool_decide_eq_true in Hp.
  apply list_elem_of_fmap in Hp as ([a h'] & -> & Ha%elem_of_map_to_list). by exists m, a.
Qed.

Lemma check_parents_and_vote_says set p (s : VertexState P) :
  wp (check_parents_and_vote ctx set p)
    (returns (λ acts s', ∀ bp, BroadcastVertexPartial bp ∈ acts →
      parents_in_order set (vbook s) (vp_vertex p) ∧
      vote_cast (vbook s) (vp_vertex p) bp (vbook s'))) s.
Proof.
  unfold check_parents_and_vote. do 2 wp_step. cbv zeta.
  destruct (Z.ltb_spec 0 (v_round (vp_vertex p))).
  - apply returns_lift. intros need Hneed.
    destruct (_ || _) eqn:Hp; [by apply wp_ret; intros bp ?%elem_of_nil|].
    apply orb_false_iff in Hp as [Hlen Hk%negb_false_iff].
    eapply wp_mono; [|apply cast_vertex_vote_says]. intros [acts| | |] s' Hs; try done.
    intros bp Hbp. split; [|by apply Hs]. right. split; [done|]. exists need.
    split_and!; [done|lia|]. by apply parents_known_spec.
  - case_bool_decide as Hp; cbn [negb].
    + eapply wp_mono; [|apply cast_vertex_vote_says]. intros [acts| | |] s' Hs; try done.
      intros bp Hbp. split; [|by apply Hs]. left. split; [lia|done].
    + eapply returns_bind; [apply returns_any|]. intros _ s1 _.
      by apply wp_ret; intros bp ?%elem_of_nil.
Qed.

Lemma conflicting_proposal_false existing p :
  conflicting_proposal existing p = false →
  ∀ prev, prev ∈ existing → v_hash (vp_vertex prev) = v_hash (vp_vertex p).
Proof.
  unfold conflicting_proposal. intros Hc prev Hin. apply list_elem_of_In in Hin.
  apply dec_stable. intros Hne. apply not_true_iff_false in Hc. apply Hc.
  apply existsb_exists. exists prev. split; [done|]. by apply bool_decide_eq_true.
Qed.

Lemma reject_says_nothing (R : Actions → VertexState P → Prop) (s : VertexState P) :
  (∀ s', R [] s') → wp (_ ← vreject_crypto; mret []) (returns R) s.
Proof.
  intros HR. eapply returns_bind; [apply returns_any|]. intros _ s1 _. apply wp_ret, HR.
Qed.
End votes.

Section terminates.
Context `{Build, Primitives, !Borsh SignableVertex, PendingBlobSource P}.
Context (cfg : Config) (ctx : HostContext) (set : ValidatorSet) (need R : Z).
Context (Hset : active_set ctx = Ok set) (Hneed : quorum_need set = Ok need) (Hn : 2 ≤ need).
Context (Hsign : ∀ d msg, sign_bls ctx d msg ≠ NoFuel).
Context (HR : overflow_checks = true ∨ R < 2 ^ 64 - 1).

Abbreviation VM := (M Error (VertexState P)).

Record settled (b : VertexBook) : Prop := {
  st_own r m a : certified_by_round b !! r = Some m → R < r → is_Some (m !! a) →
    a = vb_self_id b;
  st_mine h p : my_proposals b !! h = Some p → v_author (vp_vertex p) = vb_self_id b;
  st_nonneg : 0 ≤ current_round b;
}.

(** The fuel [advance_loop] needs at round [r]. *)
Definition loop_fuel (r : Z) : nat := 4 * Z.to_nat (R + 1 - r) + 1.

(** No call runs out of fuel, and rounds only grow past [r]. *)
Definition ends (r : Z) (o : result Actions) (s : VertexState P) : Prop :=
  match o with
  | Ok _ => settled (vbook s) ∧ r ≤ current_round (vbook s)
  | NoFuel => False
  | _ => True
  end.

Lemma ends_bind_lift {A} (m : result A) (f : A → VM Actions) r s :
  m ≠ NoFuel → (∀ a, m = Ok a → wp (f a) (ends r) s) → wp (lift m ≫= f) (ends r) s.
Proof. intros Hm Hf. apply wp_bind, wp_lift. destruct m; cbn; auto. Qed.

Lemma ends_bind_call (m : VM Actions) (f : Actions → VM Actions) r r' s :
  wp m (ends r) s →
  (∀ acts s1, settled (vbook s1) → r ≤ current_round (vbook s1) → wp (f acts) (ends r') s1) →
  wp (m ≫= f) (ends r') s.
Proof.
  intros Hm Hf. apply wp_bind. eapply wp_mono; [|exact Hm].
  intros [acts| | |] s1; [intros [??]; by apply Hf|done..].
Qed.

Lemma few_own_certs b r m :
  settled b → certified_by_round b !! r = Some m → R < r → size m < need.
Proof.
  intros Hst Hm Hr. enough (size m ≤ 1)%nat by lia.
  assert (Hsub : dom m ⊆ {[vb_self_id b]}).
  { intros a [x Hx]%elem_of_dom. apply elem_of_singleton. by eapply st_own. }
  apply subseteq_size in Hsub. by rewrite size_dom, size_singleton in Hsub.
Qed.

Lemma settled_record_cert b cv :
  settled b → v_author (cv_vertex cv) = vb_self_id b → settled (record_cert cv b).
Proof.
  intros [S1 S2 S3] Ha. split; [|done..]. intros r m a Hm Hr Hin.
  change (vb_self_id (record_cert cv b)) with (vb_self_id b).
  rewrite record_cert_certs in Hm. apply lookup_insert_Some in Hm as [[<- <-]|[_ Hm]]; [|by eapply S1].
  rewrite Ha in Hin.
  destruct (decide (a = vb_self_id b)) as [->|Hne]; [done|].
  rewrite lookup_insert_ne in Hin by done. unfold certified_at in Hin.
  destruct (certified_by_round b !! _) as [m|] eqn:Hm; [by eapply S1|].
  cbn in Hin. rewrite lookup_empty in Hin. by destruct Hin.
Qed.

Lemma settled_prune b : settled b → settled (prune b).
Proof.
  intros [S1 S2 S3]. destruct b; cbn in *. split; cbn; [..|done].
  - intros r m a [Hm _]%map_lookup_filter_Some. by apply S1.
  - intros h p [Hp _]%map_lookup_filter_Some. by eapply S2.
Qed.

Lemma settled_record_proposal b p sig :
  settled b → v_author (vp_vertex p) = vb_self_id b → 0 ≤ v_round (vp_vertex p) →
  settled (record_proposal p sig b).
Proof.
  intros [S1 S2 S3] Ha Hr. destruct b; cbn in *. split; cbn; [done| |done].
  intros h q [[_ <-]|[_ Hq]]%lookup_insert_Some; [done|by eapply S2].
Qed.

Lemma settled_fields b b' :
  settled b → vb_self_id b' = vb_self_id b → my_proposals b' = my_proposals b →
  certified_by_round b' = certified_by_round b → current_round b' = current_round b → settled b'.
Proof. intros [S1 S2 S3] Hi Hm Hc Hr. split; rewrite ?Hi, ?Hm, ?Hc, ?Hr; done. Qed.


Lemma ends_make_proposal round parents (s : VertexState P) :
  settled (vbook s) → 0 ≤ round →
  wp (make_proposal ctx round parents) (λ o s', match o with
    | Ok _ => settled (vbook s') ∧ current_round (vbook s') = round
    | NoFuel => False
    | _ => True
    end) s.
Proof.
  intros Hst Hpos. unfold make_proposal, upd. do 2 wp_step.
  destruct (pb_drain (vpending s)) as [blobs queue]. do 6 wp_step.
  pose proof (Hsign dst.VERTEX_PROPOSAL) as Hs1. specialize (Hs1 (signing_bytes
    (seal_hash (MkVertex round (vb_self_id (vbook s)) parents blobs Hash32_zero)))).
  destruct (sign_bls ctx dst.VERTEX_PROPOSAL _) as [psig| | |]; [|done..]. clear Hs1.
  do 2 wp_step.
  pose proof (Hsign dst.VERTEX_CERT) as Hs1. specialize (Hs1 (signing_bytes
    (seal_hash (MkVertex round (vb_self_id (vbook s)) parents blobs Hash32_zero)))).
  destruct (sign_bls ctx dst.VERTEX_CERT _) as [ssig| | |]; [|done..].
  do 5 wp_step. split; [|done]. by apply settled_record_proposal.
Qed.

Lemma allocate_answers t : (allocate t).1 ≠ NoFuel.
Proof.
  pose proof (add_w_answers (E := Error) 64 (ts_next t) 1) as Ha.
  unfold allocate, mbind, M_bind, gets, lift. by destruct (add_w _ _ _).
Qed.

Lemma ends_rearm (s : VertexState P) :
  settled (vbook s) → wp (rearm_timer cfg) (ends (current_round (vbook s))) s.
Proof.
  intros Hst. unfold rearm_timer, upd. do 4 wp_step. unfold zoom.
  pose proof (allocate_answers (vb_timers (vbook s))) as Ha.
  destruct (allocate (vb_timers (vbook s))) as [[id| | |] t]; cbn [fst snd] in *; [|done..].
  do 3 wp_step. split; [|done]. by apply (settled_fields (vbook s)).
Qed.

Definition calls_end (fuel : nat) : Prop :=
  ∀ s : VertexState P, settled (vbook s) →
    let r := current_round (vbook s) in
    (∀ hash, (loop_fuel r + 2 ≤ fuel)%nat → wp (try_finalize fuel cfg ctx hash) (ends r) s) ∧
    (∀ round parents, 0 ≤ round → (loop_fuel round + 3 ≤ fuel)%nat →
       wp (propose_round fuel cfg ctx round parents) (ends round) s) ∧
    ((loop_fuel r + 1 ≤ fuel)%nat → wp (maybe_advance fuel cfg ctx) (ends r) s) ∧
    ((loop_fuel r ≤ fuel)%nat → wp (advance_loop fuel cfg ctx need) (ends r) s).

Lemma loop_fuel_anti r r' : r ≤ r' → (loop_fuel r' ≤ loop_fuel r)%nat.
Proof. unfold loop_fuel. lia. Qed.

Lemma quorum_need_answers : quorum_need set ≠ NoFuel.
Proof. by rewrite Hneed. Qed.

Lemma ends_try_finalize fuel (s : VertexState P) hash :
  calls_end fuel → settled (vbook s) →
  (loop_fuel (current_round (vbook s)) + 2 ≤ S fuel)%nat →
  wp (try_finalize (S fuel) cfg ctx hash) (ends (current_round (vbook s))) s.
Proof.
  intros IH Hst Hf. cbn [try_finalize]. do 2 wp_step.
  case_bool_decide; [by apply wp_ret|].
  destruct (my_proposals _ !! hash) as [p|] eqn:Hp; [|by apply wp_ret].
  rewrite Hset. apply ends_bind_lift; [done|intros _ [= <-]].
  rewrite Hneed. apply ends_bind_lift; [done|intros _ [= <-]].
  destruct (collecting _ !! hash) as [sigs|]; [|by apply wp_ret].
  destruct (_ <? _); [by apply wp_ret|].
  apply ends_bind_lift; [apply build_own_cert_answers|].
  intros cv Hcv%build_own_cert_vertex. apply wp_bind, wp_modify, wp_bind, wp_modify.
  set (s2 := _ <| vbook ::= record_cert cv |>).
  assert (Hst2 : settled (vbook s2)).
  { subst s2. apply settled_record_cert.
    - by apply (settled_fields (vbook s)).
    - rewrite Hcv. exact (st_mine _ Hst _ _ Hp). }
  apply (ends_bind_call _ _ (current_round (vbook s))); [|intros; by apply wp_ret].
  change (current_round (vbook s)) with (current_round (vbook s2)).
  apply IH; [done|]. change (current_round (vbook s2)) with (current_round (vbook s)). lia.
Qed.

Lemma ends_propose_round fuel (s : VertexState P) round parents :
  calls_end fuel → settled (vbook s) → 0 ≤ round → (loop_fuel round + 3 ≤ S fuel)%nat →
  wp (propose_round (S fuel) cfg ctx round parents) (ends round) s.
Proof.
  intros IH Hst Hpos Hf. cbn [propose_round]. apply wp_bind.
  eapply wp_mono; [|by apply ends_make_proposal].
  intros [p| | |] s1; [|done..]. intros [Hst1 <-].
  eapply ends_bind_call; [by apply ends_rearm|]. intros tacts s2 Hst2 Hr2.
  pose proof (loop_fuel_anti _ _ Hr2).
  eapply ends_bind_call; [apply (proj1 (IH s2 Hst2)); lia|]. intros acts s3 Hst3 Hr3.
  apply wp_ret. split; [done|lia].
Qed.

Lemma ends_maybe_advance fuel (s : VertexState P) :
  calls_end fuel → settled (vbook s) →
  (loop_fuel (current_round (vbook s)) + 1 ≤ S fuel)%nat →
  wp (maybe_advance (S fuel) cfg ctx) (ends (current_round (vbook s))) s.
Proof.
  intros IH Hst Hf. cbn [maybe_advance]. do 2 wp_step.
  destruct (started (vbook s)); [|by apply wp_ret]. cbn [negb].
  rewrite Hset. apply ends_bind_lift; [done|intros _ [= <-]].
  rewrite Hneed. apply ends_bind_lift; [done|intros _ [= <-]].
  eapply ends_bind_call; [apply (IH s Hst); lia|]. intros acts s1 Hst1 Hr1.
  apply wp_bind, wp_modify, wp_ret. split; [by apply settled_prune|done].
Qed.

Lemma round_next r next :
  0 ≤ r → r ≤ R → add_w (E := Error) 64 r 1 = Ok next → next = r + 1.
Proof.
  intros Hr0 HrR Hadd. destruct HR as [?|?]; [by apply add_w_checked in Hadd as [-> _]|].
  rewrite add_w_ok in Hadd by (unfold uint_ok; lia). by injection Hadd as <-.
Qed.

Lemma ends_advance_loop fuel (s : VertexState P) :
  calls_end fuel → settled (vbook s) →
  (loop_fuel (current_round (vbook s)) ≤ S fuel)%nat →
  wp (advance_loop (S fuel) cfg ctx need) (ends (current_round (vbook s))) s.
Proof.
  intros IH Hst Hf. cbn [advance_loop]. do 2 wp_step.
  destruct (certified_by_round _ !! _) as [certs|] eqn:Hc; [|by apply wp_ret].
  destruct (Z.ltb_spec (size certs) need); [by apply wp_ret|].
  assert (Hr : current_round (vbook s) ≤ R).
  { destruct (Z.lt_ge_cases R (current_round (vbook s))); [|done].
    pose proof (few_own_certs _ _ _ Hst Hc). lia. }
  apply ends_bind_lift; [apply add_w_answers|]. intros next Hnext.
  pose proof (st_nonneg _ Hst). apply round_next in Hnext as ->; [|done..].
  unfold loop_fuel in Hf.
  apply (ends_bind_call _ _ (current_round (vbook s) + 1)).
  { apply IH; [done|lia|]. unfold loop_fuel. lia. }
  intros acts s1 Hst1 Hr1.
  apply (ends_bind_call _ _ (current_round (vbook s1))).
  { apply IH; [done|]. unfold loop_fuel. lia. }
  intros rest s2 Hst2 Hr2. apply wp_ret. split; [done|lia].
Qed.

Lemma calls_end_all fuel : calls_end fuel.
Proof.
  induction fuel as [|fuel IH]; intros s Hst r.
  - split_and!; intros; unfold loop_fuel in *; lia.
  - split_and!; intros.
    + by apply ends_try_finalize.
    + by apply ends_propose_round.
    + by apply ends_maybe_advance.
    + by apply ends_advance_loop.
Qed.
End terminates.

(** ** Endorsements

    A node of the network, from its start: its configuration, its fuel, its
    host's queue of blobs and the calls made into it. *)

Section endorse.
Context `{Build, Primitives, !Borsh SignableVertex, PendingBlobSource P}.

Record Node := MkNode {
  nd_cfg : Config; nd_fuel : nat; nd_queue : P; nd_calls : list vertex_input;
}.

Definition node_after (id : ValidatorId) (nd : Node) (n : nat) : Actions * VertexState P :=
  vertex_run (nd_fuel nd) (nd_cfg nd) (take n (nd_calls nd))
    (MkVertexState (VertexBook_new id) (nd_queue nd)).
Definition node_actions (id : ValidatorId) (nd : Node) : Actions :=
  (vertex_run (nd_fuel nd) (nd_cfg nd) (nd_calls nd)
    (MkVertexState (VertexBook_new id) (nd_queue nd))).1.

(** A proposal the node broadcasts, or holds between two calls. *)
Definition proposes (id : ValidatorId) (nd : Node) (p : VertexProposal) : Prop :=
  p ∈ proposals_sent (node_actions id nd) ∨
  ∃ n h, my_proposals (vbook (node_after id nd n).2) !! h = Some p.

(** The node's signature on [v] is out: it voted for it, or proposed it. *)
Definition endorses (id : ValidatorId) (nd : Node) (v : Vertex) : Prop :=
  (∃ bp, BroadcastVertexPartial bp ∈ node_actions id nd ∧
     vpt_vertex_hash bp = v_hash v ∧ vpt_round bp = v_round v ∧ vpt_author bp = v_author v) ∨
  (∃ p, proposes id nd p ∧ vp_vertex p = v).

Lemma vertex_run_remembers fuel cfg ins (s : VertexState P) V K :
  Forall vertex_input_ok ins → wide_hosts ins → clock (length ins) (vbook s) → votes_inv (vbook s) V → proposals_inv (vbook s) K →
  ∃ K', K ⊆ K' ∧ proposals_inv (vbook (vertex_run fuel cfg ins s).2) K' ∧
    (∀ p, p ∈ proposals_sent (vertex_run fuel cfg ins s).1 → p ∈ K') ∧
    (∀ n h p, my_proposals (vbook (vertex_run fuel cfg (take n ins) s).2) !! h = Some p →
       p ∈ K').
Proof.
  intros Hok. revert s V K. induction Hok as [|i ins Hi _ IH]; intros s V K Hh Hck HV HK.
  { exists K. split_and!; [done|done|by intros ? ?%elem_of_nil|].
    intros [|n] h p Hp; by eapply pi_mine. }
  apply wide_hosts_cons in Hh as [Hwi Hh]. cbn [length] in Hck.
  assert (Hck1 : clock 1 (vbook s)) by (eapply clock_mono, Hck; lia).
  pose proof (wp_vertex_handle fuel cfg i s V K Hwi Hck1 HV HK Hi) as Hw. unfold wp in Hw.
  cbn [vertex_run]. destruct (vertex_handle fuel cfg i s) as [r s1] eqn:Hr. cbn [fst snd] in Hw.
  destruct Hw as (Hl & Hsp1 & HV1 & K1 & HK1 & HP1 & Hs1).
  destruct (IH s1 _ K1 Hh (lt_clock _ _ _ Hl _ Hck) HV1 HP1) as (K2 & HK2 & HP2 & Hs2 & Hm2).
  destruct (vertex_run fuel cfg ins s1) as [acts s2]. cbn [fst snd] in *.
  exists K2. split_and!; [set_solver|done| |].
  - intros p. destruct r; [rewrite proposals_sent_app, elem_of_app|..]; set_solver.
  - intros [|n] h p Hp; [apply HK2, HK1; by eapply pi_mine|].
    apply (Hm2 n h). cbn [take vertex_run] in Hp. rewrite Hr in Hp.
    by destruct (vertex_run fuel cfg (take n ins) s1).
Qed.

Lemma new_votes_inv id : votes_inv (VertexBook_new id) [].
Proof. split; [apply NoDup_nil_2|by intros ? ?%elem_of_nil..]. Qed.
Lemma new_proposals_inv id : proposals_inv (VertexBook_new id) [].
Proof. split; [done|by intros ? ?%elem_of_nil..|by intros p q ?%elem_of_nil|done|done]. Qed.

Lemma node_votes id nd : Forall vertex_input_ok (nd_calls nd) → no_wrap (nd_calls nd) →
  NoDup (votes_cast (node_actions id nd)) ∧ ∀ k, k ∈ votes_cast (node_actions id nd) → k.2 ≠ id.
Proof.
  intros Hok Hnw. destruct (no_wrap_start _ id Hnw) as [Hh Hck].
  destruct (vertex_run_said (nd_fuel nd) (nd_cfg nd) (nd_calls nd)
    (MkVertexState (VertexBook_new id) (nd_queue nd)) [] [] Hok Hh Hck (new_votes_inv id)
    (new_proposals_inv id)) as ([Hid _] & _ & [Hnd Ho _] & _).
  split; [done|]. intros k Hk. change id with (vb_self_id (VertexBook_new id)) at 1.
  cbn in Hid |- *. rewrite <- Hid. by apply Ho.
Qed.

Lemma node_proposals id nd : Forall vertex_input_ok (nd_calls nd) → no_wrap (nd_calls nd) →
  (∀ p q, proposes id nd p → proposes id nd q →
     v_round (vp_vertex p) = v_round (vp_vertex q) → p = q) ∧
  (∀ p, proposes id nd p → v_author (vp_vertex p) = id).
Proof.
  intros Hok Hnw. set (s0 := MkVertexState (VertexBook_new id) (nd_queue nd)).
  destruct (no_wrap_start _ id Hnw) as [Hh Hck].
  destruct (vertex_run_remembers (nd_fuel nd) (nd_cfg nd) (nd_calls nd) s0 [] [] Hok Hh Hck
    (new_votes_inv id) (new_proposals_inv id)) as (K & _ & HK & Hs & Hm).
  destruct (vertex_run_said (nd_fuel nd) (nd_cfg nd) (nd_calls nd) s0 [] [] Hok Hh Hck
    (new_votes_inv id) (new_proposals_inv id)) as ([Hid _] & _).
  assert (Hin : ∀ p, proposes id nd p → p ∈ K).
  { intros p [Hp|(n & h & Hp)]; [by apply Hs|by eapply Hm]. }
  split; [intros p q ?%Hin ?%Hin; by apply HK|].
  intros p ?%Hin. rewrite (pi_author _ _ HK) by done. exact Hid.
Qed.

Lemma votes_cast_once acts a1 a2 k :
  NoDup (votes_cast acts) → a1 ∈ acts → a2 ∈ acts →
  vote_of a1 = Some k → vote_of a2 = Some k → a1 = a2.
Proof.
  unfold votes_cast. induction acts as [|a acts IH]; [by intros _ ?%elem_of_nil|].
  cbn [omap list_omap]. intros Hnd Hi1%elem_of_cons Hi2%elem_of_cons Hk1 Hk2.
  assert (Hin : ∀ a', a' ∈ acts → vote_of a' = Some k → k ∈ omap vote_of acts).
  { intros a' ??. apply list_elem_of_omap. eauto. }
  destruct Hi1 as [<-|Hi1], Hi2 as [<-|Hi2]; [done| | |].
  - rewrite Hk1 in Hnd. apply NoDup_cons in Hnd as [Hn _]. by destruct Hn; eapply Hin.
  - rewrite Hk2 in Hnd. apply NoDup_cons in Hnd as [Hn _]. by destruct Hn; eapply Hin.
  - apply IH; [|done..]. destruct (vote_of a); [by apply NoDup_cons in Hnd as [_ ?]|done].
Qed.

(** A node endorses at most one vertex of an author in a round. *)
Lemma endorses_unique id nd v w :
  Forall vertex_input_ok (nd_calls nd) → no_wrap (nd_calls nd) →
  endorses id nd v → endorses id nd w → v_round v = v_round w → v_author v = v_author w →
  v_hash v = v_hash w.
Proof.
  intros Hok Hnw Hv Hw Hr Ha.
  destruct (node_votes id nd Hok Hnw) as [Hnd Hother].
  destruct (node_proposals id nd Hok Hnw) as [Hu Hself].
  assert (Hclash : ∀ bp p, BroadcastVertexPartial bp ∈ node_actions id nd → proposes id nd p →
    vpt_author bp ≠ v_author (vp_vertex p)).
  { intros bp p Hbp Hp. rewrite (Hself p Hp). apply (Hother (vpt_round bp, vpt_author bp)).
    apply list_elem_of_omap. by eexists. }
  destruct Hv as [(bp & Hbp & Hbh & Hbr & Hba)|(p & Hp & <-)],
    Hw as [(bq & Hbq & Hqh & Hqr & Hqa)|(q & Hq & <-)].
  - assert (BroadcastVertexPartial bp = BroadcastVertexPartial bq) as [= <-].
    { apply (votes_cast_once (node_actions id nd) _ _ (v_round v, v_author v)); [done..| |];
        cbn; congruence. }
    congruence.
  - by destruct (Hclash bp q Hbp Hq); congruence.
  - by destruct (Hclash bq p Hbq Hp); congruence.
  - by rewrite (Hu p q Hp Hq Hr).
Qed.

(** What BLS unforgeability gives for a certificate: the signature of an
    honest position is in a valid aggregate only if that node made it. *)
Definition unforgeable (set : ValidatorSet) (faulty : list nat) (nodes : nat → Node)
    (cv : CertifiedVertex) : Prop :=
  verify_certified_vertex cv set = Ok tt →
  ∀ i, i ∈ signers cv set → i ∉ faulty →
    ∃ e, vs_entries set !! i = Some e ∧ endorses (ve_id e) (nodes i) (cv_vertex cv).
End endorse.
Arguments Node : clear implicits.

(** ** A concrete network

    Node [0] of four proposes at genesis; the others vote for it. *)

Definition toy_signer (i : nat) (dst msg : bytes) : result BlsSig :=
  Ok (sign (toy_key i) dst msg).
Definition toy_vctx (n i : nat) : HostContext :=
  MkHostContext (λ _, Ok None) (λ _, Ok []) (λ _, Ok (Some (toy_set n))) (Ok Hash32_zero)
    (toy_signer i) (λ _, Ok (MkVrfProof [], Hash32_zero)).

Definition checked : Build := true.
(** The profile the binaries ship with *)
Definition release : Build := false.

Definition toy_node (calls : list vertex_call) (i : nat) : Node unit :=
  MkNode default_table_17_1 20 tt ((λ c, (c, toy_vctx 4 i)) <$> calls).

Definition toy_genesis : VertexProposal :=
  let v := toy_vertex 0 0 [] in MkVertexProposal v (sign (toy_key 0) dst.VERTEX_PROPOSAL (signing_bytes v)).

Definition toy_network (i : nat) : Node unit :=
  match i with
  | O => toy_node [VC_genesis] O
  | _ => toy_node [VC_proposal toy_genesis] i
  end.

Definition toy_own_qc : CertifiedVertex := toy_qc 4 (vp_vertex toy_genesis) [0; 1; 2]%nat.
Definition toy_other_qc : CertifiedVertex := toy_qc 4 (vp_vertex toy_genesis) [1; 2; 3]%nat.

Lemma toy_network_ok i : Forall vertex_input_ok (nd_calls (toy_network i)).
Proof.
  destruct i; apply Forall_singleton; [exact I|]. unfold uint_ok. vm_compute. by split.
Qed.

Example toy_network_genesis :
  proposals_sent (node_actions (H := checked) (toy_id 0) (toy_network 0)) = [toy_genesis].
Proof. by vm_compute. Qed.

Example toy_network_votes :
  votes_cast (node_actions (H := checked) (toy_id 2) (toy_network 2)) = [(0, toy_id 0)].
Proof. by vm_compute. Qed.

(** A single validator is a quorum by itself, and its own certificate advances
    it to the next round: [genesis_propose] never returns. *)
Example genesis_alone_recurses :
  (genesis_propose (H := checked) 16 default_table_17_1 (toy_vctx 1 0)
    (MkVertexState (VertexBook_new (toy_id 0)) tt)).1 = NoFuel.
Proof. by vm_compute. Qed.

(** The parents of a proposal are counted with repetitions. *)
Definition toy_repeated : VertexProposal :=
  let v := toy_vertex 1 1 (replicate 3 (v_hash (vp_vertex toy_genesis))) in
  MkVertexProposal v (sign (toy_key 1) dst.VERTEX_PROPOSAL (signing_bytes v)).
Example repeated_parent_gets_vote :
  votes_cast (node_actions (H := checked) (toy_id 2)
    (toy_node [VC_certified toy_own_qc; VC_proposal toy_repeated] 2)) = [(1, toy_id 1)].
Proof. by vm_compute. Qed.

Lemma toy_wide i : wide_host (toy_vctx 4 i).
Proof. intros set need [= <-] [= <-]. done. Qed.
Lemma toy_network_no_wrap (b : Build) i : no_wrap (H := b) (nd_calls (toy_network i)).
Proof.
  right. destruct i; (split; [done|]); apply Forall_singleton; apply toy_wide.
Qed.
(** In the toy network every validator endorses the genesis vertex of the first. *)
Lemma toy_unforgeable (b : Build) cv :
  cv_vertex cv = vp_vertex toy_genesis →
  unforgeable (H := b) (toy_set 4) [] toy_network cv.
Proof.
  intros Hcv _ i [_ Hi]%elem_of_set_bits _. rewrite Hcv. clear Hcv cv.
  destruct b, i as [|[|[|[|i]]]]; try (vm_compute in Hi; lia);
    (eexists; split; [vm_compute; reflexivity|]).
  1,5: right; exists toy_genesis; split; [left; vm_compute; by left|reflexivity].
  all: left; eexists; split; [vm_compute; by left|]; by vm_compute.
Qed.

(** ** Properties *)

(** A validator votes for at most one vertex of an author in a round, over
    any sequence of calls, whatever fails in between and whatever pruning
    forgets, and never for a vertex of its own; and it has at most one own
    proposal per round, broadcast or held, as long as no counter wraps around ([no_wrap]) and
    incoming rounds are [u64]s. *)
Theorem vote_and_propose_once `{Build, Primitives, !Borsh SignableVertex, PendingBlobSource P}
    id (nd : Node P) :
  Forall vertex_input_ok (nd_calls nd) → no_wrap (nd_calls nd) →
  NoDup (votes_cast (node_actions id nd)) ∧
  (∀ k, k ∈ votes_cast (node_actions id nd) → k.2 ≠ id) ∧
  (∀ p q, proposes id nd p → proposes id nd q →
     v_round (vp_vertex p) = v_round (vp_vertex q) → p = q).
Proof.
  intros Hok Hnw. destruct (node_votes id nd Hok Hnw). split_and!; [done..|].
  by apply node_proposals.
Qed.

Lemma vote_and_propose_once_witness :
  NoDup (votes_cast (node_actions (H := checked) (toy_id 2) (toy_network 2))) ∧
  (∀ k, k ∈ votes_cast (node_actions (H := checked) (toy_id 2) (toy_network 2)) →
        k.2 ≠ toy_id 2) ∧
  (∀ p q, proposes (H := checked) (toy_id 2) (toy_network 2) p →
     proposes (H := checked) (toy_id 2) (toy_network 2) q →
     v_round (vp_vertex p) = v_round (vp_vertex q) → p = q).
Proof.
  apply (vote_and_propose_once (H := checked)); [apply toy_network_ok|by left].
Defined.

(** The argument of [certified_vertex_unique], for its other use. *)
Lemma same_slot_same_hash `{Build, Primitives, !Borsh SignableVertex, PendingBlobSource P}
    set (f : nat) (faulty : list nat) (nodes : nat → Node P) cv1 cv2 :
  length (vs_entries set) = (3 * f + 1)%nat → (length faulty ≤ f)%nat →
  (∀ i, i ∉ faulty → Forall vertex_input_ok (nd_calls (nodes i)) ∧ no_wrap (nd_calls (nodes i))) →
  unforgeable set faulty nodes cv1 → unforgeable set faulty nodes cv2 →
  verify_certified_vertex cv1 set = Ok tt → verify_certified_vertex cv2 set = Ok tt →
  v_round (cv_vertex cv1) = v_round (cv_vertex cv2) →
  v_author (cv_vertex cv1) = v_author (cv_vertex cv2) →
  v_hash (cv_vertex cv1) = v_hash (cv_vertex cv2).
Proof.
  intros Hn Hf Hok Hu1 Hu2 Hv1 Hv2 Hr Ha.
  destruct (common_signers set cv1 cv2) as (l & Hnd & Hlen & Hin);
    [by apply verify_certified_vertex_Ok..|].
  assert (Hl : (f + 1 ≤ length l)%nat).
  { rewrite Hn in Hlen. unfold quorum_threshold, saturating_sub in Hlen. cbv zeta in Hlen. dlia. }
  destruct (list_pigeonhole_out l faulty Hnd ltac:(lia)) as (i & Hi & Hgood).
  apply Hin in Hi as [Hi1 Hi2].
  destruct (Hu1 Hv1 i Hi1 Hgood) as (e1 & He1 & Hend1).
  destruct (Hu2 Hv2 i Hi2 Hgood) as (e2 & He2 & Hend2).
  rewrite He1 in He2. injection He2 as <-.
  by eapply (endorses_unique _ (nodes i)); [apply Hok..| | | |].
Qed.

(** [C1] No equivocation at L1: among [3f + 1] validators of which at most [f]
    are faulty, two certificates that verify for the same round and the same
    author are for the same vertex hash.  Honest nodes run any sequence of
    calls with [u64] rounds; of the signature scheme only unforgeability is assumed.  The builds
    with overflow checks need no more; for the release build, whose arithmetic wraps around, an
    honest node makes fewer than [2^64 - 1] calls and its host answers only with sets whose
    quorum is at least two ([no_wrap]). *)
Theorem certified_vertex_unique `{Build, Primitives, !Borsh SignableVertex, PendingBlobSource P}
    set (f : nat) (faulty : list nat) (nodes : nat → Node P) cv1 cv2 :
  length (vs_entries set) = (3 * f + 1)%nat → (length faulty ≤ f)%nat →
  (∀ i, i ∉ faulty → Forall vertex_input_ok (nd_calls (nodes i)) ∧ no_wrap (nd_calls (nodes i))) →
  unforgeable set faulty nodes cv1 → unforgeable set faulty nodes cv2 →
  verify_certified_vertex cv1 set = Ok tt → verify_certified_vertex cv2 set = Ok tt →
  v_round (cv_vertex cv1) = v_round (cv_vertex cv2) →
  v_author (cv_vertex cv1) = v_author (cv_vertex cv2) →
  v_hash (cv_vertex cv1) = v_hash (cv_vertex cv2).
Proof. apply same_slot_same_hash. Qed.

Lemma certified_vertex_unique_witness :
  v_hash (cv_vertex toy_own_qc) = v_hash (cv_vertex toy_other_qc).
Proof.
  apply (certified_vertex_unique (H := release) (toy_set 4) 1 [] toy_network).
  - reflexivity.
  - apply le_0_n.
  - intros i _. split; [apply toy_network_ok|apply toy_network_no_wrap].
  - apply toy_unforgeable. by vm_compute.
  - apply toy_unforgeable. by vm_compute.
  - by vm_compute.
  - by vm_compute.
  - by vm_compute.
  - by vm_compute.
Defined.

(** [C15] What a vote means.  [on_vertex_proposal] answers a proposal with a
    partial signature only if the vertex carries its content hash and its
    author's valid signature, is of another validator, every proposal seen
    before from that author in that round has the same hash, this author and
    round were not voted for yet (and are remembered from now on), and the
    parents are in order: none at round 0, else at least a quorum of them,
    each certified in the previous round. *)
Theorem on_vertex_proposal_votes `{Build, Primitives, !Borsh SignableVertex, PendingBlobSource P}
    cfg p ctx (s s' : VertexState P) acts bp :
  on_vertex_proposal cfg p ctx s = (Ok acts, s') → BroadcastVertexPartial bp ∈ acts →
  let v := vp_vertex p in
  ∃ set, active_set ctx = Ok set ∧
    v_hash v = content_hash v ∧ vertex_verify_proposal set p = true ∧
    v_author v ≠ vb_self_id (vbook s) ∧
    (∀ prev, prev ∈ default [] (proposals_seen (vbook s) !! (v_round v, v_author v)) →
       v_hash (vp_vertex prev) = v_hash v) ∧
    (v_round v ≤ 0 ∧ v_parents v = [] ∨
     0 < v_round v ∧ ∃ need, quorum_need set = Ok need ∧ need ≤ length (v_parents v) ∧
     ∀ h, h ∈ v_parents v → ∃ m a,
       certified_by_round (vbook s) !! (v_round v - 1) = Some m ∧ m !! a = Some h) ∧
    (v_round v, v_author v) ∉ voted (vbook s) ∧ (v_round v, v_author v) ∈ voted (vbook s') ∧
    ∃ sig, sign_bls ctx dst.VERTEX_CERT (signing_bytes v) = Ok sig ∧
      bp = MkVertexPartial (v_hash v) (v_round v) (v_author v) (vb_self_id (vbook s)) sig.
Proof.
  intros Hrun Hbp v.
  enough (Hw : wp (on_vertex_proposal cfg p ctx) (returns (λ acts s',
    ∀ bp, BroadcastVertexPartial bp ∈ acts → ∃ set, active_set ctx = Ok set ∧
    v_hash v = content_hash v ∧ vertex_verify_proposal set p = true ∧
    v_author v ≠ vb_self_id (vbook s) ∧
    (∀ prev, prev ∈ default [] (proposals_seen (vbook s) !! (v_round v, v_author v)) →
       v_hash (vp_vertex prev) = v_hash v) ∧
    parents_in_order set (vbook s) v ∧ vote_cast ctx (vbook s) v bp (vbook s'))) s).
  { unfold wp in Hw. rewrite Hrun in Hw. by apply Hw. }
  clear Hrun Hbp. unfold on_vertex_proposal. apply returns_lift. intros set Hset. cbv zeta. subst v.
  case_bool_decide as Hh; [by apply reject_says_nothing; intros s1 bq ?%elem_of_nil|].
  destruct (vertex_verify_proposal set p) eqn:Hv; cbn [negb];
    [|by apply reject_says_nothing; intros s1 bq ?%elem_of_nil].
  do 2 wp_step. case_bool_decide as Ha; [by apply wp_ret; intros bq ?%elem_of_nil|].
  apply returns_lift. intros [] _; [cbn [negb]|by apply wp_ret; intros bq ?%elem_of_nil].
  set (v := vp_vertex p) in *.
  destruct (proposals_seen (vbook s) !! _) as [existing|] eqn:He.
  - destruct (conflicting_proposal existing p) eqn:Hc.
    + destruct existing; [done|]. apply wp_ret. by intros bq ?%list_elem_of_singleton.
    + eapply wp_mono; [|apply check_parents_and_vote_says]. intros [acts'| | |] s1 Hs; try done.
      intros bq Hbq. exists set. destruct (Hs bq Hbq).
      split_and!; [done..| |done|done]. by apply conflicting_proposal_false.
  - apply wp_bind, wp_modify.
    eapply wp_mono; [|apply check_parents_and_vote_says]. intros [acts'| | |] s1 Hs; try done.
    intros bq Hbq. exists set. destruct (Hs bq Hbq).
    split_and!; [done..| |done|done]. by intros prev ?%elem_of_nil.
Qed.

Definition toy_voter : VertexState unit := MkVertexState (VertexBook_new (toy_id 2)) tt.
Definition toy_vote : VertexPartial :=
  let v := vp_vertex toy_genesis in
  MkVertexPartial (v_hash v) 0 (toy_id 0) (toy_id 2)
    (sign (toy_key 2) dst.VERTEX_CERT (signing_bytes v)).
Definition toy_voter_after : VertexState unit :=
  (on_vertex_proposal (H := checked) default_table_17_1 toy_genesis (toy_vctx 4 2) toy_voter).2.

Lemma on_vertex_proposal_votes_witness :
  let v := vp_vertex toy_genesis in
  ∃ set, active_set (toy_vctx 4 2) = Ok set ∧
    v_hash v = content_hash v ∧ vertex_verify_proposal set toy_genesis = true ∧
    v_author v ≠ vb_self_id (vbook toy_voter) ∧
    (∀ prev, prev ∈ default [] (proposals_seen (vbook toy_voter) !! (v_round v, v_author v)) →
       v_hash (vp_vertex prev) = v_hash v) ∧
    (v_round v ≤ 0 ∧ v_parents v = [] ∨
     0 < v_round v ∧ ∃ need, quorum_need set = Ok need ∧ need ≤ length (v_parents v) ∧
     ∀ h, h ∈ v_parents v → ∃ m a,
       certified_by_round (vbook toy_voter) !! (v_round v - 1) = Some m ∧ m !! a = Some h) ∧
    (v_round v, v_author v) ∉ voted (vbook toy_voter) ∧
    (v_round v, v_author v) ∈ voted (vbook toy_voter_after) ∧
    ∃ sig, sign_bls (toy_vctx 4 2) dst.VERTEX_CERT (signing_bytes v) = Ok sig ∧
      toy_vote = MkVertexPartial (v_hash v) (v_round v) (v_author v)
                   (vb_self_id (vbook toy_voter)) sig.
Proof.
  apply (on_vertex_proposal_votes (H := checked) default_table_17_1 toy_genesis (toy_vctx 4 2)
    toy_voter toy_voter_after [BroadcastVertexPartial toy_vote]).
  - vm_compute. reflexivity.
  - by left.
Defined.

(** [C12] A certificate makes the validator advance as far as it can, in bounded
    time.  In any state a validator reaches, [on_certified_vertex] does not
    run out of fuel once the fuel covers four calls per round up to one past
    the highest certified round; if it returns, a started validator stands in
    a round, not before the one it was in, that lacks a quorum of
    certificates, and every certificate it broadcasts verifies under the
    active set.  The quorum is of at least two validators: with one the
    recursion does not end.  Either overflow is checked, or, as in the release build, the calls
    so far did not wrap the round around ([no_wrap]) and the highest certified round is below
    [u64::MAX]. *)
Theorem on_certified_vertex_advances
    `{Build, Primitives, !Borsh SignableVertex, PendingBlobSource P}
    id (nd : Node P) n cfg ctx set need cv R fuel :
  Forall vertex_input_ok (nd_calls nd) → no_wrap (nd_calls nd) →
  overflow_checks = true ∨ R < 2 ^ 64 - 1 →
  active_set ctx = Ok set → quorum_need set = Ok need → 2 ≤ need →
  (∀ d msg, sign_bls ctx d msg ≠ NoFuel) →
  let s := (node_after id nd n).2 in
  (∀ r m, certified_by_round (vbook s) !! r = Some m → r ≤ R) → v_round (cv_vertex cv) ≤ R →
  (4 * Z.to_nat (R + 1) + 2 ≤ fuel)%nat →
  let '(r, s') := vertex_on_certified_vertex fuel cfg cv ctx s in
  r ≠ NoFuel ∧
  ∀ acts, r = Ok acts →
    (started (vbook s) = true →
       certified_count_at (vbook s') (current_round (vbook s')) < need ∧
       current_round (vbook s) ≤ current_round (vbook s')) ∧
    (∀ own, BroadcastCertifiedVertex own ∈ acts → verify_certified_vertex own set = Ok tt).
Proof.
  intros Hok Hnw Hlim Hset Hneed Hn Hsign s HR Hcv Hfuel.
  destruct (no_wrap_start _ id (no_wrap_take n _ Hnw)) as [Hh Hck].
  destruct (vertex_run_remembers (nd_fuel nd) (nd_cfg nd) (take n (nd_calls nd))
    (MkVertexState (VertexBook_new id) (nd_queue nd)) [] [] ltac:(by apply Forall_take) Hh Hck
    (new_votes_inv id) (new_proposals_inv id)) as (K & _ & HK & _).
  change (proposals_inv (vbook s) K) in HK. clearbody s.
  pose proof (pi_nonneg _ _ HK) as Hr0.
  set (s1 := s <| vbook ::= record_cert cv |>).
  assert (Hst1 : settled R (vbook s1)).
  { split.
    - intros r m a Hm Hr _. exfalso. subst s1. revert Hm.
      change (vbook (s <| vbook ::= record_cert cv |>)) with (record_cert cv (vbook s)).
      rewrite record_cert_certs. intros [[<- _]|[_ Hm]]%lookup_insert_Some; [lia|].
      apply HR in Hm. lia.
    - intros h p Hp. apply (pi_author _ _ HK). by apply (pi_mine _ _ HK h).
    - exact Hr0. }
  assert (Hends : wp (maybe_advance fuel cfg ctx) (ends R (current_round (vbook s1))) s1).
  { apply (calls_end_all cfg ctx set need R Hset Hneed Hn Hsign Hlim fuel s1 Hst1).
    change (current_round (vbook s1)) with (current_round (vbook s)).
    unfold loop_fuel. lia. }
  assert (Hsound : wp (maybe_advance fuel cfg ctx) (returns (sound_return set)) s1)
    by by apply sound_calls_all.
  assert (Hstop : started (vbook s) = true → wp (maybe_advance fuel cfg ctx)
    (returns (λ _ s', certified_count_at (vbook s') (current_round (vbook s')) < need)) s1).
  { intros Hs. apply (maybe_advance_stops cfg ctx set Hset); [done|lia|done|done]. }
  unfold vertex_on_certified_vertex, upd, modify, mbind, M_bind. fold s1.
  unfold wp in *. destruct (maybe_advance fuel cfg ctx s1) as [r s']. cbn [fst snd] in *.
  destruct r as [acts| | |]; [|by split..]. split; [done|]. intros _ [= <-]. split.
  - intros Hs. split; [by apply Hstop|]. by destruct Hends.
  - by destruct Hsound.
Qed.

Definition toy_round0_qc (i : nat) : CertifiedVertex :=
  toy_qc 4 (toy_vertex 0 i []) [0; 1; 3]%nat.
Definition toy_collector : Node unit :=
  toy_node [VC_genesis; VC_certified (toy_round0_qc 0); VC_certified (toy_round0_qc 1)] 2.

Example toy_collector_advances :
  let s := (node_after (H := checked) (toy_id 2) toy_collector 3).2 in
  current_round (vbook s) = 0 ∧
  current_round (vbook (vertex_on_certified_vertex (H := checked) 6 default_table_17_1
    (toy_round0_qc 3) (toy_vctx 4 2) s).2) = 1.
Proof. split; vm_compute; reflexivity. Qed.

Lemma on_certified_vertex_advances_witness :
  let s := (node_after (H := release) (toy_id 2) toy_collector 3).2 in
  let '(r, s') := vertex_on_certified_vertex (H := release) 6 default_table_17_1
    (toy_round0_qc 3) (toy_vctx 4 2) s in
  r ≠ NoFuel ∧
  ∀ acts, r = Ok acts →
    (started (vbook s) = true →
       certified_count_at (vbook s') (current_round (vbook s')) < 3 ∧
       current_round (vbook s) ≤ current_round (vbook s')) ∧
    (∀ own, BroadcastCertifiedVertex own ∈ acts →
       verify_certified_vertex own (toy_set 4) = Ok tt).
Proof.
  apply (on_certified_vertex_advances (H := release) (toy_id 2) toy_collector 3
    default_table_17_1 (toy_vctx 4 2) (toy_set 4) 3 (toy_round0_qc 3) 0 6).
  - repeat apply Forall_cons_2; [exact I..|apply Forall_nil_2].
  - right. split; [done|]. repeat apply Forall_cons_2; [apply toy_wide..|apply Forall_nil_2].
  - by right.
  - reflexivity.
  - vm_compute. reflexivity.
  - vm_compute. discriminate.
  - discriminate.
  - assert (Hall : map_Forall (λ r _, r ≤ 0) (certified_by_round (vbook
      (node_after (H := release) (toy_id 2) toy_collector 3).2))) by vdecide.
    intros r m Hm. exact (Hall r m Hm).
  - vm_compute. discriminate.
  - vm_compute. apply le_n.
Defined.
