(* ===== verification/StateMachine.v ===== *)
(** [consensus::state_machine]: the three layers behind one [step].

    [StateMachine] holds a state per layer; [step] routes an event to the
    layers in the source's order, and a call that fails keeps the mutations of
    the layers that ran before it.  [sm_run] is the life of a validator. *)

From S2P Require Import Prelude Bytes Types Crypto Toy Config Leader Dag Linearize Bullshark.
From S2P Require Import MacroState MacroAgg Slashing MacroFin VertexCert.
Open Scope Z_scope.

Record StateMachine (P : Type) := MkStateMachine {
  sm_cfg : Config;
  sm_micro : MicroState;
  sm_macros : MacroBook;
  sm_vertices : VertexState P;
}.
Arguments MkStateMachine {_} _ _ _ _.
Arguments sm_cfg {_} _.
Arguments sm_micro {_} _.
Arguments sm_macros {_} _.
Arguments sm_vertices {_} _.
#[global] Instance StateMachine_eta {P} : Settable (StateMachine P) := λ s,
  MkStateMachine (sm_cfg s) (sm_micro s) (sm_macros s) (sm_vertices s).

(** [StateMachine::new], with the host's queue of blobs. *)
Definition StateMachine_new {P} (cfg : Config) (self_id : ValidatorId) (queue : P)
  : StateMachine P :=
  MkStateMachine cfg MicroState_new (MacroBook_new self_id)
    (MkVertexState (VertexBook_new self_id) queue).

(** The calls of the host: [genesis_propose] and [step]. *)
Inductive host_call := HC_genesis | HC_event (e : Event).
Definition sm_input : Type := host_call * HostContext.

Section state_machine.
Context `{Build, Primitives, MacroBorsh, !Borsh SignableVertex, !Borsh (list Hash32)}.
Context `{PendingBlobSource P} (fuel : nat).

Abbreviation SM := (M Error (StateMachine P)).

Definition sm_genesis_propose (ctx : HostContext) : SM Actions :=
  cfg ← gets sm_cfg;
  zoom sm_vertices (genesis_propose fuel cfg ctx).

Definition current_vertex_round (s : StateMachine P) : Round :=
  current_round (vbook (sm_vertices s)).

Definition step (event : Event) (ctx : HostContext) : SM Actions :=
  cfg ← gets sm_cfg;
  match event with
  | CertifiedVertexReceived cv =>
      actions ← zoom sm_vertices (vertex_on_certified_vertex fuel cfg cv ctx);
      bull ← zoom sm_micro (on_certified_vertex fuel cfg cv ctx);
      zoom sm_macros (on_local_micro_qcs cfg ctx (actions ++ bull))
  | MicroQcAssembled qc => zoom sm_micro (on_micro_qc_assembled qc)
  | TimerFired id =>
      actions ← zoom sm_micro (on_timer_fired fuel cfg id ctx);
      actions ← zoom sm_macros (macro_on_timer_fired cfg ctx id actions);
      more ← zoom sm_vertices (vertex_on_timer_fired cfg ctx id);
      mret (actions ++ more)
  | MacroProposalReceived p => zoom sm_macros (on_macro_proposal cfg p ctx)
  | BlsPartialReceived bp => zoom sm_macros (on_bls_partial cfg bp ctx)
  | SubnetAggregateReceived a => zoom sm_macros (on_subnet_aggregate cfg a ctx)
  | MacroQcReceived qc => zoom sm_macros (on_macro_qc_received cfg qc ctx)
  | ValidatorSetUpdated _ _ => mret []
  | SlashEvidenceFound _ => mret []
  | VertexProposalReceived p => zoom sm_vertices (on_vertex_proposal cfg p ctx)
  | VertexPartialReceived bp => zoom sm_vertices (on_vertex_partial fuel cfg bp ctx)
  end.

Definition sm_handle (i : sm_input) : SM Actions :=
  match i.1 with HC_genesis => sm_genesis_propose i.2 | HC_event e => step e i.2 end.

(** The actions of a run; those of a call that fails are lost. *)
Fixpoint sm_run (ins : list sm_input) (s : StateMachine P) : Actions * StateMachine P :=
  match ins with
  | [] => ([], s)
  | i :: ins =>
      let '(r, s') := sm_handle i s in
      let '(acts, s'') := sm_run ins s' in
      (match r with Ok a => a ++ acts | _ => acts end, s'')
  end.

(** A run and one call more. *)
Lemma sm_run_snoc ins i (s : StateMachine P) :
  sm_run (ins ++ [i]) s =
    let t := (sm_run ins s).2 in
    ((sm_run ins s).1 ++ match (sm_handle i t).1 with Ok a => a | _ => [] end, (sm_handle i t).2).
Proof.
  revert s. induction ins as [|j ins IH]; intros s; cbn [app sm_run].
  - cbn. destruct (sm_handle i s) as [[a|e| |] s1]; cbn; by rewrite ?app_nil_r.
  - destruct (sm_handle j s) as [r s1]. rewrite IH.
    destruct (sm_run ins s1) as [acts s2]. cbn.
    destruct r; cbn; by rewrite <- ?(assoc_L (++)).
Qed.
End state_machine.

(** A round is a [u64]. *)
Definition sm_input_ok (i : sm_input) : Prop :=
  match i.1 with
  | HC_event (VertexProposalReceived p) => u64_ok (v_round (vp_vertex p))
  | _ => True
  end.

(** ** The layers do not speak for one another *)

Lemma qcs_other l acts : speaks l acts = true → l ≠ L2 → qcs_of acts = [].
Proof. intros Hs Hl. apply (speaks_omap _ l); [done|]. by intros [] ?; destruct l. Qed.
Lemma mqcs_other l acts : speaks l acts = true → l ≠ L3 → mqcs_of acts = [].
Proof. intros Hs Hl. apply (speaks_omap _ l); [done|]. by intros [] ?; destruct l. Qed.
Lemma votes_other l acts : speaks l acts = true → l ≠ L1 → votes_cast acts = [].
Proof. intros Hs Hl. apply (speaks_omap _ l); [done|]. by intros [] ?; destruct l. Qed.
Lemma proposals_other l acts : speaks l acts = true → l ≠ L1 → proposals_sent acts = [].
Proof. intros Hs Hl. apply (speaks_omap _ l); [done|]. by intros [] ?; destruct l. Qed.

(** ** What a call adds *)

(** [V] and [K] are the votes and own proposals so far, [k] the calls still to come. *)
Record sm_inv `{Build} (k : nat) (V : list (Z * ValidatorId)) (K : list VertexProposal) {P}
    (s : StateMachine P) : Prop := {
  si_clock : clock k (vbook (sm_vertices s));
  si_book : book_wf (sm_macros s);
  si_votes : votes_inv (vbook (sm_vertices s)) V;
  si_props : proposals_inv (vbook (sm_vertices s)) K;
}.

Record sm_trace (V : list (Z * ValidatorId)) (K : list VertexProposal) {P}
    (s s' : StateMachine P) (acts : Actions) : Prop := {
  so_micro : es_inner (emitted (sm_micro s)) ⊆ es_inner (emitted (sm_micro s'));
  so_macro : emitted_macro_qc (sm_macros s) ⊆ emitted_macro_qc (sm_macros s');
  so_qcs : NoDup (qcs_of acts);
  so_new h : h ∈ qcs_of acts →
    h ∉ es_inner (emitted (sm_micro s)) ∧ h ∈ es_inner (emitted (sm_micro s'));
  so_mqcs : NoDup (mqcs_of acts);
  so_mnew h : h ∈ mqcs_of acts →
    h ∉ emitted_macro_qc (sm_macros s) ∧ h ∈ emitted_macro_qc (sm_macros s');
  so_votes : votes_inv (vbook (sm_vertices s')) (V ++ votes_cast acts);
  so_props : ∃ K', K ⊆ K' ∧ proposals_inv (vbook (sm_vertices s')) K' ∧
    ∀ p, p ∈ proposals_sent acts → p ∈ K';
}.

Definition sm_res `{Build} (k : nat) (V : list (Z * ValidatorId)) (K : list VertexProposal) {P}
    (s : StateMachine P) (r : result Actions) (s' : StateMachine P) : Prop :=
  clock k (vbook (sm_vertices s')) ∧ book_wf (sm_macros s') ∧
  sm_trace V K s s' (match r with Ok acts => acts | _ => [] end).

Lemma emits_forget s s' acts : emits s s' acts → emits s s' [].
Proof. intros (Hs & _). by apply emits_nil. Qed.
Lemma emits_refl s : emits s s [].
Proof. by apply emits_nil. Qed.

Lemma emits_res_ok s r s' :
  emits_res s r s' → emits s s' (match r with Ok acts => acts | _ => [] end).
Proof. by destruct r. Qed.

Lemma macro_post_forget s s' acts : macro_post s s' acts → macro_post s s' [].
Proof.
  intros [H1 H2 H3 _ _ _ _]. split; [done..|by apply NoDup_nil| |]; by intros ? ?%elem_of_nil.
Qed.
Lemma macro_post_refl s : macro_post s s [].
Proof. by apply steady_post; [|constructor]. Qed.

Lemma said_forget `{Build} {P} n b V K r (s : VertexState P) :
  said n b V K r s → said n b V K (Ok []) s.
Proof.
  intros (Hl & _ & HV & K' & HK & HP & _). split; [done|]. split; [done|].
  split; [rewrite app_nil_r; by eapply votes_inv_prefix|].
  exists K'. split_and!; [done..|]. by intros p ?%elem_of_nil.
Qed.
Lemma said_refl `{Build} {P} V K (s : VertexState P) :
  votes_inv (vbook s) V → proposals_inv (vbook s) K → said 0 (vbook s) V K (Ok []) s.
Proof. intros. apply said_quiet; [split; [apply later_refl|done..]|done]. Qed.

(** The actions of the three layers in either order of [step]. *)
Lemma layers_split a1 a2 a3 acts :
  speaks L1 a1 = true → speaks L2 a2 = true → speaks L3 a3 = true →
  acts = a1 ++ a2 ++ a3 ∨ acts = (a2 ++ a3) ++ a1 →
  qcs_of acts = qcs_of a2 ∧ mqcs_of acts = mqcs_of a3 ∧ votes_cast acts = votes_cast a1 ∧
  proposals_sent acts = proposals_sent a1.
Proof.
  intros H1 H2 H3 Hacts.
  pose proof (qcs_other _ _ H1 ltac:(done)) as Q1. pose proof (qcs_other _ _ H3 ltac:(done)) as Q3.
  pose proof (mqcs_other _ _ H1 ltac:(done)) as M1. pose proof (mqcs_other _ _ H2 ltac:(done)) as M2.
  pose proof (votes_other _ _ H2 ltac:(done)) as V2. pose proof (votes_other _ _ H3 ltac:(done)) as V3.
  pose proof (proposals_other _ _ H2 ltac:(done)) as P2.
  pose proof (proposals_other _ _ H3 ltac:(done)) as P3.
  split_and!; destruct Hacts as [-> | ->];
    rewrite ?qcs_of_app, ?mqcs_of_app, ?votes_cast_app, ?proposals_sent_app,
      ?Q1, ?Q3, ?M1, ?M2, ?V2, ?V3, ?P2, ?P3, ?app_nil_r; done.
Qed.

Lemma sm_trace_intro `{Build} {P} n V K (s s' : StateMachine P) a1 a2 a3 acts :
  emits (sm_micro s) (sm_micro s') a2 →
  macro_post (sm_macros s) (sm_macros s') a3 →
  said n (vbook (sm_vertices s)) V K (Ok a1) (sm_vertices s') →
  acts = a1 ++ a2 ++ a3 ∨ acts = (a2 ++ a3) ++ a1 →
  sm_trace V K s s' acts.
Proof.
  intros (E1 & E2 & E3 & E4) [_ G2 G3 G0 G4 G5 G6] (_ & T1 & T2 & T3) Hacts.
  destruct (layers_split a1 a2 a3 acts T1 E2 G0 Hacts) as (Q & M & V' & P').
  by split; rewrite ?Q, ?M, ?V', ?P'.
Qed.

Section handlers.
Context `{Build, Primitives, MacroBorsh, !Borsh SignableVertex, !Borsh (list Hash32)}.
Context `{PendingBlobSource P} (fuel : nat).

Abbreviation SM := (M Error (StateMachine P)).

(** A step that runs one layer. *)
Lemma wp_vertices n (m : M Error (VertexState P) Actions) k V K s :
  sm_inv (n + k) V K s →
  wp m (said n (vbook (sm_vertices s)) V K) (sm_vertices s) →
  wp (zoom sm_vertices m) (sm_res k V K s) s.
Proof.
  intros [Iw Ib Iv Ip] Hm. apply wp_zoom. unfold wp in Hm.
  destruct (m (sm_vertices s)) as [r v]. cbn [fst snd] in *.
  split; [by apply (lt_clock _ _ _ (proj1 Hm))|]. split; [done|].
  apply (sm_trace_intro n V K s _ (match r with Ok acts => acts | _ => [] end) [] []).
  - apply emits_refl.
  - apply macro_post_refl.
  - destruct r; [exact Hm|by apply said_forget in Hm..].
  - left. by rewrite app_nil_r.
Qed.

Lemma wp_macros (m : M Error MacroBook Actions) k V K (s : StateMachine P) :
  sm_inv k V K s → wp m (macro_res (sm_macros s)) (sm_macros s) →
  wp (zoom sm_macros m) (sm_res k V K s) s.
Proof.
  intros [Iw Ib Iv Ip] Hm. apply wp_zoom. unfold wp, macro_res in Hm.
  destruct (m (sm_macros s)) as [r b]. cbn [fst snd] in *.
  split; [done|]. split; [by apply Hm|].
  apply (sm_trace_intro 0 V K s _ [] [] (match r with Ok acts => acts | _ => [] end)).
  - apply emits_refl.
  - exact Hm.
  - by apply said_refl.
  - by left.
Qed.

Lemma wp_quiet k V K s : sm_inv k V K s → wp (mret [] : SM Actions) (sm_res k V K s) s.
Proof.
  intros [Iw Ib Iv Ip]. apply wp_ret. do 2 (split; [done|]).
  apply (sm_trace_intro 0 V K s s [] [] []);
    [apply emits_refl|apply macro_post_refl|by apply said_refl|by left].
Qed.

(** [step] on a certified vertex: L1, then L2, then L3 on what L1 and L2 said. *)
Lemma wp_certified_vertex cfg cv ctx k V K (s : StateMachine P) :
  overflow_checks = true ∨ wide_host ctx → sm_inv (S k) V K s →
  wp (actions ← zoom sm_vertices (vertex_on_certified_vertex fuel cfg cv ctx);
      bull ← zoom sm_micro (on_certified_vertex fuel cfg cv ctx);
      zoom sm_macros (on_local_micro_qcs cfg ctx (actions ++ bull)))
    (sm_res k V K s) s.
Proof.
  intros Hw [Iw Ib Iv Ip]. assert (Hck : clock 1 (vbook (sm_vertices s)))
    by (eapply clock_mono, Iw; lia).
  pose proof (vertex_on_certified_vertex_kept cfg ctx Hw fuel cv (sm_vertices s) V K Hck Iv Ip) as T.
  pose proof (emits_micro_handle fuel cfg (sm_micro s) (MI_vertex cv ctx)) as E.
  unfold wp in T, E. cbn [micro_handle] in E.
  do 2 wp_step.
  destruct (vertex_on_certified_vertex _ _ _ _ _) as [r1 v1]. cbn [fst snd] in *.
  pose proof (lt_clock _ _ _ (proj1 T) k Iw) as Hck1.
  destruct r1 as [a1| | |].
  2-4: do 2 (split; [done|]); apply (sm_trace_intro 1 V K s _ [] [] []);
    [apply emits_refl|apply macro_post_refl|by apply said_forget in T|by left].
  do 2 wp_step.
  change (sm_micro (s <| sm_vertices := v1 |>)) with (sm_micro s).
  destruct (on_certified_vertex _ _ _ _ _) as [r2 m2]. cbn [fst snd] in *.
  destruct r2 as [a2| | |].
  2-4: do 2 (split; [done|]); apply (sm_trace_intro 1 V K s _ [] [] []);
    [by apply emits_res_ok in E|apply macro_post_refl|by apply said_forget in T|by left].
  wp_step.
  change (sm_macros (s <| sm_vertices := v1 |> <| sm_micro := m2 |>)) with (sm_macros s).
  pose proof (calm_on_local_micro_qcs cfg ctx (a1 ++ a2) (sm_macros s)) as C. unfold wp in C.
  destruct (on_local_micro_qcs _ _ _ _) as [r3 b3]. cbn [fst snd] in *.
  destruct C as [Hb C]. assert (Hb3 : book_wf b3) by by apply Hb.
  do 2 (split; [done|]). destruct r3 as [acts| | |].
  2-4: apply (sm_trace_intro 1 V K s _ [] [] []);
    [by apply emits_forget in E|by apply steady_post; [|constructor]|
     by apply said_forget in T|by left].
  destruct C as (a3 & -> & Ha3).
  apply (sm_trace_intro 1 V K s _ a1 a2 a3); [by apply emits_res_ok in E|by apply steady_post|exact T|].
  left. by rewrite app_assoc.
Qed.

(** [step] on a timer: L2, then L3, then L1. *)
Lemma wp_timer_fired cfg id ctx k V K (s : StateMachine P) :
  sm_inv k V K s →
  wp (actions ← zoom sm_micro (on_timer_fired fuel cfg id ctx);
      actions ← zoom sm_macros (macro_on_timer_fired cfg ctx id actions);
      more ← zoom sm_vertices (vertex_on_timer_fired cfg ctx id);
      mret (actions ++ more))
    (sm_res k V K s) s.
Proof.
  intros [Iw Ib Iv Ip].
  pose proof (vertex_on_timer_fired_kept cfg ctx id (sm_vertices s) V K Iv Ip) as T.
  pose proof (emits_micro_handle fuel cfg (sm_micro s) (MI_timer id ctx)) as E.
  unfold wp in T, E. cbn [micro_handle] in E. do 2 wp_step.
  destruct (on_timer_fired _ _ _ _ _) as [r2 m2]. cbn [fst snd] in *.
  destruct r2 as [a2| | |].
  2-4: do 2 (split; [done|]); apply (sm_trace_intro 0 V K s _ [] [] []);
    [by apply emits_res_ok in E|apply macro_post_refl|by apply said_refl|by left].
  do 2 wp_step.
  change (sm_macros (s <| sm_micro := m2 |>)) with (sm_macros s).
  pose proof (calm_macro_on_timer_fired cfg ctx id a2 (sm_macros s)) as C. unfold wp in C.
  destruct (macro_on_timer_fired _ _ _ _ _) as [r3 b3]. cbn [fst snd] in *.
  destruct C as [Hb C]. assert (Hb3 : book_wf b3) by by apply Hb. destruct r3 as [acts| | |].
  2-4: do 2 (split; [done|]); apply (sm_trace_intro 0 V K s _ [] [] []);
    [by apply emits_forget in E|by apply steady_post; [|constructor]|
     by apply said_refl|by left].
  destruct C as (a3 & -> & Ha3). do 2 wp_step.
  change (sm_vertices (s <| sm_micro := m2 |> <| sm_macros := b3 |>)) with (sm_vertices s).
  destruct (vertex_on_timer_fired _ _ _ _) as [r1 v1]. cbn [fst snd] in *.
  pose proof (lt_clock _ _ _ (proj1 T) k Iw) as Hck1.
  destruct r1 as [a1| | |].
  2-4: do 2 (split; [done|]); apply (sm_trace_intro 0 V K s _ [] [] []);
    [by apply emits_forget in E|by apply steady_post; [|constructor]|
     by apply said_forget in T|by left].
  wp_step. do 2 (split; [done|]).
  apply (sm_trace_intro 0 V K s _ a1 a2 a3); [exact E|by apply steady_post|exact T|by right].
Qed.

Lemma wp_sm_handle i k V K (s : StateMachine P) :
  sm_input_ok i → overflow_checks = true ∨ wide_host i.2 → sm_inv (S k) V K s →
  wp (sm_handle fuel i) (sm_res k V K s) s.
Proof.
  intros Hok Hwide Hinv. pose proof Hinv as [Hck _ Iv Ip].
  assert (Hinv0 : sm_inv k V K s).
  { destruct Hinv as [Hw ???]. split; [|done..]. eapply clock_mono; [|done]. lia. }
  assert (Hck0 : clock 0 (vbook (sm_vertices s))) by (eapply clock_mono, Hck; lia).
  destruct i as [[|e] ctx]; unfold sm_handle; cbn [fst snd].
  { unfold sm_genesis_propose. do 2 wp_step. by apply (wp_vertices 0), genesis_propose_kept. }
  unfold step. do 2 wp_step. set (cfg := sm_cfg s). destruct e.
  - by apply wp_certified_vertex.
  - apply wp_zoom. cbn [on_micro_qc_assembled mret M_ret fst snd].
    assert (Hs : s <| sm_micro := sm_micro s |> = s) by by destruct s. rewrite Hs.
    by apply (wp_quiet k V K s).
  - by apply wp_macros, wp_on_macro_proposal.
  - by apply wp_macros, wp_on_bls_partial.
  - by apply wp_macros, wp_on_subnet_aggregate.
  - by apply wp_macros, wp_on_macro_qc_received.
  - by apply wp_timer_fired.
  - by apply wp_quiet.
  - by apply wp_quiet.
  - by apply (wp_vertices 0), on_vertex_proposal_kept.
  - by apply (wp_vertices 0), on_vertex_partial_kept.
Qed.
End handlers.

(** ** Runs *)

Lemma sm_trace_nil {P} V K (s : StateMachine P) :
  votes_inv (vbook (sm_vertices s)) V → proposals_inv (vbook (sm_vertices s)) K →
  sm_trace V K s s [].
Proof.
  intros HV HK. apply (sm_trace_intro (H := false) 0 V K s s [] [] []);
    [apply emits_refl|apply macro_post_refl|by apply said_refl|by left].
Qed.

Lemma sm_trace_trans {P} V K (s s1 s2 : StateMachine P) a b :
  sm_trace V K s s1 a →
  (∀ K1, K ⊆ K1 → proposals_inv (vbook (sm_vertices s1)) K1 →
     (∀ p, p ∈ proposals_sent a → p ∈ K1) → sm_trace (V ++ votes_cast a) K1 s1 s2 b) →
  sm_trace V K s s2 (a ++ b).
Proof.
  intros [A1 A2 A3 A4 A5 A6 A8 (K1 & AK1 & AP1 & AK2)] HB.
  destruct (HB K1 AK1 AP1 AK2) as [B1 B2 B3 B4 B5 B6 B8 (K2 & BK1 & BP1 & BK2)].
  split; rewrite ?qcs_of_app, ?mqcs_of_app, ?votes_cast_app, ?proposals_sent_app, ?app_assoc.
  - set_solver.
  - set_solver.
  - apply NoDup_app. split_and!; [done| |done]. intros h ?%A4 ?%B4. naive_solver.
  - intros h [Hh%A4|Hh%B4]%elem_of_app; set_solver.
  - apply NoDup_app. split_and!; [done| |done]. intros h ?%A6 ?%B6. naive_solver.
  - intros h [Hh%A6|Hh%B6]%elem_of_app; set_solver.
  - exact B8.
  - exists K2. split_and!; [set_solver|done|]. intros p [?|?]%elem_of_app; auto.
Qed.

Section runs.
Context `{Build, Primitives, MacroBorsh, !Borsh SignableVertex, !Borsh (list Hash32)}.
Context `{PendingBlobSource P} (fuel : nat).

Lemma sm_run_trace ins k V K (s : StateMachine P) :
  Forall sm_input_ok ins → wide_hosts ins → sm_inv (length ins + k) V K s →
  clock k (vbook (sm_vertices (sm_run fuel ins s).2)) ∧
  book_wf (sm_macros (sm_run fuel ins s).2) ∧
  sm_trace V K s (sm_run fuel ins s).2 (sm_run fuel ins s).1.
Proof.
  intros Hok. revert s V K. induction Hok as [|i ins Hi _ IH]; intros s V K Hh Hinv.
  { destruct Hinv as [Iw Ib Iv Ip]. split_and!; [done..|]. by apply sm_trace_nil. }
  apply wide_hosts_cons in Hh as [Hwi Hh]. cbn [sm_run length] in *.
  pose proof (wp_sm_handle fuel i (length ins + k) V K s Hi Hwi Hinv) as Hw. unfold wp in Hw.
  destruct (sm_handle fuel i s) as [r s1]. cbn [fst snd] in Hw.
  destruct Hw as (Hw1 & Hb1 & Ht1).
  set (a := match r with Ok acts => acts | _ => [] end) in Ht1.
  assert (Hinv1 : ∀ K1, proposals_inv (vbook (sm_vertices s1)) K1 →
    sm_inv (length ins + k) (V ++ votes_cast a) K1 s1).
  { intros K1 HK1. split; [done..| |done]. apply (so_votes _ _ _ _ _ Ht1). }
  assert (Ht2 : ∀ K1, proposals_inv (vbook (sm_vertices s1)) K1 →
    clock k (vbook (sm_vertices (sm_run fuel ins s1).2)) ∧
    book_wf (sm_macros (sm_run fuel ins s1).2) ∧
    sm_trace (V ++ votes_cast a) K1 s1 (sm_run fuel ins s1).2 (sm_run fuel ins s1).1)
    by (intros K1 HK1; apply IH; [done|by apply Hinv1]).
  destruct (so_props _ _ _ _ _ Ht1) as (K1 & _ & HK1 & _).
  destruct (Ht2 K1 HK1) as (Hw2 & Hb2 & _).
  assert (Ht : sm_trace V K s (sm_run fuel ins s1).2 (a ++ (sm_run fuel ins s1).1)).
  { apply (sm_trace_trans _ _ s s1); [done|]. intros K2 _ HK2 _. by apply Ht2. }
  destruct (sm_run fuel ins s1) as [acts s2]. by destruct r.
Qed.

Lemma sm_inv_new cfg id (queue : P) ins :
  no_wrap (A := host_call) ins →
  wide_hosts ins ∧ sm_inv (length ins) [] [] (StateMachine_new cfg id queue).
Proof.
  intros [Hh Hck]%(no_wrap_start _ id). split; [done|].
  split; [exact Hck|apply book_wf_new|apply new_votes_inv|apply new_proposals_inv].
Qed.

(** What a run from the start says. *)
Lemma sm_run_new cfg id (queue : P) ins :
  Forall sm_input_ok ins → no_wrap (A := host_call) ins →
  let s0 := StateMachine_new cfg id queue in
  sm_trace [] [] s0 (sm_run fuel ins s0).2 (sm_run fuel ins s0).1.
Proof.
  intros Hok [Hh Hinv]%(sm_inv_new cfg id queue). apply (sm_run_trace ins 0); [done..|].
  by rewrite Nat.add_0_r.
Qed.
End runs.

(** ** A concrete run

    Genesis, then the certified vertices of [Bullshark.toy_ins]: wave 1 commits
    and its micro certificate is broadcast. *)
Definition toy_sm_ins : list sm_input :=
  [(HC_genesis, toy_full_host);
   (HC_event (CertifiedVertexReceived (toy_cv 4)), toy_full_host);
   (HC_event (CertifiedVertexReceived (toy_cv 5)), toy_full_host);
   (HC_event (TimerFired (MkTimerId 0)), toy_full_host)].
Definition toy_sm : StateMachine unit :=
  StateMachine_new default_table_17_1 (toy_id 0) tt.
Definition toy_sm_run : Actions * StateMachine unit :=
  sm_run (H := checked) 30 toy_sm_ins toy_sm.

Example toy_sm_run_speaks :
  length (qcs_of toy_sm_run.1) = 1%nat ∧
  (v_round ∘ vp_vertex <$> proposals_sent toy_sm_run.1) = [0; 0].
Proof. by vm_compute. Qed.

(** A host that has seen the anchor of wave 0 and nothing else. *)
Definition toy_anchor_host : HostContext :=
  host_of (dag_of [vx 0 toy_anchor [] 1]) (toy_set 4) Hash32_zero.

(** ** Properties *)

(** [C5] A validator never contradicts itself.  Over a sequence of host calls
    from a new state machine, whichever events come, whatever the host answers
    and whichever calls fail: at most one micro certificate per checkpoint, at
    most one macro certificate broadcast per checkpoint, at most one vertex vote
    per round and author, and one own proposal per round are broadcast.  The
    rounds of received proposals are [u64].  A build with overflow checks needs
    no more; for the release build, whose round counter wraps around, there are
    fewer than [2^64 - 1] calls and the host answers only with validator sets
    whose quorum is at least two ([no_wrap]). *)
Theorem validator_never_repeats
    `{Build, Primitives, MacroBorsh, !Borsh SignableVertex, !Borsh (list Hash32)}
    `{PendingBlobSource P} fuel cfg id (queue : P) ins :
  Forall sm_input_ok ins → no_wrap (A := host_call) ins →
  let acts := (sm_run fuel ins (StateMachine_new cfg id queue)).1 in
  NoDup (qcs_of acts) ∧ NoDup (mqcs_of acts) ∧ NoDup (votes_cast acts) ∧
  (∀ p q, p ∈ proposals_sent acts → q ∈ proposals_sent acts →
     v_round (vp_vertex p) = v_round (vp_vertex q) → p = q).
Proof.
  intros Hok Hnw acts.
  destruct (sm_run_new fuel cfg id queue ins Hok Hnw)
    as [_ _ Hq _ Hm _ [Hv _ _] (K & _ & HK & Hin)].
  split_and!; [done..|]. intros p q ?%Hin ?%Hin. by apply HK.
Qed.

Lemma toy_full_wide : wide_host toy_full_host.
Proof. intros set need [= <-] [= <-]. done. Qed.
Lemma toy_sm_no_wrap (b : Build) : no_wrap (H := b) (A := host_call) toy_sm_ins.
Proof. right. split; [done|]. repeat constructor; apply toy_full_wide. Qed.

Lemma validator_never_repeats_witness :
  let acts := (sm_run (H := release) 30 toy_sm_ins
                 (StateMachine_new default_table_17_1 (toy_id 0) tt)).1 in
  length (qcs_of acts) = 1%nat ∧
  NoDup (qcs_of acts) ∧ NoDup (mqcs_of acts) ∧ NoDup (votes_cast acts) ∧
  (∀ p q, p ∈ proposals_sent acts → q ∈ proposals_sent acts →
     v_round (vp_vertex p) = v_round (vp_vertex q) → p = q).
Proof.
  split; [vm_compute; reflexivity|].
  apply (validator_never_repeats (H := release) 30 default_table_17_1 (toy_id 0) tt toy_sm_ins).
  - repeat apply Forall_cons_2; [exact I..|apply Forall_nil_2].
  - apply toy_sm_no_wrap.
Defined.

(** Two macro heights: a window of one micro certificate, ten full rounds, and
    a received macro certificate after each. *)
Definition toy_window_cfg : Config :=
  default_table_17_1 <| macro_fin ::= λ _, MkMacroFinParams 1 2 50 4 |>.
Definition toy_ten_rounds : HostContext :=
  host_of (dag_of (mjoin (toy_round <$> seq 0 10))) (toy_set 4) Hash32_zero.
Definition toy_cert_event (r : Z) : sm_input :=
  (HC_event (CertifiedVertexReceived (toy_cv r)), toy_ten_rounds).
Definition toy_qc_event (cp : MacroCheckpoint) : sm_input :=
  (HC_event (MacroQcReceived (MkMacroQc (mc_hash cp) Mode0Flat
     (MkBlsAggSig (toy_partial 0 cp) [1]))), toy_ten_rounds).
Definition toy_candidate (ins : list sm_input) (height : Z) : MacroCheckpoint :=
  default toy_checkpoint (candidate (sm_macros (sm_run (H := checked) 60 ins
    (StateMachine_new toy_window_cfg (toy_id 2) tt)).2) !! height).

Definition toy_cand0 : MacroCheckpoint :=
  Eval vm_compute in toy_candidate [toy_cert_event 5] 0.
Definition toy_cand1 : MacroCheckpoint :=
  Eval vm_compute in toy_candidate [toy_cert_event 5; toy_qc_event toy_cand0; toy_cert_event 9] 1.

Definition toy_before : list sm_input :=
  [toy_cert_event 5; toy_qc_event toy_cand0; toy_cert_event 9].
Definition toy_final : result Actions * StateMachine unit :=
  sm_handle (H := checked) 60 (toy_qc_event toy_cand1)
    (sm_run (H := checked) 60 toy_before (StateMachine_new toy_window_cfg (toy_id 2) tt)).2.
Definition toy_final_acts : Actions :=
  [PersistMacroCheckpoint toy_cand1;
   PersistMacroQc (MkMacroQc (mc_hash toy_cand1) Mode0Flat
     (MkBlsAggSig (toy_partial 0 toy_cand1) [1]));
   UpdateBlobStatus (blob_id_of_checkpoint toy_cand1) Justified;
   UpdateBlobStatus (blob_id_of_checkpoint toy_cand0) Finalized].

(** The three timer allocators share one identifier space: a validator that
    proposed at genesis and then armed the slow-path timer of a wave holds the
    same identifier for its L1 round timer and for that wave, and [step] gives
    a fired timer to every layer. *)
Example timer_ids_collide :
  let s := (sm_run (H := checked) 20 [(HC_genesis, toy_wave_host);
    (HC_event (CertifiedVertexReceived (toy_cv 0)), toy_anchor_host)]
    (StateMachine_new default_table_17_1 (toy_id 0) tt)).2 in
  round_timer (vbook (sm_vertices s)) = Some (MkTimerId 0) ∧
  timer_to_wave (waves (sm_micro s)) !! 0 = Some 0.
Proof. by vm_compute. Qed.
