(* ===== verification/MacroSafety.v ===== *)
(** One macro vote per height.

    [frontier L s] is the invariant of the macro layer behind its safety: candidates below
    [next_height] are frozen and certified, the hash chain of adopted checkpoints ends in
    [last_macro_hash], and [L], the locks granted so far, has one checkpoint per height.
    [LockMacro] alone forgets a lock when another height is locked
    ([MacroState.lock_macro_forgets]); the layer never asks it for another height than
    [next_height], as long as proposals carry the hash of their content ([genuine]), which the
    handler does not check.

    [MacroAgreement] draws the conclusions: a validator signs one checkpoint per height
    ([macro_votes_once]), so no evidence of a double or surrounding vote is raised against
    oneself, and two certificates with a quorum of signers agree at a height
    ([macro_certificates_agree]).  [replayed_proposal_equivocates] and
    [primary_proposes_twice] there are what happens outside the hypotheses. *)

From S2P Require Import Prelude Bytes Types Crypto Toy Config Leader Dag Linearize Bullshark.
From S2P Require Import MacroState MacroAgg Slashing MacroFin MacroChain VertexCert StateMachine.
Open Scope Z_scope.

(** ** The checkpoints of a run *)

Section macro_run.
Context `{Build, Primitives, MacroBorsh} (cfg : Config).

(** The checkpoint of a partial signature a call answers with: the candidate of that hash. *)
Definition signed_by_action (s : MacroBook) (a : Action) : option MacroCheckpoint :=
  match a with
  | BroadcastBlsPartial bp => snd <$> find_candidate s (bp_checkpoint_hash bp)
  | _ => None
  end.
Fixpoint signed (ins : list macro_input) (s : MacroBook) : list MacroCheckpoint :=
  match ins with
  | [] => []
  | i :: ins =>
      let '(r, s1) := macro_handle cfg i s in
      omap (signed_by_action s1) (said_by r) ++ signed ins s1
  end.

(** A checkpoint that carries the hash of its content *)
Definition genuine (c : MacroCheckpoint) : Prop :=
  c = build (mc_height c) (mc_epoch c) (mc_parent c) (mc_micro_root c).

Definition macro_input_ok (i : macro_input) : Prop :=
  match i.1 with MC_proposal p => genuine (mp_checkpoint p) | _ => True end.

(** No two of the checkpoints at hand collide, and none hashes to the zero parent of the first.
    The checkpoints at hand are the candidates and the one proposed. *)
Definition candidates (s : MacroBook) : list MacroCheckpoint := (map_to_list (candidate s)).*2.
Definition at_hand (s : MacroBook) (i : macro_input) : list MacroCheckpoint :=
  candidates s ++ match i.1 with MC_proposal p => [mp_checkpoint p] | _ => [] end.
Definition no_collision (cs : list MacroCheckpoint) : Prop :=
  Forall (λ c, mc_hash c ≠ Hash32_zero ∧
    Forall (λ d, genuine c → genuine d → mc_hash c = mc_hash d → c = d) cs) cs.
Fixpoint no_collisions (ins : list macro_input) (s : MacroBook) : Prop :=
  match ins with
  | [] => no_collision (candidates s)
  | i :: ins => no_collision (at_hand s i) ∧ no_collisions ins (macro_handle cfg i s).2
  end.
End macro_run.

Lemma elem_of_candidates s h c : candidate s !! h = Some c → c ∈ candidates s.
Proof. intros Hc%elem_of_map_to_list. apply list_elem_of_fmap. by exists (h, c). Qed.

(** ** The invariant *)
Section frontier.
Context `{Build, Primitives, MacroBorsh}.

(** [L]: the locks granted so far *)
Record frontier (L : list (Z * Hash32)) (s : MacroBook) : Prop := {
  fr_candidate h c : candidate s !! h = Some c →
    genuine c ∧ mc_height c = h ∧ 0 ≤ h ≤ next_height s;
  fr_parent h c : candidate s !! h = Some c →
    (h = 0 ∧ mc_parent c = Hash32_zero) ∨
    ∃ p, candidate s !! (h - 1) = Some p ∧ mc_parent c = mc_hash p;
  fr_done h c : candidate s !! h = Some c → h < next_height s → mc_hash c ∈ emitted_macro_qc s;
  fr_last : (next_height s = 0 ∧ last_macro_hash s = Hash32_zero) ∨
    0 < next_height s ∧
    ∃ p, candidate s !! (next_height s - 1) = Some p ∧ last_macro_hash s = mc_hash p;
  fr_timer h id : mode_b_by_height (mb_timers s) !! h = Some id → h = next_height s;
  fr_lock h x : (h, x) ∈ L → h ≤ next_height s ∧
    (h = next_height s → lm_locks (locks s) !! mb_self_id s = Some (h, x));
  fr_once h x y : (h, x) ∈ L → (h, y) ∈ L → x = y;
  fr_votes r : r ∈ votes_of (votes s) (mb_self_id s) →
    (vr_target r, vr_checkpoint r) ∈ L ∧ vr_source r = saturating_sub (vr_target r) 1;
  fr_adopted h c : adopted (two_chain s) !! h = Some c →
    0 ≤ h ≤ next_height s ∧
    (h = 0 ∨ ∃ p, candidate s !! (h - 1) = Some p ∧ mc_parent c = mc_hash p);
  fr_final x : finalized_head (two_chain s) = Some x →
    ∃ h c, h < next_height s ∧ candidate s !! h = Some c ∧ mc_hash c = x;
}.

Lemma frontier_new self : frontier [] (MacroBook_new self).
Proof.
  split; cbn; try done; try (by left); [by intros ?? ?%elem_of_nil|by intros ??? ?%elem_of_nil|].
  intros r. unfold votes_of. cbn. by intros ?%elem_of_nil.
Qed.

Lemma frontier_front L s s' : front s' = front s → frontier L s → frontier L s'.
Proof.
  intros [= E1 E2 E3 E4 E5 E6 E7 E8 E9] [F1 F2 F3 F4 F5 F6 F7 F8 F9 F10].
  split; rewrite ?E1, ?E2, ?E3, ?E4, ?E5, ?E6, ?E7, ?E8, ?E9; done.
Qed.

End frontier.

(** ** The steps that move the front *)

Section steps.
Context `{Build, Primitives, MacroBorsh}.
#[local] Arguments adopt : simpl never.

(** A candidate is rebuilt at [next_height] only, on top of the last adopted checkpoint. *)
Lemma frontier_build L s root :
  frontier L s →
  frontier L (s <| micro_ring := [] |>
    <| candidate ::= <[next_height s := build (next_height s) 0 (last_macro_hash s) root]> |>).
Proof.
  intros [F1 F2 F3 F4 F5 F6 F7 F8 F9 F10]. open_book s.
  assert (Hn : 0 ≤ next) by (destruct F4 as [[-> _]|[? _]]; lia).
  assert (Hold : ∀ h c, h < next → cands !! h = Some c →
    <[next := build next 0 last root]> cands !! h = Some c).
  { intros h c Hh Hc. by rewrite lookup_insert_ne by lia. }
  split; cbn -[build]; try done.
  - intros h c [[<- <-]|[_ Hc]]%lookup_insert_Some; [split_and!; cbn; [done..|lia]|by apply F1].
  - intros h c [[<- <-]|[Hne Hc]]%lookup_insert_Some.
    + destruct F4 as [[-> ->]|(? & p & Hp & ->)]; [by left|right]. exists p. split; [|done].
      apply Hold; [lia|done].
    + destruct (F1 h c Hc) as (_ & _ & ?).
      destruct (F2 h c Hc) as [?|(p & Hp & ?)]; [by left|right]. exists p. split; [|done].
      apply Hold; [lia|done].
  - intros h c [[<- _]|[_ Hc]]%lookup_insert_Some; [lia|by apply F3].
  - destruct F4 as [?|(? & p & Hp & ?)]; [by left|right]. split; [done|]. exists p.
    split; [|done]. apply Hold; [lia|done].
  - intros h c Hc. destruct (F9 h c Hc) as (? & [?|(p & Hp & ?)]); (split; [done|]); [by left|right].
    exists p. split; [|done]. apply Hold; [lia|done].
  - intros x (h & c & ? & ? & ?)%F10. exists h, c. split_and!; [done|by apply Hold|done].
Qed.

(** A certificate that is not yet emitted is for the candidate at [next_height]. *)
Lemma frontier_uncertified L s h c :
  frontier L s → candidate s !! h = Some c → mc_hash c ∉ emitted_macro_qc s → h = next_height s.
Proof.
  intros HF Hc Hn. destruct (fr_candidate _ _ HF h c Hc) as (_ & _ & Hh).
  destruct (decide (h < next_height s)); [|lia]. by destruct Hn; apply (fr_done _ _ HF h).
Qed.

(** The two-chain rule adopts a candidate; what is adopted names its frozen parent. *)
Lemma frontier_chain L s c :
  frontier L s → candidate s !! mc_height c = Some c → frontier L (s <| two_chain ::= adopt c |>).
Proof.
  intros [F1 F2 F3 F4 F5 F6 F7 F8 F9 F10] Hc. split; try done.
  - intros h c'. change (adopted (adopt c (two_chain s)) !! h = Some c' → 0 ≤ h ≤ next_height s ∧
      (h = 0 ∨ ∃ p, candidate s !! (h - 1) = Some p ∧ mc_parent c' = mc_hash p)).
    rewrite adopted_adopt. intros [[<- <-]|[_ Hc']]%lookup_insert_Some; [|by apply F9].
    destruct (adopted (two_chain s) !! mc_height c) as [e|] eqn:He; [by apply F9|]. cbn [default].
    split; [by apply (F1 _ _ Hc)|]. destruct (F2 _ _ Hc) as [[? _]|?]; [by left|by right].
  - intros x. change (finalized_head (adopt c (two_chain s)) = Some x →
      ∃ h c, h < next_height s ∧ candidate s !! h = Some c ∧ mc_hash c = x).
    rewrite finalized_head_adopt. apply F10.
Qed.

(** What is finalized is the candidate below a head on top of it. *)
Lemma frontier_mark L s prev :
  frontier L s → newly_finalized_height (two_chain s) = Some prev →
  frontier L (s <| two_chain ::= mark_finalized prev |>).
Proof.
  intros [F1 F2 F3 F4 F5 F6 F7 F8 F9 F10] (prev_cp & head & Hp & Hh & _ & Hlink & _)%newly_finalized_links.
  split; try done.
  - intros h c. change (adopted (mark_finalized prev (two_chain s)) !! h = Some c →
      0 ≤ h ≤ next_height s ∧
      (h = 0 ∨ ∃ p, candidate s !! (h - 1) = Some p ∧ mc_parent c = mc_hash p)).
    rewrite adopted_mark. apply F9.
  - intros x. change (finalized_head (mark_finalized prev (two_chain s)) = Some x →
      ∃ h c, h < next_height s ∧ candidate s !! h = Some c ∧ mc_hash c = x).
    unfold mark_finalized. rewrite Hp. intros [= <-].
    destruct (F9 _ _ Hp) as [? _], (F9 _ _ Hh) as (? & [?|(p & Hc & ?)]); [lia|].
    exists prev, p. rewrite Z.add_simpl_r in Hc. split_and!; [lia|done|congruence].
Qed.

Lemma frontier_adopt L s h cand qc :
  frontier L s → candidate s !! h = Some cand → qc_checkpoint_hash qc = mc_hash cand →
  mc_hash cand ∉ emitted_macro_qc s →
  frontier L (record_adoption (h + 1) h (record_certificate cand qc s)).
Proof.
  intros HF Hc Hq Hn. pose proof (frontier_uncertified L s h cand HF Hc Hn) as ->.
  destruct (fr_candidate _ _ HF _ _ Hc) as (_ & Hh & _).
  destruct (frontier_chain L s cand HF ltac:(by rewrite Hh)) as [_ _ _ _ _ _ _ _ F9 F10].
  destruct HF as [F1 F2 F3 F4 F5 F6 F7 F8 _ _]. open_book s. destruct timers; cbn in *.
  assert (0 ≤ next) by (destruct F4 as [[-> _]|[? _]]; lia).
  split; cbn; try done.
  - intros h c Hhc. destruct (F1 h c Hhc) as (? & ? & ?). split_and!; [done..|lia|lia].
  - intros h c Hhc Hlt. rewrite Hq. destruct (decide (h = next)) as [->|].
    + rewrite Hc in Hhc. injection Hhc as <-. set_solver.
    + apply elem_of_union_r, (F3 h); [done|lia].
  - right. split; [lia|]. exists cand. by rewrite Z.add_simpl_r.
  - intros h id [Hne Hid]%lookup_delete_Some. by apply F5 in Hid.
  - intros h x Hx. destruct (F6 h x Hx). split; lia.
  - intros h c Hhc. destruct (F9 h c Hhc) as [? ?]. split; [lia|done].
  - intros x (h & c & ? & ?)%F10. exists h, c. split; [lia|done].
Qed.

(** A lock is granted at [next_height]. *)
Lemma frontier_lock L s x l :
  frontier L s → try_lock (mb_self_id s) (next_height s) x (locks s) = (Ok tt, l) →
  frontier ((next_height s, x) :: L) (s <| locks := l |>).
Proof.
  intros [F1 F2 F3 F4 F5 F6 F7 F8 F9 F10] Hl. open_book s.
  destruct (try_lock_cases self next x locks0)
    as [(p & _ & _ & Hl')|[Hcomp Hl']]; rewrite Hl' in Hl; [done|]. injection Hl as <-.
  assert (Hx : ∀ y, (next, y) ∈ L → y = x).
  { intros y Hy. by apply Hcomp, (F6 _ y Hy). }
  split; cbn; try done.
  - intros h y [[= -> ->]|Hy]%elem_of_cons; [split; [lia|by rewrite lookup_insert_eq]|].
    split; [by apply (F6 h y)|]. intros ->. by rewrite (Hx y Hy), lookup_insert_eq.
  - intros h y z [Hy|Hy]%elem_of_cons [Hz|Hz]%elem_of_cons; simplify_eq; [done|..].
    + by rewrite (Hx z Hz).
    + by rewrite (Hx y Hy).
    + by eapply F7.
  - intros r [? ?]%F8. split; [by right|done].
Qed.

Lemma votes_of_record v r b : votes_of (record v r b) v = votes_of b v ++ [r].
Proof. destruct b. unfold votes_of at 1. cbn. by rewrite lookup_insert_eq. Qed.

(** A vote is recorded for a granted lock; no scan finds it slashable. *)
Lemma frontier_vote L s h x sig :
  frontier L s → (h, x) ∈ L →
  frontier L (s <| votes ::= record (mb_self_id s) (MkVoteRecord (saturating_sub h 1) h x sig) |>).
Proof.
  intros [F1 F2 F3 F4 F5 F6 F7 F8 F9 F10] Hx. split; try done. intros r.
  set (v := MkVoteRecord (saturating_sub h 1) h x sig).
  change (r ∈ votes_of (record (mb_self_id s) v (votes s)) (mb_self_id s) →
    (vr_target r, vr_checkpoint r) ∈ L ∧ vr_source r = saturating_sub (vr_target r) 1).
  rewrite votes_of_record. intros [Hr| ->%list_elem_of_singleton]%elem_of_app; [by apply F8|done].
Qed.

Lemma newest_and_olds_elem l new olds :
  newest_and_olds l = Some (new, olds) → new ∈ l ∧ ∀ o, o ∈ olds → o ∈ l.
Proof.
  unfold newest_and_olds. case_bool_decide; [done|]. intros (n & Hn & [= -> <-])%bind_Some.
  split; [by apply list_elem_of_lookup_2 in Hn|]. intros o Ho.
  by apply (subseteq_take (length l - 1) l).
Qed.

Lemma frontier_scans L s :
  frontier L s →
  scan_for_surround (votes s) (mb_self_id s) = Ok None ∧
  scan_for_double_vote (votes s) (mb_self_id s) = Ok None.
Proof.
  intros HF. unfold scan_for_surround, scan_for_double_vote.
  destruct (newest_and_olds _) as [[new olds]|] eqn:Hno; [|done].
  apply newest_and_olds_elem in Hno as [Hnew Holds]. apply (fr_votes _ _ HF) in Hnew as [Hn Hsn].
  split; f_equal; apply eq_None_not_Some.
  - intros (o & Ho & Hc)%surround_loop_Some. apply Holds, (fr_votes _ _ HF) in Ho as [_ Hso].
    unfold conflict, surrounds_vote, surrounds, saturating_sub in *. rewrite Hsn, Hso in Hc. lia.
  - intros (o & Ho & Ht & Hne)%double_vote_loop_Some.
    apply Holds, (fr_votes _ _ HF) in Ho as [Ho _]. rewrite Ht in Ho.
    by apply Hne, (fr_once _ _ HF (vr_target new)).
Qed.
End steps.

(** ** The handlers *)

(** What an action swears to: a partial signature is for a candidate whose lock was granted, and
    no vote is reported slashable. *)
Definition sworn (L : list (Z * Hash32)) (s : MacroBook) (a : Action) : Prop :=
  match a with
  | BroadcastBlsPartial bp => bp_validator bp = mb_self_id s ∧
      ∃ h c, candidate s !! h = Some c ∧ mc_hash c = bp_checkpoint_hash bp ∧ (h, mc_hash c) ∈ L
  | EmitSlashEvidence _ (SE_Surround _) | EmitSlashEvidence _ (SE_DoubleVote _) => False
  | _ => True
  end.

Section handlers.
Context `{Build, Primitives, MacroBorsh}.
Abbreviation MF := (M Error MacroBook).

(** A call on the way: the front holds for [L], and [P] of the result, if any. *)
Definition fronted {A} (L : list (Z * Hash32)) (self : ValidatorId) (P : A → Prop)
    (r : result A) (s' : MacroBook) : Prop :=
  frontier L s' ∧ mb_self_id s' = self ∧ match r with Ok a => P a | _ => True end.
(** A handler: locks are added, and what it answers is sworn. *)
Definition onward (L : list (Z * Hash32)) (self : ValidatorId) (r : result Actions)
    (s' : MacroBook) : Prop :=
  ∃ L', L ⊆ L' ∧ frontier L' s' ∧ mb_self_id s' = self ∧ Forall (sworn L' s') (said_by r).

Lemma unsworn_sworn L s acts : unsworn acts → Forall (sworn L s) acts.
Proof. intros Ha. apply (Forall_impl _ _ _ Ha). intros []; try done. by destruct evidence. Qed.

Lemma fronted_onward L self r s' : fronted L self unsworn r s' → onward L self r s'.
Proof.
  intros (HF & Hs & Hr). exists L. split_and!; [done..|]. apply unsworn_sworn.
  destruct r; [done|apply unsworn_nil..].
Qed.
Lemma still_fronted {A} (P : A → Prop) L self s r s' :
  frontier L s → mb_self_id s = self → still P s r s' → fronted L self P r s'.
Proof.
  intros HF Hs [Hf Hr]. split_and!; [by apply (frontier_front L s)| |done].
  by injection Hf as ->.
Qed.

Lemma fronted_bind {A B} (m : MF A) (f : A → MF B) (P : A → Prop) (Q : B → Prop) L self s :
  wp m (fronted L self P) s →
  (∀ a s', frontier L s' → mb_self_id s' = self → P a → wp (f a) (fronted L self Q) s') →
  wp (m ≫= f) (fronted L self Q) s.
Proof.
  intros Hm Hf. apply wp_bind. eapply wp_mono; [|exact Hm].
  intros r s' (HF & Hs & Hr). destruct r; [by apply Hf|by split_and!..].
Qed.
Lemma onward_bind {A} (m : MF A) (f : A → MF Actions) (P : A → Prop) L self s :
  wp m (fronted L self P) s →
  (∀ a s', frontier L s' → mb_self_id s' = self → P a → wp (f a) (onward L self) s') →
  wp (m ≫= f) (onward L self) s.
Proof.
  intros Hm Hf. apply wp_bind. eapply wp_mono; [|exact Hm].
  intros r s' (HF & Hs & Hr).
  destruct r; [by apply Hf|by apply fronted_onward; split_and!..].
Qed.
Lemma onward_lift {A} (m : result A) (f : A → MF Actions) L self s :
  frontier L s → mb_self_id s = self →
  (∀ a, m = Ok a → wp (f a) (onward L self) s) → wp (lift m ≫= f) (onward L self) s.
Proof.
  intros HF Hs Hf. apply wp_bind, wp_lift.
  destruct m; [by apply Hf|by apply fronted_onward; split_and!..].
Qed.
Lemma onward_ret acts L self s :
  frontier L s → mb_self_id s = self → unsworn acts → wp (mret acts) (onward L self) s.
Proof. intros HF Hs Ha. apply wp_ret, fronted_onward. by split_and!. Qed.

(** The candidates of the ring *)
Lemma mode_b_action_fronted cfg h L s :
  frontier L s → h = next_height s →
  wp (zoom mb_timers (mode_b_deadline_action cfg h))
    (fronted L (mb_self_id s) (λ a, oath a = false)) s.
Proof.
  intros [F1 F2 F3 F4 F5 F6 F7 F8 F9 F10] ->. apply wp_zoom. open_book s. destruct timers as [seq bk mb].
  unfold mode_b_deadline_action, alloc_id, mbind, M_bind, zoom. cbn in *.
  destruct (allocate seq) as [[id| | |] t]; cbn; (split; [|done]).
  2-4: by split.
  split; cbn; try done. intros h id' [[<- _]|[_ ?]]%lookup_insert_Some; [done|by eapply F5].
Qed.

Lemma fronted_when (b : bool) (m : MF Action) L self s :
  frontier L s → mb_self_id s = self →
  (frontier L s → wp m (fronted L self (λ a, oath a = false)) s) →
  wp (if b then a ← m; mret [a] else mret []) (fronted L self unsworn) s.
Proof.
  intros HF Hs Hm. destruct b; [|apply wp_ret; split_and!; [done..|apply unsworn_nil]].
  eapply fronted_bind; [by apply Hm|]. intros a s' HF' Hs' Ha. apply wp_ret.
  split_and!; [done..|by apply unsworn_one].
Qed.

Lemma build_candidate_fronted cfg ctx set L s :
  frontier L s → wp (build_candidate cfg ctx set) (fronted L (mb_self_id s) unsworn) s.
Proof.
  intros HF. unfold build_candidate. apply wp_bind, wp_gets. unfold id.
  apply wp_bind, wp_modify. pose proof (frontier_build L s (micro_root_of_ring (micro_ring s)) HF) as HF1.
  set (s1 := s <| micro_ring := [] |> <| candidate ::= _ |>) in *.
  apply wp_bind, wp_lift. destruct (beacon_current ctx) as [beacon| | |]; [|by split_and!..].
  apply wp_bind, wp_modify. set (s2 := s1 <| candidate_beacon ::= _ |>).
  assert (HF2 : frontier L s2) by (by apply (frontier_front L s1)).
  apply wp_bind, wp_lift. destruct (vrf_sortition _ _ _ _) as [schedule| | |]; [|by split_and!..].
  apply wp_bind. eapply (wp_mono _ (still unsworn s2)).
  2: { case_bool_decide; [apply still_sign_proposal|]. case_bool_decide.
       - assert (front s2 = front s2) by done. still_step. still_step. by apply unsworn_one.
       - by apply wp_ret; split; [|apply unsworn_nil]. }
  intros r s3 [Hf3 Hr]. assert (HF3 : frontier L s3) by by apply (frontier_front L s2).
  assert (Hs3 : mb_self_id s3 = mb_self_id s) by by injection Hf3 as ->.
  assert (Hn3 : next_height s3 = next_height s) by by injection Hf3 as _ ->.
  destruct r as [acts| | |]; [|by split_and!..].
  eapply fronted_bind; [apply fronted_when; [done..|]|].
  { intros _. rewrite <- Hs3. by apply mode_b_action_fronted. }
  intros acts' s4 HF4 Hs4 Ha. apply wp_ret. split_and!; [done..|by apply unsworn_app].
Qed.

Lemma push_micro_hashes_fronted cfg ctx set hashes L self s :
  frontier L s → mb_self_id s = self →
  wp (push_micro_hashes cfg ctx set hashes) (fronted L self unsworn) s.
Proof.
  revert s. induction hashes as [|h hashes IH]; intros s HF Hs; cbn [push_micro_hashes].
  { apply wp_ret. split_and!; [done..|apply unsworn_nil]. }
  eapply (fronted_bind _ _ (λ _, True)).
  { by apply (still_fronted _ L self s); [..|apply still_modify]. }
  intros [] s1 HF1 Hs1 _. apply wp_bind, wp_gets.
  eapply fronted_bind.
  { destruct (_ <? _); [apply wp_ret; by split_and!; [..|apply unsworn_nil]|].
    rewrite <- Hs1. by apply build_candidate_fronted. }
  intros acts s2 HF2 Hs2 Ha. eapply fronted_bind; [by apply IH|].
  intros rest s3 HF3 Hs3 Hr. apply wp_ret. split_and!; [done..|by apply unsworn_app].
Qed.

Lemma micro_onward cfg ctx qcs L self s :
  frontier L s → mb_self_id s = self →
  wp (on_local_micro_qcs cfg ctx (BroadcastMicroQc <$> qcs)) (onward L self) s.
Proof.
  intros HF Hs. unfold on_local_micro_qcs.
  assert (Hq : unsworn (BroadcastMicroQc <$> qcs)) by (apply Forall_fmap, Forall_true; done).
  case_bool_decide; [by apply onward_ret|]. apply onward_lift; [done..|intros set _].
  eapply onward_bind; [by apply push_micro_hashes_fronted|].
  intros acts s1 HF1 Hs1 Ha. apply onward_ret; [done..|by apply unsworn_app].
Qed.

Lemma finality_tail_fronted cfg L self s :
  frontier L s → mb_self_id s = self → wp (finality_tail cfg) (fronted L self unsworn) s.
Proof.
  intros HF Hs. unfold finality_tail. apply wp_bind, wp_gets.
  set (fin := newly_finalized_height (two_chain s)). apply wp_bind.
  eapply wp_mono; [|apply still_note_leak]. intros r s1 [Hf Hr].
  pose proof (frontier_front L s s1 Hf HF) as HF1.
  assert (Hs1 : mb_self_id s1 = self) by (rewrite <- Hs; by injection Hf as ->).
  assert (Ht1 : two_chain s1 = two_chain s) by by injection Hf.
  destruct r as [leak| | |]; [|by split_and!..].
  destruct fin as [prev|] eqn:Hfin; [|by apply wp_ret; split_and!]. subst fin. rewrite <- Ht1 in Hfin.
  apply wp_bind, wp_modify. pose proof (frontier_mark L s1 prev HF1 Hfin) as HF2.
  set (s2 := s1 <| two_chain ::= _ |>) in *. apply wp_bind, wp_gets, wp_ret.
  split_and!; [done..|]. apply unsworn_app; [done|]. destruct (candidate s2 !! prev); auto with still.
Qed.

(** Adoption of an uncertified candidate *)
Lemma adopt_fronted cfg h cand qc signers L self s :
  next_height s + 1 < 2 ^ 64 → frontier L s → mb_self_id s = self →
  candidate s !! h = Some cand → qc_checkpoint_hash qc = mc_hash cand →
  mc_hash cand ∉ emitted_macro_qc s →
  wp (adopt_macro_qc cfg h cand qc signers) (fronted L self unsworn) s.
Proof.
  intros Hroom HF Hs Hc Hq Hn. unfold adopt_macro_qc. apply wp_bind, wp_modify, wp_bind, wp_lift.
  pose proof (frontier_uncertified L s h cand HF Hc Hn) as Hh.
  destruct (fr_candidate _ _ HF _ _ Hc) as (_ & _ & ?).
  rewrite add_w_ok by (unfold uint_ok; lia).
  apply wp_bind, wp_modify. pose proof (frontier_adopt L s h cand qc HF Hc Hq Hn) as HF1.
  set (s1 := record_adoption _ _ _) in *. assert (Hs1 : mb_self_id s1 = self) by done.
  eapply (fronted_bind _ _ (λ _, True)).
  { eapply wp_mono; [|apply still_bump_reputation]. intros r s' Hst.
    by apply (still_fronted (λ _, True) L self s1). }
  intros [] s2 HF2 Hs2 _. eapply (fronted_bind _ _ unsworn); [by apply finality_tail_fronted|].
  intros tail s3 HF3 Hs3 Ht. apply wp_ret. split_and!; [done..|].
  by repeat (apply Forall_cons; split; [done|]).
Qed.

Lemma finish_onward cfg h cand qc signers L self s :
  next_height s + 1 < 2 ^ 64 → frontier L s → mb_self_id s = self →
  candidate s !! h = Some cand → qc_checkpoint_hash qc = mc_hash cand →
  mc_hash cand ∉ emitted_macro_qc s →
  wp (finish_macro_qc_adoption cfg h cand qc signers) (onward L self) s.
Proof.
  intros Hroom HF Hs Hc Hq Hn. eapply onward_bind; [by apply adopt_fronted|].
  intros acts s1 HF1 Hs1 Ha. apply onward_ret; [done..|]. by apply Forall_cons.
Qed.

(** *** Certificates *)
Lemma try_emit_mode_a_onward cfg hash h ctx L self s :
  next_height s + 1 < 2 ^ 64 → frontier L s → mb_self_id s = self →
  (∀ c, candidate s !! h = Some c → mc_hash c = hash) →
  wp (try_emit_mode_a_qc cfg hash h ctx) (onward L self) s.
Proof.
  intros Hroom HF Hs Hh. assert (Hnil : wp (mret [] : MF Actions) (onward L self) s)
    by (apply onward_ret; [done..|apply unsworn_nil]).
  unfold try_emit_mode_a_qc. apply onward_lift; [done..|intros set _].
  apply wp_bind, wp_gets. case_bool_decide; [done|]. apply wp_bind, wp_gets. unfold id.
  do 2 (apply onward_lift; [done..|intros ? _]). case_bool_decide; [done|].
  destruct (try_finalize_mode_a_from_aggs _ _ _ _) as [qc|] eqn:Hqc; [|done].
  apply try_finalize_mode_a_hash in Hqc. case_bool_decide as Hnew; [done|].
  destruct (candidate s !! h) as [cand|] eqn:Hc.
  - pose proof (Hh cand eq_refl) as <-. by apply finish_onward.
  - apply fronted_onward. by split_and!.
Qed.

Lemma partial_flat_onward cfg bp set h mode L self s :
  next_height s + 1 < 2 ^ 64 → frontier L s → mb_self_id s = self →
  (∀ c, candidate s !! h = Some c → mc_hash c = bp_checkpoint_hash bp) →
  bp_checkpoint_hash bp ∉ emitted_macro_qc s →
  wp (on_partial_flat cfg bp set h mode) (onward L self) s.
Proof.
  intros Hroom HF Hs Hh Hnew. unfold on_partial_flat.
  destruct (_ && _); [apply onward_ret; [done..|apply unsworn_nil]|].
  apply wp_bind, wp_modify. set (s1 := add_partial _ _ s).
  assert (HF1 : frontier L s1) by by apply (frontier_front L s).
  assert (Hnil : wp (mret [] : MF Actions) (onward L self) s1)
    by (apply onward_ret; [done..|apply unsworn_nil]).
  apply wp_bind, wp_gets. unfold id. destruct (negb _); [done|].
  change (candidate s1 !! h) with (candidate s !! h).
  destruct (candidate s !! h) as [cand|] eqn:Hc; [|by apply fronted_onward; split_and!].
  pose proof (Hh cand eq_refl) as Heq. rewrite <- Heq in *. case_bool_decide.
  - destruct (try_finalize_mode_b _ _ _ _ _) as [qc|] eqn:Hqc; [|done].
    apply try_finalize_mode_b_hash in Hqc. by apply finish_onward.
  - destruct (try_finalize_mode0 _ _ _ _ _) as [qc|] eqn:Hqc; [|done].
    apply try_finalize_mode0_hash in Hqc. by apply finish_onward.
Qed.

Lemma onward_app (m : MF Actions) acts L self s :
  unsworn acts → wp m (onward L self) s →
  wp (extra ← m; mret (acts ++ extra)) (onward L self) s.
Proof.
  intros Ha Hm. apply wp_bind. eapply wp_mono; [|exact Hm].
  intros r s' (L' & HL & HF & Hs & Hr). destruct r; cbn [said_by] in Hr.
  - apply wp_ret. exists L'. split_and!; [done..|]. apply Forall_app. split; [|done].
    by apply unsworn_sworn.
  - by exists L'.
  - by exists L'.
  - by exists L'.
Qed.

Lemma partial_mode_a_onward cfg bp ctx set beacon h assign L self s :
  next_height s + 1 < 2 ^ 64 → frontier L s → mb_self_id s = self →
  (∀ c, candidate s !! h = Some c → mc_hash c = bp_checkpoint_hash bp) →
  wp (on_partial_mode_a cfg bp ctx set beacon h assign) (onward L self) s.
Proof.
  intros Hroom HF Hs Hh. unfold on_partial_mode_a.
  apply wp_bind, wp_modify, wp_bind, wp_modify. set (s1 := add_partial _ _ _).
  assert (HF1 : frontier L s1) by by apply (frontier_front L s).
  apply wp_bind, wp_gets. unfold id. apply onward_lift; [done..|intros schedule _].
  case_bool_decide; [|apply onward_ret; [done..|apply unsworn_subnet_aggregate]].
  apply onward_app; [apply unsworn_subnet_aggregate|]. by apply try_emit_mode_a_onward.
Qed.

Lemma rejected_onward L self s :
  frontier L s → mb_self_id s = self →
  wp (_ ← reject_crypto; mret []) (onward L self) s.
Proof.
  intros HF Hs. eapply (onward_bind _ _ (λ _, True)).
  { eapply wp_mono; [|apply still_reject]. intros r s' Hst. by eapply still_fronted. }
  intros [] s1 HF1 Hs1 _. apply onward_ret; [done..|apply unsworn_nil].
Qed.

Lemma bls_partial_onward cfg bp ctx L self s :
  next_height s + 1 < 2 ^ 64 → frontier L s → mb_self_id s = self → wp (on_bls_partial cfg bp ctx) (onward L self) s.
Proof.
  intros Hroom HF Hs. unfold on_bls_partial. apply wp_bind, wp_gets. unfold id.
  destruct (find_candidate s _) as [[h c]|] eqn:Hf; [|apply onward_ret; [done..|apply unsworn_nil]].
  apply find_candidate_Some in Hf as [Hc Hh]. apply onward_lift; [done..|intros set _].
  rewrite Hc. destruct (negb _); [by apply rejected_onward|]. apply wp_bind, wp_modify.
  set (s1 := s <| partial_sigs ::= _ |>).
  assert (HF1 : frontier L s1) by by apply (frontier_front L s).
  case_bool_decide; [apply onward_ret; [done..|apply unsworn_nil]|].
  do 3 (apply onward_lift; [done..|intros ? _]).
  assert (Hh1 : ∀ c', candidate s1 !! h = Some c' → mc_hash c' = bp_checkpoint_hash bp).
  { intros c'. change (candidate s1 !! h) with (candidate s !! h). rewrite Hc. by intros [= <-]. }
  match goal with |- wp (match ?m with _ => _ end) _ _ => destruct m end;
    [by apply partial_flat_onward|by apply partial_mode_a_onward|by apply partial_flat_onward].
Qed.

Lemma macro_qc_onward cfg qc ctx L self s :
  next_height s + 1 < 2 ^ 64 → frontier L s → mb_self_id s = self → wp (on_macro_qc_received cfg qc ctx) (onward L self) s.
Proof.
  intros Hroom HF Hs. assert (Hnil : wp (mret [] : MF Actions) (onward L self) s)
    by (apply onward_ret; [done..|apply unsworn_nil]).
  unfold on_macro_qc_received. apply wp_bind, wp_gets. unfold id.
  case_bool_decide as Hnew; [done|]. apply onward_lift; [done..|intros set _].
  destruct (find_candidate s _) as [[h c]|] eqn:Hf; [|done].
  apply find_candidate_Some in Hf as [Hc Hh]. rewrite Hc.
  destruct (negb _); [by apply rejected_onward|]. rewrite <- Hh in Hnew.
  eapply wp_mono; [|by apply adopt_fronted]. intros r s'. apply fronted_onward.
Qed.

Lemma subnet_aggregate_onward cfg agg ctx L self s :
  next_height s + 1 < 2 ^ 64 → frontier L s → mb_self_id s = self → wp (on_subnet_aggregate cfg agg ctx) (onward L self) s.
Proof.
  intros Hroom HF Hs. unfold on_subnet_aggregate. apply wp_bind, wp_gets. unfold id.
  destruct (find_candidate s _) as [[h c]|] eqn:Hf; [|apply onward_ret; [done..|apply unsworn_nil]].
  apply find_candidate_Some in Hf as [Hc Hh]. apply onward_lift; [done..|intros set _].
  destruct (negb _); [by apply rejected_onward|]. apply wp_bind, wp_modify.
  set (s1 := s <| subnet_aggs ::= _ |>).
  assert (HF1 : frontier L s1) by by apply (frontier_front L s).
  apply try_emit_mode_a_onward; [done..|]. intros c'.
  change (candidate s1 !! h) with (candidate s !! h). rewrite Hc. by intros [= <-].
Qed.

(** *** Votes *)

(** A lock granted on the candidate at [next_height] *)
Definition locked_on (L : list (Z * Hash32)) (self : ValidatorId) (c : MacroCheckpoint)
    (s : MacroBook) : Prop :=
  frontier L s ∧ mb_self_id s = self ∧ candidate s !! mc_height c = Some c ∧
  (mc_height c, mc_hash c) ∈ L.

Lemma locked_on_front L self c s s' : front s' = front s → locked_on L self c s → locked_on L self c s'.
Proof.
  intros Hf (HF & Hs & Hc & Hl). split; [by apply (frontier_front L s)|].
  injection Hf as -> _ _ -> _ _ _ _ _. done.
Qed.
Lemma locked_on_chain L self c s :
  locked_on L self c s → locked_on L self c (s <| two_chain ::= adopt c |>).
Proof. intros (HF & Hs & Hc & Hl). split; [by apply frontier_chain|done]. Qed.
Lemma locked_on_onward L L' self c r s :
  L' ⊆ L → locked_on L self c s → Forall (sworn L s) (said_by r) → onward L' self r s.
Proof. intros HL (HF & Hs & _) Hr. by exists L. Qed.

Lemma sign_partial_spec ctx c subnet L self s :
  locked_on L self c s →
  wp (sign_partial ctx c subnet) (λ r s',
    locked_on L self c s' ∧ Forall (sworn L s') (said_by r)) s.
Proof.
  intros Hl. unfold sign_partial. apply wp_bind, wp_gets, wp_bind, wp_lift.
  destruct (sign_bls _ _ _) as [sig| | |]; [|by split; [|constructor]..].
  apply wp_bind, wp_modify, wp_ret. set (s1 := s <| partial_sigs ::= _ |>).
  assert (Hl1 : locked_on L self c s1) by by apply (locked_on_front L self c s).
  split; [done|]. destruct Hl1 as (_ & _ & Hc & HL). constructor; [|constructor].
  split; [done|]. by exists (mc_height c), c.
Qed.

Lemma cast_vote_spec ctx c L self s :
  locked_on L self c s →
  wp (cast_vote ctx c) (λ r s', locked_on L self c s' ∧ said_by r = []) s.
Proof.
  intros (HF & Hs & Hc & HL). unfold cast_vote. apply wp_bind, wp_gets, wp_bind, wp_lift.
  destruct (sign_bls _ _ _) as [sig| | |]; [|by split..].
  apply wp_bind, wp_modify.
  pose proof (frontier_vote L s (mc_height c) (mc_hash c) sig HF HL) as HF1.
  set (s1 := s <| votes ::= _ |>) in *. destruct (frontier_scans L s1 HF1) as [Hsur Hdbl].
  change (mb_self_id s1) with (mb_self_id s) in Hsur, Hdbl.
  apply wp_bind, wp_gets, wp_bind, wp_lift. rewrite Hsur. apply wp_bind, wp_lift. rewrite Hdbl.
  by apply wp_ret.
Qed.

Lemma accept_proposal_onward cfg ctx set beacon mode c L L' self s :
  L' ⊆ L → locked_on L self c s →
  wp (accept_proposal cfg ctx set beacon mode c) (onward L' self) s.
Proof.
  intros HL Hl. unfold accept_proposal. apply wp_bind, wp_gets, wp_bind, wp_modify.
  match goal with |- wp _ _ ?t => set (s1 := t) end.
  assert (Hl1 : locked_on L self c s1).
  { apply (locked_on_front L self c (s <| two_chain ::= adopt c |>)); [|by apply locked_on_chain].
    destruct Hl as (_ & _ & Hc & _).
    change (front s1) with (mb_self_id s, next_height s, last_macro_hash s,
      <[mc_height c := c]> (candidate s), emitted_macro_qc s, mode_b_by_height (mb_timers s),
      locks s, votes s, adopt c (two_chain s)). by rewrite insert_id. }
  apply wp_bind, wp_modify. set (s2 := add_partial _ _ s1).
  assert (Hl2 : locked_on L self c s2) by by apply (locked_on_front L self c s1).
  apply wp_bind. eapply wp_mono; [|by apply cast_vote_spec].
  intros r s3 [Hl3 Hr]. destruct r as [acts| | |]; cbn in Hr; [subst acts|..].
  2-4: by apply (locked_on_onward L L' self c).
  apply wp_bind, wp_lift. destruct (subnet_assign _ _ _) as [assign| | |].
  2-4: by apply (locked_on_onward L L' self c).
  apply wp_bind. eapply wp_mono; [|by apply sign_partial_spec].
  intros r s4 [Hl4 Hr]. destruct r as [partial| | |]; cbn [said_by] in Hr.
  2-4: by apply (locked_on_onward L L' self c).
  case_bool_decide.
  - apply wp_bind, wp_modify, wp_bind, wp_gets, wp_ret.
    match goal with |- onward _ _ _ ?t => set (s5 := t) end.
    assert (Hl5 : locked_on L self c s5) by by apply (locked_on_front L self c s4).
    apply (locked_on_onward L L' self c); [done..|]. cbn [said_by app].
    apply Forall_app. split; [done|]. apply Forall_cons. split; [done|].
    apply unsworn_sworn, unsworn_subnet_aggregate.
  - apply wp_ret, (locked_on_onward L L' self c); [done..|]. cbn [said_by app].
    apply Forall_app. split; [done|]. by repeat constructor.
Qed.

Lemma granted_lock L self s c l :
  frontier L s → mb_self_id s = self → candidate s !! mc_height c = Some c →
  mc_height c = next_height s → try_lock self (mc_height c) (mc_hash c) (locks s) = (Ok tt, l) →
  locked_on ((mc_height c, mc_hash c) :: L) self c (s <| locks := l |>).
Proof.
  intros HF <- Hc Hh Hl. split_and!; [|done|done|by left]. rewrite Hh in Hl |- *.
  by apply frontier_lock.
Qed.

(** A candidate on top of the last adopted checkpoint is the one at [next_height]. *)
Lemma frontier_current L s cs h c :
  frontier L s → no_collision cs → (∀ h c, candidate s !! h = Some c → c ∈ cs) →
  candidate s !! h = Some c → mc_parent c = last_macro_hash s → h = next_height s.
Proof.
  intros [F1 F2 F3 F4 F5 F6 F7 F8 F9 F10] Hno Hcs Hc Hp. unfold no_collision in Hno.
  rewrite Forall_forall in Hno.
  assert (Hz : ∀ h c, candidate s !! h = Some c → mc_hash c ≠ Hash32_zero).
  { intros h' c' Hc'. by apply (Hno c'), (Hcs h'). }
  destruct (F2 h c Hc) as [[-> Hpz]|(p & Hcp & Hpp)], F4 as [[Hn Hl]|(Hn & q & Hcq & Hl)].
  - done.
  - apply Hz in Hcq. congruence.
  - apply Hz in Hcp. congruence.
  - destruct (Hno p (Hcs _ _ Hcp)) as [_ Hall]. rewrite Forall_forall in Hall.
    destruct (F1 _ _ Hcp) as (Gp & Hhp & _), (F1 _ _ Hcq) as (Gq & Hhq & _).
    specialize (Hall q (Hcs _ _ Hcq) Gp Gq ltac:(congruence)). subst q. lia.
Qed.

Lemma consider_proposal_onward cfg p ctx set beacon cs L self s :
  frontier L s → mb_self_id s = self → genuine (mp_checkpoint p) → no_collision cs →
  (∀ h c, candidate s !! h = Some c → c ∈ cs) → mp_checkpoint p ∈ cs →
  wp (consider_proposal cfg p ctx set beacon) (onward L self) s.
Proof.
  intros HF Hs Hg Hno Hcs Hp. assert (Hnil : wp (mret [] : MF Actions) (onward L self) s)
    by (apply onward_ret; [done..|apply unsworn_nil]).
  unfold consider_proposal. apply wp_bind, wp_gets. unfold id.
  do 2 (apply onward_lift; [done..|intros ? _]).
  destruct (_ && _ && _); [done|]. case_bool_decide as Hpar; [done|].
  destruct (candidate s !! _) as [c|] eqn:Hc; [|done].
  destruct (negb _) eqn:Hsame; [done|].
  apply negb_false_iff, andb_true_iff in Hsame as [_ Heq%bool_decide_eq_true].
  assert (c = mp_checkpoint p) as ->.
  { pose proof Hno as Hno'. unfold no_collision in Hno'. rewrite Forall_forall in Hno'.
    destruct (Hno' c (Hcs _ _ Hc)) as [_ Hall]. rewrite Forall_forall in Hall.
    destruct (fr_candidate _ _ HF _ _ Hc) as (Gc & _). by apply Hall. }
  pose proof (frontier_current L s cs _ _ HF Hno Hcs Hc Hpar) as Hh.
  destruct (try_lock _ _ _ _) as [res l] eqn:Hl. destruct (is_ok res) eqn:Hok.
  - apply is_ok_true in Hok as [[] ->]. rewrite Hs in Hl.
    pose proof (granted_lock L self s _ l HF Hs Hc Hh Hl) as Hlk.
    apply wp_bind, wp_modify. eapply accept_proposal_onward; [|done]. by right.
  - apply wp_bind, wp_modify. apply onward_ret; [|done|apply unsworn_nil].
    by apply (frontier_front L s).
Qed.

Lemma macro_proposal_onward cfg p ctx L s :
  frontier L s → genuine (mp_checkpoint p) → no_collision (at_hand s (MC_proposal p, ctx)) →
  wp (on_macro_proposal cfg p ctx) (onward L (mb_self_id s)) s.
Proof.
  intros HF Hg Hno. unfold on_macro_proposal. apply onward_lift; [done..|intros set _].
  apply wp_bind, wp_gets, wp_bind. eapply (wp_mono _ (still (λ _, True) s)).
  2: { case_bool_decide; [|by apply wp_ret]. apply wp_bind, wp_lift.
       destruct (beacon_current ctx) as [b| | |]; [|by split..]. by apply still_modify. }
  intros r s1 [Hf _]. pose proof (frontier_front L s s1 Hf HF) as HF1.
  assert (Hs1 : mb_self_id s1 = mb_self_id s) by by injection Hf as ->.
  assert (Hc1 : candidate s1 = candidate s) by by injection Hf as _ _ _ -> _ _ _ _ _.
  destruct r as [[]| | |]; [|by apply fronted_onward; split_and!..].
  apply wp_bind, wp_gets. unfold id. apply onward_lift; [done..|intros beacon _].
  destruct (negb _); [by apply rejected_onward|].
  destruct (any_conflicting _ _).
  { destruct (default _ _); [by apply fronted_onward; split_and!|].
    apply onward_ret; [done..|by apply unsworn_one]. }
  destruct (any_same _ _); [apply onward_ret; [done..|apply unsworn_nil]|].
  apply wp_bind, wp_modify. set (s2 := s1 <| mb_proposals_seen ::= _ |>).
  assert (HF2 : frontier L s2) by by apply (frontier_front L s1).
  apply (consider_proposal_onward cfg p ctx set beacon (at_hand s (MC_proposal p, ctx))); try done.
  - intros h c. change (candidate s2) with (candidate s1). rewrite Hc1.
    intros Hc. apply elem_of_app. left. by apply (elem_of_candidates s h).
  - apply elem_of_app. right. by left.
Qed.

Lemma backup_timer_onward ctx h L self s :
  frontier L s → mb_self_id s = self → wp (on_backup_timer ctx h) (onward L self) s.
Proof.
  intros HF Hs. unfold on_backup_timer. apply wp_bind, wp_modify.
  set (s1 := s <| mb_timers ::= clear_backup h |>).
  assert (HF1 : frontier L s1) by by apply (frontier_front L s).
  assert (Hnil : wp (mret [] : MF Actions) (onward L self) s1)
    by (apply onward_ret; [done..|apply unsworn_nil]).
  apply wp_bind, wp_gets. unfold id. case_bool_decide; [done|].
  destruct (candidate s1 !! h); [|done].
  do 3 (apply onward_lift; [done..|intros ? _]). case_bool_decide; [|done].
  eapply wp_mono; [|apply still_sign_proposal]. intros r s' Hst.
  by apply fronted_onward, (still_fronted _ L self s1).
Qed.

Lemma mode_b_timer_onward cfg ctx L self s :
  frontier L s → mb_self_id s = self →
  wp (on_mode_b_timer cfg ctx (next_height s)) (onward L self) s.
Proof.
  intros HF Hs. unfold on_mode_b_timer. apply wp_bind, wp_modify.
  set (h := next_height s). set (s1 := s <| mb_timers ::= clear_mode_b h |>).
  assert (HF1 : frontier L s1).
  { destruct HF as [F1 F2 F3 F4 F5 F6 F7 F8 F9 F10]. split; try done. intros h' id.
    change (delete h (mode_b_by_height (mb_timers s)) !! h' = Some id → h' = next_height s).
    by intros [_ ?%F5]%lookup_delete_Some. }
  apply wp_bind, wp_gets. unfold id. apply wp_bind. eapply (wp_mono _ (still (λ _, True) s1)).
  2: { match goal with |- wp (if ?b then _ else _) _ _ => destruct b end; [by apply wp_ret|].
       by apply still_modify. }
  intros r s2 [Hf _]. pose proof (frontier_front L s1 s2 Hf HF1) as HF2.
  assert (Hs2 : mb_self_id s2 = self) by (rewrite <- Hs; by injection Hf as ->).
  assert (Hn2 : next_height s2 = h) by by injection Hf as _ ->.
  destruct r as [[]| | |]; [|by apply fronted_onward; split_and!..].
  assert (Hnil : wp (mret [] : MF Actions) (onward L self) s2)
    by (apply onward_ret; [done..|apply unsworn_nil]).
  apply wp_bind, wp_gets. unfold id.
  destruct (candidate s2 !! h) as [c|] eqn:Hc; [|done]. case_bool_decide; [|done].
  destruct (fr_candidate _ _ HF2 h c Hc) as (_ & Hh & _).
  destruct (try_lock _ _ _ _) as [res l] eqn:Hl. destruct (is_ok res) eqn:Hok; [|done].
  apply is_ok_true in Hok as [[] ->]. rewrite Hs2, <- Hh in Hl. rewrite <- Hh in Hc.
  assert (Hlk : locked_on ((mc_height c, mc_hash c) :: L) self c (s2 <| locks := l |>)).
  { apply granted_lock; [done..|congruence|done]. }
  assert (HL : L ⊆ (mc_height c, mc_hash c) :: L) by by right.
  apply wp_bind, wp_modify. set (s3 := s2 <| locks := l |>) in *.
  assert (Hlift : ∀ {A} (m : result A) f t, locked_on ((mc_height c, mc_hash c) :: L) self c t →
    (∀ a, wp (f a) (onward L self) t) → wp (lift m ≫= f) (onward L self) t).
  { intros A m f t Ht Hk. apply wp_bind, wp_lift. destruct m; [by apply Hk|..];
      by apply (locked_on_onward _ L self c _ t HL). }
  do 3 (apply Hlift; [done|intros ?]). apply wp_bind, wp_modify. set (s4 := add_partial _ _ s3).
  assert (Hl4 : locked_on ((mc_height c, mc_hash c) :: L) self c s4)
    by by apply (locked_on_front _ self c s3).
  apply Hlift; [done|intros mode]. eapply wp_mono; [|by apply sign_partial_spec].
  intros r s5 [Hl5 Hr]. by eapply locked_on_onward.
Qed.

Lemma timer_onward cfg ctx id L self s :
  frontier L s → mb_self_id s = self →
  wp (macro_on_timer_fired cfg ctx id []) (onward L self) s.
Proof.
  intros HF Hs. unfold macro_on_timer_fired. apply wp_bind, wp_gets.
  destruct (height_for_backup_timer _ _) as [h|].
  { apply onward_app; [apply unsworn_nil|by apply backup_timer_onward]. }
  destruct (height_for_mode_b_timer _ _) as [h|] eqn:Hh.
  2: { by apply onward_ret; [..|apply unsworn_nil]. }
  assert (h = next_height s) as ->.
  { unfold height_for_mode_b_timer, height_for_timer in Hh.
    apply fmap_Some in Hh as ([i [h' id']] & (Hl & _)%list_find_Some & ->).
    apply list_elem_of_lookup_2, elem_of_map_to_list in Hl. by apply (fr_timer _ _ HF) in Hl. }
  apply onward_app; [apply unsworn_nil|by apply mode_b_timer_onward].
Qed.

Lemma macro_handle_onward cfg i L s :
  next_height s + 1 < 2 ^ 64 → frontier L s → macro_input_ok i → no_collision (at_hand s i) →
  wp (macro_handle cfg i) (onward L (mb_self_id s)) s.
Proof.
  intros Hroom HF Hok Hno. destruct i as [[] ctx]; unfold macro_handle; cbn [fst snd].
  - by apply micro_onward.
  - by apply macro_proposal_onward.
  - by apply bls_partial_onward.
  - by apply subnet_aggregate_onward.
  - by apply macro_qc_onward.
  - by apply timer_onward.
Qed.
End handlers.

(** ** Runs *)

Definition partial_of (a : Action) : option (ValidatorId * Hash32) :=
  match a with
  | BroadcastBlsPartial bp => Some (bp_validator bp, bp_checkpoint_hash bp)
  | _ => None
  end.
Definition partials_sent (acts : Actions) : list (ValidatorId * Hash32) := omap partial_of acts.
(** Evidence that convicts by votes *)
Definition vote_evidence (ev : SlashEvidence) : bool :=
  match ev with SE_Surround _ | SE_DoubleVote _ => true | _ => false end.

Section runs.
Context `{Build, Primitives, MacroBorsh} (cfg : Config).

Lemma no_collision_sub cs ds : (∀ c, c ∈ ds → c ∈ cs) → no_collision cs → no_collision ds.
Proof.
  unfold no_collision. rewrite !Forall_forall. intros Hsub Hno c Hc.
  destruct (Hno c (Hsub c Hc)) as [Hz Hall]. split; [done|].
  rewrite Forall_forall in Hall |- *. auto.
Qed.
Lemma no_collisions_now ins s : no_collisions cfg ins s → no_collision (candidates s).
Proof.
  destruct ins as [|i ins]; [done|]. intros [Hno _]. eapply no_collision_sub; [|exact Hno].
  intros c Hc. apply elem_of_app. by left.
Qed.

(** What a sworn answer lists: its partials are the checkpoints it signs. *)
Lemma sworn_signed L s acts :
  frontier L s → no_collision (candidates s) → Forall (sworn L s) acts →
  partials_sent acts = (λ c, (mb_self_id s, mc_hash c)) <$> omap (signed_by_action s) acts ∧
  (∀ c, c ∈ omap (signed_by_action s) acts → genuine c ∧ (mc_height c, mc_hash c) ∈ L) ∧
  (∀ v ev, EmitSlashEvidence v ev ∈ acts → vote_evidence ev = false).
Proof.
  intros HF Hno. induction 1 as [|a acts Ha _ (IH1 & IH2 & IH3)].
  { split_and!; [done|by intros c ?%elem_of_nil|by intros v ev ?%elem_of_nil]. }
  assert (Hev : ∀ v ev, EmitSlashEvidence v ev ∈ a :: acts → vote_evidence ev = false).
  { intros v ev [<-|?]%elem_of_cons; [by destruct ev|by eapply IH3]. }
  destruct a as [| |bp| | | | | | | | | | | |]; try by split_and!.
  destruct Ha as (Hv & h & c & Hc & Hh & HL). destruct (fr_candidate _ _ HF h c Hc) as (Hg & Hhc & _).
  assert (Hf : snd <$> find_candidate s (bp_checkpoint_hash bp) = Some c).
  { destruct (find_candidate s (bp_checkpoint_hash bp)) as [[h' d]|] eqn:Hf.
    - apply find_candidate_Some in Hf as [Hd Hhd]. cbn. f_equal.
      destruct (fr_candidate _ _ HF h' d Hd) as (Hgd & _). unfold no_collision in Hno.
      rewrite Forall_forall in Hno.
      destruct (Hno d (elem_of_candidates _ _ _ Hd)) as [_ Hall]. rewrite Forall_forall in Hall.
      apply (Hall c (elem_of_candidates _ _ _ Hc)); [done..|congruence].
    - by destruct (find_candidate_None _ _ Hf h c). }
  unfold partials_sent in *. cbn [omap list_omap partial_of signed_by_action]. rewrite Hf.
  cbn [fmap list_fmap]. split_and!.
  - rewrite IH1, Hv, Hh. done.
  - intros d [->|?]%elem_of_cons; [|by apply IH2]. by rewrite Hhc.
  - exact Hev.
Qed.

Lemma macro_run_sworn ins L s :
  chain_inv s → next_height s + length ins < 2 ^ 64 →
  frontier L s → Forall macro_input_ok ins → no_collisions cfg ins s →
  let '(acts, s') := macro_run cfg ins s in
  ∃ L', L ⊆ L' ∧ frontier L' s' ∧ mb_self_id s' = mb_self_id s ∧
    partials_sent acts = (λ c, (mb_self_id s, mc_hash c)) <$> signed cfg ins s ∧
    (∀ c, c ∈ signed cfg ins s → genuine c ∧ (mc_height c, mc_hash c) ∈ L') ∧
    (∀ v ev, EmitSlashEvidence v ev ∈ acts → vote_evidence ev = false).
Proof.
  intros HC Hroom HF Hok. revert L s HC Hroom HF.
  induction Hok as [|i ins Hi _ IH]; intros L s HC Hroom HF Hno.
  { exists L. split_and!; [done..|by intros c ?%elem_of_nil|by intros v ev ?%elem_of_nil]. }
  destruct Hno as [Hno Hnos]. cbn [macro_run signed length] in *.
  pose proof (macro_handle_onward cfg i L s ltac:(lia) HF Hi Hno) as Hh.
  pose proof (chain_handle cfg i s HC ltac:(lia)) as Hc. unfold wp in Hh, Hc.
  destruct (macro_handle cfg i s) as [r s1]. cbn [fst snd] in *. destruct Hc as [HC1 Hn1].
  destruct Hh as (L1 & HL1 & HF1 & Hs1 & Hr).
  destruct (sworn_signed L1 s1 _ HF1 (no_collisions_now _ _ Hnos) Hr) as (P1 & P2 & P3).
  specialize (IH L1 s1 HC1 ltac:(lia) HF1 Hnos). destruct (macro_run cfg ins s1) as [acts s2].
  destruct IH as (L2 & HL2 & HF2 & Hs2 & Q1 & Q2 & Q3). rewrite Hs1 in *.
  exists L2. split_and!; [by etrans|done|congruence|..].
  - unfold partials_sent in *. by rewrite omap_app, P1, Q1, fmap_app.
  - intros c [Hc|Hc]%elem_of_app; [|by apply Q2]. destruct (P2 c Hc). auto.
  - intros v ev [Hin|Hin]%elem_of_app; [by eapply P3|by eapply Q3].
Qed.
End runs.
