(* ===== verification/MacroAgreement.v ===== *)
(** What validators sign for finality, and the agreement of its certificates.

    [macro_inputs] are the calls that a run of the state machine makes to its macro layer, so
    that the lemmas of [MacroSafety] on runs of the layer hold of validators:
    [macro_votes_once], one checkpoint per height; [macro_certificates_agree], two certificates
    signed by a quorum agree at a height. *)

From S2P Require Import Prelude Bytes Types Crypto Toy Config Leader Dag Linearize Bullshark.
From S2P Require Import MacroState MacroAgg Slashing MacroFin MacroChain VertexCert StateMachine.
From S2P Require Import MacroSafety.
Open Scope Z_scope.

(** ** The macro layer of a run *)
Section projection.
Context `{Build, Primitives, MacroBorsh, !Borsh SignableVertex, !Borsh (list Hash32)}.
Context `{PendingBlobSource P} (fuel : nat).

Definition micro_qcs (acts : Actions) : list MicroQc :=
  omap (λ a, match a with BroadcastMicroQc qc => Some qc | _ => None end) acts.

(** The call of one input to the macro layer, if the layers before it answer. *)
Definition macro_inputs_of (i : sm_input) (s : StateMachine P) : list macro_input :=
  let '(c, ctx) := i in
  match c with
  | HC_genesis => []
  | HC_event e =>
      match e with
      | CertifiedVertexReceived cv =>
          match (vertex_on_certified_vertex fuel (sm_cfg s) cv ctx (sm_vertices s)).1,
                (on_certified_vertex fuel (sm_cfg s) cv ctx (sm_micro s)).1 with
          | Ok acts, Ok bull => [(MC_micro (micro_qcs (acts ++ bull)), ctx)]
          | _, _ => []
          end
      | MacroProposalReceived p => [(MC_proposal p, ctx)]
      | BlsPartialReceived bp => [(MC_partial bp, ctx)]
      | SubnetAggregateReceived a => [(MC_aggregate a, ctx)]
      | MacroQcReceived qc => [(MC_qc qc, ctx)]
      | TimerFired id =>
          match (on_timer_fired fuel (sm_cfg s) id ctx (sm_micro s)).1 with
          | Ok _ => [(MC_timer id, ctx)]
          | _ => []
          end
      | _ => []
      end
  end.
Fixpoint macro_inputs (ins : list sm_input) (s : StateMachine P) : list macro_input :=
  match ins with
  | [] => []
  | i :: ins => macro_inputs_of i s ++ macro_inputs ins (sm_handle fuel i s).2
  end.

Lemma macro_run_one cfg i s :
  macro_run cfg [i] s = (said_by (macro_handle cfg i s).1, (macro_handle cfg i s).2).
Proof. cbn. destruct (macro_handle cfg i s) as [r s1]. cbn. by rewrite app_nil_r. Qed.

Lemma qcs_of_micro_qcs acts : qcs_of (BroadcastMicroQc <$> micro_qcs acts) = qcs_of acts.
Proof.
  unfold qcs_of, micro_qcs. induction acts as [|a acts IH]; [done|].
  destruct a; cbn; try done. by f_equal.
Qed.

(** The micro certificates of the actions are all that [on_local_micro_qcs] looks at. *)
Lemma on_local_micro_qcs_only cfg ctx acts s :
  let r := on_local_micro_qcs cfg ctx acts s in
  let q := on_local_micro_qcs cfg ctx (BroadcastMicroQc <$> micro_qcs acts) s in
  r.2 = q.2 ∧ ∀ all, r.1 = Ok all → ∃ more, all = acts ++ more ∧
    q.1 = Ok ((BroadcastMicroQc <$> micro_qcs acts) ++ more).
Proof.
  unfold on_local_micro_qcs, mbind, M_bind, lift. rewrite qcs_of_micro_qcs.
  case_bool_decide as Hq.
  { split; [done|]. intros all [= <-]. exists []. by rewrite !app_nil_r. }
  destruct (active_set ctx) as [set| | |]; [|done..].
  destruct (push_micro_hashes cfg ctx set (qcs_of acts) s) as [[more| | |] s1]; [|done..].
  split; [done|]. intros all [= <-]. by exists more.
Qed.

Lemma macro_on_timer_only cfg ctx id acts s :
  let r := macro_on_timer_fired cfg ctx id acts s in
  let q := macro_on_timer_fired cfg ctx id [] s in
  r.2 = q.2 ∧ ∀ all, r.1 = Ok all → ∃ more, all = acts ++ more ∧ q.1 = Ok more.
Proof.
  unfold macro_on_timer_fired, mbind, M_bind, gets.
  destruct (height_for_backup_timer _ _) as [h|].
  { destruct (on_backup_timer ctx h s) as [[more| | |] s1]; [|done..].
    split; [done|]. intros all [= <-]. by exists more. }
  destruct (height_for_mode_b_timer _ _) as [h|].
  { destruct (on_mode_b_timer cfg ctx h s) as [[more| | |] s1]; [|done..].
    split; [done|]. intros all [= <-]. by exists more. }
  split; [done|]. intros all [= <-]. exists []. by rewrite app_nil_r.
Qed.

Lemma partials_sent_app a b : partials_sent (a ++ b) = partials_sent a ++ partials_sent b.
Proof. apply omap_app. Qed.
Lemma partials_other l acts : speaks l acts = true → l ≠ L3 → partials_sent acts = [].
Proof. intros Hs Hl. apply (speaks_omap _ l); [done|]. by intros [] ?; destruct l. Qed.
Lemma partials_micro_qcs qcs : partials_sent (BroadcastMicroQc <$> qcs) = [].
Proof. by induction qcs. Qed.

Lemma layer_other l acts a : speaks l acts = true → l ≠ L3 → layer_of a = Some L3 → a ∉ acts.
Proof.
  intros Hs Hl Ha Hin. apply (speaks_elem _ _ _ Hs) in Hin. unfold speaks_one in Hin.
  rewrite Ha in Hin. by apply bool_decide_eq_true in Hin.
Qed.

(** What [acts] says for the macro layer is in [acts']. *)
Definition l3_said (acts acts' : Actions) : Prop :=
  ∀ a, layer_of a = Some L3 → a ∈ acts → a ∈ acts'.
Lemma l3_said_app a a' b b' : l3_said a a' → l3_said b b' → l3_said (a ++ b) (a' ++ b').
Proof. intros Ha Hb x Hx. rewrite !elem_of_app. intros [?|?]; [left; by apply Ha|right; by apply Hb]. Qed.
Lemma l3_said_nil acts : l3_said [] acts.
Proof. by intros a _ ?%elem_of_nil. Qed.
Lemma l3_said_refl acts : l3_said acts acts.
Proof. by intros a. Qed.
#[local] Hint Resolve l3_said_nil l3_said_refl : core.
Lemma l3_said_other l acts acts' : speaks l acts = true → l ≠ L3 → l3_said acts acts'.
Proof. intros Hs Hl a Ha Hin. by destruct (layer_other l acts a). Qed.
Lemma l3_said_partials acts acts' : l3_said acts acts' → partials_sent acts ⊆ partials_sent acts'.
Proof.
  intros Hs p. unfold partials_sent. rewrite !list_elem_of_omap. intros (a & Ha & Hp).
  exists a. split; [|done]. apply Hs; [|done]. by destruct a.
Qed.

(** One call of the machine against the call of its macro layer *)
Definition projects (s : StateMachine P) (ins : list macro_input) (r : result Actions)
    (s' : StateMachine P) : Prop :=
  let q := macro_run (sm_cfg s) ins (sm_macros s) in
  sm_cfg s' = sm_cfg s ∧ sm_macros s' = q.2 ∧ l3_said (said_by r) q.1.

Lemma projects_macros i (m : M Error MacroBook Actions) s :
  m = macro_handle (sm_cfg s) i → wp (zoom sm_macros m) (projects s [i]) s.
Proof.
  intros ->. apply wp_zoom. unfold projects. rewrite macro_run_one. split_and!; auto.
Qed.
Lemma projects_vertices c ctx s :
  wp (zoom sm_vertices (vertex_handle fuel (sm_cfg s) (c, ctx))) (projects s []) s.
Proof.
  apply wp_zoom. pose proof (vertex_handle_speaks (sm_cfg s) ctx fuel c (sm_vertices s)) as Hm.
  unfold wp in Hm. destruct (vertex_handle _ _ _ _) as [r v]. cbn in *.
  split_and!; [done..|]. eapply l3_said_other; [exact Hm|done].
Qed.
Lemma projects_quiet s : wp (mret [] : M Error (StateMachine P) Actions) (projects s []) s.
Proof. by apply wp_ret. Qed.

Lemma certified_vertex_projects cv ctx s :
  wp (step fuel (CertifiedVertexReceived cv) ctx)
    (projects s (macro_inputs_of (HC_event (CertifiedVertexReceived cv), ctx) s)) s.
Proof.
  unfold step. do 2 wp_step. set (cfg := sm_cfg s).
  pose proof (vertex_handle_speaks cfg ctx fuel (VC_certified cv) (sm_vertices s)) as T.
  pose proof (emits_micro_handle fuel cfg (sm_micro s) (MI_vertex cv ctx)) as E.
  unfold wp in T, E. cbn [micro_handle vertex_handle] in T, E. cbn [macro_inputs_of]. fold cfg.
  do 2 wp_step. destruct (vertex_on_certified_vertex _ _ _ _ _) as [r1 v1]. cbn [fst snd] in *.
  destruct r1 as [a1| | |]; [|by split_and!..]. do 2 wp_step.
  change (sm_micro (s <| sm_vertices := v1 |>)) with (sm_micro s).
  destruct (on_certified_vertex _ _ _ _ _) as [r2 m2]. cbn [fst snd] in *.
  destruct r2 as [a2| | |]; [|by split_and!..]. wp_step.
  change (sm_macros (s <| sm_vertices := v1 |> <| sm_micro := m2 |>)) with (sm_macros s).
  destruct (on_local_micro_qcs_only cfg ctx (a1 ++ a2) (sm_macros s)) as [Hst Hr].
  unfold projects. rewrite macro_run_one. unfold macro_handle. cbn [fst snd].
  split; [done|]. split; [exact Hst|].
  destruct (on_local_micro_qcs cfg ctx (a1 ++ a2) (sm_macros s)) as [[all| | |] b3];
    [|apply l3_said_nil..].
  destruct (Hr all eq_refl) as (more & -> & Hq). fold cfg. rewrite Hq. cbn [fst said_by].
  destruct E as (_ & El & _). apply l3_said_app; [|auto].
  set (qcs := BroadcastMicroQc <$> micro_qcs (a1 ++ a2)).
  apply (l3_said_app a1 [] a2 qcs); by eapply l3_said_other.
Qed.

Lemma timer_projects id ctx s :
  wp (step fuel (TimerFired id) ctx) (projects s (macro_inputs_of (HC_event (TimerFired id), ctx) s)) s.
Proof.
  unfold step. do 2 wp_step. set (cfg := sm_cfg s).
  pose proof (vertex_handle_speaks cfg ctx fuel (VC_timer id) (sm_vertices s)) as T.
  pose proof (emits_micro_handle fuel cfg (sm_micro s) (MI_timer id ctx)) as E.
  unfold wp in T, E. cbn [micro_handle vertex_handle] in T, E. cbn [macro_inputs_of]. fold cfg.
  do 2 wp_step. destruct (on_timer_fired _ _ _ _ _) as [r2 m2]. cbn [fst snd] in *.
  destruct r2 as [a2| | |]; [|by split_and!..]. do 2 wp_step.
  change (sm_macros (s <| sm_micro := m2 |>)) with (sm_macros s).
  destruct (macro_on_timer_only cfg ctx id a2 (sm_macros s)) as [Hst Hr].
  unfold projects. rewrite macro_run_one. unfold macro_handle. cbn [fst snd]. fold cfg.
  destruct (macro_on_timer_fired cfg ctx id a2 (sm_macros s)) as [[all| | |] b3]; cbn [fst snd] in *;
    [|split; [done|]; split; [exact Hst|apply l3_said_nil]..].
  destruct (Hr all eq_refl) as (more & -> & Hq). rewrite Hq. do 2 wp_step.
  change (sm_vertices (s <| sm_micro := m2 |> <| sm_macros := b3 |>)) with (sm_vertices s).
  destruct (vertex_on_timer_fired _ _ _ _) as [r1 v1]. cbn [fst snd] in *.
  destruct E as (_ & El & _).
  destruct r1 as [a1| | |]; [|split; [done|]; split; [exact Hst|apply l3_said_nil]..].
  wp_step. split; [done|]. split; [exact Hst|]. cbn [said_by].
  replace more with (([] ++ more) ++ []) at 2 by apply app_nil_r.
  apply l3_said_app; [|by eapply l3_said_other].
  apply (l3_said_app a2 []); [by eapply l3_said_other|auto].
Qed.

Lemma sm_handle_projects i s : wp (sm_handle fuel i) (projects s (macro_inputs_of i s)) s.
Proof.
  destruct i as [[|e] ctx]; unfold sm_handle; cbn [fst snd].
  { unfold sm_genesis_propose. do 2 wp_step. apply (projects_vertices VC_genesis). }
  destruct e as [cv|qc|p|bp|a|qc|tid|epoch set|ev|p|bp].
  1: exact (certified_vertex_projects cv ctx s).
  6: exact (timer_projects tid ctx s).
  all: unfold step; do 2 wp_step; cbn [macro_inputs_of].
  - apply wp_zoom. by destruct s.
  - by apply projects_macros.
  - by apply projects_macros.
  - by apply projects_macros.
  - by apply projects_macros.
  - by apply projects_quiet.
  - by apply projects_quiet.
  - apply (projects_vertices (VC_proposal p)).
  - apply (projects_vertices (VC_partial bp)).
Qed.

(** ** Runs *)

Lemma macro_run_app cfg a b s :
  macro_run cfg (a ++ b) s =
    let q := macro_run cfg b (macro_run cfg a s).2 in ((macro_run cfg a s).1 ++ q.1, q.2).
Proof.
  revert s. induction a as [|i a IH]; intros s; cbn [app macro_run]; [apply surjective_pairing|].
  destruct (macro_handle cfg i s) as [r s1]. rewrite IH.
  destruct (macro_run cfg a s1) as [acts s2]. cbn. by rewrite app_assoc.
Qed.

(** The macro layer of a run is a run of the macro layer. *)
Lemma sm_run_projects ins s :
  let q := macro_run (sm_cfg s) (macro_inputs ins s) (sm_macros s) in
  sm_macros (sm_run fuel ins s).2 = q.2 ∧ sm_cfg (sm_run fuel ins s).2 = sm_cfg s ∧
  l3_said (sm_run fuel ins s).1 q.1.
Proof.
  revert s. induction ins as [|i ins IH]; intros s; [by split_and!|].
  cbn [sm_run macro_inputs]. rewrite macro_run_app.
  pose proof (sm_handle_projects i s) as Hp. unfold wp in Hp. specialize (IH (sm_handle fuel i s).2).
  destruct (sm_handle fuel i s) as [r s1]. cbn [fst snd] in *.
  destruct Hp as (Hcfg & Hm & Hsub). rewrite Hcfg, Hm in IH.
  destruct (sm_run fuel ins s1) as [acts s2]. cbn [fst snd] in *.
  destruct IH as (IH1 & IH2 & IH3). split_and!; [done..|].
  assert (Hr : match r with Ok a => a ++ acts | _ => acts end = said_by r ++ acts) by by destruct r.
  rewrite Hr. by apply l3_said_app.
Qed.

(** Each call of a run makes one call to the macro layer at most. *)
Lemma macro_inputs_of_length i s : (length (macro_inputs_of i s) ≤ 1)%nat.
Proof. destruct i as [[|[]] ctx]; cbn [macro_inputs_of]; repeat case_match; cbn; lia. Qed.
Lemma macro_inputs_length ins s : (length (macro_inputs ins s) ≤ length ins)%nat.
Proof.
  revert s. induction ins as [|i ins IH]; intros s; [done|]. cbn [macro_inputs length].
  rewrite length_app. pose proof (macro_inputs_of_length i s).
  specialize (IH (sm_handle fuel i s).2). lia.
Qed.

Lemma macro_inputs_ok ins s :
  (∀ p ctx, (HC_event (MacroProposalReceived p), ctx) ∈ ins → genuine (mp_checkpoint p)) →
  Forall macro_input_ok (macro_inputs ins s).
Proof.
  revert s. induction ins as [|[c ctx] ins IH]; intros s Hg; [constructor|]. cbn [macro_inputs].
  apply Forall_app. split; [|apply IH; intros p ctx' Hp; apply (Hg p ctx'); by right].
  destruct c as [|e]; [constructor|]. destruct e; cbn [macro_inputs_of]; try by repeat constructor.
  - repeat case_match; by repeat constructor.
  - repeat constructor. apply (Hg p ctx). by left.
  - repeat case_match; by repeat constructor.
Qed.
End projection.

(** ** Validators *)

(** A validator: its configuration, its host's queue of blobs, and the calls of its host *)
Record Validator (P : Type) := MkValidator {
  vd_cfg : Config;
  vd_fuel : nat;
  vd_queue : P;
  vd_calls : list sm_input;
}.
Arguments MkValidator {_} _ _ _ _.
Arguments vd_cfg {_} _.
Arguments vd_fuel {_} _.
Arguments vd_queue {_} _.
Arguments vd_calls {_} _.

(** Every proposal received carries the hash of its content. *)
Definition genuine_input `{Primitives, MacroBorsh} (i : sm_input) : Prop :=
  match i.1 with
  | HC_event (MacroProposalReceived p) => genuine (mp_checkpoint p)
  | _ => True
  end.

Section validators.
Context `{Build, Primitives, MacroBorsh, !Borsh SignableVertex, !Borsh (list Hash32)}.
Context `{PendingBlobSource P}.

(** What validator [id] broadcasts, and its book in the end *)
Definition vd_actions (id : ValidatorId) (v : Validator P) : Actions :=
  (sm_run (vd_fuel v) (vd_calls v) (StateMachine_new (vd_cfg v) id (vd_queue v))).1.
Definition vd_macro_calls (id : ValidatorId) (v : Validator P) : list macro_input :=
  macro_inputs (vd_fuel v) (vd_calls v) (StateMachine_new (vd_cfg v) id (vd_queue v)).
Definition vd_book (id : ValidatorId) (v : Validator P) : MacroBook :=
  sm_macros (sm_run (vd_fuel v) (vd_calls v) (StateMachine_new (vd_cfg v) id (vd_queue v))).2.
(** The checkpoints it signs *)
Definition vd_signed (id : ValidatorId) (v : Validator P) : list MacroCheckpoint :=
  signed (vd_cfg v) (vd_macro_calls id v) (MacroBook_new id).

(** A summary of a run: the height reached, the candidates, the certified hashes, what is sent and
    what is signed *)
Definition vd_outcome (id : ValidatorId) (v : Validator P) :=
  let r := sm_run (vd_fuel v) (vd_calls v) (StateMachine_new (vd_cfg v) id (vd_queue v)) in
  let b := sm_macros r.2 in
  ((next_height b, map_to_list (candidate b), elements (emitted_macro_qc b)),
   partials_sent r.1, vd_signed id v).
Lemma vd_outcome_parts id v n cs es ps ss :
  vd_outcome id v = ((n, cs, es), ps, ss) →
  next_height (vd_book id v) = n ∧ map_to_list (candidate (vd_book id v)) = cs ∧
  elements (emitted_macro_qc (vd_book id v)) = es ∧ partials_sent (vd_actions id v) = ps ∧
  vd_signed id v = ss.
Proof. by intros [= <- <- <- <- <-]. Qed.

(** What the safety of the macro layer asks of a validator's run: a number of calls that a [u64]
    height can count, and proposals as honest proposers make them, which the handler does not
    check: each carries the hash of its content, and no two checkpoints at hand collide. *)
Record careful (id : ValidatorId) (v : Validator P) : Prop := {
  ca_calls : length (vd_calls v) < 2 ^ 64;
  ca_genuine : Forall genuine_input (vd_calls v);
  ca_hashes : no_collisions (vd_cfg v) (vd_macro_calls id v) (MacroBook_new id);
}.

(** The invariant at the end of a run *)
Lemma careful_run id v :
  careful id v →
  ∃ L, frontier L (vd_book id v) ∧
    (∀ c, c ∈ vd_signed id v → genuine c ∧ (mc_height c, mc_hash c) ∈ L) ∧
    (∀ p, p ∈ partials_sent (vd_actions id v) → p ∈ (λ c, (id, mc_hash c)) <$> vd_signed id v) ∧
    (∀ w ev, EmitSlashEvidence w ev ∈
       (macro_run (vd_cfg v) (vd_macro_calls id v) (MacroBook_new id)).1 → vote_evidence ev = false).
Proof.
  intros [Hlen Hg Hno].
  destruct (sm_run_projects (vd_fuel v) (vd_calls v) (StateMachine_new (vd_cfg v) id (vd_queue v)))
    as (Hbook & _ & Hsub%l3_said_partials).
  pose proof (macro_inputs_length (vd_fuel v) (vd_calls v)
    (StateMachine_new (vd_cfg v) id (vd_queue v))) as Hcalls.
  assert (Hins : Forall macro_input_ok (vd_macro_calls id v)).
  { apply macro_inputs_ok. intros p ctx Hp. rewrite Forall_forall in Hg. by apply (Hg _ Hp). }
  assert (Hroom : next_height (MacroBook_new id) + length (vd_macro_calls id v) < 2 ^ 64).
  { change (0 + length (vd_macro_calls id v) < 2 ^ 64). unfold vd_macro_calls. lia. }
  pose proof (macro_run_sworn (vd_cfg v) _ [] _ (chain_new id) Hroom (frontier_new id) Hins Hno)
    as Hrun.
  unfold vd_actions, vd_book, vd_signed, vd_macro_calls in *. rewrite Hbook.
  cbn [sm_cfg sm_macros StateMachine_new] in *.
  destruct (macro_run _ _ _) as [acts s']. destruct Hrun as (L & _ & HF & _ & Hp & Hs & He).
  cbn [fst snd] in *. exists L. split_and!; [done..| |done]. intros p Hin%Hsub. by rewrite Hp in Hin.
Qed.

(** The argument of [macro_votes_once], for its other uses. *)
Lemma careful_votes id v :
  careful id v →
  (∀ c d, c ∈ vd_signed id v → d ∈ vd_signed id v → mc_height c = mc_height d →
     mc_hash c = mc_hash d) ∧
  (∀ w h, (w, h) ∈ partials_sent (vd_actions id v) →
     w = id ∧ ∃ c, c ∈ vd_signed id v ∧ genuine c ∧ mc_hash c = h) ∧
  (∀ w ev, EmitSlashEvidence w ev ∈
     (macro_run (vd_cfg v) (vd_macro_calls id v) (MacroBook_new id)).1 → vote_evidence ev = false).
Proof.
  intros Hok. destruct (careful_run id v Hok) as (L & HF & Hs & Hp & He).
  split_and!; [..|exact He].
  - intros c d [_ Hc]%Hs [_ Hd]%Hs Hh. rewrite Hh in Hc. by apply (fr_once _ _ HF (mc_height d)).
  - intros w h (c & [= -> ->] & Hc)%Hp%list_elem_of_fmap.
    split; [done|]. exists c. split_and!; [done|by apply Hs|done].
Qed.

(** *** Certificates *)
Definition qc_signers (set : ValidatorSet) (qc : MacroQc) : list nat :=
  set_bits (agg_bitmap (qc_agg qc)) (length (vs_entries set)).

(** Unforgeability: the bits of a certificate that verifies, but for the faulty validators', are
    of validators that broadcast a partial signature for its checkpoint. *)
Definition macro_unforgeable (set : ValidatorSet) (faulty : list nat) (vds : nat → Validator P)
    (qc : MacroQc) (c : MacroCheckpoint) : Prop :=
  verify_macro_qc set qc c = true → ∀ i, i ∈ qc_signers set qc → i ∉ faulty →
  ∃ e, vs_entries set !! i = Some e ∧
    (ve_id e, mc_hash c) ∈ partials_sent (vd_actions (ve_id e) (vds i)).

(** [c] collides with no checkpoint that a validator signs. *)
Definition collides_with_none (set : ValidatorSet) (faulty : list nat) (vds : nat → Validator P)
    (c : MacroCheckpoint) : Prop :=
  ∀ i e d, i ∉ faulty → vs_entries set !! i = Some e → d ∈ vd_signed (ve_id e) (vds i) →
  mc_hash d = mc_hash c → d = c.

(** A quorum of positions, whose validators broadcast a partial signature for [x] unless faulty *)
Definition backed (set : ValidatorSet) (faulty : list nat) (vds : nat → Validator P)
    (x : Hash32) : Prop :=
  ∃ l : list nat, NoDup l ∧ quorum_threshold (length (vs_entries set)) ≤ length l ∧
  ∀ i, i ∈ l → (i < length (vs_entries set))%nat ∧ (i ∉ faulty →
    ∃ e, vs_entries set !! i = Some e ∧
      (ve_id e, x) ∈ partials_sent (vd_actions (ve_id e) (vds i))).

Lemma qc_backed set faulty vds qc c :
  macro_unforgeable set faulty vds qc c → verify_macro_qc set qc c = true →
  quorum_threshold (length (vs_entries set)) ≤ length (qc_signers set qc) →
  backed set faulty vds (mc_hash c).
Proof.
  intros Hu Hv Hq. exists (qc_signers set qc). split_and!; [apply NoDup_set_bits|done|].
  intros i Hi. split; [by apply set_bits_bound in Hi|]. intros Hgood. by apply Hu.
Qed.

(** Quorum intersection: backed checkpoints agree at a height. *)
Lemma backed_agree set (f : nat) faulty vds c d :
  length (vs_entries set) = (3 * f + 1)%nat → (length faulty ≤ f)%nat →
  (∀ i e, i ∉ faulty → vs_entries set !! i = Some e → careful (ve_id e) (vds i)) →
  collides_with_none set faulty vds c → collides_with_none set faulty vds d →
  backed set faulty vds (mc_hash c) → backed set faulty vds (mc_hash d) →
  mc_height c = mc_height d → mc_hash c = mc_hash d.
Proof.
  intros Hn Hf Hok Hc Hd (l1 & Hd1 & Hq1 & Hb1) (l2 & Hd2 & Hq2 & Hb2) Hh.
  destruct (common_positions l1 l2 _ _ Hd1 Hd2 (λ i Hi, proj1 (Hb1 i Hi)) (λ i Hi, proj1 (Hb2 i Hi))
    Hq1 Hq2) as (l & Hnd & Hlen & Hin).
  assert (Hl : (f + 1 ≤ length l)%nat).
  { rewrite Hn in Hlen. unfold quorum_threshold, saturating_sub in Hlen. cbv zeta in Hlen. dlia. }
  destruct (list_pigeonhole_out l faulty Hnd ltac:(lia)) as (i & Hi & Hgood).
  apply Hin in Hi as [Hi1 Hi2].
  destruct (Hb1 i Hi1) as [_ Hp1], (Hb2 i Hi2) as [_ Hp2].
  destruct (Hp1 Hgood) as (e & He & Hs1), (Hp2 Hgood) as (e' & He' & Hs2).
  rewrite He in He'. injection He' as <-.
  destruct (careful_votes (ve_id e) (vds i) (Hok i e Hgood He)) as (Honce & Hpart & _).
  apply Hpart in Hs1 as (_ & d1 & Hd1' & _ & Hh1), Hs2 as (_ & d2 & Hd2' & _ & Hh2).
  pose proof (Hc i e d1 Hgood He Hd1' Hh1) as ->. pose proof (Hd i e d2 Hgood He Hd2' Hh2) as ->.
  by apply Honce.
Qed.
End validators.

(** ** Concrete runs *)
Section decisions.
Context `{Build, Primitives, MacroBorsh}.
#[local] Instance genuine_dec c : Decision (genuine c).
Proof. unfold genuine. apply _. Defined.
#[export] Instance genuine_input_dec i : Decision (genuine_input i).
Proof. unfold genuine_input. repeat case_match; apply _. Defined.
#[local] Instance no_collision_dec cs : Decision (no_collision cs).
Proof. apply _. Defined.
#[export] Instance no_collisions_dec cfg ins s : Decision (no_collisions cfg ins s).
Proof.
  revert s. induction ins as [|i ins IH]; intros s; cbn [no_collisions]; [apply _|].
  apply and_dec; [apply _|apply IH].
Defined.
End decisions.

(** A proposal by the [i]-th validator, and the life of the [i]-th validator over two heights *)
Definition toy_proposal (i : nat) (c : MacroCheckpoint) : MacroProposal :=
  MkMacroProposal c (toy_id i) (MkVrfProof [])
    (sign (toy_key i) dst.MACRO_PROPOSER_SIG (proposer_message (toy_id i) c)).
Definition toy_proposal_event (i : nat) (c : MacroCheckpoint) : sm_input :=
  (HC_event (MacroProposalReceived (toy_proposal i c)), toy_ten_rounds).
Definition toy_two_heights : Validator unit :=
  MkValidator toy_window_cfg 60 tt
    [toy_cert_event 5; toy_proposal_event 0 toy_cand0; toy_qc_event toy_cand0;
     toy_cert_event 9; toy_proposal_event 1 toy_cand1].

Example toy_two_heights_signed :
  vd_signed (H := release) (toy_id 2) toy_two_heights = [toy_cand0; toy_cand1].
Proof. by vm_compute. Qed.

Lemma toy_two_heights_careful : careful (H := release) (toy_id 2) toy_two_heights.
Proof.
  assert (Hg : Forall genuine_input (vd_calls toy_two_heights)) by vdecide.
  split; [done|exact Hg|].
  vdecide.
Qed.

(** Certificates of the first height by two quorums *)
Definition toy_height0_qc (l : list nat) (bitmap : Z) : MacroQc :=
  MkMacroQc (mc_hash toy_cand0) Mode0Flat
    (MkBlsAggSig (match aggregate_sigs ((λ i, toy_partial i toy_cand0) <$> l) with
                  | Ok a => a | _ => MkBlsSig [] end) [bitmap]).
Definition toy_qc_a : MacroQc := toy_height0_qc [0; 1; 2]%nat 7.
Definition toy_qc_b : MacroQc := toy_height0_qc [0; 1; 3]%nat 11.

(** Three of four validators live through the first height; the fourth is faulty. *)
Definition toy_one_height : Validator unit :=
  MkValidator toy_window_cfg 60 tt
    [toy_cert_event 5; toy_proposal_event 0 toy_cand0;
     (HC_event (MacroQcReceived toy_qc_a), toy_ten_rounds)].

Lemma toy_one_height_careful i : (i < 3)%nat → careful (H := release) (toy_id i) toy_one_height.
Proof.
  intros Hi. assert (Hg : Forall genuine_input (vd_calls toy_one_height)) by vdecide.
  split; [done|exact Hg|].
  destruct i as [|[|[|]]]; [vdecide..|lia].
Qed.

Lemma toy_one_height_outcome i : (i < 3)%nat →
  vd_outcome (H := release) (toy_id i) toy_one_height =
  ((1, [(0, toy_cand0)], [mc_hash toy_cand0]), [(toy_id i, mc_hash toy_cand0)], [toy_cand0]).
Proof. intros Hi. destruct i as [|[|[|]]]; [vm_compute; reflexivity..|lia]. Qed.

Lemma toy_set_entry i e : vs_entries (toy_set 4) !! i = Some e → (i < 4)%nat ∧ ve_id e = toy_id i.
Proof.
  intros He. pose proof (lookup_lt_Some _ _ _ He) as Hi. cbn in Hi. split; [done|].
  destruct i as [|[|[|[|]]]]; [..|lia]; by injection He as <-.
Qed.
Lemma toy_set_lookup i :
  (i < 4)%nat → ∃ e, vs_entries (toy_set 4) !! i = Some e ∧ ve_id e = toy_id i.
Proof.
  intros Hi. destruct (lookup_lt_is_Some_2 (vs_entries (toy_set 4)) i Hi) as [e He].
  exists e. split; [done|]. by apply toy_set_entry.
Qed.
Lemma toy_honest i : (i < 4)%nat → i ∉ [3%nat] → (i < 3)%nat.
Proof. rewrite list_elem_of_singleton. lia. Qed.

Lemma toy_sends i : (i < 4)%nat → i ∉ [3%nat] → ∃ e, vs_entries (toy_set 4) !! i = Some e ∧
  (ve_id e, mc_hash toy_cand0) ∈ partials_sent (vd_actions (H := release) (ve_id e) toy_one_height).
Proof.
  intros Hi Hgood. destruct (toy_set_lookup i Hi) as (e & He & Hid). exists e. split; [done|].
  rewrite Hid.
  destruct (vd_outcome_parts _ _ _ _ _ _ _ (toy_one_height_outcome i (toy_honest i Hi Hgood)))
    as (_ & _ & _ & -> & _). by left.
Qed.
Lemma toy_macro_unforgeable qc :
  macro_unforgeable (H := release) (toy_set 4) [3%nat] (λ _, toy_one_height) qc toy_cand0.
Proof. intros _ i Hi Hgood. apply toy_sends; [by apply set_bits_bound in Hi|done]. Qed.
Lemma toy_collides_with_none :
  collides_with_none (H := release) (toy_set 4) [3%nat] (λ _, toy_one_height) toy_cand0.
Proof.
  intros i e d Hgood [Hi Hid]%toy_set_entry Hd _. rewrite Hid in Hd.
  destruct (vd_outcome_parts _ _ _ _ _ _ _ (toy_one_height_outcome i (toy_honest i Hi Hgood)))
    as (_ & _ & _ & _ & Hs). rewrite Hs in Hd.
  by apply list_elem_of_singleton in Hd.
Qed.

(** ** Outside the hypotheses *)

(** A macro call of the toy host; the micro certificates of two windows *)
Definition toy_macro (c : macro_call) : macro_input := (c, toy_ten_rounds).
Definition toy_window (b : Z) : macro_call :=
  MC_micro [MkMicroQc (h_of b) (MkBlsAggSig (MkBlsSig []) [])].
Definition toy_root (b : Z) : Hash32 := micro_root_of_ring [h_of b].
Definition toy_first : MacroCheckpoint := build 0 0 Hash32_zero (toy_root 1).
Definition toy_second : MacroCheckpoint := build 1 0 (mc_hash toy_first) (toy_root 2).
Definition toy_second' : MacroCheckpoint := build 1 0 (mc_hash toy_first) (toy_root 3).
(** The first checkpoint with the parent of the second, under its old hash *)
Definition toy_replayed : MacroCheckpoint := toy_first <| mc_parent := mc_hash toy_first |>.

Definition toy_replay : list macro_input := toy_macro <$>
  [toy_window 1; MC_qc (MkMacroQc (mc_hash toy_first) Mode0Flat
                          (MkBlsAggSig (toy_partial 0 toy_first) [1]));
   toy_window 2; MC_proposal (toy_proposal 0 toy_second);
   MC_proposal (toy_proposal 1 toy_replayed);
   toy_window 3; MC_proposal (toy_proposal 1 toy_second')].

(** The handler does not recompute the hash of a proposal: a backup proposer that sends the
    adopted checkpoint again, under its hash but with the current parent, makes a validator lock
    the old height, forget its lock at the current one, sign a second checkpoint there once the
    candidate is rebuilt, and report its own double vote. *)
Example replayed_proposal_equivocates :
  let run := macro_run (H := release) toy_window_cfg toy_replay (MacroBook_new (toy_id 2)) in
  mc_height toy_second = mc_height toy_second' ∧ mc_hash toy_second ≠ mc_hash toy_second' ∧
  partials_sent run.1 = [(toy_id 2, mc_hash toy_second); (toy_id 2, mc_hash toy_first);
                         (toy_id 2, mc_hash toy_second')] ∧
  existsb (λ a, match a with
                | EmitSlashEvidence v ev => bool_decide (v = toy_id 2) && vote_evidence ev
                | _ => false
                end) run.1 = true.
Proof. vm_compute. split_and!; done. Qed.

Definition proposals_made (acts : Actions) : list MacroProposal :=
  omap (λ a, match a with BroadcastMacroProposal p => Some p | _ => None end) acts.
(** The toy host, signing with the key of the [i]-th validator *)
Definition toy_signing_host (i : nat) : HostContext :=
  let h := toy_ten_rounds in
  MkHostContext (dag_vertex h) (dag_vertices_at_round h) (valset_set_for h) (beacon_current h)
    (λ d msg, Ok (sign (toy_key i) d msg)) (vrf_prove h).

(** Each time the window fills before a certificate comes, the candidate at [next_height] is
    rebuilt and its primary signs another proposal for it: evidence that convicts it. *)
Example primary_proposes_twice :
  let run := macro_run (H := release) toy_window_cfg
    [(toy_window 1, toy_signing_host 0); (toy_window 2, toy_signing_host 0)]
    (MacroBook_new (toy_id 0)) in
  match proposals_made run.1 with
  | [p; q] => mc_height (mp_checkpoint p) = mc_height (mp_checkpoint q) ∧
      mc_hash (mp_checkpoint p) ≠ mc_hash (mp_checkpoint q) ∧
      verify_evidence (SE_MacroEquivocation (equivocation_detect (toy_id 0) p q)) (toy_set 4) = Ok tt
  | _ => False
  end.
Proof. vm_compute. split_and!; done. Qed.

(** ** Properties *)

(** [C4] One macro vote per height.  A validator whose host makes fewer than [2^64] calls, in any
    order and in either build, signs checkpoints of one hash at most per height, however often
    candidates are rebuilt, locks replaced and calls fail: each partial signature it broadcasts
    is its own and for such a checkpoint, and its macro layer reports no double or surrounding
    vote.  This holds as long as every proposal received carries the hash of its content, which
    the handler does not check ([replayed_proposal_equivocates] is what happens otherwise), and
    no two of the checkpoints at hand collide. *)
Theorem macro_votes_once
    `{Build, Primitives, MacroBorsh, !Borsh SignableVertex, !Borsh (list Hash32)}
    `{PendingBlobSource P} id (v : Validator P) :
  careful id v →
  (∀ c d, c ∈ vd_signed id v → d ∈ vd_signed id v → mc_height c = mc_height d →
     mc_hash c = mc_hash d) ∧
  (∀ w h, (w, h) ∈ partials_sent (vd_actions id v) →
     w = id ∧ ∃ c, c ∈ vd_signed id v ∧ genuine c ∧ mc_hash c = h) ∧
  (∀ w ev, EmitSlashEvidence w ev ∈
     (macro_run (vd_cfg v) (vd_macro_calls id v) (MacroBook_new id)).1 → vote_evidence ev = false).
Proof. apply careful_votes. Qed.

Lemma macro_votes_once_witness :
  let id := toy_id 2 in let v := toy_two_heights in
  vd_signed (H := release) id v = [toy_cand0; toy_cand1] ∧
  (∀ c d, c ∈ vd_signed (H := release) id v → d ∈ vd_signed (H := release) id v →
     mc_height c = mc_height d → mc_hash c = mc_hash d) ∧
  (∀ w h, (w, h) ∈ partials_sent (vd_actions (H := release) id v) →
     w = id ∧ ∃ c, c ∈ vd_signed (H := release) id v ∧ genuine c ∧ mc_hash c = h) ∧
  (∀ w ev, EmitSlashEvidence w ev ∈ (macro_run (H := release) (vd_cfg v)
     (vd_macro_calls (H := release) id v) (MacroBook_new id)).1 → vote_evidence ev = false).
Proof.
  split; [exact toy_two_heights_signed|].
  apply (macro_votes_once (H := release) (toy_id 2) toy_two_heights).
  exact toy_two_heights_careful.
Defined.

(** [C3] Agreement of macro finality.  Among [3f + 1] validators of which at most [f] are
    faulty, two macro certificates that verify for checkpoints of the same height, and carry
    [2f + 1] bits each, are for the same checkpoint hash.  Of the signature scheme unforgeability
    is assumed.  Each honest validator runs any sequence of fewer than [2^64] calls, in either
    build, in which every proposal it receives carries the hash of its content, which the handler
    does not check ([replayed_proposal_equivocates] is a run without), and no two of the
    checkpoints it has at hand collide ([careful]); nor does a certified checkpoint collide with
    another that an honest validator signs. *)
Theorem macro_certificates_agree
    `{Build, Primitives, MacroBorsh, !Borsh SignableVertex, !Borsh (list Hash32)}
    `{PendingBlobSource P} set (f : nat) (faulty : list nat) (vds : nat → Validator P)
    qc1 qc2 c1 c2 :
  length (vs_entries set) = (3 * f + 1)%nat → (length faulty ≤ f)%nat →
  (∀ i e, i ∉ faulty → vs_entries set !! i = Some e → careful (ve_id e) (vds i)) →
  macro_unforgeable set faulty vds qc1 c1 → macro_unforgeable set faulty vds qc2 c2 →
  collides_with_none set faulty vds c1 → collides_with_none set faulty vds c2 →
  verify_macro_qc set qc1 c1 = true → verify_macro_qc set qc2 c2 = true →
  quorum_threshold (length (vs_entries set)) ≤ length (qc_signers set qc1) →
  quorum_threshold (length (vs_entries set)) ≤ length (qc_signers set qc2) →
  mc_height c1 = mc_height c2 → mc_hash c1 = mc_hash c2.
Proof.
  intros Hn Hf Hok Hu1 Hu2 Hc1 Hc2 Hv1 Hv2 Hq1 Hq2.
  apply (backed_agree set f faulty vds); [done..| |]; by eapply qc_backed.
Qed.

Lemma macro_certificates_agree_witness :
  toy_qc_a ≠ toy_qc_b ∧ mc_hash toy_cand0 = mc_hash toy_cand0.
Proof.
  split; [intros Hq; discriminate (f_equal (λ q, agg_bitmap (qc_agg q)) Hq)|].
  apply (macro_certificates_agree (H := release) (toy_set 4) 1 [3%nat] (λ _, toy_one_height)
    toy_qc_a toy_qc_b).
  - reflexivity.
  - apply le_n.
  - intros i e Hgood [Hi ->]%toy_set_entry. by apply toy_one_height_careful, toy_honest.
  - apply toy_macro_unforgeable.
  - apply toy_macro_unforgeable.
  - apply toy_collides_with_none.
  - apply toy_collides_with_none.
  - by vm_compute.
  - by vm_compute.
  - by vm_compute.
  - by vm_compute.
  - reflexivity.
Defined.
