(* ===== verification/MacroFinality.v ===== *)
(** Honest validators finalize along one chain.

    The checkpoints a validator has adopted, one per height below [next_height], form a chain
    from height 0 to [last_macro_hash]; what it reports as finalized is the blob of a checkpoint
    on the chain with its successor adopted on top ([finalized_is_two_chained]).  When the
    certificates that honest validators adopt are backed by quorums, their chains agree as far
    as both go ([finality_agrees]). *)

From S2P Require Import Prelude Bytes Types Crypto Toy Config Leader Dag Linearize Bullshark.
From S2P Require Import MacroState MacroAgg Slashing MacroFin MacroChain VertexCert StateMachine.
From S2P Require Import MacroSafety MacroAgreement.
Open Scope Z_scope.

(** [cp] is the checkpoint adopted at [h]. *)
Definition chained (b : MacroBook) (h : Z) (cp : MacroCheckpoint) : Prop :=
  0 ≤ h < next_height b ∧ candidate b !! h = Some cp.

Section chain.
Context `{Build, Primitives, MacroBorsh} (L : list (Z * Hash32)) (b : MacroBook).
Context (HF : frontier L b).

Lemma chained_next h : 0 ≤ h < next_height b → ∃ cp, chained b h cp.
Proof.
  intros Hh. remember (Z.to_nat (next_height b - 1 - h)) as n eqn:Hn.
  revert h Hh Hn. induction n as [|n IH]; intros h Hh Hn.
  - destruct (fr_last _ _ HF) as [[? _]|(_ & p & Hp & _)]; [lia|].
    exists p. split; [done|]. by replace h with (next_height b - 1) by lia.
  - destruct (IH (h + 1) ltac:(lia) ltac:(lia)) as (c & _ & Hc).
    destruct (fr_parent _ _ HF _ _ Hc) as [[? _]|(p & Hp & _)]; [lia|].
    exists p. split; [done|]. by rewrite Z.add_simpl_r in Hp.
Qed.

Lemma chained_linked h c d : chained b h c → chained b (h + 1) d → mc_parent d = mc_hash c.
Proof.
  intros [Hh Hc] [_ Hd]. destruct (fr_parent _ _ HF _ _ Hd) as [[? _]|(p & Hp & Hpar)]; [lia|].
  rewrite Z.add_simpl_r in Hp. congruence.
Qed.

Lemma chained_top h c : chained b h c → h + 1 = next_height b → last_macro_hash b = mc_hash c.
Proof.
  intros [Hh Hc] Ht. destruct (fr_last _ _ HF) as [[? _]|(_ & p & Hp & ->)]; [lia|].
  replace (next_height b - 1) with h in Hp by lia. congruence.
Qed.

Lemma finalized_chained x :
  finalized_head (two_chain b) = Some x → ∃ h c, chained b h c ∧ mc_hash c = x.
Proof.
  intros (h & c & Hh & Hc & Hx)%(fr_final _ _ HF). exists h, c. split; [|done]. split; [|done].
  destruct (fr_candidate _ _ HF _ _ Hc) as (_ & _ & ?). lia.
Qed.

Lemma chained_emitted h c : chained b h c → mc_height c = h ∧ mc_hash c ∈ emitted_macro_qc b.
Proof.
  intros [Hh Hc]. split; [apply (fr_candidate _ _ HF _ _ Hc)|]. by apply (fr_done _ _ HF h); [|lia].
Qed.
End chain.

(** ** Finality of a validator *)
Section finality.
Context `{Build, Primitives, MacroBorsh}.

Lemma macro_handle_finalizes cfg i b :
  wp (macro_handle cfg i) (λ r b', ∀ blob, UpdateBlobStatus blob Finalized ∈ said_by r →
    finalizes b' blob) b.
Proof.
  assert (Hres : ∀ m, wp m (macro_res b) b →
    wp m (λ r b', ∀ blob, UpdateBlobStatus blob Finalized ∈ said_by r → finalizes b' blob) b).
  { intros m Hm. eapply wp_mono; [|exact Hm]. intros r b' Hr. exact (mp_final _ _ _ Hr). }
  assert (Happ : ∀ m acts, (∀ blob, UpdateBlobStatus blob Finalized ∉ acts) →
    wp m (calm (λ all, ∃ more, all = acts ++ more ∧ silent more) b) b →
    wp m (λ r b', ∀ blob, UpdateBlobStatus blob Finalized ∈ said_by r → finalizes b' blob) b).
  { intros m acts Hno Hm. eapply wp_mono; [|exact Hm].
    intros [all| | |] b' [_ Hr] blob Hin; try by apply elem_of_nil in Hin.
    destruct Hr as (more & -> & Hs). apply elem_of_app in Hin as [Hin|Hin].
    - by destruct (Hno blob).
    - by destruct (silent_no_final more blob Hs). }
  destruct i as [[] ctx]; unfold macro_handle; cbn [fst snd].
  - eapply Happ; [|apply calm_on_local_micro_qcs]. by intros blob (qc & ? & _)%list_elem_of_fmap.
  - apply Hres, wp_on_macro_proposal.
  - apply Hres, wp_on_bls_partial.
  - apply Hres, wp_on_subnet_aggregate.
  - apply Hres, wp_on_macro_qc_received.
  - eapply Happ; [|apply calm_macro_on_timer_fired]. by intros blob ?%elem_of_nil.
Qed.

Context `{!Borsh SignableVertex, !Borsh (list Hash32), PendingBlobSource P} (fuel : nat).

(** The chain after a call, and what the call reports finalized *)
Lemma sm_final cfg id (queue : P) (ins : list sm_input) i r s' :
  length ins + 1 < 2 ^ 64 →
  sm_handle fuel i (sm_run fuel ins (StateMachine_new cfg id queue)).2 = (r, s') →
  chain_inv (sm_macros s') ∧
  ∀ blob, UpdateBlobStatus blob Finalized ∈ said_by r → finalizes (sm_macros s') blob.
Proof.
  intros Hlen Hrun. set (s0 := StateMachine_new cfg id queue) in *.
  assert (HC0 : chain_inv (sm_macros s0)) by apply chain_new.
  assert (Hn0 : next_height (sm_macros s0) = 0) by reflexivity. clearbody s0.
  destruct (sm_run_projects fuel ins s0) as (Hm & _ & _).
  pose proof (macro_inputs_length fuel ins s0) as Hl.
  assert (Hroom : next_height (sm_macros s0) + length (macro_inputs fuel ins s0) < 2 ^ 64) by lia.
  destruct (chain_run (sm_cfg s0) (macro_inputs fuel ins s0) (sm_macros s0) HC0 Hroom) as [HC Hn].
  rewrite <- Hm in HC, Hn.
  set (s := (sm_run fuel ins s0).2) in *. clearbody s.
  pose proof (sm_handle_projects fuel i s) as Hp. unfold wp in Hp. rewrite Hrun in Hp.
  destruct Hp as (_ & Hb & Hsaid). cbn [fst snd] in *.
  pose proof (macro_inputs_of_length fuel i s) as Hone. split.
  - rewrite Hb. apply chain_run; [done|lia].
  - intros blob Hin%Hsaid; [|done]. rewrite Hb. revert Hin.
    destruct (macro_inputs_of fuel i s) as [|j [|]]; [by intros ?%elem_of_nil| |cbn in Hone; lia].
    rewrite macro_run_one. apply (macro_handle_finalizes (sm_cfg s) j (sm_macros s)).
Qed.
End finality.

(** ** A concrete height *)

Lemma toy_book_adopted i : (i < 3)%nat →
  let b := vd_book (H := release) (toy_id i) toy_one_height in
  next_height b = 1 ∧ candidate b = {[0 := toy_cand0]} ∧
  emitted_macro_qc b ≡ {[mc_hash toy_cand0]}.
Proof.
  intros Hi. destruct (vd_outcome_parts _ _ _ _ _ _ _ (toy_one_height_outcome i Hi))
    as (Hn & Hc & He & _).
  intros b. fold b in Hn, Hc, He. clearbody b. split_and!.
  - exact Hn.
  - apply map_to_list_inj. rewrite Hc, map_to_list_singleton. reflexivity.
  - intros x. rewrite <- elem_of_elements, He. set_solver.
Qed.
Lemma toy_backed :
  backed (H := release) (toy_set 4) [3%nat] (λ _, toy_one_height) (mc_hash toy_cand0).
Proof. by apply (qc_backed _ _ _ toy_qc_a); [apply toy_macro_unforgeable|vm_compute..]. Qed.

(** ** Properties *)

(** [C2] Macro finality is safe.  Among [3f + 1] validators of which at most [f] are faulty, let
    every certificate that two honest ones adopted be backed by a quorum of partial signatures
    (of an honest signer, one it broadcast).  Then the checkpoints each has adopted form one
    chain, a checkpoint for every height below the next, each the parent of its successor; the
    two chains have the same hash at every height of both; and what either has finalized is on
    its chain.  Each honest validator runs any sequence of fewer than [2^64] calls, in either
    build, in which every proposal it receives carries the hash of its content, which the handler
    does not check ([replayed_proposal_equivocates] is a run without), and no two of the
    checkpoints it has at hand collide ([careful]); nor does an adopted checkpoint collide with
    another that an honest validator signs. *)
Theorem finality_agrees
    `{Build, Primitives, MacroBorsh, !Borsh SignableVertex, !Borsh (list Hash32)}
    `{PendingBlobSource P} set (f : nat) (faulty : list nat) (vds : nat → Validator P) i j ei ej :
  length (vs_entries set) = (3 * f + 1)%nat → (length faulty ≤ f)%nat →
  (∀ k e, k ∉ faulty → vs_entries set !! k = Some e → careful (ve_id e) (vds k)) →
  i ∉ faulty → j ∉ faulty → vs_entries set !! i = Some ei → vs_entries set !! j = Some ej →
  let bi := vd_book (ve_id ei) (vds i) in
  let bj := vd_book (ve_id ej) (vds j) in
  (∀ x, x ∈ emitted_macro_qc bi ∪ emitted_macro_qc bj → backed set faulty vds x) →
  (∀ h c, chained bi h c ∨ chained bj h c → collides_with_none set faulty vds c) →
  (∀ h c d, chained bi h c → chained bj h d → mc_hash c = mc_hash d) ∧
  (∀ b, b = bi ∨ b = bj →
     (∀ h, 0 ≤ h < next_height b → ∃ c, chained b h c) ∧
     (∀ h c d, chained b h c → chained b (h + 1) d → mc_parent d = mc_hash c) ∧
     (∀ x, finalized_head (two_chain b) = Some x → ∃ h c, chained b h c ∧ mc_hash c = x)).
Proof.
  intros Hn Hf Hok Hi Hj Hei Hej bi bj Hback Hcol.
  destruct (careful_run (ve_id ei) (vds i) (Hok i ei Hi Hei)) as (Li & HFi & _).
  destruct (careful_run (ve_id ej) (vds j) (Hok j ej Hj Hej)) as (Lj & HFj & _).
  fold bi in HFi. fold bj in HFj. split.
  - intros h c d Hc Hd.
    destruct (chained_emitted Li bi HFi h c Hc) as [Hhc Hxc].
    destruct (chained_emitted Lj bj HFj h d Hd) as [Hhd Hxd].
    apply (backed_agree set f faulty vds); [done..|by eapply Hcol; left|by eapply Hcol; right| | |].
    + by apply Hback, elem_of_union_l.
    + by apply Hback, elem_of_union_r.
    + congruence.
  - intros b Hb. assert (∃ L, frontier L b) as [L HF] by (destruct Hb as [-> | ->]; eauto).
    split_and!.
    + by apply (chained_next L).
    + by apply (chained_linked L).
    + by apply (finalized_chained L).
Qed.

Lemma finality_agrees_witness :
  ∃ id0 id1, id0 = toy_id 0 ∧ id1 = toy_id 1 ∧
  let b0 := vd_book (H := release) id0 toy_one_height in
  let b1 := vd_book (H := release) id1 toy_one_height in
  chained b0 0 toy_cand0 ∧
  (∀ h c d, chained b0 h c → chained b1 h d → mc_hash c = mc_hash d) ∧
  (∀ b, b = b0 ∨ b = b1 →
     (∀ h, 0 ≤ h < next_height b → ∃ c, chained b h c) ∧
     (∀ h c d, chained b h c → chained b (h + 1) d → mc_parent d = mc_hash c) ∧
     (∀ x, finalized_head (two_chain b) = Some x → ∃ h c, chained b h c ∧ mc_hash c = x)).
Proof.
  destruct (toy_book_adopted 0 ltac:(lia)) as (N0 & C0 & E0).
  destruct (toy_book_adopted 1 ltac:(lia)) as (N1 & C1 & E1).
  destruct (toy_set_lookup 0 ltac:(lia)) as (e0 & He0 & Hid0).
  destruct (toy_set_lookup 1 ltac:(lia)) as (e1 & He1 & Hid1).
  rewrite <- Hid0 in N0, C0, E0. rewrite <- Hid1 in N1, C1, E1.
  exists (ve_id e0), (ve_id e1). split; [exact Hid0|]. split; [exact Hid1|]. cbv zeta.
  split; [split; [rewrite N0; lia|by rewrite C0]|].
  apply (finality_agrees (H := release) (toy_set 4) 1 [3%nat] (λ _, toy_one_height) 0 1 e0 e1).
  - reflexivity.
  - apply le_n.
  - intros k e Hgood [Hk ->]%toy_set_entry. by apply toy_one_height_careful, toy_honest.
  - by rewrite list_elem_of_singleton.
  - by rewrite list_elem_of_singleton.
  - exact He0.
  - exact He1.
  - intros x. rewrite E0, E1. intros [Hx|Hx]%elem_of_union;
      apply elem_of_singleton in Hx; subst x; apply toy_backed.
  - intros h c [[_ Hc]|[_ Hc]]; [rewrite C0 in Hc|rewrite C1 in Hc];
      apply lookup_singleton_Some in Hc as [_ <-]; apply toy_collides_with_none.
Defined.

(** [C6] Finality is justified.  Along any sequence of fewer than [2^64] calls to a new validator,
    whichever events come, whatever proposals carry and whatever the host answers, in either
    build: a call that reports the blob of a checkpoint finalized ends with a checkpoint adopted
    at some height, its child adopted at the next height and naming it as its parent, it as the
    head of the finalized chain, and the blob is that of the candidate of its hash at its
    height. *)
Theorem finalized_is_two_chained
    `{Build, Primitives, MacroBorsh, !Borsh SignableVertex, !Borsh (list Hash32)}
    `{PendingBlobSource P} fuel cfg id (queue : P) (ins : list sm_input) i acts s' blob :
  length (ins ++ [i]) < 2 ^ 64 →
  sm_handle fuel i (sm_run fuel ins (StateMachine_new cfg id queue)).2 = (Ok acts, s') →
  UpdateBlobStatus blob Finalized ∈ acts →
  ∃ height cp child c,
    adopted (two_chain (sm_macros s')) !! height = Some cp ∧
    adopted (two_chain (sm_macros s')) !! (height + 1) = Some child ∧
    mc_parent child = mc_hash cp ∧
    finalized_head (two_chain (sm_macros s')) = Some (mc_hash cp) ∧
    candidate (sm_macros s') !! height = Some c ∧ mc_hash c = mc_hash cp ∧
    blob = blob_id_of_checkpoint c.
Proof.
  intros Hlen Hrun Hblob. rewrite length_app in Hlen. cbn [length] in Hlen.
  destruct (sm_final fuel cfg id queue ins i (Ok acts) s' ltac:(lia) Hrun) as [HC Hfin].
  by apply (chain_finalizes _ _ HC), Hfin.
Qed.

Lemma finalized_is_two_chained_witness :
  ∃ height cp child c,
    adopted (two_chain (sm_macros toy_final.2)) !! height = Some cp ∧
    adopted (two_chain (sm_macros toy_final.2)) !! (height + 1) = Some child ∧
    mc_parent child = mc_hash cp ∧
    finalized_head (two_chain (sm_macros toy_final.2)) = Some (mc_hash cp) ∧
    candidate (sm_macros toy_final.2) !! height = Some c ∧ mc_hash c = mc_hash cp ∧
    blob_id_of_checkpoint toy_cand0 = blob_id_of_checkpoint c.
Proof.
  apply (finalized_is_two_chained (H := checked) 60 toy_window_cfg (toy_id 2) tt toy_before
    (toy_qc_event toy_cand1) toy_final_acts).
  - reflexivity.
  - assert (Hok : toy_final.1 = Ok toy_final_acts) by (vm_compute; reflexivity).
    rewrite <- Hok. apply surjective_pairing.
  - do 3 right. by left.
Defined.
