(* ===== verification/MacroProgress.v ===== *)
(** A quorum of partial signatures makes a certificate.

    Outside subnet mode, the validator with the smallest identifier among the signers assembles
    the macro certificate.  Given valid partial signatures of a quorum in any order, it adopts
    the candidate ([quorum_certifies]); no other validator does, so that a signer with the
    smallest identifier that stays silent afterwards stalls finality
    ([lowest_signer_stalls]). *)

From S2P Require Import Prelude Bytes Types Crypto Toy Config Leader Dag Linearize Bullshark.
From S2P Require Import MacroState MacroAgg Slashing MacroFin MacroChain VertexCert StateMachine MacroSafety.
From S2P Require Import MacroAgreement.
Open Scope Z_scope.

(** ** Aggregation succeeds *)
Section aggregation.
Context `{Primitives, MacroBorsh}.

(** What the code relies on of blst: signatures that verify can be aggregated. *)
Definition aggregates : Prop := ∀ pks sigs msg dst,
  sigs ≠ [] → Forall2 (λ pk s, blst_verify s msg dst pk = true) pks sigs →
  is_Some (blst_sig_aggregate sigs).

Context (Hagg : aggregates).

Lemma aggregate_sigs_total pks sigs dst msg :
  sigs ≠ [] → Forall2 (λ pk sig, verify pk dst msg sig = Ok tt) pks sigs →
  is_Some (aggregate_ok sigs).
Proof.
  intros Hne Hall.
  assert (Hp : ∃ parsed : list blst_sig, omap_list (E := CryptoError) (λ s,
      match blst_sig_uncompress (bsig_bytes s) with
      | Some p => Ok p
      | None => Err (BlsAggregateFailed "invalid sig")
      end) sigs = Ok parsed ∧ length parsed = length sigs ∧
    Forall2 (λ pk s, blst_verify s msg dst pk = true) pks parsed).
  { clear Hne. induction Hall as [|pk sig pks sigs Hv _ (parsed & Hp & Hl & IH)]; [by exists []|].
    apply verify_Ok in Hv as (s & Hs & Hv). exists (s :: parsed). cbn. rewrite Hs. cbn. rewrite Hp.
    split_and!; [done|cbn; by rewrite Hl|by constructor]. }
  destruct Hp as (parsed & Hp & Hl & Hv).
  destruct (Hagg pks parsed msg dst) as [agg Ha]; [by destruct parsed, sigs|done|].
  unfold aggregate_ok, aggregate_sigs. destruct sigs as [|sig sigs]; [done|].
  rewrite Hp. cbn. by rewrite Ha.
Qed.

(** Enough signers, each with a valid signature at hand, make a certificate. *)
Lemma try_finalize_mode0_total set cp ps (signers : gset ValidatorId) :
  sigs_valid set cp ps → vs_entries set ≠ [] →
  (∀ v, v ∈ signers → v ∈ ve_id <$> vs_entries set ∧ is_Some (ps !! (mc_hash cp, v))) →
  need_of (length (vs_entries set)) ≤ size signers →
  is_Some (try_finalize_mode0 (mc_hash cp) signers ps set cp).
Proof.
  intros Hv Hn Hin Hneed. set (es := filter (λ e, ve_id e ∈ signers) (vs_entries set)).
  assert (Hes : ∀ e, e ∈ es → ve_id e ∈ signers ∧ e ∈ vs_entries set)
    by (by intros e ?%list_elem_of_filter).
  assert (is_Some (signer_sigs (mc_hash cp) ps es)) as [sigs Hs].
  { unfold signer_sigs. apply mapM_is_Some_2. apply Forall_forall. intros e He.
    apply (Hin (ve_id e)). by apply Hes. }
  destruct (signer_sigs_valid set cp ps es sigs Hv (λ e He, proj2 (Hes e He)) Hs) as (pks & _ & Hall).
  assert (Hne : sigs ≠ []).
  { intros ->. apply length_mapM in Hs. assert (∃ v, v ∈ signers) as [v Hsv].
    { apply set_choose. intros He%size_empty_iff. rewrite He in Hneed.
      assert (length (vs_entries set) ≠ 0%nat) by by rewrite length_zero_iff_nil.
      unfold need_of in Hneed. dlia. }
    destruct (Hin v Hsv) as [(e & -> & He)%list_elem_of_fmap _].
    assert (e ∈ es) as Hee by by apply list_elem_of_filter. destruct es; [|done].
    by apply elem_of_nil in Hee. }
  destruct (aggregate_sigs_total pks sigs _ _ Hne Hall) as [agg Ha].
  unfold try_finalize_mode0. rewrite bool_decide_eq_false_2 by by destruct (vs_entries set).
  destruct (Z.ltb_spec (size signers) (need_of (length (vs_entries set)))); [lia|].
  fold es. rewrite Hs. cbn. rewrite Ha. by eexists.
Qed.
End aggregation.

(** ** A round of partial signatures *)
Section round.
Context `{Build, Primitives, MacroBorsh} (Hagg : aggregates).
Context (cfg : Config) (ctx : HostContext) (set : ValidatorSet) (h : Z) (c : MacroCheckpoint).
Abbreviation MF := (M Error MacroBook).
Abbreviation hash := (mc_hash c).

(** Candidate [c] at height [h] waits for its certificate outside subnet mode; the host answers. *)
Record assembling (s : MacroBook) : Prop := {
  as_found : find_candidate s hash = Some (h, c);
  as_new : hash ∉ emitted_macro_qc s;
  as_signed v : v ∈ partials_of s hash →
    v ∈ ve_id <$> vs_entries set ∧ is_Some (partial_sigs s !! (hash, v));
  as_valid : sigs_valid set c (partial_sigs s);
  as_mode : ∃ mode, active_mode s cfg set h = Ok mode ∧ mode ≠ ModeASubnet;
  as_beacon : ∃ beacon assign, beacon_for_height s ctx h = Ok beacon ∧
    subnet_assign cfg set beacon = Ok assign;
}.
(** It is adopted. *)
Definition certified (s : MacroBook) : Prop :=
  find_candidate s hash = Some (h, c) ∧ hash ∈ emitted_macro_qc s ∧
  next_height s = h + 1 ∧ last_macro_hash s = hash.
(** A partial signature for it, in the flat topic *)
Definition flat_partial (bp : BlsPartial) : Prop :=
  verify_partial set bp c = true ∧ subnet_u32 (bp_subnet bp) = 0.

Context (Hset : active_set ctx = Ok set) (Hnd : NoDup (ve_id <$> vs_entries set)).
Context (Hh : 0 ≤ h ∧ h + 1 < 2 ^ 64).

Lemma verify_partial_true bp : verify_partial set bp c = true →
  bp_checkpoint_hash bp = hash ∧ ∃ e pk, e ∈ vs_entries set ∧ ve_id e = bp_validator bp ∧
    pk_from_entry e = Some pk ∧
    verify pk dst.MACRO_CHECKPOINT (checkpoint_message c) (bp_sig bp) = Ok tt.
Proof.
  unfold verify_partial. case_bool_decide as Hb; [done|]. unfold entry_for.
  destruct (list_find _ _) as [[i e]|] eqn:Hf; [|done]. cbn.
  apply list_find_Some in Hf as (He%list_elem_of_lookup_2 & Hid & _).
  destruct (pk_from_entry e) as [pk|] eqn:Hpk; [|done]. intros [[] Hv]%is_ok_true.
  split; [by destruct (decide (bp_checkpoint_hash bp = hash))|]. by exists e, pk.
Qed.

Lemma front_certified s s' :
  front s' = front s → certified s → certified s'.
Proof.
  intros [= _ Hn Hl Hc He _ _ _ _] (? & ? & ? & ?).
  unfold certified, find_candidate in *. by rewrite Hn, Hl, Hc, He.
Qed.

Lemma finality_tail_certified s :
  certified s → wp (finality_tail cfg) (λ _ s', certified s') s.
Proof.
  intros Hs. unfold finality_tail. apply wp_bind, wp_gets, wp_bind.
  eapply wp_mono; [|apply still_note_leak]. intros r s1 [Hf _].
  pose proof (front_certified s s1 Hf Hs) as Hs1. destruct r; try done.
  destruct (newly_finalized_height _); [|by apply wp_ret].
  apply wp_bind, wp_modify, wp_bind, wp_gets, wp_ret. exact Hs1.
Qed.

Lemma finish_certified qc signers s :
  find_candidate s hash = Some (h, c) → qc_checkpoint_hash qc = hash →
  wp (finish_macro_qc_adoption cfg h c qc signers) (λ _ s', certified s') s.
Proof.
  intros Hf Hq. unfold finish_macro_qc_adoption, adopt_macro_qc.
  apply wp_bind, wp_bind, wp_modify, wp_bind, wp_lift.
  rewrite add_w_ok by (unfold uint_ok; lia). apply wp_bind, wp_modify.
  set (s1 := record_adoption _ _ _).
  assert (Hs1 : certified s1).
  { split_and!; [done| |done..]. change (hash ∈ {[qc_checkpoint_hash qc]} ∪ emitted_macro_qc s).
    rewrite Hq. set_solver. }
  apply wp_bind. eapply wp_mono; [|apply still_bump_reputation]. intros r s2 [Hf2 _].
  pose proof (front_certified s1 s2 Hf2 Hs1) as Hs2. destruct r; try done.
  apply wp_bind. eapply wp_mono; [|by apply finality_tail_certified].
  intros r s3 Hs3. by destruct r.
Qed.

Lemma certified_partial bp s :
  flat_partial bp → certified s → wp (on_bls_partial cfg bp ctx) (λ _ s', certified s') s.
Proof.
  intros [Hv _] (Hf & He & Hn & Hl). destruct (verify_partial_true bp Hv) as [Hb _].
  unfold on_bls_partial. apply wp_bind, wp_gets. unfold id. rewrite Hb, Hf.
  apply find_candidate_Some in Hf as Hc. destruct Hc as [Hc _].
  apply wp_bind, wp_lift. rewrite Hset, Hc, Hv. cbn [negb]. apply wp_bind, wp_modify.
  rewrite bool_decide_eq_true_2 by done. by apply wp_ret.
Qed.

(** A verified signature added to the book *)
Lemma sigs_valid_insert bp s :
  flat_partial bp → sigs_valid set c (partial_sigs s) →
  sigs_valid set c (<[(hash, bp_validator bp) := bp_sig bp]> (partial_sigs s)).
Proof.
  intros [Hv _] Hs e sig He [[Hid <-]|[_ Hl]]%lookup_insert_Some; [|by apply (Hs e)].
  apply verify_partial_true in Hv as (_ & e' & pk & He' & Hid' & Hpk & Hok).
  assert (e' = e) as ->; [|by exists pk]. injection Hid as Hid.
  apply list_elem_of_lookup in He as [i Hi], He' as [j Hj].
  assert (j = i) as ->; [|congruence].
  apply (NoDup_lookup _ _ _ (ve_id e) Hnd); rewrite list_lookup_fmap, ?Hi, ?Hj; cbn; congruence.
Qed.

(** What one more partial signature does: the certificate is assembled, or the signers are not yet
    a quorum with this validator in front. *)
Definition waiting (self : ValidatorId) (signers : gset ValidatorId) (s : MacroBook) : Prop :=
  assembling s ∧ mb_self_id s = self ∧ partials_of s hash = signers ∧
  ¬ (btree_min signers = Some self ∧ need_of (length (vs_entries set)) ≤ size signers).

Definition with_partial (bp : BlsPartial) (s : MacroBook) : MacroBook :=
  add_partial hash (bp_validator bp)
    (s <| partial_sigs ::= <[(hash, bp_validator bp) := bp_sig bp]> |>).

Lemma with_partial_signers bp s :
  partials_of (with_partial bp s) hash = {[bp_validator bp]} ∪ partials_of s hash.
Proof.
  change (default ∅ (<[hash := {[bp_validator bp]} ∪ partials_of s hash]> (partials s) !! hash) =
    {[bp_validator bp]} ∪ partials_of s hash). by rewrite lookup_insert_eq.
Qed.

Lemma assembling_with bp s : flat_partial bp → assembling s → assembling (with_partial bp s).
Proof.
  intros Hbp [F1 F2 F3 F4 F5 F6]. split; [done|done| |by apply sigs_valid_insert|done..].
  intros v. rewrite with_partial_signers.
  change (partial_sigs (with_partial bp s)) with
    (<[(hash, bp_validator bp) := bp_sig bp]> (partial_sigs s)).
  intros [->%elem_of_singleton|Hv]%elem_of_union.
  - rewrite lookup_insert_eq. split; [|done]. destruct Hbp as [Hv _].
    apply verify_partial_true in Hv as (_ & e & _ & He & <- & _). by apply list_elem_of_fmap_2.
  - apply F3 in Hv as [? [sig ?]]. split; [done|].
    destruct (decide (bp_validator bp = v)) as [->|]; [by rewrite lookup_insert_eq|].
    rewrite lookup_insert_ne by congruence. by exists sig.
Qed.

Lemma partial_flat_progress bp mode s :
  flat_partial bp → assembling s → mode ≠ ModeASubnet → bp_checkpoint_hash bp = hash →
  candidate s !! h = Some c → vs_entries set ≠ [] →
  let s0 := s <| partial_sigs ::= <[(hash, bp_validator bp) := bp_sig bp]> |> in
  wp (on_partial_flat cfg bp set h mode) (λ _ s', certified s' ∨
    waiting (mb_self_id s) ({[bp_validator bp]} ∪ partials_of s hash) s') s0.
Proof.
  intros Hbp Has Hmode Hb Hc Hne s0. unfold on_partial_flat. rewrite (proj2 Hbp), andb_false_r.
  apply wp_bind, wp_modify. rewrite Hb. change (add_partial hash _ s0) with (with_partial bp s).
  pose proof (assembling_with bp s Hbp Has) as Has1. pose proof (with_partial_signers bp s) as Hsig.
  set (s1 := with_partial bp s) in *. apply wp_bind, wp_gets. unfold id. rewrite Hsig.
  set (signers := {[bp_validator bp]} ∪ partials_of s hash) in *.
  assert (Hwait : ¬ (btree_min signers = Some (mb_self_id s) ∧
    need_of (length (vs_entries set)) ≤ size signers) → waiting (mb_self_id s) signers s1) by done.
  destruct (negb _) eqn:Hfront.
  { apply wp_ret. right. apply Hwait. apply negb_true_iff, bool_decide_eq_false in Hfront.
    intros [Hm _]. by apply Hfront. }
  change (candidate s1 !! h) with (candidate s !! h). rewrite Hc. cbn [from_option].
  assert (Hmode0 : try_finalize_mode0 hash signers (partial_sigs s1) set c = None →
    ¬ (btree_min signers = Some (mb_self_id s) ∧
       need_of (length (vs_entries set)) ≤ size signers)).
  { intros Hnone [_ Hneed].
    destruct (try_finalize_mode0_total Hagg set c (partial_sigs s1) signers) as [qc Hqc];
      [apply Has1|done| |done|congruence]. intros v. rewrite <- Hsig. apply Has1. }
  assert (Hf : find_candidate s1 hash = Some (h, c)) by apply Has1.
  destruct (if bool_decide (mode = ModeBLeaderless) then _ else _) as [qc|] eqn:Hqc.
  - eapply wp_mono; [|apply (finish_certified qc signers); [done|]]; [by left|].
    case_bool_decide; [by eapply try_finalize_mode_b_hash|by eapply try_finalize_mode0_hash].
  - apply wp_ret. right. apply Hwait, Hmode0. case_bool_decide; [|done].
    unfold try_finalize_mode_b in Hqc. by destruct (try_finalize_mode0 _ _ _ _ _).
Qed.

Lemma partial_progress bp s :
  flat_partial bp → assembling s →
  wp (on_bls_partial cfg bp ctx) (λ _ s', certified s' ∨
    waiting (mb_self_id s) ({[bp_validator bp]} ∪ partials_of s hash) s') s.
Proof.
  intros Hbp Has. destruct (verify_partial_true bp (proj1 Hbp)) as (Hb & e & _ & He & _).
  destruct (as_mode _ Has) as (mode & Hm & Hma), (as_beacon _ Has) as (beacon & assign & Hbe & Hsa).
  pose proof (as_found _ Has) as Hf. pose proof Hf as [Hc _]%find_candidate_Some.
  unfold on_bls_partial. apply wp_bind, wp_gets. unfold id. rewrite Hb, Hf.
  apply wp_bind, wp_lift. rewrite Hset, Hc, (proj1 Hbp). cbn [negb]. apply wp_bind, wp_modify.
  rewrite bool_decide_eq_false_2 by apply Has.
  apply wp_bind, wp_lift. rewrite Hm. apply wp_bind, wp_lift. rewrite Hbe.
  apply wp_bind, wp_lift. rewrite Hsa.
  assert (Hne : vs_entries set ≠ []) by (intros Hn; rewrite Hn in He; by apply elem_of_nil in He).
  destruct mode; [by apply partial_flat_progress|done|by apply partial_flat_progress].
Qed.

Definition partial_calls (bps : list BlsPartial) : list macro_input :=
  (λ bp, (MC_partial bp, ctx)) <$> bps.

Lemma partials_progress bps s :
  Forall flat_partial bps → assembling s → bps ≠ [] →
  let s' := (macro_run cfg (partial_calls bps) s).2 in
  certified s' ∨
  waiting (mb_self_id s) (list_to_set (bp_validator <$> bps) ∪ partials_of s hash) s'.
Proof.
  intros Hall Has. induction bps as [|bp bps IH] using rev_ind; [done|]. intros _ s'. subst s'.
  apply Forall_app in Hall as [Hall [Hbp _]%Forall_cons].
  unfold partial_calls. rewrite fmap_app, macro_run_app. cbn [fst snd fmap list_fmap].
  rewrite macro_run_one. cbn [snd]. unfold macro_handle. cbn [fst snd].
  fold (partial_calls bps). set (s1 := (macro_run cfg (partial_calls bps) s).2) in *.
  assert (Hs1 : certified s1 ∨ assembling s1 ∧ mb_self_id s1 = mb_self_id s ∧
    partials_of s1 hash = list_to_set (bp_validator <$> bps) ∪ partials_of s hash).
  { destruct bps as [|b bps]; [|by destruct (IH Hall) as [?|(? & ? & ? & _)]; [..|left|right]].
    right. split_and!; [done..|]. cbn. set_solver. }
  rewrite fmap_app, list_to_set_app_L. cbn [fmap list_fmap list_to_set].
  destruct Hs1 as [Hs1|(Has1 & Hid & Hpo)].
  - left. pose proof (certified_partial bp s1 Hbp Hs1) as Hw. exact Hw.
  - pose proof (partial_progress bp s1 Hbp Has1) as Hw. unfold wp in Hw.
    destruct Hw as [Hw|Hw]; [by left|right]. rewrite Hid, Hpo in Hw.
    replace (list_to_set (bp_validator <$> bps) ∪ ({[bp_validator bp]} ∪ ∅) ∪ partials_of s hash)
      with ({[bp_validator bp]} ∪ (list_to_set (bp_validator <$> bps) ∪ partials_of s hash))
      by set_solver. exact Hw.
Qed.
End round.

(** ** Concrete rounds *)
Lemma toy_aggregates : aggregates.
Proof.
  intros pks sigs msg dst Hne Hall. destruct Hall as [|pk s pks sigs Hs Hall]; [done|].
  cbn -[pack] in *. apply bool_decide_eq_true in Hs as ->.
  assert (forallb (λ s : Z * bytes, bool_decide (s.2 = pack [dst; msg])) sigs = true) as ->;
    [|by eexists].
  clear Hne. induction Hall as [|pk' s pks sigs Hs _ IH]; [done|]. cbn.
  apply bool_decide_eq_true in Hs as ->. rewrite bool_decide_eq_true_2 by done. exact IH.
Qed.

Definition toy_flat_partial (i : nat) : BlsPartial :=
  MkBlsPartial (MkSubnetId 0) (toy_id i) (mc_hash toy_checkpoint) (toy_partial i toy_checkpoint).
(** Validator [i] with a candidate at height 0 *)
Definition toy_waiting_book (i : nat) : MacroBook :=
  (MacroBook_new (toy_id i)) <| candidate := {[0 := toy_checkpoint]} |>.
Definition toy_round_run (i : nat) (signers : list nat) : Actions * MacroBook :=
  macro_run (H := checked) default_table_17_1 (partial_calls toy_host (toy_flat_partial <$> signers))
    (toy_waiting_book i).

(** All four validators signed; the second one holds every signature and adopts nothing, because
    the first one is the one to assemble. *)
Example lowest_signer_stalls :
  let r := toy_round_run 1 [0; 1; 2; 3]%nat in
  r.1 = [] ∧ next_height r.2 = 0 ∧ partials_of r.2 (mc_hash toy_checkpoint) =
    list_to_set (toy_id <$> [0; 1; 2; 3]%nat) ∧
  is_Some (try_finalize_mode0 (mc_hash toy_checkpoint) (partials_of r.2 (mc_hash toy_checkpoint))
             (partial_sigs r.2) (toy_set 4) toy_checkpoint).
Proof. split_and!; [vdecide..|]. vm_compute. by eexists. Qed.

(** The primary proposes without locking or voting, and nothing delivers its own proposal back to
    it, so a height has [n - 1] votes at most before the deadline of Mode B. *)
Example primary_does_not_vote :
  let r := macro_run (H := checked) toy_window_cfg [(toy_window 1, toy_signing_host 0)]
             (MacroBook_new (toy_id 0)) in
  length (proposals_made r.1) = 1%nat ∧ partials_sent r.1 = [] ∧
  lm_locks (locks r.2) = ∅ ∧ partials r.2 = ∅.
Proof. split_and!; vdecide. Qed.

(** ** Properties *)

(** [C11] A quorum of signatures is adopted.  Let a candidate wait for its certificate outside
    subnet mode, at a validator whose host answers and whose book holds the signatures of the
    signers it counts.  After any sequence of valid partial signatures for the candidate, if the
    signers counted are a quorum and this validator has the smallest identifier among them, the
    candidate is adopted: its hash is certified, it is the last checkpoint, and the next height
    is the one above it. *)
Theorem quorum_certifies `{Build, Primitives, MacroBorsh} cfg ctx set h c bps s :
  aggregates → active_set ctx = Ok set → NoDup (ve_id <$> vs_entries set) →
  0 ≤ h ∧ h + 1 < 2 ^ 64 → assembling cfg ctx set h c s →
  bps ≠ [] → Forall (flat_partial set c) bps →
  let signers := list_to_set (bp_validator <$> bps) ∪ partials_of s (mc_hash c) in
  btree_min signers = Some (mb_self_id s) → need_of (length (vs_entries set)) ≤ size signers →
  let s' := (macro_run cfg (partial_calls ctx bps) s).2 in
  find_candidate s' (mc_hash c) = Some (h, c) ∧ mc_hash c ∈ emitted_macro_qc s' ∧
  next_height s' = h + 1 ∧ last_macro_hash s' = mc_hash c.
Proof.
  intros Hagg Hset Hnd Hh Has Hne Hall signers Hmin Hneed s'.
  destruct (partials_progress Hagg cfg ctx set h c Hset Hnd Hh bps s Hall Has Hne)
    as [Hs|(_ & _ & _ & [])]; [exact Hs|by split].
Qed.

Lemma quorum_certifies_witness :
  let s' := (toy_round_run 0 [1; 0; 3]%nat).2 in
  find_candidate s' (mc_hash toy_checkpoint) = Some (0, toy_checkpoint) ∧
  mc_hash toy_checkpoint ∈ emitted_macro_qc s' ∧
  next_height s' = 0 + 1 ∧ last_macro_hash s' = mc_hash toy_checkpoint.
Proof.
  apply (quorum_certifies (H := checked) default_table_17_1 toy_host (toy_set 4) 0 toy_checkpoint
    (toy_flat_partial <$> [1; 0; 3]%nat) (toy_waiting_book 0)).
  - exact toy_aggregates.
  - reflexivity.
  - vdecide.
  - lia.
  - split; [by vm_compute|vdecide| | | |].
    + intros v Hv. cbn in Hv. by apply elem_of_empty in Hv.
    + apply sigs_validb_true. by vm_compute.
    + exists Mode0Flat. by vm_compute.
    + exists Hash32_zero. eexists. by vm_compute.
  - done.
  - repeat apply Forall_cons_2; try apply Forall_nil_2; by vm_compute.
  - by vm_compute.
  - by vm_compute.
Defined.
