(* ===== verification/Storage.v ===== *)
(** [crates/storage]: keys, column families and the stores over RocksDB.

    RocksDB is the class [RocksDb]: a handle with column families, point reads
    and writes, and atomic batches, each of which may fail.  [RocksLaws] is
    what the stores rely on: a write that succeeds is read back and touches no
    other key.  Borsh decoding is the class [Codec]. *)

From S2P Require Import Prelude Bytes Types Crypto Toy Config Dag MacroState.
Open Scope Z_scope.

(** ** [columns.rs] *)

Inductive ColumnFamily :=
| CF_Vertex | CF_MicroCheckpoint | CF_MicroQc | CF_MacroCheckpoint | CF_MacroQc
| CF_MacroTwoChain | CF_ValidatorSet | CF_SlashEvidence | CF_VoteBook | CF_BlobStatus
| CF_BlobChunk | CF_BlobPublish.
#[global] Instance ColumnFamily_eq_dec : EqDecision ColumnFamily.
Proof. solve_decision. Defined.

Definition cf_name (cf : ColumnFamily) : string :=
  match cf with
  | CF_Vertex => "vertex" | CF_MicroCheckpoint => "micro_cp" | CF_MicroQc => "micro_qc"
  | CF_MacroCheckpoint => "macro_cp" | CF_MacroQc => "macro_qc"
  | CF_MacroTwoChain => "macro_two_chain" | CF_ValidatorSet => "valset"
  | CF_SlashEvidence => "slash" | CF_VoteBook => "votebook" | CF_BlobStatus => "blob_status"
  | CF_BlobChunk => "blob_chunk" | CF_BlobPublish => "blob_publish"
  end.

Definition cf_all : list ColumnFamily :=
  [CF_Vertex; CF_MicroCheckpoint; CF_MicroQc; CF_MacroCheckpoint; CF_MacroQc; CF_MacroTwoChain;
   CF_ValidatorSet; CF_SlashEvidence; CF_VoteBook; CF_BlobStatus; CF_BlobChunk; CF_BlobPublish].

Lemma cf_name_inj a b : cf_name a = cf_name b → a = b.
Proof. by destruct a, b. Qed.

(** ** [keys.rs] *)

Module keys.
Definition vertex (round : Round) (author : ValidatorId) : bytes :=
  be_bytes 8 round ++ vid_bytes author.
Definition slot (slot : Z) : bytes := be_bytes 8 slot.
Definition height (h : Height) : bytes := be_bytes 8 h.
Definition epoch (e : Epoch) : bytes := be_bytes 8 e.
Definition hash (h : Hash32) : bytes := h32_bytes h.
Definition blob_id (id : BlobId) : bytes := bid_bytes id.
Definition blob_chunk (id : BlobId) (index : Z) : bytes := bid_bytes id ++ be_bytes 4 index.
Definition votebook (validator : ValidatorId) (target_epoch : Epoch) : bytes :=
  vid_bytes validator ++ be_bytes 8 target_epoch.
End keys.

(** ** Errors and the database handle *)

Inductive StoreError :=
| StoreRocks
| StoreCodec
| StoreUnknownColumn (name : string)
| StoreLogic (why : string)
| StoreTypes.
#[global] Instance StoreError_eq_dec : EqDecision StoreError.
Proof. solve_decision. Defined.

Abbreviation sresult := (outcome StoreError).

(** [rocksdb::DB]: [None] is a RocksDB error. *)
Class RocksDb (D : Type) := {
  cf_handle : D → string → bool;
  get_cf : D → string → bytes → option (option bytes);
  put_cf : D → string → bytes → bytes → option D;
  write_batch : D → list (string * bytes * bytes) → option D;
  iterator_cf : D → string → list (option (bytes * bytes));
}.

(** What the stores rely on: [rows], the contents by column and key.  A read
    that succeeds finds the row, a write or batch that succeeds sets its rows
    and no other, a full iteration of a column lists its rows in key order. *)
Definition set_rows (ops : list (string * bytes * bytes))
    (m : gmap (string * bytes) bytes) : gmap (string * bytes) bytes :=
  foldl (λ m op, <[op.1 := op.2]> m) m ops.

Class RocksLaws (D : Type) `{!RocksDb D} := {
  rows : D → gmap (string * bytes) bytes;
  get_cf_rows db h k o : get_cf db h k = Some o → o = rows db !! (h, k);
  put_cf_rows db h k v db' : put_cf db h k v = Some db' →
    rows db' = <[(h, k) := v]> (rows db) ∧ ∀ n, cf_handle db' n = cf_handle db n;
  write_batch_rows db ops db' : write_batch db ops = Some db' →
    rows db' = set_rows ops (rows db) ∧ ∀ n, cf_handle db' n = cf_handle db n;
  iterator_cf_rows db h kvs : iterator_cf db h = Some <$> kvs →
    StronglySorted klt kvs.*1 ∧ ∀ k v, (k, v) ∈ kvs ↔ rows db !! (h, k) = Some v;
}.

(** [borsh::from_slice]; [encodable x]: the value decodes back from its own
    encoding, as every Rust value does. *)
Class Codec (T : Type) `{!Borsh T} := from_slice : bytes → option T.
#[global] Hint Mode Codec ! - : typeclass_instances.
Definition encodable `{Codec T} (x : T) : Prop := from_slice (to_vec x) = Some x.

Abbreviation WriteBatch := (list (string * bytes * bytes)).

Section database.
Context `{RocksDb D}.

Definition db_cf (db : D) (cf : ColumnFamily) : sresult string :=
  if cf_handle db (cf_name cf) then Ok (cf_name cf)
  else Err (StoreUnknownColumn (cf_name cf)).

Definition get_raw (db : D) (cf : ColumnFamily) (key : bytes) : sresult (option bytes) :=
  h ← db_cf db cf;
  match get_cf db h key with Some o => Ok o | None => Err StoreRocks end.

Definition put_raw (cf : ColumnFamily) (key value : bytes) : M StoreError D unit :=
  db ← gets id;
  h ← lift (db_cf db cf);
  match put_cf db h key value with
  | Some db' => modify (λ _, db')
  | None => lift (Err StoreRocks)
  end.

(** [scan_cf] *)
Definition scan_cf (db : D) (cf : ColumnFamily) : list (sresult (bytes * bytes)) :=
  match db_cf db cf with
  | Ok h => (λ o, match o with Some kv => Ok kv | None => Err StoreRocks end) <$> iterator_cf db h
  | Err e => [Err e]
  | Panic => [Panic]
  | NoFuel => [NoFuel]
  end.

(** *** The read and the write every Borsh store makes *)

Definition put_row `{!Borsh T} (cf : ColumnFamily) (key : bytes) (v : T) : M StoreError D unit :=
  put_raw cf key (to_vec v).
Definition get_row `{Codec T} (db : D) (cf : ColumnFamily) (key : bytes) : sresult (option T) :=
  o ← get_raw db cf key;
  match o with
  | None => Ok None
  | Some bs => match from_slice bs with Some v => Ok (Some v) | None => Err StoreCodec end
  end.

(** ** [wal.rs] *)


Definition new_batch : WriteBatch := [].
Definition batch_put_cf (batch : WriteBatch) (h : string) (k v : bytes) : WriteBatch :=
  batch ++ [((h, k), v)].
Definition apply_batch (batch : WriteBatch) : M StoreError D unit :=
  db ← gets id;
  match write_batch db batch with
  | Some db' => modify (λ _, db')
  | None => lift (Err StoreRocks)
  end.
Definition put_one (cf : ColumnFamily) (key value : bytes) : M StoreError D unit :=
  db ← gets id;
  h ← lift (db_cf db cf);
  apply_batch (batch_put_cf new_batch h key value).
End database.

(** ** The stores *)

Module vertex_store.
Section store.
Context `{RocksDb D, Codec CertifiedVertex}.

Definition put (v : CertifiedVertex) : M StoreError D unit :=
  put_row CF_Vertex (keys.vertex (v_round (cv_vertex v)) (v_author (cv_vertex v))) v.
Definition get (db : D) (round : Round) (author : ValidatorId)
  : sresult (option CertifiedVertex) :=
  get_row db CF_Vertex (keys.vertex round author).
End store.
End vertex_store.

(** [types::micro::MicroCheckpoint] *)
Record MicroCheckpoint := MkMicroCheckpoint {
  mic_anchor_round : Round;
  mic_anchor_author : ValidatorId;
  mic_anchor_hash : Hash32;
  mic_linearized : list Hash32;
  mic_hash : Hash32;
}.

Module micro_store.
Section store.
Context `{RocksDb D}.

Definition put_checkpoint `{!Borsh MicroCheckpoint} (cp : MicroCheckpoint)
  : M StoreError D unit :=
  put_row CF_MicroCheckpoint (keys.slot (mic_anchor_round cp)) cp.
Definition get_checkpoint `{Codec MicroCheckpoint} (db : D) (slot : Z)
  : sresult (option MicroCheckpoint) :=
  get_row db CF_MicroCheckpoint (keys.slot slot).
Definition put_qc `{!Borsh MicroQc} (qc : MicroQc) : M StoreError D unit :=
  put_row CF_MicroQc (keys.hash (mqc_checkpoint_hash qc)) qc.
Definition get_qc `{Codec MicroQc} (db : D) (checkpoint_hash : Hash32)
  : sresult (option MicroQc) :=
  get_row db CF_MicroQc (keys.hash checkpoint_hash).
End store.
End micro_store.

Module macro_store.
Section store.
Context `{RocksDb D}.

Definition put_checkpoint `{!Borsh MacroCheckpoint} (cp : MacroCheckpoint)
  : M StoreError D unit :=
  put_row CF_MacroCheckpoint (keys.height (mc_height cp)) cp.
Definition get_checkpoint `{Codec MacroCheckpoint} (db : D) (height : Height)
  : sresult (option MacroCheckpoint) :=
  get_row db CF_MacroCheckpoint (keys.height height).
Definition put_qc `{!Borsh MacroQc} (qc : MacroQc) : M StoreError D unit :=
  put_row CF_MacroQc (keys.hash (qc_checkpoint_hash qc)) qc.
Definition get_qc `{Codec MacroQc} (db : D) (hash : Hash32) : sresult (option MacroQc) :=
  get_row db CF_MacroQc (keys.hash hash).
Definition put_two_chain_pointer (child : Height) (parent_hash : Hash32)
  : M StoreError D unit :=
  put_raw CF_MacroTwoChain (keys.height child) (h32_bytes parent_hash).
End store.
End macro_store.

Module valset_store.
Section store.
Context `{RocksDb D, Codec ValidatorSet}.

Definition put (set : ValidatorSet) : M StoreError D unit :=
  put_row CF_ValidatorSet (keys.epoch (vs_epoch set)) set.
Definition get (db : D) (epoch : Epoch) : sresult (option ValidatorSet) :=
  get_row db CF_ValidatorSet (keys.epoch epoch).
End store.
End valset_store.

Module slash_store.
Definition append `{RocksDb D, !Borsh SlashEvidence} (seq : Z) (ev : SlashEvidence)
  : M StoreError D unit :=
  put_row CF_SlashEvidence (be_bytes 8 seq) ev.
End slash_store.

Module blob_status_store.
Definition decode_status (byte : Z) : sresult BlobStatus :=
  if byte =? 0 then Ok Accepted
  else if byte =? 1 then Ok SoftConfirmed
  else if byte =? 2 then Ok Justified
  else if byte =? 3 then Ok Finalized
  else if byte =? 4 then Ok EpochFinalized
  else Err (StoreLogic "invalid blob status byte").

Section store.
Context `{RocksDb D}.

Definition get (db : D) (blob : BlobId) : sresult (option BlobStatus) :=
  o ← get_raw db CF_BlobStatus (keys.blob_id blob);
  match o with
  | None => Ok None
  | Some [byte] => s ← decode_status byte; Ok (Some s)
  | Some _ => Err (StoreLogic "blob_status row has wrong length")
  end.

Definition put_monotonic (blob : BlobId) (status : BlobStatus) : M StoreError D unit :=
  db ← gets id;
  current ← lift (get db blob);
  let should_write := match current with
                      | None => true
                      | Some existing => BlobStatus_u8 existing <? BlobStatus_u8 status
                      end in
  if should_write then put_raw CF_BlobStatus (keys.blob_id blob) [BlobStatus_u8 status]
  else mret tt.
End store.
End blob_status_store.

Module vote_book_store.
Definition VOTE_RECORD_LEN : nat := 8 + 8 + 32 + 96.

(** The row of a record, and the fields cut out of a row of that length. *)
Definition encode_record (record : VoteRecord) : bytes :=
  be_bytes 8 (vr_source record) ++ be_bytes 8 (vr_target record) ++
  h32_bytes (vr_checkpoint record) ++ bsig_bytes (vr_sig record).
Definition decode_record (row : bytes) : VoteRecord :=
  MkVoteRecord (of_be (take 8 row)) (of_be (take 8 (drop 8 row)))
    (MkHash32 (take 32 (drop 16 row))) (MkBlsSig (take 96 (drop 48 row))).

Section store.
Context `{RocksDb D}.

Definition put (validator : ValidatorId) (record : VoteRecord) : M StoreError D unit :=
  put_raw CF_VoteBook (keys.votebook validator (vr_target record)) (encode_record record).

Definition get (db : D) (validator : ValidatorId) (target_epoch : Epoch)
  : sresult (option VoteRecord) :=
  o ← get_raw db CF_VoteBook (keys.votebook validator target_epoch);
  match o with
  | None => Ok None
  | Some bs =>
      if bool_decide (length bs ≠ VOTE_RECORD_LEN)
      then Err (StoreLogic "vote_book row has wrong length")
      else Ok (Some (decode_record bs))
  end.
End store.
End vote_book_store.

(** A row of the [BlobChunk] column. *)
Record StoredChunk := MkStoredChunk {
  sc_total_chunks : Z;
  sc_size_bytes : Z;
  sc_data : bytes;
}.

Module blob_chunk_store.
Section store.
Context `{RocksDb D, Codec StoredChunk}.

Definition put (blob_id : BlobId) (index total_chunks size_bytes : Z) (data : bytes)
  : M StoreError D unit :=
  put_row CF_BlobChunk (keys.blob_chunk blob_id index)
    (MkStoredChunk total_chunks size_bytes data).

Definition get (db : D) (blob_id : BlobId) (index : Z) : sresult (option bytes) :=
  o ← get_row (T := StoredChunk) db CF_BlobChunk (keys.blob_chunk blob_id index);
  Ok (option_map sc_data o).

Definition put_batch (batch : WriteBatch) (db : D) (blob_id : BlobId)
    (index total_chunks size_bytes : Z) (data : bytes) : sresult WriteBatch :=
  h ← db_cf db CF_BlobChunk;
  Ok (batch_put_cf batch h (keys.blob_chunk blob_id index)
        (to_vec (MkStoredChunk total_chunks size_bytes data))).

Definition has (db : D) (blob_id : BlobId) (index : Z) : sresult bool :=
  o ← get_raw db CF_BlobChunk (keys.blob_chunk blob_id index);
  Ok (bool_decide (is_Some o)).
End store.
End blob_chunk_store.

(** The publish lifecycle of a local blob. *)
Inductive PublishState := Ready | Attached.
#[global] Instance PublishState_eq_dec : EqDecision PublishState.
Proof. solve_decision. Defined.
Definition PublishState_u8 (s : PublishState) : Z :=
  match s with Ready => 0 | Attached => 1 end.
Definition PublishState_from_u8 (byte : Z) : sresult PublishState :=
  if byte =? 0 then Ok Ready
  else if byte =? 1 then Ok Attached
  else Err (StoreLogic "invalid publish state byte").

Record PublishRecord := MkPublishRecord { pr_state : Z; pr_blob_ref : BlobRef }.
#[global] Instance PublishRecord_eq_dec : EqDecision PublishRecord.
Proof. solve_decision. Defined.
#[global] Instance PublishRecord_eta : Settable PublishRecord := λ r,
  MkPublishRecord (pr_state r) (pr_blob_ref r).

Module blob_publish_store.
Section store.
Context `{RocksDb D, Codec PublishRecord}.

Definition put_ready_batch (batch : WriteBatch) (db : D) (blob_id : BlobId)
    (record : PublishRecord) : sresult WriteBatch :=
  if negb (pr_state record =? PublishState_u8 Ready)
  then Err (StoreLogic "put_ready_batch requires Ready state")
  else
    h ← db_cf db CF_BlobPublish;
    Ok (batch_put_cf batch h (keys.blob_id blob_id) (to_vec record)).

Definition put_attached (blob_id : BlobId) : M StoreError D unit :=
  db ← gets id;
  o ← lift (get_row (T := PublishRecord) db CF_BlobPublish (keys.blob_id blob_id));
  match o with
  | None => lift (Err (StoreLogic "mark_attached: publish record missing"))
  | Some record =>
      state ← lift (PublishState_from_u8 (pr_state record));
      match state with
      | Attached => mret tt
      | Ready =>
          put_row CF_BlobPublish (keys.blob_id blob_id)
            (record <| pr_state := PublishState_u8 Attached |>)
      end
  end.

Definition get (db : D) (blob_id : BlobId) : sresult (option PublishRecord) :=
  get_row db CF_BlobPublish (keys.blob_id blob_id).

Definition is_attached (db : D) (blob_id : BlobId) : sresult bool :=
  o ← get db blob_id;
  match o with
  | None => Ok false
  | Some record =>
      s ← PublishState_from_u8 (pr_state record);
      Ok (bool_decide (s = Attached))
  end.

(** The loop of [scan_ready] over the items of the scan. *)
Fixpoint collect_ready (items : list (sresult (bytes * bytes))) : sresult (list BlobRef) :=
  match items with
  | [] => Ok []
  | item :: items =>
      kv ← item;
      match from_slice (T := PublishRecord) kv.2 with
      | None => Err StoreCodec
      | Some record =>
          s ← PublishState_from_u8 (pr_state record);
          rest ← collect_ready items;
          Ok (if bool_decide (s = Ready) then pr_blob_ref record :: rest else rest)
      end
  end.
Definition scan_ready (db : D) : sresult (list BlobRef) :=
  collect_ready (scan_cf db CF_BlobPublish).
End store.
End blob_publish_store.

(** ** [gc.rs] and [snapshot.rs] *)

Record GcPlan := MkGcPlan {
  cold_horizon_round : Z;
  warm_horizon_round : Z;
  hot_horizon_round : Z;
}.
Definition plan (cfg : Config) (micro_head_round : Z) : GcPlan :=
  let hot := gc_hot_horizon_rounds (storage cfg) in
  let warm := gc_warm_horizon_rounds (storage cfg) in
  MkGcPlan 0 (saturating_sub micro_head_round warm) (saturating_sub micro_head_round hot).

Definition snapshot_id `{Primitives} (height : Height) (macro_root : Hash32) : Hash32 :=
  blake3_with_dst dst.CONTENT_HASH (be_bytes 8 height ++ h32_bytes macro_root).

(** ** What a read and a write do to the rows *)

Section rows.
Context `{RocksLaws D}.

Lemma db_cf_Ok db cf h : db_cf db cf = Ok h → h = cf_name cf.
Proof. unfold db_cf. case_match; congruence. Qed.

Lemma get_raw_Ok db cf key o :
  get_raw db cf key = Ok o → o = rows db !! (cf_name cf, key).
Proof.
  unfold get_raw. intros (h & ->%db_cf_Ok & Hg)%outcome_bind_Ok.
  destruct (get_cf _ _ _) eqn:He; simplify_eq. by apply get_cf_rows.
Qed.

Lemma put_raw_inv cf key v db r db' :
  put_raw cf key v db = (r, db') →
  match r with
  | Ok _ => rows db' = <[(cf_name cf, key) := v]> (rows db)
  | _ => db' = db
  end.
Proof.
  unfold put_raw, mbind, M_bind, gets, lift. cbn.
  destruct (db_cf db cf) as [h| | |] eqn:Hh; [|by intros [= <- <-]..].
  apply db_cf_Ok in Hh as ->.
  destruct (put_cf _ _ _ _) as [d|] eqn:Hp; intros [= <- <-]; [|done].
  by apply put_cf_rows in Hp as [? _].
Qed.

Lemma put_row_inv `{!Borsh T} cf key (v : T) db r db' :
  put_row cf key v db = (r, db') →
  match r with
  | Ok _ => rows db' = <[(cf_name cf, key) := to_vec v]> (rows db)
  | _ => db' = db
  end.
Proof. apply put_raw_inv. Qed.

Lemma get_row_Ok `{Codec T} db cf key (o : option T) :
  get_row db cf key = Ok o → o = rows db !! (cf_name cf, key) ≫= from_slice.
Proof.
  unfold get_row. intros (bs & Hr & Hd)%outcome_bind_Ok.
  apply get_raw_Ok in Hr. rewrite <- Hr. cbn.
  destruct bs as [bs|]; [|naive_solver]. cbn. case_match; naive_solver.
Qed.

(** A scan without errors is the column in key order. *)
Lemma scan_cf_Ok db cf kvs :
  scan_cf db cf = Ok <$> kvs →
  StronglySorted klt kvs.*1 ∧ ∀ k v, (k, v) ∈ kvs ↔ rows db !! (cf_name cf, k) = Some v.
Proof.
  unfold scan_cf. destruct (db_cf db cf) as [h| | |] eqn:Hh; [|by destruct kvs as [|? []]..].
  apply db_cf_Ok in Hh as ->. intros He. apply iterator_cf_rows.
  revert kvs He. induction (iterator_cf db (cf_name cf)) as [|o l IH]; intros [|kv kvs]; cbn;
    try done.
  destruct o; intros [= -> He]. by rewrite (IH kvs He).
Qed.
End rows.

(** ** Toy database: a map of rows that never fails *)

Abbreviation toy_db := (gmap (string * bytes) bytes).

Definition toy_column (db : toy_db) (h : string) : list (bytes * bytes) :=
  merge_sort key_le
    ((λ kv : (string * bytes) * bytes, (kv.1.2, kv.2)) <$>
       filter (λ kv : (string * bytes) * bytes, kv.1.1 = h) (map_to_list db)).

#[global] Instance toy_rocks : RocksDb toy_db := {|
  cf_handle _ n := bool_decide (n ∈ cf_name <$> cf_all);
  get_cf db h k := Some (db !! (h, k));
  put_cf db h k v := Some (<[(h, k) := v]> db);
  write_batch db ops := Some (set_rows ops db);
  iterator_cf db h := Some <$> toy_column db h;
|}.

Lemma toy_column_elem db h k v : (k, v) ∈ toy_column db h ↔ db !! (h, k) = Some v.
Proof.
  unfold toy_column. rewrite merge_sort_Permutation, list_elem_of_fmap.
  setoid_rewrite list_elem_of_filter. setoid_rewrite elem_of_map_to_list'.
  split.
  - intros ([[h' k'] v'] & [= -> ->] & ? & ?); cbn in *. by subst.
  - intros Hv. by exists ((h, k), v).
Qed.

Lemma toy_column_sorted db h : StronglySorted klt (toy_column db h).*1.
Proof.
  apply sorted_keys_strict; [by apply (StronglySorted_merge_sort key_le)|].
  unfold toy_column. rewrite merge_sort_Permutation, <- list_fmap_compose.
  apply NoDup_fmap_2_strong; [|apply NoDup_filter, NoDup_map_to_list].
  intros [[h1 k1] v1] [[h2 k2] v2]. rewrite !list_elem_of_filter, !elem_of_map_to_list.
  cbn. intros [-> ?] [-> ?] ->. naive_solver congruence.
Qed.

#[global] Program Instance toy_rocks_laws : RocksLaws toy_db := {| rows db := db |}.
Next Obligation. cbn. by intros db h k o [= <-]. Qed.
Next Obligation. cbn. by intros db h k v db' [= <-]. Qed.
Next Obligation. cbn. by intros db ops db' [= <-]. Qed.
Next Obligation.
  cbn. intros db h kvs He. apply (inj (fmap Some)) in He as <-.
  split; [apply toy_column_sorted|apply toy_column_elem].
Qed.

(** ** Keys *)

Lemma kcmp_app (xs ys xs' ys' : bytes) :
  length xs = length ys →
  kcmp (xs ++ xs') (ys ++ ys') = match kcmp xs ys with Eq => kcmp xs' ys' | c => c end.
Proof. apply bytes_cmp_app. Qed.

Lemma kcmp_be (n : nat) x y :
  0 ≤ x < 256 ^ n → 0 ≤ y < 256 ^ n → kcmp (be_bytes n x) (be_bytes n y) = Z.compare x y.
Proof. apply be_bytes_cmp. Qed.

Lemma u64_256 x : u64_ok x → 0 ≤ x < 256 ^ 8%nat.
Proof. done. Qed.
Lemma u32_256 x : u32_ok x → 0 ≤ x < 256 ^ 4%nat.
Proof. done. Qed.
#[export] Hint Resolve u64_256 u32_256 : core.

(** The byte order of the keys, which is the order RocksDB iterates in, is
    the order of what they encode: vertices by round and then author, chunks
    of a blob and votes of a validator by index and by target epoch, heights,
    slots and epochs numerically. *)
Theorem keys_ordered (r r' : Round) (a a' : ValidatorId) (b b' : BlobId) (i i' : Z) :
  u64_ok r → u64_ok r' → u32_ok i → u32_ok i' →
  length (vid_bytes a) = 32%nat → length (vid_bytes a') = 32%nat →
  length (bid_bytes b) = 32%nat → length (bid_bytes b') = 32%nat →
  let then_cmp c d := match c with Eq => d | _ => c end in
  kcmp (keys.vertex r a) (keys.vertex r' a') =
    then_cmp (Z.compare r r') (kcmp (vid_bytes a) (vid_bytes a')) ∧
  kcmp (keys.blob_chunk b i) (keys.blob_chunk b' i') =
    then_cmp (kcmp (bid_bytes b) (bid_bytes b')) (Z.compare i i') ∧
  kcmp (keys.votebook a r) (keys.votebook a' r') =
    then_cmp (kcmp (vid_bytes a) (vid_bytes a')) (Z.compare r r') ∧
  kcmp (keys.height r) (keys.height r') = Z.compare r r' ∧
  kcmp (keys.slot r) (keys.slot r') = Z.compare r r' ∧
  kcmp (keys.epoch r) (keys.epoch r') = Z.compare r r'.
Proof.
  intros ???? Ha Ha' Hb Hb' then_cmp.
  unfold keys.vertex, keys.blob_chunk, keys.votebook, keys.height, keys.slot, keys.epoch.
  rewrite !kcmp_app, !kcmp_be by (rewrite ?length_be_bytes; auto; congruence).
  repeat split; by destruct (Z.compare _ _), (kcmp _ _).
Qed.

Lemma keys_ordered_witness :
  let a := MkValidatorId (replicate 32 7) in let b := MkBlobId (replicate 32 9) in
  kcmp (keys.vertex 255 a) (keys.vertex 256 a) = Lt ∧
  kcmp (keys.blob_chunk b 2) (keys.blob_chunk b 1) = Gt.
Proof.
  intros a b.
  destruct (keys_ordered 255 256 a a b b 2 1) as (Hv & Hc & _);
    [vdecide|vdecide|vdecide|vdecide|reflexivity..|].
  split; [rewrite Hv|rewrite Hc]; vm_compute; reflexivity.
Defined.

Lemma votebook_inj v v' t t' :
  u64_ok t → u64_ok t' → length (vid_bytes v) = length (vid_bytes v') →
  keys.votebook v t = keys.votebook v' t' → v = v' ∧ t = t'.
Proof.
  intros ?? Hl [Hv Ht]%app_inj_1; [|done]. split; [by destruct v, v'; cbn in *; subst|].
  eapply (be_bytes_inj 8); eauto.
Qed.

(** ** Votes *)

Definition vote_ok (r : VoteRecord) : Prop :=
  u64_ok (vr_source r) ∧ u64_ok (vr_target r) ∧
  length (h32_bytes (vr_checkpoint r)) = 32%nat ∧ length (bsig_bytes (vr_sig r)) = 96%nat.

Lemma decode_encode_record r :
  vote_ok r →
  length (vote_book_store.encode_record r) = vote_book_store.VOTE_RECORD_LEN ∧
  vote_book_store.decode_record (vote_book_store.encode_record r) = r.
Proof.
  intros (Hs & Ht & Hc & Hg).
  unfold vote_book_store.decode_record, vote_book_store.encode_record.
  split; [by rewrite !length_app, !length_be_bytes, Hc, Hg|].
  assert (H16 : ∀ (l : bytes), drop 16 l = drop 8 (drop 8 l)) by (intros; by rewrite drop_drop).
  assert (H48 : ∀ (l : bytes), drop 48 l = drop 32 (drop 8 (drop 8 l)))
    by (intros; by rewrite !drop_drop).
  rewrite H16, H48. clear H16 H48.
  rewrite !(drop_app_length' _ _ 8), (drop_app_length' _ _ 32), !(take_app_length' _ _ 8),
    (take_app_length' _ _ 32), !of_be_bytes by (auto; by rewrite ?length_be_bytes).
  rewrite take_ge by lia. by destruct r as [? ? [] []].
Qed.

Section votes.
Context `{RocksLaws D}.

(** A stored vote is read back: after a [put] that succeeds, a [get] at the
    vote's target that succeeds returns the record with every field, although the row
    is encoded by hand; votes of other validators or targets are untouched; and a
    [put] that fails changes no row. *)
Theorem vote_book_roundtrip validator record (db : D) r db' :
  vote_book_store.put validator record db = (r, db') → vote_ok record →
  (r = Ok tt → ∀ o, vote_book_store.get db' validator (vr_target record) = Ok o →
     o = Some record) ∧
  (∀ v t o o', u64_ok t → length (vid_bytes v) = length (vid_bytes validator) →
     (v, t) ≠ (validator, vr_target record) →
     vote_book_store.get db v t = Ok o → vote_book_store.get db' v t = Ok o' → o' = o) ∧
  (r ≠ Ok tt → rows db' = rows db).
Proof.
  intros Hput Hok. apply put_raw_inv in Hput. unfold vote_book_store.get.
  split_and!.
  - intros -> o (bs & Hr & Hd)%outcome_bind_Ok. apply get_raw_Ok in Hr.
    rewrite Hput, lookup_insert_eq in Hr. subst bs.
    destruct (decode_encode_record record Hok) as [Hlen Hdec]. rewrite Hlen, Hdec in Hd.
    rewrite bool_decide_false in Hd by (by intros []). congruence.
  - intros v t o o' Hu Hl Hne (bs & Hr & Hd)%outcome_bind_Ok (bs' & Hr' & Hd')%outcome_bind_Ok.
    apply get_raw_Ok in Hr, Hr'.
    assert (bs' = bs) as ->; [|congruence].
    destruct r; [|by subst..]. rewrite Hput, lookup_insert_ne in Hr'; [by subst|].
    intros [= [-> ->]%eq_sym%votebook_inj]; auto. by apply Hok.
  - destruct r as [[]| | |]; [done|by subst..].
Qed.
End votes.

Definition toy_vote (target : Z) : VoteRecord :=
  MkVoteRecord (target - 1) target (MkHash32 (replicate 32 3)) (MkBlsSig (replicate 96 4)).

Lemma vote_book_roundtrip_witness :
  let p := vote_book_store.put (toy_id 1) (toy_vote 700) (∅ : toy_db) in
  p.1 = Ok tt ∧ is_ok (vote_book_store.get p.2 (toy_id 1) 700) = true ∧
  ∀ o, vote_book_store.get p.2 (toy_id 1) 700 = Ok o → o = Some (toy_vote 700).
Proof.
  intros p. split; [reflexivity|]. split; [vm_compute; reflexivity|].
  apply (vote_book_roundtrip (toy_id 1) (toy_vote 700) (∅ : toy_db) (Ok tt) p.2);
    [reflexivity|vdecide|reflexivity].
Defined.

(** ** The publish lifecycle *)

Section publish.
Context `{RocksLaws D, Codec PublishRecord}.

(** A publish row of the database, and the rows boot recovery is after. *)
Definition publish_row (db : D) (key : bytes) (record : PublishRecord) : Prop :=
  rows db !! (cf_name CF_BlobPublish, key) ≫= from_slice = Some record.
Definition ready_row (db : D) (key : bytes) (record : PublishRecord) : Prop :=
  publish_row db key record ∧ pr_state record = PublishState_u8 Ready.

Lemma PublishState_from_u8_Ok b s : PublishState_from_u8 b = Ok s ↔ b = PublishState_u8 s.
Proof.
  unfold PublishState_from_u8.
  destruct (b =? 0) eqn:E0; [|destruct (b =? 1) eqn:E1]; destruct s; cbn;
    (split; [by intros [=]; lia|by intros ->]) || (split; [done|lia]).
Qed.

Lemma collect_ready_Ok items refs :
  blob_publish_store.collect_ready items = Ok refs →
  ∃ kvs, items = Ok <$> kvs ∧
    ∀ ref, ref ∈ refs ↔ ∃ kv record, kv ∈ kvs ∧ from_slice kv.2 = Some record ∧
      pr_state record = PublishState_u8 Ready ∧ pr_blob_ref record = ref.
Proof.
  revert refs. induction items as [|item items IH]; intros refs; cbn.
  { intros [= <-]. exists []. split; [done|]. setoid_rewrite elem_of_nil. naive_solver. }
  intros (kv & -> & Hi)%outcome_bind_Ok.
  destruct (from_slice kv.2) as [record|] eqn:Hd; [|done].
  apply outcome_bind_Ok in Hi as (s & Hs%PublishState_from_u8_Ok & Hi).
  apply outcome_bind_Ok in Hi as (rest & Hrest & [= <-]).
  destruct (IH _ Hrest) as (kvs & -> & Hrefs). exists (kv :: kvs). split; [done|].
  intros ref. setoid_rewrite elem_of_cons. case_bool_decide as Hready.
  - subst s. rewrite elem_of_cons, Hrefs. split; [|naive_solver].
    intros [->|?]; [|naive_solver]. exists kv, record. naive_solver.
  - rewrite Hrefs. split; [naive_solver|].
    intros (kv' & record' & [->|?] & Hd' & Hst & ?); [|naive_solver].
    rewrite Hd in Hd'. injection Hd' as <-. destruct s; [|rewrite Hs in Hst]; done.
Qed.

(** Boot recovery finds exactly the rows in state [Ready]. *)
Lemma scan_ready_Ok db refs :
  blob_publish_store.scan_ready db = Ok refs →
  ∀ ref, ref ∈ refs ↔ ∃ key record, ready_row db key record ∧ pr_blob_ref record = ref.
Proof.
  intros (kvs & Hscan & Hrefs)%collect_ready_Ok ref.
  apply scan_cf_Ok in Hscan as [_ Hkvs]. rewrite Hrefs. unfold ready_row, publish_row. split.
  - intros ([k v] & record & Hin%Hkvs & Hd & Hs & <-).
    exists k, record. rewrite Hin. done.
  - intros (k & record & [(v & Hv & Hd)%bind_Some Hs] & <-).
    exists (k, v), record. rewrite Hkvs. done.
Qed.

Lemma put_attached_inv id db db' :
  blob_publish_store.put_attached id db = (Ok tt, db') →
  ∃ record, publish_row db (keys.blob_id id) record ∧
    (pr_state record = PublishState_u8 Attached ∧ db' = db ∨
     pr_state record = PublishState_u8 Ready ∧
     rows db' = <[(cf_name CF_BlobPublish, keys.blob_id id) :=
       to_vec (record <| pr_state := PublishState_u8 Attached |>)]> (rows db)).
Proof.
  unfold blob_publish_store.put_attached, mbind, M_bind, gets, lift, mret, M_ret. cbn.
  destruct (get_row _ _ _) as [[record|]| | |] eqn:Hg; try done.
  apply get_row_Ok in Hg. unfold publish_row. cbn.
  destruct (PublishState_from_u8 _) as [s| | |] eqn:Hs; try done.
  apply PublishState_from_u8_Ok in Hs. cbn. intros Hput. exists record. split; [done|].
  destruct s; [right|left]; [by apply put_row_inv in Hput|]. by injection Hput as ->.
Qed.

(** Publishing survives a restart.  Once [put_attached] succeeds for a blob, the
    blob counts as attached, a second call changes nothing, and boot recovery
    ([scan_ready]) returns exactly the references recorded [Ready] under the
    other keys: an attached blob is not proposed again and no ready blob is lost. *)
Theorem publish_attached_spec id (db db' : D) refs :
  blob_publish_store.put_attached id db = (Ok tt, db') →
  (∀ record, publish_row db (keys.blob_id id) record →
     encodable (record <| pr_state := PublishState_u8 Attached |>)) →
  blob_publish_store.scan_ready db' = Ok refs →
  (∀ b, blob_publish_store.is_attached db' id = Ok b → b = true) ∧
  (∀ r db2, blob_publish_store.put_attached id db' = (r, db2) → rows db2 = rows db') ∧
  (∀ ref, ref ∈ refs ↔ ∃ key record,
     key ≠ keys.blob_id id ∧ ready_row db key record ∧ pr_blob_ref record = ref).
Proof.
  intros (record & Hrow & Hput)%put_attached_inv Henc Hscan.
  specialize (Henc _ Hrow).
  set (record' := record <| pr_state := PublishState_u8 Attached |>) in *.
  assert (Hrow' : publish_row db' (keys.blob_id id) record').
  { unfold publish_row. destruct Hput as [[Hs ->] | [_ ->]].
    - assert (record' = record) as -> by (unfold record'; destruct record; cbn in *; by subst).
      done.
    - by rewrite lookup_insert_eq. }
  assert (Hother : ∀ key, key ≠ keys.blob_id id →
    rows db' !! (cf_name CF_BlobPublish, key) = rows db !! (cf_name CF_BlobPublish, key)).
  { intros key Hne. destruct Hput as [[_ ->] | [_ ->]]; [done|].
    by rewrite lookup_insert_ne by congruence. }
  split_and!.
  - intros b (o & Hg%get_row_Ok & Hb)%outcome_bind_Ok. rewrite Hrow' in Hg. subst o.
    apply outcome_bind_Ok in Hb as (s & Hs%PublishState_from_u8_Ok & [= <-]).
    by destruct s.
  - intros r db2. unfold blob_publish_store.put_attached, mbind, M_bind, gets, lift. cbn.
    destruct (get_row _ _ _) as [o| | |] eqn:Hg; [|by intros [= _ <-]..].
    apply get_row_Ok in Hg. rewrite Hrow' in Hg. subst o. cbn. by intros [= _ <-].
  - intros ref. rewrite (scan_ready_Ok db' refs Hscan). unfold ready_row. split.
    + intros (key & rec2 & [Hr Hs] & <-). destruct (decide (key = keys.blob_id id)) as [->|Hne].
      * exfalso. unfold publish_row in *. rewrite Hrow' in Hr. injection Hr as <-. done.
      * exists key, rec2. unfold publish_row in *. by rewrite <- Hother.
    + intros (key & rec2 & Hne & [Hr Hs] & <-). exists key, rec2.
      unfold publish_row in *. by rewrite Hother.
Qed.
End publish.

(** ** A published and attached blob *)

#[global] Instance toy_publish_borsh : Borsh PublishRecord := λ r,
  pr_state r :: bid_bytes (br_blob_id (pr_blob_ref r)) ++
  h32_bytes (br_commitment (pr_blob_ref r)) ++ le_bytes 8 (br_size_bytes (pr_blob_ref r)).
#[global] Instance toy_publish_codec : Codec PublishRecord := λ bs,
  if bool_decide (length bs ≠ 73%nat ∨ ¬ bytes_ok bs) then None
  else Some (MkPublishRecord (default 0 (head bs))
    (MkBlobRef (MkBlobId (take 32 (drop 1 bs))) (MkHash32 (take 32 (drop 33 bs)))
       (of_le (drop 65 bs)))).

Definition toy_ref (i : Z) : BlobRef :=
  MkBlobRef (MkBlobId (replicate 32 i)) (MkHash32 (replicate 32 i)) 1000.

(** Two blobs published in one batch. *)
Definition toy_published : toy_db :=
  let put i batch := blob_publish_store.put_ready_batch batch (∅ : toy_db)
                       (br_blob_id (toy_ref i)) (MkPublishRecord 0 (toy_ref i)) in
  match put 1 new_batch ≫= put 2 with
  | Ok batch => (apply_batch batch (∅ : toy_db)).2
  | _ => ∅
  end.

Lemma publish_attached_spec_witness :
  let p := blob_publish_store.put_attached (br_blob_id (toy_ref 1)) toy_published in
  blob_publish_store.scan_ready toy_published = Ok [toy_ref 1; toy_ref 2] ∧
  p.1 = Ok tt ∧ blob_publish_store.scan_ready p.2 = Ok [toy_ref 2] ∧
  ∀ b, blob_publish_store.is_attached p.2 (br_blob_id (toy_ref 1)) = Ok b → b = true.
Proof.
  intros p. assert (Hok : p.1 = Ok tt) by (vm_compute; reflexivity).
  split; [vm_compute; reflexivity|]. split; [exact Hok|]. split; [vm_compute; reflexivity|].
  refine (proj1 (publish_attached_spec (br_blob_id (toy_ref 1)) toy_published p.2
                   [toy_ref 2] _ _ _)).
  - rewrite <- Hok. apply surjective_pairing.
  - intros record Hr. assert (record = MkPublishRecord 0 (toy_ref 1)) as ->.
    { vm_compute in Hr. injection Hr as <-. reflexivity. }
    vm_compute. reflexivity.
  - vm_compute. reflexivity.
Defined.
