(* ===== verification/Persistence.v ===== *)
(** [crates/storage/src/persistence_impl.rs]: [RocksPersistence], the store of
    finalized artifacts behind the consensus port [Persistence].

    [Artifacts] is what the port promises: a map per kind of artifact, a log of
    evidence, and a tier per blob that only rises.  [persistence_refines] says
    that the rows in RocksDB implement it over any sequence of calls, some of which
    may fail; [blob_status_monotonic], that tiers rise over the life of any database, restarts
    included. *)

From S2P Require Import Prelude Bytes Types Crypto Toy Config Dag MacroState Storage.
Open Scope Z_scope.

Record RocksPersistence (D : Type) := MkRocksPersistence { rp_db : D; rp_seq : Z }.
Arguments MkRocksPersistence {_} _ _.
Arguments rp_db {_} _.
Arguments rp_seq {_} _.
#[global] Instance RocksPersistence_eta {D} : Settable (RocksPersistence D) := λ p,
  MkRocksPersistence (rp_db p) (rp_seq p).

Definition RocksPersistence_new {D} (db : D) : RocksPersistence D := MkRocksPersistence db 0.

(** [map_err]; the texts of RocksDB's and Borsh's own errors are left out. *)
Definition store_error_string (e : StoreError) : string :=
  match e with
  | StoreRocks => "rocksdb error"
  | StoreCodec => "codec error"
  | StoreUnknownColumn name => String.append "unknown column family: " name
  | StoreLogic why => String.append "logic error: " why
  | StoreTypes => "types error"
  end.
Definition store_map_err (e : StoreError) : Error := Persistence (store_error_string e).

Section persistence.
Context `{RocksDb D, Codec MicroQc, Codec MacroCheckpoint, Codec MacroQc, !Borsh SlashEvidence}.

Abbreviation RP := (M Error (RocksPersistence D)).

(** A call on the database: [store::op(&self.db, ..).map_err(..)]. *)
Definition on_db {A} (m : M StoreError D A) : RP A := λ p,
  let '(r, db) := m (rp_db p) in (map_err store_map_err r, p <| rp_db := db |>).

Definition update_blob_status (blob : BlobId) (status : BlobStatus) : RP unit :=
  on_db (blob_status_store.put_monotonic blob status).

Definition blob_status (p : RocksPersistence D) (blob : BlobId) : result BlobStatus :=
  o ← map_err store_map_err (blob_status_store.get (rp_db p) blob);
  Ok (match o with Some s => s | None => Accepted end).

Definition store_micro_qc (qc : MicroQc) : RP unit := on_db (micro_store.put_qc qc).
Definition micro_qc_for (p : RocksPersistence D) (checkpoint_hash : Hash32)
  : result (option MicroQc) :=
  map_err store_map_err (micro_store.get_qc (rp_db p) checkpoint_hash).

Definition store_macro_checkpoint (cp : MacroCheckpoint) : RP unit :=
  on_db (macro_store.put_checkpoint cp).
Definition store_macro_qc (qc : MacroQc) : RP unit := on_db (macro_store.put_qc qc).

(** [fetch_add] wraps around. *)
Definition append_slash_evidence (ev : SlashEvidence) : RP unit :=
  next ← gets rp_seq;
  _ ← modify (λ p, p <| rp_seq := (next + 1) `mod` 2 ^ 64 |>);
  on_db (slash_store.append next ev).

Definition macro_checkpoint_at (p : RocksPersistence D) (height : Height)
  : result (option MacroCheckpoint) :=
  map_err store_map_err (macro_store.get_checkpoint (rp_db p) height).
Definition macro_qc_for (p : RocksPersistence D) (checkpoint_hash : Hash32)
  : result (option MacroQc) :=
  map_err store_map_err (macro_store.get_qc (rp_db p) checkpoint_hash).

(** ** Sequences of calls *)

Inductive persist_op :=
| PO_micro_qc (qc : MicroQc)
| PO_macro_checkpoint (cp : MacroCheckpoint)
| PO_macro_qc (qc : MacroQc)
| PO_evidence (ev : SlashEvidence)
| PO_blob_status (blob : BlobId) (status : BlobStatus).

Definition persist (op : persist_op) : RP unit :=
  match op with
  | PO_micro_qc qc => store_micro_qc qc
  | PO_macro_checkpoint cp => store_macro_checkpoint cp
  | PO_macro_qc qc => store_macro_qc qc
  | PO_evidence ev => append_slash_evidence ev
  | PO_blob_status blob status => update_blob_status blob status
  end.

(** Which calls succeeded, and the store they leave. *)
Fixpoint persist_run (ops : list persist_op) (p : RocksPersistence D)
  : list bool * RocksPersistence D :=
  match ops with
  | [] => ([], p)
  | op :: ops =>
      let '(r, p') := persist op p in
      let '(oks, p'') := persist_run ops p' in
      (is_ok r :: oks, p'')
  end.

(** The life of a store over several processes: a restart makes a new [RocksPersistence] over the
    same database.  The calls that succeeded, and the store in the end. *)
Inductive life_op := LO_call (op : persist_op) | LO_restart.
Fixpoint life_run (ops : list life_op) (p : RocksPersistence D)
  : list persist_op * RocksPersistence D :=
  match ops with
  | [] => ([], p)
  | LO_restart :: ops => life_run ops (RocksPersistence_new (rp_db p))
  | LO_call op :: ops =>
      let '(r, p') := persist op p in
      let '(reported, p'') := life_run ops p' in
      (if is_ok r then op :: reported else reported, p'')
  end.

Definition op_ok (op : persist_op) : Prop :=
  match op with
  | PO_micro_qc qc => encodable qc
  | PO_macro_checkpoint cp => u64_ok (mc_height cp) ∧ encodable cp
  | PO_macro_qc qc => encodable qc
  | _ => True
  end.
End persistence.

(** ** What the port promises *)

Record Artifacts := MkArtifacts {
  ar_micro_qc : gmap Hash32 MicroQc;
  ar_macro_cp : gmap Z MacroCheckpoint;
  ar_macro_qc : gmap Hash32 MacroQc;
  ar_status : gmap BlobId BlobStatus;
  ar_evidence : gmap Z SlashEvidence;
  ar_next : Z;
}.
#[global] Instance Artifacts_eta : Settable Artifacts := λ a,
  MkArtifacts (ar_micro_qc a) (ar_macro_cp a) (ar_macro_qc a) (ar_status a) (ar_evidence a)
    (ar_next a).
Definition Artifacts_empty : Artifacts := MkArtifacts ∅ ∅ ∅ ∅ ∅ 0.

(** The tier of a blob rises to [status] or stays. *)
Definition raise_status (status : BlobStatus) (current : option BlobStatus) : BlobStatus :=
  match current with
  | None => status
  | Some s => if BlobStatus_u8 s <? BlobStatus_u8 status then status else s
  end.

Definition spec_store (op : persist_op) (a : Artifacts) : Artifacts :=
  match op with
  | PO_micro_qc qc => a <| ar_micro_qc ::= <[mqc_checkpoint_hash qc := qc]> |>
  | PO_macro_checkpoint cp => a <| ar_macro_cp ::= <[mc_height cp := cp]> |>
  | PO_macro_qc qc => a <| ar_macro_qc ::= <[qc_checkpoint_hash qc := qc]> |>
  | PO_evidence ev => a <| ar_evidence ::= <[ar_next a := ev]> |>
  | PO_blob_status b s => a <| ar_status ::= <[b := raise_status s (ar_status a !! b)]> |>
  end.

(** A call that fails stores nothing; a sequence number is used up either way. *)
Definition spec_step (op : persist_op) (ok : bool) (a : Artifacts) : Artifacts :=
  let a' := if ok then spec_store op a else a in
  match op with PO_evidence _ => a' <| ar_next := ar_next a + 1 |> | _ => a' end.

Fixpoint spec_run (ops : list persist_op) (oks : list bool) (a : Artifacts) : Artifacts :=
  match ops, oks with
  | op :: ops, ok :: oks => spec_run ops oks (spec_step op ok a)
  | _, _ => a
  end.

(** ** The rows implement it *)

Section refinement.
Context `{RocksLaws D, Codec MicroQc, Codec MacroCheckpoint, Codec MacroQc, !Borsh SlashEvidence}.

(** Column [cf] holds the map [m]: value [v] under [k] is the row [enc v] under
    [key k], for the keys in [dom]. *)
Definition column_rep `{Countable K} {V} (cf : ColumnFamily) (dom : K → Prop)
    (key : K → bytes) (enc : V → bytes) (m : gmap K V) (db : D) : Prop :=
  ∀ k, dom k → rows db !! (cf_name cf, key k) = enc <$> m !! k.

Lemma column_rep_other `{Countable K} {V} cf cf' dom (key : K → bytes) (enc : V → bytes) m
    k v (db db' : D) :
  rows db' = <[(cf_name cf', k) := v]> (rows db) → cf ≠ cf' →
  column_rep cf dom key enc m db → column_rep cf dom key enc m db'.
Proof.
  intros Hp Hne Hm j Hj. rewrite Hp, lookup_insert_ne; [by apply Hm|].
  intros [= ?%cf_name_inj _]. congruence.
Qed.

Lemma column_rep_put `{Countable K} {V} cf (dom : K → Prop) (key : K → bytes)
    (enc : V → bytes) m k v (db db' : D) :
  (∀ j, dom j → key j = key k → j = k) →
  rows db' = <[(cf_name cf, key k) := enc v]> (rows db) →
  column_rep cf dom key enc m db → column_rep cf dom key enc (<[k := v]> m) db'.
Proof.
  intros Hinj Hp Hm j Hj. rewrite Hp. destruct (decide (j = k)) as [->|Hne].
  - by rewrite !lookup_insert_eq.
  - rewrite !lookup_insert_ne; [by apply Hm|congruence|]. intros [= ?]. by apply Hne, Hinj.
Qed.

Definition status_row (s : BlobStatus) : bytes := [BlobStatus_u8 s].

Record represents (p : RocksPersistence D) (a : Artifacts) : Prop := {
  rep_micro_qc : column_rep CF_MicroQc (λ _, True) keys.hash to_vec (ar_micro_qc a) (rp_db p);
  rep_macro_cp : column_rep CF_MacroCheckpoint u64_ok keys.height to_vec (ar_macro_cp a) (rp_db p);
  rep_macro_qc : column_rep CF_MacroQc (λ _, True) keys.hash to_vec (ar_macro_qc a) (rp_db p);
  rep_status : column_rep CF_BlobStatus (λ _, True) keys.blob_id status_row (ar_status a) (rp_db p);
  rep_evidence : column_rep CF_SlashEvidence u64_ok (be_bytes 8) to_vec (ar_evidence a) (rp_db p);
  rep_seq : rp_seq p = ar_next a;
  rep_next : 0 ≤ ar_next a;
  rep_enc_micro_qc : map_Forall (λ _ v, encodable v) (ar_micro_qc a);
  rep_enc_macro_cp : map_Forall (λ _ v, encodable v) (ar_macro_cp a);
  rep_enc_macro_qc : map_Forall (λ _ v, encodable v) (ar_macro_qc a);
}.

Lemma decode_status_u8 s : blob_status_store.decode_status (BlobStatus_u8 s) = Ok s.
Proof. by destruct s. Qed.

(** *** The calls, on the rows *)

Lemma on_db_inv {A} (m : M StoreError D A) p r p' :
  on_db m p = (r, p') →
  ∃ r0 db', m (rp_db p) = (r0, db') ∧ is_ok r = is_ok r0 ∧ p' = p <| rp_db := db' |>.
Proof.
  unfold on_db. destruct (m (rp_db p)) as [r0 db'] eqn:Hm. intros [= <- <-].
  exists r0, db'. by destruct r0.
Qed.

Lemma blob_status_get_Ok db m b o :
  column_rep CF_BlobStatus (λ _, True) keys.blob_id status_row m db →
  blob_status_store.get db b = Ok o → o = m !! b.
Proof.
  intros Hm (bs & Hr%get_raw_Ok & Hg)%outcome_bind_Ok.
  rewrite (Hm b I) in Hr. subst bs. destruct (m !! b) as [s|]; cbn in Hg; [|congruence].
  rewrite decode_status_u8 in Hg. cbn in Hg. congruence.
Qed.

Lemma put_monotonic_inv blob status m (db db' : D) r :
  column_rep CF_BlobStatus (λ _, True) keys.blob_id status_row m db →
  blob_status_store.put_monotonic blob status db = (r, db') →
  match r with
  | Ok _ => rows db' = <[(cf_name CF_BlobStatus, keys.blob_id blob) :=
                           status_row (raise_status status (m !! blob))]> (rows db)
  | _ => db' = db
  end.
Proof.
  intros Hm. unfold blob_status_store.put_monotonic, mbind, M_bind, gets, lift. cbn.
  destruct (blob_status_store.get db blob) as [o| | |] eqn:Hg; [|by intros [= <- <-]..].
  apply (blob_status_get_Ok db m) in Hg as ->; [|done].
  destruct (m !! blob) as [s|] eqn:Hs; [|apply put_raw_inv]. cbn [raise_status].
  destruct (_ <? _); [apply put_raw_inv|]. intros [= <- <-].
  symmetry. apply insert_id. specialize (Hm blob I). by rewrite Hs in Hm.
Qed.

Ltac rep_cols Hrows inj :=
  constructor; unfold over; cbn;
  first [ done
        | eapply column_rep_other; [exact Hrows|done|eassumption]
        | eapply column_rep_put; [apply inj|exact Hrows|eassumption]
        | by apply map_Forall_insert_2
        | lia ].

Lemma hash_key_inj (k j : Hash32) : True → keys.hash j = keys.hash k → j = k.
Proof. destruct j, k. cbn. congruence. Qed.
Lemma blob_key_inj (k j : BlobId) : True → keys.blob_id j = keys.blob_id k → j = k.
Proof. destruct j, k. cbn. congruence. Qed.
Lemma u64_key_inj (k : Z) : u64_ok k → ∀ j, u64_ok j → be_bytes 8 j = be_bytes 8 k → j = k.
Proof. intros ? j ?. apply be_bytes_inj; auto. Qed.

Lemma persist_represents op p a r p' :
  persist op p = (r, p') → represents p a → op_ok op → ar_next a + 1 < 2 ^ 64 →
  represents p' (spec_step op (is_ok r) a).
Proof.
  intros Hop [Hmi Hcp Hqc Hst Hev Hseq Hnext E1 E2 E3] Hok Hlt.
  destruct op as [qc|cp|qc|ev|blob status]; cbn [persist spec_step op_ok] in *.
  - apply on_db_inv in Hop as (r0 & db & Hput%put_row_inv & -> & ->).
    destruct r0; cbn [is_ok spec_store]; [rep_cols Hput (hash_key_inj (mqc_checkpoint_hash qc))|subst; by constructor..].
  - apply on_db_inv in Hop as (r0 & db & Hput%put_row_inv & -> & ->). destruct Hok as [Hu ?].
    destruct r0; cbn [is_ok spec_store]; [rep_cols Hput (u64_key_inj (mc_height cp) Hu)|subst; by constructor..].
  - apply on_db_inv in Hop as (r0 & db & Hput%put_row_inv & -> & ->).
    destruct r0; cbn [is_ok spec_store]; [rep_cols Hput (hash_key_inj (qc_checkpoint_hash qc))|subst; by constructor..].
  - unfold append_slash_evidence, mbind, M_bind, gets, modify in Hop. cbn in Hop.
    apply on_db_inv in Hop as (r0 & db & Hput & -> & ->). cbn in Hput.
    apply put_row_inv in Hput. rewrite Hseq in *.
    rewrite Z.mod_small by lia. assert (Hu : u64_ok (ar_next a)) by (split; lia).
    destruct r0; cbn [is_ok spec_store];
      [rep_cols Hput (u64_key_inj (ar_next a) Hu)|subst; constructor; unfold over; cbn; auto; lia..].
  - apply on_db_inv in Hop as (r0 & db & Hput & -> & ->).
    eapply put_monotonic_inv in Hput; [|done].
    destruct r0; cbn [is_ok spec_store]; [rep_cols Hput (blob_key_inj blob)|subst; by constructor..].
Qed.

(** *** Runs *)

Lemma represents_empty (db : D) :
  rows db = ∅ → represents (RocksPersistence_new db) Artifacts_empty.
Proof.
  intros He. constructor; cbn; try done; try apply map_Forall_empty.
  all: intros k _; by rewrite He, !lookup_empty.
Qed.

Lemma spec_step_next op ok a : ar_next (spec_step op ok a) ≤ ar_next a + 1.
Proof. destruct op, ok; unfold spec_step, spec_store, over; cbn; lia. Qed.

Lemma persist_run_represents ops p a oks p' :
  persist_run ops p = (oks, p') → represents p a → Forall op_ok ops →
  ar_next a + length ops < 2 ^ 64 → represents p' (spec_run ops oks a).
Proof.
  revert p a oks. induction ops as [|op ops IH]; intros p a oks; cbn [persist_run].
  { by intros [= <- <-]. }
  destruct (persist op p) as [r p1] eqn:Hop, (persist_run ops p1) as [oks1 p2] eqn:Hrun.
  intros [= <- <-] Hrep [Hok Hoks]%Forall_cons Hlen. cbn [spec_run length] in *.
  apply (IH p1); [done| |done|].
  - apply (persist_represents op p); [done..|lia].
  - pose proof (spec_step_next op (is_ok r) a). lia.
Qed.

Lemma get_row_rep `{Countable K, Codec V} cf (dom : K → Prop) key (m : gmap K V)
    (db : D) k o :
  column_rep cf dom key to_vec m db → dom k → map_Forall (λ _ v, encodable v) m →
  get_row db cf (key k) = Ok o → o = m !! k.
Proof.
  intros Hm Hk Henc ->%get_row_Ok. rewrite (Hm k Hk).
  destruct (m !! k) as [v|] eqn:Hv; cbn; [|done]. by apply (Henc k).
Qed.

(** [C22] The store is what the consensus port promises.  After any sequence of calls
    on an empty database, some of which may have failed, every read that succeeds
    answers from the artifacts that were stored: the latest certificate or
    checkpoint stored under a key, the highest tier reported for a blob; and the
    evidence log holds each evidence under its own sequence number, none
    overwritten. *)
Theorem persistence_refines ops (db : D) oks p :
  rows db = ∅ → Forall op_ok ops → length ops < 2 ^ 64 →
  persist_run ops (RocksPersistence_new db) = (oks, p) →
  let a := spec_run ops oks Artifacts_empty in
  (∀ h o, micro_qc_for p h = Ok o → o = ar_micro_qc a !! h) ∧
  (∀ h o, u64_ok h → macro_checkpoint_at p h = Ok o → o = ar_macro_cp a !! h) ∧
  (∀ h o, macro_qc_for p h = Ok o → o = ar_macro_qc a !! h) ∧
  (∀ b s, blob_status p b = Ok s → s = default Accepted (ar_status a !! b)) ∧
  (∀ i, u64_ok i →
     rows (rp_db p) !! (cf_name CF_SlashEvidence, be_bytes 8 i) = to_vec <$> ar_evidence a !! i).
Proof.
  intros He%represents_empty Hops Hlen Hrun a.
  destruct (persist_run_represents _ _ _ _ _ Hrun He Hops Hlen)
    as [Hmi Hcp Hqc Hst Hev _ _ E1 E2 E3].
  split_and!.
  - intros h o Hg%map_err_Ok. by eapply (get_row_rep CF_MicroQc).
  - intros h o Hh Hg%map_err_Ok. by eapply (get_row_rep CF_MacroCheckpoint).
  - intros h o Hg%map_err_Ok. by eapply (get_row_rep CF_MacroQc).
  - intros b s (o & Hg%map_err_Ok & Hs)%outcome_bind_Ok.
    eapply blob_status_get_Ok in Hg; [|exact Hst]. subst o.
    fold a in Hs. destruct (ar_status a !! b); cbn; congruence.
  - exact Hev.
Qed.

(** *** Tiers, whatever the database holds *)

Abbreviation status_row_of db b := (rows db !! (cf_name CF_BlobStatus, keys.blob_id b)).

(** The tier that a row stands for, [Accepted] if there is none; none if the row is garbage. *)
Definition tier (row : option bytes) : option Z :=
  match row with
  | None => Some 0
  | Some [byte] => match blob_status_store.decode_status byte with
                   | Ok s => Some (BlobStatus_u8 s) | _ => None end
  | Some _ => None
  end.

Lemma status_get_tier db b o :
  blob_status_store.get db b = Ok o →
  tier (status_row_of db b) = Some (match o with Some s => BlobStatus_u8 s | None => 0 end).
Proof.
  intros (bs & <-%get_raw_Ok & Hg)%outcome_bind_Ok.
  destruct bs as [[|byte [|]]|]; cbn in *; simplify_eq; [|done].
  by destruct (blob_status_store.decode_status byte); simplify_eq/=.
Qed.

(** A row that a call leaves readable was readable, and of no higher tier. *)
Definition rises (db db' : D) (b : BlobId) (least : Z) : Prop :=
  ∀ y, tier (status_row_of db' b) = Some y →
    ∃ x, tier (status_row_of db b) = Some x ∧ x ≤ y ∧ least ≤ y.

Lemma tier_pos row y : tier row = Some y → 0 ≤ y.
Proof.
  destruct row as [[|byte [|]]|]; cbn; try (intros; simplify_eq; lia).
  destruct (blob_status_store.decode_status byte) as [[]| | |]; intros; simplify_eq/=; lia.
Qed.
Lemma rises_same db db' b : status_row_of db' b = status_row_of db b → rises db db' b 0.
Proof. intros He y Hy. exists y. rewrite <- He. split_and!; [done|done|by eapply tier_pos]. Qed.

Lemma put_other_column cf key v (db db' : D) r b :
  cf ≠ CF_BlobStatus → put_raw cf key v db = (r, db') → status_row_of db' b = status_row_of db b.
Proof.
  intros Hne Hr%put_raw_inv. destruct r; [|by subst..]. rewrite Hr. apply lookup_insert_ne.
  intros He. by apply Hne, cf_name_inj, (f_equal fst He).
Qed.

Lemma put_monotonic_rises blob st (db db' : D) r b :
  blob_status_store.put_monotonic blob st db = (r, db') →
  rises db db' b (if is_ok r && bool_decide (blob = b) then BlobStatus_u8 st else 0).
Proof.
  unfold blob_status_store.put_monotonic, mbind, M_bind, gets, lift. cbn. unfold id.
  destruct (blob_status_store.get db blob) as [o| | |] eqn:Hg;
    [|by intros [= <- <-]; apply rises_same..].
  destruct (decide (blob = b)) as [->|Hne].
  - rewrite bool_decide_eq_true_2, andb_true_r by done. apply status_get_tier in Hg.
    destruct (match o with None => true | _ => _ end) eqn:Hw.
    + intros Hr%put_raw_inv. destruct r; [|by subst; apply rises_same..].
      intros y. rewrite Hr, lookup_insert_eq. cbn. rewrite decode_status_u8. intros [= <-].
      eexists. split; [exact Hg|]. destruct o as [s|]; [apply Z.ltb_lt in Hw; lia|].
      by destruct st.
    + intros [= <- <-] y Hy. exists y. rewrite Hg in Hy. destruct o as [s|]; [|done].
      injection Hy as <-. apply Z.ltb_ge in Hw. cbn. split_and!; [done|lia|done].
  - rewrite bool_decide_eq_false_2, andb_false_r by done.
    assert (Hsame : ∀ v r db', put_raw CF_BlobStatus (keys.blob_id blob) v db = (r, db') →
      rises db db' b 0).
    { intros v r' db2 Hr%put_raw_inv. apply rises_same. destruct r'; [|by subst..].
      rewrite Hr. apply lookup_insert_ne. intros He. by apply Hne, (blob_key_inj b), (f_equal snd He). }
    destruct (match o with None => true | _ => _ end); [by apply Hsame|].
    intros [= <- <-]. by apply rises_same.
Qed.

Lemma persist_rises op (p p' : RocksPersistence D) r b :
  persist op p = (r, p') →
  rises (rp_db p) (rp_db p') b
    (match op with
     | PO_blob_status b' st => if is_ok r && bool_decide (b' = b) then BlobStatus_u8 st else 0
     | _ => 0
     end).
Proof.
  destruct op as [qc|cp|qc|ev|blob st]; cbn [persist]; intros Hp.
  1-3: apply on_db_inv in Hp as (r0 & db & Hput & _ & ->);
    by eapply rises_same, put_other_column, Hput.
  - unfold append_slash_evidence, mbind, M_bind, gets, modify in Hp. cbn in Hp.
    apply on_db_inv in Hp as (r0 & db & Hput & _ & ->).
    by eapply rises_same, put_other_column, Hput.
  - apply on_db_inv in Hp as (r0 & db & Hput%(put_monotonic_rises _ _ _ _ _ b) & -> & ->). exact Hput.
Qed.

(** Along the life of a store *)
Lemma life_run_rises ops (p p' : RocksPersistence D) reported b y :
  life_run ops p = (reported, p') → tier (status_row_of (rp_db p') b) = Some y →
  (∃ x, tier (status_row_of (rp_db p) b) = Some x ∧ x ≤ y) ∧
  ∀ st, PO_blob_status b st ∈ reported → BlobStatus_u8 st ≤ y.
Proof.
  revert p reported. induction ops as [|[op|] ops IH]; intros p reported; cbn [life_run].
  { intros [= <- <-] Hy. split; [by exists y|]. by intros st ?%elem_of_nil. }
  2: { intros Hr Hy. exact (IH _ _ Hr Hy). }
  destruct (persist op p) as [r p1] eqn:Hop, (life_run ops p1) as [rest p2] eqn:Hrun.
  intros [= <- <-] Hy. destruct (IH _ _ Hrun Hy) as [(x1 & Hx1 & ?) Hall].
  destruct (persist_rises op p p1 r b Hop x1 Hx1) as (x & Hx & ? & Hleast).
  split; [exists x; split; [done|lia]|]. intros st Hin. destruct (is_ok r) eqn:Hok; [|by apply Hall].
  apply elem_of_cons in Hin as [<-|Hin]; [|by apply Hall].
  rewrite bool_decide_eq_true_2 in Hleast by done. cbn in Hleast. lia.
Qed.

(** [C23] A blob's tier is never downgraded.  Over any database, whatever it holds, and any
    sequence of calls, of which any may fail, over any number of processes that restart on the
    database: if the tier of a blob can be read at two moments it has not fallen between them,
    and at the second it is at least every tier that was reported with success until then. *)
Theorem blob_status_monotonic ops1 ops2 (p p1 p2 : RocksPersistence D) reported1 reported2 b s1 s2 :
  life_run ops1 p = (reported1, p1) → life_run ops2 p1 = (reported2, p2) →
  blob_status p1 b = Ok s1 → blob_status p2 b = Ok s2 →
  BlobStatus_u8 s1 ≤ BlobStatus_u8 s2 ∧
  ∀ st, PO_blob_status b st ∈ reported1 ++ reported2 → BlobStatus_u8 st ≤ BlobStatus_u8 s2.
Proof.
  intros Hr1 Hr2 Hs1 Hs2.
  assert (Hread : ∀ p s, blob_status p b = Ok s →
    tier (status_row_of (rp_db p) b) = Some (BlobStatus_u8 s)).
  { intros q s (o & Hg%map_err_Ok & Hs)%outcome_bind_Ok. apply status_get_tier in Hg.
    rewrite Hg. f_equal. destruct o; by injection Hs as <-. }
  apply Hread in Hs1, Hs2.
  destruct (life_run_rises _ _ _ _ _ _ Hr2 Hs2) as [(x & Hx & ?) Hall2].
  rewrite Hs1 in Hx. injection Hx as <-. split; [done|].
  intros st [Hin|Hin]%elem_of_app; [|by apply Hall2].
  destruct (life_run_rises _ _ _ _ _ _ Hr1 Hs1) as [_ Hall1]. specialize (Hall1 st Hin). lia.
Qed.

(** Evidence does not survive a restart: a new [RocksPersistence] over the same
    database counts from 0 again, so its first append replaces the evidence the
    previous process stored first. *)
Theorem restart_overwrites_evidence (p p' : RocksPersistence D) ev :
  append_slash_evidence ev (RocksPersistence_new (rp_db p)) = (Ok tt, p') →
  rows (rp_db p') !! (cf_name CF_SlashEvidence, be_bytes 8 0) = Some (to_vec ev).
Proof.
  unfold append_slash_evidence, mbind, M_bind, gets, modify. cbn. intros Happ.
  apply on_db_inv in Happ as (r0 & db & Hput%put_row_inv & Hok & ->).
  destruct r0; try done. cbn in *. rewrite Hput. apply lookup_insert_eq.
Qed.
End refinement.

(** ** A validator's store *)

Definition toy_agg_bytes (a : BlsAggSig) : bytes :=
  bsig_bytes (agg_sig a) ++ le_bytes 4 (length (agg_bitmap a)) ++ agg_bitmap a.
Definition toy_agg_of (bs : bytes) : BlsAggSig :=
  MkBlsAggSig (MkBlsSig (take 96 bs)) (drop 100 bs).

#[local] Instance toy_store_micro_qc : Borsh MicroQc := λ qc,
  h32_bytes (mqc_checkpoint_hash qc) ++ toy_agg_bytes (mqc_agg qc).
#[local] Instance toy_read_micro_qc : Codec MicroQc := λ bs,
  Some (MkMicroQc (MkHash32 (take 32 bs)) (toy_agg_of (drop 32 bs))).

#[local] Instance toy_store_macro_cp : Borsh MacroCheckpoint := λ c,
  le_bytes 8 (mc_height c) ++ le_bytes 8 (mc_epoch c) ++ h32_bytes (mc_parent c) ++
  h32_bytes (mc_micro_root c) ++ h32_bytes (mc_hash c).
#[local] Instance toy_read_macro_cp : Codec MacroCheckpoint := λ bs,
  let hash_at i := MkHash32 (take 32 (drop i bs)) in
  Some (MkMacroCheckpoint (of_le (take 8 bs)) (of_le (take 8 (drop 8 bs)))
          (hash_at 16%nat) (hash_at 48%nat) (hash_at 80%nat)).

#[local] Instance toy_store_macro_qc : Borsh MacroQc := λ qc,
  h32_bytes (qc_checkpoint_hash qc) ++
  [match qc_mode qc with Mode0Flat => 0 | ModeASubnet => 1 | ModeBLeaderless => 2 end] ++
  toy_agg_bytes (qc_agg qc).
#[local] Instance toy_read_macro_qc : Codec MacroQc := λ bs,
  let tag := default 0 (head (drop 32 bs)) in
  let mode := if tag =? 0 then Mode0Flat else if tag =? 1 then ModeASubnet else ModeBLeaderless in
  Some (MkMacroQc (MkHash32 (take 32 bs)) mode (toy_agg_of (drop 33 bs))).

#[local] Instance toy_store_evidence : Borsh SlashEvidence := λ ev,
  match ev with
  | SE_MacroEquivocation e => 0 :: vid_bytes (me_validator e)
  | SE_Surround e => 1 :: vid_bytes (sv_validator e)
  | SE_DoubleVote e => 2 :: vid_bytes (dv_validator e)
  | SE_VertexEquivocation e => 3 :: vid_bytes (veq_validator e)
  end.

Definition toy_h32 (i : Z) : Hash32 := MkHash32 (replicate 32 i).
Definition toy_agg : BlsAggSig := MkBlsAggSig (MkBlsSig (replicate 96 5)) [7].
Definition toy_double (i : nat) : SlashEvidence :=
  SE_DoubleVote (MkDoubleVote (toy_id i) 3 (toy_h32 1) (MkBlsSig []) (toy_h32 2) (MkBlsSig [])).

Definition toy_stored_qc : MacroQc := MkMacroQc (toy_h32 1) Mode0Flat toy_agg.
Definition toy_blob_id : BlobId := MkBlobId (replicate 32 8).

Definition toy_ops : list persist_op :=
  [PO_macro_checkpoint (MkMacroCheckpoint 300 0 (toy_h32 0) (toy_h32 4) (toy_h32 1));
   PO_macro_qc toy_stored_qc; PO_blob_status toy_blob_id Justified; PO_evidence (toy_double 1)].
Definition toy_ops' : list persist_op :=
  [PO_blob_status toy_blob_id SoftConfirmed; PO_evidence (toy_double 2);
   PO_micro_qc (MkMicroQc (toy_h32 9) toy_agg)].

#[global] Instance op_ok_dec (op : persist_op) : Decision (op_ok op).
Proof. destruct op; cbn; unfold encodable; apply _. Defined.

Lemma toy_ops_ok : Forall op_ok (toy_ops ++ toy_ops').
Proof. vdecide. Qed.

Lemma persistence_refines_witness :
  let r := persist_run (toy_ops ++ toy_ops') (RocksPersistence_new (∅ : toy_db)) in
  r.1 = replicate 7 true ∧ macro_qc_for r.2 (toy_h32 1) = Ok (Some toy_stored_qc) ∧
  (∀ h o, macro_qc_for r.2 h = Ok o →
     o = ar_macro_qc (spec_run (toy_ops ++ toy_ops') r.1 Artifacts_empty) !! h).
Proof.
  intros r. split; [vm_compute; reflexivity|]. split; [vm_compute; reflexivity|].
  refine (proj1 (proj2 (proj2 (persistence_refines _ ∅ r.1 r.2 _ toy_ops_ok _ _)))).
  - reflexivity.
  - vm_compute. reflexivity.
  - apply surjective_pairing.
Defined.

(** Two processes over a database with a row already *)
Definition toy_old_store : RocksPersistence toy_db :=
  (persist_run toy_ops (RocksPersistence_new (∅ : toy_db))).2.
Definition toy_life1 : list life_op := [LO_restart; LO_call (PO_evidence (toy_double 2))].
Definition toy_life2 : list life_op :=
  [LO_call (PO_blob_status toy_blob_id SoftConfirmed); LO_restart;
   LO_call (PO_blob_status toy_blob_id Finalized)].

Lemma blob_status_monotonic_witness :
  let r1 := life_run toy_life1 toy_old_store in
  let r2 := life_run toy_life2 r1.2 in
  blob_status r1.2 toy_blob_id = Ok Justified ∧ blob_status r2.2 toy_blob_id = Ok Finalized ∧
  length (r1.1 ++ r2.1) = 3%nat ∧
  BlobStatus_u8 Justified ≤ BlobStatus_u8 Finalized ∧
  ∀ st, PO_blob_status toy_blob_id st ∈ r1.1 ++ r2.1 → BlobStatus_u8 st ≤ BlobStatus_u8 Finalized.
Proof.
  intros r1 r2.
  assert (H1 : blob_status r1.2 toy_blob_id = Ok Justified) by (vm_compute; reflexivity).
  assert (H2 : blob_status r2.2 toy_blob_id = Ok Finalized) by (vm_compute; reflexivity).
  split; [exact H1|]. split; [exact H2|]. split; [vm_compute; reflexivity|].
  exact (blob_status_monotonic toy_life1 toy_life2 toy_old_store r1.2 r2.2 r1.1 r2.1
           toy_blob_id Justified Finalized (surjective_pairing r1) (surjective_pairing r2) H1 H2).
Defined.

Lemma restart_overwrites_evidence_witness :
  let p1 := (append_slash_evidence (toy_double 1) (RocksPersistence_new (∅ : toy_db))).2 in
  let p2 := (append_slash_evidence (toy_double 2) (RocksPersistence_new (rp_db p1))).2 in
  rows (rp_db p1) !! (cf_name CF_SlashEvidence, be_bytes 8 0) = Some (to_vec (toy_double 1)) ∧
  rows (rp_db p2) !! (cf_name CF_SlashEvidence, be_bytes 8 0) = Some (to_vec (toy_double 2)) ∧
  to_vec (toy_double 1) ≠ to_vec (toy_double 2).
Proof.
  intros p1 p2. split; [vm_compute; reflexivity|]. split; [|by vm_compute].
  apply (restart_overwrites_evidence p1 p2 (toy_double 2)).
  assert (Hok : (append_slash_evidence (toy_double 2) (RocksPersistence_new (rp_db p1))).1 = Ok tt)
    by (vm_compute; reflexivity).
  rewrite <- Hok. apply surjective_pairing.
Defined.
