(* ===== verification/Gf256.v ===== *)
(** [crates/dag/src/erasure/gf256.rs]: arithmetic in GF(2^8) by tables.

    A [u8] of the erasure code is a [byte].  The tables are built by the
    loops of the source and evaluated once.  [Field2] is what the Reed-Solomon
    codec asks of its field; the last part of the file shows that the table
    arithmetic provides it, and that multiplication is that of polynomials
    modulo x^8 + x^4 + x^3 + x^2 + 1. *)

From Stdlib Require Import NArith.
From Stdlib Require Export Strings.Byte.
From S2P Require Import Prelude.
Open Scope N_scope.

(** ** Bytes *)

Abbreviation u8 := byte.
#[global] Instance u8_eq_dec : EqDecision u8 := Byte.byte_eq_dec.
#[global] Instance u8_inhabited : Inhabited u8 := populate x00.

Definition u8_nat (b : u8) : nat := N.to_nat (Byte.to_N b).

(** [n as u8] *)
Definition u8_of_N (n : N) : u8 := default x00 (Byte.of_N (n mod 256)).

Definition all_u8 : list u8 := (λ i, u8_of_N (N.of_nat i)) <$> seq 0 256.

(** ** The field operations *)

Definition mul_by_generator (x : u8) : u8 :=
  if negb (N.land (Byte.to_N x) 0x80 =? 0)
  then u8_of_N (N.lxor (N.shiftl (Byte.to_N x) 1 mod 256) 0x1D)
  else u8_of_N (N.shiftl (Byte.to_N x) 1).

Record GfTables := MkGfTables { gf_exp : list u8; gf_log : list u8 }.

(** The two loops of [tables]. *)
Fixpoint log_loop (l : list nat) (x : u8) (t : GfTables) : GfTables :=
  match l with
  | [] => t
  | i :: l =>
      log_loop l (mul_by_generator x)
        (MkGfTables (<[i := x]> (gf_exp t)) (<[u8_nat x := u8_of_N (N.of_nat i)]> (gf_log t)))
  end.
Fixpoint wrap_loop (l : list nat) (exp : list u8) : list u8 :=
  match l with
  | [] => exp
  | i :: l => wrap_loop l (<[i := nth (i - 255) exp x00]> exp)
  end.
Definition build_tables : GfTables :=
  let t := log_loop (seq 0 255) x01 (MkGfTables (replicate 512 x00) (replicate 256 x00)) in
  MkGfTables (wrap_loop (seq 255 257) (gf_exp t)) (gf_log t).

Definition tables : GfTables := Eval vm_compute in build_tables.

Definition exp_at (i : nat) : u8 := nth i (gf_exp tables) x00.
Definition log_at (a : u8) : nat := u8_nat (nth (u8_nat a) (gf_log tables) x00).

Definition add (a b : u8) : u8 := u8_of_N (N.lxor (Byte.to_N a) (Byte.to_N b)).

Definition mul (a b : u8) : u8 :=
  if bool_decide (a = x00) || bool_decide (b = x00) then x00
  else exp_at ((log_at a + log_at b) mod 255).

Definition inv (a : u8) : u8 :=
  if bool_decide (a = x00) then x00 else exp_at (255 - log_at a).

(** The loop of [pow] on the bits of [n], low bit first. *)
Fixpoint pow_loop (n : positive) (acc base : u8) : u8 :=
  match n with
  | xH => mul acc base
  | xO n => pow_loop n acc (mul base base)
  | xI n => pow_loop n (mul acc base) (mul base base)
  end.
Definition pow (a : u8) (n : N) : u8 :=
  match n with N0 => x01 | Npos p => pow_loop p x01 a end.

(** [mul_slice] and [mul_slice_add] overwrite and accumulate into [out]. *)
Definition mul_slice {E} (c : u8) (input out : list u8) : outcome E (list u8) :=
  if bool_decide (length input ≠ length out) then Panic
  else if bool_decide (c = x00) then Ok (replicate (length out) x00)
  else Ok (mul c <$> input).

Definition mul_slice_add {E} (c : u8) (input out : list u8) : outcome E (list u8) :=
  if bool_decide (length input ≠ length out) then Panic
  else if bool_decide (c = x00) then Ok out
  else if bool_decide (c = x01) then Ok (zip_with add out input)
  else Ok (zip_with (λ d s, add d (mul c s)) out input).

(** ** Fields of characteristic two *)

Class Field2 (F : Type) := {
  fzero : F; fone : F; fadd : F → F → F; fmul : F → F → F; finv : F → F;
  fadd_assoc a b c : fadd a (fadd b c) = fadd (fadd a b) c;
  fadd_comm a b : fadd a b = fadd b a;
  fadd_0_l a : fadd fzero a = a;
  fadd_self a : fadd a a = fzero;
  fmul_assoc a b c : fmul a (fmul b c) = fmul (fmul a b) c;
  fmul_comm a b : fmul a b = fmul b a;
  fmul_1_l a : fmul fone a = a;
  fmul_add_l a b c : fmul a (fadd b c) = fadd (fmul a b) (fmul a c);
  fmul_inv_l a : a ≠ fzero → fmul (finv a) a = fone;
  fone_zero : fone ≠ fzero;
}.

(** ** The tables *)

Lemma tables_built : tables = build_tables.
Proof. vm_compute. reflexivity. Qed.

(** Closed statements about all bytes, by evaluation. *)
Lemma u8_lt a : Byte.to_N a < 256.
Proof. pose proof (Byte.to_N_bounded a). lia. Qed.

Lemma u8_of_to a : u8_of_N (Byte.to_N a) = a.
Proof.
  unfold u8_of_N. rewrite N.mod_small by apply u8_lt. by rewrite Byte.of_to_N.
Qed.

Lemma to_u8_of n : Byte.to_N (u8_of_N n) = n mod 256.
Proof.
  unfold u8_of_N. destruct (Byte.of_N _) as [b|] eqn:Hb.
  - by apply Byte.to_of_N in Hb.
  - apply Byte.of_N_None_iff in Hb. pose proof (N.mod_lt n 256). lia.
Qed.

Lemma to_N_inj a b : Byte.to_N a = Byte.to_N b → a = b.
Proof. intros He. by rewrite <- (u8_of_to a), He, u8_of_to. Qed.

Lemma all_u8_elem (a : u8) : a ∈ all_u8.
Proof.
  unfold all_u8. apply list_elem_of_fmap. exists (u8_nat a). split.
  - unfold u8_nat. by rewrite N2Nat.id, u8_of_to.
  - apply elem_of_seq. pose proof (u8_lt a). unfold u8_nat. lia.
Qed.

Lemma for_all_u8 (P : u8 → bool) : forallb P all_u8 = true → ∀ a, P a = true.
Proof. intros HP a. rewrite forallb_forall in HP. apply HP, list_elem_of_In, all_u8_elem. Qed.

(** The tables, as functions: [exp] runs through the powers of the generator
    and has period 255, [log] is its inverse on the non-zero bytes. *)
Lemma exp_at_0 : exp_at 0 = x01.
Proof. reflexivity. Qed.

Lemma exp_at_period (i : nat) : (i < 255)%nat →
  exp_at (S i mod 255) = mul_by_generator (exp_at i) ∧ exp_at i ≠ x00 ∧ log_at (exp_at i) = i.
Proof.
  intros Hi.
  assert (Hall : forallb (λ i, bool_decide
    (exp_at (S i mod 255) = mul_by_generator (exp_at i) ∧ exp_at i ≠ x00 ∧
     log_at (exp_at i) = i)) (seq 0 255) = true) by (vm_compute; reflexivity).
  rewrite forallb_forall in Hall. eapply bool_decide_eq_true_1, (Hall i).
  apply list_elem_of_In, elem_of_seq. lia.
Qed.

Lemma exp_log a : a ≠ x00 → exp_at (log_at a) = a ∧ (log_at a < 255)%nat.
Proof.
  assert (Hall : forallb (λ a, bool_decide
    (a = x00 ∨ exp_at (log_at a) = a ∧ (log_at a < 255)%nat)) all_u8 = true)
    by (vm_compute; reflexivity).
  intros Ha. pose proof (for_all_u8 _ Hall a) as H%bool_decide_eq_true_1.
  destruct H as [H|H]; [destruct (Ha H)|exact H].
Qed.

Lemma nonzero_exp a : a ≠ x00 → ∃ i, (i < 255)%nat ∧ a = exp_at i.
Proof. intros [He Hl]%exp_log. eauto. Qed.

Lemma mul_0_l b : mul x00 b = x00.
Proof. done. Qed.
Lemma mul_0_r a : mul a x00 = x00.
Proof. unfold mul. rewrite orb_comm. done. Qed.

Lemma mul_exp i j : (i < 255)%nat → (j < 255)%nat →
  mul (exp_at i) (exp_at j) = exp_at ((i + j) mod 255).
Proof.
  intros (_ & Hi & Li)%exp_at_period (_ & Hj & Lj)%exp_at_period.
  unfold mul. rewrite !bool_decide_false by done. by rewrite Li, Lj.
Qed.

Lemma mul_comm a b : mul a b = mul b a.
Proof. unfold mul. by rewrite orb_comm, Nat.add_comm. Qed.

Lemma mod255 (i : nat) : (i mod 255 < 255)%nat.
Proof. by apply Nat.mod_upper_bound. Qed.

Lemma mul_assoc a b c : mul a (mul b c) = mul (mul a b) c.
Proof.
  destruct (decide (a = x00)) as [->|(i & Hi & ->)%nonzero_exp]; [done|].
  destruct (decide (b = x00)) as [->|(j & Hj & ->)%nonzero_exp].
  { by rewrite mul_0_l, mul_0_r, mul_0_l. }
  destruct (decide (c = x00)) as [->|(k & Hk & ->)%nonzero_exp].
  { by rewrite !mul_0_r. }
  rewrite !mul_exp by auto using mod255.
  by rewrite Nat.Div0.add_mod_idemp_r, Nat.Div0.add_mod_idemp_l, Nat.add_assoc.
Qed.

Lemma mul_1_l a : mul x01 a = a.
Proof.
  destruct (decide (a = x00)) as [->|(i & Hi & ->)%nonzero_exp]; [done|].
  rewrite <- exp_at_0, mul_exp by lia. by rewrite Nat.add_0_l, Nat.mod_small.
Qed.

Lemma mul_inv_l a : a ≠ x00 → mul (inv a) a = x01.
Proof.
  intros Ha. destruct (exp_log a Ha) as [He Hl]. unfold inv. rewrite bool_decide_false by done.
  destruct (decide (log_at a = 0%nat)) as [H0|H0].
  - rewrite H0 in *. rewrite <- He. reflexivity.
  - rewrite <- He at 2. rewrite mul_exp by lia.
    by replace (255 - log_at a + log_at a)%nat with 255%nat by lia.
Qed.

(** ** Addition, and multiplication by the generator, are linear *)

Lemma lt_256_lxor m n : m < 256 → n < 256 → N.lxor m n < 256.
Proof.
  intros Hm Hn. assert (Hs : ∀ k, k < 256 ↔ N.shiftr k 8 = 0).
  { intros k. rewrite N.shiftr_div_pow2. change (2 ^ 8) with 256. split.
    - apply N.div_small.
    - intros Hk. pose proof (N.div_mod k 256). pose proof (N.mod_lt k 256). lia. }
  apply Hs. rewrite N.shiftr_lxor. apply Hs in Hm, Hn. by rewrite Hm, Hn.
Qed.

Lemma add_N a b : Byte.to_N (add a b) = N.lxor (Byte.to_N a) (Byte.to_N b).
Proof. unfold add. rewrite to_u8_of. apply N.mod_small, lt_256_lxor; apply u8_lt. Qed.

Ltac to_N_lxor := apply to_N_inj; rewrite ?add_N.

Lemma add_assoc a b c : add a (add b c) = add (add a b) c.
Proof. to_N_lxor. by rewrite N.lxor_assoc. Qed.
Lemma add_comm a b : add a b = add b a.
Proof. to_N_lxor. apply N.lxor_comm. Qed.
Lemma add_0_l a : add x00 a = a.
Proof. to_N_lxor. apply N.lxor_0_l. Qed.
Lemma add_self a : add a a = x00.
Proof. to_N_lxor. apply N.lxor_nilpotent. Qed.
Lemma add_0_r a : add a x00 = a.
Proof. rewrite add_comm. apply add_0_l. Qed.

Lemma mul_by_generator_N x :
  Byte.to_N (mul_by_generator x) =
  N.lxor (N.shiftl (Byte.to_N x) 1 mod 256) (if N.testbit (Byte.to_N x) 7 then 0x1D else 0).
Proof. by destruct x. Qed.

Lemma mod256_lxor m n : N.lxor m n mod 256 = N.lxor (m mod 256) (n mod 256).
Proof.
  change 256 with (2 ^ 8). apply N.bits_inj. intros i. rewrite N.lxor_spec.
  destruct (N.lt_ge_cases i 8).
  - by rewrite !N.mod_pow2_bits_low, N.lxor_spec.
  - by rewrite !N.mod_pow2_bits_high.
Qed.

Lemma mul_by_generator_add a b :
  mul_by_generator (add a b) = add (mul_by_generator a) (mul_by_generator b).
Proof.
  to_N_lxor. rewrite !mul_by_generator_N, add_N, N.shiftl_lxor, mod256_lxor, N.lxor_spec.
  rewrite <- !N.lxor_assoc.
  set (m := N.shiftl (Byte.to_N a) 1 mod 256). set (n := N.shiftl (Byte.to_N b) 1 mod 256).
  destruct (N.testbit (Byte.to_N a) 7), (N.testbit (Byte.to_N b) 7); cbn [xorb];
    rewrite ?N.lxor_0_r; try done.
  - rewrite (N.lxor_assoc m 29 n), (N.lxor_comm 29 n), <- (N.lxor_assoc m n 29).
    by rewrite (N.lxor_assoc _ 29 29), N.lxor_nilpotent, N.lxor_0_r.
  - by rewrite (N.lxor_assoc m 29 n), (N.lxor_comm 29 n), <- (N.lxor_assoc m n 29).
Qed.

(** Multiplying by [exp i] is multiplying [i] times by the generator. *)
Lemma iter_generator i b :
  (i < 255)%nat → mul (exp_at i) b = Nat.iter i mul_by_generator b.
Proof.
  intros Hi. destruct (decide (b = x00)) as [->|(j & Hj & ->)%nonzero_exp].
  { rewrite mul_0_r. clear Hi. induction i as [|i IH]; [done|].
    rewrite Nat.iter_succ, <- IH. reflexivity. }
  induction i as [|i IH].
  { rewrite mul_exp by done. by rewrite Nat.add_0_l, Nat.mod_small. }
  rewrite Nat.iter_succ, <- IH, !mul_exp by lia.
  destruct (exp_at_period ((i + j) mod 255) (mod255 _)) as [<- _]. f_equal.
  rewrite <- (Nat.add_1_l ((i + j) mod 255)), Nat.Div0.add_mod_idemp_r. f_equal.
Qed.

Lemma mul_add_l a b c : mul a (add b c) = add (mul a b) (mul a c).
Proof.
  destruct (decide (a = x00)) as [->|(i & Hi & ->)%nonzero_exp]; [done|].
  rewrite !iter_generator by done. clear Hi.
  induction i as [|i IH]; [done|]. by rewrite !Nat.iter_succ, IH, mul_by_generator_add.
Qed.

#[global] Program Instance gf256 : Field2 u8 :=
  {| fzero := x00; fone := x01; fadd := add; fmul := mul; finv := inv |}.
Solve Obligations with
  eauto using add_assoc, add_comm, add_0_l, add_self, mul_assoc, mul_comm, mul_1_l, mul_add_l,
    mul_inv_l.

(** ** Powers *)

Fixpoint fpow `{Field2 F} (a : F) (n : nat) : F :=
  match n with O => fone | S n => fmul a (fpow a n) end.

Section powers.
Context `{Field2 F}.

Lemma fmul_1_r a : fmul a fone = a.
Proof. rewrite fmul_comm. apply fmul_1_l. Qed.

Lemma fpow_add a m n : fpow a (m + n) = fmul (fpow a m) (fpow a n).
Proof.
  induction m as [|m IH]; cbn; [by rewrite fmul_1_l|]. by rewrite IH, fmul_assoc.
Qed.

Lemma fpow_double a n : fpow (fmul a a) n = fpow a (n + n).
Proof.
  induction n as [|n IH]; [done|]. cbn. rewrite IH.
  rewrite (Nat.add_comm n (S n)). cbn. by rewrite !fmul_assoc.
Qed.
End powers.

Lemma pow_loop_spec n acc base :
  pow_loop n acc base = mul acc (fpow base (Pos.to_nat n)).
Proof.
  revert acc base. induction n as [n IH|n IH|]; intros acc base; cbn [pow_loop].
  - rewrite IH, <- mul_assoc. f_equal.
    change (mul base base) with (fmul base base). rewrite (fpow_double base), Pos2Nat.inj_xI.
    replace (S (2 * Pos.to_nat n)) with (S (Pos.to_nat n + Pos.to_nat n)) by lia. done.
  - rewrite IH. f_equal. change (mul base base) with (fmul base base).
    rewrite (fpow_double base), Pos2Nat.inj_xO. f_equal. lia.
  - cbn. f_equal. symmetry. apply (fmul_1_r base).
Qed.

Lemma pow_spec a n : pow a n = fpow a (N.to_nat n).
Proof. destruct n as [|p]; [done|]. cbn [pow]. rewrite pow_loop_spec. apply mul_1_l. Qed.

(** ** Polynomials over GF(2)

    A polynomial is the number whose bits are its coefficients.  [clmul] is the
    product of polynomials of degree at most 7, [pmod] the remainder by
    x^8 + x^4 + x^3 + x^2 + 1 of one of degree at most 14. *)

Definition xsum (ns : list N) : N := foldr N.lxor 0 ns.

Definition clmul (a b : N) : N :=
  xsum ((λ i, if N.testbit a i then N.shiftl b i else 0) <$> [0; 1; 2; 3; 4; 5; 6; 7]).

Definition pmod_step (n i : N) : N :=
  if N.testbit n (8 + i) then N.lxor n (N.shiftl 0x11D i) else n.
Definition pmod (n : N) : N := foldl pmod_step n [6; 5; 4; 3; 2; 1; 0].

Lemma lxor_swap a b c d : N.lxor (N.lxor a b) (N.lxor c d) = N.lxor (N.lxor a c) (N.lxor b d).
Proof.
  rewrite (N.lxor_assoc a b), (N.lxor_assoc a c), <- (N.lxor_assoc b c d),
    <- (N.lxor_assoc c b d). by rewrite (N.lxor_comm b c).
Qed.

Lemma pmod_step_lxor m n i : pmod_step (N.lxor m n) i = N.lxor (pmod_step m i) (pmod_step n i).
Proof.
  unfold pmod_step. rewrite N.lxor_spec. set (p := N.shiftl _ _).
  destruct (N.testbit m _), (N.testbit n _); cbn [xorb].
  - by rewrite lxor_swap, N.lxor_nilpotent, N.lxor_0_r.
  - by rewrite !N.lxor_assoc, (N.lxor_comm p n).
  - by rewrite N.lxor_assoc.
  - done.
Qed.

Lemma pmod_lxor m n : pmod (N.lxor m n) = N.lxor (pmod m) (pmod n).
Proof.
  unfold pmod. generalize ([6; 5; 4; 3; 2; 1; 0]) as l. intros l. revert m n.
  induction l as [|i l IH]; intros m n; [done|]. cbn [foldl]. by rewrite pmod_step_lxor, IH.
Qed.

Lemma pmod_xsum ns : pmod (xsum ns) = xsum (pmod <$> ns).
Proof.
  induction ns as [|n ns IH]; [done|].
  change (pmod (N.lxor n (xsum ns)) = N.lxor (pmod n) (xsum (pmod <$> ns))).
  by rewrite pmod_lxor, IH.
Qed.

(** Multiplying by [x^i] and reducing is [i] steps of the generator. *)
Lemma pmod_shiftl i b : i ∈ [0; 1; 2; 3; 4; 5; 6; 7] →
  pmod (N.shiftl (Byte.to_N b) i) = Byte.to_N (mul (u8_of_N (N.shiftl 1 i)) b).
Proof.
  assert (Hall : forallb (λ b, forallb (λ i, bool_decide
    (pmod (N.shiftl (Byte.to_N b) i) = Byte.to_N (mul (u8_of_N (N.shiftl 1 i)) b)))
    [0; 1; 2; 3; 4; 5; 6; 7]) all_u8 = true) by (vm_compute; reflexivity).
  intros Hi%list_elem_of_In. pose proof (for_all_u8 _ Hall b) as Hb. cbv beta in Hb.
  rewrite forallb_forall in Hb. exact (bool_decide_eq_true_1 _ (Hb i Hi)).
Qed.

Definition add_all (l : list u8) : u8 := foldr add x00 l.

Lemma add_all_N l : Byte.to_N (add_all l) = xsum (Byte.to_N <$> l).
Proof.
  induction l as [|a l IH]; [done|].
  change (Byte.to_N (add a (add_all l)) = N.lxor (Byte.to_N a) (xsum (Byte.to_N <$> l))).
  by rewrite add_N, IH.
Qed.

Lemma mul_add_all b l : mul b (add_all l) = add_all (mul b <$> l).
Proof.
  induction l as [|a l IH]; [apply mul_0_r|].
  change (mul b (add a (add_all l)) = add (mul b a) (add_all (mul b <$> l))).
  by rewrite mul_add_l, IH.
Qed.

(** A byte is the sum of the powers of two it contains. *)
Lemma u8_bits a :
  a = add_all ((λ i, if N.testbit (Byte.to_N a) i then u8_of_N (N.shiftl 1 i) else x00)
                 <$> [0; 1; 2; 3; 4; 5; 6; 7]).
Proof.
  assert (Hall : forallb (λ a, bool_decide (a =
    add_all ((λ i, if N.testbit (Byte.to_N a) i then u8_of_N (N.shiftl 1 i) else x00)
               <$> [0; 1; 2; 3; 4; 5; 6; 7]))) all_u8 = true) by (vm_compute; reflexivity).
  exact (bool_decide_eq_true_1 _ (for_all_u8 _ Hall a)).
Qed.

(** The table arithmetic is the field GF(2^8) modulo x^8 + x^4 + x^3 + x^2 + 1:
    multiplication by logarithms is multiplication of polynomials reduced by
    long division, addition is that of polynomials, every non-zero byte times its
    table inverse is 1, and square-and-multiply is repeated multiplication. *)
Theorem gf256_arithmetic (a b : u8) (n : N) :
  Byte.to_N (mul a b) = pmod (clmul (Byte.to_N a) (Byte.to_N b)) ∧
  Byte.to_N (add a b) = N.lxor (Byte.to_N a) (Byte.to_N b) ∧
  (a ≠ x00 → mul (inv a) a = x01) ∧
  pow a n = Nat.iter (N.to_nat n) (mul a) x01.
Proof.
  split_and!.
  - rewrite mul_comm, (u8_bits a) at 1. rewrite mul_add_all, add_all_N.
    unfold clmul. rewrite pmod_xsum, <- !list_fmap_compose. f_equal.
    apply list_fmap_ext. intros j i Hi%list_elem_of_lookup_2. cbn [compose].
    destruct (N.testbit _ i).
    + by rewrite pmod_shiftl, mul_comm.
    + by rewrite mul_0_r.
  - apply add_N.
  - apply mul_inv_l.
  - rewrite pow_spec. generalize (N.to_nat n) as m. intros m.
    induction m as [|m IH]; [done|]. cbn [fpow]. by rewrite IH, Nat.iter_succ.
Qed.
