(* ===== verification/LinAlg.v ===== *)
(** Vectors over a field of characteristic two, as lists.

    [dot] is the scalar product, [lincomb a B m] the combination of the rows
    of [B] with coefficients [a] (the product of the row [a] and the matrix [B],
    which has [m] columns), [unit n i] a row of the identity.  A matrix is
    [kernel_free] when only zero is orthogonal to all its rows. *)

From S2P Require Import Prelude Gf256.

Section vectors.
Context `{Field2 F}.

Abbreviation vec := (list F).

Definition vadd : vec → vec → vec := zip_with fadd.
Definition smul (c : F) (v : vec) : vec := fmul c <$> v.
Definition vzero (n : nat) : vec := replicate n fzero.
Definition dot (u v : vec) : F := foldr fadd fzero (zip_with fmul u v).
Definition unit (n i : nat) : vec := (λ j, if decide (j = i) then fone else fzero) <$> seq 0 n.
Definition lincomb (a : vec) (B : list vec) (m : nat) : vec :=
  foldr (λ p acc, vadd (smul p.1 p.2) acc) (vzero m) (zip a B).
Definition rect (m : nat) (B : list vec) : Prop := Forall (λ r, length r = m) B.

(** ** The field *)

Lemma fadd_0_r a : fadd a fzero = a.
Proof. rewrite fadd_comm. apply fadd_0_l. Qed.
Lemma fadd_cancel a b : fadd a b = fzero → a = b.
Proof.
  intros He. by rewrite <- (fadd_0_r a), <- (fadd_self b), fadd_assoc, He, fadd_0_l.
Qed.
Lemma fmul_0_r a : fmul a fzero = fzero.
Proof.
  rewrite <- (fadd_self fzero) at 1. rewrite fmul_add_l. apply fadd_self.
Qed.
Lemma fmul_0_l a : fmul fzero a = fzero.
Proof. rewrite fmul_comm. apply fmul_0_r. Qed.
Lemma fmul_add_r a b c : fmul (fadd a b) c = fadd (fmul a c) (fmul b c).
Proof. rewrite !(fmul_comm _ c). apply fmul_add_l. Qed.
Lemma fadd_swap a b c d : fadd (fadd a b) (fadd c d) = fadd (fadd a c) (fadd b d).
Proof. rewrite <- !fadd_assoc. f_equal. by rewrite !fadd_assoc, (fadd_comm b c). Qed.
Lemma fmul_cancel c a : c ≠ fzero → fmul c a = fzero → a = fzero.
Proof.
  intros Hc Ha. by rewrite <- (fmul_1_l a), <- (fmul_inv_l c Hc), <- fmul_assoc, Ha, fmul_0_r.
Qed.
Lemma finv_nonzero c : c ≠ fzero → finv c ≠ fzero.
Proof.
  intros Hc Hi. apply fone_zero. by rewrite <- (fmul_inv_l c Hc), Hi, fmul_0_l.
Qed.

(** ** Vectors *)

Lemma vadd_cons a u b v : vadd (a :: u) (b :: v) = fadd a b :: vadd u v.
Proof. reflexivity. Qed.
Lemma smul_cons c a u : smul c (a :: u) = fmul c a :: smul c u.
Proof. reflexivity. Qed.
Lemma dot_cons a u b v : dot (a :: u) (b :: v) = fadd (fmul a b) (dot u v).
Proof. reflexivity. Qed.
Lemma lincomb_cons c a r B m : lincomb (c :: a) (r :: B) m = vadd (smul c r) (lincomb a B m).
Proof. reflexivity. Qed.

Lemma length_vadd u v : length u = length v → length (vadd u v) = length u.
Proof. intros He. unfold vadd. rewrite length_zip_with. lia. Qed.
Lemma length_smul c v : length (smul c v) = length v.
Proof. apply length_fmap. Qed.
Lemma length_vzero n : length (vzero n) = n.
Proof. apply length_replicate. Qed.
Lemma length_unit n i : length (unit n i) = n.
Proof. unfold unit. by rewrite length_fmap, length_seq. Qed.

Lemma vadd_comm u v : vadd u v = vadd v u.
Proof.
  revert v. induction u as [|a u IH]; intros [|b v]; cbn; [done..|]. f_equal; [apply fadd_comm|].
  apply IH.
Qed.
Lemma vadd_assoc u v w : vadd u (vadd v w) = vadd (vadd u v) w.
Proof.
  revert v w. induction u as [|a u IH]; intros [|b v] [|c w]; cbn; [done..|].
  f_equal; [apply fadd_assoc|apply IH].
Qed.
Lemma vadd_0_l v : vadd (vzero (length v)) v = v.
Proof. induction v as [|a v IH]; [done|]. cbn. f_equal; [apply fadd_0_l|apply IH]. Qed.
Lemma vadd_0_r v : vadd v (vzero (length v)) = v.
Proof. rewrite vadd_comm. apply vadd_0_l. Qed.
Lemma vadd_swap u v w z : vadd (vadd u v) (vadd w z) = vadd (vadd u w) (vadd v z).
Proof. rewrite <- !vadd_assoc. f_equal. by rewrite !vadd_assoc, (vadd_comm v w). Qed.
Lemma smul_vadd c u v : smul c (vadd u v) = vadd (smul c u) (smul c v).
Proof.
  revert v. induction u as [|a u IH]; intros [|b v]; cbn; [done..|].
  f_equal; [apply fmul_add_l|apply IH].
Qed.
Lemma smul_fadd c d u : smul (fadd c d) u = vadd (smul c u) (smul d u).
Proof. induction u as [|a u IH]; [done|]. cbn. f_equal; [apply fmul_add_r|apply IH]. Qed.
Lemma smul_smul c d u : smul c (smul d u) = smul (fmul c d) u.
Proof. induction u as [|a u IH]; [done|]. cbn. f_equal; [apply fmul_assoc|apply IH]. Qed.
Lemma smul_1 u : smul fone u = u.
Proof. induction u as [|a u IH]; [done|]. cbn. f_equal; [apply fmul_1_l|apply IH]. Qed.
Lemma smul_0 u : smul fzero u = vzero (length u).
Proof. induction u as [|a u IH]; [done|]. cbn. f_equal; [apply fmul_0_l|apply IH]. Qed.
Lemma smul_vzero c n : smul c (vzero n) = vzero n.
Proof. induction n as [|n IH]; [done|]. cbn. f_equal; [apply fmul_0_r|apply IH]. Qed.

Lemma take_vadd n u v : take n (vadd u v) = vadd (take n u) (take n v).
Proof. apply zip_with_take. Qed.
Lemma drop_vadd n u v : drop n (vadd u v) = vadd (drop n u) (drop n v).
Proof. apply zip_with_drop. Qed.
Lemma take_smul n c u : take n (smul c u) = smul c (take n u).
Proof. symmetry. apply fmap_take. Qed.
Lemma drop_smul n c u : drop n (smul c u) = smul c (drop n u).
Proof. symmetry. apply fmap_drop. Qed.

(** ** Scalar products *)

Lemma dot_vadd_l u v x : length u = length v → dot (vadd u v) x = fadd (dot u x) (dot v x).
Proof.
  revert v x. induction u as [|a u IH]; intros [|b v] [|c x]; try done.
  1-3: intros _; symmetry; apply fadd_0_l.
  intros [=]. rewrite vadd_cons, !dot_cons, IH by done. rewrite fmul_add_r. apply fadd_swap.
Qed.
Lemma dot_smul_l c u x : dot (smul c u) x = fmul c (dot u x).
Proof.
  revert x. induction u as [|a u IH]; intros [|b x]; [symmetry; apply fmul_0_r..|].
  by rewrite smul_cons, !dot_cons, IH, fmul_add_l, fmul_assoc.
Qed.
Lemma dot_comm u v : dot u v = dot v u.
Proof.
  revert v. induction u as [|a u IH]; intros [|b v]; cbn; try done.
  f_equal; [apply fmul_comm|apply IH].
Qed.
Lemma dot_vzero n x : dot (vzero n) x = fzero.
Proof.
  revert x. induction n as [|n IH]; intros [|a x]; cbn; try done.
  rewrite fmul_0_l, fadd_0_l. apply IH.
Qed.
Lemma dot_app u1 u2 x1 x2 :
  length u1 = length x1 → dot (u1 ++ u2) (x1 ++ x2) = fadd (dot u1 x1) (dot u2 x2).
Proof.
  revert x1. induction u1 as [|a u1 IH]; intros [|b x1]; intros [=]; cbn [app].
  - symmetry. apply fadd_0_l.
  - rewrite !dot_cons, IH by done. apply fadd_assoc.
Qed.

(** ** Unit vectors *)

Lemma unit_S n i : unit (S n) i = unit n i ++ [if decide (n = i) then fone else fzero].
Proof. unfold unit. by rewrite seq_S, fmap_app. Qed.

Lemma unit_ge n i : (n ≤ i)%nat → unit n i = vzero n.
Proof.
  intros Hi. unfold unit, vzero. apply list_eq. intros j. rewrite list_lookup_fmap.
  destruct (decide (j < n)%nat) as [Hj|Hj].
  - rewrite lookup_seq_lt, lookup_replicate_2 by done. cbn. by rewrite decide_False by lia.
  - rewrite lookup_seq_ge by lia. symmetry. apply lookup_replicate_None. lia.
Qed.

Lemma dot_unit n i x : length x = n → (i < n)%nat → dot (unit n i) x = nth i x fzero.
Proof.
  revert x. induction n as [|n IH]; intros x Hx Hi; [lia|].
  destruct x as [|a y _] using rev_ind; [done|].
  rewrite length_app in Hx. cbn in Hx. assert (Hy : length y = n) by lia.
  rewrite unit_S, dot_app, dot_cons by (by rewrite length_unit).
  change (dot [] []) with (fzero : F). rewrite fadd_0_r.
  destruct (decide (n = i)) as [->|Hne].
  - rewrite unit_ge, dot_vzero, fadd_0_l, fmul_1_l by lia.
    rewrite app_nth2 by lia. by rewrite Hy, Nat.sub_diag.
  - rewrite fmul_0_l, fadd_0_r, IH by lia. by rewrite app_nth1 by lia.
Qed.

Lemma vec_ext n u v :
  length u = n → length v = n → (∀ i, (i < n)%nat → nth i u fzero = nth i v fzero) → u = v.
Proof. intros Hu Hv Hn. apply (nth_ext u v fzero fzero); intros; [congruence|]. apply Hn. lia. Qed.

(** Vectors with the same scalar products are equal. *)
Lemma dot_ext n u v :
  length u = n → length v = n → (∀ x, length x = n → dot u x = dot v x) → u = v.
Proof.
  intros Hu Hv Hd. apply (vec_ext n); [done..|]. intros i Hi.
  rewrite <- !(dot_unit n) by done. rewrite !(dot_comm (unit n i)).
  apply Hd, length_unit.
Qed.

(** ** Combinations of rows *)

Lemma lincomb_nil_l B m : lincomb [] B m = vzero m.
Proof. reflexivity. Qed.
Lemma lincomb_nil_r a m : lincomb a [] m = vzero m.
Proof. by destruct a. Qed.
Lemma vadd_vzero n : vadd (vzero n) (vzero n) = vzero n.
Proof. rewrite <- (length_vzero n) at 1. apply vadd_0_l. Qed.

Lemma length_lincomb a B m : rect m B → length (lincomb a B m) = m.
Proof.
  intros HB. revert a. induction HB as [|r B Hr HB IH]; intros [|c a]; try apply length_vzero.
  rewrite lincomb_cons, length_vadd; rewrite length_smul; [done|]. by rewrite Hr, IH.
Qed.

Lemma dot_lincomb a B m x : rect m B → dot (lincomb a B m) x = dot a ((λ r, dot r x) <$> B).
Proof.
  intros HB. revert a. induction HB as [|r B Hr HB IH]; intros [|c a]; try apply dot_vzero.
  rewrite lincomb_cons, fmap_cons, dot_cons, dot_vadd_l, dot_smul_l; [f_equal; apply IH|].
  by rewrite length_smul, Hr, length_lincomb.
Qed.

Lemma lincomb_vadd a b B m :
  rect m B → length a = length b →
  lincomb (vadd a b) B m = vadd (lincomb a B m) (lincomb b B m).
Proof.
  intros HB. revert a b. induction HB as [|r B Hr HB IH]; intros [|c a] [|d b]; intros [=];
    rewrite ?lincomb_nil_r, ?lincomb_nil_l; try (symmetry; apply vadd_vzero).
  rewrite vadd_cons, !lincomb_cons, IH, smul_fadd by done. apply vadd_swap.
Qed.

Lemma lincomb_smul c a B m : rect m B → lincomb (smul c a) B m = smul c (lincomb a B m).
Proof.
  intros HB. revert a. induction HB as [|r B Hr HB IH]; intros [|d a];
    rewrite ?lincomb_nil_r, ?lincomb_nil_l; try (symmetry; apply smul_vzero).
  by rewrite smul_cons, !lincomb_cons, IH, smul_vadd, smul_smul.
Qed.

Lemma lincomb_vzero k B m : rect m B → lincomb (vzero k) B m = vzero m.
Proof.
  intros HB. revert k. induction HB as [|r B Hr HB IH]; intros [|k]; [done..|].
  change (vzero (S k)) with (fzero :: vzero k).
  rewrite lincomb_cons, IH, smul_0, Hr. apply vadd_vzero.
Qed.

(** The product of matrices is associative. *)
Lemma lincomb_assoc a A B k m :
  rect k A → length B = k → rect m B →
  lincomb (lincomb a A k) B m = lincomb a ((λ r, lincomb r B m) <$> A) m.
Proof.
  intros HA HB HBm. revert a. induction HA as [|r A Hr HA IH]; intros [|c a];
    try by apply lincomb_vzero.
  rewrite fmap_cons, !lincomb_cons, lincomb_vadd, lincomb_smul; [by rewrite IH|done..|].
  by rewrite length_smul, Hr, length_lincomb.
Qed.

Lemma lincomb_unit k i B m r :
  length B = k → rect m B → B !! i = Some r → lincomb (unit k i) B m = r.
Proof.
  intros HB Hm Hi. assert (Hr : length r = m) by (by eapply Forall_lookup_1 in Hm).
  apply (dot_ext m); [by apply length_lincomb|done|]. intros x Hx.
  pose proof (lookup_lt_Some _ _ _ Hi).
  rewrite dot_lincomb, dot_unit by (done || rewrite ?length_fmap; lia).
  apply nth_lookup_Some. by rewrite list_lookup_fmap, Hi.
Qed.

(** ** Kernels *)

Definition kernel_free (n : nat) (M : list vec) : Prop :=
  ∀ x, length x = n → Forall (λ r, dot r x = fzero) M → x = vzero n.

Lemma kernel_free_units n : kernel_free n (unit n <$> seq 0 n).
Proof.
  intros x Hx Hz. apply (vec_ext n); [done|apply length_vzero|]. intros i Hi.
  rewrite Forall_fmap, Forall_seq in Hz. specialize (Hz i ltac:(lia)). cbn in Hz.
  rewrite dot_unit in Hz by lia. rewrite Hz. unfold vzero.
  by rewrite nth_lookup, lookup_replicate_2.
Qed.
End vectors.
