(* ===== verification/RsMatrix.v ===== *)
(** [crates/dag/src/erasure/rs.rs]: the matrix routines of the Reed-Solomon
    codec, over the field interface [Field2].

    [invert_matrix] is the Gauss-Jordan loop of the source on the augmented
    matrix.  Its invariant is that the rows keep the same orthogonal vectors;
    it gives the inverse, and that the loop fails exactly on singular matrices. *)

From S2P Require Import Prelude Gf256 LinAlg.
From stdpp Require Import strings.
Open Scope string_scope.
Open Scope list_scope.
Open Scope nat_scope.

Section matrices.
Context `{Field2 F} `{!EqDecision F}.

Abbreviation vec := (list F).
Abbreviation Matrix := (list (list F)).

(** [m[i][j]], for indices in range *)
Definition at_ (m : Matrix) (i j : nat) : F := nth j (nth i m []) fzero.

Definition mat_mul {E} (a b : Matrix) : outcome E Matrix :=
  match b with
  | [] => Panic
  | b0 :: _ =>
      let cols := length b0 in
      let inner := length b in
      if bool_decide (Forall (λ row, inner ≤ length row) a ∧ Forall (λ row, cols ≤ length row) b)
      then Ok ((λ row, (λ j,
             foldl (λ sum t, fadd sum (fmul (nth t row fzero) (at_ b t j))) fzero (seq 0 inner))
             <$> seq 0 cols) <$> a)
      else if bool_decide (a = [] ∨ cols = 0)
      then Ok ((λ _, []) <$> a)
      else Panic
  end.

Definition submatrix {E} (mat : Matrix) (rows : list nat) : outcome E Matrix :=
  omap_list (λ r, match mat !! r with Some row => Ok row | None => Panic end) rows.

(** [while pivot < n && aug[pivot][col] == 0 { pivot += 1 }]; [fuel] is [n - pivot]. *)
Fixpoint find_pivot (aug : Matrix) (col pivot fuel : nat) : nat :=
  match fuel with
  | O => pivot
  | S fuel =>
      if bool_decide (at_ aug pivot col = fzero) then find_pivot aug col (S pivot) fuel
      else pivot
  end.

(** [aug.swap(i, j)] *)
Definition swap_rows (aug : Matrix) (i j : nat) : Matrix :=
  <[i := nth j aug []]> (<[j := nth i aug []]> aug).

Definition eliminate (col : nat) (prow : vec) (i : nat) (row : vec) : vec :=
  let factor := nth col row fzero in
  if bool_decide (i = col) || bool_decide (factor = fzero) then row
  else zip_with (λ a p, fadd a (fmul factor p)) row prow.

(** One round of the loop of [invert_matrix]. *)
Definition gj_col (n : nat) (aug : Matrix) (col : nat) : outcome string Matrix :=
  let pivot := find_pivot aug col col (n - col) in
  if bool_decide (n ≤ pivot) then Err "matrix is singular" else
  let aug := if bool_decide (pivot ≠ col) then swap_rows aug col pivot else aug in
  let inv_pivot := finv (at_ aug col col) in
  if bool_decide (inv_pivot = fzero) then Err "matrix is singular" else
  let prow := (λ a, fmul a inv_pivot) <$> nth col aug [] in
  Ok (imap (eliminate col prow) (<[col := prow]> aug)).

Fixpoint gj_loop (n : nat) (cols : list nat) (aug : Matrix) : outcome string Matrix :=
  match cols with
  | [] => Ok aug
  | col :: cols => aug ← gj_col n aug col; gj_loop n cols aug
  end.

Definition augment (n : nat) (mat : Matrix) : Matrix := imap (λ i row, row ++ unit n i) mat.

Definition invert_matrix (mat : Matrix) : outcome string Matrix :=
  let n := length mat in
  if bool_decide (n = 0) || bool_decide (Exists (λ row, length row ≠ n) mat)
  then Err "matrix must be square"
  else aug ← gj_loop n (seq 0 n) (augment n mat); Ok (map (drop n) aug).

(** ** Products *)

Lemma foldl_dot (f g : nat → F) l s :
  foldl (λ sum t, fadd sum (fmul (f t) (g t))) s l = fadd s (dot (f <$> l) (g <$> l)).
Proof.
  revert s. induction l as [|t l IH]; intros s; cbn [foldl fmap list_fmap].
  - symmetry. apply fadd_0_r.
  - rewrite IH, dot_cons. symmetry. apply fadd_assoc.
Qed.

Lemma fmap_nth_seq {A} (d : A) (l : list A) : (λ t, nth t l d) <$> seq 0 (length l) = l.
Proof.
  apply list_eq. intros i. rewrite list_lookup_fmap.
  destruct (decide (i < length l)) as [Hi|Hi].
  - rewrite lookup_seq_lt by done. cbn. destruct (lookup_lt_is_Some_2 l i Hi) as [x Hx].
    by rewrite Hx, nth_lookup, Hx.
  - rewrite lookup_seq_ge by lia. cbn. symmetry. apply lookup_ge_None. lia.
Qed.

Lemma fmap_nth_rows {A B} (d : A) (f : A → B) (l : list A) :
  (λ t, f (nth t l d)) <$> seq 0 (length l) = f <$> l.
Proof. rewrite <- (fmap_nth_seq d l) at 2. by rewrite <- list_fmap_compose. Qed.

Lemma mat_mul_spec {E} (a b : Matrix) k m :
  rect k a → length b = k → 0 < k → rect m b →
  mat_mul (E:=E) a b = Ok ((λ row, lincomb row b m) <$> a).
Proof.
  intros Ha Hb Hk Hm. unfold mat_mul. destruct b as [|b0 b']; [cbn in Hb; lia|].
  assert (Hb0 : length b0 = m) by (by apply Forall_inv in Hm). rewrite Hb0, Hb.
  rewrite bool_decide_true.
  2:{ split; eapply Forall_impl; try done; cbn; lia. }
  f_equal. apply list_fmap_ext. intros _ row Hrow%list_elem_of_lookup_2.
  assert (Hr : length row = k) by (unfold rect in Ha; rewrite Forall_forall in Ha; auto).
  set (b := b0 :: b') in *.
  apply (vec_ext m).
  - by rewrite length_fmap, length_seq.
  - by apply length_lincomb.
  - intros j Hj.
    rewrite <- (dot_unit m) by (done || by rewrite ?length_fmap, ?length_seq).
    rewrite (dot_unit m) by (done || by rewrite ?length_fmap, ?length_seq).
    rewrite nth_lookup, list_lookup_fmap, lookup_seq_lt by done. cbn [fmap option_fmap option_map from_option]. unfold id.
    rewrite (foldl_dot (λ t, nth t row fzero) (λ t, at_ b t j)), fadd_0_l.
    rewrite <- (dot_unit m (j) (lincomb row b m)) by (by try apply length_lincomb).
    rewrite dot_comm with (u := unit m j), dot_lincomb by done.
    f_equal.
    + rewrite <- Hr. apply fmap_nth_seq.
    + rewrite <- Hb. unfold at_. rewrite (fmap_nth_rows [] (λ r, nth j r fzero)).
      apply list_fmap_ext. intros _ r Hrr%list_elem_of_lookup_2.
      rewrite dot_comm, (dot_unit m); [done| |done].
      unfold rect in Hm. rewrite Forall_forall in Hm. auto.
Qed.

Lemma submatrix_spec {E} (mat : Matrix) rows :
  Forall (λ r, r < length mat) rows →
  submatrix (E:=E) mat rows = Ok ((λ r, nth r mat []) <$> rows).
Proof.
  induction 1 as [|r rows Hr _ IH]; [done|]. unfold submatrix in *. cbn.
  destruct (lookup_lt_is_Some_2 mat r Hr) as [row Hrow].
  rewrite Hrow. cbn. rewrite IH. cbn. by rewrite nth_lookup, Hrow.
Qed.
(** ** Gauss-Jordan elimination

    [null m A x]: [x] is orthogonal to every row of [A]. *)

Definition null (A : Matrix) (x : vec) : Prop := Forall (λ r, dot r x = fzero) A.

Lemma null_lookup A x : null A x ↔ ∀ i r, A !! i = Some r → dot r x = fzero.
Proof. apply Forall_lookup. Qed.

Lemma nth_vadd i u v : length u = length v →
  nth i (vadd u v) fzero = fadd (nth i u fzero) (nth i v fzero).
Proof.
  revert u v. induction i as [|i IH]; intros [|a u] [|b v] Hl; cbn in Hl |- *;
    try lia; rewrite ?fadd_0_l; try done. apply IH. lia.
Qed.
Lemma nth_smul i c u : nth i (smul c u) fzero = fmul c (nth i u fzero).
Proof.
  revert u. induction i as [|i IH]; intros [|a u]; cbn; rewrite ?fmul_0_r; done || apply IH.
Qed.

Lemma eliminate_vadd col prow i row :
  eliminate col prow i row =
  if bool_decide (i = col) || bool_decide (nth col row fzero = fzero) then row
  else vadd row (smul (nth col row fzero) prow).
Proof.
  unfold eliminate. destruct (_ || _); [done|]. unfold vadd, smul.
  by rewrite zip_with_fmap_r.
Qed.

Lemma scale_smul c (row : vec) : (λ a, fmul a c) <$> row = smul c row.
Proof. apply list_fmap_ext. intros. apply fmul_comm. Qed.

Section gauss.
Context (n : nat) (aug0 : Matrix).
Hypothesis Hn0 : length aug0 = n.

(** The state of the loop before column [c]. *)
Record gj_inv (c : nat) (aug : Matrix) : Prop := {
  gj_length : length aug = n;
  gj_rows i row : aug !! i = Some row → length row = 2 * n;
  gj_null x : null aug x ↔ null aug0 x;
  gj_unit i row : aug !! i = Some row → take c row = unit c i;
}.

Lemma swap_lookup (aug : Matrix) c p i row :
  c < length aug → p < length aug →
  swap_rows aug c p !! i = Some row →
  ∃ i', aug !! i' = Some row ∧ (i' = i ∨ (i = c ∧ i' = p) ∨ (i = p ∧ i' = c)).
Proof.
  intros Hc Hp Hi. unfold swap_rows in Hi.
  destruct (lookup_lt_is_Some_2 _ _ Hc) as [rc Hrc], (lookup_lt_is_Some_2 _ _ Hp) as [rp Hrp].
  rewrite !(nth_lookup_Some aug _ _ _ Hrc), !(nth_lookup_Some aug _ _ _ Hrp) in Hi.
  destruct (decide (i = c)) as [->|Hic].
  { rewrite list_lookup_insert_eq in Hi by (by rewrite length_insert).
    injection Hi as <-. exists p. auto. }
  rewrite list_lookup_insert_ne in Hi by done.
  destruct (decide (i = p)) as [->|Hip].
  { rewrite list_lookup_insert_eq in Hi by done. injection Hi as <-. exists c. auto. }
  rewrite list_lookup_insert_ne in Hi by done. exists i. auto.
Qed.

Lemma swap_null (aug : Matrix) c p x :
  c < length aug → p < length aug → null (swap_rows aug c p) x ↔ null aug x.
Proof.
  intros Hc Hp. rewrite !null_lookup. unfold swap_rows.
  destruct (lookup_lt_is_Some_2 _ _ Hc) as [rc Hrc], (lookup_lt_is_Some_2 _ _ Hp) as [rp Hrp].
  rewrite !(nth_lookup_Some aug _ _ _ Hrc), !(nth_lookup_Some aug _ _ _ Hrp).
  assert (Hcc : <[c := rp]> (<[p := rc]> aug) !! c = Some rp)
    by (rewrite list_lookup_insert_eq; [done|by rewrite length_insert]).
  split; intros Hx i r Hi.
  - destruct (decide (i = c)) as [->|Hic].
    { assert (r = rc) as -> by congruence. destruct (decide (p = c)) as [->|Hpc].
      - assert (rp = rc) as <- by congruence. exact (Hx _ _ Hcc).
      - apply (Hx p). by rewrite list_lookup_insert_ne, list_lookup_insert_eq by done. }
    destruct (decide (i = p)) as [->|Hip].
    { assert (r = rp) as -> by congruence. exact (Hx _ _ Hcc). }
    apply (Hx i). by rewrite !list_lookup_insert_ne by done.
  - destruct (decide (i = c)) as [->|Hic].
    { rewrite Hcc in Hi. injection Hi as <-. exact (Hx _ _ Hrp). }
    rewrite list_lookup_insert_ne in Hi by done.
    destruct (decide (i = p)) as [->|Hip].
    { rewrite list_lookup_insert_eq in Hi by done. injection Hi as <-. exact (Hx _ _ Hrc). }
    rewrite list_lookup_insert_ne in Hi by done. exact (Hx _ _ Hi).
Qed.

(** The rows after the scaling of row [c] by [ip] and the elimination. *)
Lemma elim_lookup (aug : Matrix) c rc ip i :
  aug !! c = Some rc →
  imap (eliminate c (smul ip rc)) (<[c := smul ip rc]> aug) !! i =
  if decide (i = c) then Some (smul ip rc)
  else (λ r, if bool_decide (nth c r fzero = fzero) then r
             else vadd r (smul (nth c r fzero) (smul ip rc))) <$> aug !! i.
Proof.
  intros Hc. pose proof (lookup_lt_Some _ _ _ Hc). rewrite list_lookup_imap.
  destruct (decide (i = c)) as [->|Hic].
  - rewrite list_lookup_insert_eq by done. cbn. by rewrite eliminate_vadd, bool_decide_true.
  - rewrite list_lookup_insert_ne by done. destruct (aug !! i) as [r|]; [|done]. cbn.
    by rewrite eliminate_vadd, (bool_decide_false (i = c)).
Qed.

Lemma elim_null (aug : Matrix) c rc ip x :
  (∀ i row, aug !! i = Some row → length row = 2 * n) →
  aug !! c = Some rc → ip ≠ fzero →
  null (imap (eliminate c (smul ip rc)) (<[c := smul ip rc]> aug)) x ↔ null aug x.
Proof.
  intros Hlen Hc Hip. rewrite !null_lookup. split; intros Hx i r Hi.
  - assert (Hp : dot (smul ip rc) x = fzero).
    { apply (Hx c). by rewrite (elim_lookup _ _ _ _ _ Hc), decide_True. }
    destruct (decide (i = c)) as [->|Hic].
    { assert (r = rc) as -> by congruence. rewrite dot_smul_l in Hp.
      exact (fmul_cancel _ _ Hip Hp). }
    specialize (Hx i). rewrite (elim_lookup _ _ _ _ _ Hc), decide_False, Hi in Hx by done.
    specialize (Hx _ eq_refl). case_bool_decide; [done|].
    rewrite dot_vadd_l, (dot_smul_l (nth c r fzero)), Hp, fmul_0_r, fadd_0_r in Hx; [done|].
    by rewrite !length_smul, (Hlen _ _ Hi), (Hlen _ _ Hc).
  - rewrite (elim_lookup _ _ _ _ _ Hc) in Hi.
    assert (Hp : dot (smul ip rc) x = fzero).
    { by rewrite dot_smul_l, (Hx _ _ Hc), fmul_0_r. }
    case_decide as Hic; [by injection Hi as <-|].
    destruct (aug !! i) as [r'|] eqn:Hr'; [|done]. injection Hi as <-.
    case_bool_decide; [by apply (Hx i)|].
    rewrite dot_vadd_l, (dot_smul_l (nth c r' fzero)), Hp, fmul_0_r, fadd_0_r; [by apply (Hx i)|].
    by rewrite !length_smul, (Hlen _ _ Hr'), (Hlen _ _ Hc).
Qed.
(** ** The pivot *)

Lemma find_pivot_spec (aug : Matrix) col q fuel :
  let p := find_pivot aug col q fuel in
  q ≤ p ≤ q + fuel ∧ (p < q + fuel → at_ aug p col ≠ fzero) ∧
  ∀ i, q ≤ i < p → at_ aug i col = fzero.
Proof.
  cbv zeta. revert q. induction fuel as [|fuel IH]; intros q; cbn [find_pivot].
  { repeat split; [lia..| |]; intros; lia. }
  case_bool_decide as Hq.
  - destruct (IH (S q)) as (Hb & Hp & Hz). split; [lia|]. split.
    + intros ?. apply Hp. lia.
    + intros i Hi. destruct (decide (i = q)) as [->|]; [done|]. apply Hz. lia.
  - repeat split; [lia..|done|]. intros; lia.
Qed.

Lemma at_lookup (aug : Matrix) i j row : aug !! i = Some row → at_ aug i j = nth j row fzero.
Proof. intros Hi. unfold at_. by rewrite (nth_lookup_Some _ _ _ _ Hi). Qed.

Lemma row_split c (row : vec) :
  c < length row → row = take c row ++ nth c row fzero :: drop (S c) row.
Proof.
  intros Hc. destruct (lookup_lt_is_Some_2 _ _ Hc) as [a Ha].
  rewrite (nth_lookup_Some _ _ _ _ Ha). symmetry. by apply take_drop_middle.
Qed.

(** With no pivot, a non-zero vector is orthogonal to the left half of all rows. *)
Lemma no_pivot_null c aug :
  gj_inv c aug → c < n → (∀ i, c ≤ i < n → at_ aug i c = fzero) →
  ∃ x, length x = n ∧ x ≠ vzero n ∧ null aug0 (x ++ vzero n).
Proof.
  intros Hinv Hc Hz.
  set (xs := (λ row, nth c row fzero) <$> take c aug).
  assert (Hxs : length xs = c).
  { unfold xs. rewrite length_fmap, length_take, (gj_length _ _ Hinv). lia. }
  exists (xs ++ fone :: vzero (n - S c)). split; [|split].
  - rewrite length_app. cbn. rewrite length_vzero. lia.
  - intros He. apply fone_zero. apply (f_equal (λ l, nth c l fzero)) in He.
    unfold vzero in He at 2. rewrite (nth_lookup (replicate _ _)), lookup_replicate_2 in He by done.
    by rewrite app_nth2, Hxs, Nat.sub_diag in He by lia.
  - apply (gj_null _ _ Hinv). apply null_lookup. intros i row Hi.
    pose proof (lookup_lt_Some _ _ _ Hi) as Hin. rewrite (gj_length _ _ Hinv) in Hin.
    rewrite (row_split c row) by (rewrite (gj_rows _ _ Hinv _ _ Hi); lia).
    rewrite (gj_unit _ _ Hinv _ _ Hi), <- (assoc_L (++)).
    rewrite dot_app by (by rewrite length_unit). cbn [app]. rewrite dot_cons, fmul_1_r.
    rewrite (dot_comm (drop _ _)).
    replace (vzero (n - S c) ++ vzero n) with (vzero (n - S c + n)) by (apply replicate_add).
    rewrite dot_vzero, fadd_0_r.
    destruct (decide (i < c)) as [Hic|Hic].
    + rewrite dot_unit by done. unfold xs.
      rewrite nth_lookup, list_lookup_fmap, lookup_take_lt, Hi by done. apply fadd_self.
    + rewrite unit_ge, dot_vzero, fadd_0_l by lia.
      rewrite <- (at_lookup _ _ _ _ Hi). apply Hz. lia.
Qed.

Lemma gj_inv_swap c p aug :
  gj_inv c aug → c < n → c ≤ p < n → gj_inv c (swap_rows aug c p).
Proof.
  intros Hinv Hc Hp. pose proof (gj_length _ _ Hinv) as Hlen. constructor.
  - unfold swap_rows. by rewrite !length_insert.
  - intros i row (i' & Hi & _)%swap_lookup; [|lia..]. by apply (gj_rows _ _ Hinv i').
  - intros x. rewrite swap_null by lia. apply (gj_null _ _ Hinv).
  - intros i row (i' & Hi & Hcase)%swap_lookup; [|lia..].
    rewrite (gj_unit _ _ Hinv _ _ Hi). destruct Hcase as [->|Hcase]; [done|].
    by rewrite (unit_ge _ i), (unit_ge _ i') by lia.
Qed.

Lemma gj_inv_elim c aug rc :
  gj_inv c aug → c < n → aug !! c = Some rc → nth c rc fzero ≠ fzero →
  let prow := smul (finv (nth c rc fzero)) rc in
  gj_inv (S c) (imap (eliminate c prow) (<[c := prow]> aug)).
Proof.
  intros Hinv Hc Hrc Hp prow. pose proof (gj_length _ _ Hinv) as Hlen.
  pose proof (gj_rows _ _ Hinv) as Hrows.
  assert (Hpl : length prow = 2 * n) by (unfold prow; rewrite length_smul; by eapply Hrows).
  assert (Hpc : nth c prow fzero = fone) by (unfold prow; rewrite nth_smul; by apply fmul_inv_l).
  assert (Hpt : take c prow = vzero c).
  { unfold prow. by rewrite take_smul, (gj_unit _ _ Hinv _ _ Hrc), unit_ge, smul_vzero by lia. }
  assert (Hcase : ∀ i row, imap (eliminate c prow) (<[c := prow]> aug) !! i = Some row →
    length row = 2 * n ∧ take c row = unit c i ∧
    nth c row fzero = if decide (c = i) then fone else fzero).
  { intros i row Hi. unfold prow in Hi. rewrite (elim_lookup _ _ _ _ _ Hrc) in Hi.
    fold prow in Hi. destruct (decide (i = c)) as [->|Hic].
    { injection Hi as <-. rewrite decide_True by done. split; [done|]. split; [|done].
      by rewrite Hpt, unit_ge by lia. }
    rewrite decide_False by done. destruct (aug !! i) as [r|] eqn:Hr; [|done].
    injection Hi as <-. pose proof (Hrows _ _ Hr) as Hrl. pose proof (gj_unit _ _ Hinv _ _ Hr) as Hu.
    case_bool_decide as Hz; [done|]. split; [|split].
    - rewrite length_vadd; rewrite ?length_smul; lia.
    - rewrite take_vadd, take_smul, Hpt, smul_vzero, Hu. rewrite <- (length_unit c i) at 2.
      apply vadd_0_r.
    - rewrite nth_vadd by (rewrite length_smul; lia).
      by rewrite nth_smul, Hpc, fmul_1_r, fadd_self. }
  constructor.
  - by rewrite length_imap, length_insert.
  - intros i row Hi. by apply (Hcase i).
  - intros x. unfold prow. rewrite elim_null; [apply (gj_null _ _ Hinv)|done|done|by apply finv_nonzero].
  - intros i row (Hl & Ht & Hn)%Hcase.
    rewrite unit_S. rewrite (row_split c row) by lia.
    rewrite Ht, Hn. rewrite take_app, length_unit, take_ge by (rewrite length_unit; lia).
    by replace (S c - c) with 1 by lia.
Qed.

Definition gj_answer (c : nat) (r : outcome string Matrix) : Prop :=
  match r with
  | Ok aug => gj_inv c aug
  | Err e => e = "matrix is singular" ∧
      ∃ x, length x = n ∧ x ≠ vzero n ∧ null aug0 (x ++ vzero n)
  | _ => False
  end.

Lemma gj_col_spec c aug : gj_inv c aug → c < n → gj_answer (S c) (gj_col n aug c).
Proof.
  intros Hinv Hc. unfold gj_col.
  destruct (find_pivot_spec aug c c (n - c)) as (Hb & Hp & Hz).
  set (p := find_pivot aug c c (n - c)) in *.
  case_bool_decide as Hnp.
  { split; [done|]. apply (no_pivot_null c aug); [done..|]. intros i Hi. apply Hz. lia. }
  specialize (Hp ltac:(lia)).
  assert (Hsw : ∃ aug', (if bool_decide (p ≠ c) then swap_rows aug c p else aug) = aug' ∧
    gj_inv c aug' ∧ at_ aug' c c = at_ aug p c).
  { destruct (decide (p = c)) as [Hpc|Hpc].
    - rewrite bool_decide_false by (by intros []). exists aug. by rewrite Hpc.
    - rewrite bool_decide_true by done. eexists. split; [done|]. split; [apply gj_inv_swap; auto; lia|].
      unfold at_, swap_rows. rewrite (nth_lookup (<[c := _]> _)), list_lookup_insert_eq; [done|].
      rewrite length_insert, (gj_length _ _ Hinv). lia. }
  destruct Hsw as (aug' & -> & Hinv' & Hat). rewrite <- Hat in Hp.
  destruct (lookup_lt_is_Some_2 aug' c) as [rc Hrc].
  { rewrite (gj_length _ _ Hinv'). lia. }
  rewrite (at_lookup _ _ _ _ Hrc) in Hp |- *.
  rewrite bool_decide_false by (by apply finv_nonzero).
  rewrite (nth_lookup_Some _ _ _ _ Hrc), scale_smul. cbn. by apply gj_inv_elim.
Qed.

Lemma gj_loop_spec m c aug :
  gj_inv c aug → c + m = n → gj_answer n (gj_loop n (seq c m) aug).
Proof.
  revert c aug. induction m as [|m IH]; intros c aug Hinv Hm; cbn.
  { assert (c = n) as -> by lia. done. }
  pose proof (gj_col_spec c aug Hinv ltac:(lia)) as Hcol.
  destruct (gj_col n aug c) as [aug'| | |]; cbn in *; [|done..].
  apply IH; [done|lia].
Qed.
End gauss.

(** ** The inverse *)

Definition square (n : nat) (m : Matrix) : Prop := length m = n ∧ rect n m.
#[global] Instance square_dec n m : Decision (square n m).
Proof. unfold square, rect. apply _. Defined.

Lemma rect_lookup n (m : Matrix) i r : rect n m → m !! i = Some r → length r = n.
Proof. intros Hm Hi. by eapply Forall_lookup_1 in Hm. Qed.

Lemma augment_lookup n (m : Matrix) i r :
  augment n m !! i = Some r ↔ ∃ row, m !! i = Some row ∧ r = row ++ unit n i.
Proof.
  unfold augment. rewrite list_lookup_imap. destruct (m !! i) as [row|]; cbn; split.
  - intros [= <-]. eauto.
  - intros (? & [= <-] & ->). done.
  - done.
  - by intros (? & ? & ?).
Qed.

Lemma augment_null n (m : Matrix) y z :
  rect n m → length y = n →
  null (augment n m) (y ++ z) ↔
  ∀ i row, m !! i = Some row → fadd (dot row y) (dot (unit n i) z) = fzero.
Proof.
  intros Hm Hy. rewrite null_lookup. setoid_rewrite augment_lookup. split.
  - intros Hx i row Hi. rewrite <- dot_app; [by eapply Hx; eauto|].
    by rewrite Hy, (rect_lookup _ _ _ _ Hm Hi).
  - intros Hx i r (row & Hi & ->). rewrite dot_app; [by eapply Hx|].
    by rewrite Hy, (rect_lookup _ _ _ _ Hm Hi).
Qed.

Lemma gj_inv_0 n (m : Matrix) : square n m → gj_inv n (augment n m) 0 (augment n m).
Proof.
  intros [Hl Hm]. constructor.
  - unfold augment. by rewrite length_imap.
  - intros i r (row & Hi & ->)%augment_lookup.
    rewrite length_app, length_unit, (rect_lookup _ _ _ _ Hm Hi). lia.
  - done.
  - intros i r _. by rewrite take_0.
Qed.

(** What the loop leaves: the identity on the left, the inverse on the right. *)
Section reduced.
Context (n : nat) (m aug : Matrix) (Hsq : square n m).
Hypothesis Hinv : gj_inv n (augment n m) n aug.

Lemma reduced_dot i row y z :
  aug !! i = Some row → length y = n →
  dot row (y ++ z) = fadd (nth i y fzero) (dot (drop n row) z).
Proof.
  intros Hi Hy. pose proof (lookup_lt_Some _ _ _ Hi) as Hlt. rewrite (gj_length _ _ _ _ Hinv) in Hlt.
  pose proof (gj_rows _ _ _ _ Hinv _ _ Hi) as Hr.
  rewrite <- (take_drop n row) at 1. rewrite dot_app by (rewrite length_take; lia).
  by rewrite (gj_unit _ _ _ _ Hinv _ _ Hi), dot_unit.
Qed.

Lemma reduced_zero i row y z :
  null (augment n m) (y ++ z) → aug !! i = Some row → length y = n →
  nth i y fzero = dot (drop n row) z.
Proof.
  intros Hx%(gj_null _ _ _ _ Hinv) Hi Hy. apply fadd_cancel.
  rewrite <- (reduced_dot i row) by done. rewrite null_lookup in Hx. by eapply Hx.
Qed.

Lemma reduced_inverse i row : aug !! i = Some row → lincomb (drop n row) m n = unit n i.
Proof.
  intros Hi. destruct Hsq as [Hl Hm].
  pose proof (lookup_lt_Some _ _ _ Hi) as Hlt. rewrite (gj_length _ _ _ _ Hinv) in Hlt.
  apply (dot_ext n); [by apply length_lincomb|apply length_unit|]. intros y Hy.
  rewrite dot_lincomb, dot_unit by done. symmetry. apply (reduced_zero i); [|done..].
  apply augment_null; [done..|]. intros j r Hj.
  pose proof (lookup_lt_Some _ _ _ Hj).
  rewrite dot_unit, nth_lookup, list_lookup_fmap, Hj by (rewrite ?length_fmap; lia).
  apply fadd_self.
Qed.

Lemma reduced_kernel_free : kernel_free n (drop n <$> aug).
Proof.
  intros x Hx Hz. destruct Hsq as [Hl Hm]. rewrite Forall_fmap, Forall_lookup in Hz.
  assert (Hnull : null (augment n m) (vzero n ++ x)).
  { apply (gj_null _ _ _ _ Hinv), null_lookup. intros i row Hi.
    rewrite (reduced_dot i) by (done || apply length_vzero).
    pose proof (lookup_lt_Some _ _ _ Hi) as Hlt. rewrite (gj_length _ _ _ _ Hinv) in Hlt.
    rewrite (Hz _ _ Hi), fadd_0_r. unfold vzero. by rewrite nth_lookup, lookup_replicate_2. }
  rewrite augment_null in Hnull by (done || apply length_vzero).
  apply kernel_free_units; [done|]. rewrite Forall_fmap, Forall_seq. intros i Hi. cbn.
  destruct (lookup_lt_is_Some_2 m i) as [row Hrow]; [lia|].
  specialize (Hnull _ _ Hrow). by rewrite dot_comm, dot_vzero, fadd_0_l in Hnull.
Qed.

Lemma reduced_source_kernel_free : kernel_free n m.
Proof.
  intros x Hx Hz. destruct Hsq as [Hl Hm]. rewrite Forall_lookup in Hz.
  assert (Hnull : null (augment n m) (x ++ vzero n)).
  { apply augment_null; [done..|]. intros i row Hi.
    by rewrite (Hz _ _ Hi), dot_comm, dot_vzero, fadd_0_l. }
  apply (vec_ext n); [done|apply length_vzero|]. intros i Hi.
  destruct (lookup_lt_is_Some_2 aug i) as [row Hrow]; [by rewrite (gj_length _ _ _ _ Hinv)|].
  rewrite (reduced_zero i row x (vzero n)) by done.
  rewrite dot_comm, dot_vzero. unfold vzero. by rewrite nth_lookup, lookup_replicate_2.
Qed.
End reduced.

(** [R] is an inverse of [m], on the left and as a linear map. *)
Definition inverts (n : nat) (R m : Matrix) : Prop :=
  square n R ∧ kernel_free n R ∧ ∀ i r, R !! i = Some r → lincomb r m n = unit n i.

(** A non-zero vector is orthogonal to all rows. *)
Definition singular (n : nat) (m : Matrix) : Prop :=
  ∃ x, length x = n ∧ x ≠ vzero n ∧ null m x.

Lemma singular_kernel n m : kernel_free n m → ¬ singular n m.
Proof. intros Hk (x & Hx & Hne & Hz). by apply Hne, Hk. Qed.

Lemma invert_matrix_answer (m : Matrix) :
  let n := length m in
  match invert_matrix m with
  | Ok R => n ≠ 0 ∧ square n m ∧ kernel_free n m ∧ inverts n R m
  | Err e => (e = "matrix must be square" ∧ (n = 0 ∨ ¬ square n m)) ∨
             (e = "matrix is singular" ∧ n ≠ 0 ∧ square n m ∧ singular n m)
  | _ => False
  end.
Proof.
  cbv zeta. unfold invert_matrix. set (n := length m).
  case_bool_decide as Hn; [cbn; auto|].
  case_bool_decide as Hsq; cbn [orb].
  { left. split; [done|]. right. intros [_ Hm].
    apply Exists_not_Forall in Hsq. apply Hsq. eapply Forall_impl; [exact Hm|]. cbn. auto. }
  assert (Hm : square n m).
  { split; [done|]. apply Forall_forall. intros r Hr.
    destruct (decide (length r = n)) as [|Hne]; [done|]. destruct Hsq.
    apply Exists_exists. eauto. }
  pose proof (gj_loop_spec n (augment n m) (length_imap _ _) n 0 _ (gj_inv_0 n m Hm) eq_refl) as Hg.
  destruct (gj_loop n (seq 0 n) (augment n m)) as [aug|e| |]; [|cbn in *..]; [|clear Hn|done..].
  - change (gj_inv n (augment n m) n aug) in Hg. cbn.
    split; [done|]. split; [done|].
    split; [by apply (reduced_source_kernel_free n m aug)|].
    split; [|split; [by apply (reduced_kernel_free n m aug)|]].
    + split; [by rewrite length_map, (gj_length _ _ _ _ Hg)|].
      apply Forall_fmap, Forall_lookup. intros i row Hi. cbn.
      rewrite length_drop, (gj_rows _ _ _ _ Hg _ _ Hi). lia.
    + intros i r Hi. change (map (drop n) aug) with (drop n <$> aug) in Hi.
      rewrite list_lookup_fmap in Hi. destruct (aug !! i) as [row|] eqn:Hrow; [|done].
      injection Hi as <-. by eapply reduced_inverse.
  - right. destruct Hg as (-> & x & Hx & Hne & Hnull). split; [done|]. split; [|split; [done|]].
    { intros H0. rewrite H0 in *. destruct x; done. }
    exists x. split; [done|]. split; [done|]. apply Forall_lookup. intros i row Hi.
    rewrite augment_null in Hnull by (apply Hm || done).
    specialize (Hnull _ _ Hi). by rewrite (dot_comm (unit n i)), dot_vzero, fadd_0_r in Hnull.
Qed.

Lemma invert_matrix_Ok n (m : Matrix) :
  n ≠ 0 → square n m → kernel_free n m → ∃ R, invert_matrix m = Ok R ∧ inverts n R m.
Proof.
  intros Hn [Hl Hm] Hk. pose proof (invert_matrix_answer m) as Ha. cbv zeta in Ha.
  rewrite Hl in Ha. destruct (invert_matrix m) as [R|e| |].
  - exists R. tauto.
  - exfalso. destruct Ha as [(_ & Ha)|(_ & _ & _ & Ha)].
    + destruct Ha as [?|Ha]; [done|]. by apply Ha.
    + by apply (singular_kernel n m).
  - destruct Ha.
  - destruct Ha.
Qed.

(** ** The systematic code

    [apply_mat m x] is the product of [m] and the column [x]. *)

Definition apply_mat (m : Matrix) (x : vec) : vec := (λ r, dot r x) <$> m.

Lemma length_apply_mat m x : length (apply_mat m x) = length m.
Proof. apply length_fmap. Qed.

Lemma apply_mat_rows A R n x :
  rect n R → apply_mat ((λ r, lincomb r R n) <$> A) x = apply_mat A (apply_mat R x).
Proof.
  intros HR. unfold apply_mat. rewrite <- list_fmap_compose.
  apply list_fmap_ext. intros _ r _. cbn. by apply dot_lincomb.
Qed.

Lemma null_apply (A : Matrix) x : null A x ↔ apply_mat A x = vzero (length A).
Proof.
  unfold null, apply_mat, vzero. induction A as [|r A IH]; cbn; [by split|].
  rewrite Forall_cons, IH. split; [by intros [-> ->]|by intros [= -> ->]].
Qed.

(** The inverse found by elimination is also an inverse on the right. *)
Lemma inverts_right n R m i row :
  square n m → inverts n R m → m !! i = Some row → lincomb row R n = unit n i.
Proof.
  intros [Hl Hm] ([HlR HR] & HkR & Hinv) Hi.
  pose proof (lookup_lt_Some _ _ _ Hi).
  apply (dot_ext n); [by apply length_lincomb|apply length_unit|]. intros x Hx.
  rewrite dot_unit by (done || lia).
  (* [m (R x) = x], because [R] maps both to [R x] *)
  set (y := apply_mat m (apply_mat R x)).
  assert (Hy : length y = n) by (unfold y; by rewrite length_apply_mat).
  assert (Hxy : vadd y x = vzero n).
  { apply HkR; [rewrite length_vadd; lia|].
    apply Forall_lookup. intros j r Hj.
    rewrite dot_comm, dot_vadd_l, !(dot_comm _ r) by lia.
    assert (Hry : dot r y = dot r x); [|by rewrite Hry, fadd_self].
    change (dot r ((λ r', dot r' (apply_mat R x)) <$> m) = dot r x).
    rewrite <- (dot_lincomb r m n) by exact Hm.
    rewrite (Hinv _ _ Hj), dot_unit; [| by rewrite length_apply_mat |].
    - unfold apply_mat. by rewrite nth_lookup, list_lookup_fmap, Hj.
    - pose proof (lookup_lt_Some _ _ _ Hj). lia. }
  rewrite dot_lincomb by done. change (dot row (apply_mat R x) = nth i x fzero).
  apply (f_equal (λ l, nth i l fzero)) in Hxy. rewrite nth_vadd in Hxy by lia.
  unfold vzero in Hxy. rewrite (nth_lookup (replicate _ _)), lookup_replicate_2 in Hxy by lia.
  apply fadd_cancel in Hxy. rewrite <- Hxy. unfold y, apply_mat.
  by rewrite nth_lookup, list_lookup_fmap, Hi.
Qed.

(** ** Vandermonde rows *)

Definition vrow (cols : nat) (r : F) : vec := fpow r <$> seq 0 cols.

Definition eval (x : vec) (a : F) : F := foldr (λ c acc, fadd c (fmul a acc)) fzero x.

Lemma eval_cons c x a : eval (c :: x) a = fadd c (fmul a (eval x a)).
Proof. reflexivity. Qed.

Lemma dot_vrow x r : dot (vrow (length x) r) x = eval x r.
Proof.
  unfold vrow. cut (∀ s, dot (fpow r <$> seq s (length x)) x = fmul (fpow r s) (eval x r)).
  { intros Hs. rewrite Hs. apply fmul_1_l. }
  induction x as [|c x IH]; intros s; cbn [seq length fmap list_fmap]; [symmetry; apply fmul_0_r|].
  rewrite dot_cons, IH, eval_cons, fmul_add_l. f_equal.
  rewrite fmul_assoc. cbn [fpow]. by rewrite (fmul_comm r).
Qed.

(** Division of a polynomial by [X - r]. *)
Fixpoint pdiv (r : F) (x : vec) : vec :=
  match x with
  | [] => []
  | c :: x => match x with [] => [] | _ => eval x r :: pdiv r x end
  end.

Lemma length_pdiv r x : length (pdiv r x) = pred (length x).
Proof.
  induction x as [|c [|d x] IH]; [done..|]. cbn in *. by rewrite IH.
Qed.

Lemma pdiv_spec r x a :
  fadd (eval x a) (eval x r) = fmul (fadd a r) (eval (pdiv r x) a).
Proof.
  induction x as [|c x IH]; [cbn; by rewrite fadd_0_l, fmul_0_r|].
  destruct x as [|d x].
  { cbn. by rewrite !fmul_0_r, fadd_self. }
  set (xs := d :: x) in *. change (pdiv r (c :: xs)) with (eval xs r :: pdiv r xs).
  rewrite !eval_cons, fadd_swap, fadd_self, fadd_0_l.
  assert (Hq : fmul (fadd a r) (fmul a (eval (pdiv r xs) a)) =
               fadd (fmul a (eval xs r)) (fmul a (eval xs a))).
  { by rewrite (fmul_comm (fadd a r)), <- fmul_assoc, (fmul_comm _ (fadd a r)), <- IH,
      fmul_add_l, fadd_comm. }
  rewrite fmul_add_l, Hq, fmul_add_r, fadd_swap, fadd_self, fadd_0_l. apply fadd_comm.
Qed.

Lemma pdiv_zero r x :
  Forall (.= fzero) (pdiv r x) → eval x r = fzero → Forall (.= fzero) x.
Proof.
  induction x as [|c x IH]; [done|]. destruct x as [|d x].
  { cbn. rewrite fmul_0_r, fadd_0_r. intros _ ->. by repeat constructor. }
  set (xs := d :: x) in *. change (pdiv r (c :: xs)) with (eval xs r :: pdiv r xs).
  intros [Hr Hq]%Forall_cons. rewrite eval_cons, Hr, fmul_0_r, fadd_0_r. intros ->.
  constructor; [done|]. by apply IH.
Qed.

(** A polynomial with as many roots as coefficients is zero. *)
Lemma roots_zero rs x :
  NoDup rs → length x ≤ length rs → Forall (λ r, eval x r = fzero) rs → Forall (.= fzero) x.
Proof.
  intros Hnd. revert x. induction Hnd as [|r rs Hr Hnd IH]; intros x Hl Hz.
  { destruct x; [done|cbn in Hl; lia]. }
  apply Forall_cons in Hz as [Hz Hzs]. apply (pdiv_zero r); [|done]. apply IH.
  - rewrite length_pdiv. cbn in Hl. lia.
  - rewrite Forall_forall in Hzs |- *. intros a Ha. specialize (Hzs a Ha).
    pose proof (pdiv_spec r x a) as Hd. rewrite Hzs, Hz, fadd_self in Hd.
    apply (fmul_cancel (fadd a r)); [|done]. intros ->%fadd_cancel. done.
Qed.

Lemma vandermonde_kernel_free k rs :
  NoDup rs → length rs = k → kernel_free k (vrow k <$> rs).
Proof.
  intros Hnd Hl x Hx Hz. rewrite Forall_fmap in Hz.
  assert (Hzero : Forall (.= fzero) x).
  { apply (roots_zero rs); [done|lia|]. eapply Forall_impl; [exact Hz|].
    intros r Hr. cbn in Hr. by rewrite <- Hx, dot_vrow in Hr. }
  rewrite <- Hx. clear -Hzero. induction Hzero as [|c x -> _ IH]; [done|].
  cbn. by rewrite <- IH at 1.
Qed.
End matrices.
