(* ===== verification/Erasure.v ===== *)
(** [crates/dag/src/erasure]: systematic Reed-Solomon coding of a blob payload.

    A shard is a list of [u8].  [encode_shards] and [decode_shards] run on the
    process-wide cache of encoding matrices ([MatrixCache]).  The theorems: the
    encoding matrix is systematic and any [k] of its rows are invertible, so
    any [k] shards give the payload back; and what the decoder answers on bad
    input. *)

From stdpp Require Import strings.
From S2P Require Import Prelude Bytes Gf256 LinAlg RsMatrix.
Open Scope string_scope.
Open Scope list_scope.
Open Scope Z_scope.

(** ** Configuration and errors ([config.rs], [error.rs]) *)

Record ErasureConfig := MkErasureConfig {
  ec_k : Z; ec_n : Z; ec_data_shard_size : Z;
}.
#[global] Instance ErasureConfig_eq_dec : EqDecision ErasureConfig.
Proof. solve_decision. Defined.

(** The fields fit their types [u32], [u32] and [usize]. *)
Definition cfg_ok (cfg : ErasureConfig) : Prop :=
  u32_ok (ec_k cfg) ∧ u32_ok (ec_n cfg) ∧ u64_ok (ec_data_shard_size cfg).
#[global] Instance cfg_ok_dec cfg : Decision (cfg_ok cfg).
Proof. unfold cfg_ok. apply _. Defined.

Definition devnet_default : ErasureConfig := MkErasureConfig 4 8 (32 * 1024).

Definition parity_count (cfg : ErasureConfig) : Z := saturating_sub (ec_n cfg) (ec_k cfg).

Inductive ErasureError := EConfig (why : string) | ECodec (why : string).
#[global] Instance ErasureError_eq_dec : EqDecision ErasureError.
Proof. solve_decision. Defined.

Definition MAX_SHARDS : Z := 256.

Abbreviation shard := (list u8).
Abbreviation Matrix := (list (list u8)).
Abbreviation MatrixCache := (gmap (Z * Z) Matrix).
Abbreviation zeros := (replicate (A:=u8)).

(** [s[i]] on a vector *)
Definition get_or_panic {E A} (l : list A) (i : nat) : outcome E A :=
  match l !! i with Some a => Ok a | None => Panic end.

(** [slice.chunks(m)], for [m ≠ 0]; every chunk takes at least one element. *)
Fixpoint chunks_fuel {A} (fuel m : nat) (l : list A) : list (list A) :=
  match fuel, l with
  | S fuel, _ :: _ => take m l :: chunks_fuel fuel m (drop m l)
  | _, _ => []
  end.
Definition chunks {A} (m : nat) (l : list A) : list (list A) := chunks_fuel (length l) m l.

Section codec.
Context `{Build}.

Definition padded_len {E} (cfg : ErasureConfig) : outcome E Z :=
  mul_w 64 (ec_k cfg) (ec_data_shard_size cfg).

Definition validate_cfg (cfg : ErasureConfig) : outcome ErasureError () :=
  if (ec_k cfg =? 0) || (ec_n cfg <=? ec_k cfg) || (ec_data_shard_size cfg =? 0)
  then Err (EConfig "k/n/shard_size invalid")
  else if MAX_SHARDS <? ec_n cfg
  then Err (EConfig "n exceeds GF(256) Vandermonde row limit")
  else Ok ().

(** ** The encoding matrix *)

(** [u8::try_from(r).expect(..)] *)
Definition vandermonde {E} (rows cols : nat) : outcome E Matrix :=
  if bool_decide (256 < rows)%nat then Panic
  else Ok ((λ r, (λ c, pow (u8_of_N (N.of_nat r)) (N.of_nat c)) <$> seq 0 cols) <$> seq 0 rows).

Definition build_encoding_matrix (n k : nat) : outcome ErasureError Matrix :=
  v ← vandermonde n k;
  if bool_decide (length v < k)%nat then Panic else
  inv ← map_err ECodec (invert_matrix (take k v));
  mat_mul v inv.

Definition cached_encoding_matrix (cfg : ErasureConfig) : M ErasureError MatrixCache Matrix :=
  cached ← gets (.!! (ec_n cfg, ec_k cfg));
  match cached with
  | Some matrix => mret matrix
  | None =>
      matrix ← lift (build_encoding_matrix (Z.to_nat (ec_n cfg)) (Z.to_nat (ec_k cfg)));
      _ ← modify <[(ec_n cfg, ec_k cfg) := matrix]>;
      mret matrix
  end.

(** ** Encoding *)

Definition pad_to_k_shards {E} (payload : shard) (cfg : ErasureConfig) : outcome E shard :=
  len ← padded_len cfg;
  if bool_decide (Z.to_nat len < length payload)%nat then Panic
  else Ok (payload ++ zeros (Z.to_nat len - length payload) x00).

(** [for j in js { mul_slice_add(coeff(j), src(j), out) }] *)
Fixpoint add_rows {E} (coeff : nat → outcome E u8) (src : nat → outcome E shard)
    (js : list nat) (out : shard) : outcome E shard :=
  match js with
  | [] => Ok out
  | j :: js =>
      c ← coeff j;
      row ← src j;
      out ← mul_slice_add c row out;
      add_rows coeff src js out
  end.

(** [matrix[row][j]] *)
Definition entry {E} (matrix : Matrix) (row j : nat) : outcome E u8 :=
  r ← get_or_panic matrix row; get_or_panic r j.

Definition encode_parity_shards {E} (matrix : Matrix) (k : nat) (data parity : list shard) :
    outcome E (list shard) :=
  omap_list (λ p : nat * shard,
    add_rows (entry matrix (k + p.1)) (get_or_panic data) (seq 0 k)
      (zeros (length p.2) x00))
    (zip (seq 0 (length parity)) parity).

Definition encode_shards (payload : shard) (cfg : ErasureConfig) :
    M ErasureError MatrixCache (list shard) :=
  _ ← lift (validate_cfg cfg);
  cap ← lift (padded_len cfg);
  if cap <? length payload
  then lift (Err (EConfig "payload exceeds RS padded capacity")) else
  let k := Z.to_nat (ec_k cfg) in
  let n := Z.to_nat (ec_n cfg) in
  let size := Z.to_nat (ec_data_shard_size cfg) in
  matrix ← cached_encoding_matrix cfg;
  padded ← lift (pad_to_k_shards payload cfg);
  let shards := resize n (zeros size x00) (chunks size padded) in
  parity ← lift (encode_parity_shards matrix k (take k shards) (drop k shards));
  mret (take k shards ++ parity).

(** ** Decoding *)

(** [shards.iter().enumerate().filter_map(..)] *)
Definition present_indices (shards : list (option shard)) : list nat :=
  omap (λ p : nat * option shard, match p.2 with Some _ => Some p.1 | None => None end)
    (zip (seq 0 (length shards)) shards).

Definition present_shard {E} (shards : list (option shard)) (i : nat) : outcome E shard :=
  s ← get_or_panic shards i;
  match s with Some d => Ok d | None => Panic end.

(** [dst.copy_from_slice(src)], [dst.fill(0)] on a shard that may be absent *)
Definition or_zeros (size : nat) (s : option shard) : shard := default (zeros size x00) s.

Definition reconstruct_shards (shards : list (option shard)) (cfg : ErasureConfig) :
    M ErasureError MatrixCache (list (option shard)) :=
  let k := Z.to_nat (ec_k cfg) in
  let n := length shards in
  let size := Z.to_nat (ec_data_shard_size cfg) in
  matrix ← cached_encoding_matrix cfg;
  let present := present_indices shards in
  if bool_decide (length present < k)%nat
  then lift (Err (EConfig "insufficient shards for decode")) else
  let use_rows := take k present in
  sub ← lift (submatrix matrix use_rows);
  inv ← lift (map_err ECodec (invert_matrix sub));
  data_shards ← lift (omap_list (λ j,
    add_rows (entry inv j)
      (λ t, i ← get_or_panic use_rows t; present_shard shards i)
      (seq 0 k) (zeros size x00)) (seq 0 k));
  data ← lift (omap_list (λ j,
    s ← get_or_panic shards j;
    d ← get_or_panic data_shards j;
    if bool_decide (length (or_zeros size s) ≠ length d) then Panic else Ok (Some d)) (seq 0 k));
  parity ← lift (omap_list (λ row,
    s ← get_or_panic shards row;
    Some <$> add_rows (entry matrix row) (get_or_panic data_shards) (seq 0 k)
      (zeros (length (or_zeros size s)) x00)) (seq k (n - k)));
  mret (data ++ parity).

(** The loop of [decode_shards] that places the shards. *)
Fixpoint place_shards (cfg : ErasureConfig) (present : list (Z * shard))
    (shards : list (option shard)) : outcome ErasureError (list (option shard)) :=
  match present with
  | [] => Ok shards
  | (index, data) :: present =>
      let idx := Z.to_nat index in
      if bool_decide (length shards ≤ idx)%nat then Err (EConfig "shard index out of range")
      else if bool_decide (Z.of_nat (length data) ≠ ec_data_shard_size cfg)
      then Err (EConfig "unexpected shard length")
      else place_shards cfg present (<[idx := Some data]> shards)
  end.

Definition decode_shards (present : list (Z * shard)) (cfg : ErasureConfig) (orig_len : Z) :
    M ErasureError MatrixCache shard :=
  _ ← lift (validate_cfg cfg);
  let k := Z.to_nat (ec_k cfg) in
  if bool_decide (length present < k)%nat
  then lift (Err (EConfig "insufficient shards for decode")) else
  shards ← lift (place_shards cfg present (replicate (Z.to_nat (ec_n cfg)) None));
  shards ← reconstruct_shards shards cfg;
  _ ← lift (padded_len cfg);
  out ← lift (omap_list (present_shard shards) (seq 0 k));
  mret (take (Z.to_nat orig_len) (mjoin out)).

(** ** Accumulating rows *)

Lemma mul_slice_add_spec {E} c (d out : shard) :
  length d = length out → mul_slice_add (E:=E) c d out = Ok (vadd out (smul c d)).
Proof.
  intros Hl. unfold mul_slice_add. rewrite bool_decide_false by (by intros []).
  case_bool_decide as H0; [|case_bool_decide as H1].
  - subst c. f_equal. change x00 with (fzero : u8). rewrite smul_0, Hl. symmetry. apply vadd_0_r.
  - subst c. f_equal. change x01 with (fone : u8). by rewrite smul_1.
  - f_equal. unfold vadd, smul. by rewrite zip_with_fmap_r.
Qed.

Lemma add_rows_spec {E} coeff src (cf : nat → u8) (sf : nat → shard) js out :
  (∀ j, j ∈ js → coeff j = Ok (cf j) ∧ src j = Ok (sf j) ∧ length (sf j) = length out) →
  add_rows (E:=E) coeff src js out = Ok (vadd out (lincomb (cf <$> js) (sf <$> js) (length out))).
Proof.
  revert out. induction js as [|j js IH]; intros out Hj.
  { cbn. by rewrite vadd_0_r. }
  destruct (Hj j (list_elem_of_here _ _)) as (Hc & Hs & Hl).
  cbn [add_rows]. rewrite Hc. ocbn. rewrite Hs. ocbn. rewrite mul_slice_add_spec by done. ocbn.
  assert (Hlen : length (vadd out (smul (cf j) (sf j))) = length out)
    by (apply length_vadd; by rewrite length_smul).
  rewrite IH; rewrite Hlen.
  - by rewrite !fmap_cons, lincomb_cons, vadd_assoc.
  - intros i Hi. apply Hj. by right.
Qed.

Lemma get_or_panic_Ok {E A} (l : list A) i a : l !! i = Some a → get_or_panic (E:=E) l i = Ok a.
Proof. unfold get_or_panic. by intros ->. Qed.

(** The product of a row of coefficients and of rows of data. *)
Lemma add_rows_product {E} coeff src (row : list u8) (data : list shard) k size :
  (∀ j c, row !! j = Some c → coeff j = Ok c) →
  (∀ j d, data !! j = Some d → src j = Ok d) →
  length row = k → length data = k → rect size data →
  add_rows (E:=E) coeff src (seq 0 k) (zeros size x00) = Ok (lincomb row data size).
Proof.
  intros Hc Hd Hr Hl Hrect.
  rewrite (add_rows_spec _ _ (λ j, nth j row x00) (λ j, nth j data [])).
  - rewrite length_replicate. f_equal. rewrite <- Hr at 1. rewrite (fmap_nth_seq x00 row).
    rewrite <- Hl. rewrite (fmap_nth_seq [] data).
    change (zeros size x00) with (vzero (F:=u8) size).
    rewrite <- (length_lincomb row data size) at 1 by done. apply vadd_0_l.
  - intros j [_ Hj]%elem_of_seq.
    destruct (lookup_lt_is_Some_2 row j) as [c Hrj]; [lia|].
    destruct (lookup_lt_is_Some_2 data j) as [d Hdj]; [lia|].
    rewrite (nth_lookup_Some _ _ _ _ Hrj), (nth_lookup_Some _ _ _ _ Hdj), length_replicate.
    split; [by apply Hc|]. split; [by apply Hd|]. exact (rect_lookup _ _ _ _ Hrect Hdj).
Qed.

(** ** The encoding matrix *)

Lemma u8_of_nat_inj (i j : nat) :
  (i < 256)%nat → (j < 256)%nat → u8_of_N (N.of_nat i) = u8_of_N (N.of_nat j) → i = j.
Proof.
  intros Hi Hj He. apply (f_equal Byte.to_N) in He.
  rewrite !to_u8_of, !N.mod_small in He by lia. lia.
Qed.

Definition vrows (n k : nat) : Matrix := (λ r, vrow k (u8_of_N (N.of_nat r))) <$> seq 0 n.

Lemma vandermonde_spec {E} n k : (n ≤ 256)%nat → vandermonde (E:=E) n k = Ok (vrows n k).
Proof.
  intros Hn. unfold vandermonde. rewrite bool_decide_false by lia. f_equal.
  apply list_fmap_ext. intros _ r _. apply list_fmap_ext. intros _ c _.
  by rewrite pow_spec, Nat2N.id.
Qed.

Lemma length_vrow k (a : u8) : length (vrow k a) = k.
Proof. unfold vrow. by rewrite length_fmap, length_seq. Qed.

Lemma vrows_lookup n k r : (r < n)%nat → vrows n k !! r = Some (vrow k (u8_of_N (N.of_nat r))).
Proof. intros Hr. unfold vrows. by rewrite list_lookup_fmap, lookup_seq_lt. Qed.

Lemma vrows_rect n k : rect k (vrows n k).
Proof. apply Forall_fmap, Forall_forall. intros r _. apply length_vrow. Qed.

Lemma vrows_kernel_free n k rows :
  (n ≤ 256)%nat → NoDup rows → length rows = k → Forall (λ r, r < n)%nat rows →
  kernel_free k ((λ r, vrow k (u8_of_N (N.of_nat r))) <$> rows).
Proof.
  intros Hn Hnd Hl Hr.
  replace ((λ r, vrow k (u8_of_N (N.of_nat r))) <$> rows)
    with (vrow k <$> ((λ r, u8_of_N (N.of_nat r)) <$> rows)) by (by rewrite <- list_fmap_compose).
  apply vandermonde_kernel_free; [|by rewrite length_fmap].
  clear Hl. induction Hnd as [|r rows Hni Hnd IH]; [constructor|].
  apply Forall_cons in Hr as [Hr Hrs]. rewrite fmap_cons. constructor; [|by apply IH].
  intros (r' & He & Hr')%list_elem_of_fmap. rewrite Forall_forall in Hrs.
  specialize (Hrs _ Hr'). apply u8_of_nat_inj in He; [by subst|lia..].
Qed.

(** A systematic matrix any [k] rows of which determine their coefficients. *)
Record mds (n k : nat) (E : Matrix) : Prop := {
  mds_length : length E = n;
  mds_rect : rect k E;
  mds_systematic i : (i < k)%nat → E !! i = Some (unit k i);
  mds_any rows : NoDup rows → length rows = k → Forall (λ r, r < n)%nat rows →
    kernel_free k ((λ r, nth r E []) <$> rows);
}.

Lemma build_encoding_matrix_mds n k :
  (0 < k)%nat → (k ≤ n)%nat → (n ≤ 256)%nat →
  ∃ E, build_encoding_matrix n k = Ok E ∧ mds n k E.
Proof.
  intros Hk Hkn Hn. unfold build_encoding_matrix. rewrite vandermonde_spec by done. ocbn.
  assert (Hlv : length (vrows n k) = n) by (unfold vrows; by rewrite length_fmap, length_seq).
  rewrite bool_decide_false by lia.
  set (top := take k (vrows n k)).
  assert (Htop : top = (λ r, vrow k (u8_of_N (N.of_nat r))) <$> seq 0 k).
  { unfold top, vrows. rewrite <- fmap_take, take_seq. by rewrite Nat.min_l by lia. }
  assert (Hsq : square k top).
  { split; [unfold top; rewrite length_take; lia|]. apply Forall_take, vrows_rect. }
  destruct (invert_matrix_Ok k top) as (R & HR & HRinv); [lia|done| |].
  { rewrite Htop. apply (vrows_kernel_free n); [done|apply NoDup_seq|by rewrite length_seq|].
    apply Forall_seq. lia. }
  rewrite HR. ocbn. destruct HRinv as (HsqR & HkR & Hinv).
  rewrite (mat_mul_spec _ _ k k) by (apply vrows_rect || apply HsqR || lia).
  eexists. split; [done|]. constructor.
  - by rewrite length_fmap.
  - apply Forall_fmap, Forall_forall. intros r _. apply length_lincomb, HsqR.
  - intros i Hi. rewrite list_lookup_fmap, vrows_lookup by lia. cbn. f_equal.
    apply (inverts_right k R top); [done|done|].
    rewrite Htop, list_lookup_fmap, lookup_seq_lt by done. done.
  - intros rows Hnd Hl Hr.
    replace ((λ r, nth r ((λ row, lincomb row R k) <$> vrows n k) []) <$> rows)
      with ((λ row, lincomb row R k) <$> ((λ r, vrow k (u8_of_N (N.of_nat r))) <$> rows)).
    2:{ rewrite <- list_fmap_compose. apply list_fmap_ext. intros i r Hir. cbn.
        rewrite Forall_lookup in Hr. specialize (Hr _ _ Hir).
        by rewrite nth_lookup, list_lookup_fmap, vrows_lookup. }
    intros x Hx Hz. apply null_apply in Hz. rewrite apply_mat_rows in Hz by apply HsqR.
    rewrite !length_fmap, Hl in Hz.
    assert (HRx : apply_mat R x = vzero k).
    { apply (vrows_kernel_free n k rows); [done..| |].
      - rewrite length_apply_mat. apply HsqR.
      - apply null_apply. by rewrite length_fmap, Hl. }
    apply HkR; [done|]. apply null_apply. by rewrite (proj1 HsqR).
Qed.

(** ** Chunks and products *)

Lemma omap_list_pure {E A B} (f : A → outcome E B) (g : A → B) l :
  (∀ a, a ∈ l → f a = Ok (g a)) → omap_list f l = Ok (g <$> l).
Proof.
  intros Hf. apply omap_list_Ok. induction l as [|a l IH]; [constructor|].
  constructor; [apply Hf; by left|]. apply IH. intros. apply Hf. by right.
Qed.

Lemma chunks_spec {A} (m k : nat) (l : list A) :
  (0 < m)%nat → length l = (k * m)%nat →
  length (chunks m l) = k ∧ Forall (λ c, length c = m) (chunks m l) ∧ mjoin (chunks m l) = l.
Proof.
  intros Hm Hl. unfold chunks. assert (Hf : (length l ≤ length l)%nat) by lia. revert Hf.
  generalize (length l) at 2 3 4 5 as fuel. intros fuel. revert k l Hl.
  induction fuel as [|fuel IH]; intros k l Hl Hf.
  { destruct k; [|cbn in Hl; lia]. by destruct l. }
  destruct l as [|a l].
  { destruct k; [done|cbn in Hl; lia]. }
  destruct k as [|k]; [cbn in Hl; lia|]. set (xs := a :: l) in *.
  change (chunks_fuel (S fuel) m xs) with (take m xs :: chunks_fuel fuel m (drop m xs)).
  destruct (IH k (drop m xs)) as (Hk & Hc & Hj).
  { rewrite length_drop. lia. }
  { rewrite length_drop. lia. }
  split; [cbn; lia|]. split.
  - constructor; [rewrite length_take; lia|done].
  - change (take m xs ++ mjoin (chunks_fuel fuel m (drop m xs)) = xs). rewrite Hj. apply take_drop.
Qed.

(** The shards of the data rows [D]. *)
Definition code (E : Matrix) (D : list shard) (size : nat) : list shard :=
  (λ r, lincomb r D size) <$> E.

Lemma code_lookup E D size i r : E !! i = Some r → code E D size !! i = Some (lincomb r D size).
Proof. intros Hi. unfold code. by rewrite list_lookup_fmap, Hi. Qed.

Lemma code_systematic n k E D size i d :
  mds n k E → length D = k → rect size D → D !! i = Some d → code E D size !! i = Some d.
Proof.
  intros HE Hl HD Hi. pose proof (lookup_lt_Some _ _ _ Hi).
  rewrite (code_lookup _ _ _ _ _ (mds_systematic _ _ _ HE i ltac:(lia))). f_equal.
  by eapply lincomb_unit.
Qed.

Lemma code_split n k E D size :
  mds n k E → (k ≤ n)%nat → length D = k → rect size D →
  code E D size = D ++ ((λ i, lincomb (nth i E []) D size) <$> seq k (n - k)).
Proof.
  intros HE Hkn Hl HD. apply list_eq. intros i.
  destruct (decide (i < k)%nat) as [Hi|Hi].
  - destruct (lookup_lt_is_Some_2 D i) as [d Hd]; [lia|].
    rewrite lookup_app_l, Hd by lia. by eapply code_systematic.
  - rewrite lookup_app_r, list_lookup_fmap, Hl by lia. unfold code. rewrite list_lookup_fmap.
    destruct (decide (i < n)%nat) as [Hn|Hn].
    + rewrite lookup_seq_lt by lia. destruct (lookup_lt_is_Some_2 E i) as [r Hr].
      { by rewrite (mds_length _ _ _ HE). }
      cbn. replace (k + (i - k))%nat with i by lia. by rewrite nth_lookup, Hr.
    + rewrite lookup_seq_ge, (lookup_ge_None_2 E) by (rewrite ?(mds_length _ _ _ HE); lia). done.
Qed.

Lemma length_code E D size : length (code E D size) = length E.
Proof. apply length_fmap. Qed.

Lemma code_rect E D size : rect size D → rect size (code E D size).
Proof. intros HD. apply Forall_fmap, Forall_forall. intros r _. by apply length_lincomb. Qed.

(** A row of the matrix times the data, as the loops compute it. *)
Lemma add_rows_entry {E} (m : Matrix) i r src (data : list shard) k size :
  m !! i = Some r → rect k m →
  (∀ j d, data !! j = Some d → src j = Ok d) → length data = k → rect size data →
  add_rows (E:=E) (entry m i) src (seq 0 k) (zeros size x00) = Ok (lincomb r data size).
Proof.
  intros Hi Hm Hs Hl HD. apply add_rows_product; [|done| |done|done].
  - intros j c Hj. unfold entry. rewrite (get_or_panic_Ok _ _ _ Hi). ocbn. by apply get_or_panic_Ok.
  - exact (rect_lookup _ _ _ _ Hm Hi).
Qed.

(** ** The cache *)

Definition cache_ok (c : MatrixCache) : Prop :=
  ∀ n k m, c !! (n, k) = Some m → build_encoding_matrix (Z.to_nat n) (Z.to_nat k) = Ok m.

(** A configuration the codec accepts, with a capacity that fits [usize]. *)
Record valid_cfg (cfg : ErasureConfig) : Prop := {
  vc_k : 0 < ec_k cfg < ec_n cfg;
  vc_n : ec_n cfg ≤ MAX_SHARDS;
  vc_size : 0 < ec_data_shard_size cfg;
  vc_cap : u64_ok (ec_k cfg * ec_data_shard_size cfg);
}.

Lemma validate_cfg_spec cfg :
  cfg_ok cfg →
  validate_cfg cfg = Ok () ↔
  0 < ec_k cfg < ec_n cfg ∧ ec_n cfg ≤ MAX_SHARDS ∧ 0 < ec_data_shard_size cfg.
Proof.
  intros (Hk & Hn & Hs). unfold uint_ok in *. unfold validate_cfg.
  destruct (Z.eqb_spec (ec_k cfg) 0), (Z.leb_spec (ec_n cfg) (ec_k cfg)),
    (Z.eqb_spec (ec_data_shard_size cfg) 0), (Z.ltb_spec MAX_SHARDS (ec_n cfg)); cbn;
    (split; [intros Hq; first [discriminate Hq|lia]|intros; first [reflexivity|lia]]).
Qed.

Lemma valid_validate cfg : valid_cfg cfg → validate_cfg cfg = Ok ().
Proof.
  intros [Hk Hn Hs _]. unfold validate_cfg.
  destruct (Z.eqb_spec (ec_k cfg) 0), (Z.leb_spec (ec_n cfg) (ec_k cfg)),
    (Z.eqb_spec (ec_data_shard_size cfg) 0), (Z.ltb_spec MAX_SHARDS (ec_n cfg));
    first [reflexivity|lia].
Qed.

Lemma valid_padded_len {E} cfg :
  valid_cfg cfg → padded_len (E:=E) cfg = Ok (ec_k cfg * ec_data_shard_size cfg).
Proof. intros Hc. apply mul_w_ok, Hc. Qed.

(** ** The cached matrix is the built one *)
Lemma cached_encoding_matrix_spec cfg c :
  valid_cfg cfg → cache_ok c →
  ∃ E c', cached_encoding_matrix cfg c = (Ok E, c') ∧ cache_ok c' ∧
    build_encoding_matrix (Z.to_nat (ec_n cfg)) (Z.to_nat (ec_k cfg)) = Ok E ∧
    mds (Z.to_nat (ec_n cfg)) (Z.to_nat (ec_k cfg)) E.
Proof.
  intros [Hk Hn Hs _] Hc. unfold MAX_SHARDS in Hn.
  destruct (build_encoding_matrix_mds (Z.to_nat (ec_n cfg)) (Z.to_nat (ec_k cfg)))
    as (E & HE & Hmds); [lia..|].
  unfold cached_encoding_matrix, mbind, M_bind, gets.
  destruct (c !! (ec_n cfg, ec_k cfg)) as [m|] eqn:Hm.
  - exists E, c. split; [|done]. apply Hc in Hm. rewrite HE in Hm.
    by injection Hm as <-.
  - unfold lift. rewrite HE. unfold modify, mret, M_ret. do 2 eexists.
    split; [done|]. split; [|done]. intros n k m'.
    destruct (decide ((n, k) = (ec_n cfg, ec_k cfg))) as [Heq|Hne].
    + rewrite Heq, lookup_insert_eq. intros [= <-]. injection Heq as -> ->. done.
    + rewrite lookup_insert_ne by done. apply Hc.
Qed.

(** ** Encoding *)

Lemma run_bind {E S A B} (m : M E S A) (f : A → M E S B) s a s' :
  m s = (Ok a, s') → (m ≫= f) s = f a s'.
Proof. unfold mbind, M_bind. by intros ->. Qed.
Lemma run_lift {E S A B} (m : outcome E A) (f : A → M E S B) s a :
  m = Ok a → (lift m ≫= f) s = f a s.
Proof. intros ->. done. Qed.

Section valid.
Context (cfg : ErasureConfig) (Hcfg : valid_cfg cfg).

Abbreviation k := (Z.to_nat (ec_k cfg)).
Abbreviation n := (Z.to_nat (ec_n cfg)).
Abbreviation sz := (Z.to_nat (ec_data_shard_size cfg)).
Abbreviation cap := (ec_k cfg * ec_data_shard_size cfg).

Lemma valid_nat : (0 < k)%nat ∧ (k < n)%nat ∧ (0 < sz)%nat ∧ Z.to_nat cap = (k * sz)%nat.
Proof using Hcfg. destruct Hcfg. repeat split; lia. Qed.

Definition padded (payload : shard) : shard :=
  payload ++ zeros (Z.to_nat cap - length payload) x00.
Definition data_rows (payload : shard) : list shard := chunks sz (padded payload).

Lemma data_rows_spec payload :
  length payload ≤ cap →
  length (data_rows payload) = k ∧ rect sz (data_rows payload) ∧
  mjoin (data_rows payload) = padded payload.
Proof using Hcfg.
  destruct valid_nat as (Hk & Hn & Hs & Hc). intros Hp. apply chunks_spec; [done|].
  unfold padded. rewrite length_app, length_replicate. lia.
Qed.

Lemma encode_parity_spec E (m : Matrix) (D : list shard) :
  mds n k m → length D = k → rect sz D →
  encode_parity_shards (E:=E) m k D (replicate (n - k) (zeros sz x00)) =
  Ok ((λ i, lincomb (nth i m []) D sz) <$> seq k (n - k)).
Proof using Hcfg.
  destruct valid_nat as (Hk & Hn & Hs & Hc). intros Hm Hl HD. unfold encode_parity_shards.
  rewrite length_replicate.
  rewrite (omap_list_pure _ (λ p, lincomb (nth (k + p.1) m []) D sz)).
  - f_equal. replace (seq k (n - k)) with (seq (k + 0) (n - k)) by (by rewrite Nat.add_0_r).
    rewrite <- fmap_add_seq.
    rewrite <- (fst_zip (seq 0 (n - k)) (replicate (n - k) (zeros sz x00))) at 2
      by (by rewrite length_seq, length_replicate).
    by rewrite <- !list_fmap_compose.
  - intros [i s] Hin. cbn. apply list_elem_of_lookup in Hin as (j & Hj).
    apply lookup_zip_Some in Hj as [Hi Hz]. apply lookup_seq in Hi as [-> Hi].
    apply lookup_replicate in Hz as [-> _]. rewrite length_replicate.
    destruct (lookup_lt_is_Some_2 m (k + (0 + j))) as [r Hr].
    { rewrite (mds_length _ _ _ Hm). lia. }
    rewrite (nth_lookup_Some _ _ _ _ Hr).
    apply add_rows_entry; [done|apply Hm| |done|done]. intros ? d. apply get_or_panic_Ok.
Qed.

Lemma encode_shards_spec payload c :
  cache_ok c → length payload ≤ cap →
  ∃ m c', encode_shards payload cfg c = (Ok (code m (data_rows payload) sz), c') ∧
    cache_ok c' ∧ mds n k m ∧ build_encoding_matrix n k = Ok m.
Proof using Hcfg.
  intros Hc Hp. destruct valid_nat as (Hk & Hn & Hs & Hcap).
  destruct (data_rows_spec payload Hp) as (Hl & HD & _).
  destruct (cached_encoding_matrix_spec cfg c Hcfg Hc) as (m & c' & Hm & Hc' & Hb & Hmds).
  exists m, c'. split; [|done]. unfold encode_shards.
  rewrite (run_lift _ _ _ _ (valid_validate _ Hcfg)).
  rewrite (run_lift _ _ _ _ (valid_padded_len _ Hcfg)).
  rewrite (proj2 (Z.ltb_ge _ _)) by done. rewrite (run_bind _ _ _ _ _ Hm).
  assert (Hpad : pad_to_k_shards (E:=ErasureError) payload cfg = Ok (padded payload)).
  { unfold pad_to_k_shards. rewrite (valid_padded_len _ Hcfg). ocbn.
    by rewrite bool_decide_false by lia. }
  rewrite (run_lift _ _ _ _ Hpad). fold (data_rows payload).
  rewrite resize_ge, Hl by lia.
  rewrite take_app_length', drop_app_length' by done.
  rewrite (run_lift _ _ _ _ (encode_parity_spec _ m _ Hmds Hl HD)).
  rewrite (code_split n k) by (done || lia). done.
Qed.

(** ** Placing the shards *)

Definition in_range (p : Z * shard) : Prop :=
  (Z.to_nat p.1 < n)%nat ∧ Z.of_nat (length p.2) = ec_data_shard_size cfg.
#[global] Instance in_range_dec p : Decision (in_range p).
Proof. unfold in_range. apply _. Defined.

Lemma place_shards_spec present ss :
  length ss = n →
  match place_shards cfg present ss with
  | Ok ss' =>
      Forall in_range present ∧ length ss' = n ∧
      (∀ i d, ss' !! i = Some (Some d) →
         ss !! i = Some (Some d) ∨ ∃ z, (z, d) ∈ present ∧ Z.to_nat z = i) ∧
      (∀ i, is_Some (mjoin (ss !! i)) → is_Some (mjoin (ss' !! i))) ∧
      (∀ z d, (z, d) ∈ present → is_Some (mjoin (ss' !! Z.to_nat z)))
  | Err e => ¬ Forall in_range present ∧
      (e = EConfig "shard index out of range" ∨ e = EConfig "unexpected shard length")
  | _ => False
  end.
Proof.
  revert ss. induction present as [|[z d] present IH]; intros ss Hl; cbn [place_shards].
  { split; [constructor|]. split; [done|]. split; [auto|]. split; [done|].
    intros z d Hzd. by apply not_elem_of_nil in Hzd. }
  case_bool_decide as Hidx.
  { split; [|auto]. intros [[Hr _] _]%Forall_cons. cbn in Hr. lia. }
  case_bool_decide as Hlen.
  { split; [|auto]. intros [[_ Hr] _]%Forall_cons. done. }
  specialize (IH (<[Z.to_nat z := Some d]> ss)). rewrite length_insert in IH. specialize (IH Hl).
  destruct (place_shards _ _ _) as [ss'|e| |]; [| |exact IH..].
  - destruct IH as (Hf & Hl' & Hfrom & Hkeep & Hall).
    split; [|split; [done|split; [|split]]].
    + constructor; [|done]. split; cbn; lia.
    + intros i d' [Hi|(z' & Hz' & <-)]%Hfrom.
      * destruct (decide (i = Z.to_nat z)) as [->|Hne].
        -- rewrite list_lookup_insert_eq in Hi by lia. injection Hi as <-.
           right. exists z. split; [by left|done].
        -- rewrite list_lookup_insert_ne in Hi by done. by left.
      * right. exists z'. split; [by right|done].
    + intros i Hi. apply Hkeep. destruct (decide (i = Z.to_nat z)) as [->|Hne].
      * rewrite list_lookup_insert_eq by lia. by eexists.
      * by rewrite list_lookup_insert_ne.
    + intros z' d' [[= -> ->]|Hin]%elem_of_cons; [|by eapply Hall].
      apply Hkeep. rewrite list_lookup_insert_eq by lia. by eexists.
  - split; [|apply IH]. intros [_ Hf]%Forall_cons. by apply (proj1 IH).
Qed.
End valid.

(** ** The present shards *)

Lemma present_from s (ss : list (option shard)) :
  let l := omap (λ p : nat * option shard, match p.2 with Some _ => Some p.1 | None => None end)
    (zip (seq s (length ss)) ss) in
  NoDup l ∧ ∀ i, i ∈ l ↔ (s ≤ i)%nat ∧ is_Some (mjoin (ss !! (i - s)%nat)).
Proof.
  cbv zeta. revert s. induction ss as [|o ss IH]; intros s.
  { cbn. split; [constructor|]. intros i. split; [by intros ?%not_elem_of_nil|].
    by intros (_ & ? & ?). }
  destruct (IH (S s)) as [Hnd Hin].
  assert (Hi : ∀ i, (s ≤ i)%nat ∧ is_Some (mjoin ((o :: ss) !! (i - s)%nat)) ↔
                    (i = s ∧ is_Some o) ∨ ((S s ≤ i)%nat ∧ is_Some (mjoin (ss !! (i - S s)%nat)))).
  { intros i. destruct (decide (i = s)) as [->|Hne].
    - rewrite Nat.sub_diag. split; [intros [_ ?]; by left|].
      intros [[_ ?]|[? _]]; [by split|lia].
    - destruct (decide (s ≤ i)%nat) as [Hle|]; [|split; [lia|]; intros [[? _]|[? _]]; lia].
      replace (i - s)%nat with (S (i - S s)) by lia. cbn. split; [|intros [[? _]|[_ ?]]; done || auto].
      intros [_ Hs]. right. split; [lia|done]. }
  setoid_rewrite Hi. cbn [length seq zip_with zip omap list_omap].
  destruct o as [d|]; cbn.
  - split.
    + constructor; [|exact Hnd]. intros [? _]%Hin. lia.
    + intros i. rewrite elem_of_cons, Hin. split.
      * intros [->|?]; [left; split; [done|by eexists]|by right].
      * intros [[-> _]|?]; [by left|by right].
  - split; [exact Hnd|]. intros i. rewrite Hin. split; [by right|].
    intros [[_ [? ?]]|?]; done.
Qed.

Lemma present_NoDup ss : NoDup (present_indices ss).
Proof. apply (present_from 0). Qed.
Lemma present_elem ss i : i ∈ present_indices ss ↔ ∃ d, ss !! i = Some (Some d).
Proof.
  unfold present_indices. rewrite (proj2 (present_from 0 ss)), Nat.sub_0_r. split.
  - intros (_ & d & Hd). destruct (ss !! i) as [[d'|]|]; cbn in Hd; [eauto|done..].
  - intros (d & Hd). rewrite Hd. split; [lia|by eexists].
Qed.

(** ** Reconstruction *)

Section decoding.
Context (cfg : ErasureConfig) (Hcfg : valid_cfg cfg).

Abbreviation k := (Z.to_nat (ec_k cfg)).
Abbreviation n := (Z.to_nat (ec_n cfg)).
Abbreviation sz := (Z.to_nat (ec_data_shard_size cfg)).

Definition sized (ss : list (option shard)) : Prop :=
  ∀ i d, ss !! i = Some (Some d) → length d = sz.

(** The rows and shards the decoder solves for. *)
Definition used (ss : list (option shard)) : list nat := take k (present_indices ss).
Definition sources (ss : list (option shard)) : list shard :=
  (λ i, default [] (mjoin (ss !! i))) <$> used ss.
Definition used_rows (m : Matrix) (ss : list (option shard)) : Matrix :=
  (λ r, nth r m []) <$> used ss.
Definition solution (inv : Matrix) (ss : list (option shard)) : list shard :=
  (λ r, lincomb r (sources ss) sz) <$> inv.

Lemma used_lookup ss t i :
  used ss !! t = Some i → ∃ d, ss !! i = Some (Some d) ∧ sources ss !! t = Some d.
Proof.
  intros Ht. assert (Hi : i ∈ present_indices ss).
  { apply list_elem_of_lookup. exists t. unfold used in Ht.
    apply lookup_take_Some in Ht. apply Ht. }
  apply present_elem in Hi as [d Hd]. exists d. split; [done|].
  unfold sources. by rewrite list_lookup_fmap, Ht; cbn; rewrite Hd.
Qed.

Lemma sources_rect ss : sized ss → rect sz (sources ss).
Proof.
  intros Hss. unfold sources. apply Forall_fmap, Forall_lookup. intros t i Ht. cbn.
  destruct (used_lookup _ _ _ Ht) as (d & Hd & _). rewrite Hd. cbn. by eapply Hss.
Qed.

Lemma length_used ss : (k ≤ length (present_indices ss))%nat → length (used ss) = k.
Proof. intros. unfold used. rewrite length_take. lia. Qed.

Lemma used_invertible m ss :
  mds n k m → length ss = n → (k ≤ length (present_indices ss))%nat →
  submatrix (E:=ErasureError) m (used ss) = Ok (used_rows m ss) ∧
  ∃ inv, invert_matrix (used_rows m ss) = Ok inv ∧ inverts k inv (used_rows m ss).
Proof using Hcfg.
  intros Hm Hl Hk. destruct (valid_nat cfg Hcfg) as (Hk0 & _).
  assert (Hr : Forall (λ r, r < n)%nat (used ss)).
  { apply Forall_lookup. intros t i (d & Hd & _)%used_lookup.
    apply lookup_lt_Some in Hd. lia. }
  assert (Hr' : Forall (λ r, r < length m)%nat (used ss)) by (by rewrite (mds_length _ _ _ Hm)).
  split; [by apply submatrix_spec|]. apply invert_matrix_Ok; [lia|split|].
  - unfold used_rows. by rewrite length_fmap, length_used.
  - apply Forall_fmap. eapply Forall_impl; [exact Hr'|]. cbn. intros r Hrm.
    destruct (lookup_lt_is_Some_2 m r Hrm) as [row Hrow].
    rewrite (nth_lookup_Some _ _ _ _ Hrow). exact (rect_lookup _ _ _ _ (mds_rect _ _ _ Hm) Hrow).
  - apply (mds_any _ _ _ Hm); [|by apply length_used|done].
    unfold used. eapply sublist_NoDup; [apply present_NoDup|apply sublist_take].
Qed.

Lemma reconstruct_spec ss c :
  cache_ok c → length ss = n → sized ss → (k ≤ length (present_indices ss))%nat →
  ∃ m c' inv,
    reconstruct_shards ss cfg c = (Ok (Some <$> code m (solution inv ss) sz), c') ∧
    cache_ok c' ∧ mds n k m ∧ build_encoding_matrix n k = Ok m ∧
    inverts k inv (used_rows m ss).
Proof using Hcfg.
  intros Hc Hl Hss Hk. destruct (valid_nat cfg Hcfg) as (Hk0 & Hkn & Hs0 & _).
  destruct (cached_encoding_matrix_spec cfg c Hcfg Hc) as (m & c' & Hm & Hc' & Hb & Hmds).
  destruct (used_invertible m ss Hmds Hl Hk) as (Hsub & inv & Hinv & Hinvs).
  exists m, c', inv. split; [|done].
  pose proof (sources_rect ss Hss) as Hsrc.
  assert (Hsl : length (sources ss) = k) by (unfold sources; by rewrite length_fmap, length_used).
  assert (Hil : length inv = k) by apply Hinvs.
  assert (Hsol : length (solution inv ss) = k) by (unfold solution; by rewrite length_fmap).
  assert (Hsolr : rect sz (solution inv ss)).
  { apply Forall_fmap, Forall_forall. intros r _. by apply length_lincomb. }
  assert (Hsome : ∀ j, (j < n)%nat → ∃ s, ss !! j = Some s ∧ length (or_zeros sz s) = sz).
  { intros j Hj. destruct (lookup_lt_is_Some_2 ss j) as [s Hs]; [lia|]. exists s. split; [done|].
    destruct s as [d|]; cbn; [by eapply Hss|apply length_replicate]. }
  unfold reconstruct_shards. rewrite (run_bind _ _ _ _ _ Hm), bool_decide_false by lia.
  fold (used ss). rewrite (run_lift _ _ _ _ Hsub).
  rewrite (run_lift _ _ _ inv) by (by rewrite Hinv).
  rewrite (run_lift _ _ _ (solution inv ss)).
  2:{ rewrite (omap_list_pure _ (λ j, lincomb (nth j inv []) (sources ss) sz)).
      - f_equal. rewrite <- Hil. apply (fmap_nth_rows [] (λ r, lincomb r (sources ss) sz)).
      - intros j [_ Hj]%elem_of_seq. destruct (lookup_lt_is_Some_2 inv j) as [r Hr]; [lia|].
        rewrite (nth_lookup_Some _ _ _ _ Hr).
        apply add_rows_entry; [done|apply Hinvs| |done|done].
        intros t d Ht. assert (Htk : (t < k)%nat) by (rewrite <- Hsl; by eapply lookup_lt_Some).
        destruct (lookup_lt_is_Some_2 (used ss) t) as [i Hi]; [by rewrite length_used|].
        rewrite (get_or_panic_Ok _ _ _ Hi). ocbn.
        destruct (used_lookup _ _ _ Hi) as (d' & Hd' & Hs'). rewrite Ht in Hs'.
        injection Hs' as <-. unfold present_shard. by rewrite (get_or_panic_Ok _ _ _ Hd'). }
  rewrite (run_lift _ _ _ (Some <$> solution inv ss)).
  2:{ rewrite (omap_list_pure _ (λ j, Some (nth j (solution inv ss) []))).
      - f_equal. rewrite <- Hsol at 1. apply (fmap_nth_rows [] Some).
      - intros j [_ Hj]%elem_of_seq. destruct (Hsome j) as (s & Hs & Hsz); [lia|].
        rewrite (get_or_panic_Ok _ _ _ Hs). ocbn.
        destruct (lookup_lt_is_Some_2 (solution inv ss) j) as [d Hd]; [lia|].
        rewrite (get_or_panic_Ok _ _ _ Hd), (nth_lookup_Some _ _ _ _ Hd). ocbn.
        rewrite bool_decide_false; [done|]. rewrite Hsz, (rect_lookup _ _ _ _ Hsolr Hd). by intros []. }
  rewrite Hl.
  rewrite (run_lift _ _ _ (Some <$> ((λ i, lincomb (nth i m []) (solution inv ss) sz) <$> seq k (n - k)))).
  - rewrite (code_split n k) by (done || lia). by rewrite fmap_app.
  - rewrite (omap_list_pure _ (λ i, Some (lincomb (nth i m []) (solution inv ss) sz))).
    { by rewrite <- list_fmap_compose. }
    intros i [Hki Hi]%elem_of_seq. destruct (Hsome i) as (s & Hs & Hsz); [lia|].
    rewrite (get_or_panic_Ok _ _ _ Hs). ocbn. rewrite Hsz.
    destruct (lookup_lt_is_Some_2 m i) as [r Hr]; [rewrite (mds_length _ _ _ Hmds); lia|].
    rewrite (nth_lookup_Some _ _ _ _ Hr).
    rewrite (add_rows_entry m i r _ (solution inv ss) k sz); [done|done|apply Hmds| |done|done].
    intros ? d. apply get_or_panic_Ok.
Qed.

(** The solution is the data, when the present shards come from the data. *)
Lemma solution_unique m ss inv D :
  mds n k m → inverts k inv (used_rows m ss) → (k ≤ length (present_indices ss))%nat →
  length D = k → rect sz D →
  (∀ i d, ss !! i = Some (Some d) → code m D sz !! i = Some d) →
  solution inv ss = D.
Proof.
  intros Hm ([Hil Hir] & _ & Hinv) Hk Hl HD Hcode.
  assert (Hsrc : sources ss = (λ r, lincomb r D sz) <$> used_rows m ss).
  { apply list_eq. intros t. unfold used_rows. rewrite !list_lookup_fmap.
    destruct (used ss !! t) as [i|] eqn:Hi; cbn.
    - destruct (used_lookup _ _ _ Hi) as (d & Hd & Hs). rewrite Hs.
      specialize (Hcode _ _ Hd). unfold code in Hcode. rewrite list_lookup_fmap in Hcode.
      destruct (m !! i) as [r|] eqn:Hr; [|done]. by rewrite (nth_lookup_Some _ _ _ _ Hr).
    - unfold sources. by rewrite list_lookup_fmap, Hi. }
  apply list_eq. intros i. unfold solution. rewrite list_lookup_fmap.
  destruct (inv !! i) as [r|] eqn:Hr; cbn.
  - assert (Hur : rect k (used_rows m ss)).
    { apply Forall_fmap, Forall_lookup. intros t j Ht. cbn.
      destruct (used_lookup _ _ _ Ht) as (d & Hd & _). specialize (Hcode _ _ Hd).
      unfold code in Hcode. rewrite list_lookup_fmap in Hcode.
      destruct (m !! j) as [row|] eqn:Hrow; [|done]. rewrite (nth_lookup_Some _ _ _ _ Hrow).
      exact (rect_lookup _ _ _ _ (mds_rect _ _ _ Hm) Hrow). }
    rewrite Hsrc, <- (lincomb_assoc r _ D k sz), (Hinv _ _ Hr) by done.
    pose proof (lookup_lt_Some _ _ _ Hr).
    destruct (lookup_lt_is_Some_2 D i) as [d Hd]; [lia|].
    by rewrite Hd, (lincomb_unit k i D sz d).
  - symmetry. apply lookup_ge_None. apply lookup_ge_None in Hr. lia.
Qed.

(** ** Decoding *)

Definition distinct (present : list (Z * shard)) : list nat :=
  remove_dups ((λ p, Z.to_nat p.1) <$> present).

(** What the decoder needs: shards of the right size and index, [k] of them distinct. *)
Definition decodable (present : list (Z * shard)) : Prop :=
  Forall (in_range cfg) present ∧ (k ≤ length (distinct present))%nat.
#[global] Instance decodable_dec present : Decision (decodable present).
Proof. unfold decodable. apply _. Defined.

Lemma length_distinct present : (length (distinct present) ≤ length present)%nat.
Proof.
  unfold distinct. rewrite <- (length_fmap (λ p : Z * shard, Z.to_nat p.1) present).
  generalize ((λ p : Z * shard, Z.to_nat p.1) <$> present) as l.
  induction l as [|a l IH]; cbn; [done|]. case_decide; cbn; lia.
Qed.

(** The vector after the placing loop. *)
Lemma placed present ss' :
  place_shards cfg present (replicate n None) = Ok ss' →
  Forall (in_range cfg) present ∧ length ss' = n ∧ sized ss' ∧
  (∀ i d, ss' !! i = Some (Some d) → ∃ z, (z, d) ∈ present ∧ Z.to_nat z = i) ∧
  length (present_indices ss') = length (distinct present).
Proof.
  intros Hp. pose proof (place_shards_spec cfg present (replicate n None)) as Hs.
  rewrite Hp in Hs. destruct Hs as (Hf & Hl & Hfrom & _ & Hall); [apply length_replicate|].
  assert (Hfrom' : ∀ i d, ss' !! i = Some (Some d) → ∃ z, (z, d) ∈ present ∧ Z.to_nat z = i).
  { intros i d [Hr|?]%Hfrom; [|done]. by apply lookup_replicate in Hr as [? _]. }
  split; [done|]. split; [done|]. split; [|split; [done|]].
  - intros i d (z & Hz & _)%Hfrom'. rewrite Forall_forall in Hf. destruct (Hf _ Hz) as [_ He].
    cbn in He. lia.
  - apply Permutation_length, NoDup_Permutation; [apply present_NoDup|apply NoDup_remove_dups|].
    intros i. unfold distinct. rewrite present_elem, elem_of_remove_dups, list_elem_of_fmap. split.
    + intros (d & (z & Hz & <-)%Hfrom'). exists (z, d). done.
    + intros ([z d] & -> & Hz). destruct (Hall _ _ Hz) as [d' Hd']. cbn. exists d'.
      destruct (ss' !! Z.to_nat z) as [[d''|]|] eqn:Hz'; cbn in Hd'; [|done..].
      by injection Hd' as ->.
Qed.

Lemma placed_ok present :
  Forall (in_range cfg) present →
  ∃ ss', place_shards cfg present (replicate n None) = Ok ss'.
Proof.
  intros Hf.
  pose proof (place_shards_spec cfg present (replicate n None) (length_replicate _ _)) as Hs.
  destruct (place_shards _ _ _) as [ss'|e| |]; [by eexists|by destruct (proj1 Hs Hf)|destruct Hs..].
Qed.

Lemma decode_shards_run present orig_len c :
  cache_ok c → decodable present →
  ∃ m ss inv c', decode_shards present cfg orig_len c =
      (Ok (take (Z.to_nat orig_len) (mjoin (solution inv ss))), c') ∧
    cache_ok c' ∧ mds n k m ∧ build_encoding_matrix n k = Ok m ∧
    place_shards cfg present (replicate n None) = Ok ss ∧
    inverts k inv (used_rows m ss) ∧ (k ≤ length (present_indices ss))%nat ∧ sized ss.
Proof using Hcfg.
  intros Hc [Hf Hd]. destruct (valid_nat cfg Hcfg) as (Hk0 & Hkn & Hs0 & _).
  destruct (placed_ok present Hf) as [ss Hss].
  destruct (placed present ss Hss) as (_ & Hl & Hsz & _ & Hlen).
  destruct (reconstruct_spec ss c Hc Hl Hsz) as (m & c' & inv & Hr & Hc' & Hm & Hb & Hinv); [lia|].
  exists m, ss, inv, c'. split; [|by rewrite Hlen].
  pose proof (length_distinct present). unfold decode_shards.
  rewrite (run_lift _ _ _ _ (valid_validate _ Hcfg)), bool_decide_false by lia.
  rewrite (run_lift _ _ _ _ Hss), (run_bind _ _ _ _ _ Hr).
  rewrite (run_lift _ _ _ _ (valid_padded_len _ Hcfg)).
  rewrite (run_lift _ _ _ (solution inv ss)); [done|].
  assert (Hsol : length (solution inv ss) = k).
  { unfold solution. rewrite length_fmap. apply Hinv. }
  assert (Hsolr : rect sz (solution inv ss)).
  { apply Forall_fmap, Forall_forall. intros r _. by apply length_lincomb, sources_rect. }
  rewrite (omap_list_pure _ (λ j, nth j (solution inv ss) [])).
  { f_equal. rewrite <- Hsol. apply fmap_nth_seq. }
  intros j [_ Hj]%elem_of_seq. destruct (lookup_lt_is_Some_2 (solution inv ss) j) as [d Hdj]; [lia|].
  rewrite (nth_lookup_Some _ _ _ _ Hdj). unfold present_shard.
  rewrite (get_or_panic_Ok _ j (Some d)); [done|].
  rewrite list_lookup_fmap. by rewrite (code_systematic n k m (solution inv ss) sz j d).
Qed.

(** On anything else it fails with a configuration error. *)
Lemma decode_shards_fail present orig_len c :
  cache_ok c → ¬ decodable present →
  ∃ why c', decode_shards present cfg orig_len c = (Err (EConfig why), c') ∧ cache_ok c'.
Proof using Hcfg.
  intros Hc Hnd. destruct (valid_nat cfg Hcfg) as (Hk0 & Hkn & Hs0 & _). unfold decode_shards.
  rewrite (run_lift _ _ _ _ (valid_validate _ Hcfg)).
  case_bool_decide as Hlen; [by do 2 eexists|].
  pose proof (place_shards_spec cfg present (replicate n None) (length_replicate _ _)) as Hp.
  destruct (place_shards _ _ _) as [ss|e| |] eqn:Hss; [| |destruct Hp..].
  - destruct (placed present ss Hss) as (Hf & Hl & Hsz & _ & Hcount).
    destruct (cached_encoding_matrix_spec cfg c Hcfg Hc) as (m & c' & Hm & Hc' & _).
    rewrite (run_lift _ _ _ ss) by done. unfold reconstruct_shards.
    eexists _, c'. split; [|done]. unfold mbind, M_bind. rewrite Hm.
    rewrite bool_decide_true; [done|]. rewrite Hcount.
    destruct (decide (k ≤ length (distinct present))%nat); [|lia]. by destruct Hnd.
  - destruct Hp as [_ [-> | ->]]; by do 2 eexists.
Qed.

(** The shards of a payload decode to it. *)
Lemma decode_code m payload present c :
  cache_ok c → length payload ≤ ec_k cfg * ec_data_shard_size cfg →
  build_encoding_matrix n k = Ok m → mds n k m →
  (∀ z d, (z, d) ∈ present → code m (data_rows cfg payload) sz !! Z.to_nat z = Some d) →
  (k ≤ length (distinct present))%nat →
  ∃ c', decode_shards present cfg (length payload) c = (Ok payload, c') ∧ cache_ok c'.
Proof using Hcfg.
  intros Hc Hp Hb Hm Hsub Hd. destruct (data_rows_spec cfg Hcfg payload Hp) as (Hl & HD & Hj).
  set (D := data_rows cfg payload) in *.
  assert (Hdec : decodable present).
  { split; [|done]. apply Forall_forall. intros [z d] Hzd. specialize (Hsub _ _ Hzd). split; cbn.
    - apply lookup_lt_Some in Hsub. rewrite length_code, (mds_length _ _ _ Hm) in Hsub. done.
    - rewrite (rect_lookup _ _ _ _ (code_rect m D _ HD) Hsub). destruct Hcfg. lia. }
  destruct (decode_shards_run present (length payload) c Hc Hdec)
    as (m' & ss & inv & c' & Hrun & Hc' & Hm' & Hb' & Hss & Hinv & Hk & Hsz).
  exists c'. split; [|done]. rewrite Hrun. do 2 f_equal.
  assert (m' = m) as -> by congruence.
  destruct (placed present ss Hss) as (_ & _ & _ & Hfrom & _).
  rewrite (solution_unique m ss inv D); [|done..|].
  - rewrite Hj, Nat2Z.id. unfold padded. by rewrite take_app_length'.
  - intros i d (z & Hz & <-)%Hfrom. by apply Hsub.
Qed.

(** What the decoder returns is never longer than the capacity. *)
Lemma length_mjoin (D : list shard) size : rect size D → length (mjoin D) = (length D * size)%nat.
Proof.
  induction 1 as [|d D Hd _ IH]; [done|].
  change (length (d ++ mjoin D) = (S (length D) * size)%nat). rewrite length_app. lia.
Qed.

Lemma length_decoded orig_len ss inv m :
  0 ≤ orig_len → sized ss → inverts k inv (used_rows m ss) →
  Z.of_nat (length (take (Z.to_nat orig_len) (mjoin (solution inv ss)))) =
  orig_len `min` (ec_k cfg * ec_data_shard_size cfg).
Proof using Hcfg.
  intros Ho Hsz Hinv. destruct Hcfg. rewrite length_take, (length_mjoin _ sz).
  - unfold solution. rewrite length_fmap, (proj1 (proj1 Hinv)).
    rewrite Nat2Z.inj_min, Nat2Z.inj_mul, !Z2Nat.id by lia. done.
  - apply Forall_fmap, Forall_forall. intros r _. by apply length_lincomb, sources_rect.
Qed.
End decoding.
End codec.

Lemma cache_ok_empty : cache_ok ∅.
Proof. intros n k m. by rewrite lookup_empty. Qed.

(** ** Properties *)

(** Gauss-Jordan elimination over GF(2^8) ([invert_matrix]) answers on every
    matrix, without indexing out of range: [Ok] with an inverse exactly when the
    matrix is square and only zero is orthogonal to its rows, "matrix must be
    square" exactly when it is empty or not square, and "matrix is singular"
    exactly when a non-zero vector is orthogonal to all rows of a square one. *)
Theorem invert_matrix_spec (mat : Matrix) :
  let n := length mat in
  (∀ R, invert_matrix mat = Ok R →
     square n R ∧ ∀ i r, R !! i = Some r → lincomb r mat n = unit n i) ∧
  ((∃ R, invert_matrix mat = Ok R) ↔ n ≠ 0%nat ∧ square n mat ∧ kernel_free n mat) ∧
  (invert_matrix mat = Err "matrix must be square" ↔ n = 0%nat ∨ ¬ square n mat) ∧
  (invert_matrix mat = Err "matrix is singular" ↔
     n ≠ 0%nat ∧ square n mat ∧ singular n mat).
Proof.
  cbv zeta. pose proof (invert_matrix_answer mat) as Ha. cbv zeta in Ha.
  pose proof (singular_kernel (length mat) mat) as Hsk.
  destruct (invert_matrix mat) as [R|e| |]; [| |destruct Ha..].
  - destruct Ha as (Hn & Hsq & Hk & HsqR & _ & Hinv).
    split; [by intros ? [= <-]|]. split; [split; [done|by eexists]|].
    split; split; [done|by intros [?|?]|done|]. intros (_ & _ & Hs). by destruct (Hsk Hk).
  - split; [done|]. destruct Ha as [(-> & Hns)|(-> & Hn & Hsq & Hs)].
    + split; [split; [by intros [? ?]|intros (? & ? & _); tauto]|].
      split; split; [done|done|done|intros (? & ? & _); tauto].
    + split; [split; [by intros [? ?]|intros (_ & _ & Hk); by destruct (Hsk Hk)]|].
      split; split; [done|intros [?|?]; done|done|done].
Qed.

(** For [0 < k <= n <= 256] the encoding matrix can always be built (the top
    of the Vandermonde matrix is never singular); it is systematic, and any [k]
    of its [n] rows determine their coefficients, so that a blob survives the
    loss of any [n - k] shards. *)
Theorem encoding_matrix_systematic_mds (n k : nat) :
  (0 < k ≤ n)%nat → (n ≤ 256)%nat →
  ∃ E, build_encoding_matrix n k = Ok E ∧ length E = n ∧ rect k E ∧
    take k E = unit k <$> seq 0 k ∧
    ∀ rows, NoDup rows → length rows = k → Forall (λ r, r < n)%nat rows →
      ∃ sub R, submatrix (E:=ErasureError) E rows = Ok sub ∧ invert_matrix sub = Ok R.
Proof.
  intros Hk Hn. destruct (build_encoding_matrix_mds n k) as (E & HE & Hmds); [lia..|].
  exists E. split; [done|]. split; [apply Hmds|]. split; [apply Hmds|]. split.
  - apply list_eq. intros i. rewrite list_lookup_fmap. destruct (decide (i < k)%nat) as [Hi|Hi].
    + rewrite lookup_take_lt, lookup_seq_lt by done. by apply (mds_systematic _ _ _ Hmds).
    + rewrite lookup_take_ge, lookup_seq_ge by lia. done.
  - intros rows Hnd Hl Hr. eexists.
    assert (Hr' : Forall (λ r, r < length E)%nat rows) by (by rewrite (mds_length _ _ _ Hmds)).
    destruct (invert_matrix_Ok k ((λ r, nth r E []) <$> rows)) as (R & HR & _).
    + lia.
    + split; [by rewrite length_fmap|]. apply Forall_fmap. eapply Forall_impl; [exact Hr'|].
      cbn. intros r Hri. destruct (lookup_lt_is_Some_2 E r Hri) as [row Hrow].
      rewrite (nth_lookup_Some _ _ _ _ Hrow). exact (rect_lookup _ _ _ _ (mds_rect _ _ _ Hmds) Hrow).
    + by apply (mds_any _ _ _ Hmds).
    + exists R. split; [by apply submatrix_spec|done].
Qed.

Lemma encoding_matrix_systematic_mds_witness :
  ∃ E, build_encoding_matrix 6 4 = Ok E ∧ length E = 6%nat.
Proof.
  destruct (encoding_matrix_systematic_mds 6 4 ltac:(lia) ltac:(lia)) as (E & HE & Hl & _).
  exists E. split; [exact HE|exact Hl].
Defined.

Section properties.
Context `{Build}.

(** [C28] Erasure coding round trip: a payload within the capacity is always
    encoded, into [n] shards of the configured size the first [k] of which are
    the padded payload; and from any [k] distinct shards of these (in any
    order, with repetitions), whatever the state of the matrix cache,
    [decode_shards] returns the payload. *)
Theorem erasure_roundtrip cfg payload c :
  valid_cfg cfg → cache_ok c →
  length payload ≤ ec_k cfg * ec_data_shard_size cfg →
  ∃ shards c1, encode_shards payload cfg c = (Ok shards, c1) ∧ cache_ok c1 ∧
    length shards = Z.to_nat (ec_n cfg) ∧
    Forall (λ s, length s = Z.to_nat (ec_data_shard_size cfg)) shards ∧
    mjoin (take (Z.to_nat (ec_k cfg)) shards) = padded cfg payload ∧
    ∀ present c2, cache_ok c2 →
      (∀ z d, (z, d) ∈ present → shards !! Z.to_nat z = Some d) →
      (Z.to_nat (ec_k cfg) ≤ length (distinct present))%nat →
      ∃ c3, decode_shards present cfg (length payload) c2 = (Ok payload, c3) ∧ cache_ok c3.
Proof.
  intros Hcfg Hc Hp. destruct (valid_nat cfg Hcfg) as (Hk0 & Hkn & Hs0 & Hcap).
  destruct (data_rows_spec cfg Hcfg payload Hp) as (Hl & HD & Hj).
  destruct (encode_shards_spec cfg Hcfg payload c Hc Hp) as (m & c1 & He & Hc1 & Hm & Hb).
  set (D := data_rows cfg payload) in *.
  exists (code m D (Z.to_nat (ec_data_shard_size cfg))), c1.
  split; [done|]. split; [done|].
  split; [rewrite length_code; apply Hm|]. split; [by apply code_rect|].
  split; [rewrite (code_split (Z.to_nat (ec_n cfg)) (Z.to_nat (ec_k cfg))) by (done || lia);
          by rewrite take_app_length'|].
  intros present c2 Hc2 Hsub Hd. by apply (decode_code cfg Hcfg m).
Qed.

(** The decoder answers on every input, in any state of the cache: it
    returns bytes exactly when the configuration is valid, every given shard
    has an index below [n] and the configured size, and [k] of the indices are
    distinct; the result has the asked length, cut to the capacity.  Everything
    else is an [ErasureError::Config], never a panic and never
    [ErasureError::Codec]: the linear systems it solves are always regular. *)
Theorem decode_shards_answers cfg present orig_len c :
  cfg_ok cfg → u64_ok (ec_k cfg * ec_data_shard_size cfg) → u64_ok orig_len → cache_ok c →
  let r := (decode_shards present cfg orig_len c).1 in
  ((∃ out, r = Ok out) ↔ validate_cfg cfg = Ok () ∧ decodable cfg present) ∧
  (∀ out, r = Ok out →
     Z.of_nat (length out) = orig_len `min` (ec_k cfg * ec_data_shard_size cfg)) ∧
  ((∃ out, r = Ok out) ∨ ∃ why, r = Err (EConfig why)) ∧
  cache_ok (decode_shards present cfg orig_len c).2.
Proof.
  intros Hok Hcap Hlen Hc. cbv zeta. destruct (validate_cfg cfg) as [[]|e| |] eqn:Hv.
  2:{ unfold decode_shards. unfold mbind at 1 2 3 4 5, M_bind, lift. rewrite Hv. cbn.
      split; [by split; [intros [? ?]|intros [? _]]|]. split; [done|]. split; [|done].
      right. unfold validate_cfg in Hv. repeat case_match; try done; injection Hv as <-; by eexists. }
  2-3: unfold validate_cfg in Hv; repeat case_match; done.
  apply validate_cfg_spec in Hv as (Hk & Hn & Hs); [|done].
  assert (Hcfg : valid_cfg cfg) by done.
  destruct (decide (decodable cfg present)) as [Hd|Hd].
  - destruct (decode_shards_run cfg Hcfg present orig_len c Hc Hd)
      as (m & ss & inv & c' & Hrun & Hc' & Hm & _ & Hss & Hinv & Hkl & Hsz).
    rewrite Hrun. cbn. split; [split; [done|by eexists]|]. split; [|split; [left; by eexists|done]].
    intros ? [= <-]. destruct Hlen. by apply (length_decoded cfg Hcfg orig_len ss inv m).
  - destruct (decode_shards_fail cfg Hcfg present orig_len c Hc Hd) as (why & c' & Hrun & Hc').
    rewrite Hrun. cbn. split; [split; [by intros [? ?]|by intros [_ ?]]|].
    split; [done|]. split; [right; by eexists|done].
Qed.
End properties.

(** ** Witnesses *)

#[local] Instance w_build : Build := true.
Definition w_cfg : ErasureConfig := MkErasureConfig 2 4 3.
Definition w_payload : shard := [x01; xff; x07; x80; x33].
Lemma w_cfg_valid : valid_cfg w_cfg.
Proof. constructor; vdecide. Qed.

Lemma erasure_roundtrip_witness :
  ∃ shards c1, encode_shards w_payload w_cfg ∅ = (Ok shards, c1) ∧
    ∃ c3, decode_shards [(3, nth 3 shards []); (1, nth 1 shards [])] w_cfg 5 c1
          = (Ok w_payload, c3).
Proof.
  destruct (erasure_roundtrip w_cfg w_payload ∅ w_cfg_valid cache_ok_empty ltac:(vdecide))
    as (shards & c1 & He & Hc1 & Hl & _ & _ & Hdec).
  exists shards, c1. split; [exact He|].
  destruct (Hdec [(3, nth 3 shards []); (1, nth 1 shards [])] c1 Hc1) as (c3 & Hd & _).
  - change (length shards = 4%nat) in Hl.
    destruct shards as [|s0 [|s1 [|s2 [|s3 [|]]]]]; [discriminate Hl..| |discriminate Hl].
    intros z d [[= -> ->]|[[= -> ->]|[]%elem_of_nil]%elem_of_cons]%elem_of_cons; reflexivity.
  - vm_compute. lia.
  - exists c3. exact Hd.
Defined.

Lemma decode_shards_answers_witness :
  let r := (decode_shards [(0, [x00; x01; x02]); (4, [x00; x01; x02])] w_cfg 5 ∅).1 in
  ((∃ out, r = Ok out) ∨ ∃ why, r = Err (EConfig why)) ∧ ¬ (∃ out, r = Ok out).
Proof.
  destruct (decode_shards_answers w_cfg [(0, [x00; x01; x02]); (4, [x00; x01; x02])] 5 ∅
    ltac:(vdecide) ltac:(vdecide) ltac:(vdecide) cache_ok_empty) as (Hok & _ & Ha & _).
  split; [exact Ha|]. intros [_ Hd]%Hok. revert Hd. vdecide.
Defined.
