(* ===== verification/Blob.v ===== *)
(** [crates/dag/src/blob], [crates/dag/src/erasure/commit.rs] and
    [crates/dag/src/da]: blob identifiers and chunks, the Merkle commitment to
    the shards, the custody ledger, and the verification of
    data-availability responses. *)

From stdpp Require Import strings pretty.
From S2P Require Import Prelude Bytes Types Crypto Toy Gf256 LinAlg RsMatrix Erasure.
Open Scope string_scope.
Open Scope list_scope.
Open Scope Z_scope.

(** The bytes of a shard as the integers hashing and storage use. *)
Definition shard_bytes (s : shard) : bytes := (λ b, Z.of_N (Byte.to_N b)) <$> s.

(** ** Chunks ([chunk.rs]) and identifiers ([commit.rs]) *)

Inductive ChunkPayload := PErasure (index n_shards : Z) (data : shard).
#[global] Instance ChunkPayload_eq_dec : EqDecision ChunkPayload.
Proof. solve_decision. Defined.

Record BlobChunk := MkBlobChunk {
  bc_blob_id : BlobId; bc_size_bytes : Z; bc_payload : ChunkPayload;
}.
#[global] Instance BlobChunk_eq_dec : EqDecision BlobChunk.
Proof. solve_decision. Defined.

Definition chunk_index (c : BlobChunk) : Z := let '(PErasure i _ _) := bc_payload c in i.
Definition chunk_unit_count (c : BlobChunk) : Z := let '(PErasure _ n _) := bc_payload c in n.
Definition chunk_data (c : BlobChunk) : shard := let '(PErasure _ _ d) := bc_payload c in d.

(** [u32::try_from(..).expect(..)] *)
Definition u32_or_panic {E} (x : Z) : outcome E Z :=
  if bool_decide (u32_ok x) then Ok x else Panic.

Definition erasure_chunks {E} (blob_id : BlobId) (size_bytes : Z) (shards : list shard)
  : outcome E (list BlobChunk) :=
  n_shards ← u32_or_panic (length shards);
  Ok (imap (λ i data, MkBlobChunk blob_id size_bytes (PErasure (Z.of_nat i) n_shards data)) shards).

Section commitments.
Context `{Primitives}.

Definition blob_id_from_payload (payload : shard) : BlobId :=
  MkBlobId (h32_bytes (blake3_with_dst dst.BLOB_ID (shard_bytes payload))).

(** ** The commitment to the shards ([erasure/commit.rs]) *)

Definition shard_leaf_hash (s : shard) : Hash32 :=
  blake3_with_dst dst.BLOB_SHARD (shard_bytes s).

Definition merkle_node (l r : Hash32) : Hash32 :=
  blake3_with_dst dst.BLOB_MERKLE_NODE (h32_bytes l ++ h32_bytes r).

(** One round of the loop: [layer.chunks(2)]. *)
Fixpoint merkle_layer (layer : list Hash32) : list Hash32 :=
  match layer with
  | l :: r :: rest => merkle_node l r :: merkle_layer rest
  | [l] => [merkle_node l l]
  | [] => []
  end.

Fixpoint merkle_loop {E} (fuel : nat) (layer : list Hash32) : outcome E Hash32 :=
  match fuel with
  | O => NoFuel
  | S fuel =>
      match layer with
      | [] => Panic
      | [h] => Ok h
      | _ => merkle_loop fuel (merkle_layer layer)
      end
  end.

Definition binary_merkle_root {E} (leaves : list Hash32) : outcome E Hash32 :=
  if bool_decide (leaves = []) then Panic else merkle_loop (length leaves) leaves.

Definition rs_merkle_commitment {E} (shards : list shard) : outcome E Hash32 :=
  root ← binary_merkle_root (shard_leaf_hash <$> shards);
  Ok (blake3_with_dst dst.BLOB_RS_ROOT (h32_bytes root)).
End commitments.

(** ** The custody ledger ([custody.rs])

    The matrix cache is process-wide; a call of the codec runs on it. *)

Record BlobMeta := MkBlobMeta {
  bm_size_bytes : Z; bm_cfg : ErasureConfig; bm_received : gset Z;
}.
#[global] Instance BlobMeta_eta : Settable BlobMeta := λ m,
  MkBlobMeta (bm_size_bytes m) (bm_cfg m) (bm_received m).

Record CustodyLedger := MkCustodyLedger {
  cl_meta : gmap BlobId BlobMeta; cl_available : gset BlobId;
}.
#[global] Instance CustodyLedger_eta : Settable CustodyLedger := λ l,
  MkCustodyLedger (cl_meta l) (cl_available l).

Definition empty_ledger : CustodyLedger := MkCustodyLedger ∅ ∅.

Definition register_erasure (blob_id : BlobId) (cfg : ErasureConfig) (_n_shards size_bytes : Z)
    (l : CustodyLedger) : CustodyLedger :=
  l <| cl_meta ::= partial_alter (λ m, Some
         match m with
         | Some m => m <| bm_size_bytes := size_bytes |> <| bm_cfg := cfg |>
         | None => MkBlobMeta size_bytes cfg ∅
         end) blob_id |>.

Definition is_available (blob_id : BlobId) (l : CustodyLedger) : bool :=
  bool_decide (blob_id ∈ cl_available l).

(** [m.is_ok()] of a call on state: the state it leaves is kept. *)
Definition is_ok_run {E S A} (m : M E S A) : M E S bool := λ s,
  match m s with
  | (Ok _, s') => (Ok true, s')
  | (Err _, s') => (Ok false, s')
  | (Panic, s') => (Panic, s')
  | (NoFuel, s') => (NoFuel, s')
  end.

Section custody.
Context `{Build} {SE : Type} (get_chunk : BlobId → Z → outcome SE (option shard)).

(** The chunks of the received indices that the store returns. *)
Definition stored_chunks (blob_id : BlobId) (received : list Z) : list (Z * shard) :=
  omap (λ index, match get_chunk blob_id index with
                 | Ok (Some data) => Some (index, data)
                 | _ => None
                 end) received.

Definition erasure_available (blob_id : BlobId) (meta : BlobMeta) :
    M ErasureError MatrixCache bool :=
  let cfg := bm_cfg meta in
  let k := Z.to_nat (ec_k cfg) in
  if bool_decide (size (bm_received meta) < k)%nat then mret false else
  let present := stored_chunks blob_id (elements (bm_received meta)) in
  if bool_decide (length present < k)%nat then mret false else
  is_ok_run (decode_shards present cfg (bm_size_bytes meta)).

(** The ledger, and the cache its calls go through. *)
Record CustodyState := MkCustodyState { cs_ledger : CustodyLedger; cs_cache : MatrixCache }.
#[global] Instance CustodyState_eta : Settable CustodyState := λ s,
  MkCustodyState (cs_ledger s) (cs_cache s).

Definition note_chunk (blob_id : BlobId) (index : Z) : M ErasureError CustodyState bool :=
  l ← gets cs_ledger;
  if is_available blob_id l then mret false else
  match cl_meta l !! blob_id with
  | None => mret false
  | Some meta =>
      let meta := meta <| bm_received ::= union {[index]} |> in
      _ ← modify (λ s : CustodyState, s <| cs_ledger := l <| cl_meta ::= <[blob_id := meta]> |> |>);
      zoom cs_cache (erasure_available blob_id meta) ≫= λ available : bool,
      if available
      then _ ← modify (λ s : CustodyState, s <| cs_ledger := (cs_ledger s) <| cl_available ::= union {[blob_id]} |> |>);
           mret true
      else mret false
  end.
End custody.

Definition note_chunk_present (blob_id : BlobId) (index : Z) (l : CustodyLedger)
  : bool * CustodyLedger :=
  if is_available blob_id l then (false, l) else
  match cl_meta l !! blob_id with
  | None => (false, l)
  | Some meta =>
      let meta := meta <| bm_received ::= union {[index]} |> in
      let l := l <| cl_meta ::= <[blob_id := meta]> |> in
      if bool_decide (Z.to_nat (ec_k (bm_cfg meta)) ≤ size (bm_received meta))%nat
      then (true, l <| cl_available ::= union {[blob_id]} |>)
      else (false, l)
  end.

(** ** Data-availability challenges ([da/challenge.rs]) *)

Record AvailabilityChallenge := MkAvailabilityChallenge {
  ac_blob_id : BlobId; ac_shard_indices : list Z; ac_challenger : ValidatorId;
}.
Record AvailabilityResponse := MkAvailabilityResponse {
  ar_blob_id : BlobId; ar_shards : list (Z * shard);
}.

Inductive ChallengeError :=
| Mismatch (why : string)
| Commitment (why : string).
#[global] Instance ChallengeError_eq_dec : EqDecision ChallengeError.
Proof. solve_decision. Defined.

(** [e.to_string()] *)
Definition ErasureError_to_string (e : ErasureError) : string :=
  (match e with
   | EConfig why => "invalid erasure config: " +:+ why
   | ECodec why => "erasure codec error: " +:+ why
   end)%string.

Definition map_err_run {E E' S A} (f : E → E') (m : M E S A) : M E' S A := λ s,
  let '(r, s') := m s in (map_err f r, s').

Definition sorted_indices (l : list Z) : list Z := merge_sort Z.le l.

Section challenge.
Context `{Build, Primitives}.

(** The comparison of the response with the re-encoded shards. *)
Fixpoint check_shards (full : list shard) (shards : list (Z * shard)) : outcome ChallengeError () :=
  match shards with
  | [] => Ok ()
  | (index, data) :: shards =>
      s ← get_or_panic full (Z.to_nat index);
      if bool_decide (s ≠ data)
      then Err (Commitment ("tampered shard at index " +:+ pretty (Z.to_N index)))
      else check_shards full shards
  end.

Definition verify_availability_response (challenge : AvailabilityChallenge)
    (response : AvailabilityResponse) (expected_commitment : Hash32) (blob_ref : BlobRef)
    (cfg : ErasureConfig) : M ChallengeError MatrixCache () :=
  if bool_decide (ar_blob_id response ≠ ac_blob_id challenge)
  then lift (Err (Mismatch "blob_id")) else
  if bool_decide (sorted_indices (ar_shards response).*1 ≠ sorted_indices (ac_shard_indices challenge))
  then lift (Err (Mismatch "shard_indices")) else
  if bool_decide (length (ar_shards response) < Z.to_nat (ec_k cfg))%nat then mret () else
  decoded ← map_err_run (λ e, Commitment (ErasureError_to_string e))
    (decode_shards (ar_shards response) cfg (br_size_bytes blob_ref));
  full_shards ← map_err_run (λ e, Commitment (ErasureError_to_string e))
    (encode_shards decoded cfg);
  recomputed ← lift (rs_merkle_commitment full_shards);
  if bool_decide (recomputed ≠ expected_commitment)
  then lift (Err (Commitment "recomputed merkle root mismatch")) else
  lift (check_shards full_shards (ar_shards response)).
End challenge.

(** ** The Merkle tree *)

Lemma list_pairs_ind {A} (P : list A → Prop) :
  P [] → (∀ a, P [a]) → (∀ a b l, P l → P (a :: b :: l)) → ∀ l, P l.
Proof.
  intros H0 H1 H2 l. cut (P l ∧ ∀ a, P (a :: l)); [by intros [? _]|].
  induction l as [|b l [IH1 IH2]]; [auto|]. split; [apply IH2|]. intros a. by apply H2.
Qed.

Lemma shard_bytes_inj s s' : shard_bytes s = shard_bytes s' → s = s'.
Proof.
  unfold shard_bytes. intros He. apply (list_fmap_eq_inj (A:=u8) (λ b, Z.of_N (Byte.to_N b))); [|exact He].
  intros a b Hab%N2Z.inj. by apply to_N_inj.
Qed.

Section merkle.
Context `{Primitives}.

(** Two inputs with one hash. *)
Definition collision : Prop := ∃ x y : bytes, x ≠ y ∧ blake3 x = blake3 y.

Lemma length_merkle_layer l :
  (length (merkle_layer l) ≤ length l)%nat ∧
  (2 ≤ length l → length (merkle_layer l) < length l)%nat ∧ (l ≠ [] → merkle_layer l ≠ []).
Proof.
  induction l as [|a|a b l (IH & _ & _)] using list_pairs_ind; cbn.
  - repeat split; [lia|lia|done].
  - repeat split; [lia|lia|done].
  - repeat split; [lia|lia|done].
Qed.

Lemma merkle_loop_total {E} fuel layer :
  layer ≠ [] → (length layer ≤ fuel)%nat → ∃ h, merkle_loop (E:=E) fuel layer = Ok h.
Proof.
  revert layer. induction fuel as [|fuel IH]; intros layer Hne Hf.
  { destruct layer; [done|cbn in Hf; lia]. }
  destruct layer as [|a [|b l]]; [done|by eexists|].
  destruct (length_merkle_layer (a :: b :: l)) as (_ & Hlt & Hne').
  change (merkle_loop (S fuel) (a :: b :: l))
    with (merkle_loop (E:=E) fuel (merkle_layer (a :: b :: l))).
  apply IH; [by apply Hne'|]. cbn in Hlt, Hf |- *. lia.
Qed.

Lemma blake3_with_dst_inj d x y :
  blake3_with_dst d x = blake3_with_dst d y → x = y ∨ collision.
Proof.
  intros He. destruct (decide (x = y)) as [|Hne]; [by left|right].
  exists (d ++ [0] ++ x), (d ++ [0] ++ y). split; [|exact He].
  intros Hxy. apply Hne. by apply app_inv_head, app_inv_head in Hxy.
Qed.

Hypothesis digest_length : ∀ x, length (h32_bytes (blake3 x)) = 32%nat.

Definition digests (l : list Hash32) : Prop := Forall (λ h, length (h32_bytes h) = 32%nat) l.

Lemma node_inj a b a' b' :
  digests [a; a'] → merkle_node a b = merkle_node a' b' → (a = a' ∧ b = b') ∨ collision.
Proof using.
  intros [Ha [Ha' _]%Forall_cons]%Forall_cons [He|?]%blake3_with_dst_inj; [left|by right].
  apply app_inj_1 in He as [H1 H2]; [|congruence].
  destruct a, b, a', b'; cbn in *. by subst.
Qed.

Lemma digests_layer l : digests (merkle_layer l).
Proof using digest_length.
  induction l as [|a|a b l IH] using list_pairs_ind; cbn.
  - constructor.
  - repeat constructor. apply digest_length.
  - constructor; [apply digest_length|exact IH].
Qed.

Lemma merkle_layer_inj l l' :
  digests l → digests l' → length l = length l' →
  merkle_layer l = merkle_layer l' → l = l' ∨ collision.
Proof using.
  revert l'. induction l as [|a|a b l IH] using list_pairs_ind;
    intros [|a' [|b' l']] Hl Hl' Hlen; try discriminate Hlen; cbn [merkle_layer].
  - by left.
  - apply Forall_cons in Hl as [Ha _]. apply Forall_cons in Hl' as [Ha' _].
    intros [= He]. apply node_inj in He as [[-> _]|?]; [by left|by right|by repeat constructor].
  - apply Forall_cons in Hl as [Ha [_ Hl]%Forall_cons].
    apply Forall_cons in Hl' as [Ha' [_ Hl']%Forall_cons].
    intros [= He Ht]. apply node_inj in He as [[-> ->]|?]; [|by right|by repeat constructor].
    destruct (IH l' Hl Hl') as [->|?]; [by injection Hlen|done|by left|by right].
Qed.

Lemma merkle_loop_inj {E} fuel l l' h :
  digests l → digests l' → length l = length l' →
  merkle_loop (E:=E) fuel l = Ok h → merkle_loop (E:=E) fuel l' = Ok h → l = l' ∨ collision.
Proof using digest_length.
  revert l l'. induction fuel as [|fuel IH]; intros l l' Hl Hl' Hlen; [done|].
  destruct l as [|a [|b l]], l' as [|a' [|b' l']]; try discriminate Hlen; try done.
  - intros [= ->] [= ->]. by left.
  - intros H1 H2.
    assert (Hm : length (merkle_layer (a :: b :: l)) = length (merkle_layer (a' :: b' :: l'))).
    { clear -Hlen. revert Hlen. generalize (a :: b :: l) as u, (a' :: b' :: l') as v.
      intros u. induction u as [|x|x y u IHu] using list_pairs_ind; intros [|x' [|y' v]] [=];
        cbn; auto. }
    destruct (IH (merkle_layer (a :: b :: l)) (merkle_layer (a' :: b' :: l'))
      (digests_layer _) (digests_layer _) Hm H1 H2) as [He|?]; [|by right].
    by apply merkle_layer_inj.
Qed.

Lemma leaves_inj (shards shards' : list shard) :
  shard_leaf_hash <$> shards = shard_leaf_hash <$> shards' → shards = shards' ∨ collision.
Proof using.
  revert shards'. induction shards as [|s shards IH]; intros [|s' shards']; try done; [by left|].
  intros [= [Hs|?]%blake3_with_dst_inj Ht]; [|by right].
  apply shard_bytes_inj in Hs as ->. destruct (IH _ Ht) as [->|?]; [by left|by right].
Qed.

Lemma commitment_total {E} shards :
  shards ≠ [] → ∃ h, rs_merkle_commitment (E:=E) shards = Ok h.
Proof using.
  intros Hne. unfold rs_merkle_commitment, binary_merkle_root.
  rewrite bool_decide_false by (intros ?%fmap_nil_inv; done).
  destruct (merkle_loop_total (E:=E) (length (shard_leaf_hash <$> shards))
    (shard_leaf_hash <$> shards)) as [h Hh]; [by intros ?%fmap_nil_inv|done|].
  rewrite Hh. by eexists.
Qed.

Lemma commitment_inj {E} shards shards' h :
  length shards = length shards' →
  rs_merkle_commitment (E:=E) shards = Ok h → rs_merkle_commitment (E:=E) shards' = Ok h →
  shards = shards' ∨ collision.
Proof using digest_length.
  intros Hlen (r & Hr & Hh)%outcome_bind_Ok (r' & Hr' & Hh')%outcome_bind_Ok.
  injection Hh as Hh. injection Hh' as Hh'. rewrite <- Hh in Hh'.
  apply blake3_with_dst_inj in Hh' as [He|?]; [|by right].
  assert (r' = r) as -> by (destruct r, r'; cbn in He; by subst).
  unfold binary_merkle_root in Hr, Hr'.
  case_bool_decide; [done|]. case_bool_decide; [done|].
  assert (Hd : ∀ ss, digests (shard_leaf_hash <$> ss)).
  { intros ss. apply Forall_fmap, Forall_forall. intros s _. apply digest_length. }
  rewrite !length_fmap, <- Hlen in Hr'. rewrite length_fmap in Hr.
  destruct (merkle_loop_inj _ _ _ _ (Hd shards) (Hd shards') ltac:(by rewrite !length_fmap) Hr Hr')
    as [?|?]; [by apply leaves_inj|by right].
Qed.
End merkle.

(** ** Custody *)

Lemma remove_dups_NoDup `{EqDecision A} (l : list A) : NoDup l → remove_dups l = l.
Proof.
  induction 1 as [|a l Ha _ IH]; [done|]. cbn. rewrite IH. by case_decide.
Qed.

Section custody_facts.
Context `{Build} {SE : Type} (get_chunk : BlobId → Z → outcome SE (option shard)).

Lemma stored_chunks_elem b received p :
  p ∈ stored_chunks get_chunk b received ↔
  p.1 ∈ received ∧ get_chunk b p.1 = Ok (Some p.2).
Proof.
  destruct p as [i d]. unfold stored_chunks. rewrite list_elem_of_omap. cbn. split.
  - intros (j & Hj & He). destruct (get_chunk b j) as [[d'|]| | |] eqn:Hg; try done.
    injection He as -> ->. done.
  - intros [Hi Hg]. exists i. by rewrite Hg.
Qed.

(** The shards custody decodes from, and the condition it decides. *)
Definition custody_ready (b : BlobId) (cfg : ErasureConfig) (received : gset Z) : Prop :=
  let present := stored_chunks get_chunk b (elements received) in
  Forall (in_range cfg) present ∧ (Z.to_nat (ec_k cfg) ≤ length present)%nat.
#[global] Instance custody_ready_dec b cfg received : Decision (custody_ready b cfg received).
Proof. unfold custody_ready. apply _. Defined.

Lemma stored_indices_sublist b received :
  (stored_chunks get_chunk b received).*1 `sublist_of` received.
Proof.
  induction received as [|i l IH]; [constructor|].
  unfold stored_chunks in *. cbn. destruct (get_chunk b i) as [[d|]| | |]; cbn; by constructor.
Qed.

Lemma distinct_NoDup (present : list (Z * shard)) :
  NoDup present.*1 → Forall (λ p, 0 ≤ p.1) present →
  length (distinct present) = length present.
Proof.
  intros Hnd Hp. unfold distinct. rewrite remove_dups_NoDup, length_fmap; [done|].
  induction present as [|[i d] l IH]; [constructor|]. apply NoDup_cons in Hnd as [Hi Hnd].
  apply Forall_cons in Hp as [Hi0 Hp]. rewrite fmap_cons. constructor; [|by apply IH].
  intros ([j d'] & He & Hj)%list_elem_of_fmap. cbn in *. apply Hi.
  rewrite Forall_forall in Hp. specialize (Hp _ Hj). cbn in Hp.
  assert (i = j) as -> by lia. apply list_elem_of_fmap. by exists (j, d').
Qed.

Lemma decode_is_ok cfg present orig_len c :
  valid_cfg cfg → cache_ok c →
  ∃ c', is_ok_run (decode_shards present cfg orig_len) c =
        (Ok (bool_decide (decodable cfg present)), c') ∧ cache_ok c'.
Proof.
  intros Hcfg Hc. unfold is_ok_run. case_bool_decide as Hd.
  - destruct (decode_shards_run cfg Hcfg present orig_len c Hc Hd)
      as (m & ss & inv & c' & Hrun & Hc' & _). rewrite Hrun. by exists c'.
  - destruct (decode_shards_fail cfg Hcfg present orig_len c Hc Hd) as (why & c' & Hrun & Hc').
    rewrite Hrun. by exists c'.
Qed.

Lemma erasure_available_run b meta c :
  valid_cfg (bm_cfg meta) → cache_ok c → set_Forall (λ i, 0 ≤ i) (bm_received meta) →
  ∃ c', erasure_available get_chunk b meta c =
        (Ok (bool_decide (custody_ready b (bm_cfg meta) (bm_received meta))), c') ∧ cache_ok c'.
Proof.
  intros Hcfg Hc Hnn. unfold erasure_available, custody_ready.
  set (cfg := bm_cfg meta) in *. set (present := stored_chunks get_chunk b (elements (bm_received meta))).
  assert (Hsz : (length present ≤ size (bm_received meta))%nat).
  { rewrite <- (length_fmap fst). apply sublist_length, stored_indices_sublist. }
  case_bool_decide as H1.
  { rewrite bool_decide_false by lia. by exists c. }
  case_bool_decide as H2.
  { rewrite bool_decide_false by lia. by exists c. }
  destruct (decode_is_ok cfg present (bm_size_bytes meta) c Hcfg Hc) as (c' & Hr & Hc').
  exists c'. split; [|done]. rewrite Hr. do 2 f_equal. apply bool_decide_ext. unfold decodable.
  rewrite distinct_NoDup; [done| |].
  - eapply sublist_NoDup; [exact (NoDup_elements (bm_received meta))|apply stored_indices_sublist].
  - apply Forall_forall. intros p [Hp _]%stored_chunks_elem. apply Hnn. by apply elem_of_elements.
Qed.

(** The ledger after [note_chunk]. *)
Definition noted (b : BlobId) (i : Z) (meta : BlobMeta) (l : CustodyLedger) : CustodyLedger :=
  l <| cl_meta ::= <[b := meta <| bm_received ::= union {[i]} |>]> |>.

Lemma note_chunk_run b i s meta :
  b ∉ cl_available (cs_ledger s) → cl_meta (cs_ledger s) !! b = Some meta →
  valid_cfg (bm_cfg meta) → cache_ok (cs_cache s) → 0 ≤ i →
  set_Forall (λ j, 0 ≤ j) (bm_received meta) →
  ∃ c', cache_ok c' ∧
    let l := noted b i meta (cs_ledger s) in
    note_chunk get_chunk b i s =
      if decide (custody_ready b (bm_cfg meta) ({[i]} ∪ bm_received meta))
      then (Ok true, MkCustodyState (l <| cl_available ::= union {[b]} |>) c')
      else (Ok false, MkCustodyState l c').
Proof.
  intros Hav Hmeta Hcfg Hc Hi Hnn. unfold note_chunk.
  set (meta' := meta <| bm_received ::= union {[i]} |>).
  destruct (erasure_available_run b meta' (cs_cache s)) as (c' & Hr & Hc'); [done|done| |].
  { intros j [->%elem_of_singleton|?]%elem_of_union; [done|by apply Hnn]. }
  exists c'. split; [exact Hc'|]. cbv zeta. unfold noted. fold meta'.
  change (bm_cfg meta) with (bm_cfg meta').
  change ({[i]} ∪ bm_received meta) with (bm_received meta').
  unfold mbind, M_bind, gets, modify. cbv beta iota.
  unfold is_available. rewrite bool_decide_false by done. rewrite Hmeta. cbv zeta. fold meta'.
  clearbody meta'. destruct s as [l c]. unfold zoom. cbn in *. rewrite Hr. cbn.
  case_bool_decide; by case_decide.
Qed.

(** *** Runs: [note_chunk] on a list of indices, over one store *)

Fixpoint note_all (b : BlobId) (is_ : list Z) : M ErasureError CustodyState (list bool) :=
  match is_ with
  | [] => mret []
  | i :: is_ => r ← note_chunk get_chunk b i; rs ← note_all b is_; mret (r :: rs)
  end.

Definition trues (bs : list bool) : nat := length (filter (λ r, r = true) bs).

Lemma note_all_available b is_ s :
  b ∈ cl_available (cs_ledger s) →
  ∃ bs, note_all b is_ s = (Ok bs, s) ∧ trues bs = 0%nat.
Proof.
  intros Hb. induction is_ as [|i l (bs & IH & Ht)]; [by exists []|].
  exists (false :: bs). split; [|exact Ht]. cbn [note_all].
  assert (Hn : note_chunk get_chunk b i s = (Ok false, s)).
  { unfold note_chunk, mbind, M_bind, gets, is_available. by rewrite bool_decide_true. }
  by rewrite (run_bind _ _ _ _ _ Hn), (run_bind _ _ _ _ _ IH).
Qed.

(** Some non-empty prefix of the indices makes the blob ready. *)
Definition ready_along (b : BlobId) (cfg : ErasureConfig) (received : gset Z) (is_ : list Z) : Prop :=
  ∃ p, p ≠ [] ∧ p `prefix_of` is_ ∧ custody_ready b cfg (list_to_set p ∪ received).

Lemma ready_along_cons b cfg received i is_ :
  ready_along b cfg received (i :: is_) ↔
  custody_ready b cfg ({[i]} ∪ received) ∨ ready_along b cfg ({[i]} ∪ received) is_.
Proof.
  unfold ready_along. split.
  - intros ([|j p] & Hne & Hpre & Hr); [done|]. apply prefix_cons_inv_1 in Hpre as Hj. subst j.
    apply prefix_cons_inv_2 in Hpre. destruct (decide (p = [])) as [->|Hp].
    + left. by replace ({[i]} ∪ received) with (list_to_set [i] ∪ received) by set_solver.
    + right. exists p. split; [done|]. split; [done|].
      by replace (list_to_set p ∪ ({[i]} ∪ received))
        with (list_to_set (i :: p) ∪ received) by set_solver.
  - intros [Hr|(p & Hne & Hpre & Hr)].
    + exists [i]. split; [done|]. split; [by apply prefix_cons, prefix_nil|].
      by replace (list_to_set [i] ∪ received) with ({[i]} ∪ received) by set_solver.
    + exists (i :: p). split; [done|]. split; [by apply prefix_cons|].
      by replace (list_to_set (i :: p) ∪ received)
        with (list_to_set p ∪ ({[i]} ∪ received)) by set_solver.
Qed.

Lemma note_all_run b is_ s meta :
  b ∉ cl_available (cs_ledger s) → cl_meta (cs_ledger s) !! b = Some meta →
  valid_cfg (bm_cfg meta) → cache_ok (cs_cache s) → Forall (λ i, 0 ≤ i) is_ →
  set_Forall (λ j, 0 ≤ j) (bm_received meta) →
  ∃ bs s', note_all b is_ s = (Ok bs, s') ∧
    (b ∈ cl_available (cs_ledger s') ↔ ready_along b (bm_cfg meta) (bm_received meta) is_) ∧
    trues bs = (if decide (b ∈ cl_available (cs_ledger s')) then 1 else 0)%nat.
Proof.
  intros Hav Hmeta Hcfg Hc Hi Hnn. revert s meta Hav Hmeta Hcfg Hc Hnn.
  induction Hi as [|i l Hi Hl IH]; intros s meta Hav Hmeta Hcfg Hc Hnn.
  { exists [], s. split; [done|]. split; [|by rewrite decide_False].
    split; [done|]. intros (p & Hne & Hp%prefix_nil_inv & _). done. }
  destruct (note_chunk_run b i s meta Hav Hmeta Hcfg Hc Hi Hnn) as (c' & Hc' & Hrun).
  cbv zeta in Hrun. cbn [note_all]. destruct (decide _) as [Hready|Hready].
  - destruct (note_all_available b l (MkCustodyState
      (noted b i meta (cs_ledger s) <| cl_available ::= union {[b]} |>) c')) as (bs & Hbs & Ht).
    { cbn. set_solver. }
    exists (true :: bs). eexists. rewrite (run_bind _ _ _ _ _ Hrun), (run_bind _ _ _ _ _ Hbs).
    split; [reflexivity|]. cbn [cs_ledger].
    assert (Hb : b ∈ cl_available (noted b i meta (cs_ledger s) <| cl_available ::= union {[b]} |>))
      by (cbn; set_solver).
    split; [|rewrite decide_True by done; change (S (trues bs) = 1%nat); by rewrite Ht].
    split; [intros _|done]. apply ready_along_cons. by left.
  - destruct (IH (MkCustodyState (noted b i meta (cs_ledger s)) c')
                 (meta <| bm_received ::= union {[i]} |>)) as (bs & s' & Hbs & Hav' & Ht).
    { exact Hav. } { unfold noted. cbn. apply lookup_insert_eq. } { exact Hcfg. } { exact Hc'. }
    { cbn. intros j [->%elem_of_singleton|?]%elem_of_union; [done|by apply Hnn]. }
    exists (false :: bs), s'. rewrite (run_bind _ _ _ _ _ Hrun), (run_bind _ _ _ _ _ Hbs).
    split; [reflexivity|]. split; [|exact Ht]. rewrite Hav', ready_along_cons. cbn.
    split; [by right|]. by intros [?|?].
Qed.

(** With the shards of a payload in the store, ready means [k] of them. *)
Lemma honest_ready b cfg (received : gset Z) shards :
  length shards = Z.to_nat (ec_n cfg) →
  Forall (λ s, Z.of_nat (length s) = ec_data_shard_size cfg) shards →
  set_Forall (λ i, 0 ≤ i < ec_n cfg) received →
  (∀ i d, shards !! Z.to_nat i = Some d → get_chunk b i = Ok (Some d)) →
  custody_ready b cfg received ↔ (Z.to_nat (ec_k cfg) ≤ size received)%nat.
Proof.
  intros Hl Hs Hr Hstore. unfold custody_ready.
  set (present := stored_chunks get_chunk b (elements received)).
  assert (Hget : ∀ i, i ∈ received → ∃ d, shards !! Z.to_nat i = Some d ∧ get_chunk b i = Ok (Some d)).
  { intros i Hi. destruct (lookup_lt_is_Some_2 shards (Z.to_nat i)) as [d Hd].
    - specialize (Hr _ Hi). cbn in Hr. lia.
    - exists d. split; [done|by apply Hstore]. }
  assert (Hlen : length present = size received).
  { unfold present, stored_chunks, size, set_size. cbn. generalize (elem_of_elements received).
    generalize (elements received) as l. intros l Hel.
    assert (Hall : Forall (λ i, ∃ d, get_chunk b i = Ok (Some d)) l).
    { apply Forall_forall. intros i Hi%Hel. destruct (Hget _ Hi) as (d & _ & Hd). eauto. }
    clear Hel. induction Hall as [|i l [d Hd] _ IH]; [done|]. cbn. rewrite Hd. cbn. by rewrite IH. }
  rewrite Hlen. split; [by intros [_ ?]|]. intros Hk. split; [|exact Hk].
  apply Forall_forall. intros [i d] [Hi Hd]%stored_chunks_elem. cbn in *.
  apply elem_of_elements in Hi. destruct (Hget _ Hi) as (d' & Hd' & Hg).
  rewrite Hd in Hg. injection Hg as <-.
  split; cbn; [rewrite <- Hl; by eapply lookup_lt_Some|].
  rewrite Forall_forall in Hs. apply Hs. by eapply list_elem_of_lookup_2.
Qed.
End custody_facts.

Lemma encode_shards_sizes `{Build} cfg payload c :
  valid_cfg cfg → cache_ok c → length payload ≤ ec_k cfg * ec_data_shard_size cfg →
  ∃ m c', encode_shards payload cfg c =
      (Ok (code m (data_rows cfg payload) (Z.to_nat (ec_data_shard_size cfg))), c') ∧
    cache_ok c' ∧ mds (Z.to_nat (ec_n cfg)) (Z.to_nat (ec_k cfg)) m ∧
    build_encoding_matrix (Z.to_nat (ec_n cfg)) (Z.to_nat (ec_k cfg)) = Ok m ∧
    let S := code m (data_rows cfg payload) (Z.to_nat (ec_data_shard_size cfg)) in
    length S = Z.to_nat (ec_n cfg) ∧
    Forall (λ s, Z.of_nat (length s) = ec_data_shard_size cfg) S.
Proof.
  intros Hcfg Hc Hp. destruct (encode_shards_spec cfg Hcfg payload c Hc Hp) as (m & c' & He & Hc' & Hm & Hb).
  destruct (data_rows_spec cfg Hcfg payload Hp) as (_ & HD & _).
  exists m, c'. split; [done|]. split; [done|]. split; [done|]. split; [done|]. cbv zeta.
  split; [rewrite length_code; apply Hm|].
  eapply Forall_impl; [apply code_rect, HD|]. cbn. intros s Hs. destruct Hcfg. lia.
Qed.

Lemma register_erasure_fresh b cfg n_shards size_bytes l :
  cl_meta l !! b = None →
  cl_meta (register_erasure b cfg n_shards size_bytes l) !! b = Some (MkBlobMeta size_bytes cfg ∅).
Proof. intros Hn. etrans; [apply lookup_partial_alter_eq|]. by rewrite Hn. Qed.

Lemma size_list_to_set_le (l : list Z) : (size (list_to_set l : gset Z) ≤ length l)%nat.
Proof.
  apply submseteq_length, NoDup_submseteq; [apply NoDup_elements|].
  intros x. by rewrite elem_of_elements, elem_of_list_to_set.
Qed.

Lemma prefix_without {A} (p pre post : list A) j :
  p `prefix_of` pre ++ j :: post → j ∉ p → (length p ≤ length pre)%nat.
Proof.
  intros [q Hq] Hj. apply app_eq_inv in Hq as [(k & -> & _)|(k & -> & Hk)].
  - rewrite length_app. lia.
  - destruct k as [|x k]; [rewrite app_nil_r; done|].
    injection Hk as -> _. destruct Hj. rewrite elem_of_app. right. by left.
Qed.

(** ** Properties *)

Section custody_properties.
Context `{Build} {SE : Type} (get_chunk : BlobId → Z → outcome SE (option shard)).

(** Custody of an honest blob: after [register_erasure], if the store holds the
    shards of a payload, noting any sequence of shard indices (repeated, in any
    order) makes the blob available exactly when [k] of them are distinct, and
    [note_chunk] reports the transition exactly once. *)
Theorem custody_available_at_k b cfg n_shards size_bytes l0 c payload shards c0 c1 is_ :
  valid_cfg cfg → cache_ok c → cache_ok c0 →
  length payload ≤ ec_k cfg * ec_data_shard_size cfg →
  encode_shards payload cfg c0 = (Ok shards, c1) →
  (∀ i d, shards !! Z.to_nat i = Some d → get_chunk b i = Ok (Some d)) →
  cl_meta l0 !! b = None → is_available b l0 = false →
  Forall (λ i, 0 ≤ i < ec_n cfg) is_ →
  let s := MkCustodyState (register_erasure b cfg n_shards size_bytes l0) c in
  let enough := bool_decide (Z.to_nat (ec_k cfg) ≤ size (list_to_set is_ : gset Z))%nat in
  ∃ bs s', note_all get_chunk b is_ s = (Ok bs, s') ∧
    is_available b (cs_ledger s') = enough ∧ trues bs = (if enough then 1 else 0)%nat.
Proof.
  intros Hcfg Hc Hc0 Hp He Hstore Hnone Hav His. cbv zeta.
  destruct (encode_shards_sizes cfg payload c0 Hcfg Hc0 Hp) as (m & c' & He' & _ & _ & _ & Hl & Hs).
  rewrite He in He'. injection He' as -> _.
  unfold is_available in Hav |- *. apply bool_decide_eq_false_1 in Hav.
  destruct (note_all_run get_chunk b is_
    (MkCustodyState (register_erasure b cfg n_shards size_bytes l0) c)
    (MkBlobMeta size_bytes cfg ∅)) as (bs & s' & Hrun & Hiff & Ht); [exact Hav| |done|done| |done|].
  { by apply register_erasure_fresh. }
  { eapply Forall_impl; [exact His|]. cbn. lia. }
  exists bs, s'. split; [exact Hrun|].
  assert (Hready : ready_along get_chunk b cfg ∅ is_ ↔
                   (Z.to_nat (ec_k cfg) ≤ size (list_to_set is_ : gset Z))%nat).
  { assert (Hhon : ∀ p, p `prefix_of` is_ → custody_ready get_chunk b cfg (list_to_set p ∪ ∅) ↔
              (Z.to_nat (ec_k cfg) ≤ size (list_to_set p : gset Z))%nat).
    { intros p [q ->]. rewrite (right_id_L ∅ (∪)). eapply honest_ready; [exact Hl|exact Hs| |exact Hstore].
      intros i Hi%elem_of_list_to_set. apply Forall_app in His as [His _].
      rewrite Forall_forall in His. by apply His. }
    split.
    - intros (p & _ & Hpre & Hr). apply (Hhon p Hpre) in Hr. etrans; [exact Hr|].
      apply subseteq_size. intros i. rewrite !elem_of_list_to_set. destruct Hpre as [q ->].
      rewrite elem_of_app. by left.
    - intros Hk. exists is_. split; [|split; [done|by apply Hhon]].
      intros ->. cbn in Hk. rewrite size_empty in Hk. destruct Hcfg. lia. }
  cbn [bm_cfg bm_received] in Hiff. rewrite Hready in Hiff. rewrite Ht.
  split; [by apply bool_decide_ext|].
  destruct (decide _) as [Hd|Hd]; [rewrite bool_decide_true|rewrite bool_decide_false]; tauto.
Qed.

(** A chunk with an index out of range poisons a blob.  The ingest path stores
    and notes chunks without checking the index: if one with index at least [n]
    is noted before [k] others, [note_chunk] reports false and the blob never
    becomes available, whatever shards arrive later. *)
Theorem custody_poisoned b cfg n_shards size_bytes l0 c pre j data post :
  valid_cfg cfg → cache_ok c → cl_meta l0 !! b = None → is_available b l0 = false →
  Forall (λ i, 0 ≤ i) (pre ++ j :: post) →
  (length pre < Z.to_nat (ec_k cfg))%nat →
  ec_n cfg ≤ j → get_chunk b j = Ok (Some data) →
  let s := MkCustodyState (register_erasure b cfg n_shards size_bytes l0) c in
  ∃ bs s', note_all get_chunk b (pre ++ j :: post) s = (Ok bs, s') ∧
    is_available b (cs_ledger s') = false ∧ trues bs = 0%nat.
Proof.
  intros Hcfg Hc Hnone Hav His Hpre Hj Hget. cbv zeta.
  unfold is_available in Hav |- *. apply bool_decide_eq_false_1 in Hav.
  destruct (note_all_run get_chunk b (pre ++ j :: post)
    (MkCustodyState (register_erasure b cfg n_shards size_bytes l0) c)
    (MkBlobMeta size_bytes cfg ∅)) as (bs & s' & Hrun & Hiff & Ht); [exact Hav| |done|done|done|done|].
  { by apply register_erasure_fresh. }
  exists bs, s'. split; [exact Hrun|].
  assert (Hnot : ¬ ready_along get_chunk b cfg ∅ (pre ++ j :: post)).
  { intros (p & _ & Hp & Hf & Hk). rewrite (right_id_L ∅ (∪)) in Hf, Hk.
    destruct (decide (j ∈ p)) as [Hin|Hnin].
    - rewrite Forall_forall in Hf. specialize (Hf (j, data)). destruct Hf as [Hr _].
      + apply stored_chunks_elem. cbn. split; [|done].
        by apply elem_of_elements, elem_of_list_to_set.
      + cbn in Hr. destruct Hcfg. lia.
    - pose proof (prefix_without _ _ _ _ Hp Hnin). pose proof (size_list_to_set_le p) as Hsz.
      pose proof (sublist_length _ _
        (stored_indices_sublist get_chunk b (elements (list_to_set p : gset Z)))) as Hst.
      rewrite length_fmap in Hst. unfold size, set_size in Hsz. cbn in Hsz. lia. }
  cbn [bm_cfg bm_received] in Hiff.
  rewrite bool_decide_false by tauto. rewrite Ht, decide_False by tauto. done.
Qed.
End custody_properties.

(** ** Challenges *)

Lemma sorted_indices_eq l l' : sorted_indices l = sorted_indices l' ↔ l ≡ₚ l'.
Proof.
  unfold sorted_indices. split.
  - intros He. rewrite <- (merge_sort_Permutation Z.le l), He. apply merge_sort_Permutation.
  - intros Hp. apply (StronglySorted_unique Z.le);
      [apply (StronglySorted_merge_sort Z.le); apply _..|].
    by rewrite !merge_sort_Permutation.
Qed.

Lemma check_shards_spec full shards :
  Forall (λ p : Z * shard, Z.to_nat p.1 < length full)%nat shards →
  (check_shards full shards = Ok () ∧ ∀ z d, (z, d) ∈ shards → full !! Z.to_nat z = Some d) ∨
  ((∃ e, check_shards full shards = Err e) ∧ ∃ z d, (z, d) ∈ shards ∧ full !! Z.to_nat z ≠ Some d).
Proof.
  induction 1 as [|[z d] shards Hz _ IH]; cbn [check_shards].
  { left. split; [done|]. by intros ?? ?%not_elem_of_nil. }
  cbn in Hz. destruct (lookup_lt_is_Some_2 full (Z.to_nat z) Hz) as [s Hs].
  rewrite (get_or_panic_Ok _ _ _ Hs). ocbn. case_bool_decide as Hne.
  { right. split; [by eexists|]. exists z, d. split; [by left|congruence]. }
  subst s.
  destruct IH as [[Hok Hall]|[He (z' & d' & Hin & Hne')]].
  - left. split; [done|]. by intros z' d' [[= -> ->]|Hin]%elem_of_cons; [|apply Hall].
  - right. split; [done|]. exists z', d'. split; [by right|done].
Qed.

Section da.
Context `{Build, Primitives} (cfg : ErasureConfig) (Hcfg : valid_cfg cfg).
Abbreviation k := (Z.to_nat (ec_k cfg)).

(** The checks on a response with at least [k] shards: the shards it must be made of. *)
Lemma verify_long ch resp root ref c :
  cache_ok c → 0 ≤ br_size_bytes ref →
  ar_blob_id resp = ac_blob_id ch → (ar_shards resp).*1 ≡ₚ ac_shard_indices ch →
  (k ≤ length (ar_shards resp))%nat →
  let r := (verify_availability_response ch resp root ref cfg c).1 in
  (¬ decodable cfg (ar_shards resp) ∧ ∃ e, r = Err e) ∨
  ∃ decoded m c1 c2 c3,
    decode_shards (ar_shards resp) cfg (br_size_bytes ref) c = (Ok decoded, c1) ∧
    cache_ok c1 ∧ length decoded ≤ ec_k cfg * ec_data_shard_size cfg ∧
    build_encoding_matrix (Z.to_nat (ec_n cfg)) k = Ok m ∧
    let S := code m (data_rows cfg decoded) (Z.to_nat (ec_data_shard_size cfg)) in
    encode_shards decoded cfg c2 = (Ok S, c3) ∧ length S = Z.to_nat (ec_n cfg) ∧
    ((r = Ok () ∧ rs_merkle_commitment (E:=ChallengeError) S = Ok root ∧
      ∀ z d, (z, d) ∈ ar_shards resp → S !! Z.to_nat z = Some d) ∨
     ((∃ e, r = Err e) ∧ (rs_merkle_commitment (E:=ChallengeError) S ≠ Ok root ∨
      ∃ z d, (z, d) ∈ ar_shards resp ∧ S !! Z.to_nat z ≠ Some d))).
Proof.
  intros Hc Hsize Hid Hperm Hk. cbv zeta. unfold verify_availability_response.
  rewrite (bool_decide_false (ar_blob_id resp ≠ _)) by (by intros []).
  rewrite (bool_decide_false (sorted_indices _ ≠ _)) by (intros Hn; by apply Hn, sorted_indices_eq).
  rewrite bool_decide_false by lia. set (r := fst _).
  destruct (decide (decodable cfg (ar_shards resp))) as [Hd|Hd].
  2:{ left. split; [done|].
      destruct (decode_shards_fail cfg Hcfg (ar_shards resp) (br_size_bytes ref) c Hc Hd)
        as (why & c' & Hrun & _).
      unfold r, mbind, M_bind, map_err_run. rewrite Hrun. by eexists. }
  right.
  destruct (decode_shards_run cfg Hcfg (ar_shards resp) (br_size_bytes ref) c Hc Hd)
    as (m & ss & inv & c1 & Hrun & Hc1 & Hm & Hb & Hss & Hinv & Hkl & Hsz).
  set (decoded := take _ _) in Hrun.
  assert (Hlen : length decoded ≤ ec_k cfg * ec_data_shard_size cfg).
  { unfold decoded. rewrite (length_decoded cfg Hcfg _ ss inv m) by done. lia. }
  destruct (encode_shards_sizes cfg decoded c1 Hcfg Hc1 Hlen) as (m' & c3 & He & _ & _ & Hb' & HlS & _).
  assert (m' = m) as -> by congruence.
  exists decoded, m, c1, c1, c3. split; [done|]. split; [done|]. split; [done|]. split; [done|].
  cbv zeta. set (S := code m _ _) in *. split; [done|]. split; [done|].
  destruct (commitment_total (E:=ChallengeError) S) as [h Hh].
  { intros Hnil. rewrite Hnil in HlS. cbn in HlS. destruct Hcfg. lia. }
  assert (Hr : r = if bool_decide (h ≠ root) then Err (Commitment "recomputed merkle root mismatch")
                   else check_shards S (ar_shards resp)).
  { unfold r, mbind, M_bind, map_err_run, lift. rewrite Hrun. cbn. rewrite He. cbn. rewrite Hh. cbn.
    by case_bool_decide. }
  rewrite Hr, Hh. case_bool_decide as Hroot.
  { right. split; [by eexists|]. left. congruence. }
  subst h.
  destruct (check_shards_spec S (ar_shards resp)) as [[Hok Hall]|[He' Hbad]].
  - eapply Forall_impl; [apply Hd|]. intros p [Hp _]. by rewrite HlS.
  - left. auto.
  - right. auto.
Qed.
End da.

Section da_properties.
Context `{Build, Primitives}.
Hypothesis digest_length : ∀ x, length (h32_bytes (blake3 x)) = 32%nat.

(** [C36] The verdict on a data-availability response, for the commitment of an honest
    publisher.  A response to the asked indices whose shards are the
    published ones, [k] of them distinct, is accepted; an accepted response
    with at least [k] shards carries only published shards, unless two inputs
    of the hash collide; verification never panics.  And a response with
    fewer than [k] shards is accepted whatever bytes it carries. *)
Theorem availability_verdict cfg payload c0 shards c1 root ch resp ref c :
  valid_cfg cfg → cache_ok c0 → cache_ok c →
  length payload ≤ ec_k cfg * ec_data_shard_size cfg →
  encode_shards payload cfg c0 = (Ok shards, c1) →
  rs_merkle_commitment (E:=ChallengeError) shards = Ok root →
  br_size_bytes ref = length payload →
  let r := (verify_availability_response ch resp root ref cfg c).1 in
  let asked := ar_blob_id resp = ac_blob_id ch ∧ (ar_shards resp).*1 ≡ₚ ac_shard_indices ch in
  let genuine := ∀ z d, (z, d) ∈ ar_shards resp → shards !! Z.to_nat z = Some d in
  (asked → genuine → (Z.to_nat (ec_k cfg) ≤ length (distinct (ar_shards resp)))%nat → r = Ok ()) ∧
  (r = Ok () → asked ∧
     ((length (ar_shards resp) < Z.to_nat (ec_k cfg))%nat ∨ genuine ∨ collision)) ∧
  (asked → (length (ar_shards resp) < Z.to_nat (ec_k cfg))%nat → r = Ok ()) ∧
  (r = Ok () ∨ ∃ e, r = Err e).
Proof using digest_length.
  intros Hcfg Hc0 Hc Hp He Hroot Hsize r asked genuine.
  destruct (encode_shards_sizes cfg payload c0 Hcfg Hc0 Hp) as (m & c' & He' & _ & Hm & Hb & Hl & _).
  rewrite He in He'. injection He' as -> _.
  set (S := code m (data_rows cfg payload) (Z.to_nat (ec_data_shard_size cfg))) in *.
  clear He.
  assert (Hasked : ¬ asked → ∃ e, r = Err e).
  { intros Hna. unfold r, verify_availability_response. case_bool_decide as H1; [by eexists|].
    case_bool_decide as H2; [by eexists|]. destruct Hna. split; [done|].
    by apply sorted_indices_eq. }
  assert (Hshort : asked → (length (ar_shards resp) < Z.to_nat (ec_k cfg))%nat → r = Ok ()).
  { intros [Hid Hperm] Hk. unfold r, verify_availability_response.
    rewrite bool_decide_false by (by intros []).
    rewrite bool_decide_false by (intros Hn; by apply Hn, sorted_indices_eq).
    by rewrite bool_decide_true. }
  destruct (decide (ar_blob_id resp = ac_blob_id ch ∧ (ar_shards resp).*1 ≡ₚ ac_shard_indices ch))
    as [Ha|Hna].
  2:{ destruct (Hasked Hna) as [e Hr]. rewrite Hr in *. split; [done|]. split; [done|].
      split; [done|]. right. by eexists. }
  destruct (decide (length (ar_shards resp) < Z.to_nat (ec_k cfg))%nat) as [Hk|Hk].
  { rewrite (Hshort Ha Hk). split; [done|]. split; [intros _; split; [done|by left]|]. auto. }
  pose proof (verify_long cfg Hcfg ch resp root ref c Hc ltac:(lia) (proj1 Ha) (proj2 Ha) ltac:(lia))
    as Hlong. cbv zeta in Hlong. fold r in Hlong.
  destruct Hlong as [[Hnd [e Hr]]|(decoded & m' & d1 & d2 & d3 & Hdec & Hd1 & Hlen & Hb' & He' & HlS & Hcase)].
  { rewrite Hr. split; [|split; [done|split; [by intros _ ?|right; by eexists]]].
    intros _ Hg Hkd. destruct Hnd. split; [|done]. apply Forall_forall. intros [z d] Hzd.
    specialize (Hg _ _ Hzd). destruct (data_rows_spec cfg Hcfg payload Hp) as (_ & HD & _). split; cbn.
    - rewrite <- Hl. by eapply lookup_lt_Some.
    - rewrite (rect_lookup _ _ _ _ (code_rect m _ _ HD) Hg). destruct Hcfg. lia. }
  assert (m' = m) as -> by congruence.
  set (S' := code m (data_rows cfg decoded) _) in *.
  destruct Hcase as [(Hr & Hcommit & Hall)|([e Hr] & Hbad)]; rewrite Hr.
  - split; [done|]. split; [|split; [done|by left]]. intros _. split; [done|]. right.
    destruct (commitment_inj (E:=ChallengeError) digest_length S' S root) as [HSS|?];
      [congruence|exact Hcommit|exact Hroot| |by right].
    left. intros z d Hzd. rewrite <- HSS. by apply Hall.
  - split; [|split; [done|split; [by intros _ ?|right; by eexists]]].
    intros _ Hg Hkd. exfalso.
    destruct (decode_code cfg Hcfg m payload (ar_shards resp) c Hc Hp Hb Hm Hg Hkd) as (c4 & Hd4 & _).
    rewrite Hsize, Hd4 in Hdec. injection Hdec as <- _. fold S in S'.
    destruct Hbad as [Hbad|(z & d & Hzd & Hbad)]; [by apply Hbad|]. by apply Hbad, Hg.
Qed.
End da_properties.

(** ** Witnesses *)

#[local] Instance w_build : Build := true.

Definition w_shards : list shard :=
  match (encode_shards w_payload w_cfg ∅).1 with Ok ss => ss | _ => [] end.
Definition w_get (_ : BlobId) (i : Z) : outcome () (option shard) := Ok (w_shards !! Z.to_nat i).
Definition w_id : BlobId := MkBlobId (replicate 32 5).

Lemma w_encode :
  encode_shards w_payload w_cfg ∅ = (Ok w_shards, (encode_shards w_payload w_cfg ∅).2).
Proof.
  assert (Hok : (encode_shards w_payload w_cfg ∅).1 = Ok w_shards) by (vm_compute; reflexivity).
  rewrite <- Hok. apply surjective_pairing.
Qed.

Lemma custody_available_at_k_witness :
  let s := MkCustodyState (register_erasure w_id w_cfg 4 5 empty_ledger) ∅ in
  ∃ bs s', note_all w_get w_id [3; 3; 1; 0] s = (Ok bs, s') ∧
    is_available w_id (cs_ledger s') = true ∧ trues bs = 1%nat.
Proof.
  exact (custody_available_at_k w_get w_id w_cfg 4 5 empty_ledger ∅ w_payload w_shards ∅ _
    [3; 3; 1; 0] w_cfg_valid cache_ok_empty cache_ok_empty ltac:(vdecide) w_encode
    (λ i d Hd, f_equal Ok Hd) (lookup_empty _) eq_refl ltac:(vdecide)).
Defined.

Definition w_get_poison (b : BlobId) (i : Z) : outcome () (option shard) :=
  if decide (i = 9) then Ok (Some [x00; x00; x00]) else w_get b i.

Lemma custody_poisoned_witness :
  let s := MkCustodyState (register_erasure w_id w_cfg 4 5 empty_ledger) ∅ in
  ∃ bs s', note_all w_get_poison w_id [1; 9; 0; 1; 2; 3] s = (Ok bs, s') ∧
    is_available w_id (cs_ledger s') = false ∧ trues bs = 0%nat.
Proof.
  exact (custody_poisoned w_get_poison w_id w_cfg 4 5 empty_ledger ∅ [1] 9 [x00; x00; x00]
    [0; 1; 2; 3] w_cfg_valid cache_ok_empty (lookup_empty _) eq_refl ltac:(vdecide)
    ltac:(vdecide) ltac:(vdecide) eq_refl).
Defined.

Lemma toy_digest_length x : length (h32_bytes (blake3 x)) = 32%nat.
Proof. apply length_be_bytes. Qed.

Definition w_root : Hash32 :=
  match rs_merkle_commitment (E:=ChallengeError) w_shards with Ok h => h | _ => MkHash32 [] end.

Lemma availability_verdict_witness :
  let ch := MkAvailabilityChallenge w_id [1; 3] (MkValidatorId []) in
  let resp := MkAvailabilityResponse w_id [(3, nth 3 w_shards []); (1, nth 1 w_shards [])] in
  let ref := MkBlobRef w_id w_root 5 in
  (verify_availability_response ch resp w_root ref w_cfg ∅).1 = Ok ().
Proof.
  intros ch resp ref.
  destruct (availability_verdict toy_digest_length w_cfg w_payload ∅ w_shards
    (encode_shards w_payload w_cfg ∅).2 w_root ch resp ref ∅ w_cfg_valid cache_ok_empty cache_ok_empty
    ltac:(vdecide) w_encode ltac:(vm_compute; reflexivity) eq_refl) as (Hok & _).
  apply Hok.
  - split; [reflexivity|]. apply Permutation_swap.
  - intros z d [He|[He|[]%elem_of_nil]%elem_of_cons]%elem_of_cons;
      pose proof (f_equal fst He) as Hz; pose proof (f_equal snd He) as Hd; cbn [fst snd] in Hz, Hd;
      subst z d; vm_compute; reflexivity.
  - vm_compute. lia.
Defined.
