(* ===== verification/BlobNode.v ===== *)
(** [apps/node/src/blob]: publishing blobs and keeping custody of chunks on a node.

    [BlobNode] is what [BlobCustodyHandle] and [BlobCustody] share: the
    database, the custody ledger, the queue of blobs to attach, and the gate that
    opens after boot recovery; [bn_sent] are the chunks handed to gossip.
    [node_inv] is what holds of a node at any time, [ready_content] what the chunk rows of a
    [Ready] blob hold.
    Metrics and logging have no state here. *)

From S2P Require Import Prelude Bytes Types Crypto Toy Gf256 Erasure Storage Blob.
Open Scope Z_scope.

(** ** The chunk store ([rocks_store.rs]) *)

Definition chunk_payload_bytes (c : BlobChunk) : bytes := shard_bytes (chunk_data c).

(** The bytes of a row, read back as a shard. *)
Definition bytes_shard (bs : bytes) : shard := (λ b, u8_of_N (Z.to_N b)) <$> bs.

Section rocks_store.
Context `{RocksDb D, Codec StoredChunk, Codec PublishRecord}.

(** The loop of [publish_blob_atomic] over the chunks. *)
Fixpoint batch_chunks (db : D) (chunks : list BlobChunk) (batch : WriteBatch)
  : sresult WriteBatch :=
  match chunks with
  | [] => Ok batch
  | c :: chunks =>
      batch ← blob_chunk_store.put_batch batch db (bc_blob_id c) (chunk_index c)
                (chunk_unit_count c) (bc_size_bytes c) (chunk_payload_bytes c);
      batch_chunks db chunks batch
  end.

Definition publish_blob_atomic (chunks : list BlobChunk) (record : PublishRecord)
  : M StoreError D () :=
  db ← gets id;
  batch ← lift (batch_chunks db chunks new_batch);
  batch ← lift (blob_publish_store.put_ready_batch batch db
                  (br_blob_id (pr_blob_ref record)) record);
  apply_batch batch.

Definition put_chunk (c : BlobChunk) : M StoreError D () :=
  blob_chunk_store.put (bc_blob_id c) (chunk_index c) (chunk_unit_count c) (bc_size_bytes c)
    (chunk_payload_bytes c).

Definition get_chunk (db : D) (blob_id : BlobId) (index : Z) : sresult (option shard) :=
  o ← blob_chunk_store.get db blob_id index; Ok (option_map bytes_shard o).

Definition has_chunk (db : D) (blob_id : BlobId) (index : Z) : sresult bool :=
  blob_chunk_store.has db blob_id index.

(** [types::dag::ChunkRef] *)
Definition ChunkRef : Type := BlobId * Z.

(** [for index in 0..64u32] *)
Definition list_chunk_refs (db : D) (blob_id : BlobId) : sresult (list ChunkRef) :=
  os ← omap_list (λ index,
    has_chunk db blob_id index ≫= λ b : bool, Ok (if b then [(blob_id, index)] else []))
    (seqZ 0 64);
  Ok (mjoin (os : list (list ChunkRef))).
End rocks_store.

(** ** The pending queue *)

Record PendingQueue := MkPendingQueue { pq_queue : list BlobRef; pq_ids : gset BlobId }.
#[global] Instance PendingQueue_eta : Settable PendingQueue := λ q,
  MkPendingQueue (pq_queue q) (pq_ids q).

Definition empty_queue : PendingQueue := MkPendingQueue [] ∅.

Definition enqueue (blob_ref : BlobRef) (q : PendingQueue) : bool * PendingQueue :=
  if bool_decide (br_blob_id blob_ref ∈ pq_ids q) then (false, q)
  else (true, MkPendingQueue (pq_queue q ++ [blob_ref]) ({[br_blob_id blob_ref]} ∪ pq_ids q)).

Definition drain (q : PendingQueue) : list BlobRef * PendingQueue :=
  (pq_queue q, MkPendingQueue [] (foldl (λ ids b, ids ∖ {[br_blob_id b]}) (pq_ids q) (pq_queue q))).

(** ** The node *)

Inductive BlobError :=
| BlobBoot
| BlobErasure (e : ErasureError)
| BlobStore (e : StoreError).
#[global] Instance BlobError_eq_dec : EqDecision BlobError.
Proof. solve_decision. Defined.

Record BlobNode (D : Type) := MkBlobNode {
  bn_db : D;
  bn_custody : CustodyState;
  bn_pending : PendingQueue;
  bn_boot_sync_done : bool;
  bn_sent : list BlobChunk;
}.
Arguments MkBlobNode {_}.
Arguments bn_db {_}.
Arguments bn_custody {_}.
Arguments bn_pending {_}.
Arguments bn_boot_sync_done {_}.
Arguments bn_sent {_}.
#[global] Instance BlobNode_eta D : Settable (BlobNode D) := λ n,
  MkBlobNode (bn_db n) (bn_custody n) (bn_pending n) (bn_boot_sync_done n) (bn_sent n).

Section node.
Context `{Build, Primitives, RocksDb D, Codec StoredChunk, Codec PublishRecord}.
Context (cfg : ErasureConfig).

Abbreviation BM := (M BlobError (BlobNode D)).

(** The cache of matrices, the ledger, the database of the node. *)
Definition on_cache {A} (m : M ErasureError MatrixCache A) : BM A := λ s,
  let '(r, c) := m (cs_cache (bn_custody s)) in
  (map_err BlobErasure r, s <| bn_custody := (bn_custody s) <| cs_cache := c |> |>).
Definition on_ledger (f : CustodyLedger → CustodyLedger) : BM () :=
  modify (λ s : BlobNode D,
    s <| bn_custody := (bn_custody s) <| cs_ledger := f (cs_ledger (bn_custody s)) |> |>).
Definition on_db {A} (m : M StoreError D A) : BM A := λ s,
  let '(r, db) := m (bn_db s) in (map_err BlobStore r, s <| bn_db := db |>).

Definition node_is_available (blob_id : BlobId) (s : BlobNode D) : bool :=
  is_available blob_id (cs_ledger (bn_custody s)).

Definition max_payload_bytes {E} : outcome E Z := padded_len cfg.

(** [.expect("encode shards")] *)
Definition blob_ref_commitment (payload : shard) : BM Hash32 :=
  shards ← (λ s, let '(r, s') := on_cache (encode_shards payload cfg) s in
                 (match r with Ok ss => Ok ss | NoFuel => NoFuel | _ => Panic end, s'));
  lift (rs_merkle_commitment shards).

Definition enqueue_pending (blob : BlobRef) : BM () :=
  modify (λ s : BlobNode D, s <| bn_pending := (enqueue blob (bn_pending s)).2 |>).

Definition register_chunk_in_ledger (c : BlobChunk) : BM () :=
  on_ledger (register_erasure (bc_blob_id c) cfg (chunk_unit_count c) (bc_size_bytes c)).

(** [ledger.note_chunk(.., &*self.store)] *)
Definition node_note_chunk (blob_id : BlobId) (index : Z) : BM bool := λ s,
  let '(r, cs) := note_chunk (get_chunk (bn_db s)) blob_id index (bn_custody s) in
  (map_err BlobErasure r, s <| bn_custody := cs |>).

Definition drain_pending : BM (list BlobRef) :=
  ready ← gets bn_boot_sync_done;
  if negb ready then mret [] else
  drained ← gets (λ s, pq_queue (bn_pending s));
  _ ← modify (λ s : BlobNode D, s <| bn_pending := (drain (bn_pending s)).2 |>);
  db ← gets bn_db;
  mret (filter (λ b, blob_publish_store.is_attached db (br_blob_id b) ≠ Ok true) drained).

Definition node_mark_attached (blob_id : BlobId) : BM () :=
  on_db (blob_publish_store.put_attached blob_id).

Definition publish_payload (payload : shard) : BM BlobId :=
  ready ← gets bn_boot_sync_done;
  if negb ready then lift (Err BlobBoot) else
  let blob_id := blob_id_from_payload payload in
  let size_bytes := Z.of_nat (length payload) in
  shards ← on_cache (encode_shards payload cfg);
  chunks ← lift (erasure_chunks blob_id size_bytes shards);
  commitment ← blob_ref_commitment payload;
  let blob_ref := MkBlobRef blob_id commitment size_bytes in
  _ ← on_db (publish_blob_atomic chunks (MkPublishRecord (PublishState_u8 Ready) blob_ref));
  _ ← enqueue_pending blob_ref;
  _ ← for_each chunks (λ c,
        _ ← register_chunk_in_ledger c;
        _ ← node_note_chunk (bc_blob_id c) (chunk_index c);
        mret ());
  _ ← modify (λ s : BlobNode D, s <| bn_sent ::= (λ l, l ++ chunks) |>);
  mret blob_id.

(** One turn of [BlobCustody::run]: a chunk received from gossip. *)
Definition ingest (c : BlobChunk) : BM () := λ s,
  match on_db (put_chunk c) s with
  | (Ok _, s') =>
      (_ ← register_chunk_in_ledger c;
       _ ← node_note_chunk (bc_blob_id c) (chunk_index c);
       mret ()) s'
  | (Err _, s') => (Ok (), s')
  | (Panic, s') => (Panic, s')
  | (NoFuel, s') => (NoFuel, s')
  end.

(** ** Boot recovery *)

Definition validate_chunks (db : D) (blob_id : BlobId) (n : Z) : bool :=
  forallb (λ index, bool_decide (has_chunk db blob_id index = Ok true)) (seqZ 0 n).

Definition store_has_chunk (db : D) (blob_id : BlobId) (index : Z) : bool :=
  bool_decide (has_chunk db blob_id index = Ok true).

Definition rehydrate_chunk (db : D) (blob_id : BlobId) (l : CustodyLedger) (index : Z)
  : CustodyLedger :=
  if store_has_chunk db blob_id index then (note_chunk_present blob_id index l).2 else l.

Definition rehydrate_ledger (db : D) (blob_ref : BlobRef) (l : CustodyLedger) : CustodyLedger :=
  foldl (rehydrate_chunk db (br_blob_id blob_ref))
    (register_erasure (br_blob_id blob_ref) cfg (ec_n cfg) (br_size_bytes blob_ref) l)
    (seqZ 0 (ec_n cfg)).

Definition run_boot_recovery : BM () :=
  db ← gets bn_db;
  match blob_publish_store.scan_ready db with
  | Ok ready =>
      for_each ready (λ blob_ref,
        if negb (validate_chunks db (br_blob_id blob_ref) (ec_n cfg)) then mret () else
        _ ← on_ledger (rehydrate_ledger db blob_ref);
        enqueue_pending blob_ref)
  | Err _ => mret ()
  | Panic => panic
  | NoFuel => nofuel
  end.

(** [BlobCustody::spawn] on an opened database; [cache] is the process's. *)
Definition spawn (db : D) (cache : MatrixCache) : outcome BlobError () * BlobNode D :=
  let s := MkBlobNode db (MkCustodyState empty_ledger cache) empty_queue false [] in
  (_ ← run_boot_recovery; modify (λ s : BlobNode D, s <| bn_boot_sync_done := true |>)) s.
End node.

(** ** The matrix cache stays coherent, whatever the configuration *)

Section cache.
Context `{Build}.

Lemma cached_encoding_matrix_cache cfg c :
  cache_ok c → wp (cached_encoding_matrix cfg) (λ _, cache_ok) c.
Proof.
  intros Hc. unfold wp, cached_encoding_matrix, mbind, M_bind, gets, lift, modify, mret, M_ret.
  destruct (c !! _) as [m|]; [done|].
  destruct (build_encoding_matrix _ _) as [m| | |] eqn:Hb; cbn; [|done..].
  intros n k m'. destruct (decide ((n, k) = (ec_n cfg, ec_k cfg))) as [He|Hne].
  - rewrite He, lookup_insert_eq. intros [= <-]. by injection He as -> ->.
  - rewrite lookup_insert_ne by done. apply Hc.
Qed.

Lemma wp_keep {E A B : Type} (m : M E MatrixCache A) (f : A → M E MatrixCache B) c :
  wp m (λ _, cache_ok) c → (∀ a c', cache_ok c' → wp (f a) (λ _, cache_ok) c') →
  wp (m ≫= f) (λ _, cache_ok) c.
Proof. intros Hm Hf. apply wp_bind. eapply wp_mono; [|exact Hm]. intros [] c' Hc'; auto. Qed.

Ltac keep_cache :=
  repeat first
    [ assumption
    | apply cached_encoding_matrix_cache; assumption
    | apply wp_lift; assumption
    | apply wp_ret; assumption
    | apply wp_keep; [|intros ???]
    | case_match ].

Lemma encode_shards_cache payload cfg c :
  cache_ok c → wp (encode_shards payload cfg) (λ _, cache_ok) c.
Proof. intros Hc. unfold encode_shards. keep_cache. Qed.

Lemma decode_shards_cache present cfg orig_len c :
  cache_ok c → wp (decode_shards present cfg orig_len) (λ _, cache_ok) c.
Proof.
  intros Hc. unfold decode_shards. keep_cache. unfold reconstruct_shards. keep_cache.
Qed.
End cache.

(** ** What publishing writes *)

Definition ref_ok (b : BlobRef) : Prop :=
  length (bid_bytes (br_blob_id b)) = 32%nat ∧ length (h32_bytes (br_commitment b)) = 32%nat ∧
  bytes_ok (bid_bytes (br_blob_id b)) ∧ bytes_ok (h32_bytes (br_commitment b)) ∧
  u64_ok (br_size_bytes b).
Definition publish_ok (r : PublishRecord) : Prop := u8_ok (pr_state r) ∧ ref_ok (pr_blob_ref r).

(** What the Borsh encoding of publish records provides: records decode back
    from their own encoding, and what is decoded is a record. *)
Class PublishCodecLaws `{Codec PublishRecord} := {
  publish_encodable r : publish_ok r → encodable r;
  publish_decoded bs r : from_slice bs = Some r → publish_ok r;
}.

Lemma set_rows_other ops m k :
  k ∉ ops.*1 → set_rows ops m !! k = m !! k.
Proof.
  revert m. induction ops as [|[k' v] ops IH]; intros m Hk; [done|].
  cbn in Hk. apply not_elem_of_cons in Hk as [Hne Hk]. unfold set_rows in *. cbn.
  rewrite IH by done. by apply lookup_insert_ne.
Qed.

Lemma set_rows_Some ops m k :
  is_Some (m !! k) ∨ k ∈ ops.*1 → is_Some (set_rows ops m !! k).
Proof.
  revert m. induction ops as [|[k' v] ops IH]; intros m Hk; [by destruct Hk as [?|?%not_elem_of_nil]|].
  unfold set_rows in *. cbn. apply IH. destruct (decide (k' = k)) as [->|Hne].
  - left. rewrite lookup_insert_eq. by eexists.
  - rewrite lookup_insert_ne by done. destruct Hk as [?|[->|?]%elem_of_cons]; auto. done.
Qed.

Lemma set_rows_app ops ops' m : set_rows (ops ++ ops') m = set_rows ops' (set_rows ops m).
Proof. apply foldl_app. Qed.

Section db.
Context `{RocksLaws D, Codec StoredChunk, PublishCodecLaws}.

Definition chunk_op (c : BlobChunk) : string * bytes * bytes :=
  ((cf_name CF_BlobChunk, keys.blob_chunk (bc_blob_id c) (chunk_index c)),
   to_vec (MkStoredChunk (chunk_unit_count c) (bc_size_bytes c) (chunk_payload_bytes c))).
Definition publish_op (r : PublishRecord) : string * bytes * bytes :=
  ((cf_name CF_BlobPublish, keys.blob_id (br_blob_id (pr_blob_ref r))), to_vec r).

Lemma batch_chunks_Ok (db : D) chunks batch b :
  batch_chunks db chunks batch = Ok b → b = batch ++ (chunk_op <$> chunks).
Proof.
  revert batch. induction chunks as [|c chunks IH]; intros batch; cbn [batch_chunks].
  { intros [= <-]. symmetry. apply app_nil_r. }
  intros (b' & (h & ->%db_cf_Ok & [= <-])%outcome_bind_Ok & Hb)%outcome_bind_Ok.
  apply IH in Hb as ->. unfold batch_put_cf. by rewrite <- (assoc_L (++)).
Qed.

Lemma publish_blob_atomic_inv chunks record (db db' : D) r :
  publish_blob_atomic chunks record db = (r, db') →
  match r with
  | Ok _ => pr_state record = PublishState_u8 Ready ∧
      rows db' = set_rows ((chunk_op <$> chunks) ++ [publish_op record]) (rows db)
  | _ => db' = db
  end.
Proof.
  unfold publish_blob_atomic, mbind, M_bind, gets, lift. cbv beta iota. cbn [id].
  destruct (batch_chunks db chunks new_batch) as [b| | |] eqn:Hb; [|by intros [= <- <-]..].
  apply batch_chunks_Ok in Hb. cbn in Hb. subst b.
  destruct (blob_publish_store.put_ready_batch _ _ _ _) as [b| | |] eqn:Hp; [|by intros [= <- <-]..].
  unfold blob_publish_store.put_ready_batch in Hp.
  destruct (Z.eqb_spec (pr_state record) (PublishState_u8 Ready)) as [Hs|]; [|done].
  cbn [negb] in Hp. apply outcome_bind_Ok in Hp as (h & ->%db_cf_Ok & [= <-]).
  unfold apply_batch, mbind, M_bind, gets. cbv beta iota. cbn [id].
  destruct (write_batch _ _) as [d|] eqn:Hw; intros [= <- <-]; [|done].
  split; [done|]. by apply write_batch_rows in Hw as [-> _].
Qed.

(** [put_attached] keeps every row but its own, which stays a record of the blob. *)
Lemma put_attached_run id (db db' : D) r :
  blob_publish_store.put_attached id db = (r, db') →
  db' = db ∨ ∃ record, publish_row db (keys.blob_id id) record ∧
    pr_state record = PublishState_u8 Ready ∧
    rows db' = <[(cf_name CF_BlobPublish, keys.blob_id id) :=
       to_vec (record <| pr_state := PublishState_u8 Attached |>)]> (rows db).
Proof.
  unfold blob_publish_store.put_attached, mbind, M_bind, gets, lift, mret, M_ret. cbn.
  destruct (get_row _ _ _) as [[record|]| | |] eqn:Hg; try by intros [= _ <-]; left.
  apply get_row_Ok in Hg. cbn.
  destruct (PublishState_from_u8 _) as [s| | |] eqn:Hs; try by intros [= _ <-]; left.
  apply PublishState_from_u8_Ok in Hs. destruct s; [|by intros [= _ <-]; left].
  intros Hput. apply put_row_inv in Hput. destruct r; [|by left..].
  right. exists record. done.
Qed.

(** *** The invariant of the database *)

Record db_inv (n : Z) (db : D) : Prop := {
  di_keyed key r : publish_row db key r → key = keys.blob_id (br_blob_id (pr_blob_ref r));
  di_chunks key r i : ready_row db key r → 0 ≤ i < n →
    is_Some (rows db !! (cf_name CF_BlobChunk, keys.blob_chunk (br_blob_id (pr_blob_ref r)) i));
}.

Lemma db_inv_chunk n (db db' : D) key v :
  db_inv n db → rows db' = <[(cf_name CF_BlobChunk, key) := v]> (rows db) → db_inv n db'.
Proof.
  intros [Hk Hc] Hr.
  assert (Hp : ∀ key' r, publish_row db' key' r ↔ publish_row db key' r).
  { intros key' r. unfold publish_row. by rewrite Hr, lookup_insert_ne. }
  constructor.
  - intros key' r. rewrite Hp. apply Hk.
  - intros key' r i [Hrow Hs]. rewrite Hp in Hrow. intros Hi. rewrite Hr.
    destruct (decide ((cf_name CF_BlobChunk, key) =
      (cf_name CF_BlobChunk, keys.blob_chunk (br_blob_id (pr_blob_ref r)) i))) as [He|Hne].
    + rewrite <- He, lookup_insert_eq. by eexists.
    + rewrite lookup_insert_ne by done. by apply (Hc key').
Qed.

Lemma db_inv_attached n (db db' : D) id r :
  db_inv n db → blob_publish_store.put_attached id db = (r, db') → db_inv n db'.
Proof.
  intros [Hk Hc] [->|(record & Hrow & Hs & Hr)]%put_attached_run; [done|].
  set (record' := record <| pr_state := PublishState_u8 Attached |>) in *.
  assert (Hdec : from_slice (to_vec record') = Some record').
  { apply publish_encodable. unfold publish_row in Hrow.
    apply bind_Some in Hrow as (bs & _ & [_ Hok]%publish_decoded). by split. }
  assert (Hp : ∀ key' r', publish_row db' key' r' →
    (key' = keys.blob_id id ∧ r' = record') ∨ publish_row db key' r').
  { intros key' r'. unfold publish_row. rewrite Hr.
    destruct (decide (key' = keys.blob_id id)) as [->|Hne].
    - rewrite lookup_insert_eq. cbn. rewrite Hdec. intros [= <-]. by left.
    - rewrite lookup_insert_ne by congruence. by right. }
  constructor.
  - intros key' r' [[-> ->]|Hr']%Hp; [exact (Hk _ _ Hrow)|by apply Hk].
  - intros key' r' i [[[-> ->]|Hr']%Hp Hst] Hi; [done|].
    rewrite Hr, lookup_insert_ne by done. by apply (Hc key').
Qed.

Lemma db_inv_publish n (db db' : D) chunks record :
  db_inv n db → publish_ok record → publish_blob_atomic chunks record db = (Ok tt, db') →
  (∀ i, 0 ≤ i < n → ∃ c, c ∈ chunks ∧ bc_blob_id c = br_blob_id (pr_blob_ref record) ∧ chunk_index c = i) →
  db_inv n db' ∧ ready_row db' (keys.blob_id (br_blob_id (pr_blob_ref record))) record.
Proof.
  intros [Hk Hc] Hok [Hst Hr]%publish_blob_atomic_inv Hall.
  set (id := br_blob_id (pr_blob_ref record)) in *.
  assert (Hrow : rows db' !! (cf_name CF_BlobPublish, keys.blob_id id) = Some (to_vec record)).
  { rewrite Hr, set_rows_app. unfold set_rows at 1. cbn. apply lookup_insert_eq. }
  assert (Hnew : publish_row db' (keys.blob_id id) record).
  { unfold publish_row. rewrite Hrow. cbn. by apply publish_encodable. }
  assert (Hold : ∀ key, key ≠ keys.blob_id id →
    rows db' !! (cf_name CF_BlobPublish, key) = rows db !! (cf_name CF_BlobPublish, key)).
  { intros key Hne. rewrite Hr. apply set_rows_other. rewrite fmap_app, elem_of_app.
    intros [Hin|Hin].
    - apply list_elem_of_fmap in Hin as (op & He & (c & -> & _)%list_elem_of_fmap). done.
    - apply list_elem_of_singleton in Hin. unfold publish_op in Hin. cbn [fst] in Hin.
      injection Hin as Hin. by apply Hne. }
  split; [|done]. constructor.
  - intros key r Hrow'. destruct (decide (key = keys.blob_id id)) as [->|Hne].
    + unfold publish_row in Hnew, Hrow'. rewrite Hnew in Hrow'. by injection Hrow' as <-.
    + unfold publish_row in Hrow'. rewrite Hold in Hrow' by done. by apply Hk.
  - intros key r i [Hrow' Hs] Hi. rewrite Hr. apply set_rows_Some.
    destruct (decide (key = keys.blob_id id)) as [->|Hne].
    + unfold publish_row in Hnew, Hrow'. rewrite Hnew in Hrow'. injection Hrow' as <-.
      right. destruct (Hall i Hi) as (c & Hin & Hid & <-). rewrite fmap_app, elem_of_app. left.
      fold id. rewrite <- Hid. apply list_elem_of_fmap. exists (chunk_op c).
      split; [done|]. apply list_elem_of_fmap. by exists c.
    + left. apply (Hc key); [|done]. split; [|done]. unfold publish_row in *. by rewrite <- Hold.
Qed.
End db.

(** ** The queue *)

Record queue_ok (q : PendingQueue) : Prop := {
  qo_ids : pq_ids q = list_to_set (br_blob_id <$> pq_queue q);
  qo_nodup : NoDup (br_blob_id <$> pq_queue q);
}.

Lemma enqueue_ok b q : queue_ok q → queue_ok (enqueue b q).2.
Proof.
  intros [Hi Hn]. unfold enqueue. case_bool_decide as Hb; [by constructor|]. constructor; cbn.
  - rewrite fmap_app, list_to_set_app_L, Hi. cbn. set_solver.
  - rewrite fmap_app. apply NoDup_app. split; [done|]. split; [|apply NoDup_singleton].
    intros x Hx [->|[]%elem_of_nil]%elem_of_cons. rewrite Hi in Hb. set_solver.
Qed.

Lemma enqueue_elem b b' q : b' ∈ pq_queue (enqueue b q).2 → b' = b ∨ b' ∈ pq_queue q.
Proof.
  unfold enqueue. case_bool_decide; [by right|]. cbn. rewrite elem_of_app.
  intros [?|[->|[]%elem_of_nil]%elem_of_cons]; auto.
Qed.

Lemma drain_ids (l : list BlobRef) (ids : gset BlobId) :
  foldl (λ ids b, ids ∖ {[br_blob_id b]}) ids l = ids ∖ list_to_set (br_blob_id <$> l).
Proof.
  revert ids. induction l as [|b l IH]; intros ids; cbn; [set_solver|]. rewrite IH. set_solver.
Qed.

Lemma drain_ok q : queue_ok q → drain q = (pq_queue q, empty_queue).
Proof.
  intros [Hi _]. unfold drain, empty_queue. rewrite drain_ids, Hi.
  by rewrite difference_diag_L.
Qed.

Lemma empty_queue_ok : queue_ok empty_queue.
Proof. constructor; [done|constructor]. Qed.

(** ** The invariant of the node *)

Section invariant.
Context `{Build, Primitives, RocksLaws D, Codec StoredChunk, PublishCodecLaws}.
Context (cfg : ErasureConfig) (Hcfg : valid_cfg cfg).
Hypothesis digest_ok : ∀ x, length (h32_bytes (blake3 x)) = 32%nat ∧ bytes_ok (h32_bytes (blake3 x)).

Record node_inv (s : BlobNode D) : Prop := {
  ni_cache : cache_ok (cs_cache (bn_custody s));
  ni_db : db_inv (ec_n cfg) (bn_db s);
  ni_queue : queue_ok (bn_pending s);
  ni_published b : b ∈ pq_queue (bn_pending s) →
    ∃ r, publish_row (bn_db s) (keys.blob_id (br_blob_id b)) r;
}.

(** What only touches custody, or the log of sent chunks. *)
Record framed (s s' : BlobNode D) : Prop := {
  fr_db : bn_db s' = bn_db s;
  fr_pending : bn_pending s' = bn_pending s;
  fr_boot : bn_boot_sync_done s' = bn_boot_sync_done s;
  fr_cache : cache_ok (cs_cache (bn_custody s'));
}.

Lemma framed_inv s s' : framed s s' → node_inv s → node_inv s'.
Proof using. intros [Hd Hp _ Hc] [_ Hdb Hq Hpub]. constructor; rewrite ?Hd, ?Hp; done. Qed.

Lemma framed_trans s1 s2 s3 : framed s1 s2 → framed s2 s3 → framed s1 s3.
Proof using. intros [] []. constructor; first [congruence|assumption]. Qed.

Lemma on_cache_framed {A} (m : M ErasureError MatrixCache A) s :
  wp m (λ _, cache_ok) (cs_cache (bn_custody s)) → wp (on_cache m) (λ _, framed s) s.
Proof using. unfold wp, on_cache. destruct (m _) as [r c]. cbn. by constructor. Qed.

Lemma on_ledger_framed f s :
  cache_ok (cs_cache (bn_custody s)) → wp (on_ledger f) (λ _, framed s) s.
Proof using. intros Hc. by constructor. Qed.

Lemma note_chunk_cache {SE} (get : BlobId → Z → outcome SE (option shard)) b i s :
  cache_ok (cs_cache s) → cache_ok (cs_cache (note_chunk get b i s).2).
Proof using.
  intros Hc. unfold note_chunk, mbind, M_bind, gets, modify, mret, M_ret, zoom. cbv beta iota.
  destruct (is_available _ _); [done|]. destruct (cl_meta _ !! _) as [meta|]; [|done]. cbv zeta.
  set (meta' := meta <| bm_received ::= _ |>). clearbody meta'.
  assert (He : cache_ok (erasure_available get b meta' (cs_cache s)).2).
  { unfold erasure_available. case_bool_decide; [done|]. case_bool_decide; [done|].
    unfold is_ok_run. pose proof (decode_shards_cache
      (stored_chunks get b (elements (bm_received meta'))) (bm_cfg meta') (bm_size_bytes meta') _ Hc) as Hd.
    unfold wp in Hd. by destruct (decode_shards _ _ _ _) as [[] c]. }
  destruct s as [l c]. cbn in *.
  destruct (erasure_available get b meta' c) as [[[]| | |] c']; exact He.
Qed.

Lemma node_note_framed b i s :
  cache_ok (cs_cache (bn_custody s)) → wp (node_note_chunk b i) (λ _, framed s) s.
Proof using.
  intros Hc. unfold wp, node_note_chunk.
  pose proof (note_chunk_cache (get_chunk (bn_db s)) b i (bn_custody s) Hc) as Hn.
  destruct (note_chunk _ _ _ _) as [r cs]. by constructor.
Qed.

Lemma note_one_framed s0 c s :
  framed s0 s →
  wp (_ ← register_chunk_in_ledger cfg c;
      _ ← node_note_chunk (bc_blob_id c) (chunk_index c); mret tt) (λ _, framed s0) s.
Proof using.
  intros Hs. apply wp_bind. eapply wp_mono; [|apply on_ledger_framed, Hs].
  intros r s1 Hf1. assert (Hs1 : framed s0 s1) by (by eapply framed_trans).
  destruct r; [|done..]. apply wp_bind.
  eapply wp_mono; [|apply node_note_framed, Hs1]. intros r s2 Hf2.
  assert (Hs2 : framed s0 s2) by (by eapply framed_trans). by destruct r.
Qed.

(** *** Publishing *)

Lemma encode_shards_Ok payload c shards c' :
  cache_ok c → encode_shards payload cfg c = (Ok shards, c') →
  length payload ≤ ec_k cfg * ec_data_shard_size cfg ∧ length shards = Z.to_nat (ec_n cfg).
Proof using Hcfg.
  intros Hc He. destruct (Z.ltb_spec (ec_k cfg * ec_data_shard_size cfg) (length payload)) as [Hlt|Hle].
  - exfalso. unfold encode_shards in He. rewrite (run_lift _ _ _ _ (valid_validate _ Hcfg)) in He.
    rewrite (run_lift _ _ _ _ (valid_padded_len _ Hcfg)), (proj2 (Z.ltb_lt _ _)) in He by done. done.
  - split; [done|]. destruct (encode_shards_sizes cfg payload c Hcfg Hc Hle)
      as (m & c'' & He' & _ & _ & _ & Hl & _). rewrite He in He'. by injection He' as -> _.
Qed.

Lemma erasure_chunks_all {E} id size shards chunks :
  length shards = Z.to_nat (ec_n cfg) → erasure_chunks (E:=E) id size shards = Ok chunks →
  ∀ i, 0 ≤ i < ec_n cfg → ∃ c, c ∈ chunks ∧ bc_blob_id c = id ∧ chunk_index c = i.
Proof using.
  intros Hl (n & _ & [= <-])%outcome_bind_Ok i Hi.
  destruct (lookup_lt_is_Some_2 shards (Z.to_nat i)) as [d Hd]; [lia|].
  eexists. split; [|split].
  - apply list_elem_of_lookup. exists (Z.to_nat i). by rewrite list_lookup_imap, Hd.
  - done.
  - cbn. lia.
Qed.

Lemma blake3_ref_ok d data : length (h32_bytes (blake3_with_dst d data)) = 32%nat ∧
  bytes_ok (h32_bytes (blake3_with_dst d data)).
Proof using digest_ok. apply digest_ok. Qed.

(** The state of a publication after its batch. *)
Definition published (payload : shard) (s s' : BlobNode D) : Prop :=
  ∃ record, br_blob_id (pr_blob_ref record) = blob_id_from_payload payload ∧
    br_size_bytes (pr_blob_ref record) = length payload ∧
    ready_row (bn_db s') (keys.blob_id (blob_id_from_payload payload)) record ∧
    bn_pending s' = (enqueue (pr_blob_ref record) (bn_pending s)).2.

Lemma framed_published payload s s1 s2 :
  framed s1 s2 → published payload s s1 → published payload s s2.
Proof using.
  intros [Hd Hp _ _] (record & Hid & Hsz & Hr & Hq). exists record. by rewrite Hd, Hp.
Qed.

Lemma blob_ref_commitment_run payload s :
  cache_ok (cs_cache (bn_custody s)) →
  wp (blob_ref_commitment cfg payload) (λ r s', framed s s' ∧
    ∀ h, r = Ok h → length (h32_bytes h) = 32%nat ∧ bytes_ok (h32_bytes h)) s.
Proof using digest_ok.
  intros Hc. pose proof (on_cache_framed (encode_shards payload cfg) s (encode_shards_cache _ _ _ Hc)) as Hf.
  unfold blob_ref_commitment. apply wp_bind. unfold wp in *.
  destruct (on_cache _ s) as [[ss|e| |] s1]; cbn in *; [|done..].
  split; [done|]. intros h (root & _ & [= <-])%outcome_bind_Ok. apply blake3_ref_ok.
Qed.

Lemma publish_payload_inv payload s :
  node_inv s →
  wp (publish_payload cfg payload) (λ r s', node_inv s' ∧
    ∀ id, r = Ok id → id = blob_id_from_payload payload ∧ published payload s s') s.
Proof.
  intros Hinv. pose proof (ni_cache s Hinv) as Hc. unfold publish_payload.
  apply wp_bind, wp_gets. destruct (bn_boot_sync_done s) eqn:Hboot; cbn [negb]; [|by apply wp_lift].
  apply wp_bind.
  pose proof (on_cache_framed (encode_shards payload cfg) s (encode_shards_cache _ _ _ Hc)) as Hf1.
  unfold wp in Hf1. unfold wp at 1.
  assert (Hshards : ∀ ss, (on_cache (encode_shards payload cfg) s).1 = Ok ss →
    length payload ≤ ec_k cfg * ec_data_shard_size cfg ∧ length ss = Z.to_nat (ec_n cfg)).
  { intros ss. unfold on_cache. destruct (encode_shards payload cfg _) as [r c'] eqn:He. cbn.
    intros Hr. destruct r; try done. injection Hr as ->. by eapply encode_shards_Ok. }
  destruct (on_cache _ s) as [[shards|e| |] s1]; cbn [fst snd] in *;
    try (split; [by eapply framed_inv|done]).
  destruct (Hshards shards eq_refl) as [Hp Hl]. clear Hshards.
  apply wp_bind, wp_lift.
  destruct (erasure_chunks _ _ _) as [chunks|e| |] eqn:Hch; try (split; [by eapply framed_inv|done]).
  apply wp_bind. eapply wp_mono; [|apply blob_ref_commitment_run, Hf1].
  intros [h|e| |] s2 [Hf2 Hh]; try (split; [by eapply framed_inv, framed_inv|done]).
  assert (Hf : framed s s2) by (by eapply framed_trans). clear Hf1 Hf2 s1.
  pose proof (framed_inv _ _ Hf Hinv) as Hinv2. destruct (Hh h eq_refl) as [Hhl Hhb].
  set (ref := MkBlobRef _ h _). set (record := MkPublishRecord _ ref).
  assert (Hok : publish_ok record).
  { split; [done|]. unfold record, ref, ref_ok. cbn. destruct (digest_ok (dst.BLOB_ID ++ [0] ++ shard_bytes payload)).
    destruct (vc_cap _ Hcfg). repeat split; try done; lia. }
  apply wp_bind. unfold wp at 1, on_db.
  destruct (publish_blob_atomic chunks record (bn_db s2)) as [r db'] eqn:Hpub. cbn [fst snd].
  destruct r as [[]|e| |]; cbn [map_err].
  2-4: apply publish_blob_atomic_inv in Hpub; subst db'; split; [|done];
    eapply framed_inv; [|exact Hinv2]; constructor; try done; apply Hinv2.
  destruct (db_inv_publish (ec_n cfg) _ _ _ _ (ni_db _ Hinv2) Hok Hpub) as [Hdb Hready].
  { eapply erasure_chunks_all; [exact Hl|exact Hch]. }
  apply wp_bind, wp_modify.
  set (s3 := (s2 <| bn_db := db' |>) <| bn_pending := _ |>).
  assert (Hinv3 : node_inv s3).
  { constructor; [apply Hinv2|exact Hdb|apply enqueue_ok, Hinv2|].
    intros b [->|Hb]%enqueue_elem; [exists record; apply Hready|].
    destruct (ni_published _ Hinv2 b Hb) as [r Hr].
    destruct (decide (keys.blob_id (br_blob_id b) = keys.blob_id (br_blob_id ref))) as [He|Hne].
    - exists record. cbn. rewrite He. apply Hready.
    - exists r. unfold publish_row in *. rewrite <- Hr. f_equal.
      change (bn_db s3) with db'. apply publish_blob_atomic_inv in Hpub as [_ ->]. apply set_rows_other.
      rewrite fmap_app, elem_of_app. intros [Hin|Hin].
      + apply list_elem_of_fmap in Hin as (op & He & (c & -> & _)%list_elem_of_fmap). done.
      + apply list_elem_of_singleton in Hin. unfold publish_op in Hin. cbn [fst] in Hin.
        injection Hin as Hin. by apply Hne. }
  assert (Hpub3 : published payload s s3).
  { exists record. split; [done|]. split; [done|]. split; [exact Hready|].
    rewrite <- (fr_pending _ _ Hf). reflexivity. }
  assert (Hf3 : framed s3 s3) by (constructor; try done; apply Hinv3).
  apply wp_bind. eapply wp_mono; [|apply (wp_for_each (framed s3)); [|exact Hf3]].
  - intros r s4 Hf4. destruct r as [[]|e| |]; try (split; [by eapply framed_inv|done]).
    apply wp_bind, wp_modify, wp_ret.
    assert (Hf5 : framed s3 (s4 <| bn_sent ::= (λ l, l ++ chunks) |>)) by (destruct Hf4; by constructor).
    split; [by eapply framed_inv|]. intros id [= <-]. split; [done|]. by eapply framed_published.
  - intros c s4 _ Hf4. by apply note_one_framed.
Qed.

(** *** The other operations *)

Lemma framed_refl s : node_inv s → framed s s.
Proof using. intros Hs. constructor; try done. apply Hs. Qed.

Lemma publish_row_chunk (db db' : D) key v key' r :
  rows db' = <[(cf_name CF_BlobChunk, key) := v]> (rows db) →
  publish_row db' key' r ↔ publish_row db key' r.
Proof using. intros Hr. unfold publish_row. by rewrite Hr, lookup_insert_ne. Qed.

Lemma ingest_inv c s : node_inv s → wp (ingest cfg c) (λ _, node_inv) s.
Proof using.
  intros Hinv. unfold wp, ingest, on_db.
  destruct (put_chunk c (bn_db s)) as [r db'] eqn:Hput. apply put_row_inv in Hput.
  assert (Hsame : db' = bn_db s → node_inv (s <| bn_db := db' |>)).
  { intros ->. by destruct s. }
  destruct r as [[]|e| |]; cbn [map_err fst snd]; [|by apply Hsame..].
  set (s1 := s <| bn_db := db' |>).
  assert (Hinv1 : node_inv s1).
  { constructor; [apply Hinv|eapply db_inv_chunk; [apply Hinv|exact Hput]|apply Hinv|].
    intros b Hb. destruct (ni_published _ Hinv b Hb) as [r Hr]. exists r.
    by apply (publish_row_chunk _ _ _ _ _ _ Hput). }
  eapply framed_inv; [|exact Hinv1].
  apply (note_one_framed s1 c s1). by apply framed_refl.
Qed.

Lemma mark_attached_inv id s : node_inv s → wp (node_mark_attached id) (λ _, node_inv) s.
Proof using H4.
  intros Hinv. unfold wp, node_mark_attached, on_db.
  destruct (blob_publish_store.put_attached id (bn_db s)) as [r db'] eqn:Hput. cbn [snd].
  constructor; [apply Hinv|eapply db_inv_attached; [apply Hinv|exact Hput]|apply Hinv|].
  intros b Hb. destruct (ni_published _ Hinv b Hb) as [r' Hr'].
  apply put_attached_run in Hput as [->|(record & Hrow & _ & Hrows)]; [by exists r'|].
  destruct (decide (keys.blob_id (br_blob_id b) = keys.blob_id id)) as [He|Hne].
  - exists (record <| pr_state := PublishState_u8 Attached |>).
    unfold publish_row. cbn [bn_db]. change (bn_db (s <| bn_db := db' |>)) with db'.
    rewrite Hrows, He, lookup_insert_eq. cbn [mbind option_bind].
    apply publish_encodable. unfold publish_row in Hrow.
    apply bind_Some in Hrow as (bs & _ & [_ Hok]%publish_decoded). by split.
  - exists r'. unfold publish_row. change (bn_db (s <| bn_db := db' |>)) with db'.
    rewrite Hrows, lookup_insert_ne by congruence. exact Hr'.
Qed.

Lemma drain_inv s :
  node_inv s → wp drain_pending (λ r s', node_inv s' ∧ bn_db s' = bn_db s ∧
    bn_boot_sync_done s' = bn_boot_sync_done s ∧
    (bn_boot_sync_done s = true →
      r = Ok (filter (λ b, blob_publish_store.is_attached (bn_db s) (br_blob_id b) ≠ Ok true)
                (pq_queue (bn_pending s))) ∧ pq_queue (bn_pending s') = [])) s.
Proof using.
  intros Hinv. unfold drain_pending. apply wp_bind, wp_gets.
  destruct (bn_boot_sync_done s) eqn:Hb; cbn [negb]; [|apply wp_ret; by split_and!].
  apply wp_bind, wp_gets, wp_bind, wp_modify, wp_bind, wp_gets, wp_ret.
  split; [|split; [done|split; [exact Hb|done]]].
  constructor; [apply Hinv|apply Hinv| |].
  - change (queue_ok (drain (bn_pending s)).2). rewrite drain_ok by apply Hinv. apply empty_queue_ok.
  - intros b Hb'. by apply not_elem_of_nil in Hb'.
Qed.

(** The loop of [run_boot_recovery]. *)
Lemma boot_loop_inv (db : D) ready s0 :
  db_inv (ec_n cfg) db → node_inv s0 → bn_db s0 = db →
  (∀ b, b ∈ ready → ∃ key r, ready_row db key r ∧ pr_blob_ref r = b) →
  wp (for_each ready (λ blob_ref,
        if negb (validate_chunks db (br_blob_id blob_ref) (ec_n cfg)) then mret tt else
        _ ← on_ledger (rehydrate_ledger cfg db blob_ref); enqueue_pending blob_ref))
     (λ _ s, node_inv s ∧ bn_db s = db) s0.
Proof using.
  intros Hdb Hinv0 Hdb0 Hready.
  apply (wp_for_each (λ s, node_inv s ∧ bn_db s = db)); [|done].
  intros b s Hb [Hinv Hs]. destruct (validate_chunks _ _ _); cbn [negb]; [|by apply wp_ret].
  apply wp_bind, wp_modify, wp_modify. split; [|exact Hs].
  constructor; [apply Hinv|apply Hinv|apply enqueue_ok, Hinv|].
  intros b' [->|Hb']%enqueue_elem.
  - destruct (Hready _ Hb) as (key & r & [Hrow _] & <-). exists r.
    change (publish_row (bn_db s) (keys.blob_id (br_blob_id (pr_blob_ref r))) r). rewrite Hs.
    by rewrite <- (di_keyed _ _ Hdb _ _ Hrow).
  - exact (ni_published _ Hinv b' Hb').
Qed.

Lemma spawn_inv (db : D) :
  db_inv (ec_n cfg) db →
  node_inv (spawn cfg db ∅).2 ∧ bn_db (spawn cfg db ∅).2 = db.
Proof using.
  intros Hdb. unfold spawn. set (s0 := MkBlobNode _ _ _ _ _).
  assert (Hinv0 : node_inv s0).
  { constructor; [apply cache_ok_empty|done|apply empty_queue_ok|].
    intros b Hb. by apply not_elem_of_nil in Hb. }
  cut (wp (_ ← run_boot_recovery cfg; modify (λ s : BlobNode D, s <| bn_boot_sync_done := true |>))
          (λ _ s, node_inv s ∧ bn_db s = db) s0); [by unfold wp|].
  apply wp_bind. unfold run_boot_recovery. apply wp_bind, wp_gets.
  assert (Hdone : ∀ s, node_inv s ∧ bn_db s = db →
    wp (modify (λ s : BlobNode D, s <| bn_boot_sync_done := true |>))
       (λ (_ : outcome BlobError ()) s, node_inv s ∧ bn_db s = db) s).
  { intros s [Hs Hd]. apply wp_modify. split; [|exact Hd]. by destruct s, Hs; constructor. }
  change (bn_db s0) with db.
  destruct (blob_publish_store.scan_ready db) as [ready|e| |] eqn:Hscan;
    [|apply wp_ret; by apply Hdone|done|done].
  eapply wp_mono; [|apply boot_loop_inv; [exact Hdb|exact Hinv0|done|]].
  - intros r s Hs. destruct r; [by apply Hdone|done..].
  - intros b Hb. by apply (scan_ready_Ok db ready Hscan).
Qed.

(** *** Runs *)

(** What happens to a node: calls of its handles, gossip, and restarts. *)
Inductive node_op :=
| OpPublish (payload : shard)
| OpIngest (c : BlobChunk)
| OpAttach (id : BlobId)
| OpDrain
| OpRestart.

Definition node_step (s : BlobNode D) (op : node_op) : BlobNode D :=
  match op with
  | OpPublish payload => (publish_payload cfg payload s).2
  | OpIngest c => (ingest cfg c s).2
  | OpAttach id => (node_mark_attached id s).2
  | OpDrain => (drain_pending s).2
  | OpRestart => (spawn cfg (bn_db s) ∅).2
  end.

Lemma node_step_inv s op : node_inv s → node_inv (node_step s op).
Proof.
  intros Hs. destruct op as [payload|c|id| |]; cbn.
  - apply (publish_payload_inv payload s Hs).
  - by apply ingest_inv.
  - by apply mark_attached_inv.
  - apply (drain_inv s Hs).
  - apply spawn_inv, Hs.
Qed.

Lemma node_run_inv ops s : node_inv s → node_inv (foldl node_step s ops).
Proof. revert s. induction ops as [|op ops IH]; intros s Hs; [done|]. by apply IH, node_step_inv. Qed.

(** *** What the chunk rows hold *)

(** The chunks [publish_payload] makes of a payload: the encoding does not depend on the cache. *)
Definition chunks_of (payload : shard) (chunks : list BlobChunk) : Prop :=
  ∃ shards, (encode_shards payload cfg ∅).1 = Ok shards ∧
    erasure_chunks (E:=BlobError) (blob_id_from_payload payload) (length payload) shards = Ok chunks.

Lemma encode_cache_irrelevant payload c shards c' :
  cache_ok c → encode_shards payload cfg c = (Ok shards, c') →
  (encode_shards payload cfg ∅).1 = Ok shards.
Proof using Hcfg.
  intros Hc He. destruct (encode_shards_Ok _ _ _ _ Hc He) as [Hp _].
  destruct (encode_shards_spec cfg Hcfg payload c Hc Hp) as (m & c1 & He1 & _ & _ & Hm).
  destruct (encode_shards_spec cfg Hcfg payload ∅ cache_ok_empty Hp) as (m' & c2 & -> & _ & _ & Hm').
  rewrite He in He1. injection He1 as -> _. rewrite Hm in Hm'. by injection Hm' as <-.
Qed.

(** What one call writes to the database. *)
Inductive writes (db db' : D) : node_op → Prop :=
| wr_nothing op : db' = db → writes db db' op
| wr_publish payload chunks record :
    chunks_of payload chunks →
    br_blob_id (pr_blob_ref record) = blob_id_from_payload payload →
    br_size_bytes (pr_blob_ref record) = length payload → publish_ok record →
    publish_blob_atomic chunks record db = (Ok tt, db') →
    writes db db' (OpPublish payload)
| wr_ingest c : rows db' = <[(chunk_op c).1 := (chunk_op c).2]> (rows db) → writes db db' (OpIngest c)
| wr_attach id r : blob_publish_store.put_attached id db = (r, db') → writes db db' (OpAttach id).

Lemma framed_writes (db : D) s s' op :
  framed s s' → writes db (bn_db s) op → writes db (bn_db s') op.
Proof using. intros Hf. by rewrite (fr_db _ _ Hf). Qed.

(** The publication from its batch on. *)
Lemma publish_tail_writes payload chunks s0 s :
  cache_ok (cs_cache (bn_custody s)) → writes s0 (bn_db s) (OpPublish payload) →
  wp (_ ← for_each chunks (λ c,
        _ ← register_chunk_in_ledger cfg c;
        _ ← node_note_chunk (bc_blob_id c) (chunk_index c);
        mret tt);
      _ ← modify (λ s : BlobNode D, s <| bn_sent ::= (λ l, l ++ chunks) |>);
      mret (blob_id_from_payload payload))
     (λ _ s', writes s0 (bn_db s') (OpPublish payload)) s.
Proof using.
  intros Hc Hw. assert (Hs : framed s s) by (by constructor).
  apply wp_bind. eapply wp_mono; [|apply (wp_for_each (framed s)); [|exact Hs]].
  - intros [[]|e| |] s4 Hf; [|by eapply framed_writes..].
    apply wp_bind, wp_modify, wp_ret. exact (framed_writes _ _ _ _ Hf Hw).
  - intros c s4 _ Hf. by apply note_one_framed.
Qed.

Lemma publish_payload_writes payload s :
  node_inv s →
  wp (publish_payload cfg payload) (λ _ s', writes (bn_db s) (bn_db s') (OpPublish payload)) s.
Proof.
  intros Hinv. pose proof (ni_cache s Hinv) as Hc. unfold publish_payload.
  assert (Hskip : ∀ s', bn_db s' = bn_db s → writes (bn_db s) (bn_db s') (OpPublish payload))
    by (intros s'; apply wr_nothing).
  apply wp_bind, wp_gets. destruct (bn_boot_sync_done s); cbn [negb]; [|by apply wp_lift, Hskip].
  apply wp_bind.
  pose proof (on_cache_framed (encode_shards payload cfg) s (encode_shards_cache _ _ _ Hc)) as Hf1.
  unfold wp in Hf1. unfold wp at 1.
  assert (Hshards : ∀ ss, (on_cache (encode_shards payload cfg) s).1 = Ok ss →
    (encode_shards payload cfg ∅).1 = Ok ss ∧ length payload ≤ ec_k cfg * ec_data_shard_size cfg).
  { intros ss. unfold on_cache. destruct (encode_shards payload cfg _) as [r c'] eqn:He. cbn.
    intros Hr. destruct r; try done. injection Hr as ->.
    split; [by eapply encode_cache_irrelevant|by eapply encode_shards_Ok]. }
  destruct (on_cache _ s) as [[shards|e| |] s1]; cbn [fst snd] in *; try (by apply Hskip, Hf1).
  destruct (Hshards shards eq_refl) as [Hss Hlen]. clear Hshards. apply wp_bind, wp_lift.
  destruct (erasure_chunks _ _ _) as [chunks|e| |] eqn:Hch; try (by apply Hskip, Hf1).
  apply wp_bind. eapply wp_mono; [|apply blob_ref_commitment_run, Hf1].
  intros r s2 [Hf2 Hh]. pose proof (framed_trans _ _ _ Hf1 Hf2) as Hf.
  destruct r as [h|e| |]; try (by apply Hskip, Hf). destruct (Hh h eq_refl) as [Hhl Hhb].
  apply wp_bind. unfold wp at 1, on_db.
  destruct (publish_blob_atomic chunks _ (bn_db s2)) as [r db'] eqn:Hpub. cbn [fst snd].
  rewrite (fr_db _ _ Hf) in Hpub.
  destruct r as [[]|e| |]; cbn [map_err];
    try (apply publish_blob_atomic_inv in Hpub; by apply Hskip).
  apply wp_bind, wp_modify. apply publish_tail_writes; [apply Hf|].
  eapply wr_publish; [by exists shards|..|exact Hpub]; try done.
  split; [done|]. unfold ref_ok. cbn. destruct (digest_ok (dst.BLOB_ID ++ [0] ++ shard_bytes payload)).
  destruct (vc_cap _ Hcfg). repeat split; try done; lia.
Qed.

Lemma node_step_writes s op : node_inv s → writes (bn_db s) (bn_db (node_step s op)) op.
Proof.
  intros Hs. destruct op as [payload|c|id| |]; cbn [node_step].
  - by apply publish_payload_writes.
  - unfold ingest, on_db. destruct (put_chunk c (bn_db s)) as [r db'] eqn:Hput.
    apply put_row_inv in Hput. destruct r as [[]|e| |]; cbn [map_err fst snd]; [|by apply wr_nothing..].
    set (s1 := s <| bn_db := db' |>).
    assert (Hf : framed s1 s1) by (constructor; try done; apply Hs).
    pose proof (note_one_framed s1 c s1 Hf) as Hf'. unfold wp in Hf'.
    eapply framed_writes; [exact Hf'|]. by apply wr_ingest.
  - unfold node_mark_attached, on_db.
    destruct (blob_publish_store.put_attached id (bn_db s)) as [r db'] eqn:Hput. by eapply wr_attach.
  - apply wr_nothing, (drain_inv s Hs).
  - apply wr_nothing, spawn_inv, Hs.
Qed.

(** The rows of a blob in state [Ready], given the calls so far. *)
Definition ready_content (ops : list node_op) (db : D) : Prop :=
  ∀ key r, ready_row db key r → ∃ payload chunks,
    OpPublish payload ∈ ops ∧ chunks_of payload chunks ∧
    br_blob_id (pr_blob_ref r) = blob_id_from_payload payload ∧
    br_size_bytes (pr_blob_ref r) = length payload ∧
    ∀ i, 0 ≤ i < ec_n cfg → ∃ c,
      (chunk_op c).1 = (cf_name CF_BlobChunk, keys.blob_chunk (br_blob_id (pr_blob_ref r)) i) ∧
      rows db !! (chunk_op c).1 = Some (chunk_op c).2 ∧
      (chunks !! Z.to_nat i = Some c ∨ OpIngest c ∈ ops).

Lemma content_chunk ops (db db' : D) c :
  OpIngest c ∈ ops → rows db' = <[(chunk_op c).1 := (chunk_op c).2]> (rows db) →
  ready_content ops db → ready_content ops db'.
Proof using.
  intros Hc Hr Hcont key r [Hrow Hst].
  assert (ready_row db key r) as (payload & chunks & Hin & Hof & Hid & Hsz & Hrows)%Hcont
    by (split; [by apply (publish_row_chunk _ _ _ _ _ _ Hr)|done]).
  exists payload, chunks. do 4 (split; [done|]). intros i Hi.
  destruct (decide ((chunk_op c).1 = (cf_name CF_BlobChunk,
    keys.blob_chunk (br_blob_id (pr_blob_ref r)) i))) as [He|Hne].
  - exists c. split; [done|]. split; [by rewrite Hr, lookup_insert_eq|by right].
  - destruct (Hrows i Hi) as (c' & He & Hrow' & Hc'). exists c'. split; [done|]. split; [|done].
    rewrite Hr, lookup_insert_ne; [done|]. by rewrite He.
Qed.

Lemma content_attached ops (db db' : D) id r :
  blob_publish_store.put_attached id db = (r, db') → ready_content ops db → ready_content ops db'.
Proof using H4.
  intros [->|(record & Hrow & Hs & Hr)]%put_attached_run Hcont; [done|]. intros key r' [Hrow' Hst].
  assert (Hrec : encodable (record <| pr_state := PublishState_u8 Attached |>)).
  { apply publish_encodable. unfold publish_row in Hrow.
    apply bind_Some in Hrow as (bs & _ & [_ Hok]%publish_decoded). by split. }
  assert (ready_row db key r') as (payload & chunks & Hin & Hof & Hid & Hsz & Hrows)%Hcont.
  { split; [|done]. unfold publish_row in *. rewrite Hr in Hrow'.
    destruct (decide (key = keys.blob_id id)) as [->|Hne].
    - rewrite lookup_insert_eq in Hrow'. cbn in Hrow'. rewrite Hrec in Hrow'. by injection Hrow' as <-.
    - by rewrite lookup_insert_ne in Hrow' by congruence. }
  exists payload, chunks. do 4 (split; [done|]). intros i Hi.
  destruct (Hrows i Hi) as (c & He & Hc & Hor). exists c. split; [done|]. split; [|done].
  by rewrite Hr, He, lookup_insert_ne, <- He.
Qed.

(** The chunks of a payload, by index. *)
Lemma chunks_of_lookup payload chunks i :
  chunks_of payload chunks → 0 ≤ i < ec_n cfg →
  ∃ c, chunks !! Z.to_nat i = Some c ∧ bc_blob_id c = blob_id_from_payload payload ∧ chunk_index c = i.
Proof using Hcfg.
  intros (shards & Hs & (n & _ & [= <-])%outcome_bind_Ok) Hi.
  destruct (encode_shards payload cfg ∅) as [r c'] eqn:He. cbn in Hs. subst r.
  destruct (encode_shards_Ok _ _ _ _ cache_ok_empty He) as [_ Hl].
  destruct (lookup_lt_is_Some_2 shards (Z.to_nat i)) as [d Hd]; [lia|].
  eexists. split; [by rewrite list_lookup_imap, Hd|]. split; [done|]. cbn. lia.
Qed.

Lemma chunks_of_index payload chunks (j : nat) c :
  chunks_of payload chunks → chunks !! j = Some c →
  bc_blob_id c = blob_id_from_payload payload ∧ chunk_index c = j ∧ j < ec_n cfg.
Proof using Hcfg.
  intros (shards & Hs & (n & _ & [= <-])%outcome_bind_Ok) Hj.
  destruct (encode_shards payload cfg ∅) as [r c'] eqn:He. cbn in Hs. subst r.
  destruct (encode_shards_Ok _ _ _ _ cache_ok_empty He) as [_ Hl].
  rewrite list_lookup_imap in Hj. apply fmap_Some in Hj as (d & Hd & ->).
  apply lookup_lt_Some in Hd. destruct (vc_k _ Hcfg). split; [done|]. split; [done|]. lia.
Qed.

Lemma blob_chunk_inj id id' i j :
  length (bid_bytes id) = length (bid_bytes id') → 0 ≤ i < 256 ^ 4 → 0 ≤ j < 256 ^ 4 →
  keys.blob_chunk id i = keys.blob_chunk id' j → id = id' ∧ i = j.
Proof using.
  intros Hl Hi Hj. unfold keys.blob_chunk. intros [Hid Hb]%app_inj_1; [|done].
  split; [destruct id, id'; cbn in Hid; by subst|]. by apply (be_bytes_inj 4).
Qed.

(** The last write of a key in a batch is the one that stays. *)
Lemma set_rows_last ops m k v :
  k ∈ ops.*1 → (∀ v', (k, v') ∈ ops → v' = v) → set_rows ops m !! k = Some v.
Proof using.
  revert m. induction ops as [|[k' v'] ops IH]; intros m Hk Hv; [by apply not_elem_of_nil in Hk|].
  unfold set_rows in *. cbn [foldl]. destruct (decide (k ∈ ops.*1)) as [Hin|Hout].
  - apply IH; [done|]. intros v'' Hv''. apply Hv. by right.
  - cbn in Hk. apply elem_of_cons in Hk as [->|?]; [|done].
    change (foldl _ _ ops) with (set_rows ops (<[k' := v']> m)).
    rewrite set_rows_other by done. cbn [fst]. rewrite lookup_insert_eq. f_equal.
    apply Hv. by left.
Qed.

Lemma chunks_of_keys payload chunks c :
  chunks_of payload chunks → c ∈ chunks → ∃ j : nat, chunks !! j = Some c ∧ j < 256 ∧
    (chunk_op c).1 = (cf_name CF_BlobChunk, keys.blob_chunk (blob_id_from_payload payload) j).
Proof using Hcfg.
  intros Hof [j Hj]%list_elem_of_lookup. exists j. split; [done|].
  destruct (chunks_of_index _ _ _ _ Hof Hj) as (Hid & Hi & Hn).
  pose proof (vc_n _ Hcfg) as Hm. unfold MAX_SHARDS in Hm. split; [lia|].
  unfold chunk_op. by rewrite Hid, Hi.
Qed.

(** A publication writes each chunk under its key. *)
Lemma published_chunk_row (payload : shard) (chunks : list BlobChunk) (record : PublishRecord)
    (m : gmap (string * bytes) bytes) (i : Z) :
  chunks_of payload chunks → 0 ≤ i < ec_n cfg → ∃ c,
    (chunk_op c).1 = (cf_name CF_BlobChunk, keys.blob_chunk (blob_id_from_payload payload) i) ∧
    set_rows ((chunk_op <$> chunks) ++ [publish_op record]) m !! (chunk_op c).1 = Some (chunk_op c).2 ∧
    chunks !! Z.to_nat i = Some c.
Proof using Hcfg.
  intros Hof Hi. destruct (chunks_of_lookup _ _ _ Hof Hi) as (c & Hc & Hcid & Hci). exists c.
  assert (Hck : (chunk_op c).1 = (cf_name CF_BlobChunk, keys.blob_chunk (blob_id_from_payload payload) i))
    by (by unfold chunk_op; rewrite Hcid, Hci).
  pose proof (vc_n _ Hcfg) as Hn. unfold MAX_SHARDS in Hn.
  split; [exact Hck|]. split; [|done]. apply set_rows_last.
  - rewrite fmap_app, elem_of_app. left. apply list_elem_of_fmap. exists (chunk_op c). split; [done|].
    apply list_elem_of_fmap. exists c. split; [done|]. by eapply list_elem_of_lookup_2.
  - intros v [(c' & Hop & Hc')%list_elem_of_fmap|Hp]%elem_of_app;
      [|by apply list_elem_of_singleton in Hp; rewrite Hck in Hp].
    destruct (chunks_of_keys _ _ _ Hof Hc') as (j & Hj & Hjn & Hjk).
    assert (Hkey : (chunk_op c').1 = (chunk_op c).1) by (by rewrite <- Hop).
    rewrite Hck, Hjk in Hkey. injection Hkey as [_ Hij]%blob_chunk_inj; [|done|lia..].
    assert (c' = c) as -> by (rewrite <- Hij, Nat2Z.id in Hc; congruence). by rewrite <- Hop.
Qed.

(** Publishing keeps the chunk rows of the other blobs. *)
Lemma other_chunk_row (payload : shard) (chunks : list BlobChunk) (record : PublishRecord)
    (m : gmap (string * bytes) bytes) (id : BlobId) (i : Z) :
  chunks_of payload chunks → 0 ≤ i < 256 → length (bid_bytes id) = 32%nat →
  id ≠ blob_id_from_payload payload →
  set_rows ((chunk_op <$> chunks) ++ [publish_op record]) m !! (cf_name CF_BlobChunk, keys.blob_chunk id i)
  = m !! (cf_name CF_BlobChunk, keys.blob_chunk id i).
Proof using Hcfg digest_ok.
  intros Hof Hi Hl Hne. apply set_rows_other. rewrite fmap_app, elem_of_app. intros [Hop|Hop].
  - apply list_elem_of_fmap in Hop as (op & He & (c & -> & Hc)%list_elem_of_fmap).
    destruct (chunks_of_keys _ _ _ Hof Hc) as (j & _ & Hjn & Hjk). rewrite Hjk in He.
    injection He as [Hids _]%blob_chunk_inj; [|by rewrite Hl; cbn; rewrite (proj1 (blake3_ref_ok _ _))|lia..].
    by apply Hne.
  - by apply list_elem_of_singleton in Hop.
Qed.

(** Publishing keeps the publish rows of the other blobs. *)
Lemma other_publish_row (chunks : list BlobChunk) (record : PublishRecord) (m : gmap (string * bytes) bytes) (key : bytes) :
  key ≠ keys.blob_id (br_blob_id (pr_blob_ref record)) →
  set_rows ((chunk_op <$> chunks) ++ [publish_op record]) m !! (cf_name CF_BlobPublish, key)
  = m !! (cf_name CF_BlobPublish, key).
Proof using.
  intros Hne. apply set_rows_other. rewrite fmap_app, elem_of_app. intros [Hop|Hop].
  - apply list_elem_of_fmap in Hop as (op & He & (c & -> & _)%list_elem_of_fmap). done.
  - apply list_elem_of_singleton in Hop. unfold publish_op in Hop. cbn [fst] in Hop.
    injection Hop as Hop. by apply Hne.
Qed.

(** Republishing a blob rewrites its rows; another blob's stay. *)
Lemma content_published ops (db db' : D) payload chunks record :
  OpPublish payload ∈ ops → chunks_of payload chunks →
  br_blob_id (pr_blob_ref record) = blob_id_from_payload payload →
  br_size_bytes (pr_blob_ref record) = length payload → publish_ok record →
  publish_blob_atomic chunks record db = (Ok tt, db') →
  db_inv (ec_n cfg) db → ready_content ops db → ready_content ops db'.
Proof.
  intros Hin Hof Hid Hsz Hok Hpub Hdb Hcont. apply publish_blob_atomic_inv in Hpub as [_ Hr].
  pose proof (vc_n _ Hcfg) as Hn. unfold MAX_SHARDS in Hn.
  intros key r [Hrow Hst]. destruct (decide (key = keys.blob_id (blob_id_from_payload payload))) as [->|Hne].
  - assert (r = record) as ->.
    { unfold publish_row in Hrow. rewrite Hr, set_rows_app, <- Hid in Hrow. unfold set_rows at 1 in Hrow.
      cbn in Hrow. rewrite lookup_insert_eq in Hrow. cbn in Hrow.
      rewrite (publish_encodable record Hok) in Hrow. by injection Hrow. }
    exists payload, chunks. do 4 (split; [done|]). intros i Hi. rewrite Hid, Hr.
    destruct (published_chunk_row payload chunks record (rows db) i Hof Hi) as (c & Hck & Hc & Hl).
    exists c. by auto.
  - assert (Hold : ready_row db key r).
    { split; [|done]. unfold publish_row in *. by rewrite <- Hrow, Hr, other_publish_row by congruence. }
    destruct (Hcont _ _ Hold) as (p & cs & Hp & Hcs & Hpid & Hpsz & Hrows).
    exists p, cs. do 4 (split; [done|]). intros i Hi.
    destruct (Hrows i Hi) as (c & Hck & Hc & Hor). exists c. split; [done|]. split; [|done].
    rewrite Hr, Hck, (other_chunk_row payload); [by rewrite <- Hck|done|lia| |].
    + rewrite Hpid. apply blake3_ref_ok.
    + intros He. apply Hne. by rewrite (di_keyed _ _ Hdb _ _ (proj1 Hold)), He.
Qed.

Lemma content_writes ops (db db' : D) op :
  op ∈ ops → writes db db' op → db_inv (ec_n cfg) db → ready_content ops db → ready_content ops db'.
Proof.
  intros Hin Hw Hdb Hc. destruct Hw as [? He|payload chunks record Hof Hid Hsz Hok Hpub|c Hr|id r Hr].
  - by rewrite He.
  - exact (content_published ops _ _ payload chunks record Hin Hof Hid Hsz Hok Hpub Hdb Hc).
  - exact (content_chunk ops _ _ c Hin Hr Hc).
  - exact (content_attached ops _ _ id r Hr Hc).
Qed.

Lemma content_step ops s op :
  op ∈ ops → node_inv s → ready_content ops (bn_db s) → ready_content ops (bn_db (node_step s op)).
Proof.
  intros Hin Hs Hc. eapply content_writes; [exact Hin|by apply node_step_writes|apply Hs|exact Hc].
Qed.

Lemma content_run ops ops' s :
  ops' ⊆ ops → node_inv s → ready_content ops (bn_db s) →
  ready_content ops (bn_db (foldl node_step s ops')).
Proof.
  revert s. induction ops' as [|op ops' IH]; intros s Hsub Hs Hc; [done|]. cbn [foldl].
  apply IH; [set_solver|by apply node_step_inv|]. apply content_step; [set_solver|done..].
Qed.

(** *** Boot recovery finds what was published *)

(** The reads of the database succeed. *)
Definition reads_ok (db : D) : Prop :=
  (∀ cf key, is_ok (get_raw db cf key) = true) ∧ is_ok (blob_publish_store.scan_ready db) = true.

Lemma note_present_keeps b i l :
  cl_available l ⊆ cl_available (note_chunk_present b i l).2.
Proof.
  unfold note_chunk_present. destruct (is_available b l); [done|].
  destruct (cl_meta l !! b) as [meta|]; [|done]. case_bool_decide; cbn; [apply union_subseteq_r|done].
Qed.

(** The ledger of a blob after [j] chunks are found present. *)
Definition rehydrating (b : BlobId) (j : Z) (l : CustodyLedger) : Prop :=
  b ∈ cl_available l ∨ ∃ meta, cl_meta l !! b = Some meta ∧ bm_cfg meta = cfg ∧
    (∀ i, 0 ≤ i < j → i ∈ bm_received meta) ∧
    (0 < j → (size (bm_received meta) < Z.to_nat (ec_k cfg))%nat).

Lemma rehydrating_step b j l :
  0 ≤ j → rehydrating b j l → rehydrating b (j + 1) (note_chunk_present b j l).2.
Proof.
  intros Hj [Hav|(meta & Hmeta & Hcf & Hrec & _)].
  { left. by apply note_present_keeps. }
  unfold note_chunk_present. destruct (is_available b l) eqn:Ha.
  { left. by apply bool_decide_eq_true in Ha. }
  rewrite Hmeta. cbv zeta. set (meta' := meta <| bm_received ::= _ |>).
  case_bool_decide as Hk; [left; cbn; set_solver|]. right. exists meta'.
  split; [cbn; apply lookup_insert_eq|]. split; [done|]. split.
  - intros i Hi. cbn. destruct (decide (i = j)) as [->|]; [set_solver|].
    apply elem_of_union_r, Hrec. lia.
  - intros _. change (bm_cfg meta') with (bm_cfg meta) in Hk. rewrite Hcf in Hk. lia.
Qed.

Lemma size_interval (X : gset Z) (n : Z) :
  0 ≤ n → (∀ i, 0 ≤ i < n → i ∈ X) → (Z.to_nat n ≤ size X)%nat.
Proof.
  intros Hn HX. clear -Hn HX. rewrite <- (length_seqZ 0 n). rewrite <- (size_list_to_set (C:=gset Z) (seqZ 0 n)).
  - apply subseteq_size. intros i Hi%elem_of_list_to_set. apply HX. by apply elem_of_seqZ in Hi; lia.
  - apply NoDup_seqZ.
Qed.

Lemma rehydrate_available db ref l :
  (∀ i, 0 ≤ i < ec_n cfg → store_has_chunk db (br_blob_id ref) i = true) →
  br_blob_id ref ∈ cl_available (rehydrate_ledger cfg db ref l) ∧
  cl_available l ⊆ cl_available (rehydrate_ledger cfg db ref l).
Proof.
  intros Hhas. set (b := br_blob_id ref) in *. unfold rehydrate_ledger. fold b.
  set (l0 := register_erasure _ _ _ _ l).
  assert (Hfold : ∀ m : nat, m ≤ ec_n cfg →
    rehydrating b m (foldl (rehydrate_chunk db b) l0 (seqZ 0 m)) ∧
    cl_available l ⊆ cl_available (foldl (rehydrate_chunk db b) l0 (seqZ 0 m))).
  { induction m as [|m IH]; intros Hm.
    { split; [|done]. right. cbn. eexists.
      split; [etrans; [apply lookup_partial_alter_eq|reflexivity]|].
      destruct (cl_meta l !! b); (split; [done|]; split; intros; lia). }
    destruct (IH ltac:(lia)) as [Hr Hsub]. rewrite seqZ_S, foldl_app. cbn [foldl].
    replace (0 + m) with (Z.of_nat m) by lia. unfold rehydrate_chunk at 1 3.
    rewrite Hhas by lia. replace (Z.of_nat (S m)) with (m + 1) by lia.
    split; [apply rehydrating_step; [lia|exact Hr]|].
    etrans; [exact Hsub|]. apply note_present_keeps. }
  destruct (Hfold (Z.to_nat (ec_n cfg))) as [Hr Hsub]; [destruct Hcfg; lia|].
  rewrite Z2Nat.id in Hr, Hsub by (destruct Hcfg; lia). split; [|exact Hsub].
  destruct Hr as [?|(meta & _ & _ & Hrec & Hlt)]; [done|].
  pose proof (size_interval _ (ec_n cfg) ltac:(destruct Hcfg; lia) Hrec).
  destruct Hcfg. specialize (Hlt ltac:(lia)). lia.
Qed.

(** With successful reads, the loop of boot recovery queues and rehydrates everything. *)
Lemma boot_loop_run (db : D) ready (s : BlobNode D) :
  (∀ b, b ∈ ready → validate_chunks db (br_blob_id b) (ec_n cfg) = true) →
  (∀ b b', b ∈ pq_queue (bn_pending s) ++ ready → b' ∈ pq_queue (bn_pending s) ++ ready →
     br_blob_id b = br_blob_id b' → b = b') →
  queue_ok (bn_pending s) →
  (∀ b, b ∈ pq_queue (bn_pending s) → node_is_available (br_blob_id b) s = true) →
  ∃ s', for_each ready (λ blob_ref,
        if negb (validate_chunks db (br_blob_id blob_ref) (ec_n cfg)) then mret tt else
        _ ← on_ledger (rehydrate_ledger cfg db blob_ref); enqueue_pending blob_ref) s = (Ok tt, s') ∧
    (∀ b, b ∈ pq_queue (bn_pending s') ↔ b ∈ pq_queue (bn_pending s) ∨ b ∈ ready) ∧
    (∀ b, b ∈ pq_queue (bn_pending s') → node_is_available (br_blob_id b) s' = true).
Proof.
  revert s. induction ready as [|b ready IH]; intros s Hval Hinj Hq Hav.
  { exists s. split; [done|]. split; [|done]. intros b'. rewrite elem_of_nil. tauto. }
  assert (Hv : validate_chunks db (br_blob_id b) (ec_n cfg) = true) by (apply Hval; by left).
  cbn [for_each]. set (l1 := rehydrate_ledger cfg db b (cs_ledger (bn_custody s))).
  set (s1 := (s <| bn_custody := (bn_custody s) <| cs_ledger := l1 |> |>)
               <| bn_pending := (enqueue b (bn_pending s)).2 |>).
  destruct (rehydrate_available db b (cs_ledger (bn_custody s))) as [Hnew Hkeep].
  { intros i Hi. unfold validate_chunks in Hv. rewrite forallb_forall in Hv.
    apply Hv, list_elem_of_In, elem_of_seqZ. lia. }
  assert (Hqe : ∀ b', b' ∈ pq_queue (bn_pending s1) ↔ b' ∈ pq_queue (bn_pending s) ∨ b' = b).
  { intros b'. change (bn_pending s1) with (enqueue b (bn_pending s)).2. unfold enqueue.
    case_bool_decide as Hid; cbn.
    - split; [by left|]. intros [?| ->]; [done|]. rewrite (qo_ids _ Hq) in Hid.
      apply elem_of_list_to_set, list_elem_of_fmap in Hid as (b'' & He & Hb'').
      rewrite (Hinj b b''); [done|set_solver|set_solver|done].
    - rewrite elem_of_app, list_elem_of_singleton. tauto. }
  destruct (IH s1) as (s' & Hrun & Hqs & Has).
  - intros b' Hb'. apply Hval. by right.
  - intros b1 b2 H1' H2'. apply Hinj; rewrite elem_of_app in *; rewrite Hqe in *; set_solver.
  - apply enqueue_ok, Hq.
  - intros b' Hb'. change (bool_decide (br_blob_id b' ∈ cl_available l1) = true).
    apply bool_decide_eq_true. apply Hqe in Hb' as [Hb'| ->]; [|exact Hnew].
    apply Hkeep. specialize (Hav _ Hb'). by apply bool_decide_eq_true in Hav.
  - exists s'. split; [|split; [|exact Has]].
    + unfold mbind at 1, M_bind at 1. rewrite Hv. cbn [negb]. exact Hrun.
    + intros b'. rewrite Hqs, Hqe. set_solver.
Qed.

Lemma has_chunk_true db b i :
  reads_ok db → is_Some (rows db !! (cf_name CF_BlobChunk, keys.blob_chunk b i)) →
  has_chunk db b i = Ok true.
Proof.
  intros [Hr _] Hs. unfold has_chunk, blob_chunk_store.has.
  specialize (Hr CF_BlobChunk (keys.blob_chunk b i)). apply is_ok_true in Hr as [o Ho].
  rewrite Ho. ocbn. apply get_raw_Ok in Ho as ->. by rewrite bool_decide_true.
Qed.

Lemma spawn_run (db : D) :
  db_inv (ec_n cfg) db → reads_ok db →
  ∃ s, spawn cfg db ∅ = (Ok tt, s) ∧ bn_boot_sync_done s = true ∧
    (∀ b, b ∈ pq_queue (bn_pending s) ↔ ∃ key r, ready_row db key r ∧ pr_blob_ref r = b) ∧
    (∀ b, b ∈ pq_queue (bn_pending s) → node_is_available (br_blob_id b) s = true).
Proof.
  intros Hdb Hreads. pose proof Hreads as [_ [ready Hscan]%is_ok_true].
  pose proof (scan_ready_Ok db ready Hscan) as Hready.
  unfold spawn. set (s0 := MkBlobNode _ _ _ _ _).
  destruct (boot_loop_run db ready s0) as (s & Hrun & Hq & Hav).
  - intros b (key & r & Hrow & <-)%Hready. unfold validate_chunks. apply forallb_forall.
    intros i Hi%list_elem_of_In%elem_of_seqZ. apply bool_decide_eq_true.
    apply has_chunk_true; [done|]. apply (di_chunks _ _ Hdb key); [done|lia].
  - intros b b' (key & r & [Hrow _] & <-)%Hready (key' & r' & [Hrow' _] & <-)%Hready He.
    pose proof (di_keyed _ _ Hdb _ _ Hrow) as Hk. pose proof (di_keyed _ _ Hdb _ _ Hrow') as Hk'.
    rewrite <- He, <- Hk in Hk'. subst key'. unfold publish_row in *. rewrite Hrow in Hrow'.
    by injection Hrow' as <-.
  - apply empty_queue_ok.
  - intros b Hb. by apply not_elem_of_nil in Hb.
  - exists (s <| bn_boot_sync_done := true |>). split; [|split; [done|split]].
    + assert (Hboot : run_boot_recovery cfg s0 = (Ok tt, s)).
      { unfold run_boot_recovery, mbind at 1, M_bind at 1, gets. change (bn_db s0) with db.
        rewrite Hscan. exact Hrun. }
      rewrite (run_bind _ _ _ _ _ Hboot). reflexivity.
    + intros b. etrans; [apply Hq|]. rewrite Hready. cbn. rewrite elem_of_nil. tauto.
    + exact Hav.
Qed.
End invariant.

(** ** Properties *)

Section properties.
Context `{Build, Primitives, RocksLaws D, Codec StoredChunk, PublishCodecLaws}.
Context (cfg : ErasureConfig) (db : D) (ops : list node_op).

(** A database without publish rows, and the node after any calls on it. *)
Definition no_publish_rows : Prop := ∀ key, rows db !! (cf_name CF_BlobPublish, key) = None.
Definition node_after : BlobNode D := foldl (node_step cfg) (spawn cfg db ∅).2 ops.

Lemma fresh_inv (n : Z) : no_publish_rows → db_inv n db.
Proof using.
  intros Hfresh. constructor.
  - intros key r Hr. unfold publish_row in Hr. by rewrite Hfresh in Hr.
  - intros key r i [Hr _]. unfold publish_row in Hr. by rewrite Hfresh in Hr.
Qed.

Lemma node_after_inv :
  valid_cfg cfg → (∀ x, length (h32_bytes (blake3 x)) = 32%nat ∧ bytes_ok (h32_bytes (blake3 x))) →
  no_publish_rows → node_inv cfg node_after.
Proof. intros Hcfg Hd Hfresh. apply node_run_inv; [done..|]. by apply spawn_inv, fresh_inv. Qed.

Lemma node_after_content :
  valid_cfg cfg → (∀ x, length (h32_bytes (blake3 x)) = 32%nat ∧ bytes_ok (h32_bytes (blake3 x))) →
  no_publish_rows → ready_content cfg ops (bn_db node_after).
Proof.
  intros Hcfg Hd Hfresh. destruct (spawn_inv cfg db (fresh_inv _ Hfresh)) as [Hinv Hdb].
  apply content_run; [done..|]. rewrite Hdb. intros key r [Hr _].
  unfold publish_row in Hr. by rewrite Hfresh in Hr.
Qed.

(** [C25] What [Ready] promises.  Over any sequence of publications, chunks from
    gossip, attachments, drains and restarts (each of which may fail at any of
    its database calls), starting on a database without publish rows: every publish row in
    state [Ready] is of a payload that was published, with its id and its length, and under the
    key of each of its [n] chunks the database holds that chunk, encoded as the chunk store encodes
    it: the chunk with that index of the erasure encoding of the payload, or, because the intake
    stores whatever gossip carries without comparing it with what is there, a chunk of that id and
    index received from gossip.  So boot recovery never has to drop a [Ready] blob, and a blob no
    gossiped chunk names has exactly its encoding on disk.  Every blob in the pending queue has a
    publish row and is queued once. *)
Theorem ready_means_durable :
  valid_cfg cfg → (∀ x, length (h32_bytes (blake3 x)) = 32%nat ∧ bytes_ok (h32_bytes (blake3 x))) →
  no_publish_rows →
  let s := node_after in
  (∀ key r, ready_row (bn_db s) key r → ∃ payload shards chunks,
     OpPublish payload ∈ ops ∧ (encode_shards payload cfg ∅).1 = Ok shards ∧
     erasure_chunks (E:=BlobError) (blob_id_from_payload payload) (length payload) shards = Ok chunks ∧
     br_blob_id (pr_blob_ref r) = blob_id_from_payload payload ∧
     br_size_bytes (pr_blob_ref r) = length payload ∧
     ∀ i, 0 ≤ i < ec_n cfg → ∃ c,
       keys.blob_chunk (bc_blob_id c) (chunk_index c) = keys.blob_chunk (br_blob_id (pr_blob_ref r)) i ∧
       rows (bn_db s) !! (cf_name CF_BlobChunk, keys.blob_chunk (br_blob_id (pr_blob_ref r)) i)
       = Some (to_vec (MkStoredChunk (chunk_unit_count c) (bc_size_bytes c) (chunk_payload_bytes c))) ∧
       (chunks !! Z.to_nat i = Some c ∨ OpIngest c ∈ ops)) ∧
  NoDup (br_blob_id <$> pq_queue (bn_pending s)) ∧
  (∀ b, b ∈ pq_queue (bn_pending s) → ∃ r, publish_row (bn_db s) (keys.blob_id (br_blob_id b)) r).
Proof.
  intros Hcfg Hd Hfresh. pose proof (node_after_inv Hcfg Hd Hfresh) as Hinv.
  split; [|split; [apply (ni_queue _ _ Hinv)|apply (ni_published _ _ Hinv)]].
  intros key r Hrow. destruct (node_after_content Hcfg Hd Hfresh key r Hrow)
    as (payload & chunks & Hp & (shards & Hs & Hch) & Hid & Hsz & Hrows).
  exists payload, shards, chunks. do 5 (split; [done|]). intros i Hi.
  destruct (Hrows i Hi) as (c & Hck & Hc & Hor). exists c. rewrite Hck in Hc. split; [|done].
  unfold chunk_op in Hck. by injection Hck.
Qed.

(** [C24] Publishing survives a crash.  If [publish_payload] returns, then after a restart
    on the same database whose reads succeed, boot recovery completes, the blob is
    available and is the next [drain_pending] hands it to the proposer, with
    its size; and once it is marked attached, a further restart does not queue
    it again. *)
Theorem publish_survives_restart payload id s1 :
  valid_cfg cfg → (∀ x, length (h32_bytes (blake3 x)) = 32%nat ∧ bytes_ok (h32_bytes (blake3 x))) →
  no_publish_rows →
  publish_payload cfg payload node_after = (Ok id, s1) → reads_ok (bn_db s1) →
  ∃ s2, spawn cfg (bn_db s1) ∅ = (Ok tt, s2) ∧ node_is_available id s2 = true ∧
    (∃ drained b, (drain_pending s2).1 = Ok drained ∧ b ∈ drained ∧
       br_blob_id b = id ∧ br_size_bytes b = length payload) ∧
    (∀ s3, node_mark_attached id s2 = (Ok tt, s3) → reads_ok (bn_db s3) →
       ∃ s4, spawn cfg (bn_db s3) ∅ = (Ok tt, s4) ∧
         ∀ b, b ∈ pq_queue (bn_pending s4) → br_blob_id b ≠ id).
Proof.
  intros Hcfg Hd Hfresh Hpub Hreads. pose proof (node_after_inv Hcfg Hd Hfresh) as Hinv.
  pose proof (publish_payload_inv cfg Hcfg Hd payload _ Hinv) as Hp. unfold wp in Hp. rewrite Hpub in Hp.
  cbn [fst snd] in Hp. destruct Hp as [Hinv1 Hid]. destruct (Hid id eq_refl) as (Hids & record & Hrid & Hrsz & Hready & _).
  destruct (spawn_run cfg Hcfg Hd (bn_db s1) (ni_db _ _ Hinv1) Hreads) as (s2 & Hs2 & Hboot & Hq & Hav).
  assert (Hin : pr_blob_ref record ∈ pq_queue (bn_pending s2)).
  { apply Hq. by exists (keys.blob_id (blob_id_from_payload payload)), record. }
  pose proof (spawn_inv cfg (bn_db s1) (ni_db _ _ Hinv1)) as [Hinv2 Hdb2]. rewrite Hs2 in Hinv2, Hdb2.
  cbn [snd] in Hinv2, Hdb2.
  exists s2. split; [done|]. split; [rewrite Hids, <- Hrid; by apply Hav|]. split.
  - destruct (drain_inv cfg s2 Hinv2) as (_ & _ & _ & Hdr). destruct (Hdr Hboot) as [Hr _].
    eexists _, (pr_blob_ref record). split; [exact Hr|]. split; [|split; [congruence|done]].
    apply list_elem_of_filter. split; [|done]. rewrite Hdb2, Hrid.
    unfold blob_publish_store.is_attached. intros (o & Hg%get_row_Ok & Hb)%outcome_bind_Ok.
    destruct Hready as [Hrow Hst]. unfold publish_row in Hrow. rewrite Hrow in Hg. subst o.
    apply outcome_bind_Ok in Hb as (st & Hs%PublishState_from_u8_Ok & [= Hb]).
    rewrite Hst in Hs. destruct st; [by rewrite bool_decide_false in Hb|done].
  - intros s3 Hatt Hreads3. pose proof (mark_attached_inv cfg id s2 Hinv2) as Hinv3.
    unfold wp in Hinv3. rewrite Hatt in Hinv3. cbn [snd] in Hinv3.
    destruct (spawn_run cfg Hcfg Hd (bn_db s3) (ni_db _ _ Hinv3) Hreads3) as (s4 & Hs4 & _ & Hq4 & _).
    exists s4. split; [done|]. intros b (key & r & [Hrow Hst] & <-)%Hq4 Hbid.
    pose proof (di_keyed _ _ (ni_db _ _ Hinv3) _ _ Hrow) as Hkey. rewrite Hbid in Hkey. subst key.
    unfold node_mark_attached, on_db in Hatt.
    destruct (blob_publish_store.put_attached id (bn_db s2)) as [ra db3] eqn:Hput.
    injection Hatt as Hra <-. destruct ra as [[]| | |]; try discriminate Hra.
    change (bn_db (s2 <| bn_db := db3 |>)) with db3 in Hrow.
    apply put_attached_inv in Hput as (rec & Hrec & [[Hs ->]|[Hs Hrows]]); unfold publish_row in *.
    + rewrite Hrow in Hrec. injection Hrec as <-. rewrite Hst in Hs. done.
    + rewrite Hrows, lookup_insert_eq in Hrow. cbn in Hrow.
      apply bind_Some in Hrec as (bs & _ & [_ Hok]%publish_decoded).
      rewrite (publish_encodable (rec <| pr_state := PublishState_u8 Attached |>)) in Hrow by (by split).
      injection Hrow as <-. done.
Qed.

(** [Attached] is not terminal, although the design declares it so: publishing a
    payload again after it was attached puts its row back to [Ready], so that it is
    queued and proposed a second time, without a crash in between. *)
Theorem attached_not_terminal payload id s1 :
  valid_cfg cfg → (∀ x, length (h32_bytes (blake3 x)) = 32%nat ∧ bytes_ok (h32_bytes (blake3 x))) →
  no_publish_rows →
  blob_publish_store.is_attached (bn_db node_after) (blob_id_from_payload payload) = Ok true →
  publish_payload cfg payload node_after = (Ok id, s1) →
  ∃ record, ready_row (bn_db s1) (keys.blob_id id) record ∧ br_blob_id (pr_blob_ref record) = id ∧
    ∃ b, b ∈ pq_queue (bn_pending s1) ∧ br_blob_id b = id.
Proof.
  intros Hcfg Hd Hfresh _ Hpub. pose proof (node_after_inv Hcfg Hd Hfresh) as Hinv.
  pose proof (publish_payload_inv cfg Hcfg Hd payload _ Hinv) as Hp. unfold wp in Hp. rewrite Hpub in Hp.
  destruct Hp as [_ Hid]. destruct (Hid id eq_refl) as (-> & record & Hrid & _ & Hready & Hq).
  exists record. split; [done|]. split; [done|]. cbn [snd] in Hq. rewrite Hq. unfold enqueue.
  case_bool_decide as Hin; cbn.
  - rewrite (qo_ids _ (ni_queue _ _ Hinv)) in Hin.
    apply elem_of_list_to_set, list_elem_of_fmap in Hin as (b & He & Hb). exists b. split; [done|]. congruence.
  - exists (pr_blob_ref record). split; [set_solver|done].
Qed.
End properties.

(** ** A toy node *)

#[local] Instance w_build : Build := true.

#[global] Instance toy_chunk_borsh : Borsh StoredChunk := λ c,
  le_bytes 4 (sc_total_chunks c) ++ le_bytes 8 (sc_size_bytes c) ++ sc_data c.
#[global] Instance toy_chunk_codec : Codec StoredChunk := λ bs,
  if bool_decide (length bs < 12)%nat then None
  else Some (MkStoredChunk (of_le (take 4 bs)) (of_le (take 8 (drop 4 bs))) (drop 12 bs)).

Lemma toy_digest_ok x : length (h32_bytes (blake3 x)) = 32%nat ∧ bytes_ok (h32_bytes (blake3 x)).
Proof.
  split; [apply length_be_bytes|]. change (bytes_ok (be_bytes 32 (toy_digest x))).
  unfold be_bytes, bytes_ok.
  rewrite reverse_Permutation. apply le_bytes_ok.
Qed.

#[global] Instance toy_publish_laws : PublishCodecLaws.
Proof.
  constructor.
  - intros [st [[id] [co] sz]] (Hst & Hid & Hco & Bid & Bco & Hsz). cbn in *.
    unfold encodable, from_slice, toy_publish_codec, to_vec, toy_publish_borsh. cbn [pr_state pr_blob_ref
      br_blob_id bid_bytes br_commitment h32_bytes br_size_bytes].
    set (le := le_bytes 8 sz).
    assert (Hle : length le = 8%nat) by apply length_le_bytes.
    rewrite bool_decide_false.
    + f_equal. cbn [default head drop]. rewrite drop_0.
      assert (H33 : ∀ l : bytes, drop 64 l = drop 32 (drop 32 l)) by (intros; by rewrite drop_drop).
      rewrite H33, !(drop_app_length' id), !(take_app_length' id), (drop_app_length' co),
        (take_app_length' co) by done.
      unfold le. rewrite of_le_bytes, Z.mod_small; [done|]. destruct Hsz. lia.
    + intros [Hn|Hn]; apply Hn.
      * change (S (length (id ++ co ++ le)) = 73%nat). by rewrite !length_app, Hid, Hco, Hle.
      * constructor; [done|]. apply Forall_app. split; [done|]. apply Forall_app.
        split; [done|apply le_bytes_ok].
  - intros bs r Hr. unfold from_slice, toy_publish_codec in Hr. case_bool_decide as Hb; [done|].
    apply Decidable.not_or in Hb as [Hl Hok]. apply dec_stable in Hl, Hok.
    injection Hr as <-. unfold publish_ok, ref_ok. cbn.
    assert (Hd : ∀ k, bytes_ok (drop k bs)) by (intros; by apply Forall_drop).
    split; [destruct bs as [|b bs]; [done|]; cbn; by apply Forall_inv in Hok|].
    split; [rewrite length_take, length_drop; lia|].
    split; [rewrite length_take, length_drop; lia|].
    split; [apply Forall_take, Hd|]. split; [apply Forall_take, Hd|].
    pose proof (of_le_range (drop 65 bs) (Hd _)) as Hlr. rewrite length_drop, Hl in Hlr. exact Hlr.
Qed.

Abbreviation w_node := (node_after w_cfg (∅ : toy_db) []).
Definition w_published : BlobNode toy_db := (publish_payload w_cfg w_payload w_node).2.

Lemma w_fresh : no_publish_rows (∅ : toy_db).
Proof. intros key. exact (lookup_empty (cf_name CF_BlobPublish, key)). Qed.

Lemma w_publish :
  publish_payload w_cfg w_payload w_node = (Ok (blob_id_from_payload w_payload), w_published).
Proof.
  assert (Hok : (publish_payload w_cfg w_payload w_node).1 = Ok (blob_id_from_payload w_payload))
    by (vm_compute; reflexivity).
  rewrite <- Hok. apply surjective_pairing.
Qed.

Lemma w_reads (db : toy_db) : is_ok (blob_publish_store.scan_ready db) = true → reads_ok db.
Proof. intros Hs. split; [|exact Hs]. intros cf key. by destruct cf. Qed.

Lemma w_reads_ok : reads_ok (bn_db w_published).
Proof. apply w_reads. vm_compute. reflexivity. Qed.

(** The second chunk of the blob, as gossip may carry it. *)
Definition w_gossiped : BlobChunk :=
  MkBlobChunk (blob_id_from_payload w_payload) 5 (PErasure 1 4 [xee; xee; xee]).

Lemma ready_means_durable_witness :
  let s := node_after w_cfg (∅ : toy_db)
    [OpPublish [x01]; OpDrain; OpAttach (blob_id_from_payload [x01]); OpPublish w_payload;
     OpIngest w_gossiped; OpRestart] in
  rows (bn_db s) !! (cf_name CF_BlobChunk, keys.blob_chunk (blob_id_from_payload w_payload) 1)
    = Some (to_vec (MkStoredChunk 4 5 [238; 238; 238])) ∧
  length (pq_queue (bn_pending s)) = 1%nat ∧ NoDup (br_blob_id <$> pq_queue (bn_pending s)) ∧
  ∃ r (payload : shard), ready_row (bn_db s) (keys.blob_id (blob_id_from_payload w_payload)) r ∧
    br_size_bytes (pr_blob_ref r) = length payload.
Proof.
  intros s. destruct (ready_means_durable w_cfg (∅ : toy_db)
    [OpPublish [x01]; OpDrain; OpAttach (blob_id_from_payload [x01]); OpPublish w_payload;
     OpIngest w_gossiped; OpRestart] w_cfg_valid toy_digest_ok w_fresh) as (Hr & Hn & _).
  split; [vm_compute; reflexivity|]. split; [vm_compute; reflexivity|]. split; [exact Hn|].
  destruct (rows (bn_db s) !! (cf_name CF_BlobPublish, keys.blob_id (blob_id_from_payload w_payload))
    ≫= from_slice (T := PublishRecord)) as [r|] eqn:Hrow; [|revert Hrow; vm_compute; discriminate].
  assert (pr_state r = PublishState_u8 Ready) as Hst
    by (revert Hrow; vm_compute; intros [= <-]; reflexivity).
  destruct (Hr _ _ (conj Hrow Hst)) as (payload & shards & chunks & _ & _ & _ & _ & Hsz & _).
  exists r, payload. split; [by split|exact Hsz].
Defined.

Lemma publish_survives_restart_witness :
  ∃ s2, spawn w_cfg (bn_db w_published) ∅ = (Ok tt, s2) ∧
    node_is_available (blob_id_from_payload w_payload) s2 = true.
Proof.
  destruct (publish_survives_restart w_cfg (∅ : toy_db) [] w_payload
    (blob_id_from_payload w_payload) w_published w_cfg_valid toy_digest_ok w_fresh w_publish
    w_reads_ok) as (s2 & Hs2 & Hav & _).
  exists s2. split; [exact Hs2|exact Hav].
Defined.

Definition w_ops : list node_op :=
  [OpPublish w_payload; OpDrain; OpAttach (blob_id_from_payload w_payload)].
Abbreviation w_attached := (node_after w_cfg (∅ : toy_db) w_ops).
Definition w_again : BlobNode toy_db := (publish_payload w_cfg w_payload w_attached).2.

Lemma w_republish :
  publish_payload w_cfg w_payload w_attached = (Ok (blob_id_from_payload w_payload), w_again).
Proof.
  assert (Hok : (publish_payload w_cfg w_payload w_attached).1 = Ok (blob_id_from_payload w_payload))
    by (vm_compute; reflexivity).
  rewrite <- Hok. apply surjective_pairing.
Qed.

Lemma w_is_attached :
  blob_publish_store.is_attached (bn_db w_attached) (blob_id_from_payload w_payload) = Ok true.
Proof. vm_compute. reflexivity. Qed.

Lemma attached_not_terminal_witness :
  ∃ record, ready_row (bn_db w_again) (keys.blob_id (blob_id_from_payload w_payload)) record.
Proof.
  destruct (attached_not_terminal w_cfg (∅ : toy_db) w_ops w_payload
    (blob_id_from_payload w_payload) w_again w_cfg_valid toy_digest_ok w_fresh
    w_is_attached w_republish) as (record & Hr & _).
  exists record. exact Hr.
Defined.
