(* ===== verification/BootScan.v ===== *)
(** The last step of boot recovery in [apps/node/src/blob/mod.rs]: the scan for chunks that no
    publish record accounts for ([scan_orphan_chunks]), over the stores of [Storage]. *)

From S2P Require Import Prelude Bytes Types Crypto Toy Storage.
From S2P Require Import Gf256 Erasure Blob BlobNode.
Open Scope list_scope.
Open Scope Z_scope.

Section scan.
Context `{RocksDb D, Codec StoredChunk, Codec PublishRecord}.

(** The loop over the items of the scan.  The result is the blobs it warns about, each of which
    counts once in [blob_orphan_chunk_total]. *)
Fixpoint orphan_loop (db : D) (items : list (sresult (bytes * bytes))) (seen_orphans : gset BlobId)
  : list BlobId :=
  match items with
  | [] => []
  | Ok (key, _) :: items =>
      if (length key <? 32)%nat then orphan_loop db items seen_orphans
      else
        let blob_id := MkBlobId (take 32 key) in
        if bool_decide (blob_id ∈ seen_orphans) then orphan_loop db items seen_orphans
        else match blob_publish_store.get db blob_id with
             | Ok None => blob_id :: orphan_loop db items ({[blob_id]} ∪ seen_orphans)
             | _ => orphan_loop db items seen_orphans
             end
  | _ :: items => orphan_loop db items seen_orphans
  end.
Definition scan_orphan_chunks (db : D) : list BlobId := orphan_loop db (scan_cf db CF_BlobChunk) ∅.
End scan.

Section facts.
Context `{RocksLaws D, Codec StoredChunk, Codec PublishRecord}.

(** A blob that has a row of chunks and, as far as the store says, no record *)
Definition orphan (db : D) (kvs : list (bytes * bytes)) (id : BlobId) : Prop :=
  blob_publish_store.get db id = Ok None ∧
  ∃ kv, kv ∈ kvs ∧ (32 ≤ length kv.1)%nat ∧ id = MkBlobId (take 32 kv.1).

Lemma orphan_cons db kv kvs id :
  orphan db (kv :: kvs) id ↔
  (blob_publish_store.get db id = Ok None ∧ (32 ≤ length kv.1)%nat ∧ id = MkBlobId (take 32 kv.1)) ∨
  orphan db kvs id.
Proof. unfold orphan. setoid_rewrite elem_of_cons. naive_solver. Qed.

Lemma orphan_loop_spec db kvs seen :
  NoDup (orphan_loop db (Ok <$> kvs) seen) ∧
  ∀ id, id ∈ orphan_loop db (Ok <$> kvs) seen ↔ id ∉ seen ∧ orphan db kvs id.
Proof.
  revert seen. induction kvs as [|[key v] kvs IH]; intros seen.
  { cbn. split; [constructor|]. unfold orphan. set_solver. }
  cbn [orphan_loop fmap list_fmap]. setoid_rewrite orphan_cons. cbn [fst].
  destruct (Nat.ltb_spec (length key) 32) as [Hl|Hl].
  { destruct (IH seen) as [Hn Hi]. split; [done|]. intros id. rewrite Hi.
    split; [naive_solver|]. intros [? [(_ & ? & _)|?]]; [lia|done]. }
  set (b := MkBlobId (take 32 key)).
  case_bool_decide as Hb.
  { destruct (IH seen) as [Hn Hi]. split; [done|]. intros id. rewrite Hi. naive_solver. }
  destruct (blob_publish_store.get db b) as [[r|]| | |] eqn:Hg.
  2: { destruct (IH ({[b]} ∪ seen)) as [Hn Hi]. split.
    - constructor; [|done]. rewrite Hi. set_solver.
    - intros id. rewrite elem_of_cons, Hi. destruct (decide (id = b)) as [->|Hne]; set_solver. }
  all: destruct (IH seen) as [Hn Hi]; split; [done|]; intros id; rewrite Hi;
    split; [naive_solver|]; intros [? [(Hg' & _ & ->)|?]]; [|done]; fold b in Hg'; congruence.
Qed.

(** The reads of the scan succeed. *)
Definition scan_reads (db : D) : Prop :=
  (∃ kvs, scan_cf db CF_BlobChunk = Ok <$> kvs) ∧
  ∀ id, is_ok (blob_publish_store.get db id) = true.

(** The scan finds, each once, exactly the blobs of which the database holds a chunk and no
    publish record. *)
Theorem scan_orphan_chunks_spec (db : D) :
  scan_reads db →
  NoDup (scan_orphan_chunks db) ∧
  ∀ id, id ∈ scan_orphan_chunks db ↔
    rows db !! (cf_name CF_BlobPublish, keys.blob_id id) ≫= from_slice (T := PublishRecord) = None ∧
    ∃ key v, rows db !! (cf_name CF_BlobChunk, key) = Some v ∧ (32 ≤ length key)%nat ∧
      id = MkBlobId (take 32 key).
Proof.
  intros [(kvs & Hs) Hg]. unfold scan_orphan_chunks. rewrite Hs.
  destruct (orphan_loop_spec db kvs ∅) as [Hn Hi]. split; [done|]. intros id. rewrite Hi.
  apply scan_cf_Ok in Hs as [_ Hkvs]. unfold orphan. specialize (Hg id).
  destruct (blob_publish_store.get db id) as [o| | |] eqn:Hr; try done.
  apply get_row_Ok in Hr. rewrite <- Hr. split.
  - intros (_ & [= ->] & [key v] & Hin%Hkvs & Hl & ->). split; [done|]. by exists key, v.
  - intros (-> & key & v & Hin%Hkvs & Hl & ->). split; [set_solver|]. split; [done|]. by exists (key, v).
Qed.

End facts.

Section gossip.
Context `{Build, Primitives, RocksLaws D, Codec StoredChunk, PublishCodecLaws}.

(** A chunk that gossip brought in makes its blob an orphan: custody of the blobs of others writes
    no publish record, so at the next start every one of them is reported. *)
Theorem gossiped_blob_is_orphan (cfg : ErasureConfig) (c : BlobChunk) (s : BlobNode D) :
  cache_ok (cs_cache (bn_custody s)) → length (bid_bytes (bc_blob_id c)) = 32%nat →
  rows (bn_db s) !! (cf_name CF_BlobPublish, keys.blob_id (bc_blob_id c)) = None →
  (put_chunk c (bn_db s)).1 = Ok tt →
  let s' := (ingest cfg c s).2 in
  scan_reads (bn_db s') → bc_blob_id c ∈ scan_orphan_chunks (bn_db s').
Proof.
  intros Hc Hl Hnone Hok s' Hreads.
  assert (Hrows : rows (bn_db s') = rows (put_chunk c (bn_db s)).2).
  { unfold s', ingest, on_db. destruct (put_chunk c (bn_db s)) as [r db'] eqn:Hput.
    cbn [fst] in Hok. subst r. cbn [map_err snd].
    set (s1 := s <| bn_db := db' |>).
    destruct (note_one_framed cfg s1 c s1) as [-> _ _ _]; [by constructor|done]. }
  apply (scan_orphan_chunks_spec _ Hreads). rewrite Hrows.
  destruct (put_chunk c (bn_db s)) as [r db'] eqn:Hput. cbn [fst snd] in *. subst r.
  apply put_row_inv in Hput. rewrite Hput, lookup_insert_ne, Hnone by done. split; [done|].
  eexists _, _. split; [apply lookup_insert_eq|]. unfold keys.blob_chunk. rewrite length_app, Hl.
  split; [lia|]. rewrite take_app_length' by done. by destruct (bc_blob_id c).
Qed.
End gossip.

(** A node that has published nothing receives one chunk of another's blob. *)
Definition w_received : option BlobChunk := head (bn_sent w_published).
Lemma gossiped_blob_is_orphan_example :
  ∃ c, w_received = Some c ∧
    scan_orphan_chunks (bn_db (ingest w_cfg c w_node).2) = [blob_id_from_payload w_payload].
Proof.
  destruct w_received as [c|] eqn:Hc; [|by vm_compute in Hc].
  exists c. split; [done|]. vm_compute in Hc. injection Hc as <-. by vm_compute.
Qed.

Lemma toy_scan_reads (db : toy_db) :
  map_Forall (λ (k : string * bytes) (_ : bytes), k.1 ≠ cf_name CF_BlobPublish) db → scan_reads db.
Proof.
  intros Hnone. split.
  - exists (toy_column db (cf_name CF_BlobChunk)). unfold scan_cf.
    change (db_cf db CF_BlobChunk) with (Ok (E:=StoreError) (cf_name CF_BlobChunk)).
    cbv beta iota. change (iterator_cf db (cf_name CF_BlobChunk))
      with (Some <$> toy_column db (cf_name CF_BlobChunk)).
    by rewrite <- list_fmap_compose.
  - intros id. unfold blob_publish_store.get, get_row, get_raw.
    change (db_cf db CF_BlobPublish) with (Ok (E:=StoreError) (cf_name CF_BlobPublish)).
    cbn [mbind outcome_bind]. change (get_cf db (cf_name CF_BlobPublish) (keys.blob_id id))
      with (Some (db !! (cf_name CF_BlobPublish, keys.blob_id id))).
    destruct (db !! _) as [v|] eqn:Hv; [|done]. by apply Hnone in Hv.
Qed.

Lemma gossiped_blob_is_orphan_witness :
  ∃ c, w_received = Some c ∧ bc_blob_id c ∈ scan_orphan_chunks (bn_db (ingest w_cfg c w_node).2).
Proof.
  destruct w_received as [c|] eqn:Hc; [|by vm_compute in Hc].
  exists c. split; [done|]. vm_compute in Hc. injection Hc as <-.
  apply gossiped_blob_is_orphan; [done|by vm_compute|by vm_compute|by vm_compute|].
  apply toy_scan_reads. apply (bool_decide_unpack _). vm_compute. exact I.
Defined.
