(* ===== verification/CustodyPort.v ===== *)
(** [CustodyPendingBlobs] of [apps/node/src/host_context.rs]: blob custody behind the port that
    vertex production reads.

    [NodeBlobs] instantiates the interface [PendingBlobSource], against which [VertexCert],
    [StateMachine] and [Node] are proved, with the custody of [BlobNode].  So the proposals of a
    running node carry the blobs that were published on it. *)

From S2P Require Import Prelude Bytes Types Crypto Toy Config Dag VertexCert Gf256 Erasure Storage Blob.
From S2P Require Import BlobNode.
Open Scope Z_scope.

Section port.
Context `{RocksDb D, Codec PublishRecord}.

(** [Option<BlobCustodyHandle>] *)
Definition NodeBlobs : Type := option (BlobNode D).

(** [drain]; [drain_pending] has no failing path. *)
Definition custody_drain (q : NodeBlobs) : list BlobRef * NodeBlobs :=
  match q with
  | None => ([], None)
  | Some node =>
      let '(r, node') := drain_pending node in
      (match r with Ok blobs => blobs | _ => [] end, Some node')
  end.

(** [confirm_attached]: [let _ = handle.mark_attached(..)] *)
Definition custody_confirm (q : NodeBlobs) (blobs : list BlobRef) : NodeBlobs :=
  match q with
  | None => None
  | Some node => Some (foldl (λ node b, (node_mark_attached (br_blob_id b) node).2) node blobs)
  end.

#[global] Instance CustodyPendingBlobs : PendingBlobSource NodeBlobs :=
  {| pb_drain := custody_drain; pb_confirm_attached := custody_confirm |}.
End port.
Arguments NodeBlobs : clear implicits.

(** ** Facts *)

Section facts.
Context `{Build, Primitives, RocksLaws D, Codec StoredChunk, PublishCodecLaws}.
Context (cfg : ErasureConfig) (Hcfg : valid_cfg cfg).
Hypothesis digest_ok : ∀ x, length (h32_bytes (blake3 x)) = 32%nat ∧ bytes_ok (h32_bytes (blake3 x)).

Lemma ready_not_attached (db : D) id record :
  ready_row db (keys.blob_id id) record → blob_publish_store.is_attached db id ≠ Ok true.
Proof using.
  intros [Hrow Hst]. unfold blob_publish_store.is_attached. intros (o & Hg%get_row_Ok & Hb)%outcome_bind_Ok.
  unfold publish_row in Hrow. rewrite Hrow in Hg. subst o.
  apply outcome_bind_Ok in Hb as (st & Hs%PublishState_from_u8_Ok & [= Hb]).
  rewrite Hst in Hs. destruct st; [by rewrite bool_decide_false in Hb|done].
Qed.

(** Marking changes neither the queue nor the gate. *)
Lemma mark_attached_frame id (s : BlobNode D) :
  bn_pending (node_mark_attached id s).2 = bn_pending s ∧
  bn_boot_sync_done (node_mark_attached id s).2 = bn_boot_sync_done s.
Proof using. unfold node_mark_attached, on_db. by destruct (blob_publish_store.put_attached _ _). Qed.

Lemma confirm_inv blobs (s : BlobNode D) :
  node_inv cfg s →
  let s' := foldl (λ node b, (node_mark_attached (br_blob_id b) node).2) s blobs in
  node_inv cfg s' ∧ bn_pending s' = bn_pending s ∧ bn_boot_sync_done s' = bn_boot_sync_done s.
Proof.
  revert s. induction blobs as [|b blobs IH]; intros s Hs; [done|]. cbn.
  destruct (mark_attached_frame (br_blob_id b) s) as [Hp Hb].
  destruct (IH (node_mark_attached (br_blob_id b) s).2) as (Hi & Hp' & Hb').
  { by apply mark_attached_inv. }
  split; [done|]. by rewrite Hp', Hb'.
Qed.

(** A publication that succeeds had the gate open, and leaves it so. *)
Abbreviation open s := (bn_boot_sync_done s = true).

Lemma open_bind {A B} (m : M BlobError (BlobNode D) A) (f : A → M BlobError (BlobNode D) B) s :
  wp m (λ _ s', open s') s → (∀ a s', open s' → wp (f a) (λ _ s', open s') s') →
  wp (m ≫= f) (λ _ s', open s') s.
Proof using. intros Hm Hf. apply wp_bind. eapply wp_mono; [|exact Hm]. intros [a|e| |] s' Hs'; auto. Qed.

Lemma open_steps (s : BlobNode D) : open s →
  (∀ A (m : M ErasureError MatrixCache A), wp (on_cache m) (λ _ s', open s') s) ∧
  (∀ A (m : M StoreError D A), wp (on_db m) (λ _ s', open s') s) ∧
  (∀ f, wp (on_ledger f) (λ _ s', open s') s) ∧
  (∀ b i, wp (node_note_chunk b i) (λ _ s', open s') s).
Proof using.
  intros Hs. split_and!; intros; unfold wp, on_cache, on_db, on_ledger, node_note_chunk, modify.
  - by destruct (m _).
  - by destruct (m _).
  - exact Hs.
  - by destruct (note_chunk _ _ _ _).
Qed.

(** The blob that was published is queued. *)
Lemma queued_after_publish payload (s s' : BlobNode D) record :
  node_inv cfg s → br_blob_id (pr_blob_ref record) = blob_id_from_payload payload →
  bn_pending s' = (enqueue (pr_blob_ref record) (bn_pending s)).2 →
  ∃ b, b ∈ pq_queue (bn_pending s') ∧ br_blob_id b = blob_id_from_payload payload.
Proof using.
  intros Hinv Hrid Hq. rewrite Hq. unfold enqueue. case_bool_decide as Hin; cbn.
  - rewrite (qo_ids _ (ni_queue _ _ Hinv)) in Hin.
    apply elem_of_list_to_set, list_elem_of_fmap in Hin as (b & He & Hb). exists b. split; [done|]. congruence.
  - exists (pr_blob_ref record). split; [apply elem_of_app; right; by left|done].
Qed.

Lemma filtered_nodup (Q : BlobRef → Prop) `{!∀ b, Decision (Q b)} (q : PendingQueue) :
  queue_ok q → NoDup (br_blob_id <$> filter Q (pq_queue q)).
Proof using.
  intros Hq. eapply sublist_NoDup; [apply (qo_nodup _ Hq)|]. apply fmap_sublist, sublist_filter.
Qed.

Lemma publish_gate payload id (s s' : BlobNode D) :
  publish_payload cfg payload s = (Ok id, s') → open s'.
Proof using.
  intros Hrun. assert (wp (publish_payload cfg payload) (λ r s', is_ok r = true → open s') s) as Hw;
    [|unfold wp in Hw; rewrite Hrun in Hw; by apply Hw].
  unfold publish_payload. apply wp_bind, wp_gets.
  destruct (bn_boot_sync_done s) eqn:Hb; cbn [negb]; [|by apply wp_lift].
  eapply wp_mono; [by intros r s1 Hs1 _; exact Hs1|].
  apply open_bind; [by apply open_steps|]. intros shards s1 H1'.
  apply open_bind; [by apply wp_lift|]. intros chunks s2 H2'.
  apply open_bind.
  { apply open_bind; [|intros; by apply wp_lift].
    destruct (open_steps s2 H2') as [Hc _]. specialize (Hc _ (encode_shards payload cfg)). unfold wp in *.
    by destruct (on_cache _ s2) as [[] s2']. }
  intros h s3 H3'. apply open_bind; [by apply open_steps|]. intros [] s4 H4'.
  apply open_bind; [by apply wp_modify|]. intros [] s5 H5'.
  apply open_bind; [|intros [] s6 H6'; apply open_bind; [by apply wp_modify|intros; by apply wp_ret]].
  apply wp_for_each; [|done]. intros c s6 _ H6'.
  apply open_bind; [by apply open_steps|]. intros [] s7 H7'.
  apply open_bind; [by apply open_steps|]. intros b s8 H8'. by apply wp_ret.
Qed.
End facts.

(** ** Properties *)

Section properties.
Context `{Build, Primitives, !Borsh SignableVertex, RocksLaws D, Codec StoredChunk, PublishCodecLaws}.
Context (cfg : ErasureConfig) (db : D) (ops : list node_op).

(** What the drain of a node with the gate open gives *)
Lemma custody_drain_open (node : BlobNode D) :
  node_inv cfg node → bn_boot_sync_done node = true →
  ∃ node', custody_drain (Some node) =
      (filter (λ b, blob_publish_store.is_attached (bn_db node) (br_blob_id b) ≠ Ok true)
         (pq_queue (bn_pending node)), Some node') ∧
    node_inv cfg node' ∧ bn_db node' = bn_db node ∧ bn_boot_sync_done node' = true ∧
    pq_queue (bn_pending node') = [].
Proof.
  intros Hinv Hb. pose proof (drain_inv cfg node Hinv) as Hd. unfold wp in Hd. unfold custody_drain.
  destruct (drain_pending node) as [r node']. cbn [fst snd] in Hd.
  destruct Hd as (Hinv' & Hdb & Hb' & Hr). destruct (Hr Hb) as [-> Hq]. exists node'.
  by rewrite Hb', Hb.
Qed.

(** What [make_proposal] takes from the port, and leaves in it *)
Lemma make_proposal_blobs `{PendingBlobSource P} ctx round parents (s s' : VertexState P) p :
  make_proposal ctx round parents s = (Ok p, s') →
  let '(blobs, queue) := pb_drain (vpending s) in
  v_blobs (vp_vertex p) = blobs ∧ vpending s' = pb_confirm_attached queue blobs.
Proof.
  intros Hrun. assert (wp (make_proposal ctx round parents) (λ r s', ∀ p, r = Ok p →
    let '(blobs, queue) := pb_drain (vpending s) in
    v_blobs (vp_vertex p) = blobs ∧ vpending s' = pb_confirm_attached queue blobs) s) as Hw;
    [|unfold wp in Hw; rewrite Hrun in Hw; by apply Hw].
  unfold make_proposal, upd. apply wp_bind, wp_gets.
  destruct (pb_drain (vpending s)) as [blobs queue]. apply wp_bind, wp_modify, wp_bind, wp_gets.
  apply wp_bind, wp_lift. destruct (sign_bls ctx _ _) as [sig| | |]; try done.
  apply wp_bind, wp_lift. destruct (sign_bls ctx _ _) as [self_sig| | |]; try done.
  repeat wp_step. by intros ? [= <-].
Qed.

(** [C26] A blob published on a node rides in its next proposal, once.  After any earlier use of the
    custody, if publishing answered [id] and the validator then builds a proposal, the sealed
    vertex carries a reference to [id] and no blob twice; afterwards the queue is empty, and if
    the row was marked attached, a restart does not queue the blob again. *)
Theorem published_blob_is_proposed payload id (node : BlobNode D) ctx round parents
    (s s' : VertexState (NodeBlobs D)) p :
  valid_cfg cfg → (∀ x, length (h32_bytes (blake3 x)) = 32%nat ∧ bytes_ok (h32_bytes (blake3 x))) →
  no_publish_rows db → publish_payload cfg payload (node_after cfg db ops) = (Ok id, node) →
  vpending s = Some node → make_proposal ctx round parents s = (Ok p, s') →
  (∃ b, b ∈ v_blobs (vp_vertex p) ∧ br_blob_id b = id) ∧
  NoDup (br_blob_id <$> v_blobs (vp_vertex p)) ∧
  (pb_drain (vpending s')).1 = [] ∧
  ∃ node', vpending s' = Some node' ∧
    (blob_publish_store.is_attached (bn_db node') id = Ok true → reads_ok (bn_db node') →
     ∃ fresh, spawn cfg (bn_db node') ∅ = (Ok tt, fresh) ∧
       ∀ b, b ∈ pq_queue (bn_pending fresh) → br_blob_id b ≠ id).
Proof.
  intros Hcfg Hd Hfresh Hpub Hpend Hprop. pose proof (node_after_inv cfg db ops Hcfg Hd Hfresh) as Hinv0.
  pose proof (publish_payload_inv cfg Hcfg Hd payload _ Hinv0) as Hp. unfold wp in Hp. rewrite Hpub in Hp.
  destruct Hp as [Hinv Hid]. cbn [snd fst] in *.
  destruct (Hid id eq_refl) as (-> & record & Hrid & _ & Hready & Hq).
  assert (bn_boot_sync_done node = true) as Hopen by (by eapply publish_gate).
  destruct (custody_drain_open node Hinv Hopen)
    as (node1 & Hdrain & Hinv1 & Hdb1 & Hb1 & Hq1).
  apply make_proposal_blobs in Hprop. rewrite Hpend in Hprop. cbn [pb_drain CustodyPendingBlobs] in Hprop.
  rewrite Hdrain in Hprop. destruct Hprop as [Hblobs Hpend'].
  set (blobs := filter _ _) in *. cbn [pb_confirm_attached CustodyPendingBlobs custody_confirm] in Hpend'.
  destruct (confirm_inv cfg blobs node1 Hinv1) as (Hinv2 & Hp2 & Hb2). rewrite Hb1 in Hb2.
  set (node2 := foldl _ node1 blobs) in *. rewrite Hblobs, Hpend'. split; [|split; [|split]].
  - assert (∃ b, b ∈ pq_queue (bn_pending node) ∧ br_blob_id b = blob_id_from_payload payload)
      as (b & Hb & Hbid) by (eapply queued_after_publish; [exact Hinv0|exact Hrid|exact Hq]).
    exists b. split; [|done]. apply list_elem_of_filter. split; [|done].
    rewrite Hbid. by eapply ready_not_attached.
  - apply filtered_nodup. apply (ni_queue _ _ Hinv).
  - cbn [pb_drain CustodyPendingBlobs]. destruct (custody_drain_open node2 Hinv2 Hb2) as (? & -> & _).
    cbn. by rewrite Hp2, Hq1.
  - exists node2. split; [done|]. intros Hatt Hreads.
    destruct (spawn_run cfg Hcfg Hd (bn_db node2) (ni_db _ _ Hinv2) Hreads) as (fresh & Hs & _ & Hf & _).
    exists fresh. split; [done|]. intros b (key & r & Hrow & <-)%Hf Hbid.
    eapply (ready_not_attached (bn_db node2) (blob_id_from_payload payload) r); [|exact Hatt].
    rewrite <- Hbid, <- (di_keyed _ _ (ni_db _ _ Hinv2) _ _ (proj1 Hrow)). exact Hrow.
Qed.
End properties.

(** ** Witness *)

#[local] Existing Instance w_build.

(** A host that signs with key 10 *)
Definition w_ctx : HostContext :=
  MkHostContext (λ _, Ok None) (λ _, Ok []) (λ _, Ok None) (Ok Hash32_zero)
    (λ d msg, Ok (sign (10 : blst_sk) d msg)) (λ _, Panic).
Definition w_state : VertexState (NodeBlobs toy_db) :=
  MkVertexState (VertexBook_new (toy_id 0)) (Some w_published).
Definition w_made : result VertexProposal * VertexState (NodeBlobs toy_db) :=
  make_proposal w_ctx 0 [] w_state.

Lemma w_made_eq r : w_made.1 = r → make_proposal w_ctx 0 [] w_state = (r, w_made.2).
Proof. intros <-. unfold w_made. apply surjective_pairing. Qed.

Lemma published_blob_is_proposed_witness :
  ∃ p, w_made.1 = Ok p ∧
    ∃ b, b ∈ v_blobs (vp_vertex p) ∧ br_blob_id b = blob_id_from_payload w_payload.
Proof.
  assert (is_ok w_made.1 = true) as [p Hrun]%is_ok_true by (vm_compute; reflexivity).
  exists p. split; [exact Hrun|].
  refine (proj1 (published_blob_is_proposed w_cfg (∅ : toy_db) [] w_payload
    (blob_id_from_payload w_payload) w_published w_ctx 0 [] w_state w_made.2 p
    w_cfg_valid toy_digest_ok w_fresh w_publish _ _)).
  - reflexivity.
  - exact (w_made_eq _ Hrun).
Defined.
