(* ===== verification/Net.v ===== *)
(** [crates/net]: gossip topics and payloads, the publisher's duplicate filter,
    peer scores, and the map between peers and validators.

    The translation between consensus messages and gossip is complete here: topic
    names ([gossip/topics.rs]), payloads ([gossip/codec.rs]), both directions
    ([gossip_wire.rs]) and what the swarm task does with a message or an action
    ([swarm_runner.rs]).  The swarm itself is libp2p: its publish and the channels
    of tokio are functions the definitions take, that may refuse. *)

From Stdlib Require Import Ascii.
From stdpp Require Import strings pretty.
From S2P Require Import Prelude Bytes Types Crypto Toy Config Storage Gf256 Erasure Blob.
Open Scope string_scope.
Open Scope list_scope.
Open Scope Z_scope.

(** ** [error.rs] *)

Inductive NetError :=
| NetTransport (why : string)
| NetCodec (why : string)
| BridgeClosed
| NetConsensus (e : Error).
#[global] Instance NetError_eq_dec : EqDecision NetError.
Proof. solve_decision. Defined.

Abbreviation nresult := (outcome NetError).

(** ** [str::strip_prefix] and [str::parse::<u32>] *)

Fixpoint strip_prefix (p s : string) : option string :=
  match p, s with
  | "", _ => Some s
  | String a p, String b s => if bool_decide (a = b) then strip_prefix p s else None
  | String _ _, "" => None
  end.

Definition digit_of (c : ascii) : option Z :=
  let d := Z.of_N (N_of_ascii c) - 48 in
  if bool_decide (0 ≤ d ≤ 9) then Some d else None.

Fixpoint parse_digits (s : string) (acc : Z) : option Z :=
  match s with
  | "" => Some acc
  | String c s =>
      d ← digit_of c;
      let acc := acc * 10 + d in
      if acc <? 2 ^ 32 then parse_digits s acc else None
  end.

(** A leading [+] is accepted; no digits at all, another character or a value
    of 2^32 or more is an error. *)
Definition u32_parse (s : string) : option Z :=
  match s with
  | "" => None
  | String c rest =>
      if bool_decide (c = "+"%char) then (if bool_decide (rest = "") then None else parse_digits rest 0)
      else parse_digits s 0
  end.

(** ** [gossip/topics.rs] *)

Module wire.
Definition PREFIX := "lua-dag/v1/".
Definition CERTIFIED_VERTEX := "lua-dag/v1/certified-vertex".
Definition MICRO_QC := "lua-dag/v1/micro-qc".
Definition MACRO_PROPOSAL := "lua-dag/v1/macro-proposal".
Definition BLS_PARTIAL_PREFIX := "lua-dag/v1/bls-partial/".
Definition SUBNET_AGGREGATE := "lua-dag/v1/subnet-aggregate".
Definition MACRO_QC := "lua-dag/v1/macro-qc".
Definition SLASH_EVIDENCE := "lua-dag/v1/slash-evidence".
Definition BLOB_CHUNK := "lua-dag/v1/blob-chunk".
Definition VERTEX_PROPOSAL := "lua-dag/v1/vertex-proposal".
Definition VERTEX_PARTIAL := "lua-dag/v1/vertex-partial".
End wire.

Module Topic.
Inductive t :=
| CertifiedVertex | MicroQc | MacroProposal | BlsPartial (s : SubnetId) | SubnetAggregate
| MacroQc | SlashEvidence | BlobChunk | VertexProposal | VertexPartial.
#[global] Instance t_eq_dec : EqDecision t.
Proof. solve_decision. Defined.

Definition wire_name (self : t) : string :=
  match self with
  | CertifiedVertex => wire.CERTIFIED_VERTEX
  | MicroQc => wire.MICRO_QC
  | MacroProposal => wire.MACRO_PROPOSAL
  | BlsPartial s => wire.BLS_PARTIAL_PREFIX +:+ pretty (subnet_u32 s)
  | SubnetAggregate => wire.SUBNET_AGGREGATE
  | MacroQc => wire.MACRO_QC
  | SlashEvidence => wire.SLASH_EVIDENCE
  | BlobChunk => wire.BLOB_CHUNK
  | VertexProposal => wire.VERTEX_PROPOSAL
  | VertexPartial => wire.VERTEX_PARTIAL
  end.

Definition from_wire_name (s : string) : option t :=
  if bool_decide (s = wire.CERTIFIED_VERTEX) then Some CertifiedVertex
  else if bool_decide (s = wire.MICRO_QC) then Some MicroQc
  else if bool_decide (s = wire.MACRO_PROPOSAL) then Some MacroProposal
  else if bool_decide (s = wire.SUBNET_AGGREGATE) then Some SubnetAggregate
  else if bool_decide (s = wire.MACRO_QC) then Some MacroQc
  else if bool_decide (s = wire.SLASH_EVIDENCE) then Some SlashEvidence
  else if bool_decide (s = wire.BLOB_CHUNK) then Some BlobChunk
  else if bool_decide (s = wire.VERTEX_PROPOSAL) then Some VertexProposal
  else if bool_decide (s = wire.VERTEX_PARTIAL) then Some VertexPartial
  else
    rest ← strip_prefix wire.BLS_PARTIAL_PREFIX s;
    id ← u32_parse rest;
    Some (BlsPartial (MkSubnetId id)).
End Topic.
Abbreviation Topic := Topic.t.

(** ** [gossip/codec.rs]

    The texts of Borsh's own errors are left out. *)

Definition encode_action_payload `{!Borsh T} (value : T) : nresult bytes := Ok (to_vec value).
Definition decode_event_payload `{Codec T} (bs : bytes) : nresult T :=
  match from_slice bs with Some v => Ok v | None => Err (NetCodec "") end.

(** The encodings of the gossiped types. *)
Class WireCodecs := {
  wc_micro_qc_b :: Borsh MicroQc; wc_micro_qc :: Codec MicroQc;
  wc_macro_proposal_b :: Borsh MacroProposal; wc_macro_proposal :: Codec MacroProposal;
  wc_bls_partial_b :: Borsh BlsPartial; wc_bls_partial :: Codec BlsPartial;
  wc_subnet_aggregate_b :: Borsh SubnetAggregate; wc_subnet_aggregate :: Codec SubnetAggregate;
  wc_macro_qc_b :: Borsh MacroQc; wc_macro_qc :: Codec MacroQc;
  wc_slash_evidence_b :: Borsh SlashEvidence; wc_slash_evidence :: Codec SlashEvidence;
  wc_vertex_proposal_b :: Borsh VertexProposal; wc_vertex_proposal :: Codec VertexProposal;
  wc_vertex_partial_b :: Borsh VertexPartial; wc_vertex_partial :: Codec VertexPartial;
  wc_certified_vertex_b :: Borsh CertifiedVertex; wc_certified_vertex :: Codec CertifiedVertex;
  wc_blob_chunk_b :: Borsh BlobChunk; wc_blob_chunk :: Codec BlobChunk;
}.

(** ** [gossip_wire.rs] *)

Section gossip_wire.
Context `{WireCodecs}.

Definition outbound_broadcast (action : Action) : nresult (option (Topic * bytes)) :=
  let pair {T} `{!Borsh T} (topic : Topic) (v : T) :=
    payload ← encode_action_payload v; Ok (Some (topic, payload)) in
  match action with
  | BroadcastMicroQc m => pair Topic.MicroQc m
  | BroadcastMacroProposal m => pair Topic.MacroProposal m
  | BroadcastBlsPartial p => pair (Topic.BlsPartial (bp_subnet p)) p
  | BroadcastSubnetAggregate a => pair Topic.SubnetAggregate a
  | BroadcastMacroQc q => pair Topic.MacroQc q
  | EmitSlashEvidence _ evidence => pair Topic.SlashEvidence evidence
  | BroadcastVertexProposal p => pair Topic.VertexProposal p
  | BroadcastVertexPartial bp => pair Topic.VertexPartial bp
  | BroadcastCertifiedVertex cv => pair Topic.CertifiedVertex cv
  | PersistMacroQc _ | PersistMacroCheckpoint _ | ScheduleTimer _ _ | CancelTimer _
  | UpdateBlobStatus _ _ | NotifyInactivityLeak _ _ => Ok None
  end.

Definition encode_certified_vertex (cv : CertifiedVertex) : nresult (Topic * bytes) :=
  payload ← encode_action_payload cv; Ok (Topic.CertifiedVertex, payload).

Definition encode_blob_chunk (chunk : BlobChunk) : nresult (Topic * bytes) :=
  payload ← encode_action_payload chunk; Ok (Topic.BlobChunk, payload).

Definition decode_blob_chunk (topic : string) (data : bytes) : nresult (option BlobChunk) :=
  if bool_decide (Topic.from_wire_name topic ≠ Some Topic.BlobChunk) then Ok None
  else chunk ← decode_event_payload data; Ok (Some chunk).

Definition is_broadcast (action : Action) : bool :=
  match action with
  | BroadcastMicroQc _ | BroadcastMacroProposal _ | BroadcastBlsPartial _
  | BroadcastSubnetAggregate _ | BroadcastMacroQc _ | EmitSlashEvidence _ _
  | BroadcastVertexProposal _ | BroadcastVertexPartial _ | BroadcastCertifiedVertex _ => true
  | _ => false
  end.

Definition subnet_mismatch (topic payload : SubnetId) : string :=
  "bls-partial topic subnet " +:+ pretty (subnet_u32 topic) +:+ " != payload subnet "
    +:+ pretty (subnet_u32 payload).

Definition inbound_message (topic_str : string) (data : bytes) : nresult (option Event) :=
  match Topic.from_wire_name topic_str with
  | None => Ok None
  | Some topic =>
      match topic with
      | Topic.MicroQc => m ← decode_event_payload data; Ok (Some (MicroQcAssembled m))
      | Topic.MacroProposal => m ← decode_event_payload data; Ok (Some (MacroProposalReceived m))
      | Topic.SubnetAggregate =>
          a ← decode_event_payload data; Ok (Some (SubnetAggregateReceived a))
      | Topic.MacroQc => q ← decode_event_payload data; Ok (Some (MacroQcReceived q))
      | Topic.SlashEvidence => s ← decode_event_payload data; Ok (Some (SlashEvidenceFound s))
      | Topic.BlsPartial subnet =>
          p ← decode_event_payload data;
          if bool_decide (bp_subnet p ≠ subnet)
          then Err (NetCodec (subnet_mismatch subnet (bp_subnet p)))
          else Ok (Some (BlsPartialReceived p))
      | Topic.CertifiedVertex =>
          v ← decode_event_payload data; Ok (Some (CertifiedVertexReceived v))
      | Topic.VertexProposal => p ← decode_event_payload data; Ok (Some (VertexProposalReceived p))
      | Topic.VertexPartial => bp ← decode_event_payload data; Ok (Some (VertexPartialReceived bp))
      | Topic.BlobChunk => Ok None
      end
  end.

(** ** [swarm_runner.rs] *)

(** [mpsc::Sender::try_send] *)
Inductive TrySend := Sent | Full | Closed.
Inductive Handed := H_chunk (c : BlobChunk) | H_event (e : Event).

(** A gossipsub message: what is handed to a channel, and whether the task goes
    on.  [blob_tx] and [events_tx] say how the channels answer. *)
Definition on_message (blob_tx : option (BlobChunk → TrySend)) (events_tx : Event → TrySend)
    (topic : string) (data : bytes) : option Handed * bool :=
  match decode_blob_chunk topic data with
  | Ok (Some chunk) =>
      match blob_tx with
      | None => (None, true)
      | Some tx => match tx chunk with
                   | Sent => (Some (H_chunk chunk), true)
                   | Full => (None, true)
                   | Closed => (None, false)
                   end
      end
  | Ok None =>
      match inbound_message topic data with
      | Ok (Some event) =>
          match events_tx event with
          | Sent => (Some (H_event event), true)
          | Full => (None, true)
          | Closed => (None, false)
          end
      | _ => (None, true)
      end
  | _ => (None, true)
  end.

(** An action of the orchestrator: what is given to gossipsub to publish, under
    which name. *)
Definition on_action (action : Action) : option (string * bytes) :=
  match outbound_broadcast action with
  | Ok (Some (topic, payload)) => Some (Topic.wire_name topic, payload)
  | _ => None
  end.

Definition subscribe_set (macro_subnet_count : Z) : list Topic :=
  [Topic.CertifiedVertex; Topic.MicroQc; Topic.MacroProposal; Topic.SubnetAggregate;
   Topic.MacroQc; Topic.SlashEvidence; Topic.VertexProposal; Topic.VertexPartial] ++
  let partial_count := if macro_subnet_count =? 0 then 1 else macro_subnet_count in
  (λ i : nat, Topic.BlsPartial (MkSubnetId i)) <$> seq 0 (Z.to_nat partial_count).
End gossip_wire.

(** ** [gossip/publisher.rs] *)

Record Publisher := MkPublisher { seen : list Hash32; capacity : nat }.
#[global] Instance Publisher_eta : Settable Publisher := λ p, MkPublisher (seen p) (capacity p).

Definition Publisher_new (capacity : nat) : Publisher := MkPublisher [] capacity.

Definition publisher_check `{Primitives} (payload : bytes) (self : Publisher) : bool * Publisher :=
  let h := blake3_with_dst dst.CONTENT_HASH payload in
  if bool_decide (h ∈ seen self) then (false, self)
  else
    let self := if bool_decide (length (seen self) = capacity self)
                then self <| seen ::= tail |> else self in
    (true, self <| seen ::= λ l, l ++ [h] |>).

(** The answers to a sequence of payloads. *)
Fixpoint publisher_run `{Primitives} (payloads : list bytes) (self : Publisher)
  : list bool * Publisher :=
  match payloads with
  | [] => ([], self)
  | p :: payloads =>
      let '(b, self) := publisher_check p self in
      let '(bs, self) := publisher_run payloads self in
      (b :: bs, self)
  end.

(** ** [config.rs] *)

Record GossipConfig := MkGossipConfig {
  heartbeat_ms : Z; mesh_n : Z; mesh_n_low : Z; mesh_n_high : Z;
}.
Record PeerConfig := MkPeerConfig { max_peers : Z; ban_duration_secs : Z }.
Record NetConfig := MkNetConfig {
  nc_listen : list string; nc_bootstrap : list string; nc_gossip : GossipConfig;
  nc_peers : PeerConfig; nc_macro_subnet_count : Z;
}.

Definition net_devnet_default : NetConfig :=
  MkNetConfig ["/ip4/0.0.0.0/udp/9000/quic-v1"; "/ip4/0.0.0.0/tcp/9000"] []
    (MkGossipConfig 700 8 6 12) (MkPeerConfig 64 600) 0.

(** ** [peers/scoring.rs] *)

Inductive Reason := GoodDelivery | SlowDelivery | InvalidMessage | Equivocation.

Definition BAN_THRESHOLD : Z := -500.

Definition i32_ok (x : Z) : Prop := - 2 ^ 31 ≤ x < 2 ^ 31.
#[global] Instance i32_ok_dec x : Decision (i32_ok x).
Proof. unfold i32_ok. apply _. Defined.
Definition i32_saturating_add (a b : Z) : Z := Z.max (- 2 ^ 31) (Z.min (2 ^ 31 - 1) (a + b)).

Record PeerScore := MkPeerScore { points : Z }.
#[global] Instance PeerScore_eta : Settable PeerScore := λ s, MkPeerScore (points s).

Definition neutral : PeerScore := MkPeerScore 0.
Definition score_adjust (delta : Z) (_reason : Reason) (self : PeerScore) : PeerScore :=
  self <| points ::= λ p, i32_saturating_add p delta |>.
Definition is_banned (self : PeerScore) : bool := points self <=? BAN_THRESHOLD.

(** ** [peers/mod.rs] *)

Record PeerManager (PeerId : Type) `{Countable PeerId} := MkPeerManager {
  pm_cfg : PeerConfig;
  pm_peers : gmap PeerId PeerScore;
}.
Arguments MkPeerManager {_ _ _} _ _.
Arguments pm_cfg {_ _ _} _.
Arguments pm_peers {_ _ _} _.
#[global] Instance PeerManager_eta `{Countable PeerId} : Settable (PeerManager PeerId) := λ m,
  MkPeerManager (pm_cfg m) (pm_peers m).

(** ** [identity.rs] *)

Record IdentityMap (PeerId : Type) `{Countable PeerId} := MkIdentityMap {
  fwd : gmap PeerId ValidatorId;
  bwd : gmap ValidatorId PeerId;
}.
Arguments MkIdentityMap {_ _ _} _ _.
Arguments fwd {_ _ _} _.
Arguments bwd {_ _ _} _.
#[global] Instance IdentityMap_eta `{Countable PeerId} : Settable (IdentityMap PeerId) := λ m,
  MkIdentityMap (fwd m) (bwd m).

Section peers.
Context `{Countable PeerId}.

Definition PeerManager_new (cfg : PeerConfig) : PeerManager PeerId := MkPeerManager cfg ∅.

Definition on_connected (peer : PeerId) (self : PeerManager PeerId) : PeerManager PeerId :=
  self <| pm_peers ::= λ m, match m !! peer with Some _ => m | None => <[peer := neutral]> m end |>.
Definition on_disconnected (peer : PeerId) (self : PeerManager PeerId) : PeerManager PeerId :=
  self <| pm_peers ::= delete peer |>.
Definition adjust (peer : PeerId) (delta : Z) (reason : Reason) (self : PeerManager PeerId)
  : bool * PeerManager PeerId :=
  match pm_peers self !! peer with
  | Some s =>
      let s := score_adjust delta reason s in
      (is_banned s, self <| pm_peers ::= <[peer := s]> |>)
  | None => (false, self)
  end.
Definition peers_len (self : PeerManager PeerId) : nat := size (pm_peers self).
Definition peers_is_empty (self : PeerManager PeerId) : bool := bool_decide (pm_peers self = ∅).
Definition is_full (self : PeerManager PeerId) : bool := max_peers (pm_cfg self) <=? peers_len self.

Definition IdentityMap_new : IdentityMap PeerId := MkIdentityMap ∅ ∅.

Definition identity_insert (peer : PeerId) (validator : ValidatorId) (self : IdentityMap PeerId)
  : IdentityMap PeerId :=
  let prev_v := fwd self !! peer in
  let self := self <| fwd ::= <[peer := validator]> |> in
  let self := match prev_v with Some v => self <| bwd ::= delete v |> | None => self end in
  let prev_p := bwd self !! validator in
  let self := self <| bwd ::= <[validator := peer]> |> in
  match prev_p with Some p => self <| fwd ::= delete p |> | None => self end.

Definition identity_validator (self : IdentityMap PeerId) (peer : PeerId) : option ValidatorId :=
  fwd self !! peer.
Definition identity_peer (self : IdentityMap PeerId) (validator : ValidatorId) : option PeerId :=
  bwd self !! validator.

Definition identity_forget (peer : PeerId) (self : IdentityMap PeerId) : IdentityMap PeerId :=
  match fwd self !! peer with
  | Some v => self <| fwd ::= delete peer |> <| bwd ::= delete v |>
  | None => self
  end.

Inductive identity_op := IO_insert (peer : PeerId) (validator : ValidatorId) | IO_forget (peer : PeerId).
Definition identity_apply (self : IdentityMap PeerId) (op : identity_op) : IdentityMap PeerId :=
  match op with
  | IO_insert p v => identity_insert p v self
  | IO_forget p => identity_forget p self
  end.
End peers.
Arguments identity_op : clear implicits.

(** ** Topic names *)

Lemma strip_prefix_app p s : strip_prefix p (p +:+ s) = Some s.
Proof.
  induction p as [|a p IH]; [done|]. change (String a p +:+ s) with (String a (p +:+ s)). cbn [strip_prefix].
  by rewrite bool_decide_true.
Qed.

Lemma strip_prefix_Some p s r : strip_prefix p s = Some r → s = p +:+ r.
Proof.
  revert s. induction p as [|a p IH]; intros s; [by intros [= <-]|].
  destruct s as [|b s]; [done|]. cbn [strip_prefix]. case_bool_decide as He; [|done]. subst b.
  intros ->%IH. done.
Qed.

Lemma digit_of_pretty x : (x < 10)%N → digit_of (pretty_N_char x) = Some (Z.of_N x).
Proof.
  intros Hx.
  assert (x = 0 ∨ x = 1 ∨ x = 2 ∨ x = 3 ∨ x = 4 ∨ x = 5 ∨ x = 6 ∨ x = 7 ∨ x = 8 ∨ x = 9)%N as Hc
    by lia.
  repeat destruct Hc as [->|Hc]; [reflexivity..|by subst].
Qed.

(** The parser reads back what [format!] prints. *)
Lemma parse_digits_pretty (x : N) :
  Z.of_N x < 2 ^ 32 → ∀ s, parse_digits (pretty_N_go x s) 0 = parse_digits s (Z.of_N x).
Proof.
  induction (N.lt_wf_0 x) as [x _ IH]; intros Hx s.
  destruct (decide (x = 0)%N) as [->|]; [by rewrite pretty_N_go_0|].
  rewrite pretty_N_go_step by lia.
  assert (Hdiv : (x `div` 10 < x)%N) by (apply N.div_lt; lia).
  rewrite IH; [|done|lia]. cbn [parse_digits].
  rewrite digit_of_pretty by (apply N.mod_lt; lia). cbn.
  replace (Z.of_N (x `div` 10) * 10 + Z.of_N (x `mod` 10)) with (Z.of_N x)
    by (rewrite N2Z.inj_div, N2Z.inj_mod; dlia).
  by rewrite (proj2 (Z.ltb_lt _ _)) by lia.
Qed.

Lemma u32_parse_digits s n :
  s ≠ "" → parse_digits s 0 = Some n → u32_parse s = Some n.
Proof.
  destruct s as [|c s]; [done|]. intros _ Hp. cbn [u32_parse].
  case_bool_decide; [by subst|done].
Qed.

Lemma pretty_N_go_nonempty x s : s ≠ "" → pretty_N_go x s ≠ "".
Proof.
  revert s. induction (N.lt_wf_0 x) as [x _ IH]; intros s Hs.
  destruct (decide (x = 0)%N) as [->|]; [by rewrite pretty_N_go_0|].
  rewrite pretty_N_go_step by lia. apply IH; [apply N.div_lt; lia|done].
Qed.

Lemma u32_parse_pretty x : u32_ok x → u32_parse (pretty x) = Some x.
Proof.
  intros [Hge Hlt]. destruct x as [|x|x]; [done| |lia].
  change (pretty (Z.pos x)) with (pretty (N.pos x)). unfold pretty, pretty_N.
  rewrite decide_False by done. apply u32_parse_digits.
  - rewrite pretty_N_go_step by done. by apply pretty_N_go_nonempty.
  - by rewrite parse_digits_pretty.
Qed.

Definition topic_ok (t : Topic) : Prop :=
  match t with Topic.BlsPartial s => u32_ok (subnet_u32 s) | _ => True end.

Lemma from_wire_name_wire_name t :
  topic_ok t → Topic.from_wire_name (Topic.wire_name t) = Some t.
Proof.
  destruct t; try done. intros Hs. cbn [Topic.wire_name]. unfold Topic.from_wire_name.
  repeat (rewrite bool_decide_false by (intros He; cbn in He; discriminate He)).
  rewrite strip_prefix_app. cbn [mbind option_bind]. rewrite u32_parse_pretty by done. by destruct s.
Qed.

Lemma parse_digits_range s acc n : u32_ok acc → parse_digits s acc = Some n → u32_ok n.
Proof.
  revert acc. induction s as [|c s IH]; intros acc Hacc; cbn [parse_digits]; [by intros [= <-]|].
  destruct (digit_of c) as [d|] eqn:Hd; [|done]. cbn.
  assert (0 ≤ d).
  { unfold digit_of in Hd. case_bool_decide; [|done]. simplify_eq. lia. }
  destruct (Z.ltb_spec (acc * 10 + d) (2 ^ 32)); [|done]. apply IH. unfold uint_ok in *. lia.
Qed.

Lemma u32_parse_range s n : u32_parse s = Some n → u32_ok n.
Proof.
  destruct s as [|c s]; [done|]. cbn [u32_parse].
  repeat case_bool_decide; intros Hp; [done| |]; by eapply parse_digits_range, Hp.
Qed.

Lemma from_wire_name_Some s t :
  Topic.from_wire_name s = Some t →
  s = Topic.wire_name t ∨
  ∃ rest n, t = Topic.BlsPartial (MkSubnetId n) ∧ s = wire.BLS_PARTIAL_PREFIX +:+ rest ∧
    u32_parse rest = Some n.
Proof.
  unfold Topic.from_wire_name.
  repeat (case_bool_decide; [intros [= <-]; by left|]).
  intros (rest & Hr & (n & Hn & [= <-])%bind_Some)%bind_Some.
  right. exists rest, n. split; [done|]. split; [by apply strip_prefix_Some|done].
Qed.

Lemma from_wire_name_ok s t : Topic.from_wire_name s = Some t → topic_ok t.
Proof.
  intros Hs. destruct (from_wire_name_Some s t Hs) as [->|(rest & n & -> & _ & Hn)].
  - destruct t as [| | |n| | | | | |]; try done. cbn in *. revert Hs. unfold Topic.from_wire_name.
    repeat (rewrite bool_decide_false by (intros He; cbn in He; discriminate He)).
    rewrite strip_prefix_app. cbn [mbind option_bind].
    intros (m & Hm & [= <-])%bind_Some. by apply u32_parse_range in Hm.
  - by apply u32_parse_range in Hn.
Qed.

(** ** What the receiver gets *)

Definition delivered (a : Action) : option Event :=
  match a with
  | BroadcastMicroQc m => Some (MicroQcAssembled m)
  | BroadcastMacroProposal m => Some (MacroProposalReceived m)
  | BroadcastBlsPartial p => Some (BlsPartialReceived p)
  | BroadcastSubnetAggregate x => Some (SubnetAggregateReceived x)
  | BroadcastMacroQc q => Some (MacroQcReceived q)
  | EmitSlashEvidence _ evidence => Some (SlashEvidenceFound evidence)
  | BroadcastVertexProposal p => Some (VertexProposalReceived p)
  | BroadcastVertexPartial bp => Some (VertexPartialReceived bp)
  | BroadcastCertifiedVertex cv => Some (CertifiedVertexReceived cv)
  | _ => None
  end.

(** The topic of an event that gossip can deliver, and the events a payload
    stands for. *)
Definition event_topic (ev : Event) : option Topic :=
  match ev with
  | MicroQcAssembled _ => Some Topic.MicroQc
  | MacroProposalReceived _ => Some Topic.MacroProposal
  | BlsPartialReceived p => Some (Topic.BlsPartial (bp_subnet p))
  | SubnetAggregateReceived _ => Some Topic.SubnetAggregate
  | MacroQcReceived _ => Some Topic.MacroQc
  | SlashEvidenceFound _ => Some Topic.SlashEvidence
  | VertexProposalReceived _ => Some Topic.VertexProposal
  | VertexPartialReceived _ => Some Topic.VertexPartial
  | CertifiedVertexReceived _ => Some Topic.CertifiedVertex
  | TimerFired _ | ValidatorSetUpdated _ _ => None
  end.

Section wire_facts.
Context `{WireCodecs}.

Definition decodes_to (data : bytes) (ev : Event) : Prop :=
  match ev with
  | MicroQcAssembled m => from_slice data = Some m
  | MacroProposalReceived m => from_slice data = Some m
  | BlsPartialReceived p => from_slice data = Some p
  | SubnetAggregateReceived x => from_slice data = Some x
  | MacroQcReceived q => from_slice data = Some q
  | SlashEvidenceFound evidence => from_slice data = Some evidence
  | VertexProposalReceived p => from_slice data = Some p
  | VertexPartialReceived bp => from_slice data = Some bp
  | CertifiedVertexReceived cv => from_slice data = Some cv
  | TimerFired _ | ValidatorSetUpdated _ _ => False
  end.

(** A broadcast whose payload Borsh reads back, on a topic of the [u32] range. *)
Definition payload_ok (a : Action) : Prop :=
  match a with
  | BroadcastMicroQc m => encodable m
  | BroadcastMacroProposal m => encodable m
  | BroadcastBlsPartial p => encodable p ∧ u32_ok (subnet_u32 (bp_subnet p))
  | BroadcastSubnetAggregate x => encodable x
  | BroadcastMacroQc q => encodable q
  | EmitSlashEvidence _ evidence => encodable evidence
  | BroadcastVertexProposal p => encodable p
  | BroadcastVertexPartial bp => encodable bp
  | BroadcastCertifiedVertex cv => encodable cv
  | _ => True
  end.

Lemma decode_event_payload_Ok `{Codec T} (data : bytes) (v : T) :
  decode_event_payload data = Ok v ↔ from_slice data = Some v.
Proof. unfold decode_event_payload. destruct (from_slice data); naive_solver. Qed.

Lemma inbound_Ok_Some s data ev :
  inbound_message s data = Ok (Some ev) ↔
  ∃ t, Topic.from_wire_name s = Some t ∧ event_topic ev = Some t ∧ decodes_to data ev.
Proof.
  unfold inbound_message. split.
  - destruct (Topic.from_wire_name s) as [t|] eqn:Ht; [|done]. intros He. exists t. split; [done|].
    destruct t as [| | |n| | | | | |]; try done;
      apply outcome_bind_Ok in He as (v & Hv%decode_event_payload_Ok & He);
      try (injection He as <-; done).
    case_bool_decide; [done|]. injection He as <-. split; [by subst n|done].
  - intros (t & -> & Ht & Hd).
    destruct ev; cbn in Ht, Hd; try done; injection Ht as <-;
      apply decode_event_payload_Ok in Hd; rewrite Hd; try done.
    cbn. by rewrite bool_decide_false by (intros Hn; by apply Hn).
Qed.

Lemma decode_blob_chunk_other s data :
  Topic.from_wire_name s ≠ Some Topic.BlobChunk → decode_blob_chunk s data = Ok None.
Proof. intros Hs. unfold decode_blob_chunk. by rewrite bool_decide_true. Qed.

Lemma outbound_delivered a :
  payload_ok a →
  match delivered a with
  | Some ev => ∃ topic payload, outbound_broadcast a = Ok (Some (topic, payload)) ∧
      event_topic ev = Some topic ∧ topic_ok topic ∧ decodes_to payload ev
  | None => outbound_broadcast a = Ok None
  end.
Proof.
  unfold payload_ok, encodable. destruct a; cbn; intros He; try done;
    try (do 2 eexists; split; [reflexivity|]; done).
  destruct He as [He Hs]. do 2 eexists. split; [reflexivity|]. done.
Qed.
End wire_facts.

(** ** The claims on topics and messages *)

(** A topic is read back from its name, so names are distinct; every name read as a topic is
    that topic's own, except that a partial-signature topic is also read
    from other spellings of its number. *)
Theorem topic_names_roundtrip (s : string) (t t' : Topic) :
  (topic_ok t → Topic.from_wire_name (Topic.wire_name t) = Some t) ∧
  (topic_ok t → topic_ok t' → Topic.wire_name t = Topic.wire_name t' → t = t') ∧
  (Topic.from_wire_name s = Some t → topic_ok t ∧
     (s = Topic.wire_name t ∨
      ∃ rest n, t = Topic.BlsPartial (MkSubnetId n) ∧ s = wire.BLS_PARTIAL_PREFIX +:+ rest ∧
        u32_parse rest = Some n)).
Proof.
  split; [apply from_wire_name_wire_name|]. split.
  - intros Ht Ht' He. apply (inj Some). rewrite <- !from_wire_name_wire_name by done. by rewrite He.
  - intros Hs. split; [by eapply from_wire_name_ok|by apply from_wire_name_Some].
Qed.

(** [C30] Whatever the orchestrator broadcasts arrives: an action of the
    state machine either has no wire form, or is published under a topic and payload from
    which the receiving swarm task gives back the same message as an event, which is
    lost only if the event channel is full or closed. *)
Theorem gossip_roundtrip `{WireCodecs} (a : Action) blob_tx events_tx :
  payload_ok a →
  match delivered a with
  | Some ev => is_broadcast a = true ∧ ∃ topic payload,
      on_action a = Some (Topic.wire_name topic, payload) ∧
      inbound_message (Topic.wire_name topic) payload = Ok (Some ev) ∧
      on_message blob_tx events_tx (Topic.wire_name topic) payload =
        match events_tx ev with
        | Sent => (Some (H_event ev), true) | Full => (None, true) | Closed => (None, false)
        end
  | None => is_broadcast a = false ∧ on_action a = None
  end.
Proof.
  intros Ha. pose proof (outbound_delivered a Ha) as Ho. destruct (delivered a) as [ev|] eqn:Hd.
  - split; [by destruct a|]. destruct Ho as (topic & payload & Ho & Ht & Hok & Hdec).
    exists topic, payload. split; [unfold on_action; by rewrite Ho|].
    assert (Hin : inbound_message (Topic.wire_name topic) payload = Ok (Some ev)).
    { apply inbound_Ok_Some. exists topic. split; [by apply from_wire_name_wire_name|done]. }
    split; [done|]. unfold on_message. rewrite decode_blob_chunk_other; [by rewrite Hin|].
    rewrite from_wire_name_wire_name by done. intros [= ->]. by destruct ev.
  - split; [by destruct a|]. unfold on_action. by rewrite Ho.
Qed.

(** An event enters from gossip exactly when the message is on the event's own topic and
    its payload decodes to the event, the subnet of a partial included: a peer can
    inject neither timers nor validator sets, nor pass one message off as another. *)
Theorem inbound_message_spec `{WireCodecs} s data ev :
  (inbound_message s data = Ok (Some ev) ↔
     ∃ t, Topic.from_wire_name s = Some t ∧ event_topic ev = Some t ∧ decodes_to data ev) ∧
  (inbound_message s data = Ok (Some ev) →
     (∀ id, ev ≠ TimerFired id) ∧ (∀ e set, ev ≠ ValidatorSetUpdated e set)) ∧
  (inbound_message s data = Ok None ↔
     Topic.from_wire_name s = None ∨ Topic.from_wire_name s = Some Topic.BlobChunk).
Proof.
  split; [apply inbound_Ok_Some|]. split.
  - intros (t & _ & Ht & _)%inbound_Ok_Some. by split; intros; intros ->.
  - unfold inbound_message. destruct (Topic.from_wire_name s) as [t|]; [|naive_solver].
    split.
    + intros He. right. destruct t; try done;
        apply outcome_bind_Ok in He as (v & _ & He); try done. by case_bool_decide.
    + intros [?|[= ->]]; done.
Qed.

(** The topics a node subscribes to cover every message it or a peer broadcasts, for
    subnets below the count (a count of zero stands for one), and not
    the topic blob chunks are published on. *)
Theorem subscriptions_cover `{WireCodecs} (n : Z) (t : Topic) (chunk : BlobChunk) :
  u32_ok n → topic_ok t →
  (t ∈ subscribe_set n ↔
     match t with
     | Topic.BlsPartial s => subnet_u32 s < Z.max 1 n
     | Topic.BlobChunk => False
     | _ => True
     end) ∧
  ∃ topic payload, encode_blob_chunk chunk = Ok (topic, payload) ∧ topic ∉ subscribe_set n.
Proof.
  intros Hn Ht.
  assert (Hspec : ∀ t, topic_ok t → t ∈ subscribe_set n ↔
     match t with
     | Topic.BlsPartial s => subnet_u32 s < Z.max 1 n
     | Topic.BlobChunk => False
     | _ => True
     end).
  { clear t Ht. intros t Ht. unfold subscribe_set. rewrite elem_of_app, list_elem_of_fmap.
    assert (Hc : Z.to_nat (if n =? 0 then 1 else n) = Z.to_nat (Z.max 1 n)).
    { unfold uint_ok in Hn. destruct (Z.eqb_spec n 0); lia. }
    cbv zeta. rewrite Hc.
    destruct t as [| | |[m]| | | | | |]; try (split; [done|intros _; left; set_solver]).
    - cbn in *. unfold uint_ok in Ht. split.
      + intros [Hin|(i & [= ->] & Hi%elem_of_seq)]; [set_solver|lia].
      + intros Hm. right. exists (Z.to_nat m). rewrite Z2Nat.id by lia. split; [done|].
        apply elem_of_seq. lia.
    - split; [|done]. intros [Hin|(i & Hi & _)]; [set_solver|done]. }
  split; [by apply Hspec|]. exists Topic.BlobChunk, (to_vec chunk). split; [done|].
  intros Hin. by apply Hspec in Hin.
Qed.

(** ** The publisher's window *)

(** The hashes recorded while a sequence of payloads is answered. *)
Definition recorded `{Primitives} (payloads : list bytes) (answers : list bool) : list Hash32 :=
  omap (λ p : bytes * bool, if p.2 then Some (blake3_with_dst dst.CONTENT_HASH p.1) else None)
    (zip payloads answers).

(** The last [cap] elements, or all of them when [cap] is zero. *)
Definition window {A} (cap : nat) (l : list A) : list A :=
  if decide (cap = 0%nat) then l else drop (length l - cap) l.

Section publisher.
Context `{Primitives}.

Lemma window_snoc {A} (cap : nat) (l : list A) x :
  window cap (l ++ [x]) =
    (if bool_decide (length (window cap l) = cap) then tail (window cap l) else window cap l) ++ [x].
Proof.
  unfold window. case_decide as Hc.
  - subst cap. case_bool_decide as Hl; [|done]. apply nil_length_inv in Hl. by subst.
  - rewrite length_app, length_drop. cbn [length]. case_bool_decide as Hl.
    + replace (length l + 1 - cap)%nat with (S (length l - cap)) by lia.
      destruct (drop (length l - cap) l) as [|y r] eqn:Hd.
      { apply (f_equal length) in Hd. rewrite length_drop in Hd. cbn in Hd. lia. }
      rewrite drop_app_le by (apply (f_equal length) in Hd; rewrite length_drop in Hd; cbn in Hd; lia).
      f_equal. change (tail (y :: r)) with r. rewrite <- Nat.add_1_r, <- drop_drop, Hd. done.
    + rewrite !(proj2 (Nat.sub_0_le _ _)) by lia. by rewrite !drop_0.
Qed.

Lemma publisher_check_window h cap payload self b self' :
  seen self = window cap h → capacity self = cap → NoDup (seen self) →
  publisher_check payload self = (b, self') →
  (b = true ↔ blake3_with_dst dst.CONTENT_HASH payload ∉ window cap h) ∧
  seen self' = window cap (h ++ if b then [blake3_with_dst dst.CONTENT_HASH payload] else []) ∧
  capacity self' = cap ∧ NoDup (seen self').
Proof.
  intros Hs Hc Hnd. unfold publisher_check. set (x := blake3_with_dst _ _).
  case_bool_decide as Hin; intros [= <- <-].
  - rewrite Hs in Hin. split; [by split|]. by rewrite app_nil_r.
  - rewrite Hs in Hin. split; [by split|].
    rewrite window_snoc. rewrite <- Hs, <- Hc. split; [by case_bool_decide|].
    split; [by case_bool_decide|].
    assert (Hnd' : NoDup (tail (seen self) ++ [x]) ∧ NoDup (seen self ++ [x])).
    { rewrite <- Hs in Hin. split; apply NoDup_app; (split; [|split; [|apply NoDup_singleton]]); try done.
      - destruct (seen self); [done|by apply NoDup_cons in Hnd as [_ ?]].
      - intros y Hy ->%list_elem_of_singleton. apply Hin. destruct (seen self); [done|by right].
      - by intros y Hy ->%list_elem_of_singleton. }
    case_bool_decide; apply Hnd'.
Qed.

Lemma publisher_run_window payloads h cap self bs self' :
  seen self = window cap h → capacity self = cap → NoDup (seen self) →
  publisher_run payloads self = (bs, self') →
  length bs = length payloads ∧
  seen self' = window cap (h ++ recorded payloads bs) ∧ NoDup (seen self') ∧
  ∀ i p b, payloads !! i = Some p → bs !! i = Some b →
    (b = true ↔ blake3_with_dst dst.CONTENT_HASH p ∉
                  window cap (h ++ recorded (take i payloads) (take i bs))).
Proof.
  revert h self bs. induction payloads as [|p ps IH]; intros h self bs Hs Hc Hnd; cbn [publisher_run].
  { intros [= <- <-]. rewrite app_nil_r. done. }
  destruct (publisher_check p self) as [b self1] eqn:Hp.
  destruct (publisher_run ps self1) as [bs1 self2] eqn:Hr. intros [= <- <-].
  destruct (publisher_check_window h cap p self b self1 Hs Hc Hnd Hp) as (Hb & Hs1 & Hc1 & Hnd1).
  destruct (IH _ _ _ Hs1 Hc1 Hnd1 Hr) as (Hl & Hs2 & Hnd2 & Hi).
  assert (Hrec : ∀ qs cs, h ++ recorded (p :: qs) (b :: cs) =
    (h ++ if b then [blake3_with_dst dst.CONTENT_HASH p] else []) ++ recorded qs cs).
  { intros. rewrite <- (assoc_L (++)). f_equal. unfold recorded. cbn. by destruct b. }
  split; [cbn; by rewrite Hl|]. rewrite Hrec. split; [done|]. split; [done|].
  intros [|i] q c; cbn [lookup list_lookup take].
  - intros [= <-] [= <-]. unfold recorded. cbn. by rewrite app_nil_r.
  - intros Hq Hc'. rewrite Hrec. by apply Hi.
Qed.
End publisher.

(** A publisher that remembers [cap] hashes lets a payload through exactly when its hash is
    not among the last [cap] it let through, whatever the order of the payloads; it never holds
    more than those.  With capacity zero it forgets nothing. *)
Theorem publisher_window `{Primitives} (cap : nat) (payloads : list bytes) bs self :
  publisher_run payloads (Publisher_new cap) = (bs, self) →
  length bs = length payloads ∧
  seen self = window cap (recorded payloads bs) ∧ NoDup (seen self) ∧
  (cap ≠ 0 → length (seen self) ≤ cap)%nat ∧
  ∀ i p b, payloads !! i = Some p → bs !! i = Some b →
    (b = true ↔ blake3_with_dst dst.CONTENT_HASH p ∉
                  window cap (recorded (take i payloads) (take i bs))).
Proof.
  intros Hr. destruct (publisher_run_window payloads [] cap (Publisher_new cap) bs self) as (Hl & Hs & Hnd & Hi); try done.
  - unfold window. cbn. by case_decide.
  - constructor.
  - split; [done|]. split; [done|]. split; [done|]. split; [|done].
    intros Hc. rewrite Hs. unfold window. rewrite decide_False by done. rewrite length_drop. lia.
Qed.

(** ** Peers *)

Section peers_facts.
Context `{Countable PeerId}.

(** The two maps are inverses of each other. *)
Definition bijective (m : IdentityMap PeerId) : Prop :=
  ∀ p v, fwd m !! p = Some v ↔ bwd m !! v = Some p.

Lemma identity_insert_bijective p v (m : IdentityMap PeerId) :
  bijective m → bijective (identity_insert p v m) ∧
    fwd (identity_insert p v m) !! p = Some v ∧
    ∀ q, q ≠ p → fwd (identity_insert p v m) !! q =
      if bool_decide (fwd m !! q = Some v) then None else fwd m !! q.
Proof.
  intros Hb.
  assert (Hf : fwd (identity_insert p v m) =
    match bwd m !! v with
    | Some p' => if bool_decide (p' = p) then <[p := v]> (fwd m) else delete p' (<[p := v]> (fwd m))
    | None => <[p := v]> (fwd m) end ∧
    bwd (identity_insert p v m) =
    match fwd m !! p with
    | Some v' => <[v := p]> (delete v' (bwd m)) | None => <[v := p]> (bwd m) end).
  { unfold identity_insert. destruct m as [fm wm]. unfold bijective in Hb. cbn in *.
    destruct (fm !! p) as [v'|] eqn:Hp; cbn.
    - destruct (decide (v' = v)) as [->|Hne].
      + rewrite lookup_delete_eq. apply Hb in Hp as Hv. rewrite Hv. by rewrite bool_decide_true.
      + rewrite lookup_delete_ne by done. destruct (wm !! v) as [p'|] eqn:Hv; [|done].
        rewrite bool_decide_false; [done|]. intros ->. apply Hb in Hv. congruence.
    - destruct (wm !! v) as [p'|] eqn:Hv; [|done].
      rewrite bool_decide_false; [done|]. intros ->. apply Hb in Hv. congruence. }
  destruct Hf as [Hf Hw].
  assert (Hother : ∀ q, q ≠ p → fwd (identity_insert p v m) !! q =
      if bool_decide (fwd m !! q = Some v) then None else fwd m !! q).
  { intros q Hq. rewrite Hf. destruct (bwd m !! v) as [p'|] eqn:Hv.
    - apply Hb in Hv as Hv'. case_bool_decide as Hp'.
      + subst p'. rewrite lookup_insert_ne by done. case_bool_decide as Hqv; [|done].
        apply Hb in Hqv. congruence.
      + destruct (decide (q = p')) as [->|Hqp].
        * rewrite lookup_delete_eq. by rewrite bool_decide_true.
        * rewrite lookup_delete_ne, lookup_insert_ne by done. case_bool_decide as Hqv; [|done].
          apply Hb in Hqv. congruence.
    - rewrite lookup_insert_ne by done. case_bool_decide as Hqv; [|done].
      apply Hb in Hqv. congruence. }
  assert (Hself : fwd (identity_insert p v m) !! p = Some v).
  { rewrite Hf. destruct (bwd m !! v) as [p'|]; [case_bool_decide|];
      rewrite ?lookup_delete_ne by done; apply lookup_insert_eq. }
  split; [|done]. intros q w. destruct (decide (q = p)) as [->|Hq].
  - rewrite Hself, Hw. destruct (fwd m !! p) as [v'|] eqn:Hp; rewrite lookup_insert.
    + case_decide as Hvw; [naive_solver|]. split; [naive_solver|].
      intros [? Hw']%lookup_delete_Some. apply Hb in Hw'. congruence.
    + case_decide as Hvw; [naive_solver|]. split; [naive_solver|]. intros Hw'%Hb. congruence.
  - rewrite Hother by done. case_bool_decide as Hqv.
    + split; [done|]. rewrite Hw. intros Hbw. destruct (fwd m !! p) as [v'|] eqn:Hp;
        rewrite lookup_insert in Hbw; case_decide; try naive_solver.
      * apply lookup_delete_Some in Hbw as [_ Hbw%Hb]. congruence.
      * apply Hb in Hbw. congruence.
    + rewrite (Hb q w), Hw. destruct (decide (v = w)) as [->|Hvw].
      { rewrite (Hb q w) in Hqv. split; [done|]. by destruct (fwd m !! p); rewrite lookup_insert_eq; intros [= ->]. }
      destruct (fwd m !! p) as [v'|] eqn:Hp; rewrite lookup_insert_ne by done; [|done].
      rewrite lookup_delete_Some. split; [|by intros []].
      intros Hbw. split; [|done]. intros ->. apply Hb in Hp. congruence.
Qed.

Lemma identity_forget_bijective p (m : IdentityMap PeerId) :
  bijective m → bijective (identity_forget p m) ∧ fwd (identity_forget p m) = delete p (fwd m).
Proof.
  intros Hb. unfold identity_forget. destruct m as [fm wm]. unfold bijective in *. cbn in *.
  destruct (fm !! p) as [v|] eqn:Hp; cbn.
  - split; [|done]. intros q w. cbn. rewrite !lookup_delete_Some, (Hb q w).
    apply Hb in Hp. split; intros [Hne Hq]; (split; [|done]); intros ->; [|].
    + congruence.
    + apply Hb in Hq, Hp. congruence.
  - split; [done|]. by rewrite delete_id.
Qed.

(** [C40] The peers and validators of a node stay matched one to one, whatever is registered and
    forgotten: the two directions never disagree, the last registration of a
    peer holds, and it displaces only the entries of that peer and that validator. *)
Theorem identity_map_bijective (ops : list (identity_op PeerId)) p v :
  let m := foldl identity_apply IdentityMap_new ops in
  (∀ q w, identity_validator m q = Some w ↔ identity_peer m w = Some q) ∧
  (let m' := identity_insert p v m in
   identity_validator m' p = Some v ∧ identity_peer m' v = Some p ∧
   ∀ q, q ≠ p → identity_validator m' q =
     if bool_decide (identity_validator m q = Some v) then None else identity_validator m q) ∧
  (let m' := identity_forget p m in
   identity_validator m' p = None ∧ (∀ w, identity_peer m' w ≠ Some p) ∧
   ∀ q, q ≠ p → identity_validator m' q = identity_validator m q).
Proof.
  assert (Hb : ∀ m, bijective m → bijective (foldl identity_apply m ops)).
  { induction ops as [|op ops IH]; [done|]. intros m Hm. cbn. apply IH.
    destruct op; [by apply identity_insert_bijective|by apply identity_forget_bijective]. }
  specialize (Hb IdentityMap_new). cbv zeta.
  set (m := foldl _ _ _) in *. assert (Hm : bijective m) by (by apply Hb).
  split; [done|]. split.
  - destruct (identity_insert_bijective p v m Hm) as (Hb' & Hp & Hq).
    split; [done|]. split; [by apply Hb'|done].
  - destruct (identity_forget_bijective p m Hm) as (Hb' & Hf).
    unfold identity_validator, identity_peer in *. rewrite Hf.
    split; [apply lookup_delete_eq|]. split.
    + intros w Hw%Hb'. rewrite Hf, lookup_delete_eq in Hw. done.
    + intros q Hq. by rewrite lookup_delete_ne.
Qed.

(** Score changes of a connected peer add up, saturating at the bounds of
    [i32], and it is reported for a ban exactly at -500 points or below; a peer that is not
    connected is never reported, and one that reconnects starts from zero. *)
Theorem peer_adjust_spec p q delta reason (m : PeerManager PeerId) :
  let r := adjust p delta reason m in
  match pm_peers m !! p with
  | Some s => i32_ok (points s) → i32_ok delta →
      (r.1 = true ↔ points s + delta ≤ -500) ∧
      ∃ s', pm_peers r.2 !! p = Some s' ∧ i32_ok (points s') ∧
        (i32_ok (points s + delta) → points s' = points s + delta)
  | None => r = (false, m)
  end ∧
  (q ≠ p → pm_peers r.2 !! q = pm_peers m !! q) ∧
  pm_peers (on_connected p (on_disconnected p m)) !! p = Some neutral.
Proof.
  cbv zeta. unfold adjust. split; [|split].
  - destruct m as [cfg peers]. cbn. destruct (peers !! p) as [[x]|]; [|done]. cbn. intros Hs Hd.
    unfold is_banned, i32_saturating_add, BAN_THRESHOLD, i32_ok in *. cbn. split.
    + unfold i32_saturating_add. rewrite Z.leb_le. lia.
    + eexists. split; [apply lookup_insert_eq|]. cbn. unfold i32_saturating_add. lia.
  - intros Hq. destruct m as [cfg peers]. cbn. destruct (peers !! p); [|done].
    cbn. by rewrite lookup_insert_ne.
  - destruct m. cbn. rewrite lookup_delete_eq. apply lookup_insert_eq.
Qed.
End peers_facts.

(** ** Witnesses *)

(** A toy encoding: partials and subnet aggregates field after field, the
    rest empty. *)
#[local] Instance toy_wire : WireCodecs := {|
  wc_micro_qc_b _ := []; wc_micro_qc _ := None;
  wc_macro_proposal_b _ := []; wc_macro_proposal _ := None;
  wc_bls_partial_b p := le_bytes 4 (subnet_u32 (bp_subnet p)) ++ vid_bytes (bp_validator p) ++
    h32_bytes (bp_checkpoint_hash p) ++ bsig_bytes (bp_sig p);
  wc_bls_partial bs := Some (MkBlsPartial (MkSubnetId (of_le (take 4 bs)))
    (MkValidatorId (take 32 (drop 4 bs))) (MkHash32 (take 32 (drop 36 bs)))
    (MkBlsSig (drop 68 bs)));
  wc_subnet_aggregate_b _ := []; wc_subnet_aggregate _ := None;
  wc_macro_qc_b _ := []; wc_macro_qc _ := None;
  wc_slash_evidence_b _ := []; wc_slash_evidence _ := None;
  wc_vertex_proposal_b _ := []; wc_vertex_proposal _ := None;
  wc_vertex_partial_b _ := []; wc_vertex_partial _ := None;
  wc_certified_vertex_b _ := []; wc_certified_vertex _ := None;
  wc_blob_chunk_b _ := []; wc_blob_chunk _ := None;
|}.

Definition toy_wire_partial : BlsPartial :=
  MkBlsPartial (MkSubnetId 300) (toy_id 2) (MkHash32 (replicate 32 9)) (MkBlsSig (replicate 96 5)).

Lemma topic_names_roundtrip_witness :
  Topic.from_wire_name "lua-dag/v1/bls-partial/+007" = Some (Topic.BlsPartial (MkSubnetId 7)) ∧
  Topic.wire_name (Topic.BlsPartial (MkSubnetId 7)) = "lua-dag/v1/bls-partial/7" ∧
  Topic.from_wire_name "lua-dag/v1/bls-partial/4294967296" = None ∧
  Topic.from_wire_name (Topic.wire_name (Topic.BlsPartial (MkSubnetId 7))) =
    Some (Topic.BlsPartial (MkSubnetId 7)).
Proof.
  split; [vm_compute; reflexivity|]. split; [vm_compute; reflexivity|].
  split; [vm_compute; reflexivity|].
  apply (proj1 (topic_names_roundtrip "" (Topic.BlsPartial (MkSubnetId 7)) Topic.MicroQc)).
  vdecide.
Defined.

Lemma gossip_roundtrip_witness :
  payload_ok (BroadcastBlsPartial toy_wire_partial) ∧
  ∃ topic payload,
    on_action (BroadcastBlsPartial toy_wire_partial) = Some (Topic.wire_name topic, payload) ∧
    on_message None (λ _, Sent) (Topic.wire_name topic) payload =
      (Some (H_event (BlsPartialReceived toy_wire_partial)), true).
Proof.
  assert (Hok : payload_ok (BroadcastBlsPartial toy_wire_partial))
    by (split; [vm_compute; reflexivity|vdecide]).
  split; [exact Hok|].
  destruct (gossip_roundtrip (BroadcastBlsPartial toy_wire_partial) None (λ _, Sent) Hok)
    as (_ & topic & payload & Ha & _ & Hm).
  exists topic, payload. split; [exact Ha|exact Hm].
Defined.

Lemma inbound_message_spec_witness :
  inbound_message "lua-dag/v1/bls-partial/7" (to_vec toy_wire_partial) =
    Err (NetCodec "bls-partial topic subnet 7 != payload subnet 300") ∧
  inbound_message "lua-dag/v1/bls-partial/300" (to_vec toy_wire_partial) =
    Ok (Some (BlsPartialReceived toy_wire_partial)).
Proof.
  split; [vm_compute; reflexivity|].
  apply (proj2 (proj1 (inbound_message_spec "lua-dag/v1/bls-partial/300" (to_vec toy_wire_partial)
           (BlsPartialReceived toy_wire_partial)))).
  exists (Topic.BlsPartial (MkSubnetId 300)). split; [vm_compute; reflexivity|].
  split; [reflexivity|]. vm_compute. reflexivity.
Defined.

Lemma subscriptions_cover_witness :
  Topic.BlsPartial (MkSubnetId 0) ∈ subscribe_set 0 ∧
  Topic.BlobChunk ∉ subscribe_set 8.
Proof.
  split.
  - apply (subscriptions_cover 0 (Topic.BlsPartial (MkSubnetId 0))
      (MkBlobChunk (MkBlobId []) 0 (PErasure 0 0 []))); [vdecide|vdecide|reflexivity].
  - intros Hin.
    apply (subscriptions_cover 8 Topic.BlobChunk (MkBlobChunk (MkBlobId []) 0 (PErasure 0 0 [])))
      in Hin; [exact Hin|vdecide|exact I].
Defined.

Lemma publisher_window_witness :
  let r := publisher_run [[1]; [2]; [1]; [3]; [1]] (Publisher_new 2) in
  r.1 = [true; true; false; true; true] ∧ length (seen r.2) = 2%nat ∧
  seen r.2 = window 2 (recorded [[1]; [2]; [1]; [3]; [1]] r.1).
Proof.
  intros r. split; [vm_compute; reflexivity|]. split; [vm_compute; reflexivity|].
  apply (publisher_window 2 [[1]; [2]; [1]; [3]; [1]] r.1 r.2 (surjective_pairing r)).
Defined.

Lemma peer_adjust_spec_witness :
  let m := on_connected 5%positive (PeerManager_new (MkPeerConfig 4 60)) in
  (adjust 5%positive (-1000) Equivocation m).1 = true ∧
  (adjust 5%positive (-499) InvalidMessage m).1 = false.
Proof.
  intros m.
  assert (Hm : pm_peers m !! 5%positive = Some neutral) by (vm_compute; reflexivity).
  pose proof (peer_adjust_spec 5%positive 6%positive (-1000) Equivocation m) as [H1 _].
  pose proof (peer_adjust_spec 5%positive 6%positive (-499) InvalidMessage m) as [H2 _].
  rewrite Hm in H1, H2.
  assert (Hr : i32_ok (points neutral) ∧ i32_ok (-1000) ∧ i32_ok (-499)) by vdecide.
  destruct Hr as (Hr & Hd1 & Hd2). split.
  - apply (proj2 (proj1 (H1 Hr Hd1))). vm_compute. congruence.
  - apply not_true_is_false. intros Hb%(proj1 (proj1 (H2 Hr Hd2))). by vm_compute in Hb.
Defined.

Lemma identity_map_bijective_witness :
  let m := foldl identity_apply IdentityMap_new [IO_insert 1%positive (toy_id 1)] in
  let m' := identity_insert 2%positive (toy_id 1) m in
  identity_peer m' (toy_id 1) = Some 2%positive ∧ identity_validator m' 1%positive = None.
Proof.
  intros m m'.
  destruct (proj1 (proj2 (identity_map_bijective [IO_insert 1%positive (toy_id 1)]
    2%positive (toy_id 1)))) as (_ & Hp & Hq).
  split; [exact Hp|]. exact (Hq 1%positive ltac:(discriminate)).
Defined.
