(* ===== verification/Swarm.v ===== *)
(** [crates/net/src/swarm_runner.rs] and [apps/node/src/observability/health.rs]: when a node
    calls itself ready.

    [start_listening] is the start of [spawn_gossip_tasks], [new_listen_addr] what its loop does
    with [SwarmEvent::NewListenAddr]; [readyz] and [healthz] are the routes that orchestration tools
    poll.  Parsing an address and binding it are libp2p's, and parameters here. *)

From stdpp Require Import strings.
From S2P Require Import Prelude.

(** ** Addresses *)

(** A multiaddr is the list of its protocols. *)
Inductive Protocol := P2p (peer : string) | Proto (text : string).
#[global] Instance Protocol_eq_dec : EqDecision Protocol.
Proof. solve_decision. Defined.
#[global] Instance Protocol_countable : Countable Protocol.
Proof.
  refine (inj_countable' (λ p, match p with P2p s => inl s | Proto s => inr s end)
            (λ x, match x with inl s => P2p s | inr s => Proto s end) _).
  by intros [].
Defined.
Abbreviation Multiaddr := (list Protocol).

Definition is_p2p (p : Protocol) : Prop := match p with P2p _ => True | _ => False end.
#[global] Instance is_p2p_dec p : Decision (is_p2p p).
Proof. destruct p; apply _. Defined.

Definition strip_p2p (addr : Multiaddr) : Multiaddr := filter (λ p, ¬ is_p2p p) addr.

(** ** The listening addresses *)

Inductive SpawnError := InvalidMultiaddr (addr : string) | ListenOn (addr : Multiaddr).

Record Listening := MkListening {
  pending_listen : gset Multiaddr;
  pending_count : nat;
  observed : nat;
  listen_addrs : list Multiaddr;
  net_ready : bool;
}.
#[global] Instance Listening_eta : Settable Listening := λ l,
  MkListening (pending_listen l) (pending_count l) (observed l) (listen_addrs l) (net_ready l).

Section listening.
Context (parse : string → option Multiaddr) (listen_on : Multiaddr → bool).

(** [for addr in &net_cfg.listen] *)
Fixpoint register_listen (addrs : list string) (pending : gset Multiaddr)
  : outcome SpawnError (gset Multiaddr) :=
  match addrs with
  | [] => Ok pending
  | addr :: addrs =>
      match parse addr with
      | None => Err (InvalidMultiaddr addr)
      | Some ma =>
          if listen_on ma then register_listen addrs ({[ma]} ∪ pending) else Err (ListenOn ma)
      end
  end.

Definition start_listening (addrs : list string) : outcome SpawnError Listening :=
  pending ← register_listen addrs ∅;
  Ok (MkListening pending (size pending) 0 [] false).
End listening.

(** [SwarmEvent::NewListenAddr] *)
Definition new_listen_addr (address : Multiaddr) (l : Listening) : Listening :=
  let observed := S (observed l) in
  let addrs := if bool_decide (address ∈ listen_addrs l) then listen_addrs l
               else listen_addrs l ++ [address] in
  let pending := filter (λ a, strip_p2p a ≠ strip_p2p address) (pending_listen l) in
  MkListening pending (pending_count l) observed addrs
    (if bool_decide (pending = ∅) || (pending_count l <=? observed)%nat then true else net_ready l).

Definition listening_run (addresses : list Multiaddr) (l : Listening) : Listening :=
  foldl (λ l a, new_listen_addr a l) l addresses.

(** ** [health.rs] *)

Definition healthz : Z * string := (200, "ok").
Definition readyz (l : Listening) : Z * string :=
  if net_ready l then (200, "ready") else (503, "warming").

(** ** When a node is ready *)

Section facts.
Context (parse : string → option Multiaddr) (listen_on : Multiaddr → bool).

Lemma register_listen_Ok addrs pending ps :
  register_listen parse listen_on addrs pending = Ok ps ↔
  ∃ mas, Forall2 (λ a ma, parse a = Some ma ∧ listen_on ma = true) addrs mas ∧
    ps = list_to_set mas ∪ pending.
Proof.
  revert pending. induction addrs as [|a addrs IH]; intros pending; cbn.
  { split; [intros [= <-]; exists []; split; [done|set_solver]|].
    intros (mas & Hm & ->). inversion Hm; subst. f_equal. set_solver. }
  destruct (parse a) as [ma|] eqn:Hp; cycle 1.
  { split; [done|]. intros (mas & Hm & _). inversion Hm; subst. naive_solver. }
  destruct (listen_on ma) eqn:Hl; cycle 1.
  { split; [done|]. intros (mas & Hm & _). inversion Hm; subst. naive_solver congruence. }
  rewrite IH. split.
  - intros (mas & Hm & ->). exists (ma :: mas). split; [by constructor|set_solver].
  - intros (mas' & Hm & ->). inversion Hm as [|? ma' ? mas [Hp' _] Hm']; subst.
    rewrite Hp in Hp'. injection Hp' as <-. exists mas. split; [done|set_solver].
Qed.

End facts.

(** The state after the addresses [seen], from [requested] *)
Record listening (requested : gset Multiaddr) (seen : list Multiaddr) (l : Listening) : Prop := {
  ls_pending : pending_listen l =
    filter (λ a, strip_p2p a ∉ strip_p2p <$> seen) requested;
  ls_count : pending_count l = size requested;
  ls_observed : observed l = length seen;
  ls_nodup : NoDup (listen_addrs l);
  ls_addrs a : a ∈ listen_addrs l ↔ a ∈ seen;
  ls_ready : net_ready l = true ↔ seen ≠ [] ∧
    ((∀ a, a ∈ requested → strip_p2p a ∈ strip_p2p <$> seen) ∨ (size requested ≤ length seen)%nat);
}.

Lemma new_listen_addr_step requested seen a l :
  listening requested seen l → listening requested (seen ++ [a]) (new_listen_addr a l).
Proof.
  intros [Hp Hc Ho Hn Ha Hr].
  assert (Hpend : filter (λ b, strip_p2p b ≠ strip_p2p a) (pending_listen l) =
    filter (λ b, strip_p2p b ∉ strip_p2p <$> (seen ++ [a])) requested).
  { apply set_eq. intros b. rewrite Hp, fmap_app.
    rewrite !elem_of_filter, elem_of_app. cbn [fmap list_fmap]. rewrite list_elem_of_singleton. tauto. }
  split; cbn [new_listen_addr pending_listen pending_count observed listen_addrs net_ready]; try done.
  - rewrite Ho, length_app. cbn. lia.
  - case_bool_decide as Hin; [done|]. apply NoDup_app. split; [done|]. split; [|apply NoDup_singleton].
    intros x Hx Hxa%list_elem_of_singleton. by subst x.
  - intros x. case_bool_decide as Hin; rewrite ?elem_of_app, ?list_elem_of_singleton, ?Ha; [|done].
    split; [by left|]. intros [Hx|Hx]; [done|]. subst x. by apply Ha.
  - rewrite Hpend, Hc, Ho, length_app. cbn [length].
    assert (filter (λ b, strip_p2p b ∉ strip_p2p <$> (seen ++ [a])) requested = ∅ ↔
      ∀ b, b ∈ requested → strip_p2p b ∈ strip_p2p <$> (seen ++ [a])) as He.
    { rewrite set_eq. setoid_rewrite elem_of_filter. split.
      - intros Hb b Hin. destruct (decide (strip_p2p b ∈ strip_p2p <$> (seen ++ [a]))); [done|].
        exfalso. apply (not_elem_of_empty (C := gset Multiaddr) b). by apply Hb.
      - intros Hb b. split; [|by intros ?%not_elem_of_empty]. intros [Hno Hin]. by destruct Hno; apply Hb. }
    case_bool_decide as Hb; cbn [orb].
    { split; [|done]. intros _. split; [by destruct seen|]. left. by apply He. }
    destruct (Nat.leb_spec (size requested) (S (length seen))) as [Hle|Hlt].
    { split; [|done]. intros _. split; [by destruct seen|]. right. lia. }
    rewrite Hr. split.
    + intros [Hne [Hall|Hle]]; [|lia]. exfalso. apply Hb, He. intros b Hin%Hall.
      rewrite fmap_app. apply elem_of_app. by left.
    + intros [_ [Hall|Hle]]; [|lia]. exfalso. by apply Hb, He.
Qed.

Lemma listening_run_spec requested seen addresses l :
  listening requested seen l → listening requested (seen ++ addresses) (listening_run addresses l).
Proof.
  revert seen l. induction addresses as [|a addresses IH]; intros seen l Hl; [by rewrite app_nil_r|].
  cbn. replace (seen ++ a :: addresses) with ((seen ++ [a]) ++ addresses) by (by rewrite <- app_assoc).
  by apply IH, new_listen_addr_step.
Qed.

(** When [/readyz] says so.  A node that could bind every configured address reports the addresses
    it listens on once each, and turns ready at the first event by which every configured
    address has been seen, up to its peer id, or as many addresses have been seen as were
    configured; from then on it stays ready.  A node configured to listen nowhere sees no event
    and never turns ready. *)
Theorem readyz_spec parse listen_on (addrs : list string) (l0 : Listening) (addresses : list Multiaddr) :
  start_listening parse listen_on addrs = Ok l0 →
  let l := listening_run addresses l0 in
  ∃ mas, Forall2 (λ a ma, parse a = Some ma ∧ listen_on ma = true) addrs mas ∧
    NoDup (listen_addrs l) ∧ (∀ a, a ∈ listen_addrs l ↔ a ∈ addresses) ∧
    (readyz l = (200, "ready") ↔ addresses ≠ [] ∧
       ((∀ a, a ∈ mas → ∃ b, b ∈ addresses ∧ strip_p2p a = strip_p2p b) ∨
        (length (remove_dups mas) ≤ length addresses)%nat)).
Proof.
  intros (ps & Hps & [= <-])%outcome_bind_Ok. apply register_listen_Ok in Hps as (mas & Hm & Hps).
  exists mas. split; [done|].
  assert (Hsize : size ps = length (remove_dups mas)).
  { subst ps. rewrite (right_id_L ∅ (∪)). rewrite <- (size_list_to_set (C := gset Multiaddr) (remove_dups mas))
      by apply NoDup_remove_dups.
    f_equal. apply set_eq. intros x. by rewrite !elem_of_list_to_set, elem_of_remove_dups. }
  assert (listening ps [] (MkListening ps (size ps) 0 [] false)) as Hl.
  { split; cbn; try done; [|constructor|by split; [|intros []]].
    apply set_eq. intros a. rewrite elem_of_filter. split; [|by intros [_ ?]]. split; [by apply not_elem_of_nil|done]. }
  apply (listening_run_spec ps [] addresses) in Hl as [_ _ _ Hn Ha Hr]. cbn [app] in *.
  split; [done|]. split; [done|].
  assert (∀ l, readyz l = (200%Z, "ready"%string) ↔ net_ready l = true) as Hz.
  { intros l. unfold readyz. by destruct (net_ready l). }
  rewrite Hz, Hr, Hsize. f_equiv. f_equiv. subst ps. split.
  - intros Hall a Hin. assert (strip_p2p a ∈ strip_p2p <$> addresses) as (b & Hb & Hin')%list_elem_of_fmap.
    { apply Hall, elem_of_union. left. by apply elem_of_list_to_set. }
    by exists b.
  - intros Hall a Hin. rewrite elem_of_union, elem_of_list_to_set in Hin. destruct Hin as [Hin|?%not_elem_of_empty]; [|done].
    destruct (Hall a Hin) as (b & Hb & He). apply list_elem_of_fmap. by exists b.
Qed.

(** ** Witnesses *)

Definition toy_addr (s : string) : Multiaddr := [Proto s].
Definition toy_parse (s : string) : option Multiaddr := Some (toy_addr s).

Lemma readyz_spec_witness :
  ∃ l0, start_listening toy_parse (λ _, true) ["a"; "b"] = Ok l0 ∧
    readyz (listening_run [toy_addr "a"; toy_addr "b" ++ [P2p "me"]] l0) = (200, "ready").
Proof.
  eexists. split; [vm_compute; reflexivity|].
  destruct (readyz_spec toy_parse (λ _, true) ["a"; "b"] _ [toy_addr "a"; toy_addr "b" ++ [P2p "me"]]
    eq_refl) as (mas & Hm & _ & _ & Hr).
  apply Hr. split; [done|]. right.
  inversion Hm as [|? x ? mas1 [[= <-] _] Hm1]; subst.
  inversion Hm1 as [|? y ? mas2 [[= <-] _] Hm2]; subst. inversion Hm2; subst. vdecide.
Defined.

(** The count is what makes a wildcard address ready, and it is also satisfied by two concrete
    addresses of one wildcard while another address is not bound yet. *)
Example ready_before_bound :
  match start_listening toy_parse (λ _, true) ["0.0.0.0/0"; "10.0.0.1/7"] with
  | Ok l => readyz (listening_run [toy_addr "127.0.0.1/41"; toy_addr "192.168.0.2/41"] l)
  | _ => (0, "")
  end = (200, "ready").
Proof. by vm_compute. Qed.
