(* ===== verification/Node.v ===== *)
(** [apps/node]: the host around the state machine.

    [LiveDag] ([live_dag.rs]) is the DAG the consensus code reads, over the same database
    as the persistence port; [TimerRegistry] ([timer.rs]), [ChainedBeacon] and
    [CachedValidatorSet] ([host_context.rs]) are the other ports; [apply]
    ([action_applier.rs]) carries out the local actions and [orch_event]
    ([orchestrator.rs]) is one turn of the main loop.  The queries of
    [query.rs] are here too.

    tokio's channels are functions that say how a [try_send] is answered; what they accept is
    recorded in the state.  A task handle is a number.  Metrics and logging are left out. *)

From S2P Require Import Prelude Bytes Types Crypto Toy Config Leader Dag Linearize Bullshark.
From S2P Require Import MacroState MacroAgg Slashing MacroFin VertexCert StateMachine.
From S2P Require Import Storage Persistence Gf256 Erasure Blob Net.
Open Scope string_scope.
Open Scope list_scope.
Open Scope Z_scope.

(** ** [live_dag.rs] *)

Record LiveDag := MkLiveDag {
  by_hash : gmap Hash32 CertifiedVertex;
  by_round : gmap Z (list CertifiedVertex);
}.
#[global] Instance LiveDag_eta : Settable LiveDag := λ d, MkLiveDag (by_hash d) (by_round d).

Definition LiveDag_new : LiveDag := MkLiveDag ∅ ∅.

Definition cv_hash (v : CertifiedVertex) : Hash32 := v_hash (cv_vertex v).
Definition cv_round (v : CertifiedVertex) : Round := v_round (cv_vertex v).

Definition dag_index (v : CertifiedVertex) (d : LiveDag) : LiveDag :=
  d <| by_hash ::= <[cv_hash v := v]> |>
    <| by_round ::= λ m, <[cv_round v := default [] (m !! cv_round v) ++ [v]]> m |>.

(** [DagView for LiveDag] *)
Definition live_vertex (d : LiveDag) (hash : Hash32) : result (option CertifiedVertex) :=
  Ok (by_hash d !! hash).
Definition live_vertices_at_round (d : LiveDag) (round : Round) : result (list CertifiedVertex) :=
  Ok (default [] (by_round d !! round)).

Definition certified_hashes_in_range (d : LiveDag) (from to : Round) : list Hash32 :=
  if to <? from then []
  else
    round ← seqZ from (to - from + 1);
    match live_vertices_at_round d round with Ok batch => cv_hash <$> batch | _ => [] end.

Section live_dag.
Context `{RocksDb D, Codec CertifiedVertex}.

(** The DAG with the database handle it shares. *)
Abbreviation LD := (M Error (LiveDag * D)).

Definition on_store {A} (what : string) (m : M StoreError D A) : LD A := λ s,
  let '(r, db) := m s.2 in
  (map_err (λ e, Persistence (what +:+ store_error_string e)) r, (s.1, db)).

Definition dag_ingest (v : CertifiedVertex) : LD unit :=
  _ ← on_store "store certified vertex: " (vertex_store.put v);
  modify (λ s, (dag_index v s.1, s.2)).

Definition load_from_store (round : Round) (author : ValidatorId) : LD (option CertifiedVertex) :=
  db ← gets snd;
  v ← lift (map_err (λ e, Persistence ("load certified vertex: " +:+ store_error_string e))
              (vertex_store.get db round author));
  match v with
  | Some vertex => _ ← modify (λ s, (dag_index vertex s.1, s.2)); mret (Some vertex)
  | None => mret None
  end.
End live_dag.

(** ** [host_context.rs] *)

(** [ChainedBeacon] *)
Abbreviation ChainedBeacon := Hash32.
Definition ChainedBeacon_new : ChainedBeacon := Hash32_zero.
Definition beacon_adopt `{Primitives} (qc : MacroQc) (b : ChainedBeacon) : ChainedBeacon :=
  chain_beacon b (qc_checkpoint_hash qc).

(** [CachedValidatorSet] *)
Definition cached_set_for (set : ValidatorSet) (epoch : Epoch) : result (option ValidatorSet) :=
  Ok (if bool_decide (vs_epoch set = epoch) then Some set else None).
Definition cached_index_of (set : ValidatorSet) (epoch : Epoch) (validator : ValidatorId)
  : result (option Z) :=
  if bool_decide (vs_epoch set ≠ epoch) then Ok None
  else Ok ((λ p : nat * ValidatorEntry, default u32_max (u32_try_from p.1)) <$>
             list_find (λ e, ve_id e = validator) (vs_entries set)).

(** [DevSigner] ([signer.rs]); [ds_vrf] proves with its VRF key. *)
Record DevSigner `{Primitives} := MkDevSigner {
  ds_bls : blst_sk; ds_vrf : bytes → result (VrfProof * Hash32);
}.

(** ** [timer.rs] *)

Abbreviation TimerRegistry := (gmap TimerId nat).
#[global] Instance TimerId_countable : Countable TimerId.
Proof. by refine (inj_countable' timer_u64 MkTimerId _); intros []. Defined.

(** [cancel]: the handle it aborts, and the registry. *)
Definition timer_cancel (id : TimerId) (r : gmap TimerId nat) : option nat * gmap TimerId nat :=
  (r !! id, delete id r).

(** [schedule_event] with the spawned task [join]: the handle it aborts, how long
    the task sleeps, and the registry. *)
Definition schedule_event (join : nat) (id : TimerId) (delay_nanos : Z) (r : gmap TimerId nat)
  : option nat * Z * gmap TimerId nat :=
  (r !! id, Z.min delay_nanos u64_max, <[id := join]> (delete id r)).

(** ** The node's state *)

(** How the channels answer during one turn. *)
Record Channels := MkChannels {
  ch_events : Event → TrySend;
  ch_net : Action → TrySend;
  ch_timers : TimerId → Z → TrySend;
}.

(** [Orchestrator], with its [StubHostBundle] and [ActionApplier]; the last four
    fields record what was handed out: broadcasts to the swarm, certificates looped back,
    timers to the timer task, and aborted tasks. *)
Record NodeState `{Primitives} (P D : Type) := MkNodeState {
  ns_sm : StateMachine P;
  ns_dag : LiveDag;
  ns_persistence : RocksPersistence D;
  ns_beacon : ChainedBeacon;
  ns_valset : ValidatorSet;
  ns_signer : DevSigner;
  ns_timers : gmap TimerId nat;
  ns_sent : list Action;
  ns_looped : list Event;
  ns_scheduled : list (TimerId * Z);
  ns_aborted : list nat;
}.
Arguments MkNodeState {_ _ _} _ _ _ _ _ _ _ _ _ _ _.
Arguments ns_sm {_ _ _} _.
Arguments ns_dag {_ _ _} _.
Arguments ns_persistence {_ _ _} _.
Arguments ns_beacon {_ _ _} _.
Arguments ns_valset {_ _ _} _.
Arguments ns_signer {_ _ _} _.
Arguments ns_timers {_ _ _} _.
Arguments ns_sent {_ _ _} _.
Arguments ns_looped {_ _ _} _.
Arguments ns_scheduled {_ _ _} _.
Arguments ns_aborted {_ _ _} _.
#[global] Instance NodeState_eta `{Primitives} {P D} : Settable (NodeState P D) := λ n,
  MkNodeState (ns_sm n) (ns_dag n) (ns_persistence n) (ns_beacon n) (ns_valset n) (ns_signer n)
    (ns_timers n) (ns_sent n) (ns_looped n) (ns_scheduled n) (ns_aborted n).

(** A node as [runtime.rs] starts it, over an open database. *)
Definition node_start `{Primitives} {P D} (cfg : Config) (self_id : ValidatorId) (queue : P)
    (db : D) (set : ValidatorSet) (signer : DevSigner) : NodeState P D :=
  MkNodeState (StateMachine_new cfg self_id queue) LiveDag_new (RocksPersistence_new db)
    ChainedBeacon_new set signer ∅ [] [] [] [].

(** [if let Err(e) = m { warn!(..) }]: the failure is logged, what the call changed stays. *)
Definition attempt {E S A} (m : M E S A) : M E S (option A) := λ s,
  match m s with
  | (Ok a, s') => (Ok (Some a), s')
  | (Err _, s') => (Ok None, s')
  | (Panic, s') => (Panic, s')
  | (NoFuel, s') => (NoFuel, s')
  end.

Section node.
Context `{Build, Primitives, MacroBorsh, !Borsh SignableVertex, !Borsh (list Hash32)}.
Context `{PendingBlobSource P} `{RocksDb D, Codec CertifiedVertex}.
Context `{Codec MicroQc, Codec MacroQc, !@Codec MacroCheckpoint borsh_checkpoint, !Borsh SlashEvidence}.

Abbreviation NM := (M Error (NodeState P D)).

(** The DAG and the database it shares with the persistence port. *)
Definition with_dag {A} (m : M Error (LiveDag * D) A) : NM A := λ n,
  let '(r, (dag, db)) := m (ns_dag n, rp_db (ns_persistence n)) in
  (r, n <| ns_dag := dag |> <| ns_persistence ::= λ p, p <| rp_db := db |> |>).

(** [build_host_context] *)
Definition build_host_context (n : NodeState P D) : HostContext :=
  MkHostContext (live_vertex (ns_dag n)) (live_vertices_at_round (ns_dag n))
    (cached_set_for (ns_valset n)) (Ok (ns_beacon n))
    (λ dst msg, Ok (sign (ds_bls (ns_signer n)) dst msg))
    (ds_vrf (ns_signer n)).

(** ** [action_applier.rs] *)

Definition cancel_timer (id : TimerId) (n : NodeState P D) : NodeState P D :=
  let '(aborted, timers) := timer_cancel id (ns_timers n) in
  n <| ns_timers := timers |> <| ns_aborted ::= λ l, l ++ option_list aborted |>.

Definition apply_action (ch : Channels) (action : Action) : NM unit :=
  match action with
  | PersistMacroCheckpoint cp => zoom ns_persistence (store_macro_checkpoint cp)
  | PersistMacroQc qc =>
      _ ← zoom ns_persistence (store_macro_qc qc);
      modify (λ n : NodeState P D, n <| ns_beacon ::= beacon_adopt qc |>)
  | EmitSlashEvidence _ evidence => zoom ns_persistence (append_slash_evidence evidence)
  | ScheduleTimer id delay_nanos =>
      match ch_timers ch id delay_nanos with
      | Sent => modify (λ n : NodeState P D, n <| ns_scheduled ::= λ l, l ++ [(id, delay_nanos)] |>)
      | _ => mret tt
      end
  | CancelTimer id => modify (cancel_timer id)
  | UpdateBlobStatus blob status => zoom ns_persistence (update_blob_status blob status)
  | _ => mret tt
  end.

(** The timer task of [runtime.rs] takes a request from its channel. *)
Definition timer_task (join : nat) (id : TimerId) (delay_nanos : Z) (n : NodeState P D)
  : NodeState P D :=
  let '(aborted, _, timers) := schedule_event join id delay_nanos (ns_timers n) in
  n <| ns_timers := timers |> <| ns_aborted ::= λ l, l ++ option_list aborted |>.

(** ** [orchestrator.rs] *)

Definition loop_back (ch : Channels) (action : Action) : NM unit :=
  match action with
  | BroadcastCertifiedVertex cv =>
      match ch_events ch (CertifiedVertexReceived cv) with
      | Sent => modify (λ n : NodeState P D, n <| ns_looped ::= λ l, l ++ [CertifiedVertexReceived cv] |>)
      | _ => mret tt
      end
  | _ => mret tt
  end.

Definition send_net (ch : Channels) (action : Action) : NM unit :=
  if is_broadcast action then
    match ch_net ch action with
    | Sent => modify (λ n : NodeState P D, n <| ns_sent ::= λ l, l ++ [action] |>)
    | _ => mret tt
    end
  else mret tt.

Definition dispatch_actions (ch : Channels) (actions : Actions) : NM unit :=
  for_each actions (λ action,
    _ ← loop_back ch action;
    _ ← send_net ch action;
    _ ← attempt (apply_action ch action);
    mret tt).

(** Whether an event reaches the state machine: a certified vertex must verify,
    and is ingested first. *)
Definition admit_event (event : Event) : NM bool :=
  match event with
  | CertifiedVertexReceived cv =>
      set ← gets ns_valset;
      match verify_certified_vertex cv set with
      | Ok _ => r ← attempt (with_dag (dag_ingest cv)); mret (bool_decide (r = Some tt))
      | Err _ => mret false
      | Panic => panic
      | NoFuel => nofuel
      end
  | _ => mret true
  end.

Definition sm_dispatch (ch : Channels) (call : HostContext → M Error (StateMachine P) Actions)
  : NM unit :=
  ctx ← gets build_host_context;
  r ← attempt (zoom ns_sm (call ctx));
  match r with Some actions => dispatch_actions ch actions | None => mret tt end.

(** One turn of the loop of [run]. *)
Definition orch_event (fuel : nat) (ch : Channels) (event : Event) : NM unit :=
  ok ← admit_event event;
  if ok : bool then sm_dispatch ch (step fuel event) else mret tt.

(** [run], over the events the channel delivers. *)
Definition orch_run (fuel : nat) (propose_enabled : bool) (ch0 : Channels)
    (events : list (Event * Channels)) : NM unit :=
  _ ← (if propose_enabled then sm_dispatch ch0 (sm_genesis_propose fuel) else mret tt);
  for_each events (λ e, orch_event fuel e.2 e.1).
End node.

(** ** [query.rs] *)

Section query.
Context `{RocksDb D, Codec MicroQc, Codec MacroCheckpoint, Codec MacroQc, !Borsh SlashEvidence}.

(** The loop of [latest_finalized] over the heights. *)
Fixpoint finalized_scan (p : RocksPersistence D) (heights : list Height)
    (best : option (Height * MacroQc)) : result (option (Height * MacroQc)) :=
  match heights with
  | [] => Ok best
  | height :: heights =>
      cp ← macro_checkpoint_at p height;
      match cp with
      | None => finalized_scan p heights best
      | Some cp =>
          qc ← macro_qc_for p (mc_hash cp);
          match qc with
          | None => finalized_scan p heights best
          | Some qc =>
              let newer := match best with Some (bh, _) => bh <? height | None => true end in
              finalized_scan p heights (if newer then Some (height, qc) else best)
          end
      end
  end.

Definition latest_finalized (p : RocksPersistence D) : result (option MacroQc) :=
  best ← finalized_scan p (seqZ 0 128) None;
  Ok (snd <$> (best : option (Height * MacroQc))).

Definition macro_checkpoint_hash (p : RocksPersistence D) (height : Height) : result (option Hash32) :=
  cp ← macro_checkpoint_at p height; Ok (mc_hash <$> (cp : option MacroCheckpoint)).

Definition micro_head : result Round := Ok 0.
End query.

(** ** The live DAG *)

Section dag_facts.
Context `{Primitives, !Borsh SignableVertex}.

(** Every vertex of the DAG is certified under [set] and found under its hash and in its
    round; every hash of a round's list is found. *)
Record dag_inv (set : ValidatorSet) (d : LiveDag) : Prop := {
  di_hash h cv : by_hash d !! h = Some cv →
    cv_hash cv = h ∧ cv ∈ default [] (by_round d !! cv_round cv);
  di_round r cv : cv ∈ default [] (by_round d !! r) →
    cv_round cv = r ∧ verify_certified_vertex cv set = Ok tt ∧ is_Some (by_hash d !! cv_hash cv);
}.

Lemma dag_inv_new set : dag_inv set LiveDag_new.
Proof. split; [done|]. intros r cv Hin. cbn in Hin. by apply elem_of_nil in Hin. Qed.

Lemma elem_of_dag_index cv d r v :
  v ∈ default [] (by_round (dag_index cv d) !! r) ↔
  v ∈ default [] (by_round d !! r) ∨ v = cv ∧ r = cv_round cv.
Proof.
  destruct d as [bh br]. cbn. rewrite lookup_insert. case_decide as Hr; cbn.
  - subst r. rewrite elem_of_app, list_elem_of_singleton. naive_solver.
  - naive_solver.
Qed.

Lemma dag_inv_index set cv d :
  verify_certified_vertex cv set = Ok tt → dag_inv set d → dag_inv set (dag_index cv d).
Proof.
  intros Hv [Dh Dr].
  assert (Hbh : by_hash (dag_index cv d) = <[cv_hash cv := cv]> (by_hash d)) by (by destruct d).
  split.
  - intros h v. rewrite Hbh, elem_of_dag_index. intros [[<- <-]|[_ Hl]]%lookup_insert_Some.
    + split; [done|by right].
    + destruct (Dh h v Hl) as [? ?]. split; [done|by left].
  - intros r v. rewrite elem_of_dag_index, Hbh. intros [Hin|[-> ->]].
    + destruct (Dr r v Hin) as (? & ? & ?). split; [done|]. split; [done|].
      rewrite lookup_insert_is_Some'. by right.
    + split; [done|]. split; [done|]. rewrite lookup_insert_eq. by eexists.
Qed.

Lemma dag_inv_verified set d h cv :
  dag_inv set d → by_hash d !! h = Some cv → verify_certified_vertex cv set = Ok tt.
Proof. intros [Dh Dr] Hh. by apply Dh in Hh as [_ (_ & ? & _)%Dr]. Qed.

Lemma elem_of_hashes_in_range d from to h :
  h ∈ certified_hashes_in_range d from to ↔
  ∃ r cv, from ≤ r ≤ to ∧ cv ∈ default [] (by_round d !! r) ∧ h = cv_hash cv.
Proof.
  unfold certified_hashes_in_range. destruct (Z.ltb_spec to from) as [Hlt|Hge].
  { rewrite elem_of_nil. split; [done|]. intros (r & cv & ? & _). lia. }
  rewrite list_elem_of_bind. split.
  - intros (r & Hh & Hr%elem_of_seqZ). cbn in Hh. apply list_elem_of_fmap in Hh as (cv & -> & Hin).
    exists r, cv. split; [lia|done].
  - intros (r & cv & Hr & Hin & ->). exists r. cbn. split; [|apply elem_of_seqZ; lia].
    by apply list_elem_of_fmap_2.
Qed.
End dag_facts.

(** ** The persistence port, as the node uses it *)

(** Neither a panic nor a loop. *)
Definition answered {E A} (r : outcome E A) : Prop :=
  match r with Ok _ | Err _ => True | _ => False end.

Section persist_answers.
Context `{RocksDb D, Codec MicroQc, Codec MacroQc, Codec MacroCheckpoint, !Borsh SlashEvidence}.

Lemma put_raw_answered cf key v (db : D) : answered (put_raw cf key v db).1.
Proof.
  unfold put_raw, mbind, M_bind, gets, lift. cbn. unfold db_cf. repeat case_match; simplify_eq/=; done.
Qed.

Lemma status_get_answered (db : D) blob : answered (blob_status_store.get db blob).
Proof.
  assert (Hd : ∀ b, answered (blob_status_store.decode_status b)).
  { intros b. unfold blob_status_store.decode_status. by repeat case_match. }
  unfold blob_status_store.get, get_raw, db_cf.
  destruct (cf_handle _ _); [|done]. cbn [mbind outcome_bind].
  destruct (get_cf _ _ _) as [o|]; [|done]. cbn [mbind outcome_bind].
  destruct o as [[|b [|? ?]]|]; [done| |done..].
  specialize (Hd b). by destruct (blob_status_store.decode_status b).
Qed.

Lemma put_monotonic_answered blob status (db : D) :
  answered (blob_status_store.put_monotonic blob status db).1.
Proof.
  unfold blob_status_store.put_monotonic, mbind, M_bind, gets, lift. cbn.
  pose proof (status_get_answered db blob) as Hg.
  destruct (blob_status_store.get db blob); [|done..]. case_match; [apply put_raw_answered|done].
Qed.

Lemma on_db_answered {A} (m : M StoreError D A) p :
  answered (m (rp_db p)).1 → answered (on_db m p).1.
Proof. unfold on_db. by destruct (m (rp_db p)) as [[] ?]. Qed.

Lemma persist_answered op (p : RocksPersistence D) : answered (persist op p).1.
Proof.
  destruct op; cbn [persist].
  1-3: apply on_db_answered, put_raw_answered.
  - unfold append_slash_evidence, mbind, M_bind, gets, modify. cbv beta iota.
    apply on_db_answered, put_raw_answered.
  - apply on_db_answered, put_monotonic_answered.
Qed.

Lemma persist_run_cons op ops (p : RocksPersistence D) :
  persist_run (option_list (Some op) ++ ops) p =
    (is_ok (persist op p).1 :: (persist_run ops (persist op p).2).1,
     (persist_run ops (persist op p).2).2).
Proof.
  change (option_list (Some op) ++ ops) with (op :: ops). cbn [persist_run].
  destruct (persist op p) as [r p1]. cbn [fst snd].
  by destruct (persist_run ops p1).
Qed.
End persist_answers.

(** No call of the port touches the vertex column. *)
Section columns.
Context `{RocksLaws D, Codec MicroQc, Codec MacroQc, Codec MacroCheckpoint, !Borsh SlashEvidence}.

Abbreviation vertex_row db k := (rows db !! (cf_name CF_Vertex, k)).

Lemma put_raw_other cf key v (db db' : D) r k :
  cf ≠ CF_Vertex → put_raw cf key v db = (r, db') → vertex_row db' k = vertex_row db k.
Proof.
  intros Hne Hr%put_raw_inv. destruct r; [|by subst..]. rewrite Hr. apply lookup_insert_ne.
  intros He. apply Hne. destruct cf; (done || discriminate (f_equal fst He)).
Qed.

Lemma put_monotonic_other blob status (db db' : D) r k :
  blob_status_store.put_monotonic blob status db = (r, db') → vertex_row db' k = vertex_row db k.
Proof.
  unfold blob_status_store.put_monotonic, mbind, M_bind, gets, lift. cbn.
  destruct (blob_status_store.get db blob); [|by intros [= _ <-]..].
  case_match; [by apply put_raw_other|by intros [= _ <-]].
Qed.

Lemma persist_quiet op (p p' : RocksPersistence D) r k :
  persist op p = (r, p') → vertex_row (rp_db p') k = vertex_row (rp_db p) k.
Proof.
  assert (Hdb : ∀ (m : M StoreError D unit) p r p', on_db m p = (r, p') →
    (∀ db db' r, m db = (r, db') → vertex_row db' k = vertex_row db k) →
    vertex_row (rp_db p') k = vertex_row (rp_db p) k).
  { clear. intros m p r p'. unfold on_db. destruct (m (rp_db p)) as [r0 db'] eqn:Hm.
    intros [= _ <-] Hall. destruct p. exact (Hall _ _ _ Hm). }
  destruct op; cbn [persist]; intros Hp.
  1-3: eapply Hdb; [exact Hp|]; intros ???; by apply put_raw_other.
  - unfold append_slash_evidence, mbind, M_bind, gets, modify in Hp. cbv beta iota in Hp.
    destruct p as [db seq]. eapply Hdb in Hp; [exact Hp|]. intros ???. by apply put_raw_other.
  - eapply Hdb; [exact Hp|]. intros ???. by apply put_monotonic_other.
Qed.

Lemma persist_run_quiet ops (p p' : RocksPersistence D) oks k :
  persist_run ops p = (oks, p') → vertex_row (rp_db p') k = vertex_row (rp_db p) k.
Proof.
  revert p oks. induction ops as [|op ops IH]; intros p oks; cbn [persist_run]; [by intros [= <- <-]|].
  destruct (persist op p) as [r p1] eqn:Hp. destruct (persist_run ops p1) as [oks1 p2] eqn:Hr.
  intros [= <- <-]. rewrite (IH _ _ Hr). by apply persist_quiet with (k := k) in Hp.
Qed.
End columns.

(** ** What the dispatch of a list of actions does *)

(** The call of the persistence port an action stands for, and its other
    local and outgoing effects. *)
Definition persist_of (a : Action) : option persist_op :=
  match a with
  | PersistMacroCheckpoint cp => Some (PO_macro_checkpoint cp)
  | PersistMacroQc qc => Some (PO_macro_qc qc)
  | EmitSlashEvidence _ evidence => Some (PO_evidence evidence)
  | UpdateBlobStatus blob status => Some (PO_blob_status blob status)
  | _ => None
  end.

#[global] Instance TrySend_eq_dec : EqDecision TrySend.
Proof. solve_decision. Defined.

Definition sent_of (ch : Channels) (a : Action) : option Action :=
  if is_broadcast a && bool_decide (ch_net ch a = Sent) then Some a else None.
Definition looped_of (ch : Channels) (a : Action) : option Event :=
  match a with
  | BroadcastCertifiedVertex cv =>
      let ev := CertifiedVertexReceived cv in
      if bool_decide (ch_events ch ev = Sent) then Some ev else None
  | _ => None
  end.
Definition scheduled_of (ch : Channels) (a : Action) : option (TimerId * Z) :=
  match a with
  | ScheduleTimer id d => if bool_decide (ch_timers ch id d = Sent) then Some (id, d) else None
  | _ => None
  end.

Definition cancelled_of (a : Action) : option TimerId :=
  match a with CancelTimer id => Some id | _ => None end.
(** The tasks of [r] that cancelling [ids] one after the other aborts *)
Fixpoint aborted_by (ids : list TimerId) (r : gmap TimerId nat) : list nat :=
  match ids with
  | [] => []
  | id :: ids => option_list (r !! id) ++ aborted_by ids (delete id r)
  end.
Definition without (ids : list TimerId) (r : gmap TimerId nat) : gmap TimerId nat :=
  foldl (λ r id, delete id r) r ids.

Lemma lookup_without ids (r : gmap TimerId nat) id :
  without ids r !! id = if decide (id ∈ ids) then None else r !! id.
Proof.
  revert r. induction ids as [|i ids IH]; intros r; [done|].
  change (without (i :: ids) r) with (without ids (delete i r)). rewrite IH.
  destruct (decide (id = i)) as [->|Hne].
  - rewrite lookup_delete_eq, (decide_True (P := i ∈ i :: ids)) by by left. by case_decide.
  - rewrite lookup_delete_ne by done.
    apply decide_ext. rewrite elem_of_cons. naive_solver.
Qed.
Lemma elem_of_cancelled id (actions : list Action) : id ∈ omap cancelled_of actions ↔ CancelTimer id ∈ actions.
Proof.
  rewrite list_elem_of_omap. split; [|by exists (CancelTimer id)].
  by intros ([] & Hin & [= <-]).
Qed.

(** The beacon after the certificates that were stored. *)
Definition beacon_after `{Primitives} (stored : list (persist_op * bool)) (b : ChainedBeacon)
  : ChainedBeacon :=
  foldl (λ b s, match s with (PO_macro_qc qc, true) => beacon_adopt qc b | _ => b end) b stored.

Section dispatch.
Context `{Build, Primitives, MacroBorsh, !Borsh SignableVertex, !Borsh (list Hash32)}.
Context `{PendingBlobSource P} `{RocksDb D, Codec CertifiedVertex}.
Context `{Codec MicroQc, Codec MacroQc, !@Codec MacroCheckpoint borsh_checkpoint, !Borsh SlashEvidence}.

Record dispatched (ch : Channels) (actions : Actions) (n n' : NodeState P D) : Prop := {
  dp_sm : ns_sm n' = ns_sm n;
  dp_dag : ns_dag n' = ns_dag n;
  dp_valset : ns_valset n' = ns_valset n;
  dp_signer : ns_signer n' = ns_signer n;
  dp_sent : ns_sent n' = ns_sent n ++ omap (sent_of ch) actions;
  dp_looped : ns_looped n' = ns_looped n ++ omap (looped_of ch) actions;
  dp_scheduled : ns_scheduled n' = ns_scheduled n ++ omap (scheduled_of ch) actions;
  dp_persistence : ns_persistence n' =
    (persist_run (omap persist_of actions) (ns_persistence n)).2;
  dp_beacon : ns_beacon n' =
    beacon_after (zip (omap persist_of actions)
      (persist_run (omap persist_of actions) (ns_persistence n)).1) (ns_beacon n);
  dp_timers : ns_timers n' = without (omap cancelled_of actions) (ns_timers n);
  dp_aborted : ns_aborted n' =
    ns_aborted n ++ aborted_by (omap cancelled_of actions) (ns_timers n);
}.

Lemma loop_back_eq ch a (n : NodeState P D) :
  loop_back ch a n = (Ok tt, n <| ns_looped ::= λ l, l ++ option_list (looped_of ch a) |>).
Proof.
  destruct n. destruct a; cbn; rewrite ?app_nil_r; try done.
  case_bool_decide as He; [by rewrite He|]. rewrite app_nil_r. by destruct (ch_events _ _).
Qed.

Lemma send_net_eq ch a (n : NodeState P D) :
  send_net ch a n = (Ok tt, n <| ns_sent ::= λ l, l ++ option_list (sent_of ch a) |>).
Proof.
  unfold send_net, sent_of. destruct (is_broadcast a); cbn [andb].
  - case_bool_decide as He; [rewrite He; done|]. destruct n. cbn. rewrite app_nil_r.
    by destruct (ch_net _ _).
  - destruct n. cbn. by rewrite app_nil_r.
Qed.

(** The local effects of one action. *)
Lemma apply_action_eq ch a (n : NodeState P D) :
  ∃ n', attempt (apply_action ch a) n = (Ok (if is_ok (apply_action ch a n).1 then Some tt else None), n') ∧
    answered (apply_action ch a n).1 ∧
    ns_sm n' = ns_sm n ∧ ns_dag n' = ns_dag n ∧ ns_valset n' = ns_valset n ∧
    ns_signer n' = ns_signer n ∧ ns_sent n' = ns_sent n ∧ ns_looped n' = ns_looped n ∧
    ns_scheduled n' = ns_scheduled n ++ option_list (scheduled_of ch a) ∧
    match persist_of a with
    | Some op =>
        ns_persistence n' = (persist op (ns_persistence n)).2 ∧
        ns_beacon n' = beacon_after [(op, is_ok (persist op (ns_persistence n)).1)] (ns_beacon n)
    | None => ns_persistence n' = ns_persistence n ∧ ns_beacon n' = ns_beacon n
    end ∧
    ns_timers n' = without (option_list (cancelled_of a)) (ns_timers n) ∧
    ns_aborted n' = ns_aborted n ++ aborted_by (option_list (cancelled_of a)) (ns_timers n).
Proof.
  destruct n as [sm dag p b set sg tm sent lp sch ab].
  destruct a; cbn [apply_action persist_of scheduled_of cancelled_of option_list from_option
      aborted_by without foldl]; rewrite ?app_nil_r; try (eexists; split; [reflexivity|]; by split_and!).
  - case_bool_decide as Hc; [|destruct (ch_timers _ _ _); try done; rewrite ?app_nil_r;
      eexists; (split; [reflexivity|]); by split_and!].
    rewrite Hc. eexists. split; [reflexivity|]. by split_and!.
  - eexists. split; [reflexivity|]. split_and!; [done..|]. cbn. by rewrite app_nil_r.
  - pose proof (persist_answered (PO_macro_qc qc) p) as Ha. cbn [persist] in Ha |- *.
    unfold attempt, zoom, mbind, M_bind, modify. cbn [ns_persistence].
    destruct (store_macro_qc qc p) as [[[]|e| |] p'] eqn:He; try done;
      eexists; (split; [reflexivity|]); by split_and!.
  - pose proof (persist_answered (PO_macro_checkpoint cp) p) as Ha. cbn [persist] in Ha |- *.
    unfold attempt, zoom. cbn [ns_persistence].
    destruct (store_macro_checkpoint cp p) as [[[]|e| |] p'] eqn:He; try done;
      eexists; (split; [reflexivity|]); by split_and!.
  - pose proof (persist_answered (PO_evidence evidence) p) as Ha. cbn [persist] in Ha |- *.
    unfold attempt, zoom. cbn [ns_persistence].
    destruct (append_slash_evidence evidence p) as [[[]|e| |] p'] eqn:He; try done;
      eexists; (split; [reflexivity|]); by split_and!.
  - pose proof (persist_answered (PO_blob_status blob status) p) as Ha. cbn [persist] in Ha |- *.
    unfold attempt, zoom. cbn [ns_persistence].
    destruct (update_blob_status blob status p) as [[[]|e| |] p'] eqn:He; try done;
      eexists; (split; [reflexivity|]); by split_and!.
Qed.

Lemma dispatched_nil ch (n : NodeState P D) : dispatched ch [] n n.
Proof. split; cbn; by rewrite ?app_nil_r. Qed.

Lemma dispatch_actions_eq ch actions (n : NodeState P D) :
  ∃ n', dispatch_actions ch actions n = (Ok tt, n') ∧ dispatched ch actions n n'.
Proof.
  revert n. induction actions as [|a actions IH]; intros n.
  { exists n. split; [done|]. apply dispatched_nil. }
  set (n1 := n <| ns_looped ::= λ l, l ++ option_list (looped_of ch a) |>).
  set (n2 := n1 <| ns_sent ::= λ l, l ++ option_list (sent_of ch a) |>).
  destruct (apply_action_eq ch a n2) as (n3 & He & _ & E1 & E2 & E3 & E4 & E5 & E6 & E7 & E8 & E9 & E10).
  destruct (IH n3) as (n' & Hn' & [D1 D2 D3 D4 D5 D6 D7 D8 D9 D10 D11]).
  exists n'. split.
  { unfold dispatch_actions in *. cbn [for_each]. unfold mbind at 1, M_bind at 1.
    unfold mbind at 1, M_bind at 1. rewrite loop_back_eq. fold n1.
    unfold mbind at 1, M_bind at 1. rewrite send_net_eq. fold n2.
    unfold mbind at 1, M_bind at 1. rewrite He. exact Hn'. }
  assert (Hn2 : ns_sm n2 = ns_sm n ∧ ns_dag n2 = ns_dag n ∧ ns_valset n2 = ns_valset n ∧
    ns_signer n2 = ns_signer n ∧ ns_sent n2 = ns_sent n ++ option_list (sent_of ch a) ∧
    ns_looped n2 = ns_looped n ++ option_list (looped_of ch a) ∧
    ns_scheduled n2 = ns_scheduled n ∧ ns_persistence n2 = ns_persistence n ∧
    ns_beacon n2 = ns_beacon n ∧ ns_timers n2 = ns_timers n ∧ ns_aborted n2 = ns_aborted n)
    by (subst n2 n1; by destruct n).
  destruct Hn2 as (F1 & F2 & F3 & F4 & F5 & F6 & F7 & F8 & F9 & F10 & F11). rewrite F8, F9 in E8.
  assert (Hom : ∀ {B} (f : Action → option B), omap f (a :: actions) = option_list (f a) ++ omap f actions)
    by (intros B f; cbn; by destruct (f a)).
  split; rewrite ?Hom; try congruence.
  - by rewrite D5, E5, F5, (assoc_L (++)).
  - by rewrite D6, E6, F6, (assoc_L (++)).
  - by rewrite D7, E7, F7, (assoc_L (++)).
  - rewrite D8. destruct (persist_of a) as [op|].
    + rewrite persist_run_cons. by destruct E8 as [-> _].
    + by destruct E8 as [-> _].
  - rewrite D9. destruct (persist_of a) as [op|].
    + rewrite persist_run_cons. by destruct E8 as [-> ->].
    + by destruct E8 as [-> ->].
  - rewrite D10, E9, F10. unfold without. by rewrite foldl_app.
  - rewrite D11, E10, E9, F10, F11. by destruct (cancelled_of a); cbn; rewrite ?app_nil_r, <- ?(assoc_L (++)).
Qed.
End dispatch.

(** ** Runs of the orchestrator *)

Section orchestrator.
Context `{Build, Primitives, MacroBorsh, !Borsh SignableVertex, !Borsh (list Hash32)}.
Context `{PendingBlobSource P} `{RocksLaws D, Codec CertifiedVertex}.
Context `{Codec MicroQc, Codec MacroQc, !@Codec MacroCheckpoint borsh_checkpoint, !Borsh SlashEvidence}.
Context (fuel : nat) (s0 : StateMachine P) (set : ValidatorSet).

Definition vertex_key (cv : CertifiedVertex) : bytes :=
  keys.vertex (cv_round cv) (v_author (cv_vertex cv)).

(** Every vertex of the DAG has a row, which holds the vertex last ingested
    for its round and author. *)
Definition dag_durable (d : LiveDag) (db : D) : Prop :=
  ∀ r cv, cv ∈ default [] (by_round d !! r) → ∃ cv',
    rows db !! (cf_name CF_Vertex, vertex_key cv) = Some (to_vec cv') ∧
    vertex_key cv' = vertex_key cv ∧ cv' ∈ default [] (by_round d !! cv_round cv').

(** [calls] are the host calls made so far: those admitted to the state machine
    make up its run, and what was sent is part of the actions of that run. *)
Record node_inv (calls : list host_call) (n : NodeState P D) : Prop := {
  ni_valset : ns_valset n = set;
  ni_dag : dag_inv set (ns_dag n);
  ni_durable : dag_durable (ns_dag n) (rp_db (ns_persistence n));
  ni_sm : ∃ ins : list sm_input, ins.*1 `sublist_of` calls ∧
    Forall (λ i : sm_input, valset_set_for i.2 = cached_set_for set) ins ∧
    ns_sm n = (sm_run fuel ins s0).2 ∧ ns_sent n `sublist_of` (sm_run fuel ins s0).1;
}.

Lemma node_inv_weaken calls calls' n :
  calls `sublist_of` calls' → node_inv calls n → node_inv calls' n.
Proof.
  intros Hs [? ? ? (ins & Hi & ? & ? & ?)]. split; [done..|]. exists ins. split; [|done]. by etrans.
Qed.

Lemma sent_sublist ch (actions : Actions) : omap (sent_of ch) actions `sublist_of` actions.
Proof.
  induction actions as [|a actions IH]; [done|]. cbn [omap list_omap]. unfold sent_of at 1.
  destruct (_ && _); by constructor.
Qed.

Lemma sm_dispatch_inv ch hc calls (n : NodeState P D) :
  node_inv calls n →
  node_inv (calls ++ [hc]) (sm_dispatch ch (λ ctx, sm_handle fuel (hc, ctx)) n).2.
Proof.
  intros [Hset Hd Hdur (ins & Hins & Hctx & Hsm & Hsent)].
  set (i := (hc, build_host_context n) : sm_input).
  assert (Hins' : (ins ++ [i]).*1 `sublist_of` calls ++ [hc]).
  { rewrite fmap_app. by apply sublist_app. }
  assert (Hctx' : Forall (λ i : sm_input, valset_set_for i.2 = cached_set_for set) (ins ++ [i])).
  { apply Forall_app. split; [done|]. apply Forall_singleton. cbn. by rewrite Hset. }
  pose proof (sm_run_snoc fuel ins i s0) as Hrun. cbv zeta in Hrun. rewrite <- Hsm in Hrun.
  unfold sm_dispatch, mbind, M_bind, gets, attempt, zoom. fold i.
  destruct (sm_handle fuel i (ns_sm n)) as [r s'] eqn:Hr. cbn [fst snd] in Hrun.
  destruct r as [acts|e| |]; cbn [fst snd].
  - set (n1 := n <| ns_sm := s' |>). destruct (dispatch_actions_eq ch acts n1) as (n2 & -> & D1).
    assert (F : ns_valset n1 = ns_valset n ∧ ns_dag n1 = ns_dag n ∧ ns_sm n1 = s' ∧
      ns_persistence n1 = ns_persistence n ∧ ns_sent n1 = ns_sent n) by (subst n1; by destruct n).
    destruct F as (F1 & F2 & F3 & F4 & F5). destruct D1 as [D1 D2 D3 _ D5 _ _ D8 _ _ _]. cbn [snd]. split.
    + by rewrite D3, F1.
    + by rewrite D2, F2.
    + rewrite D2, F2, D8, F4. intros r cv Hin.
      destruct (Hdur r cv Hin) as (cv' & Hrow & ?). exists cv'. split; [|done].
      rewrite <- Hrow. eapply persist_run_quiet, surjective_pairing.
    + exists (ins ++ [i] : list sm_input). rewrite Hrun. cbn [fst snd].
      split; [done|]. split; [done|]. split; [congruence|].
      rewrite D5, F5. apply sublist_app; [done|apply sent_sublist].
  - destruct n. split; [done..|]. exists (ins ++ [i] : list sm_input). rewrite Hrun. cbn in *. by rewrite app_nil_r.
  - destruct n. split; [done..|]. exists (ins ++ [i] : list sm_input). rewrite Hrun. cbn in *. by rewrite app_nil_r.
  - destruct n. split; [done..|]. exists (ins ++ [i] : list sm_input). rewrite Hrun. cbn in *. by rewrite app_nil_r.
Qed.

(** Ingesting a certified vertex keeps the invariant. *)
Lemma dag_ingest_inv cv calls (n : NodeState P D) r n' :
  node_inv calls n → verify_certified_vertex cv set = Ok tt →
  with_dag (dag_ingest cv) n = (r, n') →
  node_inv calls n' ∧ (r = Ok tt → by_hash (ns_dag n') !! cv_hash cv = Some cv).
Proof.
  intros [Hset Hd Hdur Hsm] Hv. destruct n as [sm d [db seq] b st sg tm sent lp sch ab].
  cbn in Hset, Hd, Hdur, Hsm. unfold with_dag, dag_ingest, on_store, mbind, M_bind, modify. cbn.
  destruct (vertex_store.put cv db) as [r0 db'] eqn:Hp.
  apply put_row_inv in Hp. destruct r0 as [[]|e| |]; cbn; intros [= <- <-]; subst.
  - split; [|intros _; destruct d; apply lookup_insert_eq]. split; cbn; [done|by apply dag_inv_index| |done].
    change (dag_durable (dag_index cv d) db'). intros r v. rewrite elem_of_dag_index.
    assert (Hrow : ∀ w, w ∈ default [] (by_round (dag_index cv d) !! cv_round w) ↔
      w ∈ default [] (by_round d !! cv_round w) ∨ w = cv ∧ cv_round w = cv_round cv)
      by (intros w; apply elem_of_dag_index).
    intros Hin. destruct (decide (vertex_key v = vertex_key cv)) as [Hk|Hk].
    + exists cv. rewrite Hp, Hk. split; [apply lookup_insert_eq|]. split; [done|].
      apply Hrow. by right.
    + destruct Hin as [Hin|[-> _]]; [|done]. destruct (Hdur r v Hin) as (w & Hw & Hwk & Hwin).
      exists w. split; [|split; [done|apply Hrow; by left]]. rewrite Hp, lookup_insert_ne; [done|].
      intros He%(f_equal snd). by apply Hk.
  - by split.
  - by split.
  - by split.
Qed.

Lemma orch_event_inv ch e calls (n : NodeState P D) :
  node_inv calls n → node_inv (calls ++ [HC_event e]) (orch_event fuel ch e n).2.
Proof.
  intros Hn. assert (Hn' : node_inv (calls ++ [HC_event e]) n)
    by (eapply node_inv_weaken, Hn; by apply sublist_inserts_r).
  unfold orch_event, mbind, M_bind.
  destruct e as [cv| | | | | | | | | |]; try by apply (sm_dispatch_inv ch (HC_event _)).
  unfold admit_event, gets, mbind, M_bind. destruct (verify_certified_vertex cv (ns_valset n)) as [[]| | |] eqn:Hv;
    [|done..].
  rewrite (ni_valset _ _ Hn) in Hv. unfold attempt.
  destruct (with_dag (dag_ingest cv) n) as [r n1] eqn:Hi.
  destruct (dag_ingest_inv cv calls n r n1 Hn Hv Hi) as [Hn1 _].
  assert (Hn1' : node_inv (calls ++ [HC_event (CertifiedVertexReceived cv)]) n1)
    by (eapply node_inv_weaken, Hn1; by apply sublist_inserts_r).
  destruct r as [[]|e| |]; [|done..].
  exact (sm_dispatch_inv ch (HC_event (CertifiedVertexReceived cv)) calls n1 Hn1).
Qed.

Lemma orch_events_inv events calls (n : NodeState P D) :
  node_inv calls n →
  node_inv (calls ++ (HC_event <$> events.*1)) (for_each events (λ e, orch_event fuel e.2 e.1) n).2.
Proof.
  revert calls n. induction events as [|[e ch] events IH]; intros calls n Hn.
  { cbn. by rewrite app_nil_r. }
  cbn [for_each]. unfold mbind, M_bind. cbn [fst snd].
  pose proof (orch_event_inv ch e calls n Hn) as Hn1.
  destruct (orch_event fuel ch e n) as [r n1]. cbn [snd] in Hn1.
  cbn [fmap list_fmap fst]. rewrite cons_middle, (assoc_L (++)).
  destruct r as [[]| | |]; cbn [snd]; [by apply IH|..];
    (eapply node_inv_weaken, Hn1; by apply sublist_inserts_r).
Qed.

(** The host calls of a run. *)
Definition run_calls (propose_enabled : bool) (events : list (Event * Channels)) : list host_call :=
  (if propose_enabled then [HC_genesis] else []) ++ (HC_event <$> events.*1).

Lemma orch_run_inv propose ch0 events (n : NodeState P D) :
  node_inv [] n → node_inv (run_calls propose events) (orch_run fuel propose ch0 events n).2.
Proof.
  intros Hn. unfold orch_run, run_calls. destruct propose.
  - unfold mbind, M_bind. pose proof (sm_dispatch_inv ch0 HC_genesis [] n Hn) as Hn1.
    change (sm_dispatch ch0 (λ ctx, sm_handle fuel (HC_genesis, ctx)) n)
      with (sm_dispatch ch0 (sm_genesis_propose fuel) n) in Hn1.
    destruct (sm_dispatch ch0 _ n) as [[[]|e| |] n1]; cbn [snd] in *; [by apply orch_events_inv|..];
      (eapply node_inv_weaken, Hn1; by apply sublist_inserts_r).
  - by apply (orch_events_inv events []).
Qed.
End orchestrator.

Lemma node_inv_start
    `{Build, Primitives, MacroBorsh, !Borsh SignableVertex, !Borsh (list Hash32)}
    `{PendingBlobSource P} `{RocksLaws D, !Borsh CertifiedVertex} fuel cfg id (queue : P)
    (db : D) set signer :
  node_inv fuel (StateMachine_new cfg id queue) set [] (node_start cfg id queue db set signer).
Proof.
  split; [done|apply dag_inv_new| |].
  - intros r cv Hin. cbn in Hin. by apply elem_of_nil in Hin.
  - exists []. by split_and!.
Qed.

(** The invariant after a run from the start. *)
Lemma node_inv_run
    `{Build, Primitives, MacroBorsh, !Borsh SignableVertex, !Borsh (list Hash32)}
    `{PendingBlobSource P} `{RocksLaws D, Codec CertifiedVertex}
    `{Codec MicroQc, Codec MacroQc, !@Codec MacroCheckpoint borsh_checkpoint, !Borsh SlashEvidence}
    fuel cfg id (queue : P) (db : D) set signer propose ch0 events r (n : NodeState P D) :
  orch_run fuel propose ch0 events (node_start cfg id queue db set signer) = (r, n) →
  node_inv fuel (StateMachine_new cfg id queue) set (run_calls propose events) n.
Proof.
  intros Hrun. change n with (snd (r, n)). rewrite <- Hrun.
  apply orch_run_inv, node_inv_start.
Qed.

Definition call_ok (c : host_call) : Prop :=
  match c with
  | HC_event (VertexProposalReceived p) => u64_ok (v_round (vp_vertex p))
  | _ => True
  end.

(** A run whose round counter cannot wrap around: overflow is checked, or there are fewer than
    [2^64 - 1] calls and at least four validators. *)
Definition run_no_wrap `{Build} (set : ValidatorSet) (calls : list host_call) : Prop :=
  overflow_checks = true ∨ (length calls < 2 ^ 64 - 1 ∧ (4 ≤ length (vs_entries set))%nat).

(** Four validators have a quorum of three. *)
Lemma set_wide (set : ValidatorSet) (ctx : HostContext) :
  (4 ≤ length (vs_entries set))%nat → valset_set_for ctx = cached_set_for set → wide_host ctx.
Proof.
  intros Hn Hset set' need. unfold active_set. rewrite Hset. unfold cached_set_for.
  cbn [mbind outcome_bind]. case_bool_decide; [|done]. intros [= <-]. unfold quorum_need.
  destruct (u32_try_from (length (vs_entries set))) as [m|] eqn:Hm; [|done]. intros [= <-].
  apply u32_try_from_Some in Hm as [_ ->]. unfold quorum_threshold, saturating_sub. dlia.
Qed.

Lemma calls_sublist `{Build} (ins : list sm_input) set calls :
  ins.*1 `sublist_of` calls → Forall (λ i : sm_input, valset_set_for i.2 = cached_set_for set) ins →
  Forall call_ok calls → run_no_wrap set calls →
  Forall sm_input_ok ins ∧ no_wrap (A := host_call) ins.
Proof.
  intros Hs Hset Hok Hnw. split.
  - rewrite Forall_forall in Hok. apply Forall_forall. intros [c ctx] Hi.
    assert (Hc : call_ok c).
    { apply Hok. eapply elem_of_sublist; [|exact Hs]. by apply (list_elem_of_fmap_2 fst ins (c, ctx)). }
    by destruct c as [|[]].
  - destruct Hnw as [?|[Hlen Hn]]; [by left|right]. split.
    + apply sublist_length in Hs. rewrite length_fmap in Hs. lia.
    + apply (Forall_impl _ _ _ Hset). intros i. by apply set_wide.
Qed.

Lemma omap_sublist {A B} (f : A → option B) (l k : list A) :
  l `sublist_of` k → omap f l `sublist_of` omap f k.
Proof.
  induction 1 as [|x l k _ IH|x l k _ IH]; cbn; [done|..]; destruct (f x); by repeat constructor.
Qed.

(** ** Timers *)

Inductive timer_op := TO_schedule (join : nat) (id : TimerId) (delay_nanos : Z) | TO_cancel (id : TimerId).

(** The registry and the aborted tasks after a sequence of calls. *)
Definition timer_step (s : gmap TimerId nat * list nat) (op : timer_op) : gmap TimerId nat * list nat :=
  match op with
  | TO_schedule join id d =>
      let '(aborted, _, r) := schedule_event join id d s.1 in (r, s.2 ++ option_list aborted)
  | TO_cancel id => let '(aborted, r) := timer_cancel id s.1 in (r, s.2 ++ option_list aborted)
  end.
Definition timers_run (ops : list timer_op) : gmap TimerId nat * list nat :=
  foldl timer_step (∅, []) ops.

Definition joins (ops : list timer_op) : list nat :=
  omap (λ op, match op with TO_schedule join _ _ => Some join | TO_cancel _ => None end) ops.

(** The task the last call for [id] leaves running. *)
Definition last_for (id : TimerId) (ops : list timer_op) : option nat :=
  foldl (λ o op, match op with
                 | TO_schedule join i _ => if bool_decide (i = id) then Some join else o
                 | TO_cancel i => if bool_decide (i = id) then None else o
                 end) None ops.

Lemma timers_run_snoc ops op : timers_run (ops ++ [op]) = timer_step (timers_run ops) op.
Proof. unfold timers_run. by rewrite foldl_app. Qed.
Lemma last_for_snoc id ops op :
  last_for id (ops ++ [op]) =
    match op with
    | TO_schedule join i _ => if bool_decide (i = id) then Some join else last_for id ops
    | TO_cancel i => if bool_decide (i = id) then None else last_for id ops
    end.
Proof. unfold last_for. by rewrite foldl_app. Qed.

Lemma timers_run_last ops id : (timers_run ops).1 !! id = last_for id ops.
Proof.
  induction ops as [|op ops IH] using rev_ind; [done|]. rewrite timers_run_snoc, last_for_snoc.
  destruct op as [j i d|i]; cbn; case_bool_decide as Hi.
  - subst. apply lookup_insert_eq.
  - by rewrite lookup_insert_ne, lookup_delete_ne.
  - subst. apply lookup_delete_eq.
  - by rewrite lookup_delete_ne.
Qed.

Lemma joins_snoc ops op :
  joins (ops ++ [op]) = joins ops ++ match op with TO_schedule j _ _ => [j] | TO_cancel _ => [] end.
Proof. unfold joins. rewrite omap_app. by destruct op. Qed.

Abbreviation registered r := ((map_to_list r).*2).

Lemma registered_delete (r : gmap TimerId nat) id :
  registered r ≡ₚ option_list (r !! id) ++ registered (delete id r).
Proof.
  destruct (r !! id) as [j|] eqn:Hj; cbn [option_list from_option app].
  - by rewrite <- (map_to_list_delete r id j Hj).
  - by rewrite delete_id.
Qed.

Lemma timer_step_tasks s op l :
  l ≡ₚ s.2 ++ registered s.1 →
  l ++ match op with TO_schedule j _ _ => [j] | TO_cancel _ => [] end ≡ₚ
    (timer_step s op).2 ++ registered (timer_step s op).1.
Proof.
  intros ->. destruct s as [r ab]. destruct op as [j id d|id]; cbn [timer_step timer_cancel schedule_event fst snd].
  - rewrite map_to_list_insert by apply lookup_delete_eq. rewrite (registered_delete r id).
    cbn [fmap list_fmap snd]. by rewrite (Permutation_cons_append (registered _) j), <- !(assoc_L (++)).
  - rewrite app_nil_r, (registered_delete r id). by rewrite (assoc_L (++)).
Qed.

(** ** Properties *)

(** One timer per id.  Over any sequence of schedule and cancel calls, the tasks that were
    spawned are exactly those that were aborted and those still registered; an id's
    entry is the task of its last schedule call, if no cancel call came after it. *)
Theorem timers_one_per_id (ops : list timer_op) :
  let s := timers_run ops in
  joins ops ≡ₚ s.2 ++ registered s.1 ∧ (∀ id, s.1 !! id = last_for id ops) ∧
  (NoDup (joins ops) → NoDup s.2 ∧
     ∀ id j, s.1 !! id = Some j → j ∉ s.2 ∧ ∀ id', s.1 !! id' = Some j → id' = id).
Proof.
  cbv zeta.
  assert (Hp : joins ops ≡ₚ (timers_run ops).2 ++ registered (timers_run ops).1).
  { induction ops as [|op ops IH] using rev_ind; [done|].
    rewrite timers_run_snoc, joins_snoc. by apply timer_step_tasks. }
  split; [done|]. split; [apply timers_run_last|]. rewrite Hp. intros (Ha & Hd & Hr)%NoDup_app.
  split; [done|]. intros id j Hj.
  assert (Hin : ∀ i, (timers_run ops).1 !! i = Some j → (i, j) ∈ map_to_list (timers_run ops).1)
    by (intros i; apply elem_of_map_to_list).
  split.
  - intros Hab. apply (Hd j Hab). apply list_elem_of_fmap. exists (id, j). split; [done|by apply Hin].
  - intros id' Hj'. apply Hin in Hj, Hj'. clear -Hr Hj Hj'.
    induction (map_to_list (timers_run ops).1) as [|[i k] l IH]; [by apply elem_of_nil in Hj|].
    cbn in Hr. apply NoDup_cons in Hr as [Hn Hr].
    assert (Hk : ∀ i', (i', k) ∈ l → False).
    { intros i' Hi'. apply Hn, list_elem_of_fmap. by exists (i', k). }
    apply elem_of_cons in Hj as [Hj|Hj], Hj' as [Hj'|Hj']; simplify_eq; [done| | |by apply IH];
      exfalso; by eapply Hk.
Qed.

(** A schedule request waits in a channel while a cancel call takes effect at once, so
    a cancel that follows closely is overtaken and the timer stays. *)
Example cancel_overtaken `{Primitives} {P D} (n : NodeState P D) id delay :
  ns_timers (timer_task 7 id delay (cancel_timer id n)) !! id = Some 7%nat.
Proof. destruct n. cbn. apply lookup_insert_eq. Qed.

(** [C7] End-to-end non-equivocation.  Over any run of a node's main loop, whatever events
    reach it, however its channels, database and signer answer and whichever calls fail,
    the messages that actually go out to the network contain at most one micro
    certificate and one macro certificate per checkpoint, at most one vote per
    round and author, and at most one own proposal per round.  The rounds of received
    proposals are [u64]; a build with overflow checks needs no more; in the release build,
    whose round counter wraps around, the run is of fewer than [2^64 - 1] calls and the
    validator set has at least four entries ([run_no_wrap]). *)
Theorem node_never_equivocates
    `{Build, Primitives, MacroBorsh, !Borsh SignableVertex, !Borsh (list Hash32)}
    `{PendingBlobSource P} `{RocksLaws D, Codec CertifiedVertex}
    `{Codec MicroQc, Codec MacroQc, !@Codec MacroCheckpoint borsh_checkpoint, !Borsh SlashEvidence}
    fuel cfg id (queue : P) (db : D) set signer propose ch0 events r (n : NodeState P D) :
  Forall call_ok (run_calls propose events) → run_no_wrap set (run_calls propose events) →
  orch_run fuel propose ch0 events (node_start cfg id queue db set signer) = (r, n) →
  NoDup (qcs_of (ns_sent n)) ∧ NoDup (mqcs_of (ns_sent n)) ∧ NoDup (votes_cast (ns_sent n)) ∧
  (∀ p q, p ∈ proposals_sent (ns_sent n) → q ∈ proposals_sent (ns_sent n) →
     v_round (vp_vertex p) = v_round (vp_vertex q) → p = q).
Proof.
  intros Hok Hnw Hrun.
  apply node_inv_run in Hrun as [_ _ _ (ins & Hins & Hctx & _ & Hsent)].
  destruct (calls_sublist ins set _ Hins Hctx Hok Hnw) as [Hiok Hinw].
  destruct (sm_run_new fuel cfg id queue ins Hiok Hinw)
    as [_ _ Hq _ Hm _ [Hv _ _] (K & _ & HK & Hin)].
  split; [apply (sublist_NoDup _ _ Hq); by apply omap_sublist|].
  split; [apply (sublist_NoDup _ _ Hm); by apply omap_sublist|].
  split; [apply (sublist_NoDup _ _ Hv); by apply omap_sublist|].
  assert (Hp : ∀ p, p ∈ proposals_sent (ns_sent n) → p ∈ K).
  { intros p Hp. apply Hin. eapply elem_of_sublist; [exact Hp|]. by apply omap_sublist. }
  intros p q ?%Hp ?%Hp. by apply HK.
Qed.

(** [C9] What consensus reads is certified.  In any state a node's main loop reaches,
    every vertex the DAG view returns verifies under the validator set, is found under
    its own hash and listed in its own round; the causal-set query returns the hashes of exactly those
    vertices; and the database holds a row for each of them. *)
Theorem node_dag_certified
    `{Build, Primitives, MacroBorsh, !Borsh SignableVertex, !Borsh (list Hash32)}
    `{PendingBlobSource P} `{RocksLaws D, Codec CertifiedVertex}
    `{Codec MicroQc, Codec MacroQc, !@Codec MacroCheckpoint borsh_checkpoint, !Borsh SlashEvidence}
    fuel cfg id (queue : P) (db : D) set signer propose ch0 events r (n : NodeState P D) :
  orch_run fuel propose ch0 events (node_start cfg id queue db set signer) = (r, n) →
  (∀ h cv, live_vertex (ns_dag n) h = Ok (Some cv) →
     cv_hash cv = h ∧ verify_certified_vertex cv set = Ok tt ∧
     ∃ vs, live_vertices_at_round (ns_dag n) (cv_round cv) = Ok vs ∧ cv ∈ vs) ∧
  (∀ rd vs cv, live_vertices_at_round (ns_dag n) rd = Ok vs → cv ∈ vs →
     cv_round cv = rd ∧ verify_certified_vertex cv set = Ok tt ∧
     (∃ cv', live_vertex (ns_dag n) (cv_hash cv) = Ok (Some cv')) ∧
     ∃ cv', vertex_key cv' = vertex_key cv ∧
       rows (rp_db (ns_persistence n)) !! (cf_name CF_Vertex, vertex_key cv) = Some (to_vec cv')) ∧
  (∀ from to h, h ∈ certified_hashes_in_range (ns_dag n) from to ↔
     ∃ rd vs cv, from ≤ rd ≤ to ∧ live_vertices_at_round (ns_dag n) rd = Ok vs ∧ cv ∈ vs ∧
       h = cv_hash cv).
Proof.
  intros [_ Hd Hdur _]%node_inv_run. unfold live_vertex, live_vertices_at_round.
  split; [|split].
  - intros h cv [= Hh]. destruct (di_hash _ _ Hd h cv Hh) as [? Hin]. split; [done|].
    split; [by eapply dag_inv_verified|]. eexists. by split.
  - intros rd vs cv [= <-] Hin. destruct (di_round _ _ Hd rd cv Hin) as (? & ? & cv1 & Hcv1).
    split; [done|]. split; [done|]. split; [exists cv1; by rewrite Hcv1|].
    destruct (Hdur rd cv Hin) as (cv' & ? & ? & _). by exists cv'.
  - intros from to h. rewrite elem_of_hashes_in_range. naive_solver.
Qed.

(** [C8] Nodes agree on the DAG.  Two nodes that ran with the same set of [3f + 1] validators, of
    which at most [f] are faulty, hold the same hash for a round and an author, whatever
    events each of them saw and in either build, if signatures are unforgeable and no honest
    validator of the set votes past a wrapped counter: its build checks overflow, or it makes
    fewer than [2^64 - 1] calls and its host answers with sets whose quorum is at least two
    ([no_wrap]). *)
Theorem node_dags_agree
    `{Build, Primitives, MacroBorsh, !Borsh SignableVertex, !Borsh (list Hash32)}
    `{PendingBlobSource P} `{RocksLaws D, Codec CertifiedVertex}
    `{Codec MicroQc, Codec MacroQc, !@Codec MacroCheckpoint borsh_checkpoint, !Borsh SlashEvidence}
    set (f : nat) (faulty : list nat) (peers : nat → Node P) fuel1 fuel2 cfg1 cfg2 id1 id2
    (q1 q2 : P) (db1 db2 : D) signer1 signer2 propose1 propose2 ch1 ch2 events1 events2 r1 r2
    (n1 n2 : NodeState P D) vs1 vs2 cv1 cv2 :
  length (vs_entries set) = (3 * f + 1)%nat → (length faulty ≤ f)%nat →
  (∀ i, i ∉ faulty → Forall vertex_input_ok (nd_calls (peers i)) ∧ no_wrap (nd_calls (peers i))) →
  unforgeable set faulty peers cv1 → unforgeable set faulty peers cv2 →
  orch_run fuel1 propose1 ch1 events1 (node_start cfg1 id1 q1 db1 set signer1) = (r1, n1) →
  orch_run fuel2 propose2 ch2 events2 (node_start cfg2 id2 q2 db2 set signer2) = (r2, n2) →
  live_vertices_at_round (ns_dag n1) (cv_round cv1) = Ok vs1 → cv1 ∈ vs1 →
  live_vertices_at_round (ns_dag n2) (cv_round cv2) = Ok vs2 → cv2 ∈ vs2 →
  cv_round cv1 = cv_round cv2 → v_author (cv_vertex cv1) = v_author (cv_vertex cv2) →
  cv_hash cv1 = cv_hash cv2.
Proof.
  intros Hn Hf Hok Hu1 Hu2 Hr1 Hr2 [= <-] Hin1 [= <-] Hin2 Hrd Hau.
  apply node_inv_run in Hr1 as [_ Hd1 _ _], Hr2 as [_ Hd2 _ _].
  apply (di_round _ _ Hd1) in Hin1 as (_ & Hv1 & _). apply (di_round _ _ Hd2) in Hin2 as (_ & Hv2 & _).
  by apply (same_slot_same_hash set f faulty peers cv1 cv2).
Qed.

(** [C29] Actions are carried out completely and in order.  Dispatching always returns; what goes
    to the network is the broadcasts the channel took, in order; own certificates are fed
    back as events; timers are requested in order; a cancelled timer leaves the registry, its
    task is aborted, in order, and no other timer is touched; the persistence port sees the
    persistent actions as one run of calls, failures and all; the beacon chains
    exactly the certificates that were stored; and the rest of the node stays as it was. *)
Theorem dispatch_actions_spec
    `{Build, Primitives, MacroBorsh, !Borsh SignableVertex, !Borsh (list Hash32)}
    `{PendingBlobSource P} `{RocksDb D, Codec CertifiedVertex}
    `{Codec MicroQc, Codec MacroQc, !@Codec MacroCheckpoint borsh_checkpoint, !Borsh SlashEvidence}
    ch actions (n : NodeState P D) :
  let ops := omap persist_of actions in
  let stored := persist_run ops (ns_persistence n) in
  ∃ n', dispatch_actions ch actions n = (Ok tt, n') ∧
    ns_sent n' = ns_sent n ++
      filter (λ a, is_broadcast a = true ∧ ch_net ch a = Sent) actions ∧
    ns_looped n' = ns_looped n ++ omap (looped_of ch) actions ∧
    ns_scheduled n' = ns_scheduled n ++ omap (scheduled_of ch) actions ∧
    ns_persistence n' = stored.2 ∧
    ns_beacon n' = beacon_after (zip ops stored.1) (ns_beacon n) ∧
    (∀ id, ns_timers n' !! id = if decide (CancelTimer id ∈ actions) then None
                                else ns_timers n !! id) ∧
    ns_aborted n' = ns_aborted n ++ aborted_by (omap cancelled_of actions) (ns_timers n) ∧
    (ns_sm n', ns_dag n', ns_valset n', ns_signer n') =
      (ns_sm n, ns_dag n, ns_valset n, ns_signer n).
Proof.
  intros ops stored. destruct (dispatch_actions_eq ch actions n) as (n' & Hn' & [D1 D2 D3 D4 D5 D6 D7 D8 D9 D10 D11]).
  exists n'. split_and!; try done; [| |congruence].
  2: { intros id. rewrite D10, lookup_without. apply decide_ext, elem_of_cancelled. }
  rewrite D5. f_equal. clear. induction actions as [|a actions IH]; [done|]. cbn [omap list_omap].
  rewrite filter_cons, IH. unfold sent_of.
  destruct (is_broadcast a) eqn:Hb; cbn [andb]; [|by rewrite decide_False by (by intros [? _])].
  case_bool_decide as Hs; case_decide as Hd; naive_solver.
Qed.

Section query_facts.
Context `{RocksDb D, Codec MicroQc, Codec MacroCheckpoint, Codec MacroQc, !Borsh SlashEvidence}.

(** A stored checkpoint of height [h] with the certificate [qc]. *)
Definition certified_at (p : RocksPersistence D) (h : Height) (qc : MacroQc) : Prop :=
  ∃ cp, macro_checkpoint_at p h = Ok (Some cp) ∧ macro_qc_for p (mc_hash cp) = Ok (Some qc).

Record scan_best (p : RocksPersistence D) (k : Z) (best : option (Height * MacroQc)) : Prop := {
  sb_certified h qc : best = Some (h, qc) → 0 ≤ h < k ∧ certified_at p h qc;
  sb_highest h qc : certified_at p h qc → 0 ≤ h < k → ∃ h0 qc0, best = Some (h0, qc0) ∧ h ≤ h0;
}.

Lemma scan_best_skip p k best :
  (∀ qc, ¬ certified_at p k qc) → scan_best p k best → scan_best p (Z.succ k) best.
Proof.
  intros Hno [Hc Hh]. split.
  - intros h qc He. destruct (Hc h qc He). split; [lia|done].
  - intros h qc Hcert Hk. destruct (decide (h = k)) as [->|]; [by destruct (Hno qc)|].
    apply (Hh h qc Hcert). lia.
Qed.

Lemma finalized_scan_best p k (m : nat) best0 best :
  finalized_scan p (seqZ k m) best0 = Ok best → 0 ≤ k →
  scan_best p k best0 → scan_best p (k + m) best.
Proof.
  revert k best0. induction m as [|m IH]; intros k best0 Hs Hk Hb.
  { rewrite Z.add_0_r. cbn in Hs. by injection Hs as <-. }
  rewrite seqZ_cons, Nat2Z.inj_succ, Z.pred_succ in Hs by lia. cbn [finalized_scan] in Hs.
  apply outcome_bind_Ok in Hs as (cp & Hcp & Hs).
  replace (k + S m) with (Z.succ k + m) by lia.
  destruct cp as [cp|]; [|apply (IH _ best0); [done|lia|apply scan_best_skip; [|done]]].
  2: { intros q (cp' & Hcp' & _). congruence. }
  apply outcome_bind_Ok in Hs as (qc & Hqc & Hs). destruct qc as [qc|].
  - assert (Hnew : (match best0 with Some (bh, _) => bh <? k | None => true end) = true).
    { destruct best0 as [[bh bq]|]; [|done].
      destruct (sb_certified _ _ _ Hb bh bq eq_refl). apply Z.ltb_lt. lia. }
    rewrite Hnew in Hs. apply (IH _ (Some (k, qc))); [done|lia|]. split.
    + intros h q [= <- <-]. split; [lia|]. by exists cp.
    + intros h q _ Hh. exists k, qc. split; [done|lia].
  - apply (IH _ best0); [done|lia|]. apply scan_best_skip; [|done].
    intros q (cp' & Hcp' & Hq'). rewrite Hcp in Hcp'. simplify_eq. congruence.
Qed.
End query_facts.

(** The query for the latest finalized certificate looks at heights 0 to 127 only: it
    returns the certificate of the highest stored checkpoint below 128 that has one, and
    none if there is none there, whatever is stored above. *)
Theorem latest_finalized_spec
    `{RocksDb D, Codec MicroQc, Codec MacroCheckpoint, Codec MacroQc, !Borsh SlashEvidence}
    (p : RocksPersistence D) o :
  latest_finalized p = Ok o →
  match o with
  | Some qc => ∃ h, 0 ≤ h < 128 ∧ certified_at p h qc ∧ ∀ h' qc', h < h' < 128 → ¬ certified_at p h' qc'
  | None => ∀ h qc, 0 ≤ h < 128 → ¬ certified_at p h qc
  end.
Proof.
  unfold latest_finalized. intros (best & Hs & [= <-])%outcome_bind_Ok.
  apply (finalized_scan_best p 0 128) in Hs as [Hb Hmax]; [|done|split; [done|lia]].
  destruct best as [[h qc]|]; cbn.
  - destruct (Hb h qc eq_refl) as [Hh Hc]. exists h. split; [lia|]. split; [done|].
    intros h' qc' Hh' Hc'. destruct (Hmax h' qc' Hc') as (h0 & qc0 & [= -> ->] & ?); lia.
  - intros h qc Hh Hc. destruct (Hmax h qc Hc) as (? & ? & ? & ?); [lia|done].
Qed.

(** ** Witnesses: two nodes of the toy network, over empty databases *)

#[local] Existing Instance toy_store_micro_qc.
#[local] Existing Instance toy_read_micro_qc.
#[local] Existing Instance toy_store_macro_qc.
#[local] Existing Instance toy_read_macro_qc.
#[local] Existing Instance toy_store_evidence.
#[local] Existing Instance release.
#[local] Instance toy_cp_codec : @Codec MacroCheckpoint borsh_checkpoint := λ _, None.
#[local] Instance toy_cv_borsh : Borsh CertifiedVertex := λ cv,
  h32_bytes (cv_hash cv) ++ agg_bitmap (cv_certificate cv).
#[local] Instance toy_cv_codec : Codec CertifiedVertex := λ _, None.

Definition toy_channels : Channels := MkChannels (λ _, Sent) (λ _, Sent) (λ _ _, Sent).
Definition toy_host (i : nat) : NodeState unit toy_db :=
  node_start default_table_17_1 (toy_id i) tt ∅ (toy_set 4)
    (MkDevSigner toy (toy_key i) (λ alpha, Ok (MkVrfProof alpha, Hash32_zero))).

(** A genesis proposer that receives its own certificate, and a node that votes for that
    proposal and receives another certificate of it. *)
Definition toy_events1 : list (Event * Channels) :=
  [(CertifiedVertexReceived toy_own_qc, toy_channels)].
Definition toy_events2 : list (Event * Channels) :=
  [(VertexProposalReceived toy_genesis, toy_channels);
   (CertifiedVertexReceived toy_other_qc, toy_channels);
   (CertifiedVertexReceived (toy_qc 4 (vp_vertex toy_genesis) [0]%nat), toy_channels)].
Abbreviation toy_run1 := (orch_run 30 true toy_channels toy_events1 (toy_host 0)).
Abbreviation toy_run2 := (orch_run 30 false toy_channels toy_events2 (toy_host 1)).

Example toy_runs :
  toy_run1.1 = Ok tt ∧ toy_run2.1 = Ok tt ∧
  length (proposals_sent (ns_sent toy_run1.2)) = 1%nat ∧
  votes_cast (ns_sent toy_run2.2) = [(0, toy_id 0)] ∧
  live_vertices_at_round (ns_dag toy_run1.2) 0 = Ok [toy_own_qc] ∧
  live_vertices_at_round (ns_dag toy_run2.2) 0 = Ok [toy_other_qc].
Proof. by vm_compute. Qed.

Lemma node_never_equivocates_witness :
  (votes_cast (ns_sent toy_run2.2) = [(0, toy_id 0)]) ∧
  NoDup (qcs_of (ns_sent toy_run2.2)) ∧ NoDup (mqcs_of (ns_sent toy_run2.2)) ∧
  NoDup (votes_cast (ns_sent toy_run2.2)) ∧
  (∀ p q, p ∈ proposals_sent (ns_sent toy_run2.2) → q ∈ proposals_sent (ns_sent toy_run2.2) →
     v_round (vp_vertex p) = v_round (vp_vertex q) → p = q).
Proof.
  split; [vm_compute; reflexivity|].
  apply (node_never_equivocates 30 default_table_17_1 (toy_id 1) tt (∅ : toy_db) (toy_set 4)
    (MkDevSigner toy (toy_key 1) (λ alpha, Ok (MkVrfProof alpha, Hash32_zero)))
    false toy_channels toy_events2 toy_run2.1).
  - repeat apply Forall_cons_2; [vdecide|exact I|exact I|apply Forall_nil_2].
  - right. split; [reflexivity|apply le_n].
  - apply surjective_pairing.
Defined.

Lemma node_dag_certified_witness :
  live_vertices_at_round (ns_dag toy_run2.2) 0 = Ok [toy_other_qc] ∧
  verify_certified_vertex toy_other_qc (toy_set 4) = Ok tt.
Proof.
  assert (Hl : live_vertices_at_round (ns_dag toy_run2.2) 0 = Ok [toy_other_qc])
    by (vm_compute; reflexivity).
  split; [exact Hl|].
  destruct (node_dag_certified 30 default_table_17_1 (toy_id 1) tt (∅ : toy_db) (toy_set 4)
    (MkDevSigner toy (toy_key 1) (λ alpha, Ok (MkVrfProof alpha, Hash32_zero)))
    false toy_channels toy_events2 toy_run2.1 toy_run2.2 (surjective_pairing _)) as (_ & Hv & _).
  destruct (Hv 0 [toy_other_qc] toy_other_qc Hl (list_elem_of_here _ _)) as (_ & Hok & _).
  exact Hok.
Defined.

Lemma node_dags_agree_witness :
  toy_own_qc ≠ toy_other_qc ∧ cv_hash toy_own_qc = cv_hash toy_other_qc.
Proof.
  split; [by vm_compute|].
  apply (node_dags_agree (toy_set 4) 1 [] toy_network 30 30 default_table_17_1 default_table_17_1
    (toy_id 0) (toy_id 1) tt tt (∅ : toy_db) (∅ : toy_db)
    (MkDevSigner toy (toy_key 0) (λ alpha, Ok (MkVrfProof alpha, Hash32_zero)))
    (MkDevSigner toy (toy_key 1) (λ alpha, Ok (MkVrfProof alpha, Hash32_zero)))
    true false toy_channels toy_channels toy_events1 toy_events2 toy_run1.1 toy_run2.1
    toy_run1.2 toy_run2.2 [toy_own_qc] [toy_other_qc]).
  - reflexivity.
  - apply le_0_n.
  - intros i _. split; [apply toy_network_ok|apply toy_network_no_wrap].
  - apply toy_unforgeable. by vm_compute.
  - apply toy_unforgeable. by vm_compute.
  - apply surjective_pairing.
  - apply surjective_pairing.
  - vm_compute. reflexivity.
  - apply list_elem_of_here.
  - vm_compute. reflexivity.
  - apply list_elem_of_here.
  - reflexivity.
  - reflexivity.
Defined.

(** Certificates stored at heights 3 and 200: the query finds the first. *)
Definition toy_macro_store : RocksPersistence toy_db :=
  let cp h i := MkMacroCheckpoint h 0 (toy_h32 0) (toy_h32 4) (toy_h32 i) in
  let qc i := MkMacroQc (toy_h32 i) Mode0Flat toy_agg in
  (persist_run (Borsh1 := toy_store_macro_cp)
     [PO_macro_checkpoint (cp 3 1); PO_macro_qc (qc 1); PO_macro_checkpoint (cp 200 2); PO_macro_qc (qc 2)]
     (RocksPersistence_new (∅ : toy_db))).2.
Lemma latest_finalized_spec_witness :
  latest_finalized (H1 := toy_read_macro_cp) toy_macro_store =
    Ok (Some (MkMacroQc (toy_h32 1) Mode0Flat toy_agg)) ∧
  ∃ h, 0 ≤ h < 128 ∧
    certified_at (H1 := toy_read_macro_cp) toy_macro_store h (MkMacroQc (toy_h32 1) Mode0Flat toy_agg).
Proof.
  assert (Hl : latest_finalized (H1 := toy_read_macro_cp) toy_macro_store =
    Ok (Some (MkMacroQc (toy_h32 1) Mode0Flat toy_agg))) by (vm_compute; reflexivity).
  split; [exact Hl|].
  destruct (latest_finalized_spec (H1 := toy_read_macro_cp) toy_macro_store _ Hl) as (h & Hh & Hc & _).
  exists h. split; [exact Hh|exact Hc].
Defined.

Lemma timers_one_per_id_witness :
  let ops := [TO_schedule 0 (MkTimerId 5) 10; TO_schedule 1 (MkTimerId 6) 10;
              TO_schedule 2 (MkTimerId 5) 20; TO_cancel (MkTimerId 6)] in
  NoDup (timers_run ops).2 ∧ (timers_run ops).2 = [0; 1]%nat ∧
  (timers_run ops).1 !! MkTimerId 5 = Some 2%nat.
Proof.
  intros ops. destruct (timers_one_per_id ops) as (_ & _ & Hn).
  split; [apply Hn; vdecide|]. split; vm_compute; reflexivity.
Defined.
