(* ===== verification/Inbound.v ===== *)
(** [crates/net/src/swarm_runner.rs] and [apps/node/src/runtime.rs]: how messages reach the
    orchestrator, and how the node stops.

    Gossip passes two bounded channels: the swarm task decodes a message and hands it to the
    first ([Net.on_message]), the fan-in task moves it to the second, which timers and the
    orchestrator's own certificates share.  Each [move] is one step of one task, in any
    interleaving ([intake_step]).  A task that waits has no move.

    A channel is a function of the third-party crate: the class [Mpsc] with its laws.  The model
    of the second one keeps the sender task of an event, which the code does not, so that the
    theorems can speak of the events from gossip. *)

From S2P Require Import Prelude Bytes Types Crypto Toy Config Leader Dag Linearize Bullshark.
From S2P Require Import MacroState MacroAgg Slashing MacroFin VertexCert StateMachine.
From S2P Require Import Gf256 Erasure Blob Net Node.
Open Scope list_scope.
Open Scope Z_scope.

(** ** Channels

    [tokio::sync::mpsc] as the code uses it. *)
Class Mpsc (C : Set → Set) := {
  mpsc_channel {A : Set} : nat → C A;
  mpsc_try_send {A : Set} : A → C A → TrySend * C A;
  mpsc_recv {A : Set} : C A → option (A * C A);
  (** the receiver is dropped *)
  mpsc_drop_rx {A : Set} : C A → C A;
  (** the messages not yet received, the capacity, and whether the receiver exists *)
  ch_queue {A : Set} : C A → list A;
  ch_cap {A : Set} : C A → nat;
  ch_open {A : Set} : C A → bool;
}.
(** Its documented behaviour: a bounded queue, first in first out; [recv] gives nothing exactly
    when the queue is empty, and waits or ends then. *)
Class MpscLaws (C : Set → Set) `{Mpsc C} := {
  channel_state (A : Set) (n : nat) :
    ch_queue (mpsc_channel n : C A) = [] ∧ ch_cap (mpsc_channel n : C A) = n ∧
    ch_open (mpsc_channel n : C A) = true;
  try_send_answer {A : Set} (a : A) (c : C A) :
    (mpsc_try_send a c).1 =
      if ch_open c then if (length (ch_queue c) <? ch_cap c)%nat then Sent else Full else Closed;
  try_send_state {A : Set} (a : A) (c c' : C A) : mpsc_try_send a c = (Sent, c') →
    ch_queue c' = ch_queue c ++ [a] ∧ ch_cap c' = ch_cap c ∧ ch_open c' = ch_open c;
  recv_state {A : Set} (a : A) (c c' : C A) : mpsc_recv c = Some (a, c') →
    ch_queue c = a :: ch_queue c' ∧ ch_cap c' = ch_cap c ∧ ch_open c' = ch_open c;
  recv_none {A : Set} (c : C A) : mpsc_recv c = None → ch_queue c = [];
  drop_rx_state {A : Set} (c : C A) :
    ch_queue (mpsc_drop_rx c) = [] ∧ ch_cap (mpsc_drop_rx c) = ch_cap c ∧
    ch_open (mpsc_drop_rx c) = false;
}.

Section channels.
Context `{Mpsc C} {A : Set}.
Definition chan_answer (a : A) (c : C A) : TrySend := (mpsc_try_send a c).1.
Definition chan_push (a : A) (c : C A) : C A := (mpsc_try_send a c).2.
End channels.

(** ** The tasks *)

Definition EVENT_BUFFER : nat := 1024.

(** Who put an event into the orchestrator's channel *)
Inductive Source := FromGossip | FromTimer | FromSelf.
#[global] Instance Source_eq_dec : EqDecision Source.
Proof. solve_decision. Defined.

Record Intake (C : Set → Set) := MkIntake {
  in_chunks : option (C BlobChunk);
  in_swarm : C Event;
  in_events : C (Source * Event)%type;
  in_dropped : nat;
  in_refused : nat;
  in_taken : list (Source * Event);
  swarm_on : bool;
  fan_on : bool;
}.
Arguments MkIntake {_} _ _ _ _ _ _ _ _.
Arguments in_chunks {_} _.
Arguments in_swarm {_} _.
Arguments in_events {_} _.
Arguments in_dropped {_} _.
Arguments in_refused {_} _.
Arguments in_taken {_} _.
Arguments swarm_on {_} _.
Arguments fan_on {_} _.
#[global] Instance Intake_eta {C : Set → Set} : Settable (Intake C) := λ s,
  MkIntake (in_chunks s) (in_swarm s) (in_events s) (in_dropped s) (in_refused s) (in_taken s)
    (swarm_on s) (fan_on s).

(** [blobs]: blob custody is enabled *)
Definition Intake_new `{Mpsc C} (blobs : bool) : Intake C :=
  MkIntake (if blobs then Some (mpsc_channel 1024) else None) (mpsc_channel EVENT_BUFFER)
    (mpsc_channel 1024) 0 0 [] true true.

Inductive move :=
| Mv_message (topic : string) (data : bytes)
| Mv_fan_in
| Mv_timer (id : TimerId)
| Mv_loop_back (cv : CertifiedVertex)
| Mv_take
| Mv_take_chunk
| Mv_custody_stops
| Mv_swarm_stops
| Mv_orchestrator_stops.

Section intake.
Context `{WireCodecs, Mpsc C}.
Abbreviation Intake := (Intake C).

(** The arm [gossipsub::Event::Message] of the swarm task; a closed channel ends the task, and
    its sender with it. *)
Definition swarm_message (topic : string) (data : bytes) (s : Intake) : Intake :=
  let '(handed, on) := on_message ((λ (c : C BlobChunk) (chunk : BlobChunk), chan_answer chunk c) <$> in_chunks s)
                         (λ ev : Event, chan_answer ev (in_swarm s)) topic data in
  let s := match handed with
           | Some (H_chunk chunk) => s <| in_chunks ::= fmap (chan_push (C:=C) chunk) |>
           | Some (H_event ev) => s <| in_swarm ::= chan_push ev |>
           | None => match inbound_message topic data with
                     | Ok (Some _) => if on then s <| in_refused ::= S |> else s
                     | _ => s
                     end
           end in
  s <| swarm_on := on |>.

(** The loop of [runtime.rs] between the two channels: [recv] takes an event, or ends the loop
    when the swarm task is gone. *)
Definition fan_in (s : Intake) : Intake :=
  match mpsc_recv (in_swarm s) with
  | None => if swarm_on s then s else s <| fan_on := false |> <| in_swarm ::= mpsc_drop_rx |>
  | Some (ev, c) =>
      let s := s <| in_swarm := c |> in
      match chan_answer (FromGossip, ev) (in_events s) with
      | Sent => s <| in_events ::= chan_push (FromGossip, ev) |>
      | Full => s <| in_dropped ::= S |>
      | Closed => s <| fan_on := false |> <| in_swarm ::= mpsc_drop_rx |>
      end
  end.

Definition intake_step (m : move) (s : Intake) : Intake :=
  match m with
  | Mv_message topic data => if swarm_on s then swarm_message topic data s else s
  | Mv_fan_in => if fan_on s then fan_in s else s
  | Mv_timer id =>
      match chan_answer (FromTimer, TimerFired id) (in_events s) with
      | Sent => s <| in_events ::= chan_push (FromTimer, TimerFired id) |>
      | _ => s
      end
  | Mv_loop_back cv =>
      match chan_answer (FromSelf, CertifiedVertexReceived cv) (in_events s) with
      | Sent => s <| in_events ::= chan_push (FromSelf, CertifiedVertexReceived cv) |>
      | _ => s
      end
  | Mv_take =>
      match mpsc_recv (in_events s) with
      | Some (e, c) => s <| in_events := c |> <| in_taken ::= λ l, l ++ [e] |>
      | None => s
      end
  | Mv_take_chunk =>
      match in_chunks s ≫= mpsc_recv with
      | Some (_, c) => s <| in_chunks := Some c |>
      | None => s
      end
  | Mv_custody_stops => s <| in_chunks ::= fmap (mpsc_drop_rx (C:=C)) |>
  | Mv_swarm_stops => s <| swarm_on := false |>
  | Mv_orchestrator_stops => s <| in_events ::= mpsc_drop_rx |>
  end.
Definition intake_run (ms : list move) (s : Intake) : Intake := foldl (λ s m, intake_step m s) s ms.

(** The events that the messages of a run decode to, as long as the swarm task runs *)
Definition decoded_by (m : move) (s : Intake) : list Event :=
  match m with
  | Mv_message topic data =>
      if swarm_on s
      then match inbound_message topic data with Ok (Some ev) => [ev] | _ => [] end
      else []
  | _ => []
  end.
Fixpoint decoded (ms : list move) (s : Intake) : list Event :=
  match ms with
  | [] => []
  | m :: ms => decoded_by m s ++ decoded ms (intake_step m s)
  end.
End intake.

(** ** Shutdown

    [run_async] after the signal: it tells the HTTP servers, then awaits the orchestrator, and
    its own variables live until it returns. *)
Inductive Phase := Serving | Draining | Stopped.
#[global] Instance Phase_eq_dec : EqDecision Phase.
Proof. solve_decision. Defined.
Record Life := MkLife { lf_phase : Phase; lf_orch : bool; lf_fan : bool; lf_timers : bool }.
#[global] Instance Life_eta : Settable Life := λ l,
  MkLife (lf_phase l) (lf_orch l) (lf_fan l) (lf_timers l).
Definition Life_new : Life := MkLife Serving true true true.

(** The channel of the orchestrator is closed when all its senders are gone: [events_tx] of
    [run_async], the copies in the bridge (the orchestrator's own), the fan-in and the timers. *)
Definition events_closed (l : Life) : bool :=
  bool_decide (lf_phase l = Stopped) && negb (lf_orch l) && negb (lf_fan l) && negb (lf_timers l).
(** The only sender of [bridge.actions_rx] is the handle that [run_async] keeps. *)
Definition bridge_closed (l : Life) : bool := bool_decide (lf_phase l = Stopped).

Inductive life_move :=
| Lf_signal | Lf_fan_ends | Lf_timers_end
| Lf_orch_recv
| Lf_orch_panics
| Lf_return.
Definition life_step (m : life_move) (l : Life) : Life :=
  match m with
  | Lf_signal => if bool_decide (lf_phase l = Serving) then l <| lf_phase := Draining |> else l
  | Lf_fan_ends => l <| lf_fan := false |>
  | Lf_timers_end => l <| lf_timers := false |>
  | Lf_orch_recv => if events_closed l || bridge_closed l then l <| lf_orch := false |> else l
  | Lf_orch_panics => l <| lf_orch := false |>
  | Lf_return =>
      if bool_decide (lf_phase l = Draining) && negb (lf_orch l)
      then l <| lf_phase := Stopped |> else l
  end.
Definition life_run (ms : list life_move) (l : Life) : Life := foldl (λ l m, life_step m l) l ms.

Definition from_gossip (l : list (Source * Event)) : list Event :=
  omap (λ p : Source * Event, match p.1 with FromGossip => Some p.2 | _ => None end) l.
(** The gossip events taken and under way, oldest first *)
Definition pipeline `{Mpsc C} (s : Intake C) : list Event :=
  from_gossip (in_taken s) ++ from_gossip (ch_queue (in_events s)) ++ ch_queue (in_swarm s).

(** ** The invariant *)
Lemma sublist_full {A} (l k : list A) :
  l `sublist_of` k → (length k ≤ length l)%nat → l = k.
Proof.
  induction 1 as [|x l k _ IH|x l k Hs IH]; cbn; intros Hl; [done|f_equal; apply IH; lia|].
  apply sublist_length in Hs. lia.
Qed.

Section facts.
Context `{WireCodecs, MpscLaws C}.
Abbreviation Intake := (Intake C).
#[local] Arguments pipeline : simpl never.

Lemma from_gossip_app a b : from_gossip (a ++ b) = from_gossip a ++ from_gossip b.
Proof. apply omap_app. Qed.

Definition chan_ok {A : Set} (c : C A) : Prop := (length (ch_queue c) ≤ ch_cap c)%nat.
Lemma chan_push_state {A : Set} (a : A) (c : C A) : chan_answer a c = Sent →
  ch_queue (chan_push a c) = ch_queue c ++ [a] ∧ ch_cap (chan_push a c) = ch_cap c ∧
  ch_open (chan_push a c) = ch_open c ∧ chan_ok (chan_push a c).
Proof.
  intros Ha. pose proof (try_send_answer a c) as Hs. unfold chan_answer in Ha.
  destruct (try_send_state a c (chan_push a c)) as (Hq & Hc & Ho).
  { unfold chan_push. rewrite <- Ha. apply surjective_pairing. }
  split_and!; [done..|]. unfold chan_ok. rewrite Hq, Hc, length_app. cbn. rewrite Ha in Hs.
  destruct (ch_open c); [|done].
  destruct (Nat.ltb_spec (length (ch_queue c)) (ch_cap c)); [lia|done].
Qed.
Lemma chan_recv_ok {A : Set} (a : A) (c c' : C A) : mpsc_recv c = Some (a, c') → chan_ok c →
  ch_queue c = a :: ch_queue c' ∧ ch_cap c' = ch_cap c ∧ ch_open c' = ch_open c ∧ chan_ok c'.
Proof.
  intros (Hq & Hc & Ho)%recv_state. unfold chan_ok. rewrite Hq, Hc. cbn. intros.
  split_and!; [done..|lia].
Qed.
Lemma chan_close_ok {A : Set} (c : C A) : chan_ok (mpsc_drop_rx c).
Proof. unfold chan_ok. destruct (drop_rx_state c) as [-> _]. apply Nat.le_0_l. Qed.
Lemma chan_answer_open {A : Set} (a : A) (c : C A) : chan_answer a c = Closed ↔ ch_open c = false.
Proof. unfold chan_answer. rewrite try_send_answer. destruct (ch_open c); [by case_match|done]. Qed.

(** A message on the topic of blob chunks is no event. *)
Lemma chunk_no_event topic data ev :
  decode_blob_chunk topic data ≠ Ok None → inbound_message topic data ≠ Ok (Some ev).
Proof.
  unfold decode_blob_chunk. case_bool_decide as Ht; [done|]. intros _. unfold inbound_message.
  destruct (Topic.from_wire_name topic) as [[]|]; try done; by destruct Ht.
Qed.

(** What the swarm task does with a message *)
Lemma swarm_message_cases topic data s :
  swarm_on s = true →
  (∃ ev, inbound_message topic data = Ok (Some ev) ∧ swarm_message topic data s =
     match chan_answer ev (in_swarm s) with
     | Sent => s <| in_swarm ::= chan_push ev |>
     | Full => s <| in_refused ::= S |>
     | Closed => s <| swarm_on := false |>
     end) ∨
  (∀ ev, inbound_message topic data ≠ Ok (Some ev)) ∧
  ∃ cs (on : bool), swarm_message topic data s = s <| in_chunks := cs |> <| swarm_on := on |> ∧
    ((∀ c, in_chunks s = Some c → chan_ok c) → ∀ c, cs = Some c → chan_ok c).
Proof.
  intros Hon. destruct s as [cs sw ev dr re tk so fo]. cbn in Hon. subst so.
  unfold swarm_message, on_message. cbn -[chan_push chan_answer].
  pose proof (chunk_no_event topic data) as Hno.
  assert (Hquiet : (∀ ev, inbound_message topic data ≠ Ok (Some ev)) → ∀ on : bool,
    (match inbound_message topic data with
     | Ok (Some _) =>
         if on then MkIntake cs sw ev dr (S re) tk true fo else MkIntake cs sw ev dr re tk true fo
     | _ => MkIntake cs sw ev dr re tk true fo
     end) <| swarm_on := on |> = MkIntake cs sw ev dr re tk on fo).
  { intros Hn on. destruct (inbound_message _ _) as [[e|]| | |]; try done. by destruct (Hn e). }
  destruct (decode_blob_chunk topic data) as [[chunk|]| | |] eqn:Hd.
  2: { destruct (inbound_message topic data) as [[e|]| | |] eqn:Hi;
         [left; exists e; split; [done|]; by destruct (chan_answer e sw)
         |right; split; [done|]; by exists cs, true..]. }
  all: assert (Hn : ∀ x, inbound_message topic data ≠ Ok (Some x)) by (intros x; by apply Hno).
  all: right; split; [done|].
  2-4: exists cs, true; split; [exact (Hquiet Hn true)|done].
  destruct cs as [c|]; cbn -[chan_push chan_answer];
    [|exists None, true; split; [exact (Hquiet Hn true)|done]].
  destruct (chan_answer chunk c) eqn:Ha.
  - exists (Some (chan_push chunk c)), true. split; [done|]. intros _ c' [= <-].
    by apply chan_push_state.
  - exists (Some c), true. split; [exact (Hquiet Hn true)|done].
  - exists (Some c), false. split; [exact (Hquiet Hn false)|done].
Qed.

(** [D]: the events decoded so far *)
Record intake_ok (D : list Event) (s : Intake) : Prop := {
  io_order : pipeline s `sublist_of` D;
  io_swarm : chan_ok (in_swarm s) ∧ ch_cap (in_swarm s) = EVENT_BUFFER;
  io_events : chan_ok (in_events s) ∧ ch_cap (in_events s) = 1024%nat;
  io_chunks c : in_chunks s = Some c → chan_ok c;
  io_count : ch_open (in_events s) = true →
    length D = (length (pipeline s) + in_dropped s + in_refused s)%nat ∧
    (ch_open (in_swarm s) = false → swarm_on s = false);
}.

Lemma chan_new_ok {A : Set} (n : nat) : chan_ok (mpsc_channel n : C A).
Proof. unfold chan_ok. destruct (channel_state A n) as [-> _]. apply Nat.le_0_l. Qed.
Lemma drop_cap {A : Set} (c : C A) n : ch_cap c = n → ch_cap (mpsc_drop_rx c) = n.
Proof. intros <-. apply drop_rx_state. Qed.

Lemma pipeline_new blobs : pipeline (Intake_new (C:=C) blobs) = [].
Proof.
  unfold pipeline. cbn -[EVENT_BUFFER].
  by rewrite !(proj1 (channel_state _ _)).
Qed.
Lemma intake_new_ok blobs : intake_ok [] (Intake_new (C:=C) blobs).
Proof.
  split; [by rewrite pipeline_new| | | |]; cbn -[EVENT_BUFFER Z.to_nat].
  1-2: split; [apply chan_new_ok|apply channel_state].
  - intros c. destruct blobs; [|done]. intros [= <-]. apply chan_new_ok.
  - intros _. rewrite pipeline_new. split; [done|].
    by rewrite (proj2 (proj2 (channel_state _ _))).
Qed.

Lemma pipeline_message ev s :
  chan_answer ev (in_swarm s) = Sent →
  pipeline (s <| in_swarm ::= chan_push ev |>) = pipeline s ++ [ev].
Proof.
  intros [Hq _]%chan_push_state. unfold pipeline. destruct s. cbn in *.
  by rewrite Hq, !app_assoc.
Qed.
(** What enters the second channel, and what is taken from it *)
Lemma pipeline_push src ev s :
  chan_answer (src, ev) (in_events s) = Sent →
  pipeline (s <| in_events ::= chan_push (src, ev) |>) =
  from_gossip (in_taken s) ++ from_gossip (ch_queue (in_events s)) ++
  from_gossip [(src, ev)] ++ ch_queue (in_swarm s).
Proof.
  intros [Hq _]%chan_push_state. unfold pipeline. destruct s. cbn -[from_gossip] in *.
  by rewrite Hq, from_gossip_app, !app_assoc.
Qed.
Lemma pipeline_take e c s :
  mpsc_recv (in_events s) = Some (e, c) →
  pipeline (s <| in_events := c |> <| in_taken ::= λ l, l ++ [e] |>) = pipeline s.
Proof.
  intros [Hq _]%recv_state. unfold pipeline. rewrite Hq.
  destruct s. cbn -[from_gossip]. change (e :: ch_queue c) with ([e] ++ ch_queue c).
  by rewrite !from_gossip_app, !app_assoc.
Qed.

Lemma message_ok topic data D s :
  intake_ok D s → swarm_on s = true →
  intake_ok (D ++ match inbound_message topic data with Ok (Some ev) => [ev] | _ => [] end)
    (swarm_message topic data s).
Proof.
  intros [F1 [F2 F3] F4 F5 F6] Hon.
  destruct (swarm_message_cases topic data s Hon) as [(e & Hi & ->)|(Hi & cs & on & -> & Hcs)].
  - rewrite Hi. destruct (chan_answer e (in_swarm s)) eqn:Ha.
    + pose proof (chan_push_state _ _ Ha) as (_ & Hcap & Hop & Hok).
      split; [|split; [exact Hok|by rewrite <- F3]|done|done|].
      * rewrite pipeline_message by done. by apply sublist_app.
      * intros Ho. destruct (F6 Ho) as [Hc Hs]. rewrite <- Hop in Hs. split; [|exact Hs].
        change (length (D ++ [e]) = (length (pipeline (s <| in_swarm ::= chan_push e |>)) +
          in_dropped s + in_refused s)%nat).
        rewrite pipeline_message, !length_app, Hc by done. cbn. lia.
    + split; [by apply sublist_inserts_r|done|done|done|]. intros Ho. destruct (F6 Ho) as [Hc Hs].
      split; [|done]. change (length (D ++ [e]) =
        (length (pipeline s) + in_dropped s + S (in_refused s))%nat).
      rewrite length_app, Hc. cbn. lia.
    + split; [by apply sublist_inserts_r|done|done|done|]. intros Ho. destruct (F6 Ho) as [Hc Hs].
      apply chan_answer_open in Ha. rewrite (Hs Ha) in Hon. done.
  - assert (match inbound_message topic data with Ok (Some ev) => [ev] | _ => [] end = []) as ->.
    { destruct (inbound_message topic data) as [[e|]| | |]; try done. by destruct (Hi e). }
    rewrite app_nil_r. split; [done|done|done| |].
    + exact (Hcs F5).
    + intros Ho. destruct (F6 Ho) as [Hc Hs]. split; [done|]. intros Hcl.
      rewrite (Hs Hcl) in Hon. done.
Qed.

Lemma fan_in_ok D s : intake_ok D s → fan_on s = true → intake_ok D (fan_in s).
Proof.
  intros HI Hon. pose proof HI as [F1 [F2 F3] [F4 F7] F5 F6]. unfold fan_in.
  destruct (mpsc_recv (in_swarm s)) as [[ev c]|] eqn:Hpop.
  - apply chan_recv_ok in Hpop as (Hq & Hcap & Hop & Hok); [|done].
    set (s1 := s <| in_swarm := c |>).
    assert (Hp : pipeline s = from_gossip (in_taken s) ++ from_gossip (ch_queue (in_events s)) ++
      [ev] ++ ch_queue c) by (unfold pipeline; by rewrite Hq).
    assert (Hp1 : pipeline s1 = from_gossip (in_taken s) ++ from_gossip (ch_queue (in_events s)) ++
      ch_queue c) by done.
    assert (Hsub : pipeline s1 `sublist_of` D).
    { etrans; [|exact F1]. rewrite Hp, Hp1. do 2 (apply sublist_app; [done|]). by apply sublist_inserts_l. }
    rewrite F3 in Hcap. change (in_events s1) with (in_events s).
    destruct (chan_answer (FromGossip, ev) (in_events s)) eqn:Ha.
    + pose proof (chan_push_state _ _ Ha) as (_ & Hcap' & Hop' & Hok').
      split; [|by split|split; [exact Hok'|by rewrite <- F7]|done|].
      * rewrite pipeline_push by done. by rewrite Hp in F1.
      * intros Ho. change (ch_open (chan_push (FromGossip, ev) (in_events s)) = true) in Ho.
        rewrite Hop' in Ho. destruct (F6 Ho) as [Hc Hs]. rewrite <- Hop in Hs. split; [|exact Hs].
        rewrite pipeline_push by done. by rewrite Hp in Hc.
    + split; [done|by split|done|done|]. intros Ho. destruct (F6 Ho) as [Hc Hs].
      rewrite <- Hop in Hs. split; [|exact Hs].
      change (length D = (length (pipeline s1) + S (in_dropped s) + in_refused s)%nat).
      rewrite Hc, Hp, Hp1, !length_app. cbn. lia.
    + apply chan_answer_open in Ha.
      split; [|split; [exact (chan_close_ok _)|exact (drop_cap _ _ Hcap)]|done|done|].
      * etrans; [|exact Hsub]. unfold pipeline. do 2 (apply sublist_app; [done|]).
        change (ch_queue (mpsc_drop_rx c) `sublist_of` ch_queue c).
        rewrite (proj1 (drop_rx_state c)). apply sublist_nil_l.
      * intros Ho. change (ch_open (in_events s) = true) in Ho. by rewrite Ha in Ho.
  - destruct (swarm_on s) eqn:Hs; [exact HI|].
    assert (Hq : ch_queue (in_swarm s) = []).
    { by apply recv_none. }
    assert (Hp : pipeline (s <| fan_on := false |> <| in_swarm ::= mpsc_drop_rx |>) = pipeline s).
    { unfold pipeline. rewrite Hq. f_equal. f_equal. exact (proj1 (drop_rx_state _)). }
    split; [by rewrite Hp|split; [exact (chan_close_ok _)|exact (drop_cap _ _ F3)]|done|done|].
    intros Ho. destruct (F6 Ho) as [Hc _]. by rewrite Hp.
Qed.

Lemma push_other_ok src ev D s :
  intake_ok D s → src ≠ FromGossip → chan_answer (src, ev) (in_events s) = Sent →
  intake_ok D (s <| in_events ::= chan_push (src, ev) |>).
Proof.
  intros [F1 F2 [F4 F7] F5 F6] Hsrc Ha.
  assert (Hp : pipeline (s <| in_events ::= chan_push (src, ev) |>) = pipeline s).
  { rewrite pipeline_push by done. by destruct src. }
  pose proof (chan_push_state _ _ Ha) as (_ & Hcap & Hop & Hok).
  split; [by rewrite Hp|done|split; [exact Hok|by rewrite <- F7]|done|]. intros Ho. rewrite Hp.
  apply F6.
  by rewrite <- Hop.
Qed.

Lemma intake_step_ok m D s : intake_ok D s → intake_ok (D ++ decoded_by m s) (intake_step m s).
Proof.
  intros HI. destruct m as [topic data| |id|cv| | | | |]; cbn [intake_step decoded_by];
    rewrite ?app_nil_r.
  - destruct (swarm_on s) eqn:Hs; [by apply message_ok|by rewrite app_nil_r].
  - destruct (fan_on s) eqn:Hf; [by apply fan_in_ok|done].
  - destruct (chan_answer _ (in_events s)) eqn:Ha; [by apply push_other_ok|done..].
  - destruct (chan_answer _ (in_events s)) eqn:Ha; [by apply push_other_ok|done..].
  - destruct (mpsc_recv (in_events s)) as [[e c]|] eqn:Hpop; [|done].
    pose proof (pipeline_take _ _ _ Hpop) as Hp. destruct HI as [F1 F2 [F4 F7] F5 F6].
    apply chan_recv_ok in Hpop as (Hq & Hcap & Hop & Hok); [|done].
    split; [by rewrite Hp|done|split; [done|change (ch_cap c = 1024%nat); congruence]|done|].
    intros Ho. rewrite Hp. apply F6. change (ch_open c = true) in Ho. by rewrite <- Hop.
  - pose proof HI as [F1 F2 F4 F5 F6]. destruct (in_chunks s) as [c|] eqn:Hc; [|exact HI].
    cbn [mbind option_bind]. destruct (mpsc_recv c) as [[k c']|] eqn:Hpop; [|exact HI].
    apply chan_recv_ok in Hpop as (_ & _ & _ & Hok); [|by apply F5].
    split; [done..| |done]. by intros c'' [= <-].
  - destruct HI as [F1 F2 F4 F5 F6]. split; [done..| |done]. cbn.
    intros c (c0 & _ & ->)%fmap_Some. apply chan_close_ok.
  - destruct HI as [F1 F2 F4 F5 F6]. split; [done..|]. intros Ho. by destruct (F6 Ho).
  - destruct HI as [F1 F2 [F4 F7] F5 F6]. split; [|done|split; [exact (chan_close_ok _)|exact (drop_cap _ _ F7)]|done|].
    + etrans; [|exact F1]. unfold pipeline. apply sublist_app; [done|].
      apply sublist_app; [|done].
      change (from_gossip (ch_queue (mpsc_drop_rx (in_events s))) `sublist_of`
        from_gossip (ch_queue (in_events s))).
      rewrite (proj1 (drop_rx_state (in_events s))). apply sublist_nil_l.
    + intros Ho. change (ch_open (mpsc_drop_rx (in_events s)) = true) in Ho.
      by rewrite (proj2 (proj2 (drop_rx_state (in_events s)))) in Ho.
Qed.

Lemma intake_run_ok ms D s : intake_ok D s → intake_ok (D ++ decoded ms s) (intake_run ms s).
Proof.
  revert D s. induction ms as [|m ms IH]; intros D s HI; cbn; [by rewrite app_nil_r|].
  rewrite app_assoc. by apply IH, intake_step_ok.
Qed.
End facts.

(** ** Properties *)

(** [C31] Messages keep their order and losses are counted.  Over any interleaving of the swarm
    task, the fan-in, the timers, the loop-back, the orchestrator and their ends: the gossip
    events that the orchestrator has taken, followed by those under way, are events that
    messages decoded to, in the order of arrival and without repetition; no channel holds more
    than its capacity; and as long as the orchestrator listens, what is missing is exactly what
    the metric [events_dropped] and the warnings of the swarm task count, so that with neither
    nothing is missing. *)
Theorem intake_in_order `{WireCodecs, MpscLaws C} (blobs : bool) (ms : list move) :
  let s := intake_run ms (Intake_new (C:=C) blobs) in
  let D := decoded ms (Intake_new (C:=C) blobs) in
  pipeline s `sublist_of` D ∧
  (length (ch_queue (in_swarm s)) ≤ EVENT_BUFFER)%nat ∧
  (length (ch_queue (in_events s)) ≤ 1024)%nat ∧
  (ch_open (in_events s) = true →
     length D = (length (pipeline s) + in_dropped s + in_refused s)%nat ∧
     (in_dropped s = 0%nat → in_refused s = 0%nat → pipeline s = D)).
Proof.
  intros s D. destruct (intake_run_ok ms [] (Intake_new blobs) (intake_new_ok blobs))
    as [F1 [F2 F3] [F4 F7] _ F6]. cbn [app] in *. fold s in F1, F2, F3, F4, F7, F6. fold D in F1, F6.
  unfold chan_ok in F2, F4. rewrite F3 in F2. rewrite F7 in F4. split_and!; [done..|].
  intros Ho. destruct (F6 Ho) as [Hc _]. split; [done|]. intros Hd Hr.
  apply sublist_full; [done|lia].
Qed.

(** A channel as a list, as an example *)
Record Chan (A : Set) : Set := MkChan { cn_queue : list A; cn_cap : nat; cn_open : bool }.
Arguments MkChan {_} _ _ _.
Arguments cn_queue {_} _.
Arguments cn_cap {_} _.
Arguments cn_open {_} _.
#[local] Instance toy_mpsc : Mpsc Chan := {
  mpsc_channel A n := MkChan [] n true;
  mpsc_try_send A a c :=
    if cn_open c
    then if (length (cn_queue c) <? cn_cap c)%nat
         then (Sent, MkChan (cn_queue c ++ [a]) (cn_cap c) (cn_open c)) else (Full, c)
    else (Closed, c);
  mpsc_recv A c :=
    match cn_queue c with [] => None | a :: q => Some (a, MkChan q (cn_cap c) (cn_open c)) end;
  mpsc_drop_rx A c := MkChan [] (cn_cap c) false;
  ch_queue A c := cn_queue c;
  ch_cap A c := cn_cap c;
  ch_open A c := cn_open c;
}.
#[local] Instance toy_mpsc_laws : MpscLaws Chan.
Proof.
  split; try done; intros A.
  - intros a [q n o]. cbn. by repeat case_match.
  - intros a [q n o] c'. cbn. repeat case_match; intros [=]; by subst.
  - intros a [[|b q] n o] c'; cbn; intros [=]; by subst.
  - by intros [[] n o].
Qed.

(** Two partial signatures arrive, the first is taken, a timer fires in between. *)
#[local] Existing Instance toy_wire.
Definition toy_arrival : move :=
  Mv_message "lua-dag/v1/bls-partial/300" (to_vec toy_wire_partial).
Definition toy_moves : list move :=
  [toy_arrival; Mv_fan_in; Mv_timer (MkTimerId 0); Mv_take; toy_arrival; Mv_fan_in; Mv_take].

Lemma intake_in_order_witness :
  let s := intake_run toy_moves (Intake_new (C:=Chan) true) in
  in_taken s = [(FromGossip, BlsPartialReceived toy_wire_partial); (FromTimer, TimerFired (MkTimerId 0))] ∧
  pipeline s = decoded toy_moves (Intake_new (C:=Chan) true).
Proof.
  split; [by vm_compute|].
  destruct (intake_in_order (C:=Chan) true toy_moves) as (_ & _ & _ & Hc).
  destruct (Hc ltac:(by vm_compute)) as [_ Hall]. apply Hall; by vm_compute.
Defined.

Lemma life_step_never m l :
  m ≠ Lf_orch_panics → lf_phase l ≠ Stopped ∧ lf_orch l = true →
  lf_phase (life_step m l) ≠ Stopped ∧ lf_orch (life_step m l) = true.
Proof.
  intros Hm [Hp Ho]. destruct l as [[] o f ti]; cbn in *; subst o; [..|done]; by destruct m.
Qed.

(** A node that is told to stop does not: unless the orchestrator panics, it never ends, because
    the runtime that waits for it holds the senders whose end it waits for. *)
Theorem shutdown_never_completes (ms : list life_move) :
  Lf_orch_panics ∉ ms → lf_phase (life_run ms Life_new) ≠ Stopped.
Proof.
  intros Hms. enough (H : ∀ l, lf_phase l ≠ Stopped ∧ lf_orch l = true →
    lf_phase (life_run ms l) ≠ Stopped) by by apply H.
  induction ms as [|m ms IH]; intros l Hl; [by destruct Hl|].
  apply not_elem_of_cons in Hms as [Hm Hms]. by apply IH, life_step_never.
Qed.

Lemma shutdown_never_completes_witness :
  lf_phase (life_run [Lf_signal; Lf_orch_recv; Lf_return] Life_new) ≠ Stopped.
Proof.
  apply shutdown_never_completes.
  by intros [?|[?|[?|?%elem_of_nil]%elem_of_cons]%elem_of_cons]%elem_of_cons.
Defined.
