(* ===== verification/NodeConfig.v ===== *)
(** [apps/node]: configuration and start-up.

    [Value] is the tree of a TOML document; [merge_toml], [merge_layers] and
    [NodeConfig_load] ([config_layers.rs], [config.rs]) build a node's configuration from its
    layers, the environment and the command line, and [run_async] ([runtime.rs]) is what the
    process checks and derives before the main loop starts.  [DevSigner_load_for_label]
    ([signer.rs]) finds the key material.

    The TOML parser, the derived deserializers, the file system and the [hex] crate are the
    classes [Toml], [Files] and [Hex]; [profile_settings] lists the settings of a profile, and
    [TomlLaws] is what is documented of reading them.  A path is the list of its components, which is how
    [std::path] compares paths. *)

From Stdlib Require Import Ascii String.
From stdpp Require Import strings.
From S2P Require Import Prelude Bytes Types Crypto Toy Vrf Config Leader Dag MacroState.
From S2P Require Import MacroAgg.
From S2P Require Import VertexCert StateMachine Storage Persistence Gf256 Erasure Blob Net Node.
Open Scope string_scope.
Open Scope list_scope.
Open Scope Z_scope.

(** ** Strings and paths of the standard library *)

(** [str::split] by one character *)
Fixpoint str_split (sep : ascii) (s : string) : list string :=
  match s with
  | EmptyString => [EmptyString]
  | String c s' =>
      match str_split sep s' with
      | piece :: rest => if bool_decide (c = sep) then EmptyString :: piece :: rest
                         else String c piece :: rest
      | [] => []
      end
  end.

Definition byte (n : nat) : ascii := ascii_of_nat n.

(** The UTF-8 encodings of the characters with the property White_Space *)
Definition white_space : list (list ascii) :=
  ((λ n, [byte n]) <$> [9; 10; 11; 12; 13; 32]%nat) ++
  [[byte 194; byte 133]; [byte 194; byte 160]; [byte 225; byte 154; byte 128]] ++
  ((λ n, [byte 226; byte 128; byte n]) <$>
     [128; 129; 130; 131; 132; 133; 134; 135; 136; 137; 138; 168; 169; 175]%nat) ++
  [[byte 226; byte 129; byte 159]; [byte 227; byte 128; byte 128]].

Fixpoint strip (p l : list ascii) : option (list ascii) :=
  match p, l with
  | [], _ => Some l
  | a :: p, b :: l => if bool_decide (a = b) then strip p l else None
  | _ :: _, [] => None
  end.

(** The first of the patterns that is a prefix, taken off *)
Fixpoint strip_any (ps : list (list ascii)) (l : list ascii) : option (list ascii) :=
  match ps with
  | [] => None
  | p :: ps => match strip p l with Some l' => Some l' | None => strip_any ps l end
  end.

Fixpoint strip_all (fuel : nat) (ps : list (list ascii)) (l : list ascii) : list ascii :=
  match fuel with
  | O => l
  | S fuel => match strip_any ps l with Some l' => strip_all fuel ps l' | None => l end
  end.

(** [str::trim]: white space goes from the front, and, read backwards, from the end.  Every
    step takes a character off, so the length is fuel enough. *)
Definition trim_chars (l : list ascii) : list ascii :=
  let front := strip_all (length l) white_space l in
  rev (strip_all (length front) (@rev ascii <$> white_space) (rev front)).
Definition str_trim (s : string) : string :=
  string_of_list_ascii (trim_chars (list_ascii_of_string s)).

Record PathBuf := MkPath { p_absolute : bool; p_components : list string }.
#[global] Instance PathBuf_eq_dec : EqDecision PathBuf.
Proof. solve_decision. Defined.

Definition drop_cur (cs : list string) : list string := filter (λ c, c ≠ ".") cs.

(** [Path::from]: empty components are skipped, and [.] except in front of a relative path *)
Definition path_from (s : string) : PathBuf :=
  let cs := filter (λ c, c ≠ "") (str_split "/"%char s) in
  match s with
  | String "/"%char _ => MkPath true (drop_cur cs)
  | _ => MkPath false (match cs with c :: cs => c :: drop_cur cs | [] => [] end)
  end.

Definition path_join (p q : PathBuf) : PathBuf :=
  if p_absolute q then q
  else match p_absolute p, p_components p with
       | false, [] => q
       | a, cs => MkPath a (cs ++ drop_cur (p_components q))
       end.

Definition path_parent (p : PathBuf) : option PathBuf :=
  match p_components p with
  | [] => None
  | cs => Some (MkPath (p_absolute p) (removelast cs))
  end.

Definition path_starts_with (p q : PathBuf) : bool :=
  bool_decide (p_absolute p = p_absolute q) &&
  bool_decide (take (length (p_components q)) (p_components p) = p_components q).

(** ** [config_layers.rs] *)

(** [toml::Value]; a table is its entries in the order of the keys, which are distinct. *)
Inductive Value : Type :=
| VString (s : string)
| VInteger (z : Z)
| VFloat (bits : Z)
| VBoolean (b : bool)
| VDatetime (s : string)
| VArray (vs : list Value)
| VTable (fields : list (string * Value)).

Fixpoint tbl_get (k : string) (d : list (string * Value)) : option Value :=
  match d with
  | [] => None
  | (k', v) :: d => if bool_decide (k = k') then Some v else tbl_get k d
  end.

(** Assignment through [get_mut] *)
Fixpoint tbl_set (k : string) (v : Value) (d : list (string * Value)) : list (string * Value) :=
  match d with
  | [] => []
  | (k', v') :: d => if bool_decide (k = k') then (k', v) :: d else (k', v') :: tbl_set k v d
  end.

Fixpoint tbl_insert (k : string) (v : Value) (d : list (string * Value))
    : list (string * Value) :=
  match d with
  | [] => [(k, v)]
  | (k', v') :: d => if String.ltb k k' then (k, v) :: (k', v') :: d
                     else (k', v') :: tbl_insert k v d
  end.

Definition tbl_remove (k : string) (d : list (string * Value)) : list (string * Value) :=
  filter (λ e, e.1 ≠ k) d.

Fixpoint merge_toml (dst src : Value) : Value :=
  match dst, src with
  | VTable d, VTable s =>
      VTable ((fix merge_fields (s d : list (string * Value)) : list (string * Value) :=
        match s with
        | [] => d
        | (k, v) :: s =>
            merge_fields s match tbl_get k d with
                           | Some slot => tbl_set k (merge_toml slot v) d
                           | None => tbl_insert k v d
                           end
        end) s d)
  | _, other => other
  end.

Record StorageConfig := MkStorageConfig {
  sc_path : PathBuf; create_if_missing : bool; max_total_wal_size_mb : Z;
}.
#[global] Instance StorageConfig_eta : Settable StorageConfig := λ c,
  MkStorageConfig (sc_path c) (create_if_missing c) (max_total_wal_size_mb c).
Definition storage_devnet_default : StorageConfig :=
  MkStorageConfig (path_from "./data/rocksdb") true 256.

Record NodeIdentityToml := MkIdentity { id_kind : string; id_label : string }.
#[global] Instance NodeIdentityToml_eta : Settable NodeIdentityToml := λ i,
  MkIdentity (id_kind i) (id_label i).

Record NodeSection := MkNodeSection {
  network_mode : string;
  identity : NodeIdentityToml;
  validator_set_path : PathBuf;
  l3_wire_complete : bool;
  l1_blob_custody_enabled : bool;
  erasure_k : Z;
  erasure_n : Z;
  erasure_data_shard_size_bytes : Z;
}.
#[global] Instance NodeSection_eta : Settable NodeSection := λ n,
  MkNodeSection (network_mode n) (identity n) (validator_set_path n) (l3_wire_complete n)
    (l1_blob_custody_enabled n) (erasure_k n) (erasure_n n) (erasure_data_shard_size_bytes n).

(** The [#[serde(default = ...)]] functions *)
Definition default_network_mode : string := "live".
Definition default_validator_set_path : PathBuf := path_from "config/valsets/devnet-4.toml".
Definition default_erasure_k : Z := 4.
Definition default_erasure_n : Z := 8.
Definition default_erasure_data_shard_size : Z := 32 * 1024.

Record ProfileFile := MkProfileFile {
  pf_node : NodeSection; pf_net : NetConfig; pf_rocksdb : option StorageConfig;
}.
#[global] Instance ProfileFile_eta : Settable ProfileFile := λ p,
  MkProfileFile (pf_node p) (pf_net p) (pf_rocksdb p).
#[global] Instance NetConfig_eta : Settable NetConfig := λ c,
  MkNetConfig (nc_listen c) (nc_bootstrap c) (nc_gossip c) (nc_peers c) (nc_macro_subnet_count c).

Class Files := { path_exists : PathBuf → bool; read_to_string : PathBuf → option string }.
(** The [toml] crate and the derived deserializers; [None] is an error. *)
Class Toml := {
  toml_from_str : string → option Value;
  toml_to_string : Value → option string;
  profile_try_into : Value → option ProfileFile;
  config_from_str : string → option Config;
  valset_from_str : string → option ValidatorSet;
}.

Inductive LoadError :=
| ReadLayer (path : PathBuf)
| ParseLayer (path : PathBuf)
| ProfileSchema
| MergedNotTable
| Reserialize
| ConsensusConfig (e : Error)
| UnknownIdentityKind (kind : string).

Section config_layers.
Context `{Files, Toml}.

Definition profile_path (config_dir : PathBuf) (profile : string) : PathBuf :=
  path_join (path_join config_dir (path_from "profiles")) (path_from (profile +:+ ".toml")).

(** The paths [merge_layers] collects *)
Definition layer_paths (config_dir : PathBuf) (profile : string)
    (extra_overrides : list PathBuf) : list PathBuf :=
  let base := path_join config_dir (path_from "default.toml") in
  let local := path_join config_dir (path_from "local.toml") in
  (if path_exists base then [base] else []) ++
  [profile_path config_dir profile] ++
  (if path_exists local then [local] else []) ++
  extra_overrides.

Definition load_layer (path : PathBuf) : outcome LoadError Value :=
  match read_to_string path with
  | None => Err (ReadLayer path)
  | Some raw => match toml_from_str raw with
                | None => Err (ParseLayer path)
                | Some v => Ok v
                end
  end.

Fixpoint merge_all (acc : Value) (layers : list PathBuf) : outcome LoadError Value :=
  match layers with
  | [] => Ok acc
  | path :: layers => v ← load_layer path; merge_all (merge_toml acc v) layers
  end.

Definition merge_layers (config_dir : PathBuf) (profile : string)
    (extra_overrides : list PathBuf) : outcome LoadError Value :=
  merge_all (VTable []) (layer_paths config_dir profile extra_overrides).

Definition load_layered (config_dir : PathBuf) (profile : string)
    (extra_overrides : list PathBuf) : outcome LoadError ProfileFile :=
  merged ← merge_layers config_dir profile extra_overrides;
  match profile_try_into merged with Some parsed => Ok parsed | None => Err ProfileSchema end.

(** ** [config.rs] *)

(** [Config::from_toml_str] of [crates/consensus]: the version must be the one it knows. *)
Definition from_toml_str (input : string) : result Config :=
  match config_from_str input with
  | None => Err (InvalidConfig "toml")
  | Some cfg =>
      if bool_decide (schema_version cfg ≠ SCHEMA_VERSION)
      then Err (InvalidConfig "unsupported schema_version")
      else Ok cfg
  end.

Definition consensus_config_from_value (merged : Value) : outcome LoadError Config :=
  match merged with
  | VTable table =>
      let table := foldl (λ t key, tbl_remove key t) table ["node"; "net"; "rocksdb"] in
      match toml_to_string (VTable table) with
      | None => Err Reserialize
      | Some s => map_err ConsensusConfig (from_toml_str s)
      end
  | _ => Err MergedNotTable
  end.

(** ** [args.rs] *)

Record Args := MkArgs {
  profile : string;
  config_dir : PathBuf;
  override_configs : list PathBuf;
  identity_label : option string;
  allow_skeleton_network : bool;
  data_dir : option PathBuf;
  arg_admin_listen : string;
  arg_rpc_listen : string;
  health_probe : bool;
}.

Record NodeConfig := MkNodeConfig {
  nd_consensus : Config;
  nd_node : NodeSection;
  nd_net : NetConfig;
  nd_storage : StorageConfig;
  admin_listen : string;
  rpc_listen : string;
}.

(** What the variable [LUA_DAG_BOOTSTRAP_PEERS] says, if anything *)
Definition bootstrap_peers (var : option string) : option (list string) :=
  match var with
  | None => None
  | Some raw =>
      let trimmed := str_trim raw in
      if bool_decide (trimmed = "") then None
      else Some (filter (λ s, s ≠ "") (str_trim <$> str_split ","%char trimmed))
  end.

(** [NodeConfig::load]; [env] is the variable [LUA_DAG_BOOTSTRAP_PEERS]. *)
Definition NodeConfig_load (env : option string) (args : Args) : outcome LoadError NodeConfig :=
  merged ← merge_layers (config_dir args) (profile args) (override_configs args);
  match profile_try_into merged with
  | None => Err ProfileSchema
  | Some pf =>
      consensus_cfg ← consensus_config_from_value merged;
      let pf := match identity_label args with
                | Some label => pf <| pf_node ::= λ n, n <| identity ::= λ i, i <| id_label := label |> |> |>
                | None => pf
                end in
      let pf := match bootstrap_peers env with
                | Some peers => pf <| pf_net ::= λ c, c <| nc_bootstrap := peers |> |>
                | None => pf
                end in
      let kind := id_kind (identity (pf_node pf)) in
      if bool_decide (kind = "devnet_seed") || allow_skeleton_network args then
        let storage_cfg := default storage_devnet_default (pf_rocksdb pf) in
        let storage_cfg := match data_dir args with
                           | Some d => storage_cfg <| sc_path := d |>
                           | None => storage_cfg
                           end in
        Ok (MkNodeConfig consensus_cfg (pf_node pf) (pf_net pf) storage_cfg
              (arg_admin_listen args) (arg_rpc_listen args))
      else Err (UnknownIdentityKind kind)
  end.
End config_layers.

(** ** [devnet_keys.rs] and [signer.rs] *)

Section keys.
Context `{Primitives, Curve, Files, Hex}.

Definition validator_id_from_label (label : string) : ValidatorId :=
  MkValidatorId (h32_bytes (blake3_with_dst dst.DEVNET_PEER_IDENTITY (str_bytes label))).

Definition devnet_vrf_seed (label : string) : bytes :=
  h32_bytes (blake3_with_dst dst.MACRO_PROPOSER_SIG (str_bytes label)).

(** The [expect] is a panic. *)
Definition devnet_validator_entry (label : string) : result ValidatorEntry :=
  match SecretKey_from_ikm (devnet_bls_ikm label) with
  | Ok bls =>
      Ok (MkValidatorEntry (validator_id_from_label label)
            (PublicKey_to_bytes (blst_sk_to_pk bls))
            (MkVrfPubkey (VrfKey_pubkey (VrfKey_from_seed (devnet_vrf_seed label)))) 1
            (MkValidatorIdentity None None None))
  | _ => Panic
  end.

Definition devnet_valset_four : result ValidatorSet :=
  entries ← omap_list devnet_validator_entry devnet_labels;
  Ok (MkValidatorSet 0 entries (foldr Z.add 0 (ve_stake <$> entries))).

Definition decode_ikm (hex : string) : result bytes :=
  match hex_decode (str_trim hex) with
  | None => Err (InvalidConfig "decode LUA_DAG_BLS_KEY hex")
  | Some bytes =>
      if negb (Nat.eqb (length bytes) 32) then Err (InvalidConfig "BLS key must be 32 bytes")
      else Ok bytes
  end.

(** [env_key] is the variable [LUA_DAG_BLS_KEY]. *)
Definition resolve_ikm (env_key : option string) (label : string) (path : option PathBuf)
  : result bytes :=
  match env_key, path with
  | Some hex, _ => decode_ikm hex
  | None, Some p =>
      match read_to_string p with
      | None => Err (InvalidConfig "read signer key")
      | Some raw => decode_ikm (str_trim raw)
      end
  | None, None => Ok (devnet_bls_ikm label)
  end.

Definition vrf_seed_for (env_key : option string) (label : string) (key_file : bool)
    (ikm : bytes) : bytes :=
  if bool_decide (is_Some env_key) || key_file
  then h32_bytes (blake3_with_dst dst.MACRO_PROPOSER_SIG ikm)
  else devnet_vrf_seed label.

Definition build_signer (ikm vrf_seed : bytes) : result DevSigner :=
  match SecretKey_from_ikm ikm with
  | Ok bls =>
      let vrf := VrfKey_from_seed vrf_seed in
      Ok (MkDevSigner _ bls (λ alpha, map_err Crypto (Vrf.vrf_prove vrf alpha)))
  | Panic => Panic
  | NoFuel => NoFuel
  | Err _ => Err (InvalidConfig "invalid dev BLS key material")
  end.

Definition DevSigner_load_for_label (env_key : option string) (label : string)
    (expected_bls : BlsPubkey) (path : option PathBuf) : result DevSigner :=
  ikm ← resolve_ikm env_key label path;
  let vrf_seed := vrf_seed_for env_key label (bool_decide (is_Some path)) ikm in
  signer ← build_signer ikm vrf_seed;
  if bool_decide (PublicKey_to_bytes (blst_sk_to_pk (ds_bls signer)) ≠ expected_bls)
  then Err (InvalidConfig "signer BLS pubkey does not match validator set entry")
  else Ok signer.
End keys.

(** ** [runtime.rs] *)

Definition resolve_valset_path (config_dir path : PathBuf) : PathBuf :=
  if p_absolute path then path
  else if path_starts_with path (path_from "config/") then
    match path_parent config_dir with
    | Some root => path_join root path
    | None => path_join config_dir path
    end
  else path_join config_dir path.

Inductive StartError :=
| LiveNeedsFlag
| ValsetRead (path : PathBuf)
| ValsetParse (path : PathBuf)
| SelfNotInSet (id : ValidatorId)
| HostBundle (e : Error).

(** What [run_async] has derived when the main loop starts; [st_net] is the configuration the
    swarm is spawned with, if it is. *)
Record Started `{Primitives} := MkStarted {
  st_valset : ValidatorSet;
  st_self : ValidatorId;
  st_signer : DevSigner;
  st_net : option NetConfig;
  st_blob : option ErasureConfig;
  st_propose : bool;
}.

Section runtime.
Context `{Primitives, Curve, Files, Toml, Hex}.

Definition blob_custody_config (node : NodeSection) : ErasureConfig :=
  MkErasureConfig (erasure_k node) (erasure_n node) (erasure_data_shard_size_bytes node).

(** [validator_set_loader::load_from_toml] *)
Definition load_from_toml (path : PathBuf) : outcome StartError ValidatorSet :=
  match read_to_string path with
  | None => Err (ValsetRead path)
  | Some raw => match valset_from_str raw with
                | None => Err (ValsetParse path)
                | Some set => Ok set
                end
  end.

Definition live_gate (cfg : NodeConfig) (args : Args) : outcome StartError unit :=
  if bool_decide (network_mode (nd_node cfg) = "live") &&
     negb (allow_skeleton_network args) && negb (l3_wire_complete (nd_node cfg))
  then Err LiveNeedsFlag else Ok tt.

(** The branch on [args.allow_skeleton_network]: the configuration the swarm is spawned with, and
    that of blob custody; none of them in skeleton mode. *)
Definition swarm_plan (cfg : NodeConfig) (args : Args) (set : ValidatorSet)
  : option NetConfig * option ErasureConfig :=
  if allow_skeleton_network args && bool_decide (network_mode (nd_node cfg) ≠ "live")
  then (None, None)
  else
    let net_cfg := nd_net cfg in
    let net_cfg :=
      if bool_decide (nc_macro_subnet_count net_cfg = 0) then
        let n_e := default 0 (u32_try_from (length (vs_entries set))) in
        net_cfg <| nc_macro_subnet_count := ke_u32 (compute_ke (nd_consensus cfg) n_e) |>
      else net_cfg in
    (Some net_cfg,
     if l1_blob_custody_enabled (nd_node cfg) then Some (blob_custody_config (nd_node cfg)) else None).

(** Opening the database, the sockets and the swarm is left out. *)
Definition run_async (env_key : option string) (cfg : NodeConfig) (args : Args)
  : outcome StartError Started :=
  _ ← live_gate cfg args;
  set ← load_from_toml (resolve_valset_path (config_dir args)
                          (validator_set_path (nd_node cfg)));
  let label := id_label (identity (nd_node cfg)) in
  let self_id := validator_id_from_label label in
  match find (λ e, bool_decide (ve_id e = self_id)) (vs_entries set) with
  | None => Err (SelfNotInSet self_id)
  | Some entry =>
      let '(net, blob) := swarm_plan cfg args set in
      signer ← map_err HostBundle
                 (DevSigner_load_for_label env_key label (ve_bls_pubkey entry) None);
      let propose_enabled := bool_decide (is_Some net) in
      Ok (MkStarted _ set self_id signer net blob propose_enabled)
  end.
End runtime.

(** ** Layers *)

(** The value under a path of table keys *)
Fixpoint value_at (path : list string) (v : Value) : option Value :=
  match path, v with
  | [], _ => Some v
  | k :: path, VTable fs => match tbl_get k fs with Some v => value_at path v | None => None end
  | _ :: _, _ => None
  end.

Definition is_table (v : Value) : bool := match v with VTable _ => true | _ => false end.

(** [v] has something else than a table at the path or in front of it. *)
Fixpoint decides (path : list string) (v : Value) : bool :=
  match v, path with
  | VTable fs, k :: path => match tbl_get k fs with Some v => decides path v | None => false end
  | VTable _, [] => false
  | _, _ => true
  end.

(** [v] leaves open what is at the path. *)
Definition silent (path : list string) (v : Value) : Prop :=
  decides path v = false ∧ value_at path v = None.

(** The keys of every table are distinct. *)
Fixpoint keys_distinct (v : Value) : Prop :=
  match v with
  | VTable fs =>
      NoDup fs.*1 ∧ (fix all (fs : list (string * Value)) : Prop :=
                       match fs with [] => True | (_, v) :: fs => keys_distinct v ∧ all fs end) fs
  | _ => True
  end.

Lemma keys_distinct_get fs k v :
  keys_distinct (VTable fs) → tbl_get k fs = Some v → keys_distinct v.
Proof.
  cbn. intros [_ Hall]. induction fs as [|[k' v'] fs IH]; [done|]. cbn.
  destruct Hall as [Hv Hall]. case_bool_decide; [by intros [= <-]|by apply IH].
Qed.

Lemma tbl_get_None k d : tbl_get k d = None ↔ k ∉ d.*1.
Proof.
  induction d as [|[k' v'] d IH]; cbn; [split; [intros _; apply not_elem_of_nil|done]|].
  rewrite elem_of_cons. case_bool_decide; naive_solver.
Qed.

Lemma tbl_get_set k k' v d :
  tbl_get k (tbl_set k' v d) =
    if bool_decide (k = k') then (λ _, v) <$> tbl_get k d else tbl_get k d.
Proof.
  induction d as [|[k1 v1] d IH]; cbn; [by case_bool_decide|].
  destruct (decide (k' = k1)) as [->|Hk'].
  - rewrite bool_decide_true by done. cbn. by destruct (decide (k = k1)) as [->|Hk];
      [rewrite bool_decide_true by done|rewrite bool_decide_false by done].
  - rewrite (bool_decide_false (k' = k1)) by done. cbn. rewrite IH.
    destruct (decide (k = k1)) as [->|Hk]; [|by rewrite bool_decide_false by done].
    by rewrite !bool_decide_true, bool_decide_false by done.
Qed.

Lemma tbl_get_insert k k' v d :
  tbl_get k' d = None →
  tbl_get k (tbl_insert k' v d) = if bool_decide (k = k') then Some v else tbl_get k d.
Proof.
  induction d as [|[k1 v1] d IH]; cbn; [done|].
  destruct (decide (k' = k1)) as [->|Hk1]; [by rewrite bool_decide_true by done|].
  rewrite (bool_decide_false (k' = k1)) by done. intros Hn.
  destruct (String.ltb _ _); cbn; [done|]. rewrite (IH Hn).
  destruct (decide (k = k1)) as [->|Hk]; [|by rewrite bool_decide_false by done].
  by rewrite bool_decide_true, bool_decide_false by done.
Qed.

Definition merge_field (d : list (string * Value)) (e : string * Value)
    : list (string * Value) :=
  match tbl_get e.1 d with
  | Some slot => tbl_set e.1 (merge_toml slot e.2) d
  | None => tbl_insert e.1 e.2 d
  end.

Lemma merge_toml_tables d s :
  merge_toml (VTable d) (VTable s) = VTable (foldl merge_field d s).
Proof.
  cbn. f_equal. revert d. induction s as [|[k v] s IH]; intros d; [done|]. cbn. apply IH.
Qed.

Lemma merge_toml_replaces d s :
  is_table d && is_table s = false → merge_toml d s = s.
Proof. by destruct d, s. Qed.

Lemma tbl_get_merge_field k d e :
  tbl_get k (merge_field d e) =
    if bool_decide (k = e.1)
    then Some (match tbl_get k d with Some slot => merge_toml slot e.2 | None => e.2 end)
    else tbl_get k d.
Proof.
  unfold merge_field. destruct (tbl_get e.1 d) as [slot|] eqn:Hs.
  - rewrite tbl_get_set. case_bool_decide as Hk; [|done]. subst. by rewrite Hs.
  - rewrite tbl_get_insert by done. case_bool_decide as Hk; [|done]. subst. by rewrite Hs.
Qed.

Lemma tbl_get_merge k d s :
  NoDup s.*1 →
  tbl_get k (foldl merge_field d s) =
    match tbl_get k s with
    | Some v => Some (match tbl_get k d with Some slot => merge_toml slot v | None => v end)
    | None => tbl_get k d
    end.
Proof.
  revert d. induction s as [|[k' v] s IH]; intros d; [done|].
  intros [Hn Hd]%NoDup_cons. cbn [foldl tbl_get]. rewrite (IH _ Hd), tbl_get_merge_field. cbn.
  case_bool_decide as Hk; [|done]. subst.
  apply tbl_get_None in Hn. cbn in Hn. by rewrite Hn.
Qed.

(** What a merge does at a path: a layer that decides it wins, one that is silent
    changes nothing, and two tables are merged. *)
Theorem merge_toml_spec (path : list string) (dst src : Value) :
  keys_distinct src →
  value_at path (merge_toml dst src) =
    if decides path src then value_at path src
    else match value_at path src with
         | Some s => Some (match value_at path dst with Some d => merge_toml d s | None => s end)
         | None => value_at path dst
         end.
Proof.
  revert dst src. induction path as [|k path IH]; intros dst src Hsrc.
  { destruct (is_table src) eqn:Hs.
    - by destruct src.
    - rewrite merge_toml_replaces by (by rewrite Hs, andb_false_r). by destruct src. }
  destruct (is_table src) eqn:Hs; cycle 1.
  { rewrite merge_toml_replaces by (by rewrite Hs, andb_false_r). by destruct src. }
  destruct src as [| | | | | |s]; try done. clear Hs.
  destruct (is_table dst) eqn:Hd; cycle 1.
  { rewrite merge_toml_replaces by (by rewrite Hd).
    assert (value_at (k :: path) dst = None) as -> by (by destruct dst).
    cbn. destruct (tbl_get k s) as [v|]; [|done].
    by destruct (decides path v), (value_at path v). }
  destruct dst as [| | | | | |d]; try done.
  rewrite merge_toml_tables. cbn [value_at decides].
  rewrite tbl_get_merge by apply Hsrc.
  destruct (tbl_get k s) as [v|] eqn:Hv; [|done].
  destruct (tbl_get k d) as [slot|].
  - apply IH. by eapply keys_distinct_get.
  - by destruct (decides path v), (value_at path v).
Qed.

Lemma decides_value path v :
  decides path v = false → ∀ x, value_at path v = Some x → is_table x = true.
Proof.
  revert v. induction path as [|k path IH]; intros v Hd x; cbn.
  - intros [= <-]. by destruct v.
  - destruct v; try done. cbn in Hd. destruct (tbl_get k fields); [by apply IH|done].
Qed.

Lemma value_decides path v x :
  value_at path v = Some x → is_table x = false → decides path v = true.
Proof.
  intros Hv Hx. destruct (decides path v) eqn:Hd; [done|].
  by rewrite (decides_value _ _ Hd _ Hv) in Hx.
Qed.

Lemma merge_table_table d s : is_table s = true → is_table (merge_toml d s) = true.
Proof. by destruct d, s. Qed.

Lemma value_at_merge path dst src x :
  keys_distinct src → is_table x = false →
  value_at path (merge_toml dst src) = Some x ↔
    value_at path src = Some x ∨ (silent path src ∧ value_at path dst = Some x).
Proof.
  intros Hsrc Hx. rewrite (merge_toml_spec _ _ _ Hsrc). unfold silent.
  destruct (decides path src) eqn:Hd; [by split; [left|intros [?|[[? _] _]]]|].
  destruct (value_at path src) as [s|] eqn:Hs; [|by split; [right|intros [?|[_ ?]]]].
  pose proof (decides_value _ _ Hd _ Hs) as Ht.
  split; [|intros [[= ->]|[[_ ?] _]]; congruence]. intros [= Hm]. exfalso.
  destruct (value_at path dst) as [d|]; [|congruence].
  by rewrite <- Hm, merge_table_table in Hx.
Qed.

(** Merging a list of layers: the last one that says something about a path wins. *)
Lemma value_at_layers path acc vs x :
  Forall keys_distinct vs → is_table x = false →
  value_at path (foldl merge_toml acc vs) = Some x ↔
    (∃ pre v post, vs = pre ++ v :: post ∧ value_at path v = Some x ∧ Forall (silent path) post) ∨
    (Forall (silent path) vs ∧ value_at path acc = Some x).
Proof.
  intros Hvs Hx. induction vs as [|w vs IH] using rev_ind.
  { cbn. split; [by right|]. intros [([|] & ? & ? & ? & ?)|[_ ?]]; done. }
  apply Forall_app in Hvs as [Hvs Hw]. rewrite Forall_singleton in Hw.
  rewrite foldl_snoc, (value_at_merge _ _ _ _ Hw Hx), (IH Hvs), Forall_app, Forall_singleton.
  split.
  - intros [Hv|[Hs [(pre & v & post & -> & Hv & Hp)|[Ha Hacc]]]].
    + left. exists vs, w, []. done.
    + left. exists pre, v, (post ++ [w]). rewrite <- app_assoc. split; [done|]. split; [done|].
      apply Forall_app. by rewrite Forall_singleton.
    + by right.
  - intros [(pre & v & post & Heq & Hv & Hp)|[[Ha Hs] Hacc]]; [|by right; auto].
    destruct post as [|u post _] using rev_ind.
    + apply app_inj_tail in Heq as [_ ->]. by left.
    + rewrite app_comm_cons, app_assoc in Heq. apply app_inj_tail in Heq as [-> ->].
      apply Forall_app in Hp as [Hp Hu]. rewrite Forall_singleton in Hu.
      right. split; [done|]. left. by exists pre, v, post.
Qed.

(** *** What a profile reads *)

(** A setting of a profile: its path, the value a missing key stands for, if any, and what the
    value under the path must be for the field to be what it is. *)
Definition setting : Type := list string * option Value * (Value → Prop).

Definition is_path (p : PathBuf) (x : Value) : Prop := ∃ s, x = VString s ∧ path_from s = p.
Definition strings (l : list string) : Value := VArray (VString <$> l).

Definition node_settings (n : NodeSection) : list setting :=
  [(["node"; "network_mode"], Some (VString "live"), eq (VString (network_mode n)));
   (["node"; "identity"; "kind"], None, eq (VString (id_kind (identity n))));
   (["node"; "identity"; "label"], None, eq (VString (id_label (identity n))));
   (["node"; "validator_set_path"], Some (VString "config/valsets/devnet-4.toml"),
      is_path (validator_set_path n));
   (["node"; "l3_wire_complete"], Some (VBoolean false), eq (VBoolean (l3_wire_complete n)));
   (["node"; "l1_blob_custody_enabled"], Some (VBoolean false),
      eq (VBoolean (l1_blob_custody_enabled n)));
   (["node"; "erasure_k"], Some (VInteger 4), eq (VInteger (erasure_k n)));
   (["node"; "erasure_n"], Some (VInteger 8), eq (VInteger (erasure_n n)));
   (["node"; "erasure_data_shard_size_bytes"], Some (VInteger 32768),
      eq (VInteger (erasure_data_shard_size_bytes n)))].

Definition net_settings (c : NetConfig) : list setting :=
  [(["net"; "listen"], None, eq (strings (nc_listen c)));
   (["net"; "bootstrap"], None, eq (strings (nc_bootstrap c)));
   (["net"; "gossip"; "heartbeat_ms"], None, eq (VInteger (heartbeat_ms (nc_gossip c))));
   (["net"; "gossip"; "mesh_n"], None, eq (VInteger (mesh_n (nc_gossip c))));
   (["net"; "gossip"; "mesh_n_low"], None, eq (VInteger (mesh_n_low (nc_gossip c))));
   (["net"; "gossip"; "mesh_n_high"], None, eq (VInteger (mesh_n_high (nc_gossip c))));
   (["net"; "peers"; "max_peers"], None, eq (VInteger (max_peers (nc_peers c))));
   (["net"; "peers"; "ban_duration_secs"], None, eq (VInteger (ban_duration_secs (nc_peers c))));
   (["net"; "macro_subnet_count"], Some (VInteger 0), eq (VInteger (nc_macro_subnet_count c)))].

Definition storage_settings (c : StorageConfig) : list setting :=
  [(["rocksdb"; "path"], None, is_path (sc_path c));
   (["rocksdb"; "create_if_missing"], None, eq (VBoolean (create_if_missing c)));
   (["rocksdb"; "max_total_wal_size_mb"], None, eq (VInteger (max_total_wal_size_mb c)))].

Definition profile_settings (pf : ProfileFile) : list setting :=
  node_settings (pf_node pf) ++ net_settings (pf_net pf) ++
  match pf_rocksdb pf with Some c => storage_settings c | None => [] end.

(** The section of a setting is written as a table. *)
Definition in_table (path : list string) (v : Value) : Prop :=
  ∃ fs, value_at (removelast path) v = Some (VTable fs).

(** A setting is what the document says under its path, or what stands for a missing key. *)
Definition reads (v : Value) (st : setting) : Prop :=
  match value_at st.1.1 v with
  | Some x => st.2 x
  | None => ∃ x, st.1.2 = Some x ∧ st.2 x
  end.

(** What is documented of the parser and of the derived deserializers: the keys of a parsed table
    are distinct; a section written as a table is read key by key, with the defaults that
    the structs declare; and the optional section is there exactly when the document has it.
    (A derived deserializer also takes an array for a struct; nothing is said of that.) *)
Class TomlLaws `{Toml} := {
  toml_distinct s v : toml_from_str s = Some v → keys_distinct v;
  profile_reads v pf : profile_try_into v = Some pf →
    Forall (λ st, in_table st.1.1 v → reads v st) (profile_settings pf);
  profile_rocksdb v pf : profile_try_into v = Some pf →
    (pf_rocksdb pf = None ↔ value_at ["rocksdb"] v = None);
}.

Lemma settings_leaves pf :
  Forall (λ st : setting, ∀ x, st.2 x → is_table x = false) (profile_settings pf).
Proof.
  assert (Hp : ∀ p x, is_path p x → is_table x = false) by (by intros p x (s & -> & _)).
  unfold profile_settings. rewrite !Forall_app. destruct (pf_rocksdb pf) as [c|];
    repeat split; repeat constructor; cbn [snd]; first [exact (Hp _)|by intros x <-].
Qed.

Section layers.
Context `{Files, TomlLaws}.

Lemma merge_all_eq acc layers :
  merge_all acc layers =
    vs ← omap_list load_layer layers; Ok (foldl merge_toml acc vs).
Proof.
  revert acc. induction layers as [|path layers IH]; intros acc; [done|]. cbn.
  destruct (load_layer path) as [v| | |]; cbn; [|done..].
  rewrite IH. by destruct (omap_list load_layer layers).
Qed.

Lemma load_layers_total layers :
  match omap_list load_layer layers with Ok _ | Err _ => True | _ => False end.
Proof.
  induction layers as [|p layers IH]; [done|]. cbn. unfold load_layer.
  destruct (read_to_string p); [|done]. destruct (toml_from_str s); [|done]. cbn.
  by destruct (omap_list _ layers).
Qed.

Lemma from_toml_str_version s cfg : from_toml_str s = Ok cfg → schema_version cfg = SCHEMA_VERSION.
Proof.
  unfold from_toml_str. destruct (config_from_str s) as [c|]; [|done].
  destruct (decide (schema_version c = SCHEMA_VERSION)) as [Hv|Hv].
  - rewrite bool_decide_false by auto. by intros [= <-].
  - by rewrite bool_decide_true.
Qed.

Lemma load_layer_distinct path v : load_layer path = Ok v → keys_distinct v.
Proof.
  unfold load_layer. destruct (read_to_string path); [|done].
  destruct (toml_from_str s) eqn:Hv; [|done]. intros [= <-]. by eapply toml_distinct.
Qed.

Lemma load_layers_distinct layers vs :
  omap_list load_layer layers = Ok vs → Forall keys_distinct vs.
Proof.
  revert vs. induction layers as [|p layers IH]; intros vs; cbn; [by intros [= <-]|].
  destruct (load_layer p) as [v| | |] eqn:Hv; cbn; [|done..].
  destruct (omap_list load_layer layers) as [vs'| | |]; cbn; [|done..].
  intros [= <-]. constructor; [by eapply load_layer_distinct|by apply IH].
Qed.

(** [p] is the last of the layers that says something about [path], and it says [x]. *)
Definition from_last_layer (layers : list PathBuf) (path : list string) (x : Value) : Prop :=
  ∃ pre p post v, layers = pre ++ p :: post ∧ load_layer p = Ok v ∧ value_at path v = Some x ∧
    ∀ q, q ∈ post → ∃ w, load_layer q = Ok w ∧ silent path w.

Lemma omap_list_Err {A B E} (f : A → outcome E B) l e :
  omap_list f l = Err e ↔
    ∃ pre a post, l = pre ++ a :: post ∧ (∀ b, b ∈ pre → ∃ c, f b = Ok c) ∧ f a = Err e.
Proof.
  induction l as [|a l IH]; cbn; [split; [done|by intros ([] & ? & ? & ? & _)]|].
  destruct (f a) as [c|e'| |] eqn:Ha; cbn.
  - split.
    + intros Hm. assert (omap_list f l = Err e) as (pre & b & post & -> & Hp & Hb)%IH
        by by destruct (omap_list f l).
      exists (a :: pre), b, post. split; [done|]. split; [|done].
      intros d [->|Hd]%elem_of_cons; [by eauto|by apply Hp].
    + intros ([|a' pre] & b & post & [= -> ->] & Hp & Hb); [congruence|].
      assert (omap_list f (pre ++ b :: post) = Err e) as ->; [|done].
      apply IH. exists pre, b, post. split; [done|]. split; [|done].
      intros d Hd. apply Hp. by right.
  - split.
    + intros [= ->]. exists [], a, l. split; [done|]. split; [by intros ? ?%elem_of_nil|done].
    + intros ([|a' pre] & b & post & [= -> ->] & Hp & Hb); [congruence|].
      destruct (Hp a') as [c Hc]; [by left|congruence].
  - split; [done|]. intros ([|a' pre] & b & post & [= -> ->] & Hp & Hb); [congruence|].
    destruct (Hp a') as [c Hc]; [by left|congruence].
  - split; [done|]. intros ([|a' pre] & b & post & [= -> ->] & Hp & Hb); [congruence|].
    destruct (Hp a') as [c Hc]; [by left|congruence].
Qed.

Lemma from_last_layer_values layers path x vs :
  Forall2 (λ p v, load_layer p = Ok v) layers vs →
  from_last_layer layers path x ↔
    ∃ pre v post, vs = pre ++ v :: post ∧ value_at path v = Some x ∧ Forall (silent path) post.
Proof.
  intros Hall. split.
  - intros (pre & p & post & v & -> & Hv & Hx & Hp).
    apply Forall2_app_inv_l in Hall as (vs1 & vs2 & _ & H2 & ->).
    apply Forall2_cons_inv_l in H2 as (v' & vs' & Hv' & H2 & ->).
    assert (v' = v) as -> by congruence. exists vs1, v, vs'. split; [done|]. split; [done|].
    apply Forall_forall. intros w (i & Hw)%list_elem_of_lookup.
    destruct (Forall2_lookup_r _ _ _ _ _ H2 Hw) as (q & Hq & Hqw).
    destruct (Hp q) as (w' & Hw' & Hs); [by eapply list_elem_of_lookup_2|]. congruence.
  - intros (pre & v & post & -> & Hx & Hp).
    apply Forall2_app_inv_r in Hall as (l1 & l2 & _ & H2 & ->).
    apply Forall2_cons_inv_r in H2 as (p & l2' & Hv & H2 & ->).
    exists l1, p, l2', v. split; [done|]. split; [done|]. split; [done|].
    intros q (i & Hq)%list_elem_of_lookup.
    destruct (Forall2_lookup_l _ _ _ _ _ H2 Hq) as (w & Hw & Hqw).
    exists w. split; [done|]. eapply Forall_lookup_1; done.
Qed.

Lemma merge_layers_setting dir prof extra merged path x :
  merge_layers dir prof extra = Ok merged → is_table x = false →
  value_at path merged = Some x ↔ from_last_layer (layer_paths dir prof extra) path x.
Proof.
  unfold merge_layers. rewrite merge_all_eq.
  intros (vs & Hvs & [= <-])%outcome_bind_Ok Hx.
  rewrite (value_at_layers _ _ _ _ (load_layers_distinct _ _ Hvs) Hx).
  rewrite (from_last_layer_values _ _ _ vs) by by apply omap_list_Ok.
  split; [|by left]. intros [?|[_ Hn]]; [done|]. exfalso.
  destruct path; cbn in Hn; [|done]. by injection Hn as <-.
Qed.

Lemma settings_from_layers dir prof extra merged pf :
  merge_layers dir prof extra = Ok merged → profile_try_into merged = Some pf →
  let layers := layer_paths dir prof extra in
  Forall (λ '(path, dflt, ok), in_table path merged →
    (∃ x, ok x ∧ from_last_layer layers path x) ∨
    (∀ x, is_table x = false → ¬ from_last_layer layers path x) ∧
      ∃ x, dflt = Some x ∧ ok x) (profile_settings pf).
Proof.
  intros Hm Hpf. pose proof (profile_reads _ _ Hpf) as Hr. pose proof (settings_leaves pf) as Hleaf.
  rewrite Forall_forall in Hr, Hleaf. apply Forall_forall. intros [[path dflt] ok] Hin Htab.
  specialize (Hr _ Hin Htab). specialize (Hleaf _ Hin). unfold reads in Hr. cbn [fst snd] in *.
  destruct (value_at path merged) as [x|] eqn:Hx.
  - left. exists x. split; [done|]. apply (merge_layers_setting _ _ _ _ _ _ Hm); auto.
  - right. split; [|done]. intros x Ht Hl. apply (merge_layers_setting _ _ _ _ _ _ Hm Ht) in Hl. congruence.
Qed.

Lemma tbl_get_remove k k' d :
  tbl_get k (tbl_remove k' d) = if bool_decide (k = k') then None else tbl_get k d.
Proof.
  unfold tbl_remove. induction d as [|[k0 v] d IH]; [by case_bool_decide|]. rewrite filter_cons.
  destruct (decide (k0 = k')) as [->|Hne].
  - rewrite decide_False by (intros Hn; by apply Hn). rewrite IH. cbn.
    by destruct (decide (k = k')); [rewrite !bool_decide_true|rewrite !bool_decide_false].
  - rewrite decide_True by done. cbn. rewrite IH. destruct (decide (k = k0)) as [->|Hk].
    + by rewrite bool_decide_true, bool_decide_false.
    + by rewrite (bool_decide_false (k = k0)).
Qed.

Lemma consensus_from_layers dir prof extra merged cc :
  merge_layers dir prof extra = Ok merged → consensus_config_from_value merged = Ok cc →
  let layers := layer_paths dir prof extra in
  schema_version cc = SCHEMA_VERSION ∧
  ∃ doc text, toml_to_string doc = Some text ∧ config_from_str text = Some cc ∧
    ∀ k path x, is_table x = false →
      value_at (k :: path) doc = Some x ↔
        k ∉ ["node"; "net"; "rocksdb"] ∧ from_last_layer layers (k :: path) x.
Proof.
  intros Hm Hcc. unfold consensus_config_from_value in Hcc. destruct merged as [| | | | | |table]; try done.
  destruct (toml_to_string _) as [text|] eqn:Ht; [|done]. apply map_err_Ok in Hcc.
  split; [by eapply from_toml_str_version|]. eexists _, text. split; [exact Ht|]. split.
  { unfold from_toml_str in Hcc. destruct (config_from_str text); [|done]. case_bool_decide; [done|]; by injection Hcc as <-. }
  intros k path x Hx. rewrite <- (merge_layers_setting _ _ _ _ _ _ Hm Hx). cbn [value_at foldl].
  rewrite !tbl_get_remove, !not_elem_of_cons. pose proof (not_elem_of_nil k).
  repeat case_bool_decide; naive_solver.
Qed.
End layers.

(** ** Trimming and splitting *)

Lemma strip_Some p l l' : strip p l = Some l' ↔ l = p ++ l'.
Proof.
  revert l. induction p as [|a p IH]; intros l; cbn; [split; congruence|].
  destruct l as [|b l]; [done|]. case_bool_decide as Hb; [subst; rewrite IH|]; split; congruence.
Qed.

Lemma strip_any_None ps l : strip_any ps l = None ↔ ∀ p l', p ∈ ps → l ≠ p ++ l'.
Proof.
  induction ps as [|p ps IH]; cbn.
  - split; [by intros _ p l' Hp%elem_of_nil|done].
  - destruct (strip p l) as [l'|] eqn:Hp.
    + apply strip_Some in Hp. split; [done|]. intros Hn. by destruct (Hn p l'); [left|].
    + rewrite IH. split; [|intros Hn q l' Hq; apply Hn; by right].
      intros Hn q l' [->|Hq]%elem_of_cons; [|by apply Hn].
      intros Heq%strip_Some. congruence.
Qed.

Lemma strip_any_Some ps l l' : strip_any ps l = Some l' → ∃ p, p ∈ ps ∧ l = p ++ l'.
Proof.
  induction ps as [|p ps IH]; cbn; [done|]. destruct (strip p l) as [l1|] eqn:Hp.
  - intros [= <-]. exists p. split; [by left|by apply strip_Some].
  - intros (q & Hq & Heq)%IH. exists q. split; [by right|done].
Qed.

Lemma strip_all_spec ps fuel l :
  [] ∉ ps → (length l ≤ fuel)%nat →
  (∃ r, l = r ++ strip_all fuel ps l) ∧ strip_any ps (strip_all fuel ps l) = None.
Proof.
  intros Hne. revert l. induction fuel as [|fuel IH]; intros l Hl; cbn.
  - destruct l; cbn in Hl; [|lia]. split; [by exists []|].
    apply strip_any_None. by intros [|] l' Hp.
  - destruct (strip_any ps l) as [l'|] eqn:Hs; [|split; [by exists []|done]].
    apply strip_any_Some in Hs as (p & Hp & ->).
    destruct (IH l') as [[r Hr] Hn].
    { destruct p; [done|]. rewrite length_app in Hl. cbn in Hl. lia. }
    split; [|done]. exists (p ++ r). by rewrite <- app_assoc, <- Hr.
Qed.

(** No white space at either end *)
Definition trimmed (l : list ascii) : Prop :=
  strip_any white_space l = None ∧ strip_any (@rev ascii <$> white_space) (rev l) = None.

Lemma white_space_clean :
  [] ∉ white_space ∧ [] ∉ (@rev ascii <$> white_space) ∧
  Forall (λ p, ","%char ∉ p) white_space ∧ Forall (λ p, ","%char ∉ p) (@rev ascii <$> white_space).
Proof.
  split; [vdecide|]. split; [vdecide|]. split; vdecide.
Qed.

Lemma trim_chars_spec l :
  trimmed (trim_chars l) ∧ ∃ r1 r2, l = r1 ++ trim_chars l ++ r2.
Proof.
  destruct white_space_clean as (H1 & H2 & _).
  unfold trim_chars. cbv zeta. set (front := strip_all (length l) white_space l).
  destruct (strip_all_spec white_space (length l) l) as [[r1 Hr1] Hf]; [done|lia|]. fold front in Hr1, Hf.
  set (back := strip_all (length front) (@rev ascii <$> white_space) (rev front)).
  destruct (strip_all_spec (@rev ascii <$> white_space) (length front) (rev front))
    as [[r2 Hr2] Hb]; [done|rewrite length_rev; lia|]. fold back in Hr2, Hb.
  assert (front = rev back ++ rev r2) as Hfront by by rewrite <- rev_app_distr, <- Hr2, rev_involutive.
  split; [split|].
  - apply strip_any_None. intros p l' Hp Heq. apply strip_any_None with (p:=p) (l':=l' ++ rev r2) in Hf;
      [|done]. by rewrite Hfront, Heq, <- app_assoc in Hf.
  - by rewrite rev_involutive.
  - exists r1, (rev r2). by rewrite <- Hfront.
Qed.

Lemma trimmed_id l : trimmed l → trim_chars l = l.
Proof.
  intros [Hf Hb]. unfold trim_chars. cbv zeta.
  assert (∀ ps k l, strip_any ps l = None → strip_all k ps l = l) as Hs
    by (intros ps [|k] l1 Hn; cbn; [done|by rewrite Hn]).
  by rewrite (Hs _ _ l Hf), (Hs _ _ _ Hb), rev_involutive.
Qed.

Lemma str_trim_id s : str_trim s = s ↔ trimmed (list_ascii_of_string s).
Proof.
  unfold str_trim. split.
  - intros Hs. rewrite <- Hs, list_ascii_of_string_of_list_ascii. apply trim_chars_spec.
  - intros Ht. by rewrite (trimmed_id _ Ht), string_of_list_ascii_of_string.
Qed.

Lemma strip_any_app ps l c r :
  Forall (λ p, c ∉ p) ps → strip_any ps l = None → strip_any ps (l ++ c :: r) = None.
Proof.
  rewrite !strip_any_None. intros Hps Hn p l' Hp Heq.
  rewrite Forall_forall in Hps. specialize (Hps p Hp). specialize (Hn p).
  apply app_eq_inv in Heq as [(k & -> & Hk)|(k & -> & Hk)].
  - by destruct (Hn k Hp).
  - destruct k as [|c' k]; [by destruct (Hn [] Hp); rewrite !app_nil_r|].
    injection Hk as <- _. apply Hps, elem_of_app. right. by left.
Qed.

(** The characters of a string *)
Abbreviation chars := list_ascii_of_string.

Lemma chars_app s t : chars (String.append s t) = chars s ++ chars t.
Proof.
  induction s as [|c s IH]; [done|].
  change (String.append (String c s) t) with (String c (String.append s t)).
  cbn. by rewrite IH.
Qed.

Lemma str_split_ne sep s : str_split sep s ≠ [].
Proof.
  induction s as [|c s IH]; cbn; [done|].
  destruct (str_split sep s); [done|]. by case_bool_decide.
Qed.

Lemma str_split_app sep s t :
  sep ∉ chars s → str_split sep (String.append s (String sep t)) = s :: str_split sep t.
Proof.
  induction s as [|c s IH]; intros Hs;
    [change (String.append "" ?x) with x
    |change (String.append (String c s) ?x) with (String c (String.append s x))];
    cbn in Hs |- *.
  - pose proof (str_split_ne sep t). destruct (str_split sep t); [done|].
    by rewrite bool_decide_true by done.
  - apply not_elem_of_cons in Hs as [Hc Hs]. rewrite (IH Hs).
    by rewrite bool_decide_false by done.
Qed.

Lemma str_split_id sep s : sep ∉ chars s → str_split sep s = [s].
Proof.
  induction s as [|c s IH]; cbn; intros Hs; [done|].
  apply not_elem_of_cons in Hs as [Hc Hs]. rewrite (IH Hs).
  by rewrite bool_decide_false by done.
Qed.

Lemma str_split_pieces sep s : Forall (λ t, sep ∉ chars t) (str_split sep s).
Proof.
  induction s as [|c s IH]; cbn; [repeat constructor; by intros ?%elem_of_nil|].
  destruct (str_split sep s) as [|piece rest]; [done|]. apply Forall_cons in IH as [Hp Hr].
  case_bool_decide as Hc; constructor; try constructor; try done.
  - by intros ?%elem_of_nil.
  - cbn. intros [->|?]%elem_of_cons; done.
Qed.

(** A peer address as the variable can carry it *)
Definition peer_entry (s : string) : Prop := s ≠ "" ∧ ","%char ∉ chars s ∧ str_trim s = s.

Lemma concat_cons sep s t l :
  String.concat sep (s :: t :: l) = String.append s (String.append sep (String.concat sep (t :: l))).
Proof. done. Qed.

Lemma concat_peers l :
  l ≠ [] → Forall peer_entry l →
  str_split ","%char (String.concat "," l) = l ∧ trimmed (chars (String.concat "," l)) ∧
  String.concat "," l ≠ "".
Proof.
  destruct white_space_clean as (_ & _ & Hf & Hb).
  induction l as [|s l IH]; [done|]. intros _ [(Hne & Hc & Ht%str_trim_id) Hl]%Forall_cons.
  destruct l as [|t l].
  { cbn. split; [by apply str_split_id|done]. }
  destruct IH as (IHs & [_ IHb] & _); [done..|].
  rewrite concat_cons. change (String.append "," ?x) with (String ","%char x).
  split; [by rewrite str_split_app, IHs|]. split; [|by destruct s].
  rewrite chars_app. cbn [list_ascii_of_string]. split.
  - by apply strip_any_app; [|apply Ht].
  - rewrite rev_app_distr. cbn [rev]. rewrite <- app_assoc. cbn [app]. by apply strip_any_app.
Qed.

(** The variable [LUA_DAG_BOOTSTRAP_PEERS]: every entry that is read is trimmed, not empty and
    free of commas, and a list of such entries joined by commas is read back as it is. *)
Theorem bootstrap_peers_roundtrip (var : option string) (l : list string) :
  (bootstrap_peers var = Some l → Forall peer_entry l) ∧
  (l ≠ [] → Forall peer_entry l → bootstrap_peers (Some (String.concat "," l)) = Some l).
Proof.
  unfold bootstrap_peers. split.
  - destruct var as [raw|]; [|done]. case_bool_decide; [done|]. intros [= <-].
    apply Forall_forall. intros s [Hne (t & -> & Ht)%list_elem_of_fmap]%list_elem_of_filter.
    split; [done|]. pose proof (str_split_pieces ","%char (str_trim raw)) as Hp.
    rewrite Forall_forall in Hp. specialize (Hp t Ht).
    destruct (trim_chars_spec (chars t)) as [Htr (r1 & r2 & Heq)].
    split; [|apply str_trim_id]; unfold str_trim; rewrite list_ascii_of_string_of_list_ascii; [|done].
    intros Hin. apply Hp. rewrite Heq, !elem_of_app. auto.
  - intros Hne Hl. destruct (concat_peers l Hne Hl) as (Hs & Ht & Hc).
    rewrite (proj2 (str_trim_id _) Ht), bool_decide_false by done. f_equal. rewrite Hs.
    clear -Hl. induction Hl as [|s l (Hne & _ & Ht) _ IH]; [done|]. cbn [fmap list_fmap].
    rewrite Ht, filter_cons_True by done. f_equal. apply IH.
Qed.

(** ** Properties *)

(** [label], [kind] in the tables of a document *)
Abbreviation label_path := ["node"; "identity"; "label"].
Abbreviation kind_path := ["node"; "identity"; "kind"].

(** The layers are merged so that the last one wins: a setting (a value that is not a table)
    has the value of the last layer, in the documented order of the files, that says
    anything about its path, arrays replaced whole; and merging fails exactly when a
    layer cannot be read or parsed, with the error of the first such layer. *)
Theorem merge_layers_last_wins `{Files, TomlLaws} (dir : PathBuf) (prof : string)
    (extra : list PathBuf) (path : list string) (x : Value) :
  is_table x = false →
  match merge_layers dir prof extra with
  | Ok merged =>
      value_at path merged = Some x ↔ from_last_layer (layer_paths dir prof extra) path x
  | Err e => ∃ pre p post, layer_paths dir prof extra = pre ++ p :: post ∧
      (∀ q, q ∈ pre → ∃ v, load_layer q = Ok v) ∧ load_layer p = Err e
  | _ => False
  end.
Proof.
  intros Hx. destruct (merge_layers dir prof extra) as [merged|e| |] eqn:Hm.
  { by apply merge_layers_setting. }
  all: unfold merge_layers in Hm; rewrite merge_all_eq in Hm;
    pose proof (load_layers_total (layer_paths dir prof extra)) as Ht;
    destruct (omap_list load_layer (layer_paths dir prof extra)) eqn:Hl; cbn in Hm; try done.
  apply omap_list_Err. congruence.
Qed.

(** [C33] What a loaded configuration is.  Every setting of the profile ([node], [net] and, when the
    merged document has it, [rocksdb]), in a section written as a table, is the value that the last
    layer to say anything of its path gives it, or, when no layer gives it one, the default its
    struct declares; without [rocksdb] in any layer the storage is the development default.  Of
    these, the command line replaces the label and the storage path, the environment the list of
    bootstrap peers, and nothing else is changed; the two listen addresses are the command line's.
    The consensus configuration is what its parser reads in the merged document without the three
    sections, and has the known schema version.  An identity kind other than [devnet_seed] needs
    the flag. *)
Theorem load_precedence `{Files, TomlLaws} (env : option string) (args : Args)
    (cfg : NodeConfig) :
  NodeConfig_load env args = Ok cfg →
  let layers := layer_paths (config_dir args) (profile args) (override_configs args) in
  ∃ merged pf,
    merge_layers (config_dir args) (profile args) (override_configs args) = Ok merged ∧
    Forall (λ '(path, dflt, ok), in_table path merged →
      (∃ x, ok x ∧ from_last_layer layers path x) ∨
      (∀ x, is_table x = false → ¬ from_last_layer layers path x) ∧
        ∃ x, dflt = Some x ∧ ok x) (profile_settings pf) ∧
    (pf_rocksdb pf = None → ∀ path x, is_table x = false →
       ¬ from_last_layer layers ("rocksdb" :: path) x) ∧
    nd_node cfg =
      (pf_node pf) <| identity ::= λ i, i <| id_label ::= λ l, default l (identity_label args) |> |> ∧
    nd_net cfg = (pf_net pf) <| nc_bootstrap ::= λ l, default l (bootstrap_peers env) |> ∧
    nd_storage cfg =
      (default storage_devnet_default (pf_rocksdb pf)) <| sc_path ::= λ d, default d (data_dir args) |> ∧
    admin_listen cfg = arg_admin_listen args ∧ rpc_listen cfg = arg_rpc_listen args ∧
    (id_kind (identity (nd_node cfg)) = "devnet_seed" ∨ allow_skeleton_network args = true) ∧
    schema_version (nd_consensus cfg) = SCHEMA_VERSION ∧
    ∃ doc text, toml_to_string doc = Some text ∧ config_from_str text = Some (nd_consensus cfg) ∧
      ∀ k path x, is_table x = false →
        value_at (k :: path) doc = Some x ↔
          k ∉ ["node"; "net"; "rocksdb"] ∧ from_last_layer layers (k :: path) x.
Proof.
  unfold NodeConfig_load. intros (merged & Hm & Hl)%outcome_bind_Ok.
  destruct (profile_try_into merged) as [pf|] eqn:Hpf; [|done].
  apply outcome_bind_Ok in Hl as (cc & Hcc & Hl).
  exists merged, pf. split; [done|].
  split; [by apply settings_from_layers|]. split.
  { intros Hn path x Hx. rewrite <- (merge_layers_setting _ _ _ _ _ _ Hm Hx).
    apply (profile_rocksdb _ _ Hpf) in Hn. revert Hn. destruct merged; cbn; [done..|].
    by destruct (tbl_get _ _). }
  apply (consensus_from_layers _ _ _ _ _ Hm) in Hcc as (Hv & Hdoc).
  assert (Hkind : ∀ (b : bool) (k : string), bool_decide (k = "devnet_seed") || b = true →
    k = "devnet_seed" ∨ b = true).
  { intros b k [Hk%bool_decide_eq_true|Hb]%orb_true_iff; auto. }
  destruct pf as [[mode [kd lb] vp l3 l1 k n sz] [] rocks].
  destruct (identity_label args), (bootstrap_peers env), (data_dir args);
    cbn -[bool_decide] in Hl;
    (destruct (bool_decide (kd = "devnet_seed") || allow_skeleton_network args) eqn:Hk; [|done]);
    apply Hkind in Hk; injection Hl as <-; destruct rocks as [[]|]; by split_and!.
Qed.

Lemma DevSigner_key `{Primitives, Curve, Files, Hex} env_key label bls path signer :
  DevSigner_load_for_label env_key label bls path = Ok signer →
  PublicKey_to_bytes (blst_sk_to_pk (ds_bls signer)) = bls.
Proof.
  unfold DevSigner_load_for_label. intros (ikm & _ & (s & _ & Hs)%outcome_bind_Ok)%outcome_bind_Ok.
  destruct (decide (PublicKey_to_bytes (blst_sk_to_pk (ds_bls s)) = bls)) as [Heq|Hne].
  - rewrite bool_decide_false in Hs by auto. by injection Hs as <-.
  - by rewrite bool_decide_true in Hs.
Qed.

(** [C32] What holds when a node's main loop starts.  The node is in the validator set it loaded and
    signs with the key of its entry; in live mode the wiring was declared complete or the
    flag was given; it has a swarm exactly unless the flag was given in another mode, takes
    part in proposing exactly then, and the subnets it subscribes to are those of the
    configuration or, if that says 0, the number the consensus configuration derives
    from the set. *)
Theorem run_async_spec `{Primitives, Curve, Files, Toml, Hex} env_key (cfg : NodeConfig)
    (args : Args) (st : Started) :
  run_async env_key cfg args = Ok st →
  let live := bool_decide (network_mode (nd_node cfg) = "live") in
  load_from_toml (resolve_valset_path (config_dir args) (validator_set_path (nd_node cfg)))
    = Ok (st_valset st) ∧
  st_self st = validator_id_from_label (id_label (identity (nd_node cfg))) ∧
  (∃ e, e ∈ vs_entries (st_valset st) ∧ ve_id e = st_self st ∧
     ve_bls_pubkey e = PublicKey_to_bytes (blst_sk_to_pk (ds_bls (st_signer st)))) ∧
  (live = true → allow_skeleton_network args = true ∨ l3_wire_complete (nd_node cfg) = true) ∧
  (st_net st = None ↔ allow_skeleton_network args = true ∧ live = false) ∧
  st_propose st = bool_decide (is_Some (st_net st)) ∧
  (∀ c, st_blob st = Some c → is_Some (st_net st)) ∧
  ∀ net, st_net st = Some net →
    nc_bootstrap net = nc_bootstrap (nd_net cfg) ∧
    nc_macro_subnet_count net =
      if bool_decide (nc_macro_subnet_count (nd_net cfg) = 0)
      then ke_u32 (compute_ke (nd_consensus cfg)
                     (default 0 (u32_try_from (length (vs_entries (st_valset st))))))
      else nc_macro_subnet_count (nd_net cfg).
Proof.
  unfold run_async. intros (? & Hg & (set & Hset & Hl)%outcome_bind_Ok)%outcome_bind_Ok. cbv zeta.
  destruct (find _ _) as [e|] eqn:Hf; [|done].
  apply find_some in Hf as [Hin Hid]. apply bool_decide_eq_true in Hid.
  destruct (swarm_plan cfg args set) as [net blob] eqn:Hplan.
  apply outcome_bind_Ok in Hl as (signer & Hs%map_err_Ok & [= <-]).
  apply DevSigner_key in Hs. unfold live_gate in Hg. unfold swarm_plan in Hplan.
  cbn [st_valset st_self st_signer st_net st_propose st_blob].
  split; [done|]. split; [done|].
  split; [exists e; by rewrite list_elem_of_In|].
  destruct (decide (network_mode (nd_node cfg) = "live")) as [Hlive|Hlive].
  - rewrite !(bool_decide_true (_ = "live")), (bool_decide_false (_ ≠ "live")), andb_false_r
      in * by auto. cbn in Hg. injection Hplan as <- <-.
    split. { destruct (allow_skeleton_network args), (l3_wire_complete _); naive_solver. }
    split; [naive_solver|]. split; [done|].
    split; [by eexists|]. intros net [= <-]. destruct (nd_net cfg). cbn. by case_bool_decide.
  - rewrite !(bool_decide_false (_ = "live")), (bool_decide_true (_ ≠ "live")), andb_true_r
      in * by auto.
    split; [done|]. destruct (allow_skeleton_network args); injection Hplan as <- <-; [done|].
    split; [naive_solver|]. split; [done|].
    split; [by eexists|]. intros net [= <-]. destruct (nd_net cfg). cbn. by case_bool_decide.
Qed.

(** The key material of the devnet is consistent: if the four labels have distinct
    identifiers, every label finds its entry in the devnet set, and without an
    override its signer loads with the key of that entry. *)
Theorem devnet_signers_load `{Primitives, Curve, Files, Hex} (set : ValidatorSet)
    (label : string) :
  devnet_valset_four = Ok set → label ∈ devnet_labels →
  NoDup (validator_id_from_label <$> devnet_labels) →
  ∃ e signer, list_find (λ e, ve_id e = validator_id_from_label label) (vs_entries set) = Some e ∧
    DevSigner_load_for_label None label (ve_bls_pubkey e.2) None = Ok signer ∧
    PublicKey_to_bytes (blst_sk_to_pk (ds_bls signer)) = ve_bls_pubkey e.2.
Proof.
  unfold devnet_valset_four. intros (entries & He%omap_list_Ok & [= <-])%outcome_bind_Ok Hin Hnd.
  cbn [vs_entries].
  assert (∀ l, Forall2 (λ lb e, devnet_validator_entry lb = Ok e) l entries → label ∈ l →
    NoDup (validator_id_from_label <$> l) →
    ∃ e, list_find (λ e, ve_id e = validator_id_from_label label) entries = Some e ∧
         devnet_validator_entry label = Ok e.2) as Hfind.
  { clear. intros l Hl. induction Hl as [|lb e l entries Hlb _ IH]; [by intros ?%elem_of_nil|].
    cbn. intros Hin [Hn Hnd]%NoDup_cons.
    assert (ve_id e = validator_id_from_label lb) as Hid.
    { unfold devnet_validator_entry in Hlb. destruct (SecretKey_from_ikm _); try done.
      by injection Hlb as <-. }
    rewrite Hid. destruct (decide (validator_id_from_label lb = validator_id_from_label label)) as [Hd|Hd].
    - apply elem_of_cons in Hin as [->|Hin]; [by exists (0%nat, e)|].
      destruct Hn. rewrite Hd. by apply list_elem_of_fmap_2.
    - apply elem_of_cons in Hin as [->|Hin]; [done|].
      destruct (IH Hin Hnd) as (e' & -> & He'). by exists (prod_map S id e'). }
  destruct (Hfind _ He Hin Hnd) as (e & Hf & He'). exists e.
  unfold devnet_validator_entry in He'. unfold DevSigner_load_for_label, build_signer. cbn.
  destruct (SecretKey_from_ikm (devnet_bls_ikm label)) as [bls| | |]; try done.
  injection He' as <-. cbn. rewrite bool_decide_false by auto. eexists. done.
Qed.

(** ** Witnesses *)

(** A configuration directory with all the layers, and a deserializer that reads the fields the
    laws speak of. *)
Definition toy_read_file (p : PathBuf) : option string :=
  match p_components p with
  | ["config"; "default.toml"] => Some "default"
  | ["config"; "profiles"; "devnet.toml"] => Some "profile"
  | ["config"; "local.toml"] => Some "local"
  | ["config"; "valsets"; "devnet-4.toml"] => Some "valset"
  | _ => None
  end.
#[local] Instance toy_files : Files := {|
  path_exists p := bool_decide (is_Some (toy_read_file p)); read_to_string := toy_read_file;
|}.

Definition toy_identity (label : string) : string * Value :=
  ("identity", VTable [("label", VString label)]).
Definition toy_document (s : string) : option Value :=
  if bool_decide (s = "default") then Some (VTable [("schema_version", VInteger 1)])
  else if bool_decide (s = "profile") then
    Some (VTable
      [("net", VTable [("bootstrap", strings ["/dns4/old"]);
                       ("gossip", VTable [("heartbeat_ms", VInteger 700); ("mesh_n", VInteger 8);
                                          ("mesh_n_high", VInteger 12); ("mesh_n_low", VInteger 6)]);
                       ("listen", strings ["/ip4/0.0.0.0/tcp/9000"]);
                       ("peers", VTable [("ban_duration_secs", VInteger 600);
                                         ("max_peers", VInteger 64)])]);
       ("node", VTable [("identity", VTable [("kind", VString "devnet_seed");
                                             ("label", VString "node0")]);
                        ("l1_blob_custody_enabled", VBoolean true);
                        ("l3_wire_complete", VBoolean true);
                        ("network_mode", VString "live")]);
       ("rocksdb", VTable [("create_if_missing", VBoolean true);
                           ("max_total_wal_size_mb", VInteger 128);
                           ("path", VString "/data/rocksdb")])])
  else if bool_decide (s = "local") then
    Some (VTable [("node", VTable [("erasure_k", VInteger 2); toy_identity "node3"])])
  else None.

(** Reading one key, of a table or else of nothing. *)
Definition toy_read {A} (conv : Value → option A) (path : list string) (dflt : option A) (v : Value)
  : option A :=
  match value_at path v with Some x => conv x | None => dflt end.
Definition as_string (x : Value) : option string := match x with VString s => Some s | _ => None end.
Definition as_integer (x : Value) : option Z := match x with VInteger z => Some z | _ => None end.
Definition as_bool (x : Value) : option bool := match x with VBoolean b => Some b | _ => None end.
Definition as_strings (x : Value) : option (list string) :=
  match x with VArray vs => mapM as_string vs | _ => None end.

Definition toy_node (v : Value) : option NodeSection :=
  mode ← toy_read as_string ["node"; "network_mode"] (Some default_network_mode) v;
  kind ← toy_read as_string ["node"; "identity"; "kind"] None v;
  label ← toy_read as_string ["node"; "identity"; "label"] None v;
  valset ← toy_read as_string ["node"; "validator_set_path"] (Some "config/valsets/devnet-4.toml") v;
  l3 ← toy_read as_bool ["node"; "l3_wire_complete"] (Some false) v;
  l1 ← toy_read as_bool ["node"; "l1_blob_custody_enabled"] (Some false) v;
  k ← toy_read as_integer ["node"; "erasure_k"] (Some default_erasure_k) v;
  n ← toy_read as_integer ["node"; "erasure_n"] (Some default_erasure_n) v;
  size ← toy_read as_integer ["node"; "erasure_data_shard_size_bytes"]
           (Some default_erasure_data_shard_size) v;
  Some (MkNodeSection mode (MkIdentity kind label) (path_from valset) l3 l1 k n size).
Definition toy_net (v : Value) : option NetConfig :=
  listen ← toy_read as_strings ["net"; "listen"] None v;
  bootstrap ← toy_read as_strings ["net"; "bootstrap"] None v;
  heartbeat ← toy_read as_integer ["net"; "gossip"; "heartbeat_ms"] None v;
  mesh ← toy_read as_integer ["net"; "gossip"; "mesh_n"] None v;
  low ← toy_read as_integer ["net"; "gossip"; "mesh_n_low"] None v;
  high ← toy_read as_integer ["net"; "gossip"; "mesh_n_high"] None v;
  peers ← toy_read as_integer ["net"; "peers"; "max_peers"] None v;
  ban ← toy_read as_integer ["net"; "peers"; "ban_duration_secs"] None v;
  subnets ← toy_read as_integer ["net"; "macro_subnet_count"] (Some 0) v;
  Some (MkNetConfig listen bootstrap (MkGossipConfig heartbeat mesh low high) (MkPeerConfig peers ban)
          subnets).
Definition toy_storage (v : Value) : option (option StorageConfig) :=
  match value_at ["rocksdb"] v with
  | None => Some None
  | Some _ =>
      path ← toy_read as_string ["rocksdb"; "path"] None v;
      create ← toy_read as_bool ["rocksdb"; "create_if_missing"] None v;
      wal ← toy_read as_integer ["rocksdb"; "max_total_wal_size_mb"] None v;
      Some (Some (MkStorageConfig (path_from path) create wal))
  end.
Definition toy_profile (v : Value) : option ProfileFile :=
  node ← toy_node v; net ← toy_net v; rocks ← toy_storage v; Some (MkProfileFile node net rocks).

Lemma toy_read_required {A} (conv : Value → option A) (ok : Value → Prop) path (a : A) v :
  toy_read conv path None v = Some a → (∀ x, conv x = Some a → ok x) → reads v (path, None, ok).
Proof.
  unfold toy_read, reads. cbn [fst snd]. intros Ha Hof.
  destruct (value_at path v) as [x|]; [by apply Hof|done].
Qed.

Lemma toy_read_default {A} (conv : Value → option A) (ok : Value → Prop) path (a d : A) y v :
  toy_read conv path (Some d) v = Some a → (∀ x, conv x = Some a → ok x) → conv y = Some d →
  reads v (path, Some y, ok).
Proof.
  unfold toy_read, reads. cbn [fst snd]. intros Ha Hof Hd.
  destruct (value_at path v) as [x|]; [by apply Hof|]. exists y. split; [done|].
  apply Hof. congruence.
Qed.

Lemma as_string_Some x s : as_string x = Some s → VString s = x.
Proof. destruct x; try done. by intros [= ->]. Qed.
Lemma as_path_Some x s : as_string x = Some s → is_path (path_from s) x.
Proof. intros <-%as_string_Some. by exists s. Qed.
Lemma as_integer_Some x z : as_integer x = Some z → VInteger z = x.
Proof. destruct x; try done. by intros [= ->]. Qed.
Lemma as_bool_Some x b : as_bool x = Some b → VBoolean b = x.
Proof. destruct x; try done. by intros [= ->]. Qed.
Lemma as_strings_Some x l : as_strings x = Some l → strings l = x.
Proof.
  destruct x as [| | | | |vs|]; try done. cbn. unfold strings. intros Hl%mapM_Some. f_equal.
  induction Hl as [|y s vs l Hy%as_string_Some _ IH]; [done|]. cbn. by rewrite Hy, IH.
Qed.

(** One key at a time. *)
Ltac read_settings :=
  repeat match goal with H : _ ≫= _ = Some _ |- _ => apply bind_Some in H as (? & ? & H) end;
  match goal with H : Some _ = Some _ |- _ => injection H as <- end;
  repeat constructor; intros _; cbn;
  first [ eapply toy_read_required; [eassumption|]
        | eapply toy_read_default; [eassumption| |reflexivity] ];
  auto using as_string_Some, as_path_Some, as_integer_Some, as_bool_Some, as_strings_Some.

Lemma toy_node_reads v n :
  toy_node v = Some n → Forall (λ st, in_table st.1.1 v → reads v st) (node_settings n).
Proof. unfold toy_node. intros Hn. read_settings. Qed.

Lemma toy_net_reads v c :
  toy_net v = Some c → Forall (λ st, in_table st.1.1 v → reads v st) (net_settings c).
Proof. unfold toy_net. intros Hn. read_settings. Qed.

Lemma toy_profile_reads v pf :
  toy_profile v = Some pf → Forall (λ st, in_table st.1.1 v → reads v st) (profile_settings pf).
Proof.
  unfold toy_profile.
  intros (node & Hnode & (net & Hnet & (rocks & Hr & [= <-])%bind_Some)%bind_Some)%bind_Some.
  unfold profile_settings. rewrite !Forall_app. split; [by apply toy_node_reads|].
  split; [by apply toy_net_reads|]. cbn [pf_rocksdb]. unfold toy_storage in Hr.
  destruct (value_at ["rocksdb"] v) as [x|]; [|by injection Hr as <-; constructor].
  destruct rocks as [c|]; [|constructor].
  apply bind_Some in Hr as (path & Hp & (create & Hc & (wal & Hw & [= <-])%bind_Some)%bind_Some).
  repeat constructor; intros _; cbn; (eapply toy_read_required; [eassumption|]);
    auto using as_path_Some, as_integer_Some, as_bool_Some.
Qed.

#[local] Existing Instance toy_curve.
#[local] Instance toy_toml : Toml := {|
  toml_from_str := toy_document; toml_to_string _ := Some ""; profile_try_into := toy_profile;
  config_from_str _ := Some default_table_17_1;
  valset_from_str s := match devnet_valset_four with Ok set => Some set | _ => None end;
|}.
#[local] Instance toy_toml_laws : TomlLaws.
Proof.
  split.
  - intros s v. cbn. unfold toy_document.
    repeat case_bool_decide; intros [= <-]; cbn; repeat split; vdecide.
  - intros v pf. apply toy_profile_reads.
  - intros v pf. cbn [profile_try_into toy_toml]. unfold toy_profile, toy_storage.
    intros (node & _ & (net & _ & (rocks & Hr & [= <-])%bind_Some)%bind_Some)%bind_Some. cbn [pf_rocksdb].
    destruct (value_at ["rocksdb"] v) as [x|] eqn:Hx; [|by injection Hr as <-].
    apply bind_Some in Hr as (path & _ & (create & _ & (wal & _ & [= <-])%bind_Some)%bind_Some). by split.
Qed.
Definition toy_args : Args :=
  MkArgs "devnet" (path_from "config") [] None false (Some (path_from "/data")) "a" "r" false.

Lemma merge_layers_last_wins_witness :
  from_last_layer (layer_paths (path_from "config") "devnet" []) label_path (VString "node3") ∧
  is_ok (merge_layers (path_from "config") "devnet" []) = true.
Proof.
  pose proof (merge_layers_last_wins (path_from "config") "devnet" [] label_path
                (VString "node3") eq_refl) as Hw.
  destruct (merge_layers _ _ _) as [m| | |] eqn:Hm; try (vm_compute in Hm; done).
  split; [|done]. apply Hw. vm_compute in Hm. by injection Hm as <-.
Defined.

Lemma load_precedence_witness :
  ∃ cfg, NodeConfig_load None toy_args = Ok cfg ∧
    nc_bootstrap (nd_net cfg) = ["/dns4/old"] ∧
    nd_storage cfg = MkStorageConfig (path_from "/data") true 128 ∧
    id_label (identity (nd_node cfg)) = "node3" ∧ erasure_k (nd_node cfg) = 2 ∧
    from_last_layer (layer_paths (path_from "config") "devnet" []) ["node"; "erasure_k"] (VInteger 2).
Proof.
  destruct (NodeConfig_load None toy_args) as [cfg| | |] eqn:Hl; try (vm_compute in Hl; done).
  exists cfg. split; [done|].
  pose proof (load_precedence _ _ _ Hl) as (merged & pf & Hm & Hset & _ & Hnode & _).
  assert (Hcfg : nc_bootstrap (nd_net cfg) = ["/dns4/old"] ∧
    nd_storage cfg = MkStorageConfig (path_from "/data") true 128 ∧
    id_label (identity (nd_node cfg)) = "node3" ∧ erasure_k (nd_node cfg) = 2)
    by (vm_compute in Hl; injection Hl as <-; vm_compute; done).
  destruct Hcfg as (Hb & Hs & Hn & Hk). do 4 (split; [done|]).
  assert (Hpk : erasure_k (pf_node pf) = 2) by (rewrite Hnode in Hk; exact Hk).
  apply Forall_app in Hset as [Hset _]. do 6 apply Forall_inv_tail in Hset. apply Forall_inv in Hset.
  destruct Hset as [(x & <- & Hx)|[Hno _]].
  - vm_compute in Hm. injection Hm as <-. eexists. reflexivity.
  - by rewrite Hpk in Hx.
  - exfalso. apply (Hno (VInteger 2)); [done|]. apply (merge_layers_setting _ _ _ _ _ (VInteger 2) Hm eq_refl).
    vm_compute in Hm. injection Hm as <-. reflexivity.
Defined.

Lemma bootstrap_peers_roundtrip_witness :
  bootstrap_peers (Some "/ip4/1.2.3.4/tcp/1,/dns4/x/tcp/2") =
    Some ["/ip4/1.2.3.4/tcp/1"; "/dns4/x/tcp/2"].
Proof.
  apply (proj2 (bootstrap_peers_roundtrip None ["/ip4/1.2.3.4/tcp/1"; "/dns4/x/tcp/2"])); [done|].
  repeat constructor; try done; vdecide.
Defined.

#[local] Instance toy_hex_none : Hex := {| hex_encode _ := ""; hex_decode _ := None |}.

Lemma run_async_spec_witness :
  ∃ cfg st, NodeConfig_load None toy_args = Ok cfg ∧ run_async None cfg toy_args = Ok st ∧
    st_propose st = true ∧ length (vs_entries (st_valset st)) = 4%nat ∧
    ∃ e, e ∈ vs_entries (st_valset st) ∧ ve_id e = st_self st ∧
      ve_bls_pubkey e = PublicKey_to_bytes (blst_sk_to_pk (ds_bls (st_signer st))).
Proof.
  assert (match NodeConfig_load None toy_args with
          | Ok cfg => match run_async None cfg toy_args with
                      | Ok st => st_propose st && (length (vs_entries (st_valset st)) =? 4)%nat
                      | _ => false
                      end
          | _ => false
          end = true) as Hrun by (vm_compute; reflexivity).
  destruct (NodeConfig_load None toy_args) as [cfg| | |]; [|done..].
  destruct (run_async None cfg toy_args) as [st| | |] eqn:Hr; [|done..].
  apply andb_true_iff in Hrun as [Hp Hlen]. exists cfg, st. split; [done|]. split; [done|].
  split; [done|]. split; [by apply Nat.eqb_eq|].
  pose proof (run_async_spec _ _ _ _ Hr) as (_ & _ & He & _). exact He.
Defined.

Lemma devnet_signers_load_witness :
  ∃ set, devnet_valset_four = Ok set ∧
  ∃ e signer, list_find (λ e, ve_id e = validator_id_from_label "node2") (vs_entries set) = Some e ∧
    DevSigner_load_for_label None "node2" (ve_bls_pubkey e.2) None = Ok signer ∧
    PublicKey_to_bytes (blst_sk_to_pk (ds_bls signer)) = ve_bls_pubkey e.2.
Proof.
  destruct devnet_valset_four as [set| | |] eqn:Hs; try (vm_compute in Hs; done).
  exists set. split; [done|]. apply (devnet_signers_load set "node2"); [done|vdecide|vdecide].
Defined.

(** A mode the documentation does not name passes the live gate and still gets a swarm: the
    gate and the skeleton test both compare with ["live"] only. *)
Example unknown_mode_goes_live (cfg : NodeConfig) args :
  network_mode (nd_node cfg) = "Live" → allow_skeleton_network args = false →
  live_gate cfg args = Ok tt.
Proof. intros Hm _. unfold live_gate. by rewrite Hm. Qed.
