(* ===== verification/Rpc.v ===== *)
(** [apps/node/src/rpc_server.rs]: the JSON-RPC server of a node.

    [rpc] answers one request.  [RpcState] is what the handlers share: the live DAG and, in
    [rs_node], the database with the custody of blobs; [rs_custody] tells whether the server was
    given a custody handle.  The HTTP server itself ([serve]) is not modelled.

    Hexadecimal is the class [Hex] with the law [HexLaws]; [real_hex] satisfies it. *)

From stdpp Require Import strings pretty.
From S2P Require Import Prelude Bytes Types Crypto Toy Config Gf256 Erasure Storage Blob BlobNode Persistence.
From S2P Require Import Net Node.
Open Scope Z_scope.

(** ** [serde_json::Value] *)

Inductive Number := PosInt (n : Z) | NegInt (n : Z) | Float (f : f64).

(** The fields of an object have different names. *)
Inductive Json :=
| JNull
| JBool (b : bool)
| JNumber (n : Number)
| JString (s : string)
| JArray (l : list Json)
| JObject (fields : list (string * Json)).

Definition json_nth (v : Json) (i : nat) : option Json :=
  match v with JArray l => l !! i | _ => None end.
Fixpoint field (fields : list (string * Json)) (key : string) : option Json :=
  match fields with
  | [] => None
  | (k, v) :: fields => if bool_decide (k = key) then Some v else field fields key
  end.
Definition json_get (v : Json) (key : string) : option Json :=
  match v with JObject fields => field fields key | _ => None end.
Definition as_u64 (v : Json) : option Z :=
  match v with JNumber (PosInt n) => Some n | _ => None end.
Definition as_str (v : Json) : option string :=
  match v with JString s => Some s | _ => None end.

(** ** The envelopes *)

Record RpcReq := MkRpcReq { rq_jsonrpc : string; rq_method : string; rq_params : Json; rq_id : Json }.
Record RpcResp := MkRpcResp { rr_jsonrpc : string; rr_id : Json; rr_result : Json }.

Record RpcState (D : Type) := MkRpcState {
  rs_node : BlobNode D;
  rs_custody : bool;
  rs_dag : LiveDag;
}.
Arguments MkRpcState {_}.
Arguments rs_node {_}.
Arguments rs_custody {_}.
Arguments rs_dag {_}.

Definition blob_status_wire_name (status : BlobStatus) : string :=
  match status with
  | Accepted => "accepted"
  | SoftConfirmed => "soft_confirmed"
  | Justified => "justified"
  | Finalized => "finalized"
  | EpochFinalized => "epoch_finalized"
  end.

(** [format!("{:?}", qc.mode)] *)
Definition mode_debug (m : AggregationMode) : string :=
  match m with
  | Mode0Flat => "Mode0Flat" | ModeASubnet => "ModeASubnet" | ModeBLeaderless => "ModeBLeaderless"
  end.

Section rpc.
Context `{Build, Primitives, Hex, RocksDb D, Codec StoredChunk, Codec PublishRecord}.
Context `{Codec MicroQc, Codec MacroCheckpoint, Codec MacroQc, !Borsh SlashEvidence}.
Context (cfg : ErasureConfig).

(** What [query] reads *)
Definition persistence_of (s : RpcState D) : RocksPersistence D :=
  RocksPersistence_new (bn_db (rs_node s)).

(** An error is logged, and the answer is [null]. *)
Definition or_null {E A} (r : outcome E A) (f : A → Json) : outcome Error Json :=
  match r with Ok a => Ok (f a) | Err _ => Ok JNull | Panic => Panic | NoFuel => NoFuel end.

(** [format!("0x{}", hex::encode(id))] and its way back *)
Definition hex0x (bs : bytes) : string := "0x" +:+ hex_encode bs.
Definition decode_hex (hex_raw : string) : option bytes :=
  hex_decode (default hex_raw (strip_prefix "0x" hex_raw)).
Definition parse_blob_id (hex_raw : string) : option BlobId :=
  bs ← decode_hex hex_raw;
  if (length bs =? 32)%nat then Some (MkBlobId bs) else None.

Definition rpc_latest_finalized (s : RpcState D) : outcome Error Json :=
  or_null (latest_finalized (persistence_of s)) (λ o,
    match o with
    | Some qc => JObject [("checkpoint_hash", JString (hex_encode (h32_bytes (qc_checkpoint_hash qc))));
                          ("mode", JString (mode_debug (qc_mode qc)))]
    | None => JNull
    end).

Definition rpc_macro_checkpoint_at (s : RpcState D) (params : Json) : outcome Error Json :=
  match json_nth params 0 ≫= as_u64 with
  | None => Ok JNull
  | Some height =>
      or_null (macro_checkpoint_at (persistence_of s) height) (λ o,
        match o with
        | Some cp => JObject [("height", JNumber (PosInt height));
                              ("checkpoint_borsh_hex", JString (hex_encode (to_vec cp)))]
        | None => JNull
        end)
  end.

Definition blob_status_at (s : RpcState D) (params : Json) : outcome Error Json :=
  match (json_nth params 0 ≫= as_str) ≫= parse_blob_id with
  | None => Ok JNull
  | Some blob =>
      or_null (blob_status (persistence_of s) blob) (λ status,
        JObject [("blob_id", JString (hex0x (bid_bytes blob)));
                 ("status", JString (blob_status_wire_name status));
                 ("locally_available",
                   if rs_custody s then JBool (node_is_available blob (rs_node s)) else JNull)])
  end.

Definition submit_blob (params : Json) (s : RpcState D) : outcome Error Json * RpcState D :=
  if negb (rs_custody s) then (Ok JNull, s)
  else
    match (json_get params "payload_hex" ≫= as_str) ≫= decode_hex with
    | None => (Ok JNull, s)
    | Some payload =>
        let size_bytes := Z.of_nat (length payload) in
        match max_payload_bytes cfg with
        | Ok max =>
            if max <? size_bytes
            then (Ok (JObject [("error", JString ("payload exceeds max blob size ("
                                                   +:+ pretty max +:+ " bytes)"))]), s)
            else
              let '(r, node) := publish_payload cfg (bytes_shard payload) (rs_node s) in
              (or_null r (λ blob_id,
                 JObject [("blob_id", JString (hex0x (bid_bytes blob_id)));
                          ("chunk_count", JNumber (PosInt (ec_n cfg)))]),
               MkRpcState node (rs_custody s) (rs_dag s))
        | Err e => (Err e, s)
        | Panic => (Panic, s)
        | NoFuel => (NoFuel, s)
        end
    end.

Definition causal_set (s : RpcState D) (params : Json) : outcome Error Json :=
  let from := default 0 (json_get params "from" ≫= as_u64) in
  let to := default from (json_get params "to" ≫= as_u64) in
  Ok (JObject [("hashes", JArray ((λ h, JString (hex0x (h32_bytes h))) <$>
                                    certified_hashes_in_range (rs_dag s) from to))]).

Definition list_blob_chunks (s : RpcState D) (params : Json) : outcome Error Json :=
  if negb (rs_custody s) then Ok JNull
  else
    match (json_get params "blob_id" ≫= as_str) ≫= parse_blob_id with
    | None => Ok JNull
    | Some blob_id =>
        or_null (list_chunk_refs (bn_db (rs_node s)) blob_id) (λ chunks,
          JObject [("chunks", JArray ((λ c, JObject [("index", JNumber (PosInt c.2))]) <$> chunks))])
    end.

(** The handler of a request *)
Definition rpc (req : RpcReq) (s : RpcState D) : outcome Error RpcResp * RpcState D :=
  let '(result, s') :=
    if bool_decide (rq_method req = "lua_getLatestFinalized") then (rpc_latest_finalized s, s)
    else if bool_decide (rq_method req = "lua_getMacroCheckpointAt")
    then (rpc_macro_checkpoint_at s (rq_params req), s)
    else if bool_decide (rq_method req = "lua_getBlobStatus") then (blob_status_at s (rq_params req), s)
    else if bool_decide (rq_method req = "lua_submitBlob") then submit_blob (rq_params req) s
    else if bool_decide (rq_method req = "lua_getCausalSet") then (causal_set s (rq_params req), s)
    else if bool_decide (rq_method req = "lua_listBlobChunks")
    then (list_blob_chunks s (rq_params req), s)
    else (Ok JNull, s) in
  (r ← result; Ok (MkRpcResp "2.0" (rq_id req) r), s').
End rpc.

(** ** What a client can rely on *)

Class HexLaws `{Hex} := hex_roundtrip bs : bytes_ok bs → hex_decode (hex_encode bs) = Some bs.

Section laws.
Context `{Build, HexLaws, Primitives, RocksLaws D, Codec StoredChunk, PublishCodecLaws}.
Context `{Codec MicroQc, Codec MacroCheckpoint, Codec MacroQc, !Borsh SlashEvidence}.
Context (cfg : ErasureConfig).

Lemma decode_hex0x bs : bytes_ok bs → decode_hex (hex0x bs) = Some bs.
Proof. intros Hb. unfold decode_hex, hex0x. rewrite strip_prefix_app. by apply hex_roundtrip. Qed.

Lemma parse_hex0x bs :
  bytes_ok bs → length bs = 32%nat → parse_blob_id (hex0x bs) = Some (MkBlobId bs).
Proof.
  intros Hb Hl. unfold parse_blob_id. rewrite decode_hex0x by done. cbn. by rewrite Hl.
Qed.

Lemma bytes_shard_bytes bs : bytes_ok bs → shard_bytes (bytes_shard bs) = bs.
Proof.
  intros Hb. unfold shard_bytes, bytes_shard. rewrite <- list_fmap_compose.
  induction Hb as [|b bs Hb _ IH]; [done|]. cbn. rewrite IH. f_equal.
  rewrite to_u8_of. destruct Hb. rewrite N2Z.inj_mod, Z2N.id by lia. by rewrite Z.mod_small.
Qed.

Lemma join_if {A B} (P : A → Prop) `{!∀ a, Decision (P a)} (f : A → B) (l : list A) :
  mjoin ((λ a, if bool_decide (P a) then [f a] else []) <$> l) = f <$> filter P l.
Proof.
  induction l as [|a l IH]; [done|]. rewrite fmap_cons, filter_cons.
  etrans; [apply (f_equal (app _)), IH|].
  destruct (decide (P a)); [by rewrite bool_decide_true|by rewrite bool_decide_false].
Qed.

Lemma list_chunk_refs_run (db : D) id :
  reads_ok db →
  list_chunk_refs db id =
    Ok ((λ i, (id, i)) <$> filter (λ i, has_chunk db id i = Ok true) (seqZ 0 64)).
Proof.
  intros [Hr _]. unfold list_chunk_refs.
  assert (∀ l, omap_list (λ index, has_chunk db id index ≫= λ b : bool,
                 Ok (if b then [(id, index)] else [])) l =
    Ok ((λ i, if bool_decide (has_chunk db id i = Ok true) then [(id, i)] else []) <$> l)) as Hl.
  { induction l as [|i l IH]; [done|]. cbn [omap_list]. rewrite IH.
    assert (is_ok (has_chunk db id i) = true) as [b Hb]%is_ok_true.
    { unfold has_chunk, blob_chunk_store.has.
      specialize (Hr CF_BlobChunk (keys.blob_chunk id i)). apply is_ok_true in Hr as [o Ho]. by rewrite Ho. }
    cbn [fmap list_fmap]. rewrite Hb. ocbn.
    destruct b; [by rewrite bool_decide_true|by rewrite bool_decide_false]. }
  rewrite Hl. ocbn. f_equal. apply join_if.
Qed.

(** *** Reads answer *)

Lemma bind_answered {E A B} (r : outcome E A) (f : A → outcome E B) :
  answered r → (∀ a, answered (f a)) → answered (r ≫= f).
Proof. intros Hr Hf. destruct r; [apply Hf|done..]. Qed.
Lemma map_err_answered {E E' A} (f : E → E') (r : outcome E A) : answered r → answered (map_err f r).
Proof. by destruct r. Qed.
Lemma get_raw_answered (db : D) cf key : answered (get_raw db cf key).
Proof.
  unfold get_raw, db_cf. destruct (cf_handle db (cf_name cf)); [|done]. ocbn. by destruct (get_cf _ _ _).
Qed.
Lemma get_row_answered `{Codec T} (db : D) cf key : answered (get_row (T:=T) db cf key).
Proof.
  apply bind_answered; [apply get_raw_answered|]. intros [bs|]; [|done]. by destruct (from_slice bs).
Qed.
Lemma or_null_answered {E A} (r : outcome E A) f : answered r → ∃ v, or_null r f = Ok v.
Proof. destruct r; try done; intros _; by eexists. Qed.

Lemma finalized_scan_answered (p : RocksPersistence D) hs best : answered (finalized_scan p hs best).
Proof.
  revert best. induction hs as [|h hs IH]; intros best; [done|]. cbn [finalized_scan].
  apply bind_answered; [apply map_err_answered, get_row_answered|]. intros [cp|]; [|apply IH].
  apply bind_answered; [apply map_err_answered, get_row_answered|]. intros [qc|]; apply IH.
Qed.
Lemma list_chunk_refs_answered (db : D) id : answered (list_chunk_refs db id).
Proof.
  unfold list_chunk_refs. apply bind_answered; [|done]. generalize (seqZ 0 64). intros l.
  induction l as [|i l IH]; [done|]. cbn [omap_list]. apply bind_answered; [|intros b].
  - apply bind_answered; [|done]. apply bind_answered; [apply get_raw_answered|done].
  - by apply bind_answered.
Qed.

Lemma reads_answer req (s : RpcState D) :
  rq_method req ≠ "lua_submitBlob" → ∃ v, rpc cfg req s = (Ok (MkRpcResp "2.0" (rq_id req) v), s).
Proof.
  intros Hm. unfold rpc. rewrite (bool_decide_false (rq_method req = "lua_submitBlob")) by done.
  assert (∀ r : outcome Error Json, (∃ v, r = Ok v) →
    ∃ v, (r' ← r; Ok (MkRpcResp "2.0" (rq_id req) r'), s) = (Ok (MkRpcResp "2.0" (rq_id req) v), s))
    as Hok by (intros r [v ->]; by exists v).
  repeat case_bool_decide; apply Hok.
  - apply or_null_answered, bind_answered; [apply finalized_scan_answered|done].
  - unfold rpc_macro_checkpoint_at. destruct (_ ≫= as_u64); [|by eexists].
    apply or_null_answered, map_err_answered, get_row_answered.
  - unfold blob_status_at. destruct (_ ≫= parse_blob_id); [|by eexists].
    apply or_null_answered, bind_answered; [apply map_err_answered, status_get_answered|done].
  - by eexists.
  - unfold list_blob_chunks. destruct (negb _); [by eexists|].
    destruct (_ ≫= parse_blob_id); [|by eexists]. apply or_null_answered, list_chunk_refs_answered.
  - by eexists.
Qed.

(** The read methods never fail and never write: whatever the method, the parameters and the
    state of the database, every request but [lua_submitBlob] is answered, with the id of the
    request, and leaves the node as it was; and a checkpoint that is stored is answered in a form
    that decodes back to it. *)
Theorem rpc_reads req (s : RpcState D) :
  rq_method req ≠ "lua_submitBlob" →
  (∃ v, rpc cfg req s = (Ok (MkRpcResp "2.0" (rq_id req) v), s)) ∧
  ∀ h cp, rq_method req = "lua_getMacroCheckpointAt" → json_nth (rq_params req) 0 ≫= as_u64 = Some h →
    macro_checkpoint_at (persistence_of s) h = Ok (Some cp) → encodable cp → bytes_ok (to_vec cp) →
    ∃ v x bs, (rpc cfg req s).1 = Ok (MkRpcResp "2.0" (rq_id req) v) ∧
      json_get v "height" = Some (JNumber (PosInt h)) ∧
      json_get v "checkpoint_borsh_hex" = Some (JString x) ∧
      hex_decode x = Some bs ∧ from_slice bs = Some cp.
Proof.
  intros Hm. split; [by apply reads_answer|]. intros h cp Hget Hh Hcp Henc Hb.
  unfold rpc. rewrite Hget. cbn [bool_decide decide_rel]. unfold rpc_macro_checkpoint_at.
  rewrite Hh, Hcp. eexists _, _, _. split; [reflexivity|]. split; [reflexivity|].
  split; [reflexivity|]. split; [by apply hex_roundtrip|exact Henc].
Qed.

(** [C27] What a client of the RPC can rely on.  If [lua_submitBlob] answers with a [blob_id],
    the payload was within the advertised capacity, the id is the hash of the payload, and
    the string parses back to it: [lua_getBlobStatus] asked with that very string answers with
    the stored status of that blob and whether it is available, and, as long as the database can
    be read, [lua_listBlobChunks] lists every index below [min(n, 64)].  This holds after any
    earlier publications, gossip and restarts. *)
Theorem submit_then_read (db : D) ops (s s' : RpcState D) params hex_raw payload v x :
  valid_cfg cfg → (∀ x, length (h32_bytes (blake3 x)) = 32%nat ∧ bytes_ok (h32_bytes (blake3 x))) →
  no_publish_rows db → rs_node s = node_after cfg db ops →
  json_get params "payload_hex" ≫= as_str = Some hex_raw → decode_hex hex_raw = Some payload →
  bytes_ok payload →
  submit_blob cfg params s = (Ok v, s') → json_get v "blob_id" = Some (JString x) →
  let id := MkBlobId (h32_bytes (blake3_with_dst dst.BLOB_ID payload)) in
  x = hex0x (bid_bytes id) ∧ Z.of_nat (length payload) ≤ ec_k cfg * ec_data_shard_size cfg ∧
  (∀ status, blob_status (persistence_of s') id = Ok status →
     blob_status_at s' (JArray [JString x]) =
       Ok (JObject [("blob_id", JString x); ("status", JString (blob_status_wire_name status));
                    ("locally_available", JBool (node_is_available id (rs_node s')))])) ∧
  (reads_ok (bn_db (rs_node s')) →
     ∃ indices, list_blob_chunks s' (JObject [("blob_id", JString x)]) =
       Ok (JObject [("chunks", JArray ((λ i, JObject [("index", JNumber (PosInt i))]) <$> indices))]) ∧
     ∀ i, 0 ≤ i < Z.min (ec_n cfg) 64 → i ∈ indices).
Proof.
  intros Hcfg Hd Hfresh Hnode Hhex Hdec Hb Hrun Hx id.
  unfold submit_blob in Hrun. destruct (rs_custody s) eqn:Hcust; cbn [negb] in Hrun; cycle 1.
  { injection Hrun as <- <-. done. }
  rewrite Hhex in Hrun. cbn [mbind option_bind] in Hrun. rewrite Hdec in Hrun.
  unfold max_payload_bytes in Hrun. rewrite (valid_padded_len _ Hcfg) in Hrun.
  destruct (Z.ltb_spec (ec_k cfg * ec_data_shard_size cfg) (length payload)) as [Hlt|Hle].
  { by injection Hrun as <- <-. }
  pose proof (node_after_inv cfg db ops Hcfg Hd Hfresh) as Hinv.
  pose proof (publish_payload_inv cfg Hcfg Hd (bytes_shard payload) _ Hinv) as Hpub.
  unfold wp in Hpub. rewrite Hnode in Hrun.
  destruct (publish_payload cfg (bytes_shard payload) _) as [r node]. cbn [fst snd] in Hpub.
  injection Hrun as Hv <-. destruct r as [id'|e| |]; cbn in Hv; try done; injection Hv as <-; [|done].
  destruct Hpub as [Hinv' Hid]. destruct (Hid id' eq_refl) as [-> (record & Hrid & _ & Hready & _)].
  unfold blob_id_from_payload in *. rewrite bytes_shard_bytes in * by done. fold id in Hrid, Hready, Hx.
  cbn [json_get field] in Hx. rewrite bool_decide_true in Hx by done. injection Hx as Hx.
  change (hex0x (bid_bytes id) = x) in Hx.
  destruct (Hd (dst.BLOB_ID ++ [0] ++ payload)) as [Hl32 Hok].
  assert (Hparse : parse_blob_id x = Some id) by (rewrite <- Hx; by apply parse_hex0x).
  split; [done|]. split; [done|]. clearbody id. split.
  - intros status Hst. unfold blob_status_at. cbn. rewrite Hparse, Hst. cbn. by rewrite Hx.
  - intros Hreads. eexists. unfold list_blob_chunks.
    cbn [rs_custody negb json_get field]. rewrite bool_decide_true by done.
    cbn [mbind option_bind as_str]. rewrite Hparse, list_chunk_refs_run by done. cbn [or_null].
    rewrite <- list_fmap_compose. split; [reflexivity|].
    intros i Hi. apply list_elem_of_filter. split; [|apply elem_of_seqZ; lia].
    apply has_chunk_true; [done|]. rewrite <- Hrid. apply (di_chunks _ _ (ni_db _ _ Hinv') _ _ _ Hready). lia.
Qed.
End laws.

(** ** Witnesses *)

(** Lower-case hexadecimal *)
Definition hex_digit (n : Z) : Ascii.ascii :=
  Ascii.ascii_of_N (Z.to_N (if n <? 10 then 48 + n else 87 + n)).
Definition hex_value (a : Ascii.ascii) : option Z :=
  let n := Z.of_N (Ascii.N_of_ascii a) in
  if (48 <=? n) && (n <=? 57) then Some (n - 48)
  else if (97 <=? n) && (n <=? 102) then Some (n - 87)
  else if (65 <=? n) && (n <=? 70) then Some (n - 55) else None.
Fixpoint hex_print (bs : bytes) : string :=
  match bs with
  | [] => EmptyString
  | b :: bs => String (hex_digit (b / 16)) (String (hex_digit (b `mod` 16)) (hex_print bs))
  end.
Fixpoint hex_parse (s : string) : option bytes :=
  match s with
  | EmptyString => Some []
  | String a (String b s) => x ← hex_value a; y ← hex_value b; bs ← hex_parse s; Some (16 * x + y :: bs)
  | String _ EmptyString => None
  end.
#[local] Instance real_hex : Hex := {| hex_encode := hex_print; hex_decode := hex_parse |}.

Lemma hex_value_digit n : 0 ≤ n < 16 → hex_value (hex_digit n) = Some n.
Proof.
  intros Hn. assert (Forall (λ n, hex_value (hex_digit n) = Some n) (seqZ 0 16)) as Hall by vdecide.
  rewrite Forall_forall in Hall. apply Hall, elem_of_seqZ. lia.
Qed.

#[local] Instance real_hex_laws : HexLaws.
Proof.
  intros bs Hb. cbn. induction Hb as [|b bs Hb _ IH]; [done|]. cbn. destruct Hb.
  rewrite !hex_value_digit by (split; [apply Z.div_pos || apply Z.mod_pos_bound|
    apply Z.div_lt_upper_bound || apply Z.mod_pos_bound]; lia).
  cbn. rewrite IH. cbn. f_equal. f_equal. symmetry. by apply Z.div_mod.
Qed.

#[local] Existing Instances w_build toy_store_micro_qc toy_read_micro_qc toy_store_macro_cp
  toy_read_macro_cp toy_store_macro_qc toy_read_macro_qc toy_store_evidence.

Definition w_rpc : RpcState toy_db := MkRpcState (node_after w_cfg (∅ : toy_db) []) true LiveDag_new.
Definition w_bytes : bytes := shard_bytes w_payload.
Definition w_params : Json := JObject [("payload_hex", JString (hex0x w_bytes))].
Definition w_id_hex : string := hex0x (bid_bytes (blob_id_from_payload w_payload)).
Definition w_after : RpcState toy_db := (submit_blob w_cfg w_params w_rpc).2.

(** A blob is submitted over the RPC, and listed. *)
Lemma submit_then_read_witness :
  ∃ indices, list_blob_chunks w_after (JObject [("blob_id", JString w_id_hex)]) =
    Ok (JObject [("chunks", JArray ((λ i, JObject [("index", JNumber (PosInt i))]) <$> indices))]) ∧
    ∀ i, 0 ≤ i < Z.min (ec_n w_cfg) 64 → i ∈ indices.
Proof.
  set (v := JObject [("blob_id", JString w_id_hex); ("chunk_count", JNumber (PosInt (ec_n w_cfg)))]).
  assert (Hrun : (submit_blob w_cfg w_params w_rpc).1 = Ok v) by (vm_compute; reflexivity).
  destruct (submit_then_read w_cfg (∅ : toy_db) [] w_rpc w_after w_params (hex0x w_bytes) w_bytes v
    w_id_hex w_cfg_valid toy_digest_ok w_fresh) as (_ & _ & _ & Hlist).
  - reflexivity.
  - reflexivity.
  - vm_compute. reflexivity.
  - vdecide.
  - rewrite <- Hrun. apply surjective_pairing.
  - reflexivity.
  - apply Hlist, w_reads. vm_compute. reflexivity.
Defined.

(** The checkpoint of [Persistence]'s witness, read over the RPC *)
Definition w_query : RpcReq :=
  MkRpcReq "2.0" "lua_getMacroCheckpointAt" (JArray [JNumber (PosInt 3)]) (JNumber (PosInt 1)).
Lemma rpc_reads_witness : ∃ v, rpc w_cfg w_query w_rpc = (Ok (MkRpcResp "2.0" (JNumber (PosInt 1)) v), w_rpc).
Proof. exact (proj1 (rpc_reads w_cfg w_query w_rpc ltac:(done))). Defined.
