(* ===== verification/Pubkey.v ===== *)
(** [crates/types/src/crypto_types.rs]: how a BLS public key is written to and read from
    configuration and JSON ([serde]).  [hex] is the class [Hex]; a serializer is given, and a
    deserializer hands over, a value of the data model of [serde]. *)

From S2P Require Import Prelude Bytes Types Crypto Toy NodeConfig Rpc.
Open Scope list_scope.
Open Scope Z_scope.

(** The values the key is written as, and what a deserializer can call the visitor with; of a
    sequence, the answers of [next_element] up to the end *)
Inductive SerdeValue :=
| SV_str (s : string)
| SV_bytes (b : bytes)
| SV_seq (elems : list (option Z)).

Inductive SerdeError := SE_hex | SE_length (n : nat) | SE_element.
#[global] Instance SerdeError_eq_dec : EqDecision SerdeError.
Proof. solve_decision. Defined.

Section serde.
Context `{Hex}.

(** [Serialize for BlsPubkey] *)
Definition serialize (human_readable : bool) (pk : BlsPubkey) : SerdeValue :=
  if human_readable then SV_str (hex_encode (bpk_bytes pk)) else SV_bytes (bpk_bytes pk).

(** [BlsPubkeyVisitor] *)
Definition visit_str (v : string) : outcome SerdeError BlsPubkey :=
  match hex_decode (str_trim v) with
  | None => Err SE_hex
  | Some bytes =>
      if negb (Nat.eqb (length bytes) 48) then Err (SE_length (length bytes))
      else Ok (MkBlsPubkey bytes)
  end.

Definition visit_bytes (v : bytes) : outcome SerdeError BlsPubkey :=
  if negb (Nat.eqb (length v) 48) then Err (SE_length (length v)) else Ok (MkBlsPubkey v).

(** [for (i, slot) in arr.iter_mut().enumerate()]; [n] slots are left. *)
Fixpoint fill_slots (n i : nat) (elems : list (option Z)) : outcome SerdeError bytes :=
  match n with
  | O => Ok []
  | S n =>
      match elems with
      | [] => Err (SE_length i)
      | None :: _ => Err SE_element
      | Some b :: elems => bs ← fill_slots n (S i) elems; Ok (b :: bs)
      end
  end.
Definition visit_seq (elems : list (option Z)) : outcome SerdeError BlsPubkey :=
  arr ← fill_slots 48 0 elems; Ok (MkBlsPubkey arr).

Definition visit_value (v : SerdeValue) : outcome SerdeError BlsPubkey :=
  match v with SV_str s => visit_str s | SV_bytes b => visit_bytes b | SV_seq es => visit_seq es end.
End serde.

Section facts.
Context `{HexLaws}.

Lemma fill_slots_Ok n i elems bs :
  fill_slots n i elems = Ok bs ↔ length bs = n ∧ (Some <$> bs) `prefix_of` elems.
Proof.
  revert i elems bs. induction n as [|n IH]; intros i elems bs; cbn.
  { split; [intros [= <-]; split; [done|apply prefix_nil]|]. by intros [->%nil_length_inv _]. }
  destruct elems as [|[b|] elems].
  - split; [done|]. intros [Hl Hp%prefix_nil_inv]. by destruct bs.
  - split.
    + intros (bs' & [<- Hp]%IH & [= <-])%outcome_bind_Ok. split; [done|]. by apply prefix_cons.
    + destruct bs as [|b' bs]; [by intros []|]. intros [[= Hl] Hp]. cbn in Hp.
      apply prefix_cons_inv_1 in Hp as Hb. apply prefix_cons_inv_2 in Hp. injection Hb as ->.
      by rewrite (proj2 (IH (S i) elems bs) (conj Hl Hp)).
  - split; [done|]. intros [Hl [k Hk]]. by destruct bs.
Qed.

(** A key is read back from what was written, in a text format and in a binary one; text survives
    white space around it ([pad]). *)
Theorem pubkey_serde_roundtrip (human_readable : bool) (pk : BlsPubkey) (pad : string → string) :
  length (bpk_bytes pk) = 48%nat → bytes_ok (bpk_bytes pk) →
  str_trim (pad (hex_encode (bpk_bytes pk))) = hex_encode (bpk_bytes pk) →
  visit_value match serialize human_readable pk with SV_str s => SV_str (pad s) | v => v end = Ok pk.
Proof.
  intros Hl Hb Ht. destruct human_readable; cbn -[Nat.eqb].
  - unfold visit_str. rewrite Ht, H0, Hl by done. by destruct pk.
  - unfold visit_bytes. rewrite Hl. by destruct pk.
Qed.

(** Whatever the input, a key that is read has 48 bytes. *)
Theorem pubkey_visit_length (v : SerdeValue) (pk : BlsPubkey) :
  visit_value v = Ok pk → length (bpk_bytes pk) = 48%nat.
Proof.
  destruct v as [s|b|es]; cbn [visit_value].
  - unfold visit_str. destruct (hex_decode _) as [bs|]; [|done].
    destruct (Nat.eqb_spec (length bs) 48); [|done]. by intros [= <-].
  - unfold visit_bytes. destruct (Nat.eqb_spec (length b) 48); [|done]. by intros [= <-].
  - intros (bs & [Hl _]%fill_slots_Ok & [= <-])%outcome_bind_Ok. done.
Qed.

(** A sequence is read up to its 48th element: what follows is not looked at. *)
Theorem pubkey_visit_seq_prefix (es : list (option Z)) (pk : BlsPubkey) :
  visit_value (SV_seq es) = Ok pk ↔
  length (bpk_bytes pk) = 48%nat ∧ (Some <$> bpk_bytes pk) `prefix_of` es.
Proof.
  destruct pk as [bs]. cbn [visit_value bpk_bytes]. unfold visit_seq. rewrite outcome_bind_Ok.
  rewrite <- (fill_slots_Ok 48 0).
  split; [by intros (bs' & ? & [= <-])|]. by exists bs.
Qed.
End facts.

#[local] Existing Instance Rpc.real_hex.
#[local] Existing Instance Rpc.real_hex_laws.
Definition toy_pubkey : BlsPubkey := MkBlsPubkey (seqZ 100 48).
Lemma pubkey_serde_roundtrip_witness :
  visit_value (SV_str (" " +:+ hex_encode (bpk_bytes toy_pubkey) +:+ " ")) = Ok toy_pubkey.
Proof.
  refine (pubkey_serde_roundtrip true toy_pubkey (λ s, " " +:+ s +:+ " ") _ _ _).
  - done.
  - apply (bool_decide_unpack _). vm_compute. exact I.
  - by vm_compute.
Defined.
Lemma pubkey_visit_length_witness : length (bpk_bytes toy_pubkey) = 48%nat.
Proof. apply (pubkey_visit_length (SV_seq (Some <$> seqZ 100 50))). by vm_compute. Defined.
