(* ===== verification/Sim.v ===== *)
(** [apps/sim]: the simulated network, timers and storage, and the checkers.

    [VirtualNet] ([virtual_net.rs]) queues messages under [NetworkConditions]
    ([adversary/network.rs]) and a [Partition]; [VirtualTimer], [VirtualPersistence] and
    [VirtualDag] are the other stand-ins for the host; the [check] functions of [checker/]
    judge what the validators stored.

    The seeded generator is the class [Rng] with the ranges it documents as the class
    [RngLaws]. *)

From S2P Require Import Prelude Bytes Types Crypto Toy Config Leader Dag MacroState.
From S2P Require Import Storage Persistence.
Open Scope Z_scope.

(** [gen_range(0..=max)] and [gen_range(0.0..1.0)] *)
Class Rng := {
  rng : Type;
  gen_u64 : Z → rng → Z * rng;
  gen_unit : rng → f64 * rng;
}.
Class RngLaws `{Rng} := {
  gen_u64_range max r : 0 ≤ max → 0 ≤ (gen_u64 max r).1 ≤ max;
  gen_unit_range r :
    f64_leb f64_zero (gen_unit r).1 = true ∧ f64_ltb (gen_unit r).1 f64_one = true;
}.

(** ** [adversary/network.rs] and [virtual_net.rs] *)

Record Partition := MkPartition { left : gset Z; right : gset Z; active : bool }.
#[global] Instance Partition_eta : Settable Partition := λ p,
  MkPartition (left p) (right p) (active p).

Definition Partition_new (l r : list Z) : Partition :=
  MkPartition (list_to_set l) (list_to_set r) true.
Definition partition_heal (p : Partition) : Partition := p <| active := false |>.
Definition partition_allows (p : Partition) (sender recipient : Z) : bool :=
  if negb (active p) then true
  else (bool_decide (sender ∈ left p) && bool_decide (recipient ∈ left p)) ||
       (bool_decide (sender ∈ right p) && bool_decide (recipient ∈ right p)).

Record InFlight := MkInFlight { if_recipient : Z; if_event : Event; deliver_at : Z }.
#[global] Instance InFlight_eta : Settable InFlight := λ m,
  MkInFlight (if_recipient m) (if_event m) (deliver_at m).

Record NetworkConditions := MkConditions {
  base_delay_ns : Z; max_delay_ns : Z; c_drop : f64; c_duplicate : f64;
}.
Definition perfect : NetworkConditions := MkConditions 0 0 f64_zero f64_zero.
Definition with_round_jitter (round_duration_ms : Z) : NetworkConditions :=
  let round_nanos := Z.min (round_duration_ms * 1000000) u64_max in
  MkConditions (round_nanos / 10) (round_nanos / 5) f64_zero f64_zero.

Record VirtualNet := MkVirtualNet {
  vn_pending : list InFlight;
  vn_conditions : NetworkConditions;
  vn_partition : option Partition;
}.
#[global] Instance VirtualNet_eta : Settable VirtualNet := λ n,
  MkVirtualNet (vn_pending n) (vn_conditions n) (vn_partition n).

Definition VirtualNet_new : VirtualNet := MkVirtualNet [] perfect None.
Definition set_conditions (c : NetworkConditions) (n : VirtualNet) : VirtualNet :=
  n <| vn_conditions := c |>.
Definition set_partition (l r : list Z) (n : VirtualNet) : VirtualNet :=
  n <| vn_partition := Some (Partition_new l r) |>.
Definition heal_partition (n : VirtualNet) : VirtualNet :=
  n <| vn_partition ::= fmap partition_heal |>.
Definition partition_active (n : VirtualNet) : bool :=
  match vn_partition n with Some p => active p | None => false end.
Definition allows_delivery (n : VirtualNet) (sender recipient : Z) : bool :=
  match vn_partition n with Some p => partition_allows p sender recipient | None => true end.

(** [pending.insert(pos, msg)] at the [partition_point] *)
Fixpoint insert_due (msg : InFlight) (pending : list InFlight) : list InFlight :=
  match pending with
  | [] => [msg]
  | m :: ms => if deliver_at m <=? deliver_at msg then m :: insert_due msg ms else msg :: m :: ms
  end.
Definition vn_enqueue (msg : InFlight) (n : VirtualNet) : VirtualNet :=
  n <| vn_pending ::= insert_due msg |>.

Fixpoint pop_due (now : Z) (pending : list InFlight) : list InFlight * list InFlight :=
  match pending with
  | [] => ([], [])
  | m :: ms => if deliver_at m <=? now
               then let '(out, rest) := pop_due now ms in (m :: out, rest)
               else ([], m :: ms)
  end.
Definition drain_due (now : Z) (n : VirtualNet) : list InFlight * VirtualNet :=
  let '(out, rest) := pop_due now (vn_pending n) in (out, n <| vn_pending := rest |>).

(** The [match] of [enqueue_from_action] *)
Definition event_of (action : Action) : option Event :=
  match action with
  | BroadcastMicroQc qc => Some (MicroQcAssembled qc)
  | BroadcastMacroProposal p => Some (MacroProposalReceived p)
  | BroadcastBlsPartial bp => Some (BlsPartialReceived bp)
  | BroadcastMacroQc qc => Some (MacroQcReceived qc)
  | BroadcastSubnetAggregate a => Some (SubnetAggregateReceived a)
  | BroadcastVertexProposal p => Some (VertexProposalReceived p)
  | BroadcastVertexPartial bp => Some (VertexPartialReceived bp)
  | BroadcastCertifiedVertex cv => Some (CertifiedVertexReceived cv)
  | _ => None
  end.

Section network.
Context `{Build, Rng}.

Definition jitter_nanos (max : Z) (r : rng) : Z * rng :=
  if max =? 0 then (0, r) else gen_u64 max r.

(** [perturb]: the message, if it is not dropped, and a duplicate.  The addition of the
    extra delay may overflow. *)
Definition perturb (c : NetworkConditions) (r : rng) (msg : InFlight)
  : result (option InFlight * option InFlight * rng) :=
  let '(x, r) := gen_unit r in
  if f64_ltb x (c_drop c) then Ok (None, None, r)
  else
    let '(extra, r) := if 0 <? max_delay_ns c then gen_u64 (max_delay_ns c) r else (0, r) in
    at' ← add_w 64 (deliver_at msg) extra;
    let msg := msg <| deliver_at := at' |> in
    let '(y, r) := gen_unit r in
    Ok (Some msg, if f64_ltb y (c_duplicate c) then Some msg else None, r).

Definition enqueue_opt (o : option InFlight) (n : VirtualNet) : VirtualNet :=
  match o with Some m => vn_enqueue m n | None => n end.

Fixpoint fan_out (recipients : list Z) (sender : Z) (event : Event) (now : Z)
    (n : VirtualNet) (r : rng) : result (VirtualNet * rng) :=
  match recipients with
  | [] => Ok (n, r)
  | recipient :: recipients =>
      if bool_decide (recipient = sender) || negb (allows_delivery n sender recipient)
      then fan_out recipients sender event now n r
      else
        let '(jitter, r) := jitter_nanos (max_delay_ns (vn_conditions n)) r in
        let at' := saturating_add 64 (saturating_add 64 now (base_delay_ns (vn_conditions n)))
                     jitter in
        o ← perturb (vn_conditions n) r (MkInFlight recipient event at');
        let '(maybe, duplicate, r) := o in
        fan_out recipients sender event now (enqueue_opt duplicate (enqueue_opt maybe n)) r
  end.

Definition enqueue_from_action (sender : Z) (action : Action) (validator_count now : Z)
    (n : VirtualNet) (r : rng) : result (VirtualNet * rng) :=
  match event_of action with
  | None => Ok (n, r)
  | Some event => fan_out (seqZ 0 validator_count) sender event now n r
  end.
End network.

(** ** [virtual_timer.rs]: the heap is the sorted list of its entries *)

Record VirtualTimer := MkVirtualTimer { vt_pending : list (Z * Z); vt_cancelled : gset Z }.
#[global] Instance VirtualTimer_eta : Settable VirtualTimer := λ t,
  MkVirtualTimer (vt_pending t) (vt_cancelled t).
Definition VirtualTimer_new : VirtualTimer := MkVirtualTimer [] ∅.

Definition entry_leb (a b : Z * Z) : bool :=
  (a.1 <? b.1) || ((a.1 =? b.1) && (a.2 <=? b.2)).
Fixpoint heap_push (e : Z * Z) (h : list (Z * Z)) : list (Z * Z) :=
  match h with
  | [] => [e]
  | e' :: h => if entry_leb e' e then e' :: heap_push e h else e :: e' :: h
  end.

Definition vt_schedule (at' : Z) (id : TimerId) (t : VirtualTimer) : VirtualTimer :=
  t <| vt_cancelled ::= λ c, c ∖ {[timer_u64 id]} |>
    <| vt_pending ::= heap_push (at', timer_u64 id) |>.
Definition vt_cancel (id : TimerId) (t : VirtualTimer) : VirtualTimer :=
  t <| vt_cancelled ::= union {[timer_u64 id]} |>.

Fixpoint drain_heap (now : Z) (h : list (Z * Z)) (c : gset Z)
  : list TimerId * (list (Z * Z) * gset Z) :=
  match h with
  | [] => ([], ([], c))
  | (at', id) :: h' =>
      if now <? at' then ([], (h, c))
      else if bool_decide (id ∈ c) then drain_heap now h' (c ∖ {[id]})
      else let '(out, s) := drain_heap now h' c in (MkTimerId id :: out, s)
  end.
Definition vt_drain_due (now : Z) (t : VirtualTimer) : list TimerId * VirtualTimer :=
  let '(out, (h, c)) := drain_heap now (vt_pending t) (vt_cancelled t) in
  (out, MkVirtualTimer h c).

(** ** [virtual_dag.rs], [virtual_beacon.rs], [virtual_validator_set.rs] *)

Record VirtualDag := MkVirtualDag {
  vd_by_hash : gmap Hash32 CertifiedVertex;
  vd_by_round : gmap Z (list CertifiedVertex);
}.
Definition VirtualDag_new : VirtualDag := MkVirtualDag ∅ ∅.
Definition vd_insert (v : CertifiedVertex) (d : VirtualDag) : VirtualDag :=
  let hash := v_hash (cv_vertex v) in
  let round := v_round (cv_vertex v) in
  MkVirtualDag (<[hash := v]> (vd_by_hash d))
    (<[round := default [] (vd_by_round d !! round) ++ [v]]> (vd_by_round d)).
Definition vd_vertex (d : VirtualDag) (hash : Hash32) : result (option CertifiedVertex) :=
  Ok (vd_by_hash d !! hash).
Definition vd_vertices_at_round (d : VirtualDag) (round : Round) : result (list CertifiedVertex) :=
  Ok (default [] (vd_by_round d !! round)).

Definition vset_set_for (set : ValidatorSet) (epoch : Epoch) : result (option ValidatorSet) :=
  Ok (if bool_decide (vs_epoch set = epoch) then Some set else None).

(** ** [virtual_persistence.rs] *)

Record VirtualPersistence := MkVirtualPersistence {
  vp_micro_qcs : gmap Hash32 MicroQc;
  vp_macro_cps : gmap Z MacroCheckpoint;
  vp_macro_qcs : gmap Hash32 MacroQc;
  vp_slash_log : list SlashEvidence;
  vp_blob_status : gmap BlobId BlobStatus;
}.
#[global] Instance VirtualPersistence_eta : Settable VirtualPersistence := λ p,
  MkVirtualPersistence (vp_micro_qcs p) (vp_macro_cps p) (vp_macro_qcs p) (vp_slash_log p)
    (vp_blob_status p).
Definition VirtualPersistence_new : VirtualPersistence := MkVirtualPersistence ∅ ∅ ∅ [] ∅.

Definition slash_count (p : VirtualPersistence) : nat := length (vp_slash_log p).
Definition any_micro_qc (p : VirtualPersistence) : bool := negb (bool_decide (vp_micro_qcs p = ∅)).
Definition all_micro_qcs (p : VirtualPersistence) : list MicroQc :=
  (map_to_list (vp_micro_qcs p)).*2.
Definition all_macro_qcs (p : VirtualPersistence) : list MacroQc :=
  (map_to_list (vp_macro_qcs p)).*2.
Definition vp_status (p : VirtualPersistence) (blob : BlobId) : option BlobStatus :=
  vp_blob_status p !! blob.

(** [update_blob_status]: [or_insert], then the comparison. *)
Definition vp_update_status (blob : BlobId) (status : BlobStatus) (p : VirtualPersistence)
  : VirtualPersistence :=
  let entry := default status (vp_blob_status p !! blob) in
  p <| vp_blob_status ::= <[blob := if BlobStatus_u8 entry <? BlobStatus_u8 status
                                    then status else entry]> |>.
Definition finalized_count (p : VirtualPersistence) : nat :=
  length (filter (λ s, s = Finalized) ((map_to_list (vp_blob_status p)).*2)).

(** The writes of [Persistence for VirtualPersistence] *)
Definition vp_persist (op : persist_op) (p : VirtualPersistence) : VirtualPersistence :=
  match op with
  | PO_micro_qc qc => p <| vp_micro_qcs ::= <[mqc_checkpoint_hash qc := qc]> |>
  | PO_macro_checkpoint cp => p <| vp_macro_cps ::= <[mc_height cp := cp]> |>
  | PO_macro_qc qc => p <| vp_macro_qcs ::= <[qc_checkpoint_hash qc := qc]> |>
  | PO_evidence ev => p <| vp_slash_log ::= λ l, l ++ [ev] |>
  | PO_blob_status blob status => vp_update_status blob status p
  end.
Definition vp_run (ops : list persist_op) (p : VirtualPersistence) : VirtualPersistence :=
  foldl (λ p op, vp_persist op p) p ops.

(** ** [checker/] *)

Inductive CheckError :=
| NoMicroQc
| NoFinalizedBlob
| ConflictingMicroQc (h : Hash32)
| ConflictingMacroQc (h : Hash32)
| ConflictingCheckpoints (height : Height) (h h' : Hash32)
| ConflictingQcs (height : Height) (h : Hash32).

(** [liveness.rs] *)
Definition liveness_check (ps : list VirtualPersistence) : outcome CheckError unit :=
  if negb (existsb any_micro_qc ps) then Err NoMicroQc
  else if negb (existsb (λ p, (1 <=? finalized_count p)%nat) ps) then Err NoFinalizedBlob
  else Ok tt.

(** [safety.rs]: the loop over the certificates of one validator, and over the validators *)
Fixpoint scan_qcs {Q} `{EqDecision Q} (key : Q → Hash32) (bad : Hash32 → CheckError)
    (qcs : list Q) (seen : gmap Hash32 Q) : outcome CheckError (gmap Hash32 Q) :=
  match qcs with
  | [] => Ok seen
  | qc :: qcs =>
      match seen !! key qc with
      | Some existing => if bool_decide (existing ≠ qc) then Err (bad (key qc))
                         else scan_qcs key bad qcs seen
      | None => scan_qcs key bad qcs (<[key qc := qc]> seen)
      end
  end.
Fixpoint scan_all {Q} `{EqDecision Q} (all : VirtualPersistence → list Q) (key : Q → Hash32)
    (bad : Hash32 → CheckError) (ps : list VirtualPersistence) (seen : gmap Hash32 Q)
    : outcome CheckError (gmap Hash32 Q) :=
  match ps with
  | [] => Ok seen
  | p :: ps => seen ← scan_qcs key bad (all p) seen; scan_all all key bad ps seen
  end.
Definition safety_check (ps : list VirtualPersistence) : outcome CheckError unit :=
  _ ← scan_all all_micro_qcs mqc_checkpoint_hash ConflictingMicroQc ps ∅;
  _ ← scan_all all_macro_qcs qc_checkpoint_hash ConflictingMacroQc ps ∅;
  Ok tt.

(** [lock_macro.rs] *)
Definition MAX_SCAN_HEIGHT : Z := 128.
Abbreviation ByHeight := (gmap Z (Hash32 * option MacroQc)).

(** The body of the loop over the heights *)
Definition lock_step (p : VirtualPersistence) (height : Z) (by_height : ByHeight)
    : outcome CheckError ByHeight :=
  match vp_macro_cps p !! height with
  | None => Ok by_height
  | Some cp =>
      let qc := vp_macro_qcs p !! mc_hash cp in
      match by_height !! height with
      | None => Ok (<[height := (mc_hash cp, qc)]> by_height)
      | Some (existing_hash, existing_qc) =>
          if bool_decide (existing_hash ≠ mc_hash cp)
          then Err (ConflictingCheckpoints height existing_hash (mc_hash cp))
          else match existing_qc, qc with
               | Some a, Some b => if bool_decide (a ≠ b)
                                   then Err (ConflictingQcs height (mc_hash cp))
                                   else Ok by_height
               | _, _ => Ok by_height
               end
      end
  end.
Fixpoint lock_scan (p : VirtualPersistence) (heights : list Z) (by_height : ByHeight)
    : outcome CheckError ByHeight :=
  match heights with
  | [] => Ok by_height
  | height :: heights => by_height ← lock_step p height by_height; lock_scan p heights by_height
  end.
Fixpoint lock_scan_all (ps : list VirtualPersistence) (by_height : ByHeight)
    : outcome CheckError ByHeight :=
  match ps with
  | [] => Ok by_height
  | p :: ps =>
      by_height ← lock_scan p (seqZ 0 MAX_SCAN_HEIGHT) by_height;
      lock_scan_all ps by_height
  end.
Definition lock_macro_check (ps : list VirtualPersistence) : outcome CheckError unit :=
  _ ← lock_scan_all ps ∅; Ok tt.

(** ** The queue *)

Definition due_le (a b : InFlight) : Prop := deliver_at a ≤ deliver_at b.
#[global] Instance due_le_trans : Transitive due_le.
Proof. intros a b c. unfold due_le. lia. Qed.

(** The messages of [l] for time [t], in order *)
Definition at_time (t : Z) (l : list InFlight) : list InFlight := filter (λ m, deliver_at m = t) l.

Lemma insert_due_perm m l : insert_due m l ≡ₚ m :: l.
Proof.
  induction l as [|x l IH]; cbn; [done|]. destruct (_ <=? _); [|done].
  rewrite IH. apply perm_swap.
Qed.

Lemma insert_due_sorted m l : StronglySorted due_le l → StronglySorted due_le (insert_due m l).
Proof.
  induction 1 as [|x l Hl IH Hx]; cbn; [repeat constructor|].
  destruct (Z.leb_spec (deliver_at x) (deliver_at m)) as [Hle|Hlt].
  - constructor; [done|]. rewrite insert_due_perm. by constructor.
  - constructor; [by constructor|]. constructor; [unfold due_le; lia|].
    eapply Forall_impl; [exact Hx|]. unfold due_le. lia.
Qed.

Lemma at_time_insert t m l :
  StronglySorted due_le l →
  at_time t (insert_due m l) = at_time t l ++ at_time t [m].
Proof.
  unfold at_time. induction 1 as [|x l Hl IH Hx]; [done|]. cbn [insert_due].
  destruct (Z.leb_spec (deliver_at x) (deliver_at m)) as [Hle|Hlt].
  - rewrite !(filter_cons _ x), IH. by case_decide.
  - rewrite (filter_cons _ m (x :: l)), (filter_cons _ m []).
    case_decide as Ht; [|by rewrite filter_nil, app_nil_r].
    assert (filter (λ m, deliver_at m = t) (x :: l) = []) as ->; [|done].
    rewrite Forall_forall in Hx. unfold due_le in Hx. apply elem_of_nil_inv.
    intros y [Hy [->|Hin%Hx]%elem_of_cons]%list_elem_of_filter; lia.
Qed.

Lemma pop_due_spec now l out rest :
  pop_due now l = (out, rest) →
  l = out ++ rest ∧ Forall (λ m, deliver_at m ≤ now) out ∧
  (StronglySorted due_le l → Forall (λ m, now < deliver_at m) rest).
Proof.
  revert out rest. induction l as [|x l IH]; intros out rest; cbn; [by intros [= <- <-]|].
  destruct (Z.leb_spec (deliver_at x) now) as [Hle|Hlt].
  - destruct (pop_due now l) as [o r]. intros [= <- <-].
    destruct (IH _ _ eq_refl) as (-> & Ho & Hr). split; [done|]. split; [by constructor|].
    intros [Hs _]%StronglySorted_inv. by apply Hr.
  - intros [= <- <-]. split; [done|]. split; [done|].
    intros [_ Hx]%StronglySorted_inv. constructor; [lia|].
    eapply Forall_impl; [exact Hx|]. unfold due_le. lia.
Qed.

Lemma StronglySorted_app_inv {A} (R : A → A → Prop) l1 l2 :
  StronglySorted R (l1 ++ l2) → StronglySorted R l1 ∧ StronglySorted R l2.
Proof.
  induction l1 as [|a l1 IH]; cbn; [by split; [constructor|]|].
  intros [Hs Ha]%StronglySorted_inv. destruct (IH Hs) as [H1 H2].
  apply Forall_app in Ha as [Ha _]. split; [by constructor|done].
Qed.

(** *** Sequences of operations *)

Inductive net_op := NO_enqueue (msg : InFlight) | NO_drain (now : Z).

(** What each drain delivered, and the net that is left *)
Fixpoint net_run (ops : list net_op) (n : VirtualNet) : list (Z * list InFlight) * VirtualNet :=
  match ops with
  | [] => ([], n)
  | NO_enqueue msg :: ops => net_run ops (vn_enqueue msg n)
  | NO_drain now :: ops =>
      let '(out, n) := drain_due now n in
      let '(outs, n) := net_run ops n in ((now, out) :: outs, n)
  end.
Definition enqueued (ops : list net_op) : list InFlight :=
  omap (λ op, match op with NO_enqueue m => Some m | NO_drain _ => None end) ops.

Lemma drain_due_eq now n out n' :
  drain_due now n = (out, n') → pop_due now (vn_pending n) = (out, vn_pending n').
Proof.
  unfold drain_due. destruct (pop_due now (vn_pending n)) as [o r].
  destruct n. by intros [= <- <-].
Qed.

Lemma net_run_spec ops n outs n' :
  net_run ops n = (outs, n') → StronglySorted due_le (vn_pending n) →
  (∀ t, at_time t (mjoin outs.*2 ++ vn_pending n') = at_time t (vn_pending n ++ enqueued ops)) ∧
  mjoin outs.*2 ++ vn_pending n' ≡ₚ vn_pending n ++ enqueued ops ∧
  StronglySorted due_le (vn_pending n') ∧
  Forall (λ o, Forall (λ m, deliver_at m ≤ o.1) o.2 ∧ StronglySorted due_le o.2) outs.
Proof.
  revert n outs. induction ops as [|[m|now] ops IH]; intros n outs; cbn [net_run enqueued omap list_omap].
  - intros [= <- <-] Hs. cbn. by rewrite app_nil_r.
  - intros Hrun Hs. assert (vn_pending (vn_enqueue m n) = insert_due m (vn_pending n)) as Hp
      by by destruct n.
    destruct (IH _ _ Hrun) as (Ht & Hperm & Hs' & Ho); rewrite Hp in *; [by apply insert_due_sorted|].
    split; [|split; [|by split]].
    + intros t. rewrite Ht. unfold at_time. rewrite !filter_app.
      change (filter ?P (m :: ?l)) with (filter P ([m] ++ l)).
      rewrite filter_app, app_assoc. f_equal. by apply at_time_insert.
    + rewrite Hperm, insert_due_perm. cbn. by rewrite Permutation_middle.
  - destruct (drain_due now n) as [out n1] eqn:Hd. apply drain_due_eq, pop_due_spec in Hd
      as (Heq & Ho & _).
    destruct (net_run ops n1) as [outs1 n2] eqn:Hrun. intros [= <- <-] Hs.
    rewrite Heq in Hs. apply StronglySorted_app_inv in Hs as [Hs1 Hs2].
    destruct (IH _ _ Hrun Hs2) as (Ht & Hperm & Hs' & Ho'). cbn [fmap list_fmap mjoin list_join].
    split; [|split; [|split; [done|by constructor]]].
    + intros t. rewrite Heq. unfold at_time in *. rewrite <- !app_assoc, !(filter_app _ out).
      f_equal. apply Ht.
    + by rewrite Heq, <- !app_assoc, Hperm.
Qed.

(** ** Fan-out *)

Definition conditions_ok (c : NetworkConditions) : Prop :=
  0 ≤ base_delay_ns c ∧ 0 ≤ max_delay_ns c.

(** Neither loss nor duplication *)
Definition reliable (c : NetworkConditions) : Prop :=
  c_drop c = f64_zero ∧ c_duplicate c = f64_zero.

(** The recipients of a broadcast of [sender] *)
Definition fan_targets (n : VirtualNet) (sender : Z) (recipients : list Z) : list Z :=
  filter (λ i, i ≠ sender ∧ allows_delivery n sender i = true) recipients.

(** [m] carries [event] to a recipient that may have it, within the bounds on the delay. *)
Record fan_msg (n : VirtualNet) (sender : Z) (event : Event) (now : Z) (m : InFlight) : Prop := {
  fm_event : if_event m = event;
  fm_other : if_recipient m ≠ sender;
  fm_allowed : allows_delivery n sender (if_recipient m) = true;
  fm_time : saturating_add 64 now (base_delay_ns (vn_conditions n)) ≤ deliver_at m ≤
            now + base_delay_ns (vn_conditions n) + 2 * max_delay_ns (vn_conditions n);
}.

Section fan_out.
Context `{Build, RngLaws} (Hchk : overflow_checks = true).

Lemma jitter_range max r : 0 ≤ max → 0 ≤ (jitter_nanos max r).1 ≤ max.
Proof.
  intros Hm. unfold jitter_nanos. destruct (max =? 0) eqn:E; [cbn; lia|by apply gen_u64_range].
Qed.

Lemma unit_not_below r : f64_ltb (gen_unit r).1 f64_zero = false.
Proof.
  destruct (gen_unit_range r) as [Hlo _]. unfold f64_leb, f64_ltb, f64_eqb in *.
  destruct (gen_unit r).1 as [s|s| |s m e]; try destruct s; done.
Qed.

Lemma perturb_Ok c r msg maybe dup r' :
  conditions_ok c → perturb c r msg = Ok (maybe, dup, r') →
  (maybe = None ∧ dup = None ∧ ¬ reliable c) ∨
  (∃ extra, 0 ≤ extra ≤ max_delay_ns c ∧
     maybe = Some (msg <| deliver_at := deliver_at msg + extra |>) ∧
     (dup = None ∨ (dup = maybe ∧ ¬ reliable c))).
Proof.
  intros [_ Hmax]. unfold perturb. pose proof (unit_not_below r) as Hu.
  destruct (gen_unit r) as [x r1]. cbn in Hu. destruct (f64_ltb x (c_drop c)) eqn:Hd.
  { intros [= <- <- <-]. left. split; [done|]. split; [done|]. intros [Hz _]. congruence. }
  assert (∃ extra r2, (if 0 <? max_delay_ns c then gen_u64 (max_delay_ns c) r1 else (0, r1)) =
    (extra, r2) ∧ 0 ≤ extra ≤ max_delay_ns c) as (extra & r2 & -> & Hx).
  { destruct (Z.ltb_spec 0 (max_delay_ns c)); [|by exists 0, r1; split; [|lia]].
    pose proof (gen_u64_range (max_delay_ns c) r1 Hmax). destruct (gen_u64 _ _) as [e r2].
    by exists e, r2. }
  intros (at' & Ha & Hrest)%outcome_bind_Ok. apply add_w_checked in Ha as [-> _]; [|done].
  pose proof (unit_not_below r2) as Hu2. destruct (gen_unit r2) as [y r3]. cbn in Hu2.
  injection Hrest as <- <- <-. right. exists extra. split; [done|]. split; [done|].
  destruct (f64_ltb y (c_duplicate c)) eqn:Hy; [right|by left]. split; [done|].
  intros [_ Hz]. congruence.
Qed.

Lemma allows_enqueue o n sender i :
  allows_delivery (enqueue_opt o n) sender i = allows_delivery n sender i.
Proof. by destruct o, n. Qed.
Lemma conditions_enqueue o n : vn_conditions (enqueue_opt o n) = vn_conditions n.
Proof. by destruct o, n. Qed.
Lemma pending_enqueue o n :
  vn_pending (enqueue_opt o n) ≡ₚ option_list o ++ vn_pending n.
Proof. destruct o, n; cbn; [apply insert_due_perm|done]. Qed.
Lemma sorted_enqueue o n :
  StronglySorted due_le (vn_pending n) → StronglySorted due_le (vn_pending (enqueue_opt o n)).
Proof. destruct o, n; cbn; [apply insert_due_sorted|done]. Qed.

Lemma fan_msg_same n n1 sender event now m :
  vn_conditions n1 = vn_conditions n →
  (∀ i, allows_delivery n1 sender i = allows_delivery n sender i) →
  fan_msg n1 sender event now m → fan_msg n sender event now m.
Proof. intros Hc Ha [? ? ? ?]. by split; rewrite <- ?Hc, <- ?Ha. Qed.

Lemma fan_targets_same n n1 sender l :
  (∀ i, allows_delivery n1 sender i = allows_delivery n sender i) →
  fan_targets n1 sender l = fan_targets n sender l.
Proof.
  intros Ha. unfold fan_targets. apply list_filter_iff. intros i. by rewrite Ha.
Qed.

Lemma fan_out_Ok recipients sender event now n r n' r' :
  conditions_ok (vn_conditions n) → 0 ≤ now →
  fan_out recipients sender event now n r = Ok (n', r') →
  ∃ new, vn_pending n' ≡ₚ vn_pending n ++ new ∧ Forall (fan_msg n sender event now) new ∧
    (StronglySorted due_le (vn_pending n) → StronglySorted due_le (vn_pending n')) ∧
    (∀ m, m ∈ new → if_recipient m ∈ recipients) ∧
    (reliable (vn_conditions n) → if_recipient <$> new = fan_targets n sender recipients).
Proof.
  intros Hc Hnow. revert n r Hc. induction recipients as [|i recipients IH]; intros n r Hc;
    cbn [fan_out].
  { intros [= <- <-]. exists []. rewrite app_nil_r. split; [done|]. split; [done|].
    split; [done|]. split; [by intros m ?%elem_of_nil|done]. }
  destruct (bool_decide (i = sender) || negb (allows_delivery n sender i)) eqn:Hskip.
  { intros Hrun. destruct (IH _ _ Hc Hrun) as (new & Hp & Hf & Hs & Hin & Hr).
    exists new. split; [done|]. split; [done|]. split; [done|].
    split; [intros m Hm; right; by apply Hin|]. intros Hrel. rewrite (Hr Hrel). unfold fan_targets.
    rewrite filter_cons_False; [done|]. intros [Hi Ha].
    rewrite bool_decide_false, Ha in Hskip by done. done. }
  apply orb_false_iff in Hskip as [Hi%bool_decide_eq_false Ha%negb_false_iff].
  pose proof (jitter_range (max_delay_ns (vn_conditions n)) r (proj2 Hc)) as Hj.
  destruct (jitter_nanos _ r) as [j r1]. cbn in Hj.
  intros (((maybe & dup) & r2) & Hpt & Hrun)%outcome_bind_Ok.
  set (msg := MkInFlight i event (saturating_add 64 (saturating_add 64 now
                (base_delay_ns (vn_conditions n))) j)) in *.
  apply (perturb_Ok _ _ _ _ _ _ Hc) in Hpt.
  set (n1 := enqueue_opt dup (enqueue_opt maybe n)) in *.
  assert (vn_conditions n1 = vn_conditions n) as Hn1
    by (unfold n1; by rewrite !conditions_enqueue).
  assert (∀ k, allows_delivery n1 sender k = allows_delivery n sender k) as Ha1
    by (intros k; unfold n1; by rewrite !allows_enqueue).
  destruct (IH n1 r2) as (new & Hp & Hf & Hs & Hin & Hr); [by rewrite Hn1|done|].
  assert (Forall (λ m, fan_msg n sender event now m ∧ if_recipient m = i)
            (option_list maybe ++ option_list dup)) as Hnew.
  { assert (∀ extra, 0 ≤ extra ≤ max_delay_ns (vn_conditions n) →
      fan_msg n sender event now (msg <| deliver_at := deliver_at msg + extra |>)) as Hm.
    { intros extra Hx. split; [done..|]. cbn. unfold saturating_add. destruct Hc. lia. }
    destruct Hpt as [(-> & -> & _)|(extra & Hx & -> & [->|[-> _]])];
      repeat constructor; by apply Hm. }
  exists ((option_list maybe ++ option_list dup) ++ new). split; [|split; [|split; [|split]]].
  - rewrite Hp. unfold n1. rewrite pending_enqueue, pending_enqueue.
    clear. generalize (vn_pending n), (option_list maybe), (option_list dup).
    intros l1 l2 l3. rewrite <- !app_assoc, (Permutation_app_comm l3), <- !app_assoc.
    rewrite (Permutation_app_comm l2), <- !app_assoc. f_equiv.
    by rewrite (app_assoc new), (Permutation_app_comm (new ++ l3)), (Permutation_app_comm new).
  - apply Forall_app. split; [by eapply Forall_impl; [exact Hnew|intros m [? _]]|].
    eapply Forall_impl; [exact Hf|]. intros m. by apply fan_msg_same.
  - intros Hs0. apply Hs. unfold n1. by do 2 apply sorted_enqueue.
  - intros m [Hm|Hm]%elem_of_app; [|right; by apply Hin].
    rewrite Forall_forall in Hnew. destruct (Hnew m Hm) as [_ ->]. by left.
  - intros Hrel. rewrite fmap_app, Hr by by rewrite Hn1. unfold fan_targets at 2.
    rewrite filter_cons_True by done. rewrite (fan_targets_same n n1 sender recipients Ha1).
    destruct Hpt as [(_ & _ & Hn)|(extra & Hx & -> & [->|[-> Hn]])]; [by destruct Hn|done|by destruct Hn].
Qed.
End fan_out.

(** ** The checkers *)

Section scan.
Context {Q} `{EqDecision Q} (all : VirtualPersistence → list Q) (key : Q → Hash32)
  (bad : Hash32 → CheckError).

(** [seen] holds exactly the certificates of [qcs], which agree. *)
Definition holds_all (qcs : list Q) (seen : gmap Hash32 Q) : Prop :=
  (∀ q, q ∈ qcs → seen !! key q = Some q) ∧
  (∀ h q, seen !! h = Some q → key q = h ∧ q ∈ qcs).

Definition conflict (qcs : list Q) : Prop := ∃ q q', q ∈ qcs ∧ q' ∈ qcs ∧ key q = key q' ∧ q ≠ q'.

Lemma holds_no_conflict qcs seen : holds_all qcs seen → ¬ conflict qcs.
Proof. intros [Hin _] (q & q' & Hq%Hin & Hq'%Hin & Hk & Hne). rewrite Hk in Hq. congruence. Qed.

Lemma scan_qcs_spec qcs before seen :
  holds_all before seen →
  match scan_qcs key bad qcs seen with
  | Ok seen' => holds_all (before ++ qcs) seen'
  | Err _ => conflict (before ++ qcs)
  | _ => False
  end.
Proof.
  revert before seen. induction qcs as [|qc qcs IH]; intros before seen [Hin Hseen];
    cbn [scan_qcs]; [by rewrite app_nil_r|].
  replace (before ++ qc :: qcs) with ((before ++ [qc]) ++ qcs) by by rewrite <- app_assoc.
  destruct (seen !! key qc) as [e|] eqn:He.
  - destruct (Hseen _ _ He) as [Hk Heb]. destruct (decide (e = qc)) as [->|Hne].
    + rewrite bool_decide_false by auto. apply IH. split.
      * intros q [Hq|Hq%list_elem_of_singleton]%elem_of_app; [by apply Hin|by subst].
      * intros h q Hq. rewrite elem_of_app. by destruct (Hseen _ _ Hq) as [? ?]; split; [|left].
    + rewrite bool_decide_true by done. exists e, qc. rewrite !elem_of_app.
      split; [by left; left|]. split; [by left; right; left|done].
  - apply IH. split.
    + intros q [Hq|Hq%list_elem_of_singleton]%elem_of_app; [|subst; by rewrite lookup_insert_eq].
      rewrite lookup_insert_ne; [by apply Hin|]. intros Hk. apply Hin in Hq. congruence.
    + intros h q. rewrite elem_of_app. intros [[<- <-]|[_ Hq]]%lookup_insert_Some.
      * split; [done|right; by left].
      * by destruct (Hseen _ _ Hq) as [? ?]; split; [|left].
Qed.

Lemma scan_all_spec ps before seen :
  holds_all before seen →
  match scan_all all key bad ps seen with
  | Ok seen' => holds_all (before ++ mjoin (all <$> ps)) seen'
  | Err _ => conflict (before ++ mjoin (all <$> ps))
  | _ => False
  end.
Proof.
  revert before seen. induction ps as [|p ps IH]; intros before seen Hs; cbn [scan_all].
  { by rewrite app_nil_r. }
  pose proof (scan_qcs_spec (all p) before seen Hs) as Hp. cbn [fmap list_fmap mjoin list_join].
  destruct (scan_qcs key bad (all p) seen) as [seen'|e| |]; ocbn; [|..].
  - specialize (IH _ _ Hp). by rewrite <- app_assoc in IH.
  - destruct Hp as (q & q' & Hq & Hq' & ?). exists q, q'. rewrite app_assoc, !(elem_of_app _ (mjoin _)).
    by split; [left|split; [left|]].
  - done.
  - done.
Qed.

Lemma scan_all_ok ps :
  match scan_all all key bad ps ∅ with
  | Ok _ => ¬ conflict (mjoin (all <$> ps))
  | Err _ => conflict (mjoin (all <$> ps))
  | _ => False
  end.
Proof.
  assert (holds_all [] ∅) as He
    by (split; [by intros q ?%elem_of_nil|by intros h q; rewrite lookup_empty]).
  pose proof (scan_all_spec ps [] ∅ He) as Hs. cbn [app] in Hs.
  destruct (scan_all all key bad ps ∅) as [seen| | |]; [|done..].
  by apply holds_no_conflict with seen.
Qed.
End scan.

(** What a validator stored at a height: the hash of its checkpoint and its certificate *)
Definition adopted (h : Z) (p : VirtualPersistence) : option (Hash32 * option MacroQc) :=
  (λ cp, (mc_hash cp, vp_macro_qcs p !! mc_hash cp)) <$> vp_macro_cps p !! h.

(** The same hash, and the same certificate if both have one *)
Definition compatible (a b : Hash32 * option MacroQc) : Prop :=
  a.1 = b.1 ∧ match a.2, b.2 with Some x, Some y => x = y | _, _ => True end.

#[global] Instance compatible_dec a b : Decision (compatible a b).
Proof. unfold compatible. destruct (a.2), (b.2); apply _. Defined.

(** Every validator that adopted a checkpoint at [h] is compatible with the first that did. *)
Definition agree_at (ps : list VirtualPersistence) (h : Z) : Prop :=
  match omap (adopted h) ps with
  | [] => True
  | first :: rest => Forall (compatible first) rest
  end.

Lemma agree_at_snoc h ps p :
  agree_at (ps ++ [p]) h ↔
    agree_at ps h ∧
    ∀ a f, adopted h p = Some a → head (omap (adopted h) ps) = Some f → compatible f a.
Proof.
  unfold agree_at. rewrite omap_app. cbn [omap list_omap].
  destruct (adopted h p) as [a|]; cbn; [|rewrite app_nil_r; naive_solver].
  destruct (omap (adopted h) ps) as [|f rest]; cbn; [naive_solver|].
  rewrite Forall_app, Forall_singleton. naive_solver.
Qed.

Lemma agree_at_prefix h ps ps' : agree_at (ps ++ ps') h → agree_at ps h.
Proof.
  induction ps' as [|p ps' IH] using rev_ind; [by rewrite app_nil_r|].
  rewrite app_assoc, agree_at_snoc. intros [? _]. by apply IH.
Qed.

(** [seen h] are the validators whose height [h] was looked at. *)
Definition lock_inv (seen : Z → list VirtualPersistence) (by_height : ByHeight) : Prop :=
  ∀ h, by_height !! h = head (omap (adopted h) (seen h)) ∧ agree_at (seen h) h.

Lemma lock_step_spec p h seen by_height :
  lock_inv seen by_height →
  match lock_step p h by_height with
  | Ok by' => lock_inv (λ k, if bool_decide (k = h) then seen k ++ [p] else seen k) by'
  | Err _ => ¬ agree_at (seen h ++ [p]) h
  | _ => False
  end.
Proof.
  intros Hinv. destruct (Hinv h) as [Hb Ha]. unfold lock_step.
  assert (∀ by', by' !! h = head (omap (adopted h) (seen h) ++ option_list (adopted h p)) →
    (∀ a f, adopted h p = Some a → by_height !! h = Some f → compatible f a) →
    (∀ k, k ≠ h → by' !! k = by_height !! k) →
    lock_inv (λ k, if bool_decide (k = h) then seen k ++ [p] else seen k) by') as Hgo.
  { intros by' Hh Hag Ho k. case_bool_decide as Hk; [subst k|rewrite (Ho k Hk); apply Hinv].
    rewrite agree_at_snoc, omap_app, Hh, <- Hb. split; [|by split; [|naive_solver]].
    cbn. by destruct (adopted h p). }
  assert (∀ a f, adopted h p = Some a → by_height !! h = Some f → ¬ compatible f a →
    ¬ agree_at (seen h ++ [p]) h) as Hbad.
  { intros a f Hp Hf Hn [_ Hag]%agree_at_snoc. apply Hn, Hag; [done|congruence]. }
  unfold adopted in Hgo at 2 3, Hbad at 1. clear Ha.
  destruct (vp_macro_cps p !! h) as [cp|]; cbn [fmap option_fmap option_map option_list] in *; cycle 1.
  { apply Hgo; [by rewrite app_nil_r|naive_solver|done]. }
  set (a := (mc_hash cp, vp_macro_qcs p !! mc_hash cp)) in *.
  destruct (by_height !! h) as [[eh eq]|] eqn:Hh; cycle 1.
  { apply Hgo; [|naive_solver|intros k Hk; by rewrite lookup_insert_ne].
    rewrite lookup_insert_eq. by destruct (omap (adopted h) (seen h)). }
  assert (compatible (eh, eq) a → lock_inv (λ k, if bool_decide (k = h) then seen k ++ [p] else seen k)
    by_height) as Hok.
  { intros Hc. apply Hgo; [|naive_solver|done]. rewrite Hh.
    by destruct (omap (adopted h) (seen h)). }
  specialize (Hbad a _ eq_refl eq_refl). clear Hgo. unfold compatible in *. subst a. cbn in *.
  destruct (decide (eh = mc_hash cp)) as [->|Hne]; cycle 1.
  { rewrite bool_decide_true by done. naive_solver. }
  rewrite bool_decide_false by auto.
  destruct eq as [x|], (vp_macro_qcs p !! mc_hash cp) as [y|]; try (by apply Hok).
  destruct (decide (x = y)) as [->|Hxy].
  - rewrite bool_decide_false by auto. by apply Hok.
  - rewrite bool_decide_true by done. naive_solver.
Qed.

Lemma lock_inv_ext seen seen' by_height :
  (∀ h, seen h = seen' h) → lock_inv seen by_height → lock_inv seen' by_height.
Proof. intros He Hi h. rewrite <- He. apply Hi. Qed.

Lemma lock_scan_spec p heights seen by_height :
  NoDup heights → lock_inv seen by_height →
  match lock_scan p heights by_height with
  | Ok by' => lock_inv (λ k, if bool_decide (k ∈ heights) then seen k ++ [p] else seen k) by'
  | Err _ => ∃ h, h ∈ heights ∧ ¬ agree_at (seen h ++ [p]) h
  | _ => False
  end.
Proof.
  revert seen by_height. induction heights as [|h heights IH]; intros seen by_height; cbn [lock_scan].
  { intros _. apply lock_inv_ext. intros k. by rewrite bool_decide_false by apply not_elem_of_nil. }
  intros [Hh Hnd]%NoDup_cons Hinv. pose proof (lock_step_spec p h seen by_height Hinv) as Hs.
  destruct (lock_step p h by_height) as [by1|e| |]; ocbn; [|exists h; by split; [left|]|done..].
  specialize (IH _ _ Hnd Hs). destruct (lock_scan p heights by1); [|..|done|done].
  - eapply lock_inv_ext; [|exact IH]. intros k. cbn.
    destruct (decide (k = h)) as [->|Hk].
    + by rewrite (bool_decide_false (h ∈ heights)), bool_decide_true, bool_decide_true by (by try left).
    + rewrite (bool_decide_false (k = h)) by done.
      by rewrite (bool_decide_ext (k ∈ h :: heights) (k ∈ heights))
        by (rewrite elem_of_cons; naive_solver).
  - destruct IH as (k & Hk & Hn). exists k. split; [by right|].
    by rewrite bool_decide_false in Hn by congruence.
Qed.

Lemma lock_scan_all_spec ps seen by_height :
  lock_inv seen by_height →
  match lock_scan_all ps by_height with
  | Ok _ => ∀ h, 0 ≤ h < MAX_SCAN_HEIGHT → agree_at (seen h ++ ps) h
  | Err _ => ∃ h, 0 ≤ h < MAX_SCAN_HEIGHT ∧ ¬ agree_at (seen h ++ ps) h
  | _ => False
  end.
Proof.
  revert seen by_height. induction ps as [|p ps IH]; intros seen by_height Hinv; cbn [lock_scan_all].
  { intros h _. rewrite app_nil_r. apply Hinv. }
  pose proof (lock_scan_spec p (seqZ 0 MAX_SCAN_HEIGHT) seen by_height (NoDup_seqZ _ _) Hinv) as Hs.
  destruct (lock_scan p _ by_height) as [by1|e| |]; ocbn; [|..|done|done].
  - specialize (IH _ _ Hs). destruct (lock_scan_all ps by1); [|..|done|done].
    + intros h Hh. specialize (IH h Hh). rewrite bool_decide_true, <- app_assoc in IH; [done|].
      apply elem_of_seqZ. lia.
    + destruct IH as (h & Hh & Hn). exists h. split; [done|].
      rewrite bool_decide_true, <- app_assoc in Hn; [done|]. apply elem_of_seqZ. lia.
  - destruct Hs as (h & Hh%elem_of_seqZ & Hn). exists h. split; [lia|].
    intros Ha. apply Hn. apply (agree_at_prefix h _ ps). by rewrite <- app_assoc.
Qed.

(** ** The timers *)

(** The entries that survive the cancelled identifiers *)
Definition not_cancelled (c : gset Z) (h : list (Z * Z)) : list (Z * Z) :=
  filter (λ e, e.2 ∉ c) h.

Lemma not_cancelled_ext c c' l :
  (∀ e, e ∈ l → e.2 ∈ c ↔ e.2 ∈ c') → not_cancelled c l = not_cancelled c' l.
Proof.
  unfold not_cancelled. induction l as [|e l IH]; intros He; [done|].
  rewrite !filter_cons, IH by (intros e' ?; apply He; by right).
  pose proof (He e ltac:(by left)). repeat case_decide; naive_solver.
Qed.

Lemma drain_heap_spec now h c out h' c' :
  drain_heap now h c = (out, (h', c')) → NoDup h.*2 →
  ∃ due, h = due ++ h' ∧ Forall (λ e, e.1 ≤ now) due ∧
    (∀ e, head h' = Some e → now < e.1) ∧
    out = (λ e, MkTimerId e.2) <$> not_cancelled c due ∧
    c' = c ∖ list_to_set due.*2.
Proof.
  revert c out. induction h as [|[at' id] h IH]; intros c out; cbn [drain_heap].
  { intros [= <- <- <-] _. exists []. cbn. split_and!; try done. set_solver. }
  destruct (Z.ltb_spec now at') as [Hlt|Hle].
  { intros [= <- <- <-] _. exists []. cbn. split_and!; try done; [|set_solver].
    by intros e [= <-]. }
  cbn [fmap list_fmap snd]. intros Hrun [Hid Hnd]%NoDup_cons.
  destruct (bool_decide (id ∈ c)) eqn:Hc.
  - apply bool_decide_eq_true in Hc.
    destruct (IH _ _ Hrun Hnd) as (due & -> & Hd & Hh & -> & ->).
    exists ((at', id) :: due). split; [done|]. split; [by constructor|]. split; [done|].
    split; [|cbn; set_solver]. f_equal. unfold not_cancelled at 2.
    rewrite (filter_cons_False _ (at', id)) by (cbn; naive_solver). apply not_cancelled_ext.
    intros [a k] Hin. cbn. rewrite fmap_app, not_elem_of_app in Hid.
    assert (k ∈ due.*2) by by apply (list_elem_of_fmap_2 snd _ (a, k)). set_solver.
  - apply bool_decide_eq_false in Hc. destruct (drain_heap now h c) as [o [h1 c1]] eqn:Hr.
    injection Hrun as <- <- <-. destruct (IH _ _ Hr Hnd) as (due & -> & Hd & Hh & -> & ->).
    exists ((at', id) :: due). split; [done|]. split; [by constructor|]. split; [done|].
    split; [|cbn; set_solver]. unfold not_cancelled. by rewrite filter_cons_True by done.
Qed.

(** ** The storage *)

(** What [VirtualPersistence] stores, as the artifacts the port promises *)
Record vp_rep (v : VirtualPersistence) (a : Artifacts) : Prop := {
  vr_micro : ar_micro_qc a = vp_micro_qcs v;
  vr_cps : ar_macro_cp a = vp_macro_cps v;
  vr_macro : ar_macro_qc a = vp_macro_qcs v;
  vr_status : ar_status a = vp_blob_status v;
  vr_next : ar_next a = length (vp_slash_log v);
  vr_log i : ar_evidence a !! (i : Z) = if i <? 0 then None else vp_slash_log v !! Z.to_nat i;
}.

Lemma vp_persist_rep op v a : vp_rep v a → vp_rep (vp_persist op v) (spec_step op true a).
Proof.
  destruct v as [v1 v2 v3 v4 v5], a as [a1 a2 a3 a4 a5 a6].
  intros [H1 H2 H3 H4 H5 H6]. cbn in *. subst. destruct op; split; try done; cbn.
  - rewrite length_app. cbn. lia.
  - intros i. destruct (decide (i = length v4)) as [->|Hi].
    + rewrite lookup_insert_eq, Nat2Z.id, list_lookup_middle by done.
      by destruct (Z.ltb_spec (length v4) 0); [lia|].
    + rewrite lookup_insert_ne, H6 by done. destruct (Z.ltb_spec i 0); [done|].
      destruct (decide (i < length v4)).
      * by rewrite lookup_app_l by lia.
      * rewrite !lookup_ge_None_2; [done|rewrite length_app; cbn; lia|lia].
  - f_equal. unfold raise_status. destruct (v5 !! blob) as [s|]; cbn; [by destruct (_ <? _)|].
    by rewrite Z.ltb_irrefl.
Qed.

Lemma vp_run_rep ops oks v a :
  length oks = length ops → Forall (λ b, b = true) oks → vp_rep v a →
  vp_rep (vp_run ops v) (spec_run ops oks a).
Proof.
  revert oks v a. induction ops as [|op ops IH]; intros [|ok oks] v a; try done.
  intros [= Hlen] [-> Hoks]%Forall_cons Hr. cbn. apply IH; [done..|]. by apply vp_persist_rep.
Qed.

Lemma persist_run_length `{RocksDb D, Codec MicroQc, Codec MacroCheckpoint, Codec MacroQc,
    !Borsh SlashEvidence} ops (p : RocksPersistence D) oks p' :
  persist_run ops p = (oks, p') → length oks = length ops.
Proof.
  revert p oks. induction ops as [|op ops IH]; intros p oks; cbn; [by intros [= <- <-]|].
  destruct (persist op p) as [r p1], (persist_run ops p1) as [oks1 p2] eqn:Hr.
  intros [= <- ->]. cbn. f_equal. by eapply IH.
Qed.

(** ** Properties *)

(** The simulated network loses, invents and reorders nothing.  Over any sequence of sends and
    drains, what was delivered together with what is still queued is what was sent, in order
    of sending for each delivery time; a drain delivers in the order of time, nothing early,
    and leaves nothing behind that is due. *)
Theorem virtual_net_fifo (ops : list net_op) :
  let '(outs, n) := net_run ops VirtualNet_new in
  mjoin outs.*2 ++ vn_pending n ≡ₚ enqueued ops ∧
  (∀ t, at_time t (mjoin outs.*2 ++ vn_pending n) = at_time t (enqueued ops)) ∧
  Forall (λ o, Forall (λ m, deliver_at m ≤ o.1) o.2 ∧ StronglySorted due_le o.2) outs ∧
  ∀ now out n', drain_due now n = (out, n') →
    Forall (λ m, deliver_at m ≤ now) out ∧ Forall (λ m, now < deliver_at m) (vn_pending n').
Proof.
  destruct (net_run ops VirtualNet_new) as [outs n] eqn:Hrun.
  destruct (net_run_spec _ _ _ _ Hrun) as (Ht & Hp & Hs & Ho); [constructor|].
  split; [done|]. split; [done|]. split; [done|].
  intros now out n' (_ & Hout & Hr)%drain_due_eq%pop_due_spec. split; [done|by apply Hr].
Qed.

(** A broadcast in the simulator.  Messages go only to other validators the partition
    lets the sender reach, arrive within the configured delays (the jitter is drawn twice, so up to
    [base + 2 max]), and with neither loss nor duplication every such validator
    gets exactly one; an action without a message changes nothing. *)
Theorem fan_out_reaches `{Build, RngLaws} sender action count now n r n' r' :
  overflow_checks = true → conditions_ok (vn_conditions n) → 0 ≤ now →
  enqueue_from_action sender action count now n r = Ok (n', r') →
  match event_of action with
  | None => n' = n ∧ r' = r
  | Some event => ∃ new,
      vn_pending n' ≡ₚ vn_pending n ++ new ∧
      Forall (λ m, fan_msg n sender event now m ∧ 0 ≤ if_recipient m < count) new ∧
      (StronglySorted due_le (vn_pending n) → StronglySorted due_le (vn_pending n')) ∧
      (reliable (vn_conditions n) →
         if_recipient <$> new = fan_targets n sender (seqZ 0 count))
  end.
Proof.
  intros Hchk Hc Hnow. unfold enqueue_from_action.
  destruct (event_of action) as [event|]; [|by intros [= <- <-]].
  intros Hrun. destruct (fan_out_Ok Hchk _ _ _ _ _ _ _ _ Hc Hnow Hrun)
    as (new & Hp & Hf & Hs & Hin & Hr).
  exists new. split; [done|]. split; [|done]. apply Forall_forall. intros m Hm.
  rewrite Forall_forall in Hf. split; [by apply Hf|]. apply Hin, elem_of_seqZ in Hm. lia.
Qed.

(** Timers of the simulator: when every identifier is scheduled once, a drain fires the due
    timers that were not cancelled, in the queue's order, removes the due ones and forgets their
    cancellations. *)
Theorem virtual_timers_fire now (t : VirtualTimer) out t' :
  NoDup (vt_pending t).*2 → vt_drain_due now t = (out, t') →
  ∃ due, vt_pending t = due ++ vt_pending t' ∧ Forall (λ e, e.1 ≤ now) due ∧
    (∀ e, head (vt_pending t') = Some e → now < e.1) ∧
    out = (λ e, MkTimerId e.2) <$> filter (λ e, e.2 ∉ vt_cancelled t) due ∧
    vt_cancelled t' = vt_cancelled t ∖ list_to_set due.*2.
Proof.
  intros Hnd. unfold vt_drain_due.
  destruct (drain_heap now (vt_pending t) (vt_cancelled t)) as [o [h c]] eqn:Hd.
  intros [= <- <-]. by apply drain_heap_spec.
Qed.

(** An identifier that is cancelled and scheduled again fires for its old entry too: scheduling
    forgets the cancellation, and the entry it was meant for is still in the heap. *)
Example virtual_timer_stale_entry :
  let t := vt_schedule 50 (MkTimerId 1) (vt_cancel (MkTimerId 1)
             (vt_schedule 10 (MkTimerId 1) VirtualTimer_new)) in
  (vt_drain_due 20 t).1 = [MkTimerId 1] ∧ (vt_drain_due 60 t).1 = [MkTimerId 1; MkTimerId 1].
Proof. by vm_compute. Qed.

(** The storage of the simulator is the storage of the node.  After the same calls on a fresh
    RocksDB, all of which succeeded, and on a fresh [VirtualPersistence], every read that
    RocksDB answers gives what the simulated storage holds, and the logs of evidence
    are the same. *)
Theorem simulated_storage_faithful
    `{RocksLaws D, Codec MicroQc, Codec MacroCheckpoint, Codec MacroQc, !Borsh SlashEvidence}
    ops (db : D) oks p :
  rows db = ∅ → Forall op_ok ops → length ops < 2 ^ 64 →
  persist_run ops (RocksPersistence_new db) = (oks, p) → Forall (λ b, b = true) oks →
  let v := vp_run ops VirtualPersistence_new in
  (∀ h o, micro_qc_for p h = Ok o → o = vp_micro_qcs v !! h) ∧
  (∀ h o, u64_ok h → macro_checkpoint_at p h = Ok o → o = vp_macro_cps v !! h) ∧
  (∀ h o, macro_qc_for p h = Ok o → o = vp_macro_qcs v !! h) ∧
  (∀ b s, blob_status p b = Ok s → s = default Accepted (vp_status v b)) ∧
  (∀ i : nat, u64_ok i →
     rows (rp_db p) !! (cf_name CF_SlashEvidence, be_bytes 8 i) = to_vec <$> vp_slash_log v !! i).
Proof.
  intros He%represents_empty Hops Hlen Hrun Hoks v.
  pose proof (persist_run_length _ _ _ _ Hrun) as Hl.
  destruct (persist_run_represents _ _ _ _ _ Hrun He Hops Hlen)
    as [Hmi Hcp Hqc Hst Hev _ _ E1 E2 E3].
  destruct (vp_run_rep ops oks VirtualPersistence_new Artifacts_empty Hl Hoks)
    as [V1 V2 V3 V4 V5 V6]; [split; try done; intros i; cbn; by destruct (_ <? _)|].
  fold v in V1, V2, V3, V4, V5, V6. rewrite V1 in *. rewrite V2 in *. rewrite V3 in *.
  split_and!.
  - intros h o Hg%map_err_Ok. by eapply (get_row_rep CF_MicroQc).
  - intros h o Hh Hg%map_err_Ok. by eapply (get_row_rep CF_MacroCheckpoint).
  - intros h o Hg%map_err_Ok. by eapply (get_row_rep CF_MacroQc).
  - intros b s (o & Hg%map_err_Ok & Hs)%outcome_bind_Ok.
    eapply blob_status_get_Ok in Hg; [|exact Hst]. subst o. rewrite V4 in Hs. unfold vp_status.
    destruct (vp_blob_status v !! b); cbn; congruence.
  - intros i Hi. rewrite (Hev i Hi), V6. destruct (Z.ltb_spec i 0); [lia|]. by rewrite Nat2Z.id.
Qed.

(** The safety checker is exact: it passes precisely when no two validators stored different
    certificates of the same kind for the same checkpoint, and it always answers. *)
Theorem safety_check_spec (ps : list VirtualPersistence) :
  match safety_check ps with
  | Ok _ => ¬ conflict mqc_checkpoint_hash (mjoin (all_micro_qcs <$> ps)) ∧
            ¬ conflict qc_checkpoint_hash (mjoin (all_macro_qcs <$> ps))
  | Err _ => conflict mqc_checkpoint_hash (mjoin (all_micro_qcs <$> ps)) ∨
             conflict qc_checkpoint_hash (mjoin (all_macro_qcs <$> ps))
  | _ => False
  end.
Proof.
  unfold safety_check.
  pose proof (scan_all_ok all_micro_qcs mqc_checkpoint_hash ConflictingMicroQc ps) as Hmi.
  destruct (scan_all all_micro_qcs _ _ ps ∅); ocbn; [|by left|done..].
  pose proof (scan_all_ok all_macro_qcs qc_checkpoint_hash ConflictingMacroQc ps) as Hma.
  destruct (scan_all all_macro_qcs _ _ ps ∅); ocbn; [done|by right|done..].
Qed.

(** The lock checker passes precisely when, at each height below 128, every validator that
    adopted a checkpoint has the hash of the first one that did, and a certificate equal to
    the first one's if both have one. *)
Theorem lock_macro_check_spec (ps : list VirtualPersistence) :
  match lock_macro_check ps with
  | Ok _ => ∀ h, 0 ≤ h < MAX_SCAN_HEIGHT → agree_at ps h
  | Err _ => ∃ h, 0 ≤ h < MAX_SCAN_HEIGHT ∧ ¬ agree_at ps h
  | _ => False
  end.
Proof.
  unfold lock_macro_check.
  pose proof (lock_scan_all_spec ps (λ _, []) ∅) as Hs.
  destruct (lock_scan_all ps ∅); ocbn; apply Hs; intros h; by rewrite lookup_empty.
Qed.

(** ** Witnesses *)

(** A generator that always draws the largest delay and 0.0 *)
#[local] Instance toy_rng : Rng := {| rng := unit; gen_u64 max r := (max, r); gen_unit r := (f64_zero, r) |}.
#[local] Instance toy_rng_laws : RngLaws.
Proof. split; [intros max r ?; cbn; lia|intros r; by vm_compute]. Qed.

Definition toy_r : rng := tt.
Definition sim_checked : Build := true.
Definition toy_micro_qc : MicroQc := MkMicroQc (toy_h32 9) toy_agg.
Definition toy_split_net : VirtualNet :=
  set_partition [0; 1] [2; 3] (set_conditions (with_round_jitter 250) VirtualNet_new).

Lemma fan_out_reaches_witness :
  ∃ n' new, enqueue_from_action (H := sim_checked) 0 (BroadcastMicroQc toy_micro_qc) 4 7 toy_split_net toy_r
              = Ok (n', toy_r) ∧
    vn_pending n' ≡ₚ new ∧ if_recipient <$> new = [1] ∧
    Forall (λ m, fan_msg toy_split_net 0 (MicroQcAssembled toy_micro_qc) 7 m ∧
                 0 ≤ if_recipient m < 4) new.
Proof.
  destruct (enqueue_from_action (H := sim_checked) 0 (BroadcastMicroQc toy_micro_qc) 4 7 toy_split_net toy_r)
    as [[n' []]| | |] eqn:Hrun; try (vm_compute in Hrun; done).
  destruct (fan_out_reaches (H := sim_checked) 0 (BroadcastMicroQc toy_micro_qc) 4 7 toy_split_net toy_r n' toy_r)
    as (new & Hp & Hf & _ & Hr); [reflexivity|by vm_compute|done|exact Hrun|].
  exists n', new. split; [done|]. split; [exact Hp|]. split; [|exact Hf].
  rewrite Hr by (split; reflexivity). vm_compute. reflexivity.
Defined.

Lemma virtual_timers_fire_witness :
  let t := vt_cancel (MkTimerId 2) (vt_schedule 20 (MkTimerId 3) (vt_schedule 10 (MkTimerId 2)
             (vt_schedule 90 (MkTimerId 4) VirtualTimer_new))) in
  (vt_drain_due 30 t).1 = [MkTimerId 3] ∧
  ∃ due, vt_pending t = due ++ vt_pending (vt_drain_due 30 t).2 ∧ Forall (λ e, e.1 ≤ 30) due.
Proof.
  intros t. split; [vm_compute; reflexivity|].
  destruct (virtual_timers_fire 30 t (vt_drain_due 30 t).1 (vt_drain_due 30 t).2)
    as (due & Hd & Hle & _); [vdecide|apply surjective_pairing|].
  by exists due.
Defined.

#[local] Existing Instances toy_store_micro_qc toy_read_micro_qc toy_store_macro_cp
  toy_read_macro_cp toy_store_macro_qc toy_read_macro_qc toy_store_evidence.

Lemma simulated_storage_faithful_witness :
  let r := persist_run toy_ops (RocksPersistence_new (∅ : toy_db)) in
  let v := vp_run toy_ops VirtualPersistence_new in
  macro_qc_for r.2 (toy_h32 1) = Ok (Some toy_stored_qc) ∧
  ∀ h o, macro_qc_for r.2 h = Ok o → o = vp_macro_qcs v !! h.
Proof.
  intros r v. split; [vm_compute; reflexivity|].
  assert (Hops : Forall op_ok toy_ops) by vdecide.
  refine (proj1 (proj2 (proj2 (simulated_storage_faithful toy_ops ∅ r.1 r.2 _ Hops _ _ _)))).
  - reflexivity.
  - vm_compute. reflexivity.
  - apply surjective_pairing.
  - vdecide.
Defined.

(** Where the lock checker is blind: the first validator adopted the checkpoint without a
    certificate, and the other two hold different certificates for it. *)
Example lock_macro_check_misses :
  let cp := MkMacroCheckpoint 3 0 (toy_h32 0) (toy_h32 4) (toy_h32 1) in
  let qc m := MkMacroQc (toy_h32 1) m toy_agg in
  let store ops := vp_run (PO_macro_checkpoint cp :: ops) VirtualPersistence_new in
  lock_macro_check [store []; store [PO_macro_qc (qc Mode0Flat)]; store [PO_macro_qc (qc ModeASubnet)]]
    = Ok tt ∧
  lock_macro_check [store [PO_macro_qc (qc Mode0Flat)]; store [PO_macro_qc (qc ModeASubnet)]; store []]
    = Err (ConflictingQcs 3 (toy_h32 1)).
Proof. by vm_compute. Qed.
