(* ===== verification/SimWorld.v ===== *)
(** [apps/sim]: the simulated world.

    [World] ([world.rs]) owns the state machines of all validators and the stand-ins of [Sim];
    [step_validator] hands one an event and [apply_actions] carries out what it answers, and
    [tick_round] is one round.  [build_certified_vertex] ([vertex_factory.rs]) makes the vertices
    of the runs without the certification protocol; [inject_equivocation] is the adversary of
    [byzantine.rs].

    [world_inv] is what holds of any world a scenario can reach: the machines are the state
    machine run on the calls each received, and what is in flight, stored or in the shared DAG
    was said by one of them, or made by the vertex factory for the round, or is one of the two
    proposals of the adversary.

    [step_validator] and [apply_actions] call each other; fuel bounds the depth. *)

From S2P Require Import Prelude Bytes Types Crypto Toy Vrf Config Leader Dag Linearize Bullshark.
From S2P Require Import MacroState MacroAgg Slashing MacroFin VertexCert StateMachine.
From S2P Require Import Storage Persistence Sim.
Open Scope Z_scope.

(** ** [keys.rs] *)

Record ValidatorKeyRing `{Primitives} := MkKeyRing { kr_bls : list blst_sk; kr_vrf : list VrfKey }.

(** An [expect], or an index out of range, is a panic. *)
Definition expect {E E' A} (m : outcome E A) : outcome E' A :=
  match m with Ok a => Ok a | Err _ => Panic | Panic => Panic | NoFuel => NoFuel end.
Definition expect_some {E A} (o : option A) : outcome E A :=
  match o with Some a => Ok a | None => Panic end.

Section keys.
Context `{Primitives, Curve}.

Definition key_label (seed : bytes) (i : Z) : bytes := seed ++ be_bytes 4 i.

Definition KeyRing_from_seed (seed : bytes) (n : Z) : result ValidatorKeyRing :=
  bls ← omap_list (λ i,
    expect (SecretKey_from_ikm (h32_bytes (blake3_with_dst dst.VALIDATOR_BLS_PARTIAL (key_label seed i)))))
    (seqZ 0 n);
  Ok (MkKeyRing _ bls
        ((λ i, VrfKey_from_seed (h32_bytes (blake3_with_dst dst.MACRO_PROPOSER_SIG (key_label seed i))))
           <$> seqZ 0 n)).

Definition ring_bls_secret (ring : ValidatorKeyRing) (i : nat) : result blst_sk :=
  expect_some (kr_bls ring !! i).
Definition ring_bls_pubkey (ring : ValidatorKeyRing) (i : nat) : result BlsPubkey :=
  sk ← ring_bls_secret ring i; Ok (PublicKey_to_bytes (blst_sk_to_pk sk)).
Definition ring_vrf_pubkey (ring : ValidatorKeyRing) (i : nat) : result VrfPubkey :=
  key ← expect_some (kr_vrf ring !! i); Ok (MkVrfPubkey (VrfKey_pubkey key)).

(** [ValidatorSigner] *)
Definition signer_sign_bls (ring : ValidatorKeyRing) (index : nat) (dst_tag msg : bytes)
  : result BlsSig :=
  sk ← ring_bls_secret ring index; Ok (sign sk dst_tag msg).
Definition signer_vrf_prove (ring : ValidatorKeyRing) (index : nat) (alpha : bytes)
  : result (VrfProof * Hash32) :=
  key ← expect_some (kr_vrf ring !! index); expect (Vrf.vrf_prove key alpha).
End keys.

(** ** [vertex_factory.rs] *)

Definition validator_id_for_index (index : Z) : ValidatorId :=
  MkValidatorId (be_bytes 4 index ++ replicate 28 0).

Definition quorum_vertex_count (validator_count : Z) : Z :=
  let f := saturating_sub validator_count 1 / 3 in
  2 * f + 1.

Section factory.
Context `{Build, Primitives, Curve, !Borsh SignableVertex}.

Definition sim_vertex_hash (round : Round) (author : ValidatorId) : Hash32 :=
  blake3_with_dst dst.SIM_VERTEX_HASH (be_bytes 8 round ++ vid_bytes author).

(** [(round + i) % n]: the sum may overflow, and [n = 0] is a division by zero. *)
Definition rotated_index (round i n : Z) : result Z :=
  sum ← add_w 64 round i;
  if n =? 0 then Panic else Ok (sum `mod` n).

Definition signer_indices_for_round (round n quorum : Z) : result (list Z) :=
  omap_list (λ i, rotated_index round i n) (seqZ 0 quorum).

Definition build_certified_vertex (virtual_round proposer_index : Z)
    (parent_hash : option Hash32) (valset : ValidatorSet) (ring : ValidatorKeyRing)
  : result CertifiedVertex :=
  let author := validator_id_for_index proposer_index in
  let vertex := MkVertex virtual_round author (option_list parent_hash) [] Hash32_zero in
  let n := length (vs_entries valset) in
  let quorum := quorum_vertex_count n in
  indices ← signer_indices_for_round virtual_round n quorum;
  cv ← expect (build_quorum_cert_with vertex valset indices
                 (λ idx, expect (ring_bls_secret ring (Z.to_nat idx))));
  Ok (MkCertifiedVertex ((cv_vertex cv) <| v_hash := sim_vertex_hash virtual_round author |>)
        (cv_certificate cv)).

Definition build_quorum_vertices_for_round (virtual_round : Z) (valset : ValidatorSet)
    (parent_hash : option Hash32) (ring : ValidatorKeyRing) : result (list CertifiedVertex) :=
  let n := length (vs_entries valset) in
  let quorum := quorum_vertex_count n in
  omap_list (λ i,
    proposer ← rotated_index virtual_round i n;
    build_certified_vertex virtual_round proposer parent_hash valset ring) (seqZ 0 quorum).
End factory.

(** ** [world.rs] *)

Record World `{Primitives, Rng} := MkWorld {
  machines : list (StateMachine unit);
  w_net : VirtualNet;
  w_clock : Z;
  w_dag : VirtualDag;
  w_beacon : Hash32;
  w_persistence : list VirtualPersistence;
  w_valset : ValidatorSet;
  w_rng : rng;
  w_config : Config;
  virtual_round : Z;
  w_timer : VirtualTimer;
  anchor_withhold : bool;
  macro_qc_beacon_chained : gset Hash32;
  suppress_macro_proposer : option ValidatorId;
  w_key_ring : ValidatorKeyRing;
  inactivity_leak_emitted : Z;
  distributed_vertices : bool;
}.
#[global] Instance World_eta `{Primitives, Rng} : Settable World := λ w,
  MkWorld _ _ (machines w) (w_net w) (w_clock w) (w_dag w) (w_beacon w) (w_persistence w)
    (w_valset w) (w_rng w) (w_config w) (virtual_round w) (w_timer w) (anchor_withhold w)
    (macro_qc_beacon_chained w) (suppress_macro_proposer w) (w_key_ring w)
    (inactivity_leak_emitted w) (distributed_vertices w).

Section world.
Context `{Build, Primitives, Curve, Rng, MacroBorsh, !Borsh SignableVertex, !Borsh (list Hash32)}.
Context (fuel : nat).

Abbreviation WM := (M Error World).

(** [World::new] *)
Definition World_new (n : Z) (seed : bytes) (config : Config) (rng0 : rng) : result World :=
  key_ring ← KeyRing_from_seed seed n;
  entries ← omap_list (λ i,
    bls ← ring_bls_pubkey key_ring (Z.to_nat i);
    vrf ← ring_vrf_pubkey key_ring (Z.to_nat i);
    Ok (MkValidatorEntry (validator_id_for_index i) bls vrf 1000 (MkValidatorIdentity None None None)))
    (seqZ 0 n);
  Ok (MkWorld _ _
        ((λ i, StateMachine_new config (validator_id_for_index i) tt) <$> seqZ 0 n)
        VirtualNet_new 0 VirtualDag_new (blake3_with_dst dst.BEACON seed)
        (replicate (Z.to_nat n) VirtualPersistence_new)
        (MkValidatorSet 0 entries (n * 1000)) rng0 config 0 VirtualTimer_new false ∅ None key_ring 0
        false).

Definition world_context (w : World) (idx : nat) : HostContext :=
  MkHostContext (vd_vertex (w_dag w)) (vd_vertices_at_round (w_dag w)) (vset_set_for (w_valset w))
    (Ok (w_beacon w)) (signer_sign_bls (w_key_ring w) idx) (signer_vrf_prove (w_key_ring w) idx).

(** A call on [machines[idx]]; an error is a panic. *)
Definition on_machine (idx : nat) (call : HostContext → M Error (StateMachine unit) Actions)
  : WM Actions := λ w,
  match machines w !! idx with
  | None => (Panic, w)
  | Some sm =>
      let '(r, sm') := call (world_context w idx) sm in
      (expect r, w <| machines ::= <[idx := sm']> |>)
  end.

(** [self.persistence[idx]] *)
Definition store (idx : nat) (op : persist_op) : WM unit := λ w,
  match w_persistence w !! idx with
  | None => (Panic, w)
  | Some p => (Ok tt, w <| w_persistence ::= <[idx := vp_persist op p]> |>)
  end.

(** [self.net.enqueue_from_action(validator_idx, &action, n, now, &mut self.rng)] *)
Definition net_send (idx : nat) (action : Action) (now : Z) : WM unit := λ w,
  match enqueue_from_action idx action (length (machines w)) now (w_net w) (w_rng w) with
  | Ok (net, r) => (Ok tt, w <| w_net := net |> <| w_rng := r |>)
  | Err e => (Err e, w)
  | Panic => (Panic, w)
  | NoFuel => (NoFuel, w)
  end.

Definition suppressed (w : World) (p : MacroProposal) : bool :=
  bool_decide (suppress_macro_proposer w = Some (mp_proposer p)).

(** The body of the loop of [apply_actions]; [step] is [step_validator]. *)
Definition world_action (step : nat → Event → WM unit) (idx : nat) (now : Z) (action : Action)
  : WM unit :=
  w ← gets id;
  match action with
  | BroadcastMicroQc qc => _ ← store idx (PO_micro_qc qc); net_send idx action now
  | BroadcastMacroProposal p =>
      if suppressed w p then mret tt
      else
        _ ← (if mode_a_active (compute_ke (w_config w) (length (machines w)))
             then step idx (MacroProposalReceived p) else mret tt);
        net_send idx action now
  | BroadcastBlsPartial _ => net_send idx action now
  | BroadcastMacroQc qc => _ ← store idx (PO_macro_qc qc); net_send idx action now
  | PersistMacroCheckpoint cp => store idx (PO_macro_checkpoint cp)
  | PersistMacroQc qc =>
      _ ← store idx (PO_macro_qc qc);
      if bool_decide (qc_checkpoint_hash qc ∈ macro_qc_beacon_chained w) then mret tt
      else modify (λ w, w <| macro_qc_beacon_chained ::= union {[qc_checkpoint_hash qc]} |>
                          <| w_beacon ::= λ prev, chain_beacon prev (qc_checkpoint_hash qc) |>)
  | UpdateBlobStatus blob status => store idx (PO_blob_status blob status)
  | ScheduleTimer id delay_nanos =>
      modify (λ w, w <| w_timer ::= vt_schedule (saturating_add 64 now (Z.min delay_nanos u64_max)) id |>)
  | CancelTimer id => modify (λ w, w <| w_timer ::= vt_cancel id |>)
  | BroadcastSubnetAggregate _ => net_send idx action now
  | EmitSlashEvidence _ evidence => _ ← store idx (PO_evidence evidence); net_send idx action now
  | NotifyInactivityLeak _ _ =>
      count ← lift (add_w 32 (inactivity_leak_emitted w) 1);
      modify (λ w, w <| inactivity_leak_emitted := count |>)
  | BroadcastVertexProposal _ => net_send idx action now
  | BroadcastVertexPartial _ => net_send idx action now
  | BroadcastCertifiedVertex cv =>
      _ ← modify (λ w, w <| w_dag ::= vd_insert cv |>);
      _ ← step idx (CertifiedVertexReceived cv);
      net_send idx action now
  end.

Definition suppressed_event (w : World) (event : Event) : bool :=
  match event with MacroProposalReceived p => suppressed w p | _ => false end.

Fixpoint step_validator (depth : nat) (now : Z) (idx : nat) (event : Event) : WM unit :=
  match depth with
  | O => nofuel
  | S depth =>
      skip ← gets (λ w, suppressed_event w event);
      if skip : bool then mret tt
      else
        actions ← on_machine idx (λ ctx, step fuel event ctx);
        for_each actions (world_action (step_validator depth now) idx now)
  end.

Definition apply_actions (depth : nat) (idx : nat) (actions : Actions) (now : Z) : WM unit :=
  for_each actions (world_action (step_validator depth now) idx now).

Definition drain_net_and_apply (depth : nat) (now : Z) : WM unit :=
  due ← gets (λ w, (drain_due now (w_net w)).1);
  _ ← modify (λ w, w <| w_net ::= λ n, (drain_due now n).2 |>);
  for_each due (λ msg, step_validator depth now (Z.to_nat (if_recipient msg)) (if_event msg)).

(** [.ok()] of a call that may panic *)
Definition ok {A} (m : result A) : result (option A) :=
  match m with Ok a => Ok (Some a) | Err _ => Ok None | Panic => Panic | NoFuel => NoFuel end.

Definition anchor_author (w : World) (wave : WaveId) : result (option ValidatorId) :=
  choice ← ok (select_anchor wave (w_valset w) (world_context w 0));
  Ok (ac_author <$> (choice : option AnchorChoice)).

Definition anchor_hash_for_wave (w : World) (wave : WaveId) : result (option Hash32) :=
  if bool_decide (vs_epoch (w_valset w) ≠ 0) then Ok None
  else
    author ← anchor_author w wave;
    match author with
    | None => Ok None
    | Some author =>
        verts ← vd_vertices_at_round (w_dag w) (first_round wave);
        Ok ((λ v, v_hash (cv_vertex v)) <$>
              find (λ v, bool_decide (v_author (cv_vertex v) = author)) verts)
    end.

Definition hash_le (a b : CertifiedVertex) : Prop := kle (v_hash (cv_vertex a)) (v_hash (cv_vertex b)).
#[global] Instance hash_le_dec : RelDecision hash_le.
Proof. intros a b. unfold hash_le. apply _. Defined.

Definition parent_hash_for_round (w : World) (round : Z) : result (option Hash32) :=
  if round =? 0 then Ok None
  else
    let wave := of_round round in
    let anchor_round := first_round wave in
    h ← (if anchor_round <? round then anchor_hash_for_wave w wave else Ok None);
    match h with
    | Some h => Ok (Some h)
    | None =>
        verts ← vd_vertices_at_round (w_dag w) (round - 1);
        Ok ((λ v, v_hash (cv_vertex v)) <$> head (merge_sort hash_le verts))
    end.

(** [produce_vertex_tick]: the vertices of the round are delivered to everyone, except the anchor
    author's in the first round of a wave when anchors are withheld. *)
Definition produce_vertex_tick (depth : nat) (now : Z) : WM unit :=
  w ← gets id;
  let r := virtual_round w in
  parent ← lift (parent_hash_for_round w r);
  if bool_decide (vs_epoch (w_valset w) ≠ 0) then panic
  else
    batch ← lift (build_quorum_vertices_for_round r (w_valset w) parent (w_key_ring w));
    withheld_author ←
      lift (let wave := of_round r in
            if anchor_withhold w && (r =? first_round wave) then anchor_author w wave else Ok None);
    let delivered := filter (λ cv, withheld_author ≠ Some (v_author (cv_vertex cv))) batch in
    _ ← modify (λ w, w <| w_dag ::= λ d, foldl (λ d cv, vd_insert cv d) d delivered |>);
    for_each delivered (λ cv,
      for_each (seq 0 (length (machines w))) (λ idx,
        step_validator depth now idx (CertifiedVertexReceived cv))).

Definition drain_timers_and_apply (depth : nat) (now : Z) : WM unit :=
  due ← gets (λ w, (vt_drain_due now (w_timer w)).1);
  _ ← modify (λ w, w <| w_timer ::= λ t, (vt_drain_due now t).2 |>);
  for_each due (λ id,
    n ← gets (λ w, length (machines w));
    for_each (seq 0 n) (λ idx, step_validator depth now idx (TimerFired id))).

Definition genesis_propose_all (depth : nat) (now : Z) : WM unit :=
  n ← gets (λ w, length (machines w));
  for_each (seq 0 n) (λ idx,
    actions ← on_machine idx (λ ctx, sm_genesis_propose fuel ctx);
    apply_actions depth idx actions now).

Definition tick_round (depth : nat) : WM unit :=
  now ← gets w_clock;
  _ ← drain_net_and_apply depth now;
  distributed ← gets distributed_vertices;
  round ← gets virtual_round;
  _ ← (if distributed : bool
       then if round =? 0 then genesis_propose_all depth now else mret tt
       else produce_vertex_tick depth now);
  _ ← drain_timers_and_apply depth now;
  w ← gets id;
  round_nanos ← lift (mul_w 64 (round_duration_ms (timing (w_config w))) 1000000);
  _ ← modify (λ w, w <| w_clock ::= λ t, (t + round_nanos) `mod` 2 ^ 64 |>);
  next ← lift (add_w 64 (virtual_round w) 1);
  modify (λ w, w <| virtual_round := next |>).

Fixpoint run_rounds (depth rounds : nat) : WM unit :=
  match rounds with
  | O => mret tt
  | S rounds => _ ← tick_round depth; run_rounds depth rounds
  end.

(** *** The set-up of a scenario *)

Definition enable_distributed_vertices : WM unit := modify (λ w, w <| distributed_vertices := true |>).
Definition enable_anchor_withhold : WM unit := modify (λ w, w <| anchor_withhold := true |>).
Definition suppress_macro_proposals_from (proposer : ValidatorId) : WM unit :=
  modify (λ w, w <| suppress_macro_proposer := Some proposer |>).
Definition set_network_conditions (c : NetworkConditions) : WM unit :=
  modify (λ w, w <| w_net ::= set_conditions c |>).
Definition world_set_partition (l r : list Z) : WM unit :=
  modify (λ w, w <| w_net ::= set_partition l r |>).
Definition world_heal_partition : WM unit := modify (λ w, w <| w_net ::= heal_partition |>).

(** *** What a scenario reads *)

Definition min_vertex_round (w : World) : Z :=
  match current_vertex_round <$> machines w with
  | [] => 0
  | r :: rs => foldl Z.min r rs
  end.
Definition slash_evidence_count (w : World) : Z :=
  foldr Z.add 0 ((λ p, Z.of_nat (slash_count p)) <$> w_persistence w).

(** ** The adversary ([adversary/byzantine.rs]) *)

(** [World::signed_macro_proposal] *)
Definition signed_macro_proposal (w : World) (proposer_idx : nat) (checkpoint : MacroCheckpoint)
    (beacon : Hash32) : result MacroProposal :=
  if bool_decide (vs_epoch (w_valset w) ≠ 0) then Panic
  else
    entry ← expect_some (vs_entries (w_valset w) !! proposer_idx);
    let proposer := ve_id entry in
    let alpha := vrf_alpha beacon (mc_height checkpoint) proposer in
    vrf ← signer_vrf_prove (w_key_ring w) proposer_idx alpha;
    let msg := proposer_message proposer checkpoint in
    sig ← signer_sign_bls (w_key_ring w) proposer_idx dst.MACRO_PROPOSER_SIG msg;
    Ok (MkMacroProposal checkpoint proposer vrf.1 sig).

Definition inject_equivocation (depth : nat) (validator_idx : nat) : WM unit :=
  n ← gets (λ w, length (machines w));
  let half := (n / 2)%nat in
  _ ← world_set_partition (seqZ 0 half) (seqZ half (n - half));
  w ← gets id;
  let beacon := w_beacon w in
  let cp b := build 0 0 Hash32_zero (MkHash32 (replicate 32 b)) in
  proposal_a ← lift (signed_macro_proposal w validator_idx (cp 0xA1) beacon);
  proposal_b ← lift (signed_macro_proposal w validator_idx (cp 0xB2) beacon);
  _ ← for_each (seq 0 half) (λ idx, step_validator depth 0 idx (MacroProposalReceived proposal_a));
  for_each (seq half (n - half)) (λ idx,
    step_validator depth 0 idx (MacroProposalReceived proposal_b)).
End world.

(** ** What happens in the world was said by a state machine *)

(** Closes [wp (modify f)] with [modify_grown], for an [f] that leaves alone what the invariant
    speaks of. *)
Ltac modify_world_with lem :=
  apply lem; [done|first [reflexivity | exact (λ _ h, h) | intros ? ?; left; assumption]..].
Section authentic.
Context `{Build, Primitives, Curve, Rng, MacroBorsh, !Borsh SignableVertex, !Borsh (list Hash32)}.
Context (fuel : nat) (config : Config) (dist : bool) (set : ValidatorSet) (ring : ValidatorKeyRing).
Context (injected : Event → Prop) (count : nat).

(** The calls each validator has received *)
Abbreviation trace := (nat → list sm_input).

Definition machine_run (tr : trace) (i : nat) : Actions * StateMachine unit :=
  sm_run fuel (tr i) (StateMachine_new config (validator_id_for_index i) tt).
Definition said (tr : trace) (i : nat) (a : Action) : Prop := a ∈ (machine_run tr i).1.
Definition extends (tr tr' : trace) : Prop := ∀ i, tr i `prefix_of` tr' i.

(** A message: some validator said the action it stands for. *)
Definition sent_by (tr : trace) (ev : Event) : Prop :=
  ∃ i a, said tr i a ∧ event_of a = Some ev.

(** Without the certification protocol the simulator makes the certified vertices of a round
    itself, with the keys of the validators. *)
Definition made (cv : CertifiedVertex) : Prop :=
  dist = false ∧
  ∃ r parent batch, build_quorum_vertices_for_round r set parent ring = Ok batch ∧ cv ∈ batch.

(** An event a validator may be handed: a message that was sent, a timer that was asked for, an
    event of the adversary or a vertex made for the round. *)
Definition heard (tr : trace) (ev : Event) : Prop :=
  sent_by tr ev ∨
  (∃ id i delay, ev = TimerFired id ∧ said tr i (ScheduleTimer id delay)) ∨
  (∃ cv, ev = CertifiedVertexReceived cv ∧ made cv) ∨
  injected ev.

(** The validator announced the certificate or stored it as an answer. *)
Definition decided (tr : trace) (j : nat) (qc : MacroQc) : Prop :=
  said tr j (BroadcastMacroQc qc) ∨ said tr j (PersistMacroQc qc).

(** What validator [j] stored are its own decisions. *)
Record stored_by (tr : trace) (j : nat) (p : VirtualPersistence) : Prop := {
  sb_micro h qc : vp_micro_qcs p !! h = Some qc →
    mqc_checkpoint_hash qc = h ∧ said tr j (BroadcastMicroQc qc);
  sb_cps h cp : vp_macro_cps p !! h = Some cp →
    mc_height cp = h ∧ said tr j (PersistMacroCheckpoint cp);
  sb_macro h qc : vp_macro_qcs p !! h = Some qc → qc_checkpoint_hash qc = h ∧ decided tr j qc;
  sb_evidence ev : ev ∈ vp_slash_log p → ∃ offender, said tr j (EmitSlashEvidence offender ev);
  sb_status b st : vp_blob_status p !! b = Some st → said tr j (UpdateBlobStatus b st);
}.

(** A certificate of the shared DAG, in either index *)
Definition in_dag (cv : CertifiedVertex) (d : VirtualDag) : Prop :=
  (∃ h, vd_by_hash d !! h = Some cv) ∨ (∃ r cvs, vd_by_round d !! r = Some cvs ∧ cv ∈ cvs).

Record world_inv (tr : trace) (w : World) : Prop := {
  wi_dist : distributed_vertices w = dist;
  wi_count : length (machines w) = count;
  wi_machines i sm : machines w !! i = Some sm → sm = (machine_run tr i).2;
  wi_net m : m ∈ vn_pending (w_net w) → sent_by tr (if_event m);
  wi_dag cv : in_dag cv (w_dag w) → (∃ i, said tr i (BroadcastCertifiedVertex cv)) ∨ made cv;
  wi_store j p : w_persistence w !! j = Some p → stored_by tr j p;
  wi_timer e : e ∈ vt_pending (w_timer w) → ∃ i delay, said tr i (ScheduleTimer (MkTimerId e.2) delay);
  wi_heard i c ev : c ∈ tr i → c.1 = HC_event ev → heard tr ev;
  wi_set : w_valset w = set;
  wi_ring : w_key_ring w = ring;
}.

(** The invariant holds of [w] for a trace that extends [tr]. *)
Definition grown (tr : trace) (w : World) : Prop := ∃ tr', extends tr tr' ∧ world_inv tr' w.

Lemma extends_refl tr : extends tr tr.
Proof. intros i. done. Qed.
Lemma extends_trans tr1 tr2 tr3 : extends tr1 tr2 → extends tr2 tr3 → extends tr1 tr3.
Proof. intros He He' i. etrans; [apply He|apply He']. Qed.
Lemma grown_intro tr w : world_inv tr w → grown tr w.
Proof. intros. exists tr. split; [apply extends_refl|done]. Qed.
Lemma grown_weaken tr tr' w : extends tr tr' → grown tr' w → grown tr w.
Proof. intros He (tr2 & He2 & Hi). exists tr2. split; [by eapply extends_trans|done]. Qed.

Lemma sm_run_prefix (ins ins' : list sm_input) (s : StateMachine unit) a :
  ins `prefix_of` ins' → a ∈ (sm_run fuel ins s).1 → a ∈ (sm_run fuel ins' s).1.
Proof.
  intros [k ->]. induction k as [|i k IH] using rev_ind; [by rewrite app_nil_r|].
  intros Ha. rewrite app_assoc, sm_run_snoc. cbn. apply elem_of_app. left. by apply IH.
Qed.

Lemma said_mono tr tr' i a : extends tr tr' → said tr i a → said tr' i a.
Proof. intros He. apply sm_run_prefix, He. Qed.
Lemma sent_by_mono tr tr' ev : extends tr tr' → sent_by tr ev → sent_by tr' ev.
Proof. intros He (i & a & Ha & Hev). exists i, a. split; [by eapply said_mono|done]. Qed.
Lemma heard_mono tr tr' ev : extends tr tr' → heard tr ev → heard tr' ev.
Proof.
  intros He [Hs|[(id & i & d & Hev & Hi)|Hd]]; [left|right; left|by right; right].
  - by eapply sent_by_mono.
  - exists id, i, d. split; [done|by eapply said_mono].
Qed.
Lemma decided_mono tr tr' j qc : extends tr tr' → decided tr j qc → decided tr' j qc.
Proof. intros He [Hq|Hq]; [left|right]; by eapply said_mono. Qed.
Lemma stored_by_mono tr tr' j p : extends tr tr' → stored_by tr j p → stored_by tr' j p.
Proof.
  intros He [Hs1 Hs2 Hs3 Hs4 Hs5]. pose proof (λ a, said_mono tr tr' j a He) as Hsaid. split.
  - intros h qc [? ?]%Hs1. auto.
  - intros h cp [? ?]%Hs2. auto.
  - intros h qc [? ?]%Hs3. split; [done|by eapply decided_mono].
  - intros ev [o Ho]%Hs4. exists o. auto.
  - intros b st ?%Hs5. auto.
Qed.

(** *** The storage *)

Definition op_said (tr : trace) (j : nat) (op : persist_op) : Prop :=
  match op with
  | PO_micro_qc qc => said tr j (BroadcastMicroQc qc)
  | PO_macro_checkpoint cp => said tr j (PersistMacroCheckpoint cp)
  | PO_macro_qc qc => decided tr j qc
  | PO_evidence ev => ∃ offender, said tr j (EmitSlashEvidence offender ev)
  | PO_blob_status b st => said tr j (UpdateBlobStatus b st)
  end.

Lemma stored_by_persist tr j op p :
  op_said tr j op → stored_by tr j p → stored_by tr j (vp_persist op p).
Proof.
  destruct p as [v1 v2 v3 v4 v5]. intros Hop [Hs1 Hs2 Hs3 Hs4 Hs5]. destruct op; split; cbn in *; try done.
  - intros h q [[<- <-]|[_ Hq]]%lookup_insert_Some; [done|by eapply Hs1].
  - intros h q [[<- <-]|[_ Hq]]%lookup_insert_Some; [done|by eapply Hs2].
  - intros h q [[<- <-]|[_ Hq]]%lookup_insert_Some; [done|by eapply Hs3].
  - intros e [He|He%list_elem_of_singleton]%elem_of_app; [by apply Hs4|by subst].
  - intros b' st [[<- <-]|[_ Hq]]%lookup_insert_Some; [|by apply Hs5].
    destruct (v5 !! blob) as [old|] eqn:Hold; cbn; destruct (_ <? _); by auto.
Qed.

(** *** The network *)

Lemma perturb_event c r msg maybe dup r' m :
  perturb c r msg = Ok (maybe, dup, r') → m ∈ option_list maybe ++ option_list dup →
  if_event m = if_event msg.
Proof.
  unfold perturb. destruct (gen_unit r) as [x r1].
  destruct (f64_ltb x _); [intros [= <- <- <-]; by intros ?%elem_of_nil|].
  destruct (if 0 <? _ then _ else _) as [e r2].
  intros (at' & _ & Hrest)%outcome_bind_Ok. destruct (gen_unit r2) as [y r3].
  injection Hrest as <- <- <-. destruct (f64_ltb y _); cbn; intros Hm; destruct msg;
    repeat (apply elem_of_cons in Hm as [->|Hm]; [done|]); by apply elem_of_nil in Hm.
Qed.

Lemma fan_out_event recipients sender ev now n r n' r' m :
  fan_out recipients sender ev now n r = Ok (n', r') →
  m ∈ vn_pending n' → m ∈ vn_pending n ∨ if_event m = ev.
Proof.
  revert n r. induction recipients as [|i recipients IH]; intros n r; cbn [fan_out].
  { intros [= <- <-]. by left. }
  destruct (_ || _); [apply IH|]. destruct (jitter_nanos _ r) as [j r1].
  intros ([[maybe dup] r2] & Hpt & Hrun)%outcome_bind_Ok Hm.
  destruct (IH _ _ Hrun Hm) as [Hin|Hev]; [|by right].
  rewrite !pending_enqueue, app_assoc, elem_of_app in Hin. destruct Hin as [Hin|Hin]; [right|by left].
  apply (perturb_event _ _ _ _ _ _ m) in Hpt; [done|]. rewrite elem_of_app in *. tauto.
Qed.

Lemma enqueue_event sender action k now n r n' r' m :
  enqueue_from_action sender action k now n r = Ok (n', r') →
  m ∈ vn_pending n' → m ∈ vn_pending n ∨ event_of action = Some (if_event m).
Proof.
  unfold enqueue_from_action. destruct (event_of action) as [ev|].
  - intros Hrun Hm. destruct (fan_out_event _ _ _ _ _ _ _ _ _ Hrun Hm); [by left|right; congruence].
  - intros [= <- <-]. by left.
Qed.
(** *** The steps of the world *)

Lemma wp_grow {A B} tr (m : M Error World A) (f : A → M Error World B) w :
  wp m (λ _, grown tr) w →
  (∀ a w', grown tr w' → wp (f a) (λ _, grown tr) w') →
  wp (m ≫= f) (λ _, grown tr) w.
Proof.
  intros Hm Hf. apply wp_bind. eapply wp_mono; [|exact Hm]. intros [a|e| |] w' Hw'; [by apply Hf|done..].
Qed.

(** Every change of the world but a call. *)
Lemma grown_change tr w w' :
  grown tr w →
  distributed_vertices w' = distributed_vertices w → machines w' = machines w →
  w_valset w' = w_valset w → w_key_ring w' = w_key_ring w →
  (∀ tr', extends tr tr' → world_inv tr' w →
     (∀ m, m ∈ vn_pending (w_net w') → sent_by tr' (if_event m)) ∧
     (∀ cv, in_dag cv (w_dag w') → (∃ i, said tr' i (BroadcastCertifiedVertex cv)) ∨ made cv) ∧
     (∀ j p, w_persistence w' !! j = Some p → stored_by tr' j p) ∧
     (∀ e, e ∈ vt_pending (w_timer w') → ∃ i d, said tr' i (ScheduleTimer (MkTimerId e.2) d))) →
  grown tr w'.
Proof.
  intros (tr' & He & Hi) Hd Hm Hset Hring Hrest. exists tr'. split; [done|].
  destruct (Hrest tr' He Hi) as (Hn & Hv & Hs & Ht).
  split; [by rewrite Hd; eapply wi_dist|by rewrite Hm; eapply wi_count| |done..|by eapply wi_heard|
          by rewrite Hset; eapply wi_set|by rewrite Hring; eapply wi_ring].
  intros i sm. rewrite Hm. by eapply wi_machines.
Qed.

Lemma on_machine_grown tr w idx c :
  (∀ ev, c = HC_event ev → heard tr ev) → grown tr w →
  wp (on_machine idx (λ ctx, sm_handle fuel (c, ctx)))
     (λ r w', ∃ tr', extends tr tr' ∧ world_inv tr' w' ∧
        ∀ acts, r = Ok acts → ∀ a, a ∈ acts → said tr' idx a) w.
Proof.
  intros Hc (tr1 & He & Hi). unfold wp, on_machine.
  destruct (machines w !! idx) as [sm|] eqn:Hsm; [|exists tr1; by split_and!].
  set (i := (c, world_context w idx)).
  pose proof (wi_machines _ _ Hi _ _ Hsm) as Hrun.
  set (tr2 := λ j, if bool_decide (j = idx) then tr1 idx ++ [i] else tr1 j).
  assert (He2 : extends tr1 tr2).
  { intros j. unfold tr2. case_bool_decide as Hj; [subst; by apply prefix_app_r|done]. }
  assert (Hrun2 : machine_run tr2 idx =
            ((machine_run tr1 idx).1 ++ match (sm_handle fuel i sm).1 with Ok a => a | _ => [] end,
             (sm_handle fuel i sm).2)).
  { unfold machine_run, tr2 at 1. rewrite bool_decide_true by done. rewrite sm_run_snoc, Hrun. done. }
  destruct (sm_handle fuel i sm) as [r sm'] eqn:Hcall. cbn in Hrun2 |- *. exists tr2.
  split; [by eapply extends_trans|]. split.
  - destruct w as [w1 w2 w3 w4 w5 w6 w7 w8 w9 w10 w11 w12 w13 w14 w15 w16 w17].
    destruct Hi as [Hd Hl Hm Hn Hv Hs Ht Hh He1 He3]. cbn in *.
    split; cbn; [done|by rewrite length_insert|..|done|done].
    + intros j sm2 [(<- & <- & _)|[Hne Hj]]%list_lookup_insert_Some; [by rewrite Hrun2|].
      rewrite (Hm _ _ Hj). unfold machine_run, tr2. by rewrite bool_decide_false.
    + intros m Hm'. by eapply sent_by_mono, Hn.
    + intros cv Hin. destruct (Hv cv Hin) as [[k Hk]|Hk]; [left|by right].
      exists k. by eapply said_mono.
    + intros j p Hj. by eapply stored_by_mono, Hs.
    + intros e Hin. destruct (Ht e Hin) as (k & d & Hk). exists k, d. by eapply said_mono.
    + intros j c' ev Hin Hev. unfold tr2 in Hin.
      case_bool_decide as Hj; [|eapply heard_mono; [done|by eapply Hh]].
      apply elem_of_app in Hin as [Hin|Hin%list_elem_of_singleton].
      * eapply heard_mono; [done|]. eapply Hh; [exact Hin|done].
      * subst c'. apply (heard_mono tr); [by eapply extends_trans|by apply Hc].
  - intros acts Hr a Ha. unfold said. rewrite Hrun2. cbn. apply elem_of_app. right.
    destruct r; cbn in Hr; by simplify_eq.
Qed.

Lemma op_said_mono tr tr' j op : extends tr tr' → op_said tr j op → op_said tr' j op.
Proof.
  intros He. pose proof (λ a, said_mono tr tr' j a He) as Hs.
  destruct op; cbn; try done; try by apply Hs.
  - by apply decided_mono.
  - intros [o Ho]. exists o. by apply Hs.
Qed.

Lemma store_grown tr w idx op :
  op_said tr idx op → grown tr w → wp (store idx op) (λ _, grown tr) w.
Proof.
  intros Hop Hg. unfold wp, store. destruct (w_persistence w !! idx) as [p|] eqn:Hp; [|done]. cbn.
  destruct w as [w1 w2 w3 w4 w5 w6 w7 w8 w9 w10 w11 w12 w13 w14 w15 w16 w17].
  apply (grown_change _ _ _ Hg); [done..|]. intros tr' He [Hd Hl Hm Hn Hv Hs Ht Hh _ _]. cbn in *.
  split_and!; [by apply Hn|by apply Hv| |done].
  intros j q [(<- & <- & _)|[_ Hj]]%list_lookup_insert_Some; [|by apply Hs].
  apply stored_by_persist; [by eapply op_said_mono|by apply Hs].
Qed.

Lemma net_send_grown tr w idx action now :
  said tr idx action → grown tr w → wp (net_send idx action now) (λ _, grown tr) w.
Proof.
  intros Ha Hg. unfold wp, net_send.
  destruct (enqueue_from_action _ _ _ _ _ _) as [[net r]|e| |] eqn:Hq; [|done..]. cbn.
  destruct w as [w1 w2 w3 w4 w5 w6 w7 w8 w9 w10 w11 w12 w13 w14 w15 w16 w17].
  apply (grown_change _ _ _ Hg); [done..|]. intros tr' He [Hd Hl Hm Hn Hv Hs Ht Hh _ _]. cbn in *.
  split_and!; [|by apply Hv|by apply Hs|done]. intros m Hin.
  destruct (enqueue_event _ _ _ _ _ _ _ _ _ Hq Hin) as [Hold|Hev]; [by apply Hn|].
  exists idx, action. split; [by eapply said_mono|done].
Qed.

(** A change that adds no message, certificate, stored item or timer *)
Lemma modify_grown tr w f :
  grown tr w →
  distributed_vertices (f w) = distributed_vertices w → machines (f w) = machines w →
  w_valset (f w) = w_valset w → w_key_ring (f w) = w_key_ring w →
  vn_pending (w_net (f w)) ⊆ vn_pending (w_net w) →
  (∀ cv, in_dag cv (w_dag (f w)) → in_dag cv (w_dag w) ∨ made cv) →
  w_persistence (f w) = w_persistence w →
  vt_pending (w_timer (f w)) ⊆ vt_pending (w_timer w) →
  wp (modify (E:=Error) f) (λ _, grown tr) w.
Proof.
  intros Hg Hd Hm Hse Hr Hn Hv Hs Ht. apply wp_modify. apply (grown_change _ _ _ Hg); [done..|].
  intros tr' He [Hd' Hl' Hm' Hn' Hv' Hs' Ht' Hh' _ _]. rewrite Hs.
  split_and!; [by intros m ?%Hn; apply Hn'| |done|by intros e ?%Ht; apply Ht'].
  intros cv [Hin|?]%Hv; [by apply Hv'|by right].
Qed.

Lemma vd_insert_in cv cv' d : in_dag cv' (vd_insert cv d) → cv' = cv ∨ in_dag cv' d.
Proof.
  intros [[h Hh]|(r & cvs & Hr & Hin)]; cbn in *.
  - apply lookup_insert_Some in Hh as [[_ <-]|[_ Hh]]; [by left|right; left; by exists h].
  - apply lookup_insert_Some in Hr as [[Hrr <-]|[_ Hr]]; [|right; right; by exists r, cvs].
    apply elem_of_app in Hin as [Hin|Hin%list_elem_of_singleton]; [|by left].
    destruct (vd_by_round d !! _) as [l|] eqn:Hl; [|by apply elem_of_nil in Hin].
    right; right. by eexists _, _.
Qed.

Lemma foldl_insert_in cvs cv d :
  in_dag cv (foldl (λ d cv, vd_insert cv d) d cvs) → in_dag cv d ∨ cv ∈ cvs.
Proof.
  revert d. induction cvs as [|c cvs IH]; intros d; [by left|]. cbn [foldl].
  intros [[->|Hin]%vd_insert_in|Hin]%IH; [right; by left|by left|right; by right].
Qed.

Lemma insert_dag_grown tr w idx cv :
  said tr idx (BroadcastCertifiedVertex cv) → grown tr w →
  wp (modify (E:=Error) (λ w, w <| w_dag ::= vd_insert cv |>)) (λ _, grown tr) w.
Proof.
  intros Ha Hg. apply wp_modify.
  destruct w as [w1 w2 w3 w4 w5 w6 w7 w8 w9 w10 w11 w12 w13 w14 w15 w16 w17].
  apply (grown_change _ _ _ Hg); [done..|]. intros tr' He [Hd Hl Hm Hn Hv Hs Ht Hh _ _]. cbn in *.
  split_and!; [by apply Hn| |by apply Hs|done]. intros cv' [->|Hin]%vd_insert_in; [|by apply Hv].
  left. exists idx. by eapply said_mono.
Qed.

Lemma heap_push_in e e' h : e' ∈ heap_push e h → e' = e ∨ e' ∈ h.
Proof.
  induction h as [|x h IH]; cbn; [by intros ->%list_elem_of_singleton; left|].
  destruct (entry_leb x e); rewrite !elem_of_cons; tauto.
Qed.

Lemma schedule_grown tr w idx at' id delay :
  said tr idx (ScheduleTimer id delay) → grown tr w →
  wp (modify (E:=Error) (λ w, w <| w_timer ::= vt_schedule at' id |>)) (λ _, grown tr) w.
Proof.
  intros Ha Hg. apply wp_modify.
  destruct w as [w1 w2 w3 w4 w5 w6 w7 w8 w9 w10 [tp tc] w12 w13 w14 w15 w16 w17].
  apply (grown_change _ _ _ Hg); [done..|]. intros tr' He [Hd Hl Hm Hn Hv Hs Ht Hh _ _]. cbn in *.
  split_and!; [by apply Hn|by apply Hv|by apply Hs|]. intros e [->|Hin]%heap_push_in; [|by apply Ht].
  exists idx, delay. destruct id. by eapply said_mono.
Qed.

Lemma grown_after tr tr' {A} (m : M Error World A) w :
  extends tr tr' → wp m (λ _, grown tr') w → wp m (λ _, grown tr) w.
Proof. intros He. apply wp_mono. intros _ w'. by apply grown_weaken. Qed.

(** What [step_validator] is to keep *)
Definition keeps {A} (m : M Error World A) : Prop :=
  ∀ tr w, grown tr w → wp m (λ _, grown tr) w.
Definition keeps_step (stp : nat → Event → M Error World unit) : Prop :=
  ∀ i ev tr w, heard tr ev → grown tr w → wp (stp i ev) (λ _, grown tr) w.

Lemma said_heard tr i a ev : said tr i a → event_of a = Some ev → heard tr ev.
Proof. intros Ha Hev. left. by exists i, a. Qed.

Lemma world_action_grown stp idx now action tr w :
  keeps_step stp → said tr idx action → grown tr w →
  wp (world_action stp idx now action) (λ _, grown tr) w.
Proof.
  intros Hstp Ha Hg. unfold world_action. apply wp_bind, wp_gets. cbn beta iota.
  pose proof (said_heard tr idx action) as Hh.
  destruct action; repeat case_match;
    try (apply wp_grow; [|intros ? ? ?]); try apply wp_ret; try apply wp_lift;
    try (apply store_grown; [|done]); try (by eapply schedule_grown);
    try modify_world_with modify_grown;
    try (by apply net_send_grown); try (by apply Hstp; [apply Hh|]); try done.
  all: cbn; unfold decided; eauto.
  - by eapply insert_dag_grown.
  - apply wp_grow; [by apply Hstp; [apply Hh|]|]. intros ? ? ?. by apply net_send_grown.
Qed.

Lemma apply_actions_grown stp idx now actions tr w :
  keeps_step stp → (∀ a, a ∈ actions → said tr idx a) → grown tr w →
  wp (for_each actions (world_action stp idx now)) (λ _, grown tr) w.
Proof.
  intros Hstp Hsaid Hg. apply wp_for_each; [|done]. intros a w' Hin Hg'.
  apply world_action_grown; [done|by apply Hsaid|done].
Qed.

(** A call and what it answers *)
Lemma call_and_apply stp idx now c tr w :
  keeps_step stp → (∀ ev, c = HC_event ev → heard tr ev) → grown tr w →
  wp (actions ← on_machine idx (λ ctx, sm_handle fuel (c, ctx));
      for_each actions (world_action stp idx now)) (λ _, grown tr) w.
Proof.
  intros Hstp Hc Hg. apply wp_bind. eapply wp_mono; [|by apply on_machine_grown].
  intros r w' (tr' & He & Hi & Hsaid).
  destruct r as [acts|e| |]; [|exists tr'; by split..].
  apply (grown_after tr tr'); [done|]. apply apply_actions_grown; [done| |by apply grown_intro].
  by apply Hsaid.
Qed.

Lemma step_validator_keeps depth now : keeps_step (step_validator fuel depth now).
Proof.
  induction depth as [|depth IH]; intros idx event tr w Hev Hg; [done|].
  cbn [step_validator]. apply wp_grow; [by apply wp_gets|]. intros skip w' Hg'.
  destruct skip; [by apply wp_ret|].
  apply (call_and_apply _ idx now (HC_event event)); [apply IH| |done]. by intros ev [= <-].
Qed.

(** A loop of steps *)
Lemma grown_for_each {A} (l : list A) (body : A → M Error World unit) tr w :
  (∀ a w', a ∈ l → grown tr w' → wp (body a) (λ _, grown tr) w') → grown tr w →
  wp (for_each l body) (λ _, grown tr) w.
Proof. apply wp_for_each. Qed.

Lemma pop_due_in now l m :
  (m ∈ (pop_due now l).1 → m ∈ l) ∧ (m ∈ (pop_due now l).2 → m ∈ l).
Proof.
  induction l as [|x l IH]; cbn; [by split|].
  destruct (deliver_at x <=? now); cbn; [|split; [by intros ?%elem_of_nil|done]].
  destruct (pop_due now l) as [out rest]. cbn in *. rewrite !elem_of_cons. tauto.
Qed.

Lemma drain_due_in now n :
  (drain_due now n).1 ⊆ vn_pending n ∧ vn_pending (drain_due now n).2 ⊆ vn_pending n.
Proof.
  destruct (drain_due now n) as [out n'] eqn:Hd. apply drain_due_eq in Hd. cbn.
  pose proof (pop_due_in now (vn_pending n)) as Hp. rewrite Hd in Hp.
  split; intros m Hm; destruct (Hp m) as [Hl Hr]; [by apply Hl|by apply Hr].
Qed.

Lemma drain_net_keeps depth now : keeps (drain_net_and_apply fuel depth now).
Proof.
  intros tr w (tr1 & He & Hi). apply (grown_after tr tr1); [done|].
  apply wp_bind, wp_gets. cbn beta iota. apply wp_bind. eapply wp_mono.
  2: { apply (modify_grown tr1); [by apply grown_intro|reflexivity..| |by intros ? ?; left|reflexivity|exact (λ _ h, h)].
       apply (proj2 (drain_due_in now (w_net w))). }
  intros [[]|e| |] w' Hg'; [|done..]. apply grown_for_each; [|done].
  intros m w2 Hm Hg2. apply step_validator_keeps; [|done]. left. apply (wi_net _ _ Hi).
  by apply (proj1 (drain_due_in now (w_net w))).
Qed.

Lemma drain_heap_in now h c id :
  id ∈ (drain_heap now h c).1 → ∃ e, e ∈ h ∧ id = MkTimerId e.2.
Proof.
  revert c. induction h as [|[at' x] h IH]; intros c; cbn; [by intros ?%elem_of_nil|].
  destruct (now <? at'); [by intros ?%elem_of_nil|].
  destruct (bool_decide _); [|destruct (drain_heap now h c) as [out s] eqn:Hd; cbn].
  - intros (e & He & ->)%IH. exists e. split; [by right|done].
  - intros [->|Hin]%elem_of_cons; [by exists (at', x); split; [left|]|].
    destruct (IH c) as (e & He & ->); [by rewrite Hd|]. exists e. split; [by right|done].
Qed.
Lemma drain_heap_rest now h c : (drain_heap now h c).2.1 ⊆ h.
Proof.
  revert c. induction h as [|[at' x] h IH]; intros c; cbn; [done|].
  destruct (now <? at'); [done|].
  destruct (bool_decide _); [|specialize (IH c); destruct (drain_heap now h c) as [out s]];
    intros e He; right; by eapply IH.
Qed.

Lemma vt_drain_due_in now t :
  vt_pending (vt_drain_due now t).2 ⊆ vt_pending t ∧
  ∀ id, id ∈ (vt_drain_due now t).1 → ∃ e, e ∈ vt_pending t ∧ id = MkTimerId e.2.
Proof.
  unfold vt_drain_due. pose proof (drain_heap_rest now (vt_pending t) (vt_cancelled t)) as Hr.
  pose proof (drain_heap_in now (vt_pending t) (vt_cancelled t)) as Hi.
  destruct (drain_heap now _ _) as [out [h c]]. split; [exact Hr|exact Hi].
Qed.

Lemma drain_timers_keeps depth now : keeps (drain_timers_and_apply fuel depth now).
Proof.
  intros tr w (tr1 & He & Hi). apply (grown_after tr tr1); [done|].
  apply wp_bind, wp_gets. cbn beta iota. apply wp_bind. eapply wp_mono.
  2: { apply (modify_grown tr1); [by apply grown_intro|reflexivity..|exact (λ _ h, h)|by intros ? ?; left|reflexivity|].
       apply (proj1 (vt_drain_due_in now (w_timer w))). }
  intros [[]|e| |] w' Hg'; [|done..]. apply grown_for_each; [|done].
  intros id w2 Hid Hg2. apply wp_bind, wp_gets. cbn beta iota. apply grown_for_each; [|done].
  intros idx w3 _ Hg3. apply step_validator_keeps; [|done]. right; left.
  destruct (proj2 (vt_drain_due_in now (w_timer w)) id Hid) as (e & He' & ->).
  destruct (wi_timer _ _ Hi e He') as (k & d & Hk). by exists (MkTimerId e.2), k, d.
Qed.

Lemma genesis_propose_all_keeps depth now : keeps (genesis_propose_all fuel depth now).
Proof.
  intros tr w Hg. apply wp_bind, wp_gets. cbn beta iota. apply grown_for_each; [|done].
  intros idx w' _ Hg'. apply (call_and_apply _ idx now HC_genesis); [apply step_validator_keeps| |done].
  intros ev. by intros [=].
Qed.

Lemma produce_vertex_tick_keeps depth now :
  dist = false → keeps (produce_vertex_tick fuel depth now).
Proof.
  intros Hdist tr w Hg. assert (Hw : w_valset w = set ∧ w_key_ring w = ring).
  { destruct Hg as (tr' & _ & Hi). split; [by eapply wi_set|by eapply wi_ring]. }
  destruct Hw as [Hset Hring]. apply wp_bind, wp_gets. unfold id.
  apply wp_bind, wp_lift. destruct (parent_hash_for_round w _) as [parent| | |]; [|done..].
  case_bool_decide; [done|]. apply wp_bind, wp_lift.
  destruct (build_quorum_vertices_for_round _ _ _ _) as [batch| | |] eqn:Hb; [|done..].
  assert (Hmade : ∀ cv, cv ∈ batch → made cv).
  { intros cv Hcv. split; [done|]. rewrite Hset, Hring in Hb. by exists (virtual_round w), parent, batch. }
  apply wp_grow; [by apply wp_lift|]. intros withheld w3 Hg3.
  apply wp_grow.
  { apply modify_grown; [done|reflexivity..|exact (λ _ h, h)| |reflexivity|exact (λ _ h, h)].
    intros cv [?|Hin]%foldl_insert_in; [by left|right].
    by apply Hmade; apply list_elem_of_filter in Hin as [_ ?]. }
  intros _ w4 Hg4. apply grown_for_each; [|done]. intros cv w5 Hin Hg5.
  apply list_elem_of_filter in Hin as [_ Hin].
  apply grown_for_each; [|done]. intros idx w6 _ Hg6. apply step_validator_keeps; [|done].
  right; right; left. exists cv. split; [done|by apply Hmade].
Qed.

Lemma tick_round_keeps depth : keeps (tick_round fuel depth).
Proof.
  intros tr w Hg. unfold tick_round. apply wp_bind, wp_gets. cbn beta iota.
  apply wp_grow; [by apply drain_net_keeps|]. intros _ w1 Hg1.
  apply wp_bind, wp_gets. cbn beta iota. apply wp_bind, wp_gets. cbn beta iota.
  apply wp_grow.
  { destruct (distributed_vertices w1) eqn:Hd.
    - destruct (_ =? 0); [by apply genesis_propose_all_keeps|by apply wp_ret].
    - apply produce_vertex_tick_keeps; [|done]. destruct Hg1 as (tr' & _ & Hi).
      by rewrite <- (wi_dist _ _ Hi). }
  intros _ w2 Hg2. apply wp_grow; [by apply drain_timers_keeps|]. intros _ w3 Hg3.
  apply wp_bind, wp_gets. cbn beta iota. apply wp_grow; [by apply wp_lift|]. intros nanos w4 Hg4.
  apply wp_grow; [|intros _ w5 Hg5; apply wp_grow; [by apply wp_lift|intros next w6 Hg6]].
  all: modify_world_with modify_grown.
Qed.

Lemma run_rounds_keeps depth k : keeps (run_rounds fuel depth k).
Proof.
  induction k as [|k IH]; intros tr w Hg; [by apply wp_ret|].
  apply wp_grow; [by apply tick_round_keeps|]. intros _. by apply IH.
Qed.

(** The new world, before any call *)
Lemma World_new_inv n seed rng0 w :
  World_new n seed config rng0 = Ok w → count = Z.to_nat n →
  w_valset w = set → w_key_ring w = ring →
  world_inv (λ _, []) (w <| distributed_vertices := dist |>).
Proof.
  intros (ring0 & _ & (entries & _ & [= <-])%outcome_bind_Ok)%outcome_bind_Ok Hcount <- <-.
  split; cbn; [done|by rewrite length_fmap, length_seqZ|..|done|done].
  - intros i sm (x & -> & Hx)%list_lookup_fmap_Some. unfold machine_run. cbn.
    apply lookup_seqZ in Hx as [-> _]. by rewrite Z.add_0_l.
  - by intros m ?%elem_of_nil.
  - intros cv [[h Hh]|(r & cvs & Hr & _)]; cbn in *; by simplify_map_eq.
  - intros j p [-> _]%lookup_replicate. split; cbn; try by intros ?? ?%lookup_empty_Some.
    by intros ev ?%elem_of_nil.
  - by intros e ?%elem_of_nil.
  - by intros i c ev ?%elem_of_nil.
Qed.

Lemma keeps_bind {A B} (m : M Error World A) (f : A → M Error World B) :
  keeps m → (∀ a, keeps (f a)) → keeps (m ≫= f).
Proof. intros Hm Hf tr w Hg. apply wp_grow; [by apply Hm|]. intros a. apply Hf. Qed.

End authentic.

(** What the adversary hands out: one of the two proposals that the equivocating validator signs
    with its own key. *)
Definition equivocation `{Build, Primitives, Curve, Rng, MacroBorsh} (idx : nat)
    (set : ValidatorSet) (ring : ValidatorKeyRing) (ev : Event) : Prop :=
  ∃ w b p, w_valset w = set ∧ w_key_ring w = ring ∧ (b = 0xA1 ∨ b = 0xB2) ∧
    ev = MacroProposalReceived p ∧
    signed_macro_proposal w idx (build 0 0 Hash32_zero (MkHash32 (replicate 32 b))) (w_beacon w) = Ok p.

Section equivocating.
Context `{Build, Primitives, Curve, Rng, MacroBorsh, !Borsh SignableVertex, !Borsh (list Hash32)}.
Context (fuel : nat) (config : Config) (dist : bool) (set : ValidatorSet) (ring : ValidatorKeyRing).
Context (count : nat).

Lemma inject_equivocation_keeps depth idx :
  keeps fuel config dist set ring (equivocation idx set ring) count (inject_equivocation fuel depth idx).
Proof.
  intros tr w Hg. apply wp_bind, wp_gets. cbn beta iota.
  apply wp_grow; [unfold world_set_partition; modify_world_with modify_grown|].
  intros _ w1 Hg1. assert (Hw : w_valset w1 = set ∧ w_key_ring w1 = ring).
  { destruct Hg1 as (tr' & _ & Hi). split; [by eapply wi_set|by eapply wi_ring]. }
  apply wp_bind, wp_gets. cbv beta iota zeta. change (id w1) with w1.
  apply wp_bind, wp_lift.
  destruct (signed_macro_proposal w1 idx _ _) as [pa|e| |] eqn:Ha; [|done..].
  apply wp_bind, wp_lift.
  destruct (signed_macro_proposal w1 idx _ (w_beacon w1)) as [pb|e| |] eqn:Hb in |- *; [|done..].
  apply wp_grow; [|intros _ w2 Hg2].
  all: apply grown_for_each; [|done]; intros i w3 _ Hg3; apply step_validator_keeps; [|done].
  - do 3 right. exists w1, 0xA1, pa. split_and!; [apply Hw..|by left|done|exact Ha].
  - do 3 right. exists w1, 0xB2, pb. split_and!; [apply Hw..|by right|done|exact Hb].
Qed.
End equivocating.
