(* ===== verification/Scenarios.v ===== *)
(** [apps/sim]: the scenarios ([scenarios/]) and their reports.

    A scenario makes a [World], sets up the network or the adversary, runs it for some rounds and
    reports what the checkers of [Sim] say of the storage; what it does with its new world is a
    definition of its own, its script.  [dispatch] picks the scenario of the
    command line.  [dispatch_authentic] says which world the report is about: the one in which
    the scenario ends, whose machines, messages and stored items are those of
    [SimWorld.world_inv]. *)

From stdpp Require Import pretty.
From S2P Require Import Prelude Bytes Types Crypto Toy Vrf Config Leader Dag Linearize Bullshark.
From S2P Require Import MacroState MacroAgg Slashing MacroFin VertexCert StateMachine.
From S2P Require Import Storage Persistence Net Sim SimWorld.
Open Scope Z_scope.

(** ** [args.rs], [scenarios/mod.rs] *)

Inductive Scenario :=
| HappyPath | AnchorDos | ModeBFallback | ModeASubnet | EquivocationInject | InactivityLeak
| ByzantineSplit | NetworkPartition | VertexCertDistributed.
#[global] Instance Scenario_eq_dec : EqDecision Scenario.
Proof. solve_decision. Defined.

Record SimArgs := MkSimArgs {
  arg_validators : Z;
  arg_rounds : Z;
  arg_seed : string;
  arg_scenario : Scenario;
}.

Record Report := MkReport {
  rp_scenario : string;
  rp_validators : Z;
  rp_rounds : Z;
  safety_ok : bool;
  liveness_ok : bool;
  lock_macro_ok : bool;
  notes : list string;
}.

Definition parse_seed `{Primitives, Hex} (s : string) : bytes :=
  let trimmed := default s (strip_prefix "0x" s) in
  match hex_decode trimmed with
  | Some b => if (length b =? 32)%nat then b else h32_bytes (blake3_with_dst dst.CONTENT_HASH (str_bytes s))
  | None => h32_bytes (blake3_with_dst dst.CONTENT_HASH (str_bytes s))
  end.

Section scenarios.
Context `{Build, Primitives, Curve, Rng, Hex, MacroBorsh, !Borsh SignableVertex, !Borsh (list Hash32)}.
(** [ChaCha20Rng::from_seed] *)
Context (from_seed : bytes → rng).
Context (fuel depth : nat).

(** A run of a new world *)
Definition new_world (n : Z) (seed : bytes) (cfg : Config) (script : World → M Error World unit)
  : result World :=
  w ← World_new n seed cfg (from_seed seed);
  let '(r, w') := script w w in
  _ ← r; Ok w'.

Definition run_for (rounds : Z) : M Error World unit := run_rounds fuel depth (Z.to_nat rounds).

(** The report of the three checkers *)
Definition checked (name : string) (validators rounds : Z) (notes : World → list string) (w : World)
  : Report :=
  MkReport name validators rounds (is_ok (safety_check (w_persistence w)))
    (is_ok (liveness_check (w_persistence w))) (is_ok (lock_macro_check (w_persistence w))) (notes w).

(** What each scenario does with its new world is a script of its own. *)
Definition happy_path_script (rounds : Z) : World → M Error World unit := λ _,
  _ ← set_network_conditions (with_round_jitter (round_duration_ms (timing default_table_17_1)));
  run_for rounds.
Definition happy_path (validators rounds : Z) (seed : bytes) : result Report :=
  let cfg := default_table_17_1 in
  let rounds := rounds `max` 96 in
  w ← new_world validators seed cfg (happy_path_script rounds);
  Ok (checked "happy_path" validators rounds
        (λ _, ["l3_finality_active"; "network_jitter_from_round_duration"]) w).

Definition anchor_dos_script (rounds : Z) : World → M Error World unit := λ _,
  _ ← enable_anchor_withhold; run_for rounds.
Definition anchor_dos (validators rounds : Z) (seed : bytes) : result Report :=
  w ← new_world validators seed default_table_17_1 (anchor_dos_script rounds);
  Ok (checked "anchor_dos" validators rounds
        (λ w, ["anchor_vertex_withheld_each_wave"; "lock_macro_skipped_until_03c";
               if is_ok (liveness_check (w_persistence w))
               then "unexpected_liveness_under_anchor_withhold" else "liveness_blocked_as_expected"])
        w).

Definition mode_b_fallback_script (rounds : Z) : World → M Error World unit := λ w,
  set ← lift (expect (o ← vset_set_for (w_valset w) 0; expect_some o));
  schedule ← lift (vrf_sortition (w_beacon w) set 0 ∅);
  _ ← suppress_macro_proposals_from (ps_primary schedule);
  run_for rounds.
Definition mode_b_fallback (validators rounds : Z) (seed : bytes) : result Report :=
  let rounds := rounds `max` 128 in
  w ← new_world validators seed default_table_17_1 (mode_b_fallback_script rounds);
  Ok (checked "mode_b_fallback" validators rounds
        (λ _, ["l3_mode_b_fallback_active"; "primary_proposer_suppressed"]) w).

Definition mode_a_subnet (validators rounds : Z) (seed : bytes) : result Report :=
  let validators := validators `max` 8 in
  let rounds := rounds `max` 128 in
  w ← new_world validators seed sim_mode_a_dev (λ _, run_for rounds);
  Ok (checked "mode_a_subnet" validators rounds
        (λ _, ["l3_mode_a_active"; "sim_mode_a_dev_threshold"]) w).

Definition equivocation_inject_script (rounds : Z) : World → M Error World unit := λ _,
  _ ← inject_equivocation fuel depth 0; run_for rounds.
Definition equivocation_inject (validators rounds : Z) (seed : bytes) : result Report :=
  w ← new_world validators seed default_table_17_1 (equivocation_inject_script rounds);
  Ok (checked "equivocation_inject" validators rounds
        (λ w, [if 0 <? slash_evidence_count w then "slash_emitted" else "no slash evidence"]) w).

Definition inactivity_leak (validators rounds : Z) (seed : bytes) : result Report :=
  Ok (MkReport "inactivity_leak" validators rounds true true true
        [if probe_inactivity_leak_streak default_table_17_1
         then "inactivity_leak_emitted" else "no inactivity leak";
         "seed=" +:+ hex_encode seed]).

Definition byzantine_split (validators rounds : Z) (seed : bytes) : result Report :=
  let rounds := rounds `max` 96 in
  w ← new_world validators seed default_table_17_1 (λ _, run_for rounds);
  Ok (checked "byzantine_split" validators rounds (λ _, ["l3_finality_active"]) w).

Fixpoint partition_ticks (ticks : list Z) (heal_at : Z) : M Error World unit :=
  match ticks with
  | [] => mret tt
  | tick :: ticks =>
      _ ← (if tick =? heal_at then world_heal_partition else mret tt);
      _ ← tick_round fuel depth;
      partition_ticks ticks heal_at
  end.

Definition network_partition_script (validators rounds : Z) : World → M Error World unit := λ _,
  let mid := validators / 2 in
  _ ← set_network_conditions (with_round_jitter (round_duration_ms (timing default_table_17_1)));
  _ ← world_set_partition (seqZ 0 mid) (seqZ mid (validators - mid));
  partition_ticks (seqZ 0 rounds) (rounds / 4).
Definition network_partition (validators rounds : Z) (seed : bytes) : result Report :=
  let cfg := default_table_17_1 in
  let rounds := rounds `max` 128 in
  let heal_at := rounds / 4 in
  w ← new_world validators seed cfg (network_partition_script validators rounds);
  Ok (checked "network_partition" validators rounds
        (λ w, ["partition_healed_at_round_" +:+ pretty heal_at; "l3_finality_active";
               if is_ok (liveness_check (w_persistence w))
               then "recovered_liveness_after_heal" else "liveness_failed_after_heal"]) w).

Definition vertex_cert_distributed_script (rounds : Z) : World → M Error World unit := λ _,
  _ ← enable_distributed_vertices; run_for rounds.
Definition vertex_cert_distributed (validators rounds : Z) (seed : bytes) : result Report :=
  w ← new_world validators seed default_table_17_1 (vertex_cert_distributed_script rounds);
  let min_round := min_vertex_round w in
  let advanced := 2 <=? min_round in
  Ok (MkReport "vertex-cert-distributed" validators rounds advanced advanced true
        ["min own-proposal round = " +:+ pretty min_round]).

Definition dispatch (args : SimArgs) : result Report :=
  let seed := parse_seed (arg_seed args) in
  match arg_scenario args with
  | HappyPath => happy_path (arg_validators args) (arg_rounds args) seed
  | AnchorDos => anchor_dos (arg_validators args) (arg_rounds args) seed
  | ModeBFallback => mode_b_fallback (arg_validators args) (arg_rounds args) seed
  | ModeASubnet => mode_a_subnet (arg_validators args) (arg_rounds args) seed
  | EquivocationInject => equivocation_inject (arg_validators args) (arg_rounds args) seed
  | InactivityLeak => inactivity_leak (arg_validators args) (arg_rounds args) seed
  | ByzantineSplit => byzantine_split (arg_validators args) (arg_rounds args) seed
  | NetworkPartition => network_partition (arg_validators args) (arg_rounds args) seed
  | VertexCertDistributed => vertex_cert_distributed (arg_validators args) (arg_rounds args) seed
  end.
End scenarios.

(** ** What a report says *)

Section reports.
Context `{Build, Primitives, Curve, Rng, Hex, MacroBorsh, !Borsh SignableVertex, !Borsh (list Hash32)}.
Context (from_seed : bytes → rng) (fuel depth : nat).

Section verdicts.
Context (config : Config) (dist : bool) (set : ValidatorSet) (ring : ValidatorKeyRing).
Context (injected : Event → Prop) (count : nat).

Abbreviation said := (said fuel config).
Abbreviation decided := (decided fuel config).
Abbreviation world_inv := (world_inv fuel config dist set ring injected count).

(** Two validators announced or adopted different things under one hash, or at one height. *)
Definition micro_conflict (tr : nat → list sm_input) : Prop :=
  ∃ i j qc qc', said tr i (BroadcastMicroQc qc) ∧ said tr j (BroadcastMicroQc qc') ∧
    mqc_checkpoint_hash qc = mqc_checkpoint_hash qc' ∧ qc ≠ qc'.
Definition macro_conflict (tr : nat → list sm_input) : Prop :=
  ∃ i j qc qc', decided tr i qc ∧ decided tr j qc' ∧
    qc_checkpoint_hash qc = qc_checkpoint_hash qc' ∧ qc ≠ qc'.
Definition checkpoint_conflict (tr : nat → list sm_input) : Prop :=
  ∃ i j cp cp', said tr i (PersistMacroCheckpoint cp) ∧ said tr j (PersistMacroCheckpoint cp') ∧
    mc_height cp = mc_height cp' ∧ mc_hash cp ≠ mc_hash cp'.

Lemma elem_of_stored {Q} (read : VirtualPersistence → list Q) (ps : list VirtualPersistence) q :
  q ∈ mjoin (read <$> ps) → ∃ j p, ps !! j = Some p ∧ q ∈ read p.
Proof.
  intros (l & Hq & (p & -> & Hp)%list_elem_of_fmap)%list_elem_of_join.
  apply list_elem_of_lookup in Hp as [j Hj]. by exists j, p.
Qed.

Lemma elem_of_values {Q} (m : gmap Hash32 Q) q : q ∈ (map_to_list m).*2 → ∃ h, m !! h = Some q.
Proof. intros ([h q'] & -> & Hq%elem_of_map_to_list)%list_elem_of_fmap. by exists h. Qed.

(** A certificate conflict among what is stored is one among what was said. *)
Lemma stored_micro_conflict tr w :
  world_inv tr w → conflict mqc_checkpoint_hash (mjoin (all_micro_qcs <$> w_persistence w)) →
  micro_conflict tr.
Proof.
  intros Hi (q & q' & (i & p & Hp & [h Hq]%elem_of_values)%elem_of_stored
                    & (j & p' & Hp' & [h' Hq']%elem_of_values)%elem_of_stored & Hk & Hne).
  exists i, j, q, q'. split_and!; [|..|done|done].
  - by apply (sb_micro _ _ _ _ _ (wi_store _ _ _ _ _ _ _ _ _ Hi _ _ Hp) h).
  - by apply (sb_micro _ _ _ _ _ (wi_store _ _ _ _ _ _ _ _ _ Hi _ _ Hp') h').
Qed.
Lemma stored_macro_conflict tr w :
  world_inv tr w → conflict qc_checkpoint_hash (mjoin (all_macro_qcs <$> w_persistence w)) →
  macro_conflict tr.
Proof.
  intros Hi (q & q' & (i & p & Hp & [h Hq]%elem_of_values)%elem_of_stored
                    & (j & p' & Hp' & [h' Hq']%elem_of_values)%elem_of_stored & Hk & Hne).
  exists i, j, q, q'. split_and!; [|..|done|done].
  - by apply (sb_macro _ _ _ _ _ (wi_store _ _ _ _ _ _ _ _ _ Hi _ _ Hp) h).
  - by apply (sb_macro _ _ _ _ _ (wi_store _ _ _ _ _ _ _ _ _ Hi _ _ Hp') h').
Qed.

(** Disagreement at a height, too *)
Lemma disagreement_said tr w h :
  world_inv tr w → ¬ agree_at (w_persistence w) h → checkpoint_conflict tr ∨ macro_conflict tr.
Proof.
  intros Hi Hno. unfold agree_at in Hno.
  destruct (omap (adopted h) (w_persistence w)) as [|a rest] eqn:Hall; [done|].
  assert (∀ x, x ∈ a :: rest → ∃ j p cp, w_persistence w !! j = Some p ∧
    vp_macro_cps p !! h = Some cp ∧ x = (mc_hash cp, vp_macro_qcs p !! mc_hash cp)) as Hof.
  { intros x Hx. rewrite <- Hall in Hx. apply list_elem_of_omap in Hx as (p & Hp & Hx).
    apply list_elem_of_lookup in Hp as [j Hj]. unfold adopted in Hx.
    destruct (vp_macro_cps p !! h) as [cp|] eqn:Hcp; [|done]. injection Hx as <-. by exists j, p, cp. }
  apply not_Forall_Exists, Exists_exists in Hno as (b & Hb & Hab); [|apply _].
  destruct (Hof a) as (i & p & cp & Hp & Hcp & ->); [by left|].
  destruct (Hof b) as (j & p' & cp' & Hp' & Hcp' & ->); [by right|].
  pose proof (wi_store _ _ _ _ _ _ _ _ _ Hi _ _ Hp) as Hs. pose proof (wi_store _ _ _ _ _ _ _ _ _ Hi _ _ Hp') as Hs'.
  destruct (sb_cps _ _ _ _ _ Hs _ _ Hcp) as [Hh Hsaid]. destruct (sb_cps _ _ _ _ _ Hs' _ _ Hcp') as [Hh' Hsaid'].
  unfold compatible in Hab. cbn in Hab.
  destruct (decide (mc_hash cp = mc_hash cp')) as [He|He]; [right|left].
  - destruct (vp_macro_qcs p !! mc_hash cp) as [q|] eqn:Hq; [|by destruct Hab].
    destruct (vp_macro_qcs p' !! mc_hash cp') as [q'|] eqn:Hq'; [|by destruct Hab].
    destruct (sb_macro _ _ _ _ _ Hs _ _ Hq) as [Hk Hd]. destruct (sb_macro _ _ _ _ _ Hs' _ _ Hq') as [Hk' Hd'].
    exists i, j, q, q'. split_and!; [done|done|congruence|]. intros ->. by destruct Hab.
  - exists i, j, cp, cp'. split_and!; [done|done|congruence|done].
Qed.

(** The liveness checker *)
Lemma live_said tr w :
  world_inv tr w → is_ok (liveness_check (w_persistence w)) = true →
  (∃ i qc, said tr i (BroadcastMicroQc qc)) ∧ (∃ i blob, said tr i (UpdateBlobStatus blob Finalized)).
Proof.
  intros Hi. unfold liveness_check.
  destruct (existsb any_micro_qc _) eqn:Hm; [|done].
  destruct (existsb (λ p, (1 <=? finalized_count p)%nat) _) eqn:Hf; [|done]. intros _.
  apply existsb_exists in Hm as (p & Hp%list_elem_of_In & Hm).
  apply existsb_exists in Hf as (p' & Hp'%list_elem_of_In & Hf).
  apply list_elem_of_lookup in Hp as [i Hi1]. apply list_elem_of_lookup in Hp' as [j Hj].
  split.
  - unfold any_micro_qc in Hm. apply negb_true_iff, bool_decide_eq_false, map_choose in Hm as (h & qc & Hq).
    exists i, qc. by apply (sb_micro _ _ _ _ _ (wi_store _ _ _ _ _ _ _ _ _ Hi _ _ Hi1) h).
  - apply Nat.leb_le in Hf. unfold finalized_count in Hf.
    destruct (filter _ _) as [|st l] eqn:Hl; [cbn in Hf; lia|].
    assert (Hin : st ∈ filter (λ s, s = Finalized) ((map_to_list (vp_blob_status p')).*2))
      by (rewrite Hl; by left).
    apply list_elem_of_filter in Hin as [-> ([b st] & Hst & Hb%elem_of_map_to_list)%list_elem_of_fmap].
    cbn in Hst. subst st. exists j, b. by apply (sb_status _ _ _ _ _ (wi_store _ _ _ _ _ _ _ _ _ Hi _ _ Hj)).
Qed.
(** What the report [r] of scenario [s] says of the run [tr] of [count] validators *)
Definition judged (s : Scenario) (tr : nat → list sm_input) (r : Report) : Prop :=
  match s with
  | InactivityLeak => True
  | VertexCertDistributed =>
      safety_ok r = liveness_ok r ∧ lock_macro_ok r = true ∧
      (liveness_ok r = true → ∀ i, (i < count)%nat → 2 ≤ current_vertex_round (machine_run fuel config tr i).2)
  | _ =>
      (safety_ok r = false → micro_conflict tr ∨ macro_conflict tr) ∧
      (lock_macro_ok r = false → checkpoint_conflict tr ∨ macro_conflict tr) ∧
      (liveness_ok r = true →
         (∃ i qc, said tr i (BroadcastMicroQc qc)) ∧
         (∃ i blob, said tr i (UpdateBlobStatus blob Finalized)))
  end.

Lemma checked_judged s tr w name v rounds ns :
  world_inv tr w → s ≠ VertexCertDistributed → judged s tr (checked name v rounds ns w).
Proof.
  intros Hi Hs.
  assert ((is_ok (safety_check (w_persistence w)) = false → micro_conflict tr ∨ macro_conflict tr) ∧
    (is_ok (lock_macro_check (w_persistence w)) = false → checkpoint_conflict tr ∨ macro_conflict tr) ∧
    (is_ok (liveness_check (w_persistence w)) = true →
       (∃ i qc, said tr i (BroadcastMicroQc qc)) ∧
       (∃ i blob, said tr i (UpdateBlobStatus blob Finalized)))) as Hall.
  { split_and!.
    - pose proof (safety_check_spec (w_persistence w)) as Hc.
      destruct (safety_check _); [done|intros _|done..].
      destruct Hc as [Hc|Hc]; [left|right]; by eapply stored_micro_conflict || by eapply stored_macro_conflict.
    - pose proof (lock_macro_check_spec (w_persistence w)) as Hc.
      destruct (lock_macro_check _); [done|intros _|done..].
      destruct Hc as (h & _ & Hh). by eapply disagreement_said.
    - by apply live_said. }
  destruct s; [exact Hall..|exact I|exact Hall|exact Hall|done].
Qed.

Lemma foldl_min_le (z : Z) l a : a ∈ z :: l → foldl Z.min z l ≤ a.
Proof.
  revert z a. induction l as [|b l IH]; intros z a; cbn.
  { intros ->%list_elem_of_singleton. lia. }
  intros [->|[->|Hin]%elem_of_cons]%elem_of_cons.
  - etrans; [apply IH; by left|]. lia.
  - etrans; [apply IH; by left|]. lia.
  - apply IH. by right.
Qed.

Lemma min_vertex_round_le w i sm :
  machines w !! i = Some sm → min_vertex_round w ≤ current_vertex_round sm.
Proof.
  intros Hi. unfold min_vertex_round.
  assert (current_vertex_round sm ∈ current_vertex_round <$> machines w) as Hin.
  { apply list_elem_of_fmap. exists sm. split; [done|]. by eapply list_elem_of_lookup_2. }
  destruct (current_vertex_round <$> machines w) as [|z l]; [by apply elem_of_nil in Hin|].
  by apply foldl_min_le.
Qed.
End verdicts.

(** *** The world a scenario runs *)

Lemma new_world_run n seed cfg dist injected script w :
  new_world from_seed n seed cfg script = Ok w →
  (∀ w0, World_new n seed cfg (from_seed seed) = Ok w0 →
     let set := w_valset w0 in let ring := w_key_ring w0 in
     wp (script w0)
       (λ _, grown fuel cfg dist set ring (injected set ring) (Z.to_nat n) (λ _, [])) w0) →
  ∃ tr, world_inv fuel cfg dist (w_valset w) (w_key_ring w)
          (injected (w_valset w) (w_key_ring w)) (Z.to_nat n) tr w.
Proof.
  intros (w0 & Hnew & Hrun)%outcome_bind_Ok Hscript. specialize (Hscript w0 Hnew).
  unfold wp in Hscript. destruct (script w0 w0) as [r w1].
  apply outcome_bind_Ok in Hrun as (? & _ & [= <-]). destruct Hscript as (tr & _ & Hi).
  cbn [snd] in Hi. exists tr. pose proof (wi_set _ _ _ _ _ _ _ _ _ Hi) as ->.
  pose proof (wi_ring _ _ _ _ _ _ _ _ _ Hi) as ->. exact Hi.
Qed.

Lemma World_new_plain n seed cfg rng0 w :
  World_new n seed cfg rng0 = Ok w → w <| distributed_vertices := false |> = w.
Proof.
  by intros (ring & _ & (entries & _ & [= <-])%outcome_bind_Ok)%outcome_bind_Ok.
Qed.

(** A scenario without the certification protocol *)
Lemma plain_run n seed cfg injected (script : World → M Error World unit) w :
  new_world from_seed n seed cfg script = Ok w →
  (∀ w0 set ring, keeps fuel cfg false set ring (injected set ring) (Z.to_nat n) (script w0)) →
  ∃ tr, world_inv fuel cfg false (w_valset w) (w_key_ring w)
          (injected (w_valset w) (w_key_ring w)) (Z.to_nat n) tr w.
Proof.
  intros Hrun Hk. eapply new_world_run; [exact Hrun|]. intros w0 Hnew. apply Hk, grown_intro.
  rewrite <- (World_new_plain _ _ _ _ _ Hnew). by eapply World_new_inv.
Qed.

Definition nothing (set : ValidatorSet) (ring : ValidatorKeyRing) : Event → Prop := λ _, False.

(** What a scenario runs with: the number of validators, the parameters, whether vertices are
    certified by the protocol, what the adversary hands out, and the script *)
Definition scenario_validators (args : SimArgs) : Z :=
  match arg_scenario args with ModeASubnet => arg_validators args `max` 8 | _ => arg_validators args end.
Definition scenario_config (s : Scenario) : Config :=
  match s with ModeASubnet => sim_mode_a_dev | _ => default_table_17_1 end.
Definition scenario_distributed (s : Scenario) : bool :=
  match s with VertexCertDistributed => true | _ => false end.
Definition scenario_injected (s : Scenario) : ValidatorSet → ValidatorKeyRing → Event → Prop :=
  match s with EquivocationInject => equivocation 0 | _ => nothing end.
Definition scenario_script (args : SimArgs) : World → M Error World unit :=
  let rounds := arg_rounds args in
  match arg_scenario args with
  | HappyPath => happy_path_script fuel depth (rounds `max` 96)
  | AnchorDos => anchor_dos_script fuel depth rounds
  | ModeBFallback => mode_b_fallback_script fuel depth (rounds `max` 128)
  | ModeASubnet => λ _, run_for fuel depth (rounds `max` 128)
  | EquivocationInject => equivocation_inject_script fuel depth rounds
  | InactivityLeak => λ _, mret tt
  | ByzantineSplit => λ _, run_for fuel depth (rounds `max` 96)
  | NetworkPartition => network_partition_script fuel depth (arg_validators args) (rounds `max` 128)
  | VertexCertDistributed => vertex_cert_distributed_script fuel depth rounds
  end.

(** The world in which the scenario ends *)
Definition scenario_world (args : SimArgs) : result World :=
  new_world from_seed (scenario_validators args) (parse_seed (arg_seed args))
    (scenario_config (arg_scenario args)) (scenario_script args).

(** The verdicts of the report are those of the checkers on what world [w] has stored. *)
Definition checked_on (s : Scenario) (w : World) (r : Report) : Prop :=
  match s with
  | VertexCertDistributed =>
      safety_ok r = (2 <=? min_vertex_round w) ∧ liveness_ok r = (2 <=? min_vertex_round w) ∧
      lock_macro_ok r = true
  | _ =>
      safety_ok r = is_ok (safety_check (w_persistence w)) ∧
      liveness_ok r = is_ok (liveness_check (w_persistence w)) ∧
      lock_macro_ok r = is_ok (lock_macro_check (w_persistence w))
  end.

(** The report is on the world in which the scenario ended, which the calls [tr] of its machines
    account for. *)
Definition authentic (args : SimArgs) (r : Report) : Prop :=
  let s := arg_scenario args in
  let n := Z.to_nat (scenario_validators args) in
  ∃ tr w, scenario_world args = Ok w ∧
    world_inv fuel (scenario_config s) (scenario_distributed s) (w_valset w) (w_key_ring w)
      (scenario_injected s (w_valset w) (w_key_ring w)) n tr w ∧
    checked_on s w r ∧ judged (scenario_config s) n s tr r.

Lemma checked_authentic args cfg injected name v rounds ns w :
  new_world from_seed (scenario_validators args) (parse_seed (arg_seed args)) cfg
    (scenario_script args) = Ok w →
  scenario_config (arg_scenario args) = cfg → scenario_distributed (arg_scenario args) = false →
  scenario_injected (arg_scenario args) = injected →
  (∀ w0 set ring, keeps fuel cfg false set ring (injected set ring)
     (Z.to_nat (scenario_validators args)) (scenario_script args w0)) →
  authentic args (checked name v rounds ns w).
Proof.
  intros Hrun <- Hd <- Hk. destruct (plain_run _ _ _ _ _ _ Hrun Hk) as [tr Hi].
  exists tr, w. rewrite Hd. split; [exact Hrun|]. split; [exact Hi|].
  assert (Hs : arg_scenario args ≠ VertexCertDistributed) by by intros Hs; rewrite Hs in Hd.
  split; [by destruct (arg_scenario args)|]. by eapply checked_judged.
Qed.

Section keeping.
Context (cfg : Config) (dist : bool) (set : ValidatorSet) (ring : ValidatorKeyRing).
Context (injected : Event → Prop) (n : nat).
Abbreviation keeps := (keeps fuel cfg dist set ring injected n).

Lemma run_for_keeps rounds : keeps (run_for fuel depth rounds).
Proof. apply run_rounds_keeps. Qed.
Lemma conditions_keep c : keeps (set_network_conditions c).
Proof. intros tr w Hg. unfold set_network_conditions. modify_world_with modify_grown. Qed.
Lemma partition_keeps l r : keeps (world_set_partition l r).
Proof. intros tr w Hg. unfold world_set_partition. modify_world_with modify_grown. Qed.
Lemma heal_keeps : keeps world_heal_partition.
Proof. intros tr w Hg. unfold world_heal_partition. modify_world_with modify_grown. Qed.
Lemma withhold_keeps : keeps enable_anchor_withhold.
Proof. intros tr w Hg. unfold enable_anchor_withhold. modify_world_with modify_grown. Qed.
Lemma suppress_keeps v : keeps (suppress_macro_proposals_from v).
Proof. intros tr w Hg. unfold suppress_macro_proposals_from. modify_world_with modify_grown. Qed.
Lemma lift_keeps {A} (m : result A) : keeps (lift m).
Proof. intros tr w Hg. by apply wp_lift. Qed.

Lemma partition_ticks_keeps ticks heal_at : keeps (partition_ticks fuel depth ticks heal_at).
Proof.
  induction ticks as [|t ticks IH]; [by intros tr w Hg; apply wp_ret|].
  apply keeps_bind; [|intros _; apply keeps_bind; [apply tick_round_keeps|by intros _]].
  destruct (t =? heal_at); [apply heal_keeps|by intros tr w Hg; apply wp_ret].
Qed.
End keeping.
#[local] Hint Resolve run_for_keeps conditions_keep partition_keeps heal_keeps withhold_keeps
  suppress_keeps partition_ticks_keeps lift_keeps : core.
#[local] Hint Extern 1 (keeps _ _ _ _ _ _ _ (_ ≫= _)) => apply keeps_bind; [|intros ?] : core.

End reports.

(** ** Witness *)

#[local] Existing Instances toy_rng toy_curve.
#[local] Instance toy_hex : Hex := {| hex_encode _ := ""; hex_decode _ := None |}.

(** Four validators certify the genesis vertices. *)
Definition toy_args : SimArgs := MkSimArgs 4 2 "00" VertexCertDistributed.
Definition toy_report : Report :=
  MkReport "vertex-cert-distributed" 4 2 false false true ["min own-proposal round = 0"].

