(* ===== verification/Cli.v ===== *)
(** [apps/cli]: the developer and operator tool.

    [cli_dispatch] runs one subcommand and returns the lines it printed with its outcome.  Files,
    RocksDB, the ChaCha20 generator, the clock and the decoders are parameters; [Hex] is the
    [hex] crate.  [replay_host_context] is the stub host under which [replay-log] steps a fresh
    state machine.

    Shown: what a replay of any log answers ([replay_spec]); that the printed seed regenerates a
    key bundle ([keygen_seed_regenerates]); that a dump lists the rows of its column, once and in
    key order ([dump_lists_rows]); that [verify] accepts exactly what the verifier accepts. *)

From Stdlib Require Import Ascii String.
From stdpp Require Import strings.
From S2P Require Import Prelude Bytes Types Crypto Toy Vrf Config Leader Dag Linearize Bullshark.
From S2P Require Import MacroState MacroAgg Slashing MacroFin VertexCert StateMachine Storage.
From S2P Require Import Persistence Gf256 Erasure Blob Net Node NodeConfig Rpc.
Open Scope string_scope.
Open Scope list_scope.
Open Scope Z_scope.

(** ** [args.rs] *)

Inductive InspectKind := Summary | MacroCheckpoints | MacroQcs.
Record InspectArgs := MkInspectArgs { ia_db : PathBuf; ia_kind : InspectKind }.
Record KeygenArgs := MkKeygenArgs { ka_seed : option string }.
Record VerifyArgs := MkVerifyArgs { va_evidence : PathBuf; va_valset : PathBuf }.
Record ReplayArgs := MkReplayArgs { ra_log : PathBuf }.
Record BenchArgs := MkBenchArgs { ba_partials : Z; ba_iters : Z }.
Inductive Command :=
| Cmd_Inspect (a : InspectArgs)
| Cmd_Keygen (a : KeygenArgs)
| Cmd_Verify (a : VerifyArgs)
| Cmd_ReplayLog (a : ReplayArgs)
| Cmd_BenchAggregate (a : BenchArgs).

(** ** What is printed, and the errors of [anyhow] *)

Record KeyBundle := MkKeyBundle {
  bls_pubkey_hex : string; bls_pop_hex : string; vrf_pubkey_hex : string; seed_hex : string;
}.

(** A line of standard output; a [KeyBundle] and a summary are printed as JSON. *)
Inductive Output :=
| OutBundle (b : KeyBundle)
| OutSummary (columns : list string)
| OutCheckpoint (height : Height) (hash : string)
| OutMacroQc (checkpoint : string) (mode : AggregationMode) (signers : nat)
| OutEvidenceOk (kind : string)
| OutReplayOk (actions_emitted : Z)
| OutBench (partials iters avg_ns aggs_per_sec : Z).

Inductive CliError :=
| CE_SeedNotHex
| CE_SeedLength
| CE_BlsKeygen (e : CryptoError)
| CE_ReadFile (what : string)
| CE_Decode (what : string)
| CE_ParseValset
| CE_Verifier (e : Error)
| CE_Step (i : nat) (e : Error)
| CE_Store (e : StoreError)
| CE_Aggregate (e : CryptoError).

Abbreviation cresult := (outcome CliError).

(** A command that prints before it may fail *)
Abbreviation printed := (list Output * cresult unit)%type.
Definition and_then {A} (r : cresult A) (k : A → printed) : printed :=
  match r with
  | Ok a => k a
  | Err e => ([], Err e)
  | Panic => ([], Panic)
  | NoFuel => ([], NoFuel)
  end.
Definition prints (r : cresult Output) : printed := and_then r (λ o, ([o], Ok tt)).

(** ** [stub_context.rs]

    [EmptyDag], [EmptyValidatorSet] and [FixedBeacon(Hash32::zero())] with [PanickingSigner].
    ([FixedClock] and [NoopPersistence] complete the bundle; [step] calls neither.) *)

Definition EmptyDag_vertex (_ : Hash32) : result (option CertifiedVertex) := Ok None.
Definition EmptyDag_vertices_at_round (_ : Round) : result (list CertifiedVertex) := Ok [].
Definition EmptyValidatorSet_set_for (_ : Epoch) : result (option ValidatorSet) :=
  Ok (Some (MkValidatorSet 0 [] 0)).
Definition FixedBeacon_current (beacon : Hash32) : result Hash32 := Ok beacon.
Definition replay_host_context : HostContext :=
  MkHostContext EmptyDag_vertex EmptyDag_vertices_at_round EmptyValidatorSet_set_for
    (FixedBeacon_current Hash32_zero) PanickingSigner_sign_bls PanickingSigner_vrf_prove.

(** ** [commands/keygen.rs]

    [chacha20 seed i] is the [i]-th block of 32 bytes drawn from [ChaCha20Rng::from_seed(seed)];
    [entropy] what [thread_rng] fills the seed with. *)
Section keygen.
Context `{Primitives, Curve, Hex}.
Context (chacha20 : bytes → nat → bytes).

Definition keygen_seed (args : KeygenArgs) (entropy : bytes) : cresult bytes :=
  match ka_seed args with
  | Some s =>
      let trimmed := default s (strip_prefix "0x" s) in
      match hex_decode trimmed with
      | None => Err CE_SeedNotHex
      | Some bs => if (length bs =? 32)%nat then Ok bs else Err CE_SeedLength
      end
  | None => Ok entropy
  end.

Definition keygen_run (args : KeygenArgs) (entropy : bytes) : cresult KeyBundle :=
  seed ← keygen_seed args entropy;
  sk ← map_err CE_BlsKeygen (SecretKey_from_ikm (chacha20 seed 0));
  let pop := generate_pop sk in
  let vrf := VrfKey_from_seed seed in
  Ok (MkKeyBundle (hex_encode (bpk_bytes (PublicKey_to_bytes (blst_sk_to_pk sk))))
        (hex_encode (bsig_bytes pop)) (hex_encode (VrfKey_pubkey vrf)) (hex_encode seed)).

(** ** [commands/bench_aggregate.rs]

    [elapsed i] is what the clock measured around iteration [i]. *)
Fixpoint bench_loop `{Build} (sigs : list BlsSig) (elapsed : Z → Z) (iters : list Z) (total_ns : Z)
  : cresult Z :=
  match iters with
  | [] => Ok total_ns
  | i :: iters =>
      _ ← map_err CE_Aggregate (aggregate_sigs sigs);
      total_ns ← add_w 128 total_ns (elapsed i);
      bench_loop sigs elapsed iters total_ns
  end.

Definition bench_aggregate_run `{Build} (args : BenchArgs) (elapsed : Z → Z) : cresult Output :=
  sks ← omap_list (λ i, map_err CE_BlsKeygen (SecretKey_from_ikm (chacha20 (replicate 32 42) i)))
          (seq 0 (Z.to_nat (ba_partials args)));
  let msg := str_bytes "bench-aggregate-message" in
  let sigs := (λ sk, sign sk dst.MICRO_QC msg) <$> sks in
  total_ns ← bench_loop sigs elapsed (seqZ 0 (ba_iters args)) 0;
  if ba_iters args =? 0 then Panic
  else
    let avg_ns := total_ns / ba_iters args in
    let aggs_per_sec := 1000000000 / Z.max avg_ns 1 in
    Ok (OutBench (ba_partials args) (ba_iters args) avg_ns aggs_per_sec).
End keygen.

(** ** [commands/inspect.rs] *)
Section inspect.
Context `{RocksDb D, Hex, Codec MacroCheckpoint, Codec MacroQc}.
(** [DB::open_cf_descriptors], given whether the directory and the missing columns are created,
    the bound of the log and the columns; [None] is an error. *)
Context (open_cf_descriptors : bool → bool → Z → PathBuf → list string → option D).

(** [Database::open] *)
Definition database_open `{Build} (cfg : StorageConfig) : sresult D :=
  wal ← mul_w 64 (max_total_wal_size_mb cfg) 1024;
  wal ← mul_w 64 wal 1024;
  match open_cf_descriptors (create_if_missing cfg) true wal (sc_path cfg) (cf_name <$> cf_all) with
  | Some db => Ok db
  | None => Err StoreRocks
  end.

(** The loop over the rows of a column: what was printed stays printed. *)
Fixpoint dump `{Codec T} (what : string) (line : T → Output)
    (items : list (option (bytes * bytes))) : printed :=
  match items with
  | [] => ([], Ok tt)
  | None :: _ => ([], Err (CE_Store StoreRocks))
  | Some (_, v) :: items =>
      match from_slice v with
      | None => ([], Err (CE_Decode what))
      | Some x => let '(out, r) := dump what line items in (line x :: out, r)
      end
  end.

Definition checkpoint_line (cp : MacroCheckpoint) : Output :=
  OutCheckpoint (mc_height cp) (hex_encode (h32_bytes (mc_hash cp))).
Definition macro_qc_line (qc : MacroQc) : Output :=
  OutMacroQc (hex_encode (h32_bytes (qc_checkpoint_hash qc))) (qc_mode qc)
    (count_ones (agg_bitmap (qc_agg qc))).

(** [match args.kind]; [db.cf(..)?] first, where a column is read. *)
Definition inspect_db (db : D) (kind : InspectKind) : printed :=
  match kind with
  | Summary => ([OutSummary (cf_name <$> cf_all)], Ok tt)
  | MacroCheckpoints =>
      and_then (map_err CE_Store (db_cf db CF_MacroCheckpoint)) (λ h,
        dump "MacroCheckpoint" checkpoint_line (iterator_cf db h))
  | MacroQcs =>
      and_then (map_err CE_Store (db_cf db CF_MacroQc)) (λ h,
        dump "MacroQc" macro_qc_line (iterator_cf db h))
  end.

Definition inspect_run `{Build} (args : InspectArgs) : printed :=
  let cfg := MkStorageConfig (ia_db args) false 64 in
  and_then (map_err CE_Store (database_open cfg)) (λ db, inspect_db db (ia_kind args)).
End inspect.

(** ** [commands/verify.rs] *)
Definition kind_of (ev : SlashEvidence) : string :=
  match ev with
  | SE_MacroEquivocation _ => "macro_equivocation"
  | SE_Surround _ => "surround"
  | SE_DoubleVote _ => "double_vote"
  | SE_VertexEquivocation _ => "vertex_equivocation"
  end.

(** [anyhow::Context] on an option: [.context(..)?] *)
Definition or_fail {A} (o : option A) (e : CliError) : cresult A :=
  match o with Some a => Ok a | None => Err e end.

Section verify.
Context `{Primitives, MacroBorsh, !Borsh SignableVertex, Files, Toml, Codec SlashEvidence}.
(** [std::fs::read] *)
Context (read_file : PathBuf → option bytes).

Definition verify_run (args : VerifyArgs) : cresult Output :=
  bs ← or_fail (read_file (va_evidence args)) (CE_ReadFile "read evidence file");
  ev ← or_fail (from_slice bs) (CE_Decode "SlashEvidence");
  raw ← or_fail (read_to_string (va_valset args)) (CE_ReadFile "read valset file");
  set ← or_fail (valset_from_str raw) CE_ParseValset;
  _ ← map_err CE_Verifier (verify_evidence ev set);
  Ok (OutEvidenceOk (kind_of ev)).
End verify.

(** ** [commands/replay_log.rs] *)
Section replay.
Context `{Build, Primitives, MacroBorsh, !Borsh SignableVertex, !Borsh (list Hash32)}.
Context `{Codec (list Event)} (fuel : nat) (read_file : PathBuf → option bytes).

(** [for (i, ev) in events.into_iter().enumerate()] *)
Fixpoint replay_loop (i : nat) (events : list Event) (sm : StateMachine unit)
    (total_actions : Z) : cresult Z :=
  match events with
  | [] => Ok total_actions
  | ev :: events =>
      let '(r, sm) := step fuel ev replay_host_context sm in
      actions ← map_err (CE_Step i) r;
      replay_loop (S i) events sm (total_actions + length actions)
  end.

Definition replay_machine : StateMachine unit :=
  StateMachine_new default_table_17_1 (MkValidatorId (replicate 32 0)) tt.

Definition replay_run (args : ReplayArgs) : cresult Output :=
  bs ← or_fail (read_file (ra_log args)) (CE_ReadFile "read event log");
  events ← or_fail (from_slice bs) (CE_Decode "Vec<Event>");
  total_actions ← replay_loop 0 events replay_machine 0;
  Ok (OutReplayOk total_actions).
End replay.

(** ** [commands/mod.rs], with what the process is given from outside *)
Section dispatch.
Context `{Build, Primitives, Curve, Hex, MacroBorsh, !Borsh SignableVertex, !Borsh (list Hash32)}.
Context `{Files, Toml, RocksDb D, !Codec MacroCheckpoint, Codec MacroQc}.
Context `{Codec SlashEvidence, Codec (list Event)}.
Context (fuel : nat) (read_file : PathBuf → option bytes) (chacha20 : bytes → nat → bytes)
  (entropy : bytes) (elapsed : Z → Z)
  (open_cf_descriptors : bool → bool → Z → PathBuf → list string → option D).

Definition cli_dispatch (cmd : Command) : printed :=
  match cmd with
  | Cmd_Inspect a => inspect_run open_cf_descriptors a
  | Cmd_Keygen a => prints (b ← keygen_run chacha20 a entropy; Ok (OutBundle b))
  | Cmd_Verify a => prints (verify_run read_file a)
  | Cmd_ReplayLog a => prints (replay_run fuel read_file a)
  | Cmd_BenchAggregate a => prints (bench_aggregate_run chacha20 a elapsed)
  end.
End dispatch.

(** ** Replaying a log

    The stub host knows no validator, no vertex and no round timer, so a fresh machine has no
    proposal, candidate or timer for an event to meet: it stays [idle], and only counts what it
    rejects. *)
Section replay_lemmas.
Context `{Build, Primitives, MacroBorsh, !Borsh SignableVertex, !Borsh (list Hash32)} (fuel : nat).

Definition macro_idle (n : Z) (b : MacroBook) : Prop :=
  candidate b = ∅ ∧ mb_timers b = MacroTimerBook_new ∧ 0 ≤ mb_rejected_crypto b ≤ n.
Definition vertex_idle (n : Z) (s : VertexState unit) : Prop :=
  let b := vbook s in
  started b = false ∧ my_proposals b = ∅ ∧ round_timer b = None ∧ 0 ≤ rejected_crypto b ≤ n.
Definition idle (n : Z) (s : StateMachine unit) : Prop :=
  sm_micro s = MicroState_new ∧ macro_idle n (sm_macros s) ∧ vertex_idle n (sm_vertices s).

Lemma idle_new cfg id : idle 0 (StateMachine_new cfg id tt).
Proof. by repeat split; cbn. Qed.
Lemma macro_idle_mono n m b : n ≤ m → macro_idle n b → macro_idle m b.
Proof. intros ? (?&?&?). split_and!; cbn; auto; lia. Qed.
Lemma vertex_idle_mono n m s : n ≤ m → vertex_idle n s → vertex_idle m s.
Proof. intros ? (?&?&?&?). split_and!; cbn; auto; lia. Qed.

Definition is_certified (ev : Event) : Prop :=
  match ev with CertifiedVertexReceived _ => True | _ => False end.
#[global] Instance is_certified_dec ev : Decision (is_certified ev).
Proof. destruct ev; apply _. Defined.

(** Nothing is said, and the book stays idle with one rejection more at most. *)
Definition ignored {S} (I : Z → S → Prop) (n : Z) (m : M Error S Actions) (s : S) : Prop :=
  wp m (λ r s', r = Ok [] ∧ I (n + 1) s') s.

Lemma find_candidate_idle n b h : macro_idle n b → find_candidate b h = None.
Proof. intros [Hb _]. unfold find_candidate. by rewrite Hb. Qed.

Lemma reject_crypto_idle n b :
  n + 1 < 2 ^ 64 → macro_idle n b → ignored macro_idle n (_ ← reject_crypto; mret []) b.
Proof.
  intros Hn (Hc & Ht & Hr). unfold ignored, reject_crypto.
  apply wp_bind, wp_bind, wp_gets, wp_bind, wp_lift. rewrite add_w_ok by (unfold uint_ok; lia).
  apply wp_modify, wp_ret. split; [done|]. destruct b; cbn in *. split_and!; cbn; auto; lia.
Qed.
Lemma vreject_crypto_idle n s :
  n + 1 < 2 ^ 64 → vertex_idle n s → ignored vertex_idle n (_ ← vreject_crypto; mret []) s.
Proof.
  intros Hn (Hs & Hp & Ht & Hr). unfold ignored, vreject_crypto.
  apply wp_bind, wp_bind, wp_gets, wp_bind, wp_lift. rewrite add_w_ok by (unfold uint_ok; lia).
  apply wp_modify, wp_ret. split; [done|]. destruct s as [[]]; cbn in *. split_and!; cbn; auto; lia.
Qed.

(** The handlers, against the empty validator set *)
Lemma bls_partial_ignored cfg bp n b :
  macro_idle n b → ignored macro_idle n (on_bls_partial cfg bp replay_host_context) b.
Proof.
  intros Hb. apply wp_bind, wp_gets. rewrite (find_candidate_idle n) by done.
  split; [done|]. by apply (macro_idle_mono n); [lia|].
Qed.
Lemma subnet_aggregate_ignored cfg agg n b :
  macro_idle n b → ignored macro_idle n (on_subnet_aggregate cfg agg replay_host_context) b.
Proof.
  intros Hb. apply wp_bind, wp_gets. rewrite (find_candidate_idle n) by done.
  split; [done|]. by apply (macro_idle_mono n); [lia|].
Qed.
Lemma macro_qc_ignored cfg qc n b :
  macro_idle n b → ignored macro_idle n (on_macro_qc_received cfg qc replay_host_context) b.
Proof.
  intros Hb. assert (macro_idle (n + 1) b) by (apply (macro_idle_mono n); [lia|done]).
  apply wp_bind, wp_gets. case_bool_decide; [by apply wp_ret|].
  apply wp_bind, wp_lift. cbn. by rewrite (find_candidate_idle n).
Qed.
Lemma macro_timer_ignored cfg id n b :
  macro_idle n b → ignored macro_idle n (macro_on_timer_fired cfg replay_host_context id []) b.
Proof.
  intros Hb. apply wp_bind, wp_gets. rewrite (proj1 (proj2 Hb)).
  split; [done|]. by apply (macro_idle_mono n); [lia|].
Qed.
Lemma macro_proposal_ignored cfg p n b :
  n + 1 < 2 ^ 64 → macro_idle n b →
  ignored macro_idle n (on_macro_proposal cfg p replay_host_context) b.
Proof.
  intros Hn Hb. apply wp_bind, wp_lift. cbn.
  assert (Hcont : ∀ b1, macro_idle n b1 → ignored macro_idle n (book ← gets id;
      _ ← lift (beacon_for_height book replay_host_context (mc_height (mp_checkpoint p)));
      _ ← reject_crypto; mret []) b1).
  { intros b1 Hb1. apply wp_bind, wp_gets, wp_bind, wp_lift. unfold beacon_for_height. cbn.
    by destruct (candidate_beacon b1 !! mc_height (mp_checkpoint p)); apply reject_crypto_idle. }
  apply wp_bind, wp_gets, wp_bind. case_bool_decide.
  - apply wp_bind, wp_lift. cbn. apply wp_modify, Hcont. by destruct b.
  - by apply wp_ret, Hcont.
Qed.

Lemma certified_vertex_silent k cfg cv n s :
  fuel = S k → vertex_idle n s →
  wp (vertex_on_certified_vertex fuel cfg cv replay_host_context)
    (λ r s', r = Ok [] ∧ vertex_idle n s') s.
Proof.
  intros -> Hs. apply wp_bind, wp_modify. cbn. apply wp_bind, wp_gets.
  destruct s as [[] q]. destruct Hs as [Hstart Hs]; cbn in *. rewrite Hstart. cbn.
  by apply wp_ret.
Qed.
Lemma vertex_proposal_ignored cfg p n s :
  n + 1 < 2 ^ 64 → vertex_idle n s →
  ignored vertex_idle n (on_vertex_proposal cfg p replay_host_context) s.
Proof.
  intros Hn Hs. apply wp_bind, wp_lift. cbn.
  case_bool_decide; by apply vreject_crypto_idle.
Qed.
Lemma vertex_partial_ignored cfg bp n s :
  vertex_idle n s → ignored vertex_idle n (on_vertex_partial fuel cfg bp replay_host_context) s.
Proof.
  intros Hs. assert (vertex_idle (n + 1) s) by (apply (vertex_idle_mono n); [lia|done]).
  apply wp_bind, wp_gets. destruct (_ || _); [by apply wp_ret|]. destruct Hs as (_ & -> & _).
  by apply wp_ret.
Qed.
Lemma vertex_timer_ignored cfg id n s :
  vertex_idle n s → ignored vertex_idle n (vertex_on_timer_fired cfg replay_host_context id) s.
Proof.
  intros Hs. apply wp_bind, wp_gets. destruct (proj2 (proj2 Hs)) as [-> _].
  rewrite bool_decide_true by done. apply wp_ret. split; [done|].
  by apply (vertex_idle_mono n); [lia|].
Qed.

(** On an empty validator set the search for an anchor to wait for is an error. *)
Definition no_validators : Error := InvalidConfig "anchor selection on empty validator set".
Lemma certified_vertex_fails cfg cv :
  0 ≤ v_round (cv_vertex cv) →
  on_certified_vertex fuel cfg cv replay_host_context MicroState_new = (Err no_validators, MicroState_new).
Proof.
  intros Hr. unfold on_certified_vertex, of_round.
  rewrite seqZ_cons by (pose proof (Z.div_pos (v_round (cv_vertex cv)) 4); lia). done.
Qed.

(** Every other event leaves an idle machine idle. *)
Lemma step_idle ev n s :
  ¬ is_certified ev → n + 1 < 2 ^ 64 → idle n s →
  ignored idle n (step fuel ev replay_host_context) s.
Proof.
  intros Hev Hn (Hm & Hma & Hv). destruct s as [cfg mi ma vs]; cbn in *; subst mi.
  pose proof (macro_idle_mono n (n + 1) ma ltac:(lia) Hma) as Hma'.
  pose proof (vertex_idle_mono n (n + 1) vs ltac:(lia) Hv) as Hv'.
  assert (Hmac : ∀ m, ignored macro_idle n m ma →
    ignored idle n (zoom sm_macros m) (MkStateMachine cfg MicroState_new ma vs)).
  { intros m [Hr Hi]. by apply wp_zoom. }
  assert (Hver : ∀ m, ignored vertex_idle n m vs →
    ignored idle n (zoom sm_vertices m) (MkStateMachine cfg MicroState_new ma vs)).
  { intros m [Hr Hi]. by apply wp_zoom. }
  apply wp_bind, wp_gets. destruct ev; cbn [is_certified sm_cfg] in *; try done.
  - by apply Hmac, macro_proposal_ignored.
  - by apply Hmac, bls_partial_ignored.
  - by apply Hmac, subnet_aggregate_ignored.
  - by apply Hmac, macro_qc_ignored.
  - apply wp_bind, wp_zoom. cbn. apply wp_bind, wp_zoom.
    destruct (macro_timer_ignored cfg id n ma Hma) as [Hr Hi]. cbn. rewrite Hr.
    apply wp_bind, wp_zoom. destruct (vertex_timer_ignored cfg id n vs Hv) as [Hr' Hi']. cbn.
    rewrite Hr'. by apply wp_ret.
  - by apply Hver, vertex_proposal_ignored.
  - by apply Hver, vertex_partial_ignored.
Qed.

Lemma step_certified cv n k s :
  fuel = S k → 0 ≤ v_round (cv_vertex cv) → idle n s →
  (step fuel (CertifiedVertexReceived cv) replay_host_context s).1 = Err no_validators.
Proof.
  intros Hk Hr (Hm & Hma & Hv). destruct s as [cfg mi ma vs]; cbn in *; subst mi.
  change (wp (step fuel (CertifiedVertexReceived cv) replay_host_context) (λ r _, r = Err no_validators)
    (MkStateMachine cfg MicroState_new ma vs)).
  apply wp_bind, wp_gets, wp_bind, wp_zoom. cbn.
  destruct (certified_vertex_silent k cfg cv n vs Hk Hv) as [-> _].
  apply wp_bind, wp_zoom. cbn. by rewrite certified_vertex_fails.
Qed.

Lemma replay_loop_idle k i n total events s :
  fuel = S k → idle n s → n + length events < 2 ^ 64 →
  (∀ cv, CertifiedVertexReceived cv ∈ events → 0 ≤ v_round (cv_vertex cv)) →
  replay_loop fuel i events s total =
    match list_find is_certified events with
    | None => Ok total
    | Some (j, _) => Err (CE_Step (i + j) no_validators)
    end.
Proof.
  intros Hk. revert i n s. induction events as [|ev events IH]; intros i n s Hs Hn Hr; [done|].
  cbn [replay_loop list_find length] in *. case_decide as Hev.
  - destruct ev as [cv| | | | | | | | | |]; try done.
    pose proof (step_certified cv n k s Hk (Hr cv ltac:(by left)) Hs) as He.
    destruct (step fuel _ _ s) as [r s']. cbn in He. subst r. cbn. by rewrite Nat.add_0_r.
  - destruct (step_idle ev n s Hev ltac:(lia) Hs) as [He Hi].
    destruct (step fuel ev _ s) as [r s']. cbn in He, Hi. subst r. cbn. rewrite Z.add_0_r.
    rewrite (IH (S i) (n + 1) s' Hi) by (lia || (intros cv ?; apply Hr; by right)).
    destruct (list_find is_certified events) as [[j e]|]; cbn; [|done]. by rewrite Nat.add_succ_r.
Qed.
End replay_lemmas.

(** ** What the commands answer *)

(** [C37] [replay-log] on a log that decodes to [events]: the first certified vertex is an error of the
    anchor schedule, which has no validator to choose from; without one, no event of the log
    makes the machine say anything.  The signer, which would panic, is never asked. *)
Theorem replay_spec `{Build, Primitives, MacroBorsh, !Borsh SignableVertex, !Borsh (list Hash32)}
    `{Codec (list Event)} (fuel : nat) (read_file : PathBuf → option bytes) (args : ReplayArgs)
    (bs : bytes) (events : list Event) :
  read_file (ra_log args) = Some bs → from_slice bs = Some events →
  length events < 2 ^ 64 →
  (∀ cv, CertifiedVertexReceived cv ∈ events → 0 ≤ v_round (cv_vertex cv)) →
  replay_run (S fuel) read_file args =
    match list_find is_certified events with
    | None => Ok (OutReplayOk 0)
    | Some (i, _) => Err (CE_Step i no_validators)
    end.
Proof.
  intros Hf Hd Hn Hr. unfold replay_run. rewrite Hf. cbn. rewrite Hd. cbn.
  rewrite (replay_loop_idle (S fuel) fuel 0 0) by (done || apply idle_new).
  by destruct (list_find is_certified events) as [[i ev]|].
Qed.

(** [verify] prints exactly when the evidence convicts under the set of the file. *)
Theorem verify_run_spec `{Primitives, MacroBorsh, !Borsh SignableVertex, Files, Toml}
    `{Codec SlashEvidence} (read_file : PathBuf → option bytes) args line :
  verify_run read_file args = Ok line ↔
    ∃ bs ev raw set, read_file (va_evidence args) = Some bs ∧ from_slice bs = Some ev ∧
      read_to_string (va_valset args) = Some raw ∧ valset_from_str raw = Some set ∧
      verify_evidence ev set = Ok tt ∧ line = OutEvidenceOk (kind_of ev).
Proof.
  unfold verify_run, or_fail. destruct (read_file _) as [bs|]; cbn; [|naive_solver].
  destruct (from_slice bs) as [ev|] eqn:He; cbn; [|naive_solver].
  destruct (read_to_string _) as [raw|]; cbn; [|naive_solver].
  destruct (valset_from_str raw) as [set|] eqn:Hs; cbn; [|naive_solver].
  assert (Hex : (∃ bs0 ev0 raw0 set0, Some bs = Some bs0 ∧ from_slice bs0 = Some ev0 ∧
      Some raw = Some raw0 ∧ valset_from_str raw0 = Some set0 ∧ verify_evidence ev0 set0 = Ok tt ∧
      line = OutEvidenceOk (kind_of ev0)) ↔
    verify_evidence ev set = Ok tt ∧ line = OutEvidenceOk (kind_of ev)).
  { split; [|intros [??]; by exists bs, ev, raw, set].
    intros (? & ? & ? & ? & [= <-] & ? & [= <-] & ? & ? & ?). by simplify_eq. }
  rewrite Hex. destruct (verify_evidence ev set) as [[]|e| |]; cbn; naive_solver.
Qed.

(** What key generation relies on: a key pair made from key material signs and verifies, encoded
    keys and signatures are bytes and decode, hexadecimal has no [x] and denotes bytes. *)
Class KeygenLaws `{Primitives, Hex} := {
  kl_key ikm sk : bytes_ok ikm → blst_key_gen ikm = Some sk →
    let pk_bytes := blst_pk_compress (blst_sk_to_pk sk) in
    bytes_ok pk_bytes ∧ blst_pk_uncompress pk_bytes = Some (blst_sk_to_pk sk) ∧
    bytes_ok (blst_sig_compress (blst_sign sk pk_bytes dst.POP));
  kl_sign_verifies ikm sk msg dst : blst_key_gen ikm = Some sk →
    blst_verify (blst_sign sk msg dst) msg dst (blst_sk_to_pk sk) = true;
  kl_no_prefix bs : strip_prefix "0x" (hex_encode bs) = None;
  kl_decode_bytes s bs : hex_decode s = Some bs → bytes_ok bs;
}.

Section keygen_lemmas.
Context `{BlsLaws, Curve, !Hex, !HexLaws, !KeygenLaws} (chacha20 : bytes → nat → bytes).

Lemma keygen_seed_ok args entropy seed :
  bytes_ok entropy → length entropy = 32%nat →
  keygen_seed args entropy = Ok seed → bytes_ok seed ∧ length seed = 32%nat.
Proof.
  intros Hb Hl. unfold keygen_seed. destruct (ka_seed args) as [s|]; [|by intros [= <-]].
  destruct (hex_decode _) as [bs|] eqn:Hd; [|done].
  destruct (Nat.eqb_spec (length bs) 32); [|done]. intros [= <-]. by eauto using kl_decode_bytes.
Qed.

Lemma keygen_seed_printed seed entropy (prefix : bool) :
  bytes_ok seed → length seed = 32%nat →
  keygen_seed (MkKeygenArgs (Some (if prefix then "0x" +:+ hex_encode seed else hex_encode seed))) entropy = Ok seed.
Proof.
  intros Hb Hl. unfold keygen_seed. cbn [ka_seed].
  replace (default _ (strip_prefix "0x" _)) with (hex_encode seed).
  - by rewrite hex_roundtrip, Hl.
  - destruct prefix; [by rewrite strip_prefix_app|by rewrite kl_no_prefix].
Qed.

(** The seed that [keygen] prints, with or without [0x], regenerates the bundle; the bundle holds
    the VRF key of the seed, and a proof of possession that verifies under its BLS key. *)
Theorem keygen_seed_regenerates args entropy b :
  bytes_ok entropy → length entropy = 32%nat → (∀ seed i, bytes_ok (chacha20 seed i)) →
  keygen_run chacha20 args entropy = Ok b →
  (∀ (prefix : bool) entropy', keygen_run chacha20
     (MkKeygenArgs (Some (if prefix then "0x" +:+ seed_hex b else seed_hex b))) entropy' = Ok b) ∧
  ∃ seed pk_bytes pk pop, hex_decode (seed_hex b) = Some seed ∧
    vrf_pubkey_hex b = hex_encode (VrfKey_pubkey (VrfKey_from_seed seed)) ∧
    hex_decode (bls_pubkey_hex b) = Some pk_bytes ∧
    PublicKey_from_bytes (MkBlsPubkey pk_bytes) = Ok pk ∧
    hex_decode (bls_pop_hex b) = Some pop ∧ verify_pop pk (MkBlsSig pop) = Ok tt.
Proof.
  intros Hb Hl Hrng (seed & Hseed & (sk & Hsk & [= <-])%outcome_bind_Ok)%outcome_bind_Ok.
  destruct (keygen_seed_ok _ _ _ Hb Hl Hseed) as [Hsb Hsl].
  cbn [seed_hex vrf_pubkey_hex bls_pubkey_hex bls_pop_hex]. split.
  - intros prefix entropy'. unfold keygen_run.
    pose proof (keygen_seed_printed seed entropy' prefix Hsb Hsl) as ->. cbn. by rewrite Hsk.
  - unfold SecretKey_from_ikm in Hsk. destruct (blst_key_gen _) as [sk'|] eqn:Hgen; [|done].
    injection Hsk as ->. destruct (kl_key _ _ (Hrng seed 0%nat) Hgen) as (Hpk & Hun & Hpop).
    exists seed. do 3 eexists. split_and!.
    + by apply hex_roundtrip.
    + done.
    + by apply hex_roundtrip.
    + unfold PublicKey_from_bytes. cbn. by rewrite Hun.
    + by apply hex_roundtrip.
    + unfold verify_pop. cbn. by rewrite bls_sig_roundtrip, (kl_sign_verifies _ _ _ _ Hgen).
Qed.
End keygen_lemmas.

(** A dump of a column that decodes prints a line per row. *)
Section inspect_lemmas.
Context `{RocksLaws D, Hex}.

Lemma dump_lists_rows `{Codec T} what (line : T → Output) kvs :
  (∀ k v, (k, v) ∈ kvs → is_Some (from_slice (T := T) v)) →
  ∃ xs, dump what line (Some <$> kvs) = (line <$> xs, Ok tt) ∧
    Forall2 (λ kv x, from_slice kv.2 = Some x) kvs xs.
Proof.
  induction kvs as [|[k v] kvs IH]; intros Hdec; [by exists []|].
  destruct (Hdec k v ltac:(by left)) as [x Hx].
  destruct IH as (xs & Hxs & Hall); [intros k' v' ?; apply (Hdec k'); by right|].
  exists (x :: xs). cbn. rewrite Hx, Hxs. split; [done|by constructor].
Qed.

(** A row of a checkpoint, under the key of its height *)
Definition checkpoint_row `{Codec MacroCheckpoint} (kv : bytes * bytes) (cp : MacroCheckpoint) : Prop :=
  kv = (keys.height (mc_height cp), to_vec cp) ∧ encodable cp ∧ u64_ok (mc_height cp).

Lemma height_key_lt h h' : u64_ok h → u64_ok h' → klt (keys.height h) (keys.height h') ↔ h < h'.
Proof.
  intros Hh Hh'. unfold klt, keys.height. cbn [kcmp]. rewrite (be_bytes_cmp 8) by done.
  by rewrite Z.compare_lt_iff.
Qed.

Lemma checkpoint_rows_ascend `{Codec MacroCheckpoint} kvs cps :
  Forall2 checkpoint_row kvs cps → StronglySorted klt kvs.*1 →
  StronglySorted Z.lt (mc_height <$> cps).
Proof.
  induction 1 as [|kv cp kvs cps (-> & _ & Hh) Hall IH]; cbn; [constructor|].
  intros [Hs Hlt]%StronglySorted_inv. constructor; [by apply IH|].
  clear IH Hs. induction Hall as [|kv cp' kvs cps (-> & _ & Hh') _ IH]; cbn in *; [constructor|].
  apply Forall_cons in Hlt as [Hlt Hlts]. constructor; [by apply height_key_lt|by apply IH].
Qed.

(** [inspect --kind macro-checkpoints] on a database whose checkpoints are where
    [put_checkpoint] puts them: every stored checkpoint is printed once, by ascending height. *)
Theorem inspect_lists_checkpoints `{Codec MacroCheckpoint, Codec MacroQc} (db : D) kvs :
  let name := cf_name CF_MacroCheckpoint in
  cf_handle db name = true → iterator_cf db name = Some <$> kvs →
  (∀ k v, rows db !! (name, k) = Some v → ∃ cp, checkpoint_row (k, v) cp) →
  ∃ cps, inspect_db db MacroCheckpoints = (checkpoint_line <$> cps, Ok tt) ∧
    StronglySorted Z.lt (mc_height <$> cps) ∧
    ∀ cp, encodable cp → u64_ok (mc_height cp) →
      cp ∈ cps ↔ rows db !! (name, keys.height (mc_height cp)) = Some (to_vec cp).
Proof.
  intros name Hh Hit Hrows. destruct (iterator_cf_rows _ _ _ Hit) as [Hsort Helem].
  destruct (dump_lists_rows "MacroCheckpoint" checkpoint_line kvs) as (cps & Hdump & Hall).
  { intros k v Hin%Helem. destruct (Hrows _ _ Hin) as (cp & [= -> ->] & He & _). by exists cp. }
  assert (Hrow : Forall2 checkpoint_row kvs cps).
  { eapply (Forall2_impl (λ kv cp, kv ∈ kvs ∧ from_slice kv.2 = Some cp)).
    - apply Forall2_same_length_lookup. rewrite Forall2_same_length_lookup in Hall.
      destruct Hall as [Hl Hall]. split; [done|]. eauto using list_elem_of_lookup_2.
    - intros [k v] cp [Hin%Helem Hd]. destruct (Hrows _ _ Hin) as (cp' & Hcp').
      pose proof Hcp' as ([= -> ->] & He & _). cbn in Hd. unfold encodable in He.
      by simplify_eq. }
  exists cps. split_and!.
  - unfold inspect_db, db_cf. fold name. rewrite Hh. cbn [map_err and_then]. by rewrite Hit.
  - by apply (checkpoint_rows_ascend kvs).
  - intros cp He Hb. rewrite <- Helem. split.
    + intros [i Hi]%list_elem_of_lookup_1.
      destruct (Forall2_lookup_r _ _ _ _ _ Hrow Hi) as (kv & Hkv & -> & _).
      by apply (list_elem_of_lookup_2 _ i).
    + intros [i Hi]%list_elem_of_lookup_1.
      destruct (Forall2_lookup_l _ _ _ _ _ Hrow Hi) as (cp' & Hcp' & Heq & He' & _).
      apply (f_equal snd) in Heq. cbn in Heq. unfold encodable in He, He'.
      rewrite <- Heq, He in He'. injection He' as ->. by apply (list_elem_of_lookup_2 _ i).
Qed.
End inspect_lemmas.

(** [--iters 0] divides by zero. *)
Lemma bench_zero_iters `{Build, Primitives, Curve, Hex} chacha20 args elapsed :
  ba_iters args = 0 → (∀ i, is_Some (blst_key_gen (chacha20 (replicate 32 42) i))) →
  bench_aggregate_run chacha20 args elapsed = Panic.
Proof.
  intros Hi Hk. unfold bench_aggregate_run.
  assert (Hsks : ∀ l, ∃ sks, omap_list (λ i, map_err CE_BlsKeygen
    (SecretKey_from_ikm (chacha20 (replicate 32 42) i))) l = Ok sks).
  { induction l as [|i l [sks IH]]; [by exists []|]. destruct (Hk i) as [sk Hsk].
    exists (sk :: sks). cbn [omap_list]. rewrite IH. unfold SecretKey_from_ikm. by rewrite Hsk. }
  destruct (Hsks (seq 0 (Z.to_nat (ba_partials args)))) as [sks ->]. cbn. by rewrite Hi.
Qed.

(** ** Witnesses *)

#[local] Existing Instances real_hex real_hex_laws toy_curve.

Lemma hex_digit_not_x n : 0 ≤ n < 16 → hex_digit n ≠ "x"%char.
Proof.
  intros Hn. assert (Forall (λ n, hex_digit n ≠ "x"%char) (seqZ 0 16)) as Hall by vdecide.
  rewrite Forall_forall in Hall. apply Hall, elem_of_seqZ. lia.
Qed.
Lemma hex_value_range a x : hex_value a = Some x → 0 ≤ x < 16.
Proof.
  unfold hex_value. repeat case_match; try done; intros [= <-];
    repeat match goal with Hb : (_ && _) = true |- _ => apply andb_true_iff in Hb as [??] end;
    lia.
Qed.
Lemma hex_parse_bytes s bs : hex_parse s = Some bs → bytes_ok bs.
Proof.
  assert (Hlen : ∀ n s bs, (String.length s < n)%nat → hex_parse s = Some bs → bytes_ok bs).
  2: { apply (Hlen (S (String.length s))). lia. }
  intros n. induction n as [|n IH]; [lia|]. intros [|a [|b s']] bs'; cbn; [intros _ [= <-]; constructor|done|].
  intros Hn. destruct (hex_value a) as [x|] eqn:Hx; [|done]. destruct (hex_value b) as [y|] eqn:Hy; [|done].
  destruct (hex_parse s') as [bs''|] eqn:Hs; [|done]. intros [= <-].
  apply hex_value_range in Hx, Hy. constructor; [unfold uint_ok; lia|]. eapply IH, Hs. lia.
Qed.

#[local] Instance toy_keygen_laws : KeygenLaws.
Proof.
  split.
  - intros ikm sk Hb. cbn. destruct ikm as [|k ikm]; [done|]. intros [= ->].
    apply Forall_cons in Hb as [Hk _]. split_and!; [by apply Forall_singleton|done|].
    change (Forall u8_ok ((sk :: Z.of_nat (length dst.POP) :: dst.POP) ++ [1; sk])).
    apply Forall_app. split; [constructor; [done|vdecide]|].
    constructor; [vdecide|by apply Forall_singleton].
  - intros ikm sk msg dst _. cbn. by apply bool_decide_eq_true.
  - intros [|b bs]; [done|]. cbn.
    pose proof (hex_digit_not_x (b `mod` 16) (Z.mod_pos_bound b 16 ltac:(lia))) as Hb.
    by rewrite (bool_decide_false (_ = hex_digit (b `mod` 16))) by done; destruct (bool_decide _).
  - apply hex_parse_bytes.
Qed.

(** A key bundle from entropy, and again from the seed it prints *)
Definition toy_chacha (seed : bytes) (i : nat) : bytes := le_bytes 32 (of_le seed + i).
Definition toy_bundle : cresult KeyBundle := keygen_run toy_chacha (MkKeygenArgs None) (replicate 32 171).
Lemma keygen_seed_regenerates_witness :
  match toy_bundle with
  | Ok b => ∀ entropy', keygen_run toy_chacha (MkKeygenArgs (Some ("0x" +:+ seed_hex b))) entropy' = Ok b
  | _ => False
  end.
Proof.
  assert (Hok : is_ok toy_bundle = true) by (vm_compute; reflexivity).
  apply is_ok_true in Hok as [b Hb]. rewrite Hb. intros entropy'.
  destruct (keygen_seed_regenerates toy_chacha (MkKeygenArgs None) (replicate 32 171) b) as [Hagain _].
  - vdecide.
  - reflexivity.
  - intros seed i. apply le_bytes_ok.
  - exact Hb.
  - apply (Hagain true).
Defined.

(** Two logs: rejected and unknown messages only, and one with a certified vertex *)
Definition toy_quiet_log : list Event :=
  [TimerFired (MkTimerId 0); VertexProposalReceived (MkVertexProposal toy_honest (MkBlsSig []));
   MacroQcReceived toy_lone_qc; ValidatorSetUpdated 0 (toy_set 4)].
Definition toy_loud_log : list Event := toy_quiet_log ++ [CertifiedVertexReceived (toy_cv 3)].
#[local] Instance toy_log_borsh : Borsh (list Event) := λ l, [Z.of_nat (length l)].
#[local] Instance toy_log_codec : Codec (list Event) := λ bs,
  if bool_decide (bs = [4]) then Some toy_quiet_log else Some toy_loud_log.
Lemma toy_quiet_log_certified cv : ¬ CertifiedVertexReceived cv ∈ toy_quiet_log.
Proof. unfold toy_quiet_log. rewrite !elem_of_cons, elem_of_nil. naive_solver. Qed.
Lemma replay_spec_witness :
  replay_run 1 (λ _, Some [4]) (MkReplayArgs (path_from "log")) = Ok (OutReplayOk 0) ∧
  replay_run 1 (λ _, Some [5]) (MkReplayArgs (path_from "log")) = Err (CE_Step 4 no_validators).
Proof.
  split.
  - rewrite (replay_spec 0 (λ _, Some [4]) _ [4] toy_quiet_log);
      [reflexivity|reflexivity|reflexivity|reflexivity|].
    intros cv Hcv. by apply toy_quiet_log_certified in Hcv.
  - rewrite (replay_spec 0 (λ _, Some [5]) _ [5] toy_loud_log);
      [reflexivity|reflexivity|reflexivity|reflexivity|].
    intros cv [Hcv|[= ->]%list_elem_of_singleton]%elem_of_app; [|vdecide].
    by apply toy_quiet_log_certified in Hcv.
Defined.
